(* ===== verification/_CoqProject ===== *)
-Q . S2P
Prelude.v
GoLib.v
Resp.v
Aof.v
Sds.v
Murmur.v
HllSparse.v
HllDense.v
Hll.v
World.v
Lru.v
Store.v
StoreInv.v
StoreSpec.v
StoreClaims.v
Evict.v
Slot.v
Layout.v
Sha1.v
Commands.v
CommandClaims.v
Dispatch.v
DispatchClaims.v
LayoutFile.v
Transaction.v
Frame.v
Keyspace.v
Deadlines.v
Recovery.v
Restart.v
Evicted.v
Connection.v
Server.v
ServerInv.v
ServerRun.v
ServerClaims.v
Sessions.v
Linearizable.v
Shutdown.v
Main.v
