(* ===== verification/Prelude.v ===== *)
(** * Rediska: a verification development

    Rediska (src/) is a Redis-compatible key-value server in Go. Client connections
    parse RESP requests and send them over one channel to a single dispatch worker;
    the worker checks that this node owns the keys, evicts keys when memory is
    short, runs the command's handler on the store and appends successful writes to
    the append-only file, which is replayed at startup. This library translates that
    program into executable Rocq definitions and proves what makes it correct.

    ** The parts and where they are modelled

    - [Prelude]: notation scope, tactics, hint databases, machine integers, strings
      and sums over maps. A Go integer is the [Z] it denotes and every wrap-around is
      written out ([u8], [u16], [u32], [u64], [i64]); strings and byte slices are
      [string], byte buffers that the code does arithmetic on are lists of [Z].
    - [GoLib]: panics ([outcome]), the state monad of code that may panic ([GoM]) with
      its rule of total correctness ([wp]), strconv, strings, time, and the class
      [GoEnv]: what Go leaves open (the clock, random numbers, the order of a map
      iteration, [sort.Slice] among equals, the capacity [append] picks, [math.Log], the
      Unicode case tables, and how a write to a file ends). [GoEnvLaws] states what the documentation promises of
      them. Theorems hold for every environment; witnesses use [env_at].
    - [Resp] (src/core/encode.go, resp.go, decode.go): the wire protocol.
    - [Aof] (src/core/aof.go): the append-only file as a string of bytes, writes that fail
      after some of them, and disks that fill up ([disk_holds]).
    - [Sds] (src/core/sds/sds.go): growable strings, contents and capacity.
    - [Murmur], [HllSparse], [HllDense], [Hll] (src/store/hll/): the hash, the sparse
      opcode stream, the packed six-bit registers, and sketches with their cache.
      [hll_denotes] is the abstraction: a sketch stands for its 16384 registers.
    - [World] (src/store/store.go, stats.go): the state of the server. [Store] keeps
      the map, the byte count, the eviction pool and the policy; [World] adds the
      keyspace statistics, the LFU parameters, the file, and a counter of the readings
      of the environment, so that two readings of the clock may differ.
    - [Lru] (src/store/lru.go, lfu.go): access stamps. [Store] (src/store/store.go,
      expire.go): every operation of the store. [Evict] (src/store/lru.go): the pool
      and the eviction loop.
    - [StoreInv], [StoreSpec]: the invariant [store_ok] and a specification of every
      operation by the map it leaves. [StoreClaims]: the theorems for clients.
    - [Slot] (src/cluster/slot.go), [Layout] (src/cluster/config.go): hash slots and the
      ownership table. A node is its position in the list of nodes. [Sha1] and
      [LayoutFile] (ParseLayout, parseRange and nodeID in src/cluster/config.go): the
      parser of the layout file, with what it calls of bufio, strings, net and sha1.
    - [Commands] (src/commands/): requests, the key table, the cluster check, the
      handlers. [CommandClaims]: INCR and EXPIRE.
    - [Dispatch] (src/commands/registry.go, replay in src/server/tcp_server.go), with
      [DispatchClaims]: running one command, a batch, a pipeline, the log.
    - [Transaction] (src/server/transaction.go, the worker of tcp_server.go): MULTI and
      EXEC as a state machine, and the worker's requests.
    - [Frame]: the keys a command may touch. [Keyspace]: the abstract specification of
      the commands on what a client can see (a map from keys to strings and registers,
      without clock, stamps, encodings, caches or byte counts) and the proof that the
      dispatcher refines it; what a memory limit adds is [limited]. [Deadlines]: the same
      for a keyspace with deadlines, at an instant of the clock. [Recovery] and [Restart]:
      replaying the log on these specifications. [Evicted]: replaying it after an eviction.
    - [Connection] (handleConnection in src/server/tcp_server.go): the loop of one
      client connection over its stream of bytes, the folding of requests into
      pipelines and the write buffer. How much of the stream has arrived whenever the
      code asks is arbitrary. The loop is written against the class [Worker], which says
      how a request is answered and how a goroutine panics: [worker] serves it at once in
      the state monad, and in [Server] it is sent to the worker and waited for.
    - [Server] (Run, dispatchWorker, startActiveExpiry and replyChPool in
      src/server/tcp_server.go): the concurrent server as a step relation. A goroutine is
      a resumption ([prog]) of the code of [Connection]; [system] holds the goroutines,
      the command channel with its capacity, the reply channels and their pool, the
      worker, the cancellation and the phase of [Run]; [step] has one rule per channel
      operation, and a connection may fail whenever it is about to act. [ServerRun] is the
      same relation as a function on named actions. [ServerInv]: its invariants, the
      protocol of the reply channels first on its own ([chans_ok]). [ServerClaims],
      [Sessions] (the bytes each client receives), [Linearizable] (the history of requests
      and replies) and [Shutdown]: the theorems.
    - [Main] (src/main.go, src/config/config.go, the start of [Run]): the settings, the
      command line as the flag package reads it, and the start of the program up to the
      loop that accepts connections, with the operating system as a parameter.

    ** What the theorems show

    - Protocol: encoding and decoding are inverse, a truncated command is an error, the
      decoder always terminates, and the decoder that reuses a buffer agrees with the
      one that allocates.
    - The whole program: whatever the command line and the files hold, a program that gets
      to serving is in order, and so is every state the concurrent server reaches from there.
      Its histories are linearizable with respect to the abstract keyspace: the composition
      of the start, the replay, the concurrent server and the refinement of the dispatcher.
    - Concurrency: every run of the server is a run of the worker over the requests one at
      a time in which each connection is answered its own requests in order; reply channels
      are never shared or mixed up and the worker never blocks on one; a shutdown loses
      nothing that was sent; and the server comes to rest: its own steps are well founded
      and after the cancellation there is no deadlock. That order is lexicographic: how far
      each connection is in its program and its request, then what is left for active
      expiry, where a round that asks for another one has removed five keys.
    - Refinement: without expiries the dispatcher implements the abstract keyspace, command
      by command, replies included; a memory limit shows as refused commands or as lost keys,
      and only when the store is over it. With expiries it implements the
      keyspace of values with deadlines: a command sees the keys whose deadline has not
      come, and when the entries of the others are removed cannot be observed; APPEND,
      PFCOUNT and PFMERGE, which do not look at deadlines, need that none of theirs has passed.
      The units of EX, PX and EXPIRE are those of the specification ([k_ttl]).
    - Durability: the file holds the successful writes in order; starting from any prefix of
      it, which is what a crash or a full disk leaves, shows the keyspace of some of the
      commands that were run, and of all of them if nothing was lost. With expiries a restart
      leaves what the logged commands leave when all are run at the moment of the restart.
      After evictions, which leave no trace in the file, it may leave something else.
    - Frame: a command touches only the keys the key table names, and so a cluster node
      stores only keys of its own slots.
    - HyperLogLog: both representations of registers behave as an array of maxima; the
      estimate depends only on the set of elements; merging is union; the cache is
      never stale.
    - Store: what SET, GET, APPEND, TTL, DEL, PFADD, PFMERGE, PFCOUNT, INCR, EXPIRE and
      active expiry do on every branch, and that [usedMemory] is at all times the sum
      of the entry sizes and the key statistic the number of keys.
    - Eviction terminates under the limit, takes the most evictable pooled key, and does
      not evict more than needed.
    - Stamps: what an LFU access makes of a packed minute and counter, in plain arithmetic;
      both clocks count one tick less than has passed when they have wrapped.
    - Cluster: CRC16 by table is the remainder of division by the XMODEM polynomial over
      GF(2); hash tags; a request is served exactly when this node owns its one slot; a
      transaction is refused as a whole. A layout file is accepted exactly as documented:
      every accepted one assigns each slot to at most one node and names this node once,
      every well-formed one is accepted, and CLUSTER INFO tells whether all slots are
      covered.
    - Transactions: all commands in order or none, and only checked ones.
    - Connections: pipelining cannot be observed; whatever the network does, a client
      gets the replies of its requests handled one by one ([one_by_one] is the
      specification the loop is shown to refine). The same with other clients: cut into
      single commands and transactions, every run of the concurrent server gives each
      client its own [session], whatever the others do in between.
    - Panics and other surprises of the code, proved as such: negative lengths in the
      protocol, APPEND on a HyperLogLog, the empty transaction, normalised integers,
      EXPIRE with a number that is not positive, INCR at the largest int64, the overflow of
      SET with EX, a decay time of 2^32, the order and the loss of replies around malformed
      requests, the writes that a torn record in the file hides, the command that a torn
      record can turn into, expired keys that a restart brings back, and evicted ones, with
      which a server may not start again.

    ** Fuel

    [decode] and [recover_loop] take the length of the input plus one, since each round
    reads a byte ([decode_total], [recover_loop_fuel]). [evict_loop] takes two rounds
    per key plus two and says whether it ended; [eviction_reaches_limit] shows that it
    always does: a round that evicts nothing has emptied the pool, and the next one
    evicts. [conn_loop] and [pipelineLoop] take the length of the stream plus one, since
    each round decodes a frame; [pipelining_is_transparent] shows that the loop ends because
    the stream does. [scan_lines] takes the length of the text plus one, since each round
    reads a line. [keys_loop] takes one round per argument, and each round but the last
    takes one key.

    ** Not modelled

    The contents of log messages, the pprof server and the network stack. Sockets appear as
    the stream of bytes a connection receives, the arbitrary cuts in it, and the arbitrary
    moment at which it fails; files as whether they can be opened, what they hold, and how
    each write ends. Memory of the process is not bounded: [make] fails only for a length that
    no slice can have ([make_ok]). Closing a file has no effect in the model. The accept loop retries when Accept
    fails before the cancellation, which changes no state and is no step. The Go memory
    model is not: goroutines interact through the channels, the pool and the cancellation
    only, each operation of which is one step. *)

From stdpp Require Export base tactics numbers list gmap strings fin_maps.
From Stdlib Require Export ZArith Lia Ascii Sorted.
From Stdlib Require String.

Global Open Scope Z_scope.

(** ** Notation scope of the development *)

Declare Scope go_scope.
Delimit Scope go_scope with go.

(** Go's [+] on strings. *)
Notation "s +++ t" := (String.append s t) (at level 60, right associativity) : go_scope.
Global Open Scope go_scope.

#[global] Arguments String.append !s1 s2 : simpl nomatch.

(** [len(s)] of a Go string, as the [int] it is. *)
Definition len (s : string) : Z := Z.of_nat (String.length s).
Arguments len : simpl never.

(** "\r\n" *)
Definition CR : ascii := "013".
Definition LF : ascii := "010".
Definition CRLF : string := String CR (String LF EmptyString).

(** A byte of a string as a number. *)
Definition byte_Z (c : ascii) : Z := Z.of_N (N_of_ascii c).
Definition Z_byte (z : Z) : ascii := ascii_of_N (Z.to_N z).

(** [[]byte(s)], used where the code does arithmetic on bytes. *)
Fixpoint bytes_of (s : string) : list Z :=
  match s with
  | EmptyString => []
  | String c s => byte_Z c :: bytes_of s
  end.

(** ** Hint databases and tactics *)

Create HintDb rediska.
Create HintDb go_arith.
Create Rewrite HintDb go_str.
Create Rewrite HintDb go_wrap.

(** Case analysis on every test the goal is stuck on, closing what arithmetic closes. *)
Ltac split_ifs :=
  repeat match goal with
  | |- context [if ?b then _ else _] => destruct b eqn:?
  | H : context [if ?b then _ else _] |- _ => destruct b eqn:?
  end.

(** Boolean comparisons on [Z] as propositions. *)
Ltac z_bools :=
  repeat match goal with
  | H : (_ =? _) = true |- _ => apply Z.eqb_eq in H
  | H : (_ =? _) = false |- _ => apply Z.eqb_neq in H
  | H : (_ <? _) = true |- _ => apply Z.ltb_lt in H
  | H : (_ <? _) = false |- _ => apply Z.ltb_ge in H
  | H : (_ <=? _) = true |- _ => apply Z.leb_le in H
  | H : (_ <=? _) = false |- _ => apply Z.leb_gt in H
  | H : (_ && _) = true |- _ => apply andb_true_iff in H as [? ?]
  | H : (_ || _) = false |- _ => apply orb_false_iff in H as [? ?]
  | H : negb _ = true |- _ => apply negb_true_iff in H
  | H : negb _ = false |- _ => apply negb_false_iff in H
  end.

(** Quotients and remainders by constants, for [lia]. *)
Ltac zdm := Z.to_euclidean_division_equations; lia.

(** ** Machine integers

    A Go integer of width [w] is the [Z] it denotes; the conversions below are
    the wrap-around that Go's arithmetic and conversions perform. *)

Definition u8 (z : Z) : Z := z mod 2 ^ 8.
Definition u16 (z : Z) : Z := z mod 2 ^ 16.
Definition u32 (z : Z) : Z := z mod 2 ^ 32.
Definition u64 (z : Z) : Z := z mod 2 ^ 64.
Definition i64 (z : Z) : Z := (z + 2 ^ 63) mod 2 ^ 64 - 2 ^ 63.

Definition MaxInt64 : Z := 2 ^ 63 - 1.
Definition MinInt64 : Z := - 2 ^ 63.
Definition is_int64 (z : Z) : Prop := MinInt64 <= z <= MaxInt64.

Global Instance is_int64_dec z : Decision (is_int64 z).
Proof. unfold is_int64. apply _. Defined.

Lemma u8_range z : 0 <= u8 z < 256.
Proof. unfold u8. zdm. Qed.
Lemma u16_range z : 0 <= u16 z < 65536.
Proof. unfold u16. zdm. Qed.
Lemma u32_range z : 0 <= u32 z < 2 ^ 32.
Proof. unfold u32. apply Z.mod_pos_bound. lia. Qed.
Lemma u64_range z : 0 <= u64 z < 2 ^ 64.
Proof. unfold u64. apply Z.mod_pos_bound. lia. Qed.
Lemma i64_range z : is_int64 (i64 z).
Proof. unfold is_int64, MinInt64, MaxInt64, i64. zdm. Qed.

Lemma u8_small z : 0 <= z < 256 -> u8 z = z.
Proof. intros. unfold u8. by apply Z.mod_small. Qed.
Lemma u16_small z : 0 <= z < 65536 -> u16 z = z.
Proof. intros. unfold u16. by apply Z.mod_small. Qed.
Lemma u32_small z : 0 <= z < 2 ^ 32 -> u32 z = z.
Proof. intros. unfold u32. by apply Z.mod_small. Qed.
Lemma u64_small z : 0 <= z < 2 ^ 64 -> u64 z = z.
Proof. intros. unfold u64. by apply Z.mod_small. Qed.
Lemma i64_small z : is_int64 z -> i64 z = z.
Proof. unfold is_int64, MinInt64, MaxInt64, i64. intros. zdm. Qed.

Lemma i64_idemp z : i64 (i64 z) = i64 z.
Proof. apply i64_small, i64_range. Qed.

(** Wrap-around commutes with addition and subtraction: only the last wrap counts. *)
Lemma i64_add_l a b : i64 (i64 a + b) = i64 (a + b).
Proof. unfold i64. zdm. Qed.
Lemma i64_add_r a b : i64 (a + i64 b) = i64 (a + b).
Proof. unfold i64. zdm. Qed.
Lemma i64_sub_l a b : i64 (i64 a - b) = i64 (a - b).
Proof. unfold i64. zdm. Qed.
Lemma i64_sub_r a b : i64 (a - i64 b) = i64 (a - b).
Proof. unfold i64. zdm. Qed.

#[export] Hint Rewrite i64_idemp i64_add_l i64_add_r i64_sub_l i64_sub_r : go_wrap.
#[export] Hint Resolve u8_range u16_range u32_range u64_range i64_range : go_arith.

(** *** Bits *)

(** Checking a decidable property of every integer of a small range by evaluation. *)
Lemma forall_range (P : Z -> bool) lo n :
  forallb P (seqZ lo n) = true -> forall z, lo <= z < lo + n -> P z = true.
Proof.
  intros H z Hz. rewrite forallb_forall in H. apply H.
  apply list_elem_of_In, elem_of_seqZ. lia.
Qed.

Lemma testbit_above n k i : 0 <= n < 2 ^ k -> k <= i -> Z.testbit n i = false.
Proof.
  intros Hn Hi. destruct (decide (k < 0)).
  - rewrite Z.pow_neg_r in Hn by done. lia.
  - rewrite <-(Z.mod_small n (2 ^ k)) by done. apply Z.mod_pow2_bits_high. lia.
Qed.

(** Joining disjoint bit fields is addition. *)
Lemma lor_shiftl_add a b k :
  0 <= k -> 0 <= b < 2 ^ k -> Z.lor (Z.shiftl a k) b = a * 2 ^ k + b.
Proof.
  intros Hk Hb. rewrite <-Z.shiftl_mul_pow2 by done.
  assert (Z.land (Z.shiftl a k) b = 0) as Hl.
  { apply Z.bits_inj'. intros i Hi. rewrite Z.land_spec, Z.shiftl_spec, Z.bits_0 by done.
    destruct (decide (i < k)).
    - by rewrite Z.testbit_neg_r by lia.
    - rewrite (testbit_above b k i) by lia. by rewrite andb_false_r. }
  rewrite <-Z.add_lor_land, Hl. lia.
Qed.

Lemma testbit_u8 z i : 0 <= i -> Z.testbit (u8 z) i = (i <? 8) && Z.testbit z i.
Proof.
  intros Hi. unfold u8. destruct (Z.ltb_spec i 8).
  - by rewrite Z.mod_pow2_bits_low by lia.
  - by rewrite Z.mod_pow2_bits_high by lia.
Qed.

Lemma testbit_u16 z i : 0 <= i -> Z.testbit (u16 z) i = (i <? 16) && Z.testbit z i.
Proof.
  intros Hi. unfold u16. destruct (Z.ltb_spec i 16).
  - by rewrite Z.mod_pow2_bits_low by lia.
  - by rewrite Z.mod_pow2_bits_high by lia.
Qed.

(** ** Strings *)

Lemma append_nil_r (s : string) : (s +++ EmptyString) = s.
Proof. induction s; simpl; congruence. Qed.

Lemma append_assoc' (a b c : string) : ((a +++ b) +++ c) = (a +++ (b +++ c)).
Proof. induction a; simpl; congruence. Qed.

Lemma len_nil : len EmptyString = 0.
Proof. done. Qed.

Lemma len_cons c s : len (String c s) = 1 + len s.
Proof. unfold len. simpl. lia. Qed.

Lemma length_append' (a b : string) :
  String.length (a +++ b) = (String.length a + String.length b)%nat.
Proof. induction a; simpl; congruence. Qed.

Lemma len_append (a b : string) : len (a +++ b) = len a + len b.
Proof. unfold len. rewrite length_append'. lia. Qed.

Lemma len_nonneg s : 0 <= len s.
Proof. unfold len. lia. Qed.

Lemma len_0_nil s : len s = 0 -> s = EmptyString.
Proof. destruct s; [done|]. rewrite len_cons. pose proof (len_nonneg s). lia. Qed.

#[export] Hint Rewrite append_nil_r append_assoc' len_nil len_cons len_append : go_str.
#[export] Hint Resolve len_nonneg : rediska.

Lemma length_bytes_of s : Z.of_nat (length (bytes_of s)) = len s.
Proof. induction s; [done|]. rewrite len_cons. simpl. lia. Qed.

Lemma byte_Z_range c : 0 <= byte_Z c < 256.
Proof.
  unfold byte_Z. pose proof (N_ascii_bounded c). lia.
Qed.

Lemma bytes_of_range s : Forall (fun b => 0 <= b < 256) (bytes_of s).
Proof. induction s; simpl; constructor; auto using byte_Z_range. Qed.

(** The first [n] bytes of [s] and what follows them; [None] if [s] is too short.
    This is what [io.ReadFull] does with a buffer of [n] bytes. *)
Fixpoint take_bytes (n : nat) (s : string) : option (string * string) :=
  match n, s with
  | O, _ => Some (EmptyString, s)
  | S n, String c s =>
      match take_bytes n s with
      | Some (a, r) => Some (String c a, r)
      | None => None
      end
  | S _, EmptyString => None
  end.

Lemma take_bytes_app a r : take_bytes (String.length a) (a +++ r) = Some (a, r).
Proof. induction a as [|c a IH]; simpl; [done|]. by rewrite IH. Qed.

Lemma take_bytes_Some n s a r :
  take_bytes n s = Some (a, r) -> s = (a +++ r) /\ String.length a = n.
Proof.
  revert s a r. induction n as [|n IH]; intros s a r; simpl.
  - intros. by simplify_eq.
  - destruct s as [|c s]; [done|]. destruct (take_bytes n s) as [[a' r']|] eqn:E; [|done].
    intros. simplify_eq. apply IH in E as [-> <-]. done.
Qed.

Lemma take_bytes_mono n s a r q :
  take_bytes n s = Some (a, r) -> take_bytes n (s +++ q) = Some (a, r +++ q).
Proof.
  intros [-> <-]%take_bytes_Some. rewrite append_assoc'. apply take_bytes_app.
Qed.

(** [s[i:]] for [0 <= i]. *)
Fixpoint drop_bytes (n : nat) (s : string) : string :=
  match n, s with
  | O, _ => s
  | S n, String _ s => drop_bytes n s
  | S _, EmptyString => EmptyString
  end.

Definition string_eqb (a b : string) : bool := String.eqb a b.

(** ** Lists *)

Lemma alter_as_insert {A} (f : A -> A) (l : list A) i x :
  l !! i = Some x -> alter f i l = <[i := f x]> l.
Proof.
  intros H. rewrite list_insert_alter. apply list_alter_ext; [|done]. intros y Hy. congruence.
Qed.

Lemma list_neq_lookup {A} `{!EqDecision A} (l l' : list A) :
  length l = length l' -> l <> l' ->
  exists i x y, l !! i = Some x /\ l' !! i = Some y /\ x <> y.
Proof.
  revert l'. induction l as [|a l IH]; intros [|b l'] Hlen Hne; simplify_eq/=.
  destruct (decide (a = b)) as [->|Hab].
  - destruct (IH l') as (i & x & y & ? & ? & ?); [done|congruence|]. by exists (S i), x, y.
  - by exists 0%nat, a, b.
Qed.

Lemma length_filter_mono {A} (P Q : A -> Prop) `{!forall x, Decision (P x)} `{!forall x, Decision (Q x)} (l : list A) :
  (forall x, P x -> Q x) -> (length (filter P l) <= length (filter Q l))%nat.
Proof.
  intros HPQ. induction l as [|x l IH]; [done|]. rewrite !filter_cons.
  repeat case_decide; simpl; try lia. naive_solver.
Qed.

Lemma sorted_lookup {A} (f : A -> Z) (l : list A) i j x y :
  StronglySorted (fun a b => f a <= f b) l -> (i < j)%nat -> l !! i = Some x -> l !! j = Some y -> f x <= f y.
Proof.
  intros Hs. revert i j. induction Hs as [|a l Hs IH Ha]; intros [|i] [|j] Hij Hi Hj; simplify_eq/=; try lia.
  - by eapply (Forall_lookup_1 _ _ _ _ Ha).
  - by eapply (IH i j); [lia|..].
Qed.

(** ** Sums over finite maps *)

Section map_sum.
Context {V : Type} (f : string -> V -> Z).

Definition map_sum (m : gmap string V) : Z :=
  map_fold (fun k v acc => f k v + acc) 0 m.

Lemma map_sum_empty : map_sum (∅ : gmap string V) = 0.
Proof. apply map_fold_empty. Qed.

Lemma map_sum_insert_None m k v :
  m !! k = None -> map_sum (<[k:=v]> m) = f k v + map_sum m.
Proof.
  intros. unfold map_sum. rewrite map_fold_insert_L; [done| |done].
  intros. lia.
Qed.

Lemma map_sum_delete m k v :
  m !! k = Some v -> map_sum (delete k m) = map_sum m - f k v.
Proof.
  intros H. rewrite <-(insert_delete_id m k v) at 2; [|done].
  rewrite map_sum_insert_None; [lia|]. apply lookup_delete_eq.
Qed.

Lemma map_sum_insert_Some m k v v' :
  m !! k = Some v -> map_sum (<[k:=v']> m) = map_sum m - f k v + f k v'.
Proof.
  intros H. rewrite <-insert_delete_eq, map_sum_insert_None; [|apply lookup_delete_eq].
  rewrite (map_sum_delete _ _ _ H). lia.
Qed.

Lemma map_sum_insert m k v :
  map_sum (<[k:=v]> m)
  = map_sum m - from_option (f k) 0 (m !! k) + f k v.
Proof.
  destruct (m !! k) eqn:E; simpl.
  - by apply map_sum_insert_Some.
  - rewrite map_sum_insert_None by done. lia.
Qed.

Lemma map_sum_nonneg m :
  (forall k v, 0 <= f k v) -> 0 <= map_sum m.
Proof.
  intros Hf. induction m as [|k v m Hm IH] using map_ind.
  - by rewrite map_sum_empty.
  - rewrite map_sum_insert_None by done. specialize (Hf k v). lia.
Qed.

Lemma map_sum_ge m k v :
  (forall k v, 0 <= f k v) -> m !! k = Some v -> f k v <= map_sum m.
Proof.
  intros Hf H. pose proof (map_sum_nonneg (delete k m) Hf).
  rewrite (map_sum_delete _ _ _ H) in *. lia.
Qed.
End map_sum.
