(* ===== verification/GoLib.v ===== *)
(** * The part of Go and of its standard library the program uses

    Run-time panics and the state monad of code that may panic; [strconv]
    (decimal integers), [strings] (case mapping), [time]; and the environment:
    the clock, the random numbers, the order of a map iteration, [sort.Slice]
    and the capacity [append] chooses, which Go leaves open and every theorem
    is therefore quantified over. *)

From Stdlib Require Export PrimFloat.
From Stdlib Require Export Sorted Permutation.
From S2P Require Import Prelude.

(** ** Panics, and state passing with panics *)

(** A panic in any goroutine of the server ends the process: nothing in the
    source recovers. *)
Inductive panic :=
  | NilDereference
  | IndexOutOfRange
  | SliceBoundsOutOfRange
  | MakeSliceLenOutOfRange
  | MakeSliceCapOutOfRange
  | IntegerDivideByZero.

Inductive outcome (A : Type) :=
  | Val (a : A)
  | Panic (p : panic).
Arguments Val {_} _.
Arguments Panic {_} _.

Global Instance outcome_ret : MRet outcome := fun A a => Val a.
Global Instance outcome_bind : MBind outcome := fun A B f m =>
  match m with
  | Val a => f a
  | Panic p => Panic p
  end.

Definition GoM (S A : Type) : Type := S -> outcome (A * S).

Global Instance GoM_ret S : MRet (GoM S) := fun A a s => Val (a, s).
Global Instance GoM_bind S : MBind (GoM S) := fun A B f m s =>
  match m s with
  | Val (a, s') => f a s'
  | Panic p => Panic p
  end.

Definition panicking {S A} (p : panic) : GoM S A := fun _ => Panic p.

(** [make([]T, n)] and [make([]T, 0, n)] panic when [n] is negative or the slice exceeds
    the address space of the heap (48 bits on amd64). *)
Definition maxAlloc : Z := 2 ^ 48.
Definition make_ok (elem_size n : Z) : bool := (0 <=? n) && (n * elem_size <=? maxAlloc).
Definition gets {S A} (f : S -> A) : GoM S A := fun s => Val (f s, s).
Definition lift {S A} (x : outcome A) : GoM S A := fun s =>
  match x with Val a => Val (a, s) | Panic p => Panic p end.
Definition modify {S} (f : S -> S) : GoM S unit := fun s => Val (tt, f s).

(** A [for _, x := range xs] loop whose body updates the state. *)
Fixpoint forM {S A} (xs : list A) (body : A -> GoM S unit) : GoM S unit :=
  match xs with
  | [] => mret tt
  | x :: xs => body x ;; forM xs body
  end.

(** The same loop, folding a local variable of the enclosing function. *)
Fixpoint foldM {S A B} (xs : list A) (acc : B) (body : B -> A -> GoM S B) : GoM S B :=
  match xs with
  | [] => mret acc
  | x :: xs => acc' ← body acc x; foldM xs acc' body
  end.

(** *** Total correctness of a computation *)

(** Run from [s], [m] returns (it does not panic) and its result and final state
    satisfy [Q]. *)
Definition wp {S A} (m : GoM S A) (Q : A -> S -> Prop) (s : S) : Prop :=
  match m s with Val (a, s') => Q a s' | Panic _ => False end.

Section wp.
Context {S : Type}.

Lemma wp_Val {A} (m : GoM S A) Q s : wp m Q s <-> exists a s', m s = Val (a, s') /\ Q a s'.
Proof.
  unfold wp. destruct (m s) as [[a s']|p]; [|naive_solver].
  split; [eauto|]. intros (? & ? & E & HQ). injection E as <- <-. done.
Qed.

Lemma wp_ret {A} (a : A) (Q : A -> S -> Prop) s : Q a s -> wp (mret a) Q s.
Proof. done. Qed.

Lemma wp_bind {A B} (m : GoM S A) (f : A -> GoM S B) Q s :
  wp m (fun a => wp (f a) Q) s -> wp (m ≫= f) Q s.
Proof. unfold wp, mbind, GoM_bind. destruct (m s) as [[a s']|]; done. Qed.

Lemma wp_mono {A} (m : GoM S A) (Q Q' : A -> S -> Prop) s :
  wp m Q s -> (forall a s', Q a s' -> Q' a s') -> wp m Q' s.
Proof. unfold wp. destruct (m s) as [[a s']|]; auto. Qed.

Lemma wp_gets {A} (f : S -> A) (Q : A -> S -> Prop) s : Q (f s) s -> wp (gets f) Q s.
Proof. done. Qed.

Lemma wp_modify (f : S -> S) (Q : unit -> S -> Prop) s : Q tt (f s) -> wp (modify f) Q s.
Proof. done. Qed.

Lemma wp_lift {A} (x : outcome A) a (Q : A -> S -> Prop) s : x = Val a -> Q a s -> wp (lift x) Q s.
Proof. intros ->. done. Qed.

(** The rule for loops: [I xs s] with [xs] the elements still to come. *)
Lemma wp_forM {A} (I : list A -> S -> Prop) (body : A -> GoM S unit) xs s :
  I xs s ->
  (forall x xs s, I (x :: xs) s -> wp (body x) (fun _ => I xs) s) ->
  wp (forM xs body) (fun _ => I []) s.
Proof.
  intros HI Hb. revert s HI. induction xs as [|x xs IH]; intros s HI; [done|].
  cbn [forM]. apply wp_bind. apply (wp_mono _ (fun _ => I xs)); [by apply Hb|]. intros _ s'. apply IH.
Qed.

Lemma wp_foldM {A B} (I : list A -> B -> S -> Prop) (body : B -> A -> GoM S B) xs acc s :
  I xs acc s ->
  (forall x xs acc s, I (x :: xs) acc s -> wp (body acc x) (I xs) s) ->
  wp (foldM xs acc body) (I []) s.
Proof.
  intros HI Hb. revert acc s HI. induction xs as [|x xs IH]; intros acc s HI; [done|].
  cbn [foldM]. apply wp_bind. apply (wp_mono _ (I xs)); [by apply Hb|]. intros acc' s'. apply IH.
Qed.

(** [m] keeps the invariant [I], and never panics from it. *)
Definition preserves {A} (I : S -> Prop) (m : GoM S A) : Prop :=
  forall s, I s -> wp m (fun _ => I) s.

(** If [m] returns, it has kept the invariant. *)
Definition keeps {A} (I : S -> Prop) (m : GoM S A) : Prop :=
  forall s a s', I s -> m s = Val (a, s') -> I s'.

Lemma preserves_keeps {A} I (m : GoM S A) : preserves I m -> keeps I m.
Proof. intros Hm s a s' Hs E. specialize (Hm s Hs). unfold wp in Hm. by rewrite E in Hm. Qed.

Lemma keeps_bind {A B} I (m : GoM S A) (f : A -> GoM S B) :
  keeps I m -> (forall a, keeps I (f a)) -> keeps I (m ≫= f).
Proof.
  intros Hm Hf s b s' Hs. unfold mbind, GoM_bind. destruct (m s) as [[a s1]|] eqn:E; [|done].
  apply Hf. by eapply Hm.
Qed.

Lemma keeps_lift {A} I (x : outcome A) : keeps I (lift x).
Proof. intros s a s' Hs. unfold lift. destruct x; [|done]. by intros [= <- <-]. Qed.

Lemma preserves_ret {A} I (a : A) : preserves I (mret a).
Proof. by intros s Hs. Qed.

Lemma preserves_bind {A B} I (m : GoM S A) (f : A -> GoM S B) :
  preserves I m -> (forall a, preserves I (f a)) -> preserves I (m ≫= f).
Proof. intros Hm Hf s Hs. apply wp_bind. eapply wp_mono; [by apply Hm|]. intros a s'. apply Hf. Qed.

Lemma preserves_gets {A} I (f : S -> A) : preserves I (gets f).
Proof. by intros s Hs. Qed.
End wp.

(** Run one step of a computation, and use what is known about it. *)
Ltac wp_step := apply wp_bind.
Tactic Notation "wp_use" uconstr(lem) := eapply wp_mono; [eapply lem|].

#[export] Hint Resolve preserves_ret preserves_gets preserves_bind : rediska.

(** ** strconv *)

Definition digit_of (c : ascii) : option Z :=
  let n := byte_Z c in
  if (48 <=? n) && (n <=? 57) then Some (n - 48) else None.

Definition digit_char (d : Z) : ascii := Z_byte (48 + d).

(** All digits, most significant first. *)
Fixpoint parse_digits (acc : Z) (s : string) : option Z :=
  match s with
  | EmptyString => Some acc
  | String c s =>
      match digit_of c with
      | Some d => parse_digits (10 * acc + d) s
      | None => None
      end
  end.

Definition parse_udec (s : string) : option Z :=
  match s with EmptyString => None | _ => parse_digits 0 s end.

(** [strconv.ParseInt(s, 10, 64)]: an optional sign, at least one decimal digit,
    and the value in range. [None] is any error. *)
Definition ParseInt (s : string) : option Z :=
  let in_range z := if decide (is_int64 z) then Some z else None in
  match s with
  | EmptyString => None
  | String c r =>
      if decide (c = "+"%char) then parse_udec r ≫= in_range
      else if decide (c = "-"%char) then parse_udec r ≫= fun n => in_range (- n)
      else parse_udec s ≫= in_range
  end.

(** [strconv.Atoi] accepts the same strings ([int] has 64 bits). *)
Definition Atoi (s : string) : option Z := ParseInt s.

Fixpoint format_digits (fuel : nat) (n : Z) (acc : string) : string :=
  match fuel with
  | O => acc
  | S fuel =>
      let acc := String (digit_char (n mod 10)) acc in
      if n <? 10 then acc else format_digits fuel (n / 10) acc
  end.

(** Decimal digits of [0 <= n]: a number has at most as many decimal digits as bits. *)
Definition format_udec (n : Z) : string :=
  format_digits (S (Z.to_nat (Z.log2 n))) n EmptyString.

(** [strconv.FormatInt(n, 10)], [strconv.Itoa(n)] and the verb [%d]. *)
Definition FormatInt (n : Z) : string :=
  if n <? 0 then String "-" (format_udec (- n)) else format_udec n.
Definition Itoa (n : Z) : string := FormatInt n.

Lemma byte_Z_byte z : 0 <= z < 256 -> byte_Z (Z_byte z) = z.
Proof.
  intros. unfold byte_Z, Z_byte. rewrite N_ascii_embedding by lia. lia.
Qed.

Lemma Z_byte_Z c : Z_byte (byte_Z c) = c.
Proof. unfold byte_Z, Z_byte. rewrite N2Z.id. apply ascii_N_embedding. Qed.

Lemma byte_Z_inj a b : byte_Z a = byte_Z b -> a = b.
Proof. intros H. by rewrite <-(Z_byte_Z a), H, Z_byte_Z. Qed.

Lemma digit_of_char d : 0 <= d < 10 -> digit_of (digit_char d) = Some d.
Proof.
  intros. unfold digit_of, digit_char. rewrite byte_Z_byte by lia.
  replace (48 <=? 48 + d) with true by lia. replace (48 + d <=? 57) with true by lia.
  simpl. f_equal. lia.
Qed.

(** A digit is neither a sign nor any other character outside 0-9. *)
Lemma digit_char_ne d c : 0 <= d < 10 -> digit_of c = None -> digit_char d <> c.
Proof. intros Hd Hc <-. by rewrite digit_of_char in Hc. Qed.

Lemma parse_format_digits fuel n acc :
  0 <= n < 2 ^ Z.of_nat fuel ->
  (0 < fuel)%nat ->
  parse_digits 0 (format_digits fuel n acc) = parse_digits n acc.
Proof.
  revert n acc. induction fuel as [|fuel IH]; intros n acc Hn Hf; [lia|].
  cbn [format_digits]. destruct (Z.ltb_spec n 10).
  - simpl. rewrite digit_of_char by zdm. f_equal. zdm.
  - assert (2 ^ Z.of_nat (S fuel) = 2 * 2 ^ Z.of_nat fuel) as Hpow
      by (rewrite Nat2Z.inj_succ, Z.pow_succ_r; lia).
    destruct fuel as [|fuel]; [simpl in Hpow; lia|].
    rewrite IH; [|zdm|lia].
    simpl. rewrite digit_of_char by zdm. f_equal. zdm.
Qed.

Lemma format_digits_head fuel n acc :
  0 <= n -> (0 < fuel)%nat ->
  exists d r, 0 <= d < 10 /\ format_digits fuel n acc = String (digit_char d) r.
Proof.
  revert n acc. induction fuel as [|fuel IH]; intros n acc Hn Hf; [lia|].
  cbn [format_digits]. destruct (Z.ltb_spec n 10).
  - exists (n mod 10), acc. split; [zdm|done].
  - destruct fuel as [|fuel]; [exists (n mod 10), acc; split; [zdm|done]|].
    apply IH; [zdm|lia].
Qed.

Lemma format_udec_head n :
  0 <= n -> exists d r, 0 <= d < 10 /\ format_udec n = String (digit_char d) r.
Proof. intros. apply format_digits_head; lia. Qed.

Lemma parse_format_udec n : 0 <= n -> parse_udec (format_udec n) = Some n.
Proof.
  intros Hn. destruct (format_udec_head n Hn) as (d & r & _ & E).
  unfold parse_udec. rewrite E, <-E. unfold format_udec.
  rewrite parse_format_digits; [done| |lia].
  split; [done|]. destruct (decide (n = 0)) as [->|]; [simpl; lia|].
  pose proof (Z.log2_spec n ltac:(lia)) as [_ H].
  rewrite Nat2Z.inj_succ, Z2Nat.id by apply Z.log2_nonneg. done.
Qed.

(** Printing then parsing gives the integer back. *)
Lemma ParseInt_FormatInt n : is_int64 n -> ParseInt (FormatInt n) = Some n.
Proof.
  intros Hn. unfold FormatInt. destruct (Z.ltb_spec n 0).
  - cbn [ParseInt]. rewrite decide_False by done. rewrite decide_True by done.
    rewrite parse_format_udec by lia. cbn. rewrite Z.opp_involutive.
    by rewrite decide_True.
  - destruct (format_udec_head n) as (d & r & Hd & E); [lia|].
    unfold ParseInt. rewrite E.
    rewrite decide_False by (by apply digit_char_ne).
    rewrite decide_False by (by apply digit_char_ne).
    rewrite <-E, parse_format_udec by lia. cbn. by rewrite decide_True.
Qed.

Lemma Atoi_Itoa n : is_int64 n -> Atoi (Itoa n) = Some n.
Proof. apply ParseInt_FormatInt. Qed.

Lemma ParseInt_range s n : ParseInt s = Some n -> is_int64 n.
Proof.
  unfold ParseInt. destruct s as [|c r]; [done|].
  intros H. repeat case_decide; apply bind_Some in H as (z & _ & H);
    case_decide; by simplify_eq.
Qed.

(** No printed integer contains a carriage return or a line feed. *)
Fixpoint not_in (c : ascii) (s : string) : bool :=
  match s with
  | EmptyString => true
  | String c' s => negb (bool_decide (c = c')) && not_in c s
  end.

Lemma not_in_append c a b : not_in c (a +++ b) = not_in c a && not_in c b.
Proof. induction a; simpl; [done|]. by rewrite IHa, andb_assoc. Qed.

Lemma format_digits_not_in c fuel n acc :
  digit_of c = None -> 0 <= n -> not_in c acc = true ->
  not_in c (format_digits fuel n acc) = true.
Proof.
  intros Hc. revert n acc. induction fuel as [|fuel IH]; intros n acc Hn Ha; [done|].
  cbn [format_digits].
  assert (not_in c (String (digit_char (n mod 10)) acc) = true) as Ha'.
  { simpl. rewrite Ha, andb_true_r. apply negb_true_iff, bool_decide_eq_false_2.
    intros ->. revert Hc. rewrite digit_of_char by zdm. done. }
  destruct (Z.ltb_spec n 10); [done|]. apply IH; [zdm|done].
Qed.

Lemma FormatInt_not_in c n :
  digit_of c = None -> c <> "-"%char -> not_in c (FormatInt n) = true.
Proof.
  intros Hc Hm. unfold FormatInt, format_udec. destruct (Z.ltb_spec n 0).
  - cbn [not_in]. rewrite bool_decide_eq_false_2 by done.
    apply format_digits_not_in; [done|lia|done].
  - apply format_digits_not_in; [done|lia|done].
Qed.

(** ** The environment *)

(** What Go leaves to the run: the [n]-th reading of the clock ([time.Now], in
    nanoseconds since the zero [time.Time]), the [n]-th [rand.Float64], the order
    of the [n]-th iteration over a map's keys, the permutation [sort.Slice]
    chooses among equal elements, the capacity [append] gives a slice it has to
    reallocate, [math.Log] and the Unicode case mappings, which are tables, and how the
    [n]-th write to a file ends: it succeeds or it fails after some bytes. *)
Class GoEnv := {
  env_clock : nat -> Z;
  env_rand : nat -> float;
  env_order : nat -> list string -> list string;
  env_sort : forall A : Type, (A -> A -> bool) -> list A -> list A;
  env_append_cap : Z -> Z -> Z;
  env_log : float -> float;
  env_unicode_upper : string -> string;
  env_unicode_lower : string -> string;
  env_write : nat -> string -> string -> option nat;
}.

(** Nanoseconds from the zero [time.Time] (1 January of year 1) to the Unix epoch. *)
Definition unixToInternal : Z := 62135596800 * 10 ^ 9.

(** What the Go documentation promises about the above. The clock does not run
    backwards ([time.Now] carries a monotonic reading) and shows a time after 1970. *)
Class GoEnvLaws `{GoEnv} := {
  clock_mono : forall i j, (i <= j)%nat -> env_clock i <= env_clock j;
  clock_after_epoch : forall i, unixToInternal <= env_clock i;
  order_perm : forall n l, env_order n l ≡ₚ l;
  sort_perm : forall A (lt : A -> A -> bool) l, env_sort A lt l ≡ₚ l;
  sort_sorted : forall A (key : A -> Z) l,
    StronglySorted (fun x y => key x <= key y) (env_sort A (fun x y => key x <? key y) l);
  append_cap_ge : forall c n, n <= env_append_cap c n;
  log_one : env_log 1%float = 0%float;
}.

(** ** strings *)

Definition is_ascii (s : string) : bool := forallb (fun b => b <? 128) (bytes_of s).

Fixpoint string_map (f : ascii -> ascii) (s : string) : string :=
  match s with
  | EmptyString => EmptyString
  | String c s => String (f c) (string_map f s)
  end.

Definition upper_char (c : ascii) : ascii :=
  let n := byte_Z c in if (97 <=? n) && (n <=? 122) then Z_byte (n - 32) else c.
Definition lower_char (c : ascii) : ascii :=
  let n := byte_Z c in if (65 <=? n) && (n <=? 90) then Z_byte (n + 32) else c.

(** [strings.ToUpper] and [strings.ToLower]: byte by byte on an ASCII string. *)
Definition ToUpper `{GoEnv} (s : string) : string :=
  if is_ascii s then string_map upper_char s else env_unicode_upper s.
Definition ToLower `{GoEnv} (s : string) : string :=
  if is_ascii s then string_map lower_char s else env_unicode_lower s.

(** What follows the prefix [p] of [s], and what precedes the suffix [p] of [s]. *)
Fixpoint strip_prefix (p s : string) : option string :=
  match p, s with
  | EmptyString, _ => Some s
  | String a p, String b s => if decide (a = b) then strip_prefix p s else None
  | String _ _, EmptyString => None
  end.

Fixpoint strip_suffix (p s : string) : option string :=
  if decide (s = p) then Some EmptyString
  else match s with
       | EmptyString => None
       | String c s => String c <$> strip_suffix p s
       end.

(** [strings.TrimPrefix] and [strings.TrimSuffix]. *)
Definition TrimPrefix (s p : string) : string := default s (strip_prefix p s).
Definition TrimSuffix (s p : string) : string := default s (strip_suffix p s).

Lemma strip_prefix_app p s : strip_prefix p (p +++ s) = Some s.
Proof. induction p; simpl; [by destruct s|]. by rewrite decide_True. Qed.

Lemma strip_suffix_app p s : strip_suffix p (s +++ p) = Some s.
Proof.
  induction s as [|c s IH].
  - destruct p; simpl; by repeat case_decide.
  - simpl. rewrite decide_False.
    + by rewrite IH.
    + intros H. apply (f_equal len) in H. revert H.
      rewrite len_cons, len_append. pose proof (len_nonneg s). lia.
Qed.

Lemma TrimPrefix_app p s : TrimPrefix (p +++ s) p = s.
Proof. unfold TrimPrefix. by rewrite strip_prefix_app. Qed.

Lemma TrimSuffix_app p s : TrimSuffix (s +++ p) p = s.
Proof. unfold TrimSuffix. by rewrite strip_suffix_app. Qed.

(** ** time *)

Definition Nanosecond : Z := 1.
Definition Millisecond : Z := 10 ^ 6.
Definition Second : Z := 10 ^ 9.

(** A [time.Time] is the number of nanoseconds since the zero time. *)
Definition IsZero (t : Z) : bool := t =? 0.
Definition Before (t u : Z) : bool := t <? u.

(** [t.Add(d)] *)
Definition TimeAdd (t d : Z) : Z := t + d.

(** [t.Sub(u)] saturates at the range of [time.Duration]. *)
Definition TimeSub (t u : Z) : Z := Z.max MinInt64 (Z.min MaxInt64 (t - u)).

(** [d.Milliseconds()] *)
Definition Milliseconds (d : Z) : Z := Z.quot d Millisecond.

Definition Unix (t : Z) : Z := (t - unixToInternal) / Second.
Definition UnixMilli (t : Z) : Z := (t - unixToInternal) / Millisecond.

Lemma TimeSub_pos t u : 0 < TimeSub t u <-> u < t.
Proof. unfold TimeSub, MinInt64, MaxInt64. lia. Qed.

(** ** A concrete environment

    Used by the witnesses: a clock that stands still, the random number one half,
    maps in key order, insertion sort and exact capacities. *)

Fixpoint insert_sorted {A} (lt : A -> A -> bool) (x : A) (l : list A) : list A :=
  match l with
  | [] => [x]
  | y :: l' => if lt x y then x :: l else y :: insert_sorted lt x l'
  end.
Definition insertion_sort {A} (lt : A -> A -> bool) (l : list A) : list A :=
  foldl (fun acc x => insert_sorted lt x acc) [] l.

Definition env_at (t : Z) : GoEnv := {|
  env_clock := fun _ => t;
  env_rand := fun _ => 0.5%float;
  env_order := fun _ l => l;
  env_sort := @insertion_sort;
  env_append_cap := fun _ n => n;
  env_log := fun _ => 0%float;
  env_unicode_upper := id;
  env_unicode_lower := id;
  env_write := fun _ _ _ => None;
|}.

Lemma insert_sorted_perm {A} lt (x : A) l : insert_sorted lt x l ≡ₚ x :: l.
Proof.
  induction l as [|y l IH]; simpl; [done|]. destruct (lt x y); [done|].
  rewrite IH. apply Permutation_swap.
Qed.

Lemma insertion_sort_acc_perm {A} lt (l acc : list A) :
  foldl (fun acc x => insert_sorted lt x acc) acc l ≡ₚ acc ++ l.
Proof.
  revert acc. induction l as [|x l IH]; intros acc; simpl; [by rewrite app_nil_r|].
  rewrite IH, insert_sorted_perm. simpl. apply Permutation_middle.
Qed.

Lemma insert_sorted_sorted {A} (key : A -> Z) x l :
  StronglySorted (fun x y => key x <= key y) l ->
  StronglySorted (fun x y => key x <= key y) (insert_sorted (fun x y => key x <? key y) x l).
Proof.
  induction 1 as [|y l Hl IH Hy]; simpl; [repeat constructor|].
  destruct (Z.ltb_spec (key x) (key y)).
  - constructor; [by constructor|]. constructor; [lia|].
    eapply Forall_impl; [exact Hy|]. simpl. lia.
  - constructor; [done|]. rewrite insert_sorted_perm. by constructor.
Qed.

Lemma insertion_sort_sorted {A} (key : A -> Z) l :
  StronglySorted (fun x y => key x <= key y) (insertion_sort (fun x y => key x <? key y) l).
Proof.
  unfold insertion_sort.
  assert (StronglySorted (fun x y => key x <= key y) ([] : list A)) as H by constructor.
  revert H. generalize ([] : list A). induction l as [|x l IH]; intros acc H; simpl; [done|].
  by apply IH, insert_sorted_sorted.
Qed.

Lemma env_at_laws t : unixToInternal <= t -> @GoEnvLaws (env_at t).
Proof.
  intros. split; simpl; intros; try done.
  - apply (insertion_sort_acc_perm _ l []).
  - apply insertion_sort_sorted.
Qed.

(** The same environment with other outcomes of writes. *)
Definition with_writes (f : nat -> string -> string -> option nat) (e : GoEnv) : GoEnv := {|
  env_clock := @env_clock e;
  env_rand := @env_rand e;
  env_order := @env_order e;
  env_sort := @env_sort e;
  env_append_cap := @env_append_cap e;
  env_log := @env_log e;
  env_unicode_upper := @env_unicode_upper e;
  env_unicode_lower := @env_unicode_lower e;
  env_write := f;
|}.

Lemma with_writes_laws f e : @GoEnvLaws e -> @GoEnvLaws (with_writes f e).
Proof. by intros []. Qed.
