(* ===== verification/Resp.v ===== *)
(** * RESP: the wire protocol (src/core/encode.go, resp.go, decode.go)

    The encoders build byte strings. The decoders consume a [bufio.Reader],
    modelled as the bytes still to be read before the end of the stream. A
    decoding step returns a value and the reader after it, an error, or panics;
    [decode] recurses on nested arrays and takes fuel, which the length of the
    input always bounds ([decode_total]). *)

From S2P Require Import Prelude GoLib.

(** ** Encoders *)

Definition EncodeBulkString (s : string) : string :=
  "$" +++ Itoa (len s) +++ CRLF +++ s +++ CRLF.

Fixpoint encode_all (args : list string) : string :=
  match args with
  | [] => EmptyString
  | a :: args => EncodeBulkString a +++ encode_all args
  end.

Definition EncodeArray (args : list string) : string :=
  "*" +++ Itoa (Z.of_nat (length args)) +++ CRLF +++ encode_all args.

Definition EncodeSimpleString (s : string) : string := "+" +++ s +++ CRLF.
Definition EncodeError (s : string) : string := "-" +++ s +++ CRLF.

Fixpoint concat_all (items : list string) : string :=
  match items with
  | [] => EmptyString
  | x :: items => x +++ concat_all items
  end.

Definition EncodeRawArray (items : list string) : string :=
  "*" +++ Itoa (Z.of_nat (length items)) +++ CRLF +++ concat_all items.

Definition EncodeNullBulkString : string := "$-1" +++ CRLF.
Definition EncodeInteger (n : Z) : string := ":" +++ FormatInt n +++ CRLF.

(** [DecodeInteger]: [None] is the parse error. *)
Definition DecodeInteger (b : string) : option Z :=
  ParseInt (TrimSuffix (TrimPrefix b ":") CRLF).

(** ** The reader, errors and results *)

(** What [decode] returns in its [any]: a string, an int64 or a slice. *)
Inductive value :=
  | VString (s : string)
  | VInt (n : Z)
  | VArray (vs : list value).

(** A [*bufio.Reader] with the scratch buffer of a [Decoder]; [scratch] is [None]
    for the nil pointer [Decode] passes. The scratch buffer's length is its capacity. *)
Record reader := Reader { input : string; scratch : option string }.

Inductive decode_error :=
  | ErrEOF
  | ErrMalformedLine
  | ErrInvalidInteger
  | ErrInvalidBulkLength
  | ErrBulkBody
  | ErrBulkTerminator
  | ErrInvalidArrayLength
  | ErrArrayElement (i : Z) (e : decode_error)
  | ErrUnknownType (b : ascii).

Inductive dres (A : Type) :=
  | DOk (a : A) (r : reader)
  | DErr (e : decode_error)
  | DPanic (p : panic)
  | DOutOfFuel.
Arguments DOk {_} _ _.
Arguments DErr {_} _.
Arguments DPanic {_} _.
Arguments DOutOfFuel {_}.

Definition dbind {A B} (x : dres A) (k : A -> reader -> dres B) : dres B :=
  match x with
  | DOk a r => k a r
  | DErr e => DErr e
  | DPanic p => DPanic p
  | DOutOfFuel => DOutOfFuel
  end.

(** ** Decoders *)

(** [r.ReadString('\n')], without the '\n'. *)
Fixpoint split_line (s : string) : option (string * string) :=
  match s with
  | EmptyString => None
  | String c s =>
      if decide (c = LF) then Some (EmptyString, s)
      else match split_line s with
           | Some (l, r) => Some (String c l, r)
           | None => None
           end
  end.

Definition readLine (r : reader) : dres string :=
  match split_line (input r) with
  | None => DErr ErrEOF
  | Some (l, rest) =>
      match strip_suffix (String CR EmptyString) l with
      | None => DErr ErrMalformedLine
      | Some line => DOk line (Reader rest (scratch r))
      end
  end.

Definition readSimpleString (r : reader) : dres string := readLine r.
Definition readError (r : reader) : dres string := readLine r.

Definition readInteger (r : reader) : dres Z :=
  dbind (readLine r) (fun line r =>
    match ParseInt line with
    | None => DErr ErrInvalidInteger
    | Some n => DOk n r
    end).

(** The buffer of [need] bytes [readBulkString] reads into: a reslice of the
    scratch buffer, which is replaced when it is too small, or a fresh slice. *)
Definition bulk_buffer (sc : option string) (need : Z) : option panic :=
  match sc with
  | Some sc =>
      if len sc <? need
      then if make_ok 1 need then None else Some MakeSliceLenOutOfRange
      else if need <? 0 then Some SliceBoundsOutOfRange else None
  | None => if make_ok 1 need then None else Some MakeSliceLenOutOfRange
  end.

(** The scratch buffer after [data] was read into its front. *)
Definition refill (sc : option string) (data : string) : option string :=
  (fun sc => data +++ drop_bytes (String.length data) sc) <$> sc.

Definition readBulkString (r : reader) : dres string :=
  dbind (readLine r) (fun line r =>
    match Atoi line with
    | None => DErr ErrInvalidBulkLength
    | Some length =>
        if length =? -1 then DOk EmptyString r
        else
          let need := i64 (length + 2) in
          match bulk_buffer (scratch r) need with
          | Some p => DPanic p
          | None =>
              if len (input r) <? need then DErr ErrBulkBody
              else match take_bytes (Z.to_nat need) (input r) with
              | None => DErr ErrBulkBody
              | Some (buffer, rest) =>
                  if length <? 0 then DPanic IndexOutOfRange
                  else match take_bytes (Z.to_nat length) buffer with
                  | None => DPanic IndexOutOfRange
                  | Some (body, term) =>
                      if decide (term = CRLF)
                      then DOk body (Reader rest (refill (scratch r) buffer))
                      else DErr ErrBulkTerminator
                  end
              end
          end
    end).

(** The loop of [readArray]; [dec] decodes one element. *)
Fixpoint readElements (dec : reader -> dres value) (fuel : nat) (count i : Z) (r : reader)
    : dres (list value) :=
  if count <=? i then DOk [] r
  else match fuel with
  | O => DOutOfFuel
  | S fuel =>
      match dec r with
      | DOk v r => dbind (readElements dec fuel count (i + 1) r) (fun vs r => DOk (v :: vs) r)
      | DErr e => DErr (ErrArrayElement i e)
      | DPanic p => DPanic p
      | DOutOfFuel => DOutOfFuel
      end
  end.

(** An [any] takes 16 bytes. *)
Definition readArray (dec : reader -> dres value) (fuel : nat) (r : reader) : dres (list value) :=
  dbind (readLine r) (fun line r =>
    match Atoi line with
    | None => DErr ErrInvalidArrayLength
    | Some count =>
        if make_ok 16 count then readElements dec fuel count 0 r
        else DPanic MakeSliceLenOutOfRange
    end).

Fixpoint decode (fuel : nat) (r : reader) : dres value :=
  match fuel with
  | O => DOutOfFuel
  | S fuel =>
      match input r with
      | EmptyString => DErr ErrEOF
      | String typeByte rest =>
          let r := Reader rest (scratch r) in
          if decide (typeByte = "+"%char) then dbind (readSimpleString r) (fun s r => DOk (VString s) r)
          else if decide (typeByte = "-"%char) then dbind (readError r) (fun s r => DOk (VString s) r)
          else if decide (typeByte = ":"%char) then dbind (readInteger r) (fun n r => DOk (VInt n) r)
          else if decide (typeByte = "$"%char) then dbind (readBulkString r) (fun s r => DOk (VString s) r)
          else if decide (typeByte = "*"%char)
          then dbind (readArray (decode fuel) fuel r) (fun vs r => DOk (VArray vs) r)
          else DErr (ErrUnknownType typeByte)
      end
  end.

(** Every call of [decode] reads at least one byte first. *)
Definition decode_fuel (s : string) : nat := S (String.length s).

Definition Decode (s : string) : dres value := decode (decode_fuel s) (Reader s None).
Definition Decoder_Decode (s sc : string) : dres value := decode (decode_fuel s) (Reader s (Some sc)).

(** ** Reading back a line *)

Lemma split_line_app l rest :
  not_in LF l = true -> split_line (l +++ String LF rest) = Some (l, rest).
Proof.
  induction l as [|c l IH]; simpl; [done|].
  intros [Hc Hl]%andb_true_iff. apply negb_true_iff, bool_decide_eq_false_1 in Hc.
  rewrite decide_False by done. by rewrite IH.
Qed.

Lemma readLine_app line rest sc :
  not_in LF line = true ->
  readLine (Reader (line +++ CRLF +++ rest) sc) = DOk line (Reader rest sc).
Proof.
  intros H. unfold readLine. cbn [input scratch].
  replace (line +++ CRLF +++ rest) with ((line +++ String CR EmptyString) +++ String LF rest)
    by (rewrite append_assoc'; done).
  rewrite split_line_app, strip_suffix_app; [done|].
  rewrite not_in_append, H. done.
Qed.

Lemma readLine_int n rest sc :
  readLine (Reader (FormatInt n +++ CRLF +++ rest) sc) = DOk (FormatInt n) (Reader rest sc).
Proof. apply readLine_app, FormatInt_not_in; done. Qed.

(** ** Prefix stability: more input after a complete value changes nothing *)

Definition feed (r : reader) (q : string) : reader := Reader (input r +++ q) (scratch r).

(** A result that does not depend on where the input ends: more bytes after it
    are left unread. An error may come from the end of the input and is not stable. *)
Definition extends {A} (q : string) (x y : dres A) : Prop :=
  match x with
  | DOk a r => y = DOk a (feed r q)
  | DPanic p => y = DPanic p
  | DErr _ | DOutOfFuel => True
  end.

Lemma extends_bind {A B} q (x y : dres A) (k k' : A -> reader -> dres B) :
  extends q x y -> (forall a r, extends q (k a r) (k' a (feed r q))) ->
  extends q (dbind x k) (dbind y k').
Proof. destruct x; simpl; intros; subst; simpl; auto. Qed.

Lemma split_line_mono s l r q :
  split_line s = Some (l, r) -> split_line (s +++ q) = Some (l, r +++ q).
Proof.
  revert l r. induction s as [|c s IH]; intros l r; simpl; [done|].
  case_decide; [by intros; simplify_eq|].
  destruct (split_line s) as [[l' r']|]; [|done].
  intros. simplify_eq. by rewrite (IH l' r).
Qed.

Lemma readLine_extends q r : extends q (readLine r) (readLine (feed r q)).
Proof.
  unfold readLine. destruct (split_line (input r)) as [[l rest]|] eqn:E; [|done].
  cbn [input scratch feed]. rewrite (split_line_mono _ _ _ q E).
  by destruct (strip_suffix _ l).
Qed.

Lemma readInteger_extends q r : extends q (readInteger r) (readInteger (feed r q)).
Proof.
  apply extends_bind; [apply readLine_extends|]. intros line r'. by destruct (ParseInt line).
Qed.

Lemma readBulkString_extends q r : extends q (readBulkString r) (readBulkString (feed r q)).
Proof.
  apply extends_bind; [apply readLine_extends|]. intros line [s sc].
  destruct (Atoi line) as [n|]; [|done]. destruct (n =? -1); [done|].
  cbn [scratch input feed]. destruct (bulk_buffer sc _); [done|].
  destruct (Z.ltb_spec (len s) (i64 (n + 2))); [done|].
  rewrite len_append. pose proof (len_nonneg q).
  destruct (Z.ltb_spec (len s + len q) (i64 (n + 2))); [lia|].
  destruct (take_bytes _ s) as [[buffer rest]|] eqn:E; [|done].
  rewrite (take_bytes_mono _ _ _ _ q E).
  destruct (n <? 0); [done|]. destruct (take_bytes _ buffer) as [[body term]|]; [|done].
  by case_decide.
Qed.

Lemma readElements_extends q dec dec' fuel fuel' count i r :
  (forall r, extends q (dec r) (dec' (feed r q))) -> (fuel <= fuel')%nat ->
  extends q (readElements dec fuel count i r) (readElements dec' fuel' count i (feed r q)).
Proof.
  intros Hdec. revert fuel' i r. induction fuel as [|fuel IH]; intros fuel' i r Hf.
  - simpl. destruct (count <=? i) eqn:E; [|done]. destruct fuel'; simpl; by rewrite E.
  - destruct fuel' as [|fuel']; [lia|]. simpl. destruct (count <=? i); [done|].
    specialize (Hdec r). destruct (dec r) as [v r'| | |]; simpl in Hdec; [|done|by rewrite Hdec|done].
    rewrite Hdec. apply extends_bind; [apply IH; lia|]. done.
Qed.

Lemma decode_extends q fuel fuel' r :
  (fuel <= fuel')%nat -> extends q (decode fuel r) (decode fuel' (feed r q)).
Proof.
  revert fuel' r. induction fuel as [|fuel IH]; intros fuel' r Hf; [done|].
  destruct fuel' as [|fuel']; [lia|]. cbn [decode].
  destruct r as [[|t s] sc]; cbn [input scratch feed]; [done|]. simpl (_ +++ _).
  change (Reader (s +++ q) sc) with (feed (Reader s sc) q).
  repeat case_decide; try done; apply extends_bind; try done;
    auto using readLine_extends, readInteger_extends, readBulkString_extends.
  apply extends_bind; [apply readLine_extends|]. intros line r'.
  destruct (Atoi line); [|done]. destruct (make_ok _ _); [|done].
  apply readElements_extends; [|lia]. intros. apply IH. lia.
Qed.

(** ** Decoding terminates *)

Lemma readLine_shorter r line r' :
  readLine r = DOk line r' -> (String.length (input r') < String.length (input r))%nat.
Proof.
  unfold readLine. destruct (split_line (input r)) as [[l rest]|] eqn:E; [|done].
  destruct (strip_suffix _ l); [|done]. intros. simplify_eq. simpl.
  revert l rest E. induction (input r) as [|c s IH]; intros l rest; simpl; [done|].
  case_decide; [intros; simplify_eq; lia|].
  destruct (split_line s) as [[l' r'']|]; [|done]. intros. simplify_eq.
  specialize (IH _ _ eq_refl). lia.
Qed.

(** [r'] has no more input left than [r]. *)
Definition no_longer (r r' : reader) : Prop := (String.length (input r') <= String.length (input r))%nat.

Lemma readBulkString_shorter r s r' : readBulkString r = DOk s r' -> no_longer r r'.
Proof.
  unfold readBulkString, no_longer. destruct (readLine r) as [line r1| | |] eqn:E; try done.
  apply readLine_shorter in E. simpl. destruct (Atoi line); [|done].
  destruct (_ =? -1); [intros; simplify_eq; lia|].
  destruct (bulk_buffer _ _); [done|]. destruct (_ <? _); [done|].
  destruct (take_bytes _ (input r1)) as [[buffer rest]|] eqn:E1; [|done].
  apply take_bytes_Some in E1 as [E1 _]. apply (f_equal String.length) in E1.
  rewrite length_append' in E1. destruct (_ <? 0); [done|].
  destruct (take_bytes _ buffer) as [[body term]|]; [|done].
  case_decide; [|done]. intros. simplify_eq. simpl. lia.
Qed.

Lemma readElements_shorter dec fuel count i r vs r' :
  (forall r v r', dec r = DOk v r' -> no_longer r r') ->
  readElements dec fuel count i r = DOk vs r' -> no_longer r r'.
Proof.
  unfold no_longer. intros Hdec. revert i r vs r'.
  induction fuel as [|fuel IH]; intros i r vs r'; simpl;
    (destruct (count <=? i); [intros; simplify_eq; lia|]); [done|].
  destruct (dec r) as [v r1| | |] eqn:E; try done. apply Hdec in E.
  destruct (readElements dec fuel count (i + 1) r1) as [vs1 r2| | |] eqn:E2; try done.
  simpl. intros. simplify_eq. apply IH in E2. lia.
Qed.

Lemma readArray_shorter dec fuel r vs r' :
  (forall r v r', dec r = DOk v r' -> no_longer r r') ->
  readArray dec fuel r = DOk vs r' -> no_longer r r'.
Proof.
  unfold readArray, no_longer. intros Hdec.
  destruct (readLine r) as [line r1| | |] eqn:E; try done. apply readLine_shorter in E. simpl.
  destruct (Atoi line); [|done]. destruct (make_ok _ _); [|done].
  intros H%readElements_shorter; [|done]. unfold no_longer in H. lia.
Qed.

Lemma dbind_DOk {A B} (x : dres A) (k : A -> reader -> dres B) b r :
  dbind x k = DOk b r -> exists a r', x = DOk a r' /\ k a r' = DOk b r.
Proof. destruct x; simpl; try done; eauto. Qed.

Lemma decode_shorter fuel r v r' :
  decode fuel r = DOk v r' -> (String.length (input r') < String.length (input r))%nat.
Proof.
  revert r v r'. induction fuel as [|fuel IH]; intros r v r'; [done|]. cbn [decode].
  destruct r as [[|t s] sc]; cbn [input scratch]; [done|]. simpl String.length.
  repeat case_decide; try done; intros (a & r1 & Hx & ?)%dbind_DOk; simplify_eq.
  - apply readLine_shorter in Hx. simpl in Hx. lia.
  - apply readLine_shorter in Hx. simpl in Hx. lia.
  - apply dbind_DOk in Hx as (line & r2 & Hx & E). apply readLine_shorter in Hx. simpl in Hx.
    destruct (ParseInt line); simplify_eq. lia.
  - apply readBulkString_shorter in Hx. unfold no_longer in Hx. simpl in Hx. lia.
  - apply readArray_shorter in Hx; [unfold no_longer in Hx; simpl in Hx; lia|].
    intros ? ? ? ?%IH. unfold no_longer. lia.
Qed.

(** The loop runs out of fuel only if an element does, or if there are more
    elements than bytes. *)
Lemma readElements_fuel dec n fuel count i r :
  (forall r, (String.length (input r) < n)%nat -> dec r <> DOutOfFuel) ->
  (forall r v r', dec r = DOk v r' -> (String.length (input r') < String.length (input r))%nat) ->
  (String.length (input r) < n)%nat -> (String.length (input r) < fuel)%nat ->
  readElements dec fuel count i r <> DOutOfFuel.
Proof.
  intros Hdec Hshort. revert i r. induction fuel as [|fuel IH]; intros i r Hn Hf; [lia|].
  simpl. destruct (count <=? i); [done|]. specialize (Hdec r Hn).
  destruct (dec r) as [v r1| | |] eqn:E; try done. apply Hshort in E.
  specialize (IH (i + 1) r1 ltac:(lia) ltac:(lia)).
  by destruct (readElements dec fuel count (i + 1) r1).
Qed.

Lemma readArray_fuel dec fuel r :
  (forall r, (String.length (input r) < fuel)%nat -> dec r <> DOutOfFuel) ->
  (forall r v r', dec r = DOk v r' -> (String.length (input r') < String.length (input r))%nat) ->
  (String.length (input r) <= fuel)%nat -> readArray dec fuel r <> DOutOfFuel.
Proof.
  intros Hdec Hshort Hf. unfold readArray.
  destruct (readLine r) as [line r1| | |] eqn:E; try done.
  - apply readLine_shorter in E. simpl. destruct (Atoi line); [|done].
    destruct (make_ok _ _); [|done]. apply (readElements_fuel _ fuel); auto; lia.
  - revert E. unfold readLine. destruct (split_line _) as [[l ?]|]; [|done].
    by destruct (strip_suffix _ l).
Qed.

Lemma readLine_no_fuel r : readLine r <> DOutOfFuel.
Proof. unfold readLine. destruct (split_line _) as [[l ?]|]; [|done]. by destruct (strip_suffix _ l). Qed.

Lemma readBulkString_no_fuel r : readBulkString r <> DOutOfFuel.
Proof.
  unfold readBulkString. pose proof (readLine_no_fuel r).
  destruct (readLine r) as [line r1| | |]; try done. simpl. repeat case_match; done.
Qed.

Lemma decode_fuel_enough fuel r :
  (String.length (input r) < fuel)%nat -> decode fuel r <> DOutOfFuel.
Proof.
  revert r. induction fuel as [|fuel IH]; intros r Hf; [lia|]. cbn [decode].
  destruct r as [[|t s] sc]; cbn [input scratch] in *; [done|]. simpl in Hf.
  pose proof (readLine_no_fuel (Reader s sc)).
  unfold readSimpleString, readError, readInteger.
  repeat case_decide; try done.
  1-3: destruct (readLine (Reader s sc)) as [line r1| | |]; try done; simpl; by repeat case_match.
  - pose proof (readBulkString_no_fuel (Reader s sc)). by destruct (readBulkString (Reader s sc)).
  - assert (readArray (decode fuel) fuel (Reader s sc) <> DOutOfFuel).
    { apply readArray_fuel; [apply IH|apply decode_shorter|simpl; lia]. }
    by destruct (readArray (decode fuel) fuel (Reader s sc)).
Qed.

(** C24: [Decode] and [Decoder.Decode] return on every input: a value, an error or a
    panic, never an endless loop. The fuel is one more than the number of bytes,
    since each nested value and each array element costs at least one byte. *)
Theorem decode_total (s : string) (sc : option string) :
  decode (decode_fuel s) (Reader s sc) <> DOutOfFuel.
Proof. apply decode_fuel_enough. simpl. unfold decode_fuel. lia. Qed.

(** ** Round trips *)

(** A string whose length a Go program can hold and read back. *)
Definition small (s : string) : Prop := len s + 2 <= maxAlloc.

Lemma maxAlloc_int64 n : 0 <= n <= maxAlloc -> is_int64 n.
Proof. unfold maxAlloc, is_int64, MinInt64, MaxInt64. lia. Qed.

Lemma take_body_term (s : string) :
  take_bytes (Z.to_nat (len s)) (s +++ CRLF) = Some (s, CRLF).
Proof. unfold len. rewrite Nat2Z.id. apply take_bytes_app. Qed.

Lemma readBulkString_encoded s rest sc :
  small s ->
  exists sc', readBulkString (Reader (Itoa (len s) +++ CRLF +++ s +++ CRLF +++ rest) sc)
              = DOk s (Reader rest sc') /\ (sc = None -> sc' = None).
Proof.
  intros Hs. pose proof (len_nonneg s). unfold small in Hs.
  unfold readBulkString, Itoa. rewrite readLine_int. cbn [dbind].
  unfold Atoi. rewrite ParseInt_FormatInt by (apply maxAlloc_int64; lia).
  replace (len s =? -1) with false by lia. cbn [scratch input].
  rewrite i64_small by (apply maxAlloc_int64; lia).
  assert (bulk_buffer sc (len s + 2) = None) as ->.
  { unfold bulk_buffer, make_ok. destruct sc; simpl; split_ifs; z_bools; try done; lia. }
  assert (len (s +++ CRLF) = len s + 2) as Hl by (rewrite len_append; done).
  rewrite <-append_assoc'. rewrite (len_append (s +++ CRLF)), Hl.
  pose proof (len_nonneg rest). replace (len s + 2 + len rest <? len s + 2) with false by lia.
  rewrite <-Hl. unfold len at 1. rewrite Nat2Z.id, take_bytes_app, take_body_term.
  replace (len s <? 0) with false by lia. rewrite decide_True by done.
  eexists. split; [done|]. by intros ->.
Qed.

Lemma decode_dollar fuel x sc :
  decode (S fuel) (Reader ("$" +++ x) sc)
  = dbind (readBulkString (Reader x sc)) (fun s r => DOk (VString s) r).
Proof. done. Qed.

Lemma decode_star fuel x sc :
  decode (S fuel) (Reader ("*" +++ x) sc)
  = dbind (readArray (decode fuel) fuel (Reader x sc)) (fun vs r => DOk (VArray vs) r).
Proof. done. Qed.

Lemma decode_bulk fuel s rest sc :
  small s ->
  exists sc', decode (S fuel) (Reader (EncodeBulkString s +++ rest) sc)
              = DOk (VString s) (Reader rest sc') /\ (sc = None -> sc' = None).
Proof.
  intros Hs. destruct (readBulkString_encoded s rest sc Hs) as (sc' & E & H).
  exists sc'. split; [|done]. unfold EncodeBulkString. autorewrite with go_str.
  by rewrite decode_dollar, E.
Qed.

Lemma readElements_encoded f fuel i args rest sc :
  Forall small args -> (length args <= fuel)%nat ->
  exists sc', readElements (decode (S f)) fuel (i + Z.of_nat (length args)) i
                (Reader (encode_all args +++ rest) sc)
              = DOk (VString <$> args) (Reader rest sc') /\ (sc = None -> sc' = None).
Proof.
  revert fuel i sc. induction args as [|a args IH]; intros fuel i sc Ha Hf.
  - exists sc. rewrite Z.add_0_r. destruct fuel; cbn [readElements]; by rewrite Z.leb_refl.
  - apply Forall_cons in Ha as [Ha Has]. destruct fuel as [|fuel]; [simpl in Hf; lia|].
    destruct (decode_bulk f a (encode_all args +++ rest) sc Ha) as (sc1 & E1 & H1).
    destruct (IH fuel (i + 1) sc1 Has ltac:(simpl in Hf; lia)) as (sc2 & E2 & H2).
    exists sc2. split; [|auto]. cbn [readElements length encode_all].
    replace (i + Z.of_nat (S (length args))) with (i + 1 + Z.of_nat (length args)) by lia.
    rewrite (proj2 (Z.leb_gt _ _)) by lia.
    by rewrite append_assoc', E1, E2.
Qed.

Lemma length_encode_all args : (length args <= String.length (encode_all args))%nat.
Proof.
  induction args as [|a args IH]; simpl; [lia|]. rewrite length_append'. unfold EncodeBulkString.
  rewrite length_append'. simpl. lia.
Qed.

(** A command a client or the AOF may send: its strings and the slice of them fit in memory. *)
Definition sendable (args : list string) : Prop :=
  Forall small args /\ Z.of_nat (length args) * 16 <= maxAlloc.

Lemma decode_EncodeArray args rest sc :
  sendable args ->
  exists sc', decode (decode_fuel (EncodeArray args +++ rest)) (Reader (EncodeArray args +++ rest) sc)
              = DOk (VArray (VString <$> args)) (Reader rest sc') /\ (sc = None -> sc' = None).
Proof.
  intros [Ha Hn].
  assert (exists f, (length args <= S f)%nat /\
    decode_fuel (EncodeArray args +++ rest) = S (S f)) as (f & Hf & ->).
  { unfold decode_fuel, EncodeArray. rewrite !length_append'. cbn [String.length CRLF].
    pose proof (length_encode_all args).
    exists (String.length (Itoa (Z.of_nat (length args)))
            + (2 + String.length (encode_all args)) + String.length rest)%nat. lia. }
  destruct (readElements_encoded f (S f) 0 args rest sc Ha Hf) as (sc' & E & H).
  exists sc'. split; [|done]. unfold EncodeArray. autorewrite with go_str.
  rewrite decode_star. unfold readArray, Itoa. rewrite readLine_int. cbn [dbind].
  unfold Atoi. rewrite ParseInt_FormatInt by (apply maxAlloc_int64; lia).
  replace (make_ok 16 (Z.of_nat (length args))) with true by (unfold make_ok; lia).
  rewrite Z.add_0_l in E. by rewrite E.
Qed.

Lemma Decode_EncodeArray args rest :
  sendable args ->
  Decode (EncodeArray args +++ rest) = DOk (VArray (VString <$> args)) (Reader rest None).
Proof.
  intros H. destruct (decode_EncodeArray args rest None H) as (sc & E & Hsc).
  unfold Decode. by rewrite E, Hsc.
Qed.

(** C23: Decoding what [EncodeArray] wrote gives the same arguments back, whatever
    bytes follow, and leaves exactly those bytes unread: for the allocating decoder
    that reads the AOF back, and for a connection's decoder whatever its scratch
    buffer holds. *)
Theorem array_roundtrip (args : list string) (rest sc : string) :
  sendable args ->
  Decode (EncodeArray args +++ rest) = DOk (VArray (VString <$> args)) (Reader rest None) /\
  exists sc', Decoder_Decode (EncodeArray args +++ rest) sc
              = DOk (VArray (VString <$> args)) (Reader rest sc').
Proof.
  intros H. split; [by apply Decode_EncodeArray|].
  destruct (decode_EncodeArray args rest (Some sc) H) as (sc' & E & _). eauto.
Qed.

Lemma array_roundtrip_witness :
  sendable ["SET"; "k"; ""] /\
  Decode (EncodeArray ["SET"; "k"; ""] +++ "*1")
  = DOk (VArray (VString <$> ["SET"; "k"; ""])) (Reader "*1" None).
Proof.
  assert (sendable ["SET"; "k"; ""]) as H.
  { split; [|done]. repeat constructor; unfold small; done. }
  split; [exact H|]. apply (array_roundtrip _ _ "scratch" H).
Defined.

(** A proper prefix of a well-formed command decodes to an error. *)
Lemma decode_truncated args p q :
  sendable args -> (p +++ q) = EncodeArray args -> q <> EmptyString ->
  exists e, Decode p = DErr e.
Proof.
  intros H Hpq Hq. destruct (decode_EncodeArray args EmptyString None H) as (sc & E & _).
  rewrite append_nil_r, <-Hpq in E.
  pose proof (decode_extends q (decode_fuel p) (decode_fuel (p +++ q)) (Reader p None)) as Hext.
  unfold decode_fuel in Hext at 1 2. rewrite length_append' in Hext.
  specialize (Hext ltac:(lia)). unfold Decode.
  change (feed (Reader p None) q) with (Reader (p +++ q) None) in Hext. rewrite E in Hext.
  pose proof (decode_fuel_enough (decode_fuel p) (Reader p None)) as Hfuel.
  destruct (decode (decode_fuel p) (Reader p None)) as [v r|e|pn|]; simpl in Hext.
  - simplify_eq. exfalso. apply Hq. apply len_0_nil.
    match goal with H : EmptyString = _ |- _ => apply (f_equal len) in H; rewrite len_append in H end.
    pose proof (len_nonneg (input r)). pose proof (len_nonneg q). rewrite len_nil in *. lia.
  - by exists e.
  - done.
  - exfalso. apply Hfuel; [|done]. simpl. unfold decode_fuel. lia.
Qed.

(** C25: A command cut short anywhere (a file truncated by a crash, a connection
    closed mid-command) is an error: never a wrong command, never a panic. *)
Theorem truncated_command_is_error (args : list string) (p q : string) :
  sendable args -> (p +++ q) = EncodeArray args -> q <> EmptyString ->
  exists e, Decode p = DErr e.
Proof. apply decode_truncated. Qed.

Lemma truncated_command_is_error_witness :
  exists e, Decode ("*1" +++ CRLF +++ "$4" +++ CRLF +++ "PI") = DErr e.
Proof.
  apply (truncated_command_is_error ["PING"] _ ("NG" +++ CRLF)); [|reflexivity|discriminate].
  split; [|done]. repeat constructor; unfold small; done.
Defined.

(** [DecodeInteger] reads back every int64 that [EncodeInteger] wrote. *)
Theorem integer_reply_roundtrip (n : Z) : is_int64 n -> DecodeInteger (EncodeInteger n) = Some n.
Proof.
  intros Hn. unfold DecodeInteger, EncodeInteger.
  rewrite TrimPrefix_app, TrimSuffix_app. by apply ParseInt_FormatInt.
Qed.

Lemma integer_reply_roundtrip_witness : DecodeInteger (EncodeInteger (-42)) = Some (-42).
Proof. apply integer_reply_roundtrip. by vm_compute. Defined.

(** ** The scratch buffer *)

(** The same reader with and without a scratch buffer. *)
Definition twin (r r' : reader) : Prop :=
  input r = input r' /\ scratch r = None /\ exists sc, scratch r' = Some sc /\ len sc <= maxAlloc.

(** The same outcome: equal values and errors, and a panic on both sides or none. *)
Definition agree {A} (x y : dres A) : Prop :=
  match x, y with
  | DOk a r, DOk b r' => a = b /\ twin r r'
  | DErr e, DErr e' => e = e'
  | DPanic _, DPanic _ => True
  | DOutOfFuel, DOutOfFuel => True
  | _, _ => False
  end.

Lemma agree_bind {A B} (x y : dres A) (k k' : A -> reader -> dres B) :
  agree x y -> (forall a r r', twin r r' -> agree (k a r) (k' a r')) ->
  agree (dbind x k) (dbind y k').
Proof. destruct x, y; simpl; try done. intros [-> ?]. auto. Qed.

Lemma readLine_agree r r' : twin r r' -> agree (readLine r) (readLine r').
Proof.
  intros (Hi & Hs & sc & Hs' & Hc). unfold readLine. rewrite Hi.
  destruct (split_line (input r')) as [[l rest]|]; [|done].
  destruct (strip_suffix _ l); [|done]. split; [done|]. split; [done|]. split; [done|]. by exists sc.
Qed.

Lemma bulk_buffer_agree sc need :
  len sc <= maxAlloc -> (bulk_buffer None need = None <-> bulk_buffer (Some sc) need = None).
Proof.
  intros. unfold bulk_buffer, make_ok. pose proof (len_nonneg sc).
  split_ifs; z_bools; repeat match goal with H : (_ && _) = false |- _ => apply andb_false_iff in H end;
    split; intros; try done; z_bools; exfalso; lia.
Qed.

Lemma len_refill sc data :
  len data <= maxAlloc -> len sc <= maxAlloc ->
  len (data +++ drop_bytes (String.length data) sc) <= maxAlloc.
Proof.
  intros Hd Hs. rewrite len_append.
  assert (len (drop_bytes (String.length data) sc) = Z.max 0 (len sc - len data)) as ->; [|lia].
  clear Hd Hs. unfold len. revert sc. induction data as [|c data IH]; intros sc; simpl.
  - lia.
  - destruct sc as [|c' sc]; simpl; [lia|]. rewrite IH. lia.
Qed.

Lemma readBulkString_agree r r' : twin r r' -> agree (readBulkString r) (readBulkString r').
Proof.
  intros H. apply agree_bind; [by apply readLine_agree|]. clear r r' H.
  intros line r r' (Hi & Hs & sc & Hs' & Hc). destruct (Atoi line) as [n|]; [|done].
  destruct (n =? -1). { split; [done|]. repeat split; eauto. }
  rewrite Hi, Hs, Hs'. pose proof (bulk_buffer_agree sc (i64 (n + 2)) Hc) as Hb.
  destruct (bulk_buffer None _) eqn:E, (bulk_buffer (Some sc) _) eqn:E'; try naive_solver;
    cbv zeta; rewrite E, E'; [done|].
  destruct (_ <? _); [done|].
  destruct (take_bytes (Z.to_nat (i64 (n + 2))) (input r')) as [[buffer rest]|] eqn:Et; [|done].
  destruct (n <? 0); [done|]. destruct (take_bytes _ buffer) as [[body term]|]; [|done].
  case_decide; [|done]. split; [done|]. split; [done|]. split; [done|].
  eexists. split; [reflexivity|]. apply len_refill; [|done].
  apply take_bytes_Some in Et as [_ Et]. revert E. unfold bulk_buffer, make_ok, len. rewrite Et.
  destruct (_ && _) eqn:Hm; [|done]. z_bools. lia.
Qed.

Lemma readElements_agree dec fuel count i r r' :
  (forall r r', twin r r' -> agree (dec r) (dec r')) -> twin r r' ->
  agree (readElements dec fuel count i r) (readElements dec fuel count i r').
Proof.
  intros Hdec. revert i r r'. induction fuel as [|fuel IH]; intros i r r' Hr; simpl;
    (destruct (count <=? i); [done|]); [done|].
  specialize (Hdec r r' Hr). destruct (dec r), (dec r'); simpl in Hdec; try done.
  - destruct Hdec as [-> Ht]. apply agree_bind; [by apply IH|]. intros. by split.
  - simpl. congruence.
Qed.

Lemma decode_agree fuel r r' : twin r r' -> agree (decode fuel r) (decode fuel r').
Proof.
  revert r r'. induction fuel as [|fuel IH]; intros r r' H; [done|]. cbn [decode].
  destruct H as (Hi & Hs & sc & Hs' & Hc). rewrite Hi, Hs, Hs'.
  destruct (input r') as [|t s]; [done|].
  assert (twin (Reader s None) (Reader s (Some sc))) as Ht by (repeat split; eauto).
  repeat case_decide; try done; (apply agree_bind; [|by intros; split]);
    auto using readLine_agree, readBulkString_agree.
  - apply agree_bind; [by apply readLine_agree|]. intros line ? ? ?.
    by destruct (ParseInt line).
  - apply agree_bind; [by apply readLine_agree|]. intros line ? ? ?.
    destruct (Atoi line); [|done]. destruct (make_ok _ _); [|done].
    by apply readElements_agree.
Qed.

(** C34: A [Decoder], which reuses one scratch buffer for every bulk string, decodes
    exactly what the allocating [Decode] does, whatever earlier commands left in the
    buffer: no byte of an earlier command reaches a later one. *)
Theorem scratch_decoder_agrees (s sc : string) :
  len sc <= maxAlloc -> agree (Decode s) (Decoder_Decode s sc).
Proof. intros H. apply decode_agree. repeat split; eauto. Qed.

Lemma scratch_decoder_agrees_witness :
  agree (Decode (EncodeArray ["GET"; "k"])) (Decoder_Decode (EncodeArray ["GET"; "k"]) "stale bytes").
Proof. apply scratch_decoder_agrees. by vm_compute. Defined.

(** ** Lengths the decoder does not check *)

(** C35: A negative array length other than none, or a bulk length below -1, is not an
    error reply: the decoder panics on it, and with it the server. *)
Theorem negative_length_panics (n : Z) (rest : string) :
  is_int64 n ->
  (n < 0 -> exists p, Decode ("*" +++ Itoa n +++ CRLF +++ rest) = DPanic p) /\
  (n < -1 -> exists p, Decode ("$" +++ Itoa n +++ CRLF +++ rest) = DPanic p).
Proof.
  intros Hn. unfold Decode, decode_fuel. split; intros.
  - rewrite decode_star. unfold readArray, Itoa. rewrite readLine_int. cbn [dbind].
    unfold Atoi. rewrite ParseInt_FormatInt by done.
    replace (make_ok 16 n) with false by (unfold make_ok; lia). by eexists.
  - rewrite decode_dollar. unfold readBulkString, Itoa. rewrite readLine_int. cbn [dbind].
    unfold Atoi. rewrite ParseInt_FormatInt by done.
    replace (n =? -1) with false by lia. cbn [scratch input bulk_buffer].
    rewrite i64_small by (revert Hn; unfold is_int64, MinInt64, MaxInt64; lia).
    destruct (decide (n = -2)) as [->|].
    + cbn [make_ok Z.add Z.pos_sub]. simpl (make_ok _ _). simpl (len _ <? _).
      pose proof (len_nonneg rest). replace (len rest <? -2 + 2) with false by lia.
      by destruct rest; eexists.
    + replace (make_ok 1 (n + 2)) with false by (unfold make_ok; lia). by eexists.
Qed.

Lemma negative_length_panics_witness :
  exists p, Decode ("*-1" +++ CRLF) = DPanic p.
Proof. apply (negative_length_panics (-1) EmptyString); [by vm_compute|lia]. Defined.
