(* ===== verification/Aof.v ===== *)
(** * The append-only file (src/core/aof.go)

    The file is the string of its bytes. [Write] appends to its end; [Recover]
    reads it from the start and hands each command to a function that may change
    the state of the program (or panic). *)

From S2P Require Import Prelude GoLib Resp.

(** [os.File.Write] on a file opened with [O_APPEND]: [None] is a write that succeeds, and
    [Some n] one that fails when at most [n] bytes have got into the file. Together with the
    file, whether there is an error. *)
Definition File_Write (wr : option nat) (file b : string) : string * bool :=
  match wr with
  | None => (file +++ b, false)
  | Some n => (file +++ String.substring 0 n b, true)
  end.

(** [Write] appends one command. *)
Definition AOF_Write (wr : option nat) (file : string) (args : list string) : string * bool :=
  File_Write wr file (EncodeArray args).

(** The file after a write that succeeds. *)
Definition appended (file : string) (args : list string) : string := (AOF_Write None file args).1.

(** [Sync]: what is on disk afterwards, or that it failed. *)
Inductive sync_result := Synced (file : string) | SyncError.

Definition AOF_Sync (failed : bool) (file : string) : sync_result := if failed then SyncError else Synced file.

(** [[]any] to [[]string]: an element that is not a string leaves the zero value. *)
Definition args_of (arr : list value) : list string :=
  (fun v => match v with VString s => s | _ => EmptyString end) <$> arr.

Section recover.
Context {S : Type} (fn : list string -> GoM S unit).

(** The loop of [Recover]. One round reads at least one byte, so the fuel
    [decode_fuel file] is never used up ([recover_loop_fuel]). *)
Fixpoint recover_loop (fuel : nat) (file : string) : GoM S unit :=
  match fuel with
  | O => mret tt
  | Datatypes.S fuel =>
      match Decode file with
      | DErr _ | DOutOfFuel => mret tt
      | DPanic p => panicking p
      | DOk (VArray arr) r => fn (args_of arr) ;; recover_loop fuel (input r)
      | DOk _ r => recover_loop fuel (input r)
      end
  end.

Definition Recover (file : string) : GoM S unit := recover_loop (decode_fuel file) file.

Lemma Decode_shorter file v r :
  Decode file = DOk v r -> (String.length (input r) < String.length file)%nat.
Proof. apply decode_shorter. Qed.

Lemma recover_loop_fuel fuel fuel' file s :
  (String.length file < fuel)%nat -> (String.length file < fuel')%nat ->
  recover_loop fuel file s = recover_loop fuel' file s.
Proof.
  revert fuel' file s. induction fuel as [|fuel IH]; intros fuel' file s H H'; [lia|].
  destruct fuel' as [|fuel']; [lia|]. simpl.
  destruct (Decode file) as [v r| | |] eqn:E; try done. apply Decode_shorter in E.
  destruct v; try (apply IH; lia).
  unfold mbind, GoM_bind. destruct (fn _ s) as [[? s']|]; [|done]. apply IH; lia.
Qed.

(** Reading one whole command at the front of the file. *)
Lemma Recover_cons args rest s :
  sendable args ->
  Recover (EncodeArray args +++ rest) s = (fn args ;; Recover rest) s.
Proof.
  intros H. unfold Recover at 1. unfold decode_fuel. cbn [recover_loop].
  rewrite Decode_EncodeArray by done. cbn [input].
  assert (args_of (VString <$> args) = args) as ->.
  { unfold args_of. rewrite <-list_fmap_compose. apply list_fmap_id. }
  unfold mbind, GoM_bind. destruct (fn args s) as [[u s']|]; [|done].
  unfold Recover. apply recover_loop_fuel; [|unfold decode_fuel; lia].
  rewrite length_append'. unfold EncodeArray. rewrite length_append'. simpl. lia.
Qed.

Lemma Recover_truncated args p q s :
  sendable args -> (p +++ q) = EncodeArray args -> q <> EmptyString ->
  Recover p s = Val (tt, s).
Proof.
  intros H Hpq Hq. destruct (decode_truncated args p q H Hpq Hq) as [e E].
  unfold Recover, decode_fuel. cbn [recover_loop]. by rewrite E.
Qed.

Lemma encode_all_app l1 l2 : encode_all (l1 ++ l2) = (encode_all l1 +++ encode_all l2).
Proof. induction l1 as [|x l1 IH]; [done|]. cbn [app encode_all]. by rewrite IH, append_assoc'. Qed.

Lemma append_inj_r (a b c : string) : (a +++ c) = (b +++ c) -> a = b.
Proof.
  revert b. induction a as [|x a IH]; intros [|y b]; cbn; [done|..]; intros E.
  - exfalso. apply (f_equal String.length) in E. cbn in E. rewrite length_append' in E. lia.
  - exfalso. apply (f_equal String.length) in E. cbn in E. rewrite length_append' in E. lia.
  - injection E as -> E. f_equal. by apply IH.
Qed.

Lemma append_inv_nil (a b : string) : (a +++ b) = a -> b = EmptyString.
Proof.
  intros E. apply (f_equal String.length) in E. rewrite length_append' in E. destruct b; [done|]. cbn in E. lia.
Qed.

Lemma forM_app l1 l2 s : forM (l1 ++ l2) fn s = (forM l1 fn ;; forM l2 fn) s.
Proof.
  revert s. induction l1 as [|x l1 IH]; intros s; [done|]. cbn [app forM]. unfold mbind, GoM_bind in *.
  destruct (fn x s) as [[u s']|]; [|done]. apply IH.
Qed.

(** The file after the commands [cmds] were written to it. *)
Definition written (cmds : list (list string)) : string := foldl appended EmptyString cmds.

Lemma foldl_appended file cmds :
  foldl appended file cmds = (file +++ concat_all (EncodeArray <$> cmds)).
Proof.
  revert file. induction cmds as [|c cmds IH]; intros file; simpl; [by rewrite append_nil_r|].
  rewrite IH. unfold appended, AOF_Write, File_Write. cbn [fst]. by rewrite append_assoc'.
Qed.

Lemma Recover_written cmds rest s :
  Forall sendable cmds ->
  Recover (written cmds +++ rest) s = (forM cmds fn ;; Recover rest) s.
Proof.
  unfold written. rewrite foldl_appended. simpl (EmptyString +++ _).
  revert s. induction cmds as [|c cmds IH]; intros s Hc; [done|].
  apply Forall_cons in Hc as [Hc Hcs]. simpl fmap. cbn [concat_all forM].
  rewrite append_assoc', Recover_cons by done.
  unfold mbind, GoM_bind in *. destruct (fn c s) as [[u s']|]; [|done]. by apply IH.
Qed.

Lemma append_prefix (a b c d : string) :
  (a +++ b) = (c +++ d) -> (exists e, a = (c +++ e) /\ d = (e +++ b)) \/ (exists e, c = (a +++ e) /\ e <> EmptyString).
Proof.
  revert c. induction a as [|x a IH]; intros c; cbn.
  - intros ->. destruct c as [|y c]; [left; by exists EmptyString|right; by eexists].
  - destruct c as [|y c]; cbn; [intros <-; left; by exists (String x a)|]. intros [= -> Hac].
    destruct (IH c Hac) as [(e & -> & ->)|(e & -> & He)]; [left; by exists e|right; by exists e].
Qed.

(** What is left when a file of commands is cut anywhere: the first commands, and at most
    a part of the next one, which recovery ignores. *)
Lemma Recover_cut log f rest :
  Forall sendable log -> written log = (f +++ rest) ->
  exists m, (forall s, Recover f s = forM (take m log) fn s) /\ (rest = EmptyString -> take m log = log).
Proof.
  unfold written. rewrite foldl_appended. cbn [String.append]. intros Hl. revert f.
  induction Hl as [|c log Hc Hl IH]; intros f Hf; cbn [fmap list_fmap concat_all] in Hf.
  - destruct f; [|done]. by exists 0%nat.
  - destruct (append_prefix f rest _ _ (eq_sym Hf)) as [(e & -> & He)|(e & He & Hne)].
    + destruct (IH e He) as (m & Hm & Hall). exists (Datatypes.S m). split; [|intros Hr; cbn; by rewrite Hall].
      intros s. rewrite Recover_cons by done. cbn [take forM]. unfold mbind, GoM_bind.
      destruct (fn c s) as [[u s']|]; [|done]. apply Hm.
    + exists 0%nat. split; [intros s; by eapply (Recover_truncated c f e)|].
      intros ->. rewrite append_nil_r in Hf. exfalso. apply (f_equal String.length) in Hf. rewrite He in Hf.
      rewrite !length_append' in Hf. destruct e; [done|]. cbn in Hf. lia.
Qed.

(** Recovery replays exactly the commands that were written completely, in
    order, and ignores the last one if a crash cut it short: a file of commands
    [cmds] followed by a proper prefix [p] of one more command runs [fn] on [cmds]
    and then stops. *)
Theorem recover_after_crash (cmds : list (list string)) (last : list string) (p q : string) (s : S) :
  Forall sendable cmds -> sendable last ->
  (p +++ q) = EncodeArray last -> q <> EmptyString ->
  Recover (written cmds +++ p) s = forM cmds fn s.
Proof.
  intros Hc Hl Hpq Hq. rewrite Recover_written by done.
  unfold mbind, GoM_bind. destruct (forM cmds fn s) as [[[] s']|]; [|done].
  by eapply Recover_truncated.
Qed.

Lemma parse_digits_bad c a b acc : digit_of c = None -> parse_digits acc (a +++ String c b) = None.
Proof. intros Hc. revert acc. induction a as [|x a IH]; intros acc; cbn; [by rewrite Hc|]. destruct (digit_of x); auto. Qed.

Lemma ParseInt_bad c a b : digit_of c = None -> c <> "+"%char -> c <> "-"%char -> ParseInt (a +++ String c b) = None.
Proof.
  intros Hc Hp Hm. unfold ParseInt. destruct a as [|x a]; cbn [String.append].
  - rewrite !decide_False by done. unfold parse_udec. cbn. by rewrite Hc.
  - assert (parse_udec (a +++ String c b) = None) as Ha.
    { unfold parse_udec. destruct (a +++ String c b) eqn:E; [done|]. rewrite <-E. by apply parse_digits_bad. }
    pose proof (parse_digits_bad c (String x a) b 0 Hc) as Hb. cbn [String.append] in Hb.
    rewrite Ha. unfold parse_udec. rewrite Hb. by repeat case_decide.
Qed.

(** The first line of a record that starts in the middle of another one's is no number. *)
Lemma Decode_torn d c more : not_in LF d = true -> exists e, Decode (String "*" (d +++ EncodeArray c +++ more)) = DErr e.
Proof.
  intros Hd. unfold Decode, decode_fuel. cbn [decode input]. rewrite !decide_False, decide_True by done.
  replace (d +++ EncodeArray c +++ more)
    with ((d +++ String "*" (Itoa (Z.of_nat (length c)))) +++ CRLF +++ (encode_all c +++ more))
    by (unfold EncodeArray; by rewrite !append_assoc').
  unfold readArray. rewrite readLine_app.
  - cbn [dbind]. unfold Atoi. rewrite ParseInt_bad by done. by eexists.
  - rewrite not_in_append, Hd. apply FormatInt_not_in; done.
Qed.

Lemma split_line_none d : not_in LF d = true -> split_line d = None.
Proof.
  induction d as [|x d IH]; [done|]. cbn [not_in split_line]. intros [Hx Hd]%andb_true_iff.
  apply negb_true_iff, bool_decide_eq_false_1 in Hx. rewrite decide_False by congruence. by rewrite IH.
Qed.

Lemma Decode_unfinished d : not_in LF d = true -> Decode (String "*" d) = DErr ErrEOF.
Proof.
  intros Hd. unfold Decode, decode_fuel. cbn [decode input]. rewrite !decide_False, decide_True by done.
  unfold readArray, readLine. cbn [input]. by rewrite split_line_none.
Qed.

(** A line that lacks some of its end has no line feed. *)
Lemma torn_line_not_in c (l d d' : string) :
  not_in c l = true -> (d +++ d') = (l +++ String c EmptyString) -> d' <> EmptyString -> not_in c d = true.
Proof.
  revert d. induction l as [|x l IH]; intros [|y d] Hl E Hd; try done.
  - injection E as _ E. destruct d; [by destruct d'|done].
  - cbn [not_in] in *. apply andb_true_iff in Hl as [Hx Hl]. injection E as -> E. apply andb_true_iff. by split; [|eapply IH].
Qed.

(** C38: A torn record hides everything written after it. When a crash cut a record in its
    first line, anywhere before the line feed, the server starts with the commands before
    it, but the torn bytes stay in the file and later commands are appended after them, so
    the next start finds none of the commands written since. *)
Theorem torn_record_hides_later_writes (cmds later : list (list string)) (last : list string) (d d' : string) (s : S) :
  Forall sendable cmds -> (d +++ d') = (Itoa (Z.of_nat (length last)) +++ CRLF) -> d' <> EmptyString -> later <> [] ->
  Recover (written cmds +++ "*" +++ d) s = forM cmds fn s /\
  Recover (foldl appended (written cmds +++ "*" +++ d) later) s = forM cmds fn s.
Proof.
  intros Hc Hd Hd' Hl. destruct later as [|c later]; [done|]. rewrite foldl_appended, append_assoc', !Recover_written by done.
  unfold mbind, GoM_bind. destruct (forM cmds fn s) as [[[] s']|]; [|done].
  assert (not_in LF d = true) as Hlf.
  { apply (torn_line_not_in LF (Itoa (Z.of_nat (length last)) +++ String CR EmptyString) d d'); [|by rewrite append_assoc'|done].
    rewrite not_in_append. unfold Itoa. by rewrite FormatInt_not_in. }
  cbn [fmap list_fmap concat_all]. destruct (Decode_torn d c (concat_all (EncodeArray <$> later)) Hlf) as [e He].
  change (("*" +++ d) +++ (EncodeArray c +++ concat_all (EncodeArray <$> later)))
    with (String "*" (d +++ EncodeArray c +++ concat_all (EncodeArray <$> later))).
  change ("*" +++ d) with (String "*" d).
  unfold Recover, decode_fuel. cbn [recover_loop]. by rewrite He, Decode_unfinished.
Qed.

(** *** A torn record that runs on into the next one *)

(** Strings between the commands are skipped. *)
Lemma Recover_bulk x rest s : small x -> Recover (EncodeBulkString x +++ rest) s = Recover rest s.
Proof.
  intros Hx. unfold Recover at 1. unfold decode_fuel. cbn [recover_loop].
  destruct (decode_bulk (String.length (EncodeBulkString x +++ rest)) x rest None Hx) as (sc & E & _).
  unfold Decode, decode_fuel. rewrite E. cbn [input].
  unfold Recover. apply recover_loop_fuel; [|unfold decode_fuel; lia].
  rewrite length_append'. unfold EncodeBulkString. rewrite length_append'. simpl. lia.
Qed.

Lemma Recover_bulks xs rest s : Forall small xs -> Recover (encode_all xs +++ rest) s = Recover rest s.
Proof.
  induction 1 as [|x xs Hx Hxs IH]; [done|]. cbn [encode_all]. by rewrite append_assoc', Recover_bulk.
Qed.

(** The first bytes of a record up to the middle of its last value do not tell what the
    rest of that value is, only how long it is. *)
Lemma torn_value args a b b' torn :
  len b = len b' -> (torn +++ b +++ CRLF) = EncodeArray (args ++ [a +++ b]) ->
  (torn +++ b' +++ CRLF) = EncodeArray (args ++ [a +++ b']).
Proof.
  intros Hb Ht.
  assert (forall x, EncodeArray (args ++ [a +++ x])
    = (("*" +++ Itoa (Z.of_nat (length args + 1)) +++ CRLF +++ encode_all args +++ "$" +++ Itoa (len a + len x) +++ CRLF +++ a) +++ x +++ CRLF)) as He.
  { intros x. unfold EncodeArray. rewrite length_app, encode_all_app. cbn [encode_all length].
    unfold EncodeBulkString. rewrite len_append, append_nil_r. by rewrite !append_assoc'. }
  rewrite He, <-Hb. rewrite He in Ht. f_equal. by apply append_inj_r in Ht.
Qed.

(** C39: A torn record can come back as a command nobody sent. When a crash or a failed
    write cut a record in its last value, the next record [c] is appended there. If the
    missing bytes [b] are as many as the first line of [c], recovery takes that line for
    the end of the value, skips the arguments of [c], and goes on with the commands after
    it: it runs a command with a value that was never written, and loses [c]. *)
Theorem torn_value_is_forged (cmds more : list (list string)) (args c : list string) (a b torn : string) (s : S) :
  Forall sendable cmds -> sendable (args ++ [a +++ b]) -> sendable c -> Forall sendable more ->
  (torn +++ b +++ CRLF) = EncodeArray (args ++ [a +++ b]) ->
  len b = len ("*" +++ Itoa (Z.of_nat (length c))) ->
  Recover (foldl appended (written cmds +++ torn) (c :: more)) s
  = forM (cmds ++ (args ++ [a +++ "*" +++ Itoa (Z.of_nat (length c))]) :: more) fn s.
Proof.
  intros Hcmds Hlast Hc Hmore Htorn Hb. set (first := "*" +++ Itoa (Z.of_nat (length c))) in *.
  rewrite foldl_appended, append_assoc', Recover_written by done. rewrite forM_app.
  unfold mbind, GoM_bind. destruct (forM cmds fn s) as [[[] s1]|]; [|done]. cbn [fmap list_fmap concat_all forM].
  assert ((torn +++ EncodeArray c +++ concat_all (EncodeArray <$> more))
    = (EncodeArray (args ++ [a +++ first]) +++ encode_all c +++ concat_all (EncodeArray <$> more))) as ->.
  { rewrite <-(torn_value args a b first torn Hb Htorn). unfold EncodeArray at 1. by rewrite !append_assoc'. }
  assert (sendable (args ++ [a +++ first])) as Hf.
  { destruct Hlast as [[Hs1 Hs2]%Forall_app Hn]. rewrite length_app in Hn. split; [|by rewrite length_app].
    apply Forall_app. split; [done|]. constructor; [|done]. apply Forall_cons in Hs2 as [Hs2 _].
    unfold small in *. rewrite len_append in *. lia. }
  rewrite Recover_cons by done. unfold mbind, GoM_bind. destruct (fn _ s1) as [[[] s2]|]; [|done].
  rewrite Recover_bulks by apply Hc. pose proof (Recover_written more EmptyString s2 Hmore) as Hw.
  unfold written in Hw. rewrite foldl_appended, append_nil_r in Hw. cbn [String.append] in Hw. rewrite Hw.
  unfold mbind, GoM_bind. by destruct (forM more fn s2) as [[[] s3]|].
Qed.
End recover.

(** ** A disk that fills up *)

(** The outcome of a write on a disk with room for a file of [cap] bytes, or for any. *)
Definition room (cap : option Z) (file b : string) : option nat :=
  match cap with
  | Some c => if len file + len b <=? c then None else Some (Z.to_nat (c - len file))
  | None => None
  end.

Definition disk_holds `{GoEnv} (cap : option Z) : Prop := forall i file b, env_write i file b = room cap file b.

(** The file after the commands [cmds] were written to it there. *)
Definition filled (cap : option Z) (file : string) (cmds : list (list string)) : string :=
  foldl (fun f c => (AOF_Write (room cap f (EncodeArray c)) f c).1) file cmds.

Lemma substring_prefix n s :
  exists r, s = (String.substring 0 n s +++ r) /\ len (String.substring 0 n s) = Z.min (Z.of_nat n) (len s).
Proof.
  revert n. induction s as [|c s IH]; intros n.
  - exists EmptyString. destruct n; cbn; unfold len; cbn; split; (done || lia).
  - destruct n as [|n]; [exists (String c s); unfold len; cbn; split; (done || lia)|].
    destruct (IH n) as (r & Hr & Hl). exists r. cbn [String.substring String.append].
    rewrite !len_cons, Hl. split; [by f_equal|lia].
Qed.

Lemma filled_full c file cmds : len file = c -> filled (Some c) file cmds = file.
Proof.
  intros Hf. induction cmds as [|x cmds IH]; [done|]. unfold filled in *. cbn [foldl]. unfold room.
  assert (0 < len (EncodeArray x)) as Hx.
  { unfold EncodeArray. rewrite len_append. change (len "*") with 1. pose proof (len_nonneg (Itoa (Z.of_nat (length x)) +++ CRLF +++ encode_all x)). lia. }
  rewrite (proj2 (Z.leb_gt _ _)) by lia. replace (Z.to_nat (c - len file)) with 0%nat by lia.
  unfold AOF_Write, File_Write. destruct (EncodeArray x); cbn [String.substring fst]; by rewrite append_nil_r.
Qed.

(** What is on the disk is the start of what should be. *)
Lemma filled_prefix cap file cmds :
  (forall c, cap = Some c -> len file <= c) -> exists rest, foldl appended file cmds = (filled cap file cmds +++ rest).
Proof.
  revert file. induction cmds as [|x cmds IH]; intros file Hf; [exists EmptyString; by rewrite append_nil_r|].
  change (filled cap file (x :: cmds)) with (filled cap (AOF_Write (room cap file (EncodeArray x)) file x).1 cmds).
  cbn [foldl]. destruct cap as [c|]; cbn [room].
  - destruct (Z.leb_spec (len file + len (EncodeArray x)) c) as [Hle|Hgt].
    + apply IH. intros ? [= <-]. cbn. by rewrite len_append.
    + unfold AOF_Write, File_Write. cbn [fst]. specialize (Hf c eq_refl).
      destruct (substring_prefix (Z.to_nat (c - len file)) (EncodeArray x)) as (r & Hr & Hl).
      set (p := String.substring 0 _ (EncodeArray x)) in *.
      rewrite (filled_full c) by (rewrite len_append, Hl; lia). rewrite foldl_appended. unfold appended, AOF_Write, File_Write. cbn [fst].
      exists (r +++ concat_all (EncodeArray <$> cmds)). by rewrite Hr, !append_assoc'.
  - by apply IH.
Qed.

(** A file of one complete command and half of a second one. *)
Lemma recover_after_crash_witness :
  Recover (fun args => modify (cons args)) (written [["DEL"; "a"]] +++ "*1") [["x"]]
  = Val (tt, [["DEL"; "a"]; ["x"]]).
Proof.
  refine (eq_trans (recover_after_crash (fun args => modify (cons args)) [["DEL"; "a"]] ["PING"] "*1"
    (CRLF +++ EncodeBulkString "PING") [["x"]] _ _ _ _) _); [..|reflexivity|discriminate|reflexivity].
  - repeat constructor; try done; unfold small; done.
  - split; [|done]. repeat constructor; unfold small; done.
Defined.

(** [SET k abcd] is cut after "ab" and [SET j x] is written behind it: recovery sets [k] to
    "ab*3", and [j] is not set. *)
Lemma torn_value_is_forged_witness :
  Recover (fun args => modify (cons args))
    (foldl appended (written [] +++ "*3" +++ CRLF +++ encode_all ["SET"; "k"] +++ "$4" +++ CRLF +++ "ab") [["SET"; "j"; "x"]]) []
  = Val (tt, [["SET"; "k"; "ab*3"]]).
Proof.
  refine (eq_trans (torn_value_is_forged (fun args => modify (cons args)) [] [] ["SET"; "k"] ["SET"; "j"; "x"] "ab" "cd" _ []
    _ _ _ _ _ _) _); [done| | |done|reflexivity|reflexivity|reflexivity].
  - split; [|done]. repeat constructor; unfold small; done.
  - split; [|done]. repeat constructor; unfold small; done.
Defined.

(** A command cut between the two bytes that end its first line, then a whole one: the
    whole one is not found. *)
Lemma torn_record_hides_later_writes_witness :
  let torn := written [["DEL"; "a"]] +++ "*1" +++ String CR EmptyString in
  Recover (fun args => modify (cons args)) torn [["x"]] = Val (tt, [["DEL"; "a"]; ["x"]]) /\
  Recover (fun args => modify (cons args)) (foldl appended torn [["SET"; "k"; "v"]]) [["x"]]
  = Val (tt, [["DEL"; "a"]; ["x"]]).
Proof.
  refine (torn_record_hides_later_writes (fun args => modify (cons args)) [["DEL"; "a"]] [["SET"; "k"; "v"]]
    ["PING"] ("1" +++ String CR EmptyString) (String LF EmptyString) [["x"]] _ _ _ _); [|reflexivity|discriminate|discriminate].
  repeat constructor; try done; unfold small; done.
Defined.
