(* ===== verification/Sds.v ===== *)
(** * Growable strings (src/core/sds/sds.go)

    An SDS is a byte slice: its contents and its capacity. Every SDS is owned by
    one entry of the store, so the methods that change it in place return it. *)

From S2P Require Import Prelude GoLib.

Definition sdsMaxPreAlloc : Z := 1024 * 1024.

Record SDS := mkSDS { buf : string; bufcap : Z }.

(** [New]: [make([]byte, len(s))] has no spare capacity. *)
Definition SDS_New (s : string) : SDS := mkSDS s (len s).

Definition SDS_Len (s : SDS) : Z := len (buf s).
Definition SDS_Cap (s : SDS) : Z := bufcap s.
Definition SDS_String (s : SDS) : string := buf s.

(** A fresh buffer of capacity [newCap] holding a copy of the contents. *)
Definition growTo (s : SDS) (needed : Z) : SDS :=
  let newCap := if needed <? sdsMaxPreAlloc then needed * 2 else needed + sdsMaxPreAlloc in
  mkSDS (buf s) newCap.

Section sds.
Context `{GoEnv}.

(** Go's [append(s.buf, bytes...)]: in place if the capacity suffices. *)
Definition go_append (s : SDS) (bytes : string) : SDS :=
  let needed := len (buf s) + len bytes in
  mkSDS (buf s +++ bytes)
        (if needed <=? bufcap s then bufcap s else env_append_cap (bufcap s) needed).

Definition SDS_append (s : SDS) (bytes : string) : SDS :=
  let needed := len (buf s) + len bytes in
  let s := if sdsMaxPreAlloc <? needed then growTo s needed else s in
  go_append s bytes.

Definition AppendString (s : SDS) (v : string) : SDS := SDS_append s v.

(** The slice fits in its buffer. *)
Definition sds_wf (s : SDS) : Prop := SDS_Len s <= SDS_Cap s.

Lemma SDS_New_wf s : sds_wf (SDS_New s).
Proof. unfold sds_wf, SDS_Len, SDS_Cap. simpl. lia. Qed.

Lemma AppendString_String s v : SDS_String (AppendString s v) = SDS_String s +++ v.
Proof. unfold AppendString, SDS_append, go_append. by destruct (_ <? _). Qed.

Lemma AppendString_Cap_large s v :
  sdsMaxPreAlloc < SDS_Len s + len v ->
  SDS_Cap (AppendString s v) = SDS_Len s + len v + sdsMaxPreAlloc.
Proof.
  unfold SDS_Len, SDS_Cap, AppendString, SDS_append, go_append, growTo, sdsMaxPreAlloc. intros Hn.
  rewrite (proj2 (Z.ltb_lt _ _)) by lia. cbn [buf bufcap].
  rewrite (proj2 (Z.ltb_ge _ _)) by lia. by rewrite (proj2 (Z.leb_le _ _)) by lia.
Qed.

Lemma AppendString_wf `{!GoEnvLaws} s v : sds_wf (AppendString s v).
Proof.
  unfold sds_wf, SDS_Len.
  change (buf (AppendString s v)) with (SDS_String (AppendString s v)).
  rewrite AppendString_String, len_append. unfold SDS_String.
  destruct (Z.ltb_spec sdsMaxPreAlloc (len (buf s) + len v)) as [Hl|Hl].
  - rewrite AppendString_Cap_large by done. unfold SDS_Len, sdsMaxPreAlloc in *. lia.
  - unfold AppendString, SDS_append. rewrite (proj2 (Z.ltb_ge _ _)) by done.
    unfold SDS_Cap, go_append. cbn [bufcap]. destruct (Z.leb_spec (len (buf s) + len v) (bufcap s)); [done|].
    apply append_cap_ge.
Qed.

(** [AppendString] adds exactly the given bytes at the end, keeps the contents
    within the capacity and never reallocates while there is room below 1 MB. *)
Theorem sds_append_correct `{!GoEnvLaws} (s : SDS) (v : string) :
  SDS_String (AppendString s v) = SDS_String s +++ v /\
  SDS_Len (AppendString s v) = SDS_Len s + len v /\
  SDS_Len (AppendString s v) <= SDS_Cap (AppendString s v) /\
  (SDS_Len s + len v <= Z.min (SDS_Cap s) sdsMaxPreAlloc -> SDS_Cap (AppendString s v) = SDS_Cap s).
Proof.
  split; [apply AppendString_String|]. split; [|split; [by apply AppendString_wf|]].
  - unfold SDS_Len. change (buf (AppendString s v)) with (SDS_String (AppendString s v)).
    by rewrite AppendString_String, len_append.
  - unfold SDS_Len, SDS_Cap. intros Hn. unfold AppendString, SDS_append, go_append.
    rewrite (proj2 (Z.ltb_ge _ _)) by lia. cbn [bufcap].
    by rewrite (proj2 (Z.leb_le _ _)) by lia.
Qed.

(** Past 1 MB every append allocates a new buffer, of exactly 1 MB more than the
    new length, even when the old buffer had room: the capacity after an append
    does not depend on the capacity before it. *)
Theorem sds_large_append_reallocates (s : SDS) (v : string) (c : Z) :
  sdsMaxPreAlloc < SDS_Len s + len v ->
  AppendString (mkSDS (buf s) c) v = AppendString s v /\
  SDS_Cap (AppendString s v) = SDS_Len (AppendString s v) + sdsMaxPreAlloc.
Proof.
  intros Hn. split.
  - unfold AppendString, SDS_append, SDS_Len in *. cbn [buf].
    by rewrite (proj2 (Z.ltb_lt _ _)) by lia.
  - rewrite AppendString_Cap_large by done. unfold SDS_Len at 2.
    change (buf (AppendString s v)) with (SDS_String (AppendString s v)).
    by rewrite AppendString_String, len_append.
Qed.
End sds.

Lemma sds_append_correct_witness :
  SDS_String (@AppendString (env_at unixToInternal) (SDS_New "ab") "cd") = "abcd".
Proof.
  apply (@sds_append_correct (env_at unixToInternal) (env_at_laws unixToInternal ltac:(lia))
           (SDS_New "ab") "cd").
Defined.

(** A string of 2^20 bytes and one more, built by doubling. *)
Fixpoint doubled (n : nat) (s : string) : string :=
  match n with O => s | S n => doubled n (s +++ s) end.

Lemma len_doubled n s : len (doubled n s) = 2 ^ Z.of_nat n * len s.
Proof.
  revert s. induction n as [|n IH]; intros s; [simpl; lia|].
  cbn [doubled]. rewrite IH, len_append, Nat2Z.inj_succ, Z.pow_succ_r by lia. lia.
Qed.

Lemma sds_large_append_reallocates_witness :
  let s := SDS_New (doubled 20 "x") in
  SDS_Cap (@AppendString (env_at unixToInternal) s "y")
  = SDS_Len (@AppendString (env_at unixToInternal) s "y") + sdsMaxPreAlloc.
Proof.
  apply (@sds_large_append_reallocates (env_at unixToInternal) (SDS_New (doubled 20 "x")) "y" 0).
  unfold SDS_Len, SDS_New. cbn [buf]. rewrite len_doubled. reflexivity.
Defined.
