(* ===== verification/Murmur.v ===== *)
(** * MurmurHash64A (src/store/hll/murmur.go) and the register an element maps to
    ([hllPatLen] of src/store/hll/hll.go) *)

From S2P Require Import Prelude GoLib.

Definition murmurSeed : Z := 0xadc83b19.
Definition murmurM : Z := 0xc6a4a7935bd1e995.
Definition murmurR : Z := 47.

(** [binary.LittleEndian.Uint64] of eight bytes, lowest first. *)
Fixpoint le_uint (bs : list Z) : Z :=
  match bs with
  | [] => 0
  | b :: bs => Z.lor b (Z.shiftl (le_uint bs) 8)
  end.

(** The body of the block loop. *)
Definition murmur_mix (h k : Z) : Z :=
  let k := u64 (k * murmurM) in
  let k := Z.lxor k (Z.shiftr k murmurR) in
  let k := u64 (k * murmurM) in
  let h := Z.lxor h k in
  u64 (h * murmurM).

(** The loop over the 8-byte blocks: the hash so far and the tail of 0 to 7 bytes. *)
Fixpoint murmur_blocks (h : Z) (data : list Z) : Z * list Z :=
  match data with
  | b0 :: b1 :: b2 :: b3 :: b4 :: b5 :: b6 :: b7 :: rest =>
      murmur_blocks (murmur_mix h (le_uint [b0; b1; b2; b3; b4; b5; b6; b7])) rest
  | _ => (h, data)
  end.

(** The switch with fallthrough: byte [i] of the tail is xored in at bit [8 * i],
    the last byte first. *)
Fixpoint murmur_tail (h i : Z) (tail : list Z) : Z :=
  match tail with
  | [] => h
  | b :: tail => Z.lxor (murmur_tail h (i + 1) tail) (u64 (Z.shiftl b (8 * i)))
  end.

Definition murmurHash64A (data : list Z) : Z :=
  let h := Z.lxor murmurSeed (u64 (Z.of_nat (length data) * murmurM)) in
  let '(h, tail) := murmur_blocks h data in
  let h := match tail with
           | [] => h
           | _ => u64 (murmur_tail h 0 tail * murmurM)
           end in
  let h := Z.lxor h (Z.shiftr h murmurR) in
  let h := u64 (h * murmurM) in
  Z.lxor h (Z.shiftr h murmurR).

Fixpoint pos_tz (p : positive) : Z :=
  match p with
  | xO p => 1 + pos_tz p
  | _ => 0
  end.

(** [bits.TrailingZeros64] *)
Definition TrailingZeros64 (x : Z) : Z :=
  match x with
  | Zpos p => pos_tz p
  | _ => 64
  end.

Definition hll_p : Z := 14.
Definition hll_q : Z := 64 - hll_p.

(** The register index and the rank of an element. *)
Definition hllPatLen (data : list Z) : Z * Z :=
  let hash := murmurHash64A data in
  let index := Z.land hash (2 ^ hll_p - 1) in
  let hash := Z.shiftr hash hll_p in
  let hash := Z.lor hash (u64 (Z.shiftl 1 hll_q)) in
  (index, u8 (u8 (TrailingZeros64 hash) + 1)).

Lemma pos_tz_nonneg p : 0 <= pos_tz p.
Proof. induction p; simpl; lia. Qed.

Lemma pos_tz_bit p i : Z.testbit (Zpos p) i = true -> pos_tz p <= i.
Proof.
  revert i. induction p as [p _|p IH|]; intros i; simpl pos_tz.
  - intros. destruct (decide (0 <= i)); [done|]. by rewrite Z.testbit_neg_r in * by lia.
  - destruct (decide (0 < i)) as [Hi|Hi].
    + rewrite Pos2Z.inj_xO. replace i with (Z.succ (i - 1)) at 1 by lia.
      rewrite Z.testbit_even_succ by lia. intros H%IH. lia.
    + intros H. destruct (decide (i = 0)) as [->|]; [done|]. by rewrite Z.testbit_neg_r in H by lia.
  - intros. destruct (decide (0 <= i)); [done|]. by rewrite Z.testbit_neg_r in * by lia.
Qed.

Lemma TrailingZeros64_bound x i :
  0 <= x -> 0 <= i -> Z.testbit x i = true -> 0 <= TrailingZeros64 x <= i.
Proof.
  intros Hx Hi Hb. destruct x as [|p|p]; [by rewrite Z.bits_0 in Hb| |lia].
  simpl. split; [apply pos_tz_nonneg|by apply pos_tz_bit].
Qed.

Lemma lxor_nonneg a b : 0 <= a -> 0 <= b -> 0 <= Z.lxor a b.
Proof. intros. apply Z.lxor_nonneg. lia. Qed.

Lemma murmurHash64A_nonneg data : 0 <= murmurHash64A data.
Proof.
  unfold murmurHash64A. destruct (murmur_blocks _ _) as [h tail].
  match goal with |- 0 <= Z.lxor (u64 ?x) _ => pose proof (u64_range x) end.
  apply lxor_nonneg; [lia|]. apply Z.shiftr_nonneg. lia.
Qed.

Lemma hllPatLen_range data index rank :
  hllPatLen data = (index, rank) -> 0 <= index < 2 ^ 14 /\ 1 <= rank <= 51.
Proof.
  unfold hllPatLen, hll_q, hll_p. change (64 - 14) with 50. pose proof (murmurHash64A_nonneg data) as Hn.
  set (hash := murmurHash64A data) in *. intros H. apply pair_equal_spec in H as [<- <-]. split.
  - change (2 ^ 14 - 1) with (Z.ones 14). rewrite Z.land_ones by lia. apply Z.mod_pos_bound. lia.
  - assert (0 <= TrailingZeros64 (Z.lor (Z.shiftr hash 14) (u64 (Z.shiftl 1 50))) <= 50) as Ht.
    { apply TrailingZeros64_bound; [|lia|].
      - apply Z.lor_nonneg. split; [by apply Z.shiftr_nonneg|]. by vm_compute.
      - rewrite Z.lor_spec. by rewrite orb_true_r. }
    revert Ht. generalize (TrailingZeros64 (Z.lor (Z.shiftr hash 14) (u64 (Z.shiftl 1 50)))).
    intros t Ht. rewrite (u8_small t) by lia. rewrite u8_small by lia. lia.
Qed.
