(* ===== verification/HllSparse.v ===== *)
(** * The sparse HyperLogLog encoding (src/store/hll/hll_sparse.go)

    A stream of opcodes, each a run of equal registers, in a byte slice (bytes are
    numbers from 0 to 255). [sparse_regs] is what a stream denotes: the list of all
    registers. *)

From S2P Require Import Prelude GoLib.

(** ** Opcodes *)

Definition hllSparseMaxBytes : Z := 3000.
Definition sparseValMaxValue : Z := 32.
Definition sparseValMaxLen : Z := 4.
Definition sparseZeroMaxLen : Z := 64.
Definition sparseXZeroMaxLen : Z := 16384.

Definition encodeZero (length : Z) : Z := u8 (length - 1).

Definition encodeXZero (length : Z) : list Z :=
  let n := u16 (length - 1) in
  let first := u8 (Z.lor 0x40 (Z.shiftr n 8)) in
  let second := u8 n in
  [first; second].

Definition encodeVal (value length : Z) : Z :=
  let v := u8 (value - 1) in
  let l := u8 (length - 1) in
  Z.lor (Z.lor 0x80 (u8 (Z.shiftl v 2))) l.

Inductive sparseOpKind := opZero | opXZero | opVal.

Definition decodeOpKind (b : Z) : sparseOpKind :=
  if negb (Z.land b 0x80 =? 0) then opVal
  else if negb (Z.land b 0x40 =? 0) then opXZero
  else opZero.

Definition decodeZero (b : Z) : Z := b + 1.

Definition decodeXZero (b0 b1 : Z) : Z :=
  let n := Z.lor (u16 (Z.shiftl (Z.land b0 0x3F) 8)) b1 in
  n + 1.

Definition decodeVal (b : Z) : Z * Z :=
  (u8 (Z.land (Z.shiftr b 2) 0x1F + 1), Z.land b 0x03 + 1).

(** ** Walking a stream *)

(** [walkSparse]: [visit] gets the variables its closure captures and says whether
    to go on. The register index grows by at most 16384 per byte of the stream, so
    its 64 bits never overflow. *)
Fixpoint walkSparse {St} (visit : Z -> Z -> Z -> St -> outcome (St * bool))
    (sparse : list Z) (idx : Z) (st : St) : outcome St :=
  match sparse with
  | [] => Val st
  | b :: rest =>
      match decodeOpKind b with
      | opZero =>
          let length := decodeZero b in
          '(st, go) ← visit idx length 0 st;
          if (go : bool) then walkSparse visit rest (idx + length) st else Val st
      | opXZero =>
          match rest with
          | [] => Panic IndexOutOfRange
          | b1 :: rest =>
              let length := decodeXZero b b1 in
              '(st, go) ← visit idx length 0 st;
              if (go : bool) then walkSparse visit rest (idx + length) st else Val st
          end
      | opVal =>
          let '(value, length) := decodeVal b in
          '(st, go) ← visit idx length value st;
          if (go : bool) then walkSparse visit rest (idx + length) st else Val st
      end
  end.

Definition sparseGet (sparse : list Z) (index : Z) : outcome Z :=
  walkSparse (fun startIndex runLen value result =>
    if (startIndex <=? index) && (index <? startIndex + runLen)
    then Val (value, false) else Val (result, true)) sparse 0 0.

(** [histo[value] += n], on a histogram of 64 counts. *)
Definition histo_add (histo : list Z) (value n : Z) : list Z :=
  alter (fun c => c + n) (Z.to_nat value) histo.

Definition sparseHisto (sparse : list Z) : outcome (list Z) :=
  walkSparse (fun startIndex runLen value histo => Val (histo_add histo value runLen, true))
    sparse 0 (replicate 64 0).

(** ** Setting a register *)

Definition encodeZeroRun (length : Z) : list Z :=
  if length <=? sparseZeroMaxLen then [encodeZero length] else encodeXZero length.

(** The opcodes that replace the run of [runLen] registers with [value] in which the
    register [before] places from its start becomes [val]. *)
Definition sparse_replacement (kind : sparseOpKind) (value runLen before val : Z) : list Z :=
  let after := runLen - before - 1 in
  match kind with
  | opVal =>
      (if 0 <? before then [encodeVal value before] else []) ++
      [encodeVal val 1] ++
      (if 0 <? after then [encodeVal value after] else [])
  | _ =>
      (if 0 <? before then encodeZeroRun before else []) ++
      [encodeVal val 1] ++
      (if 0 <? after then encodeZeroRun after else [])
  end.

(** One opcode of [sparseSet]'s loop: [pre] is [sparse[:pos]], [op] the opcode's
    bytes and [rest] what follows them. [Some] is a [return]. *)
Definition sparseSet_op (pre op rest : list Z) (kind : sparseOpKind) (value runLen idx index val : Z)
    : option (list Z * bool) :=
  if (idx <=? index) && (index <? idx + runLen) then
    if val <=? value then Some (pre ++ op ++ rest, false)
    else Some (pre ++ sparse_replacement kind value runLen (index - idx) val ++ rest, true)
  else None.

Fixpoint sparseSet_loop (pre rest : list Z) (idx index val : Z) : outcome (list Z * bool) :=
  match rest with
  | [] => Val (pre, false)
  | b :: rest =>
      match decodeOpKind b with
      | opZero =>
          match sparseSet_op pre [b] rest opZero 0 (decodeZero b) idx index val with
          | Some res => Val res
          | None => sparseSet_loop (pre ++ [b]) rest (idx + decodeZero b) index val
          end
      | opXZero =>
          match rest with
          | [] => Panic IndexOutOfRange
          | b1 :: rest =>
              match sparseSet_op pre [b; b1] rest opXZero 0 (decodeXZero b b1) idx index val with
              | Some res => Val res
              | None => sparseSet_loop (pre ++ [b; b1]) rest (idx + decodeXZero b b1) index val
              end
          end
      | opVal =>
          let '(value, runLen) := decodeVal b in
          match sparseSet_op pre [b] rest opVal value runLen idx index val with
          | Some res => Val res
          | None => sparseSet_loop (pre ++ [b]) rest (idx + runLen) index val
          end
      end
  end.

Definition sparseSet (sparse : list Z) (index val : Z) : outcome (list Z * bool) :=
  sparseSet_loop [] sparse 0 index val.

(** ** What a stream denotes *)

(** The runs of a stream: how many registers, with which value. *)
Fixpoint sparse_runs (sparse : list Z) : option (list (Z * Z)) :=
  match sparse with
  | [] => Some []
  | b :: rest =>
      match decodeOpKind b with
      | opZero => cons (decodeZero b, 0) <$> sparse_runs rest
      | opXZero =>
          match rest with
          | [] => None
          | b1 :: rest => cons (decodeXZero b b1, 0) <$> sparse_runs rest
          end
      | opVal => let '(v, n) := decodeVal b in cons (n, v) <$> sparse_runs rest
      end
  end.

Definition run (r : Z * Z) : list Z := replicate (Z.to_nat r.1) r.2.
Definition regs_of_runs (rs : list (Z * Z)) : list Z := concat (run <$> rs).

(** All registers, in order. *)
Definition sparse_regs (sparse : list Z) : option (list Z) := regs_of_runs <$> sparse_runs sparse.

Definition is_byte (b : Z) : Prop := 0 <= b < 256.

(** ** Opcodes round trip *)

Lemma encodeZero_spec n :
  1 <= n <= 64 ->
  decodeOpKind (encodeZero n) = opZero /\ decodeZero (encodeZero n) = n /\ is_byte (encodeZero n).
Proof.
  intros H. pose (P n := match decodeOpKind (encodeZero n) with opZero => true | _ => false end
    && (decodeZero (encodeZero n) =? n) && (0 <=? encodeZero n) && (encodeZero n <? 256)).
  pose proof (forall_range P 1 64 eq_refl n ltac:(lia)) as HP. unfold P in HP. clear P. z_bools.
  unfold is_byte. by destruct (decodeOpKind (encodeZero n)).
Qed.

Lemma encodeVal_spec v l :
  1 <= v <= 32 -> 1 <= l <= 4 ->
  decodeOpKind (encodeVal v l) = opVal /\ decodeVal (encodeVal v l) = (v, l) /\
  is_byte (encodeVal v l).
Proof.
  intros Hv Hl. pose (P v l := match decodeOpKind (encodeVal v l) with opVal => true | _ => false end
    && ((decodeVal (encodeVal v l)).1 =? v) && ((decodeVal (encodeVal v l)).2 =? l)
    && (0 <=? encodeVal v l) && (encodeVal v l <? 256)).
  pose proof (forall_range (fun v => forallb (P v) (seqZ 1 4)) 1 32 eq_refl v ltac:(lia)) as HP.
  pose proof (forall_range (P v) 1 4 HP l ltac:(lia)) as HQ. unfold P in HQ. clear P HP. z_bools.
  unfold is_byte. destruct (decodeOpKind (encodeVal v l)); try done.
  destruct (decodeVal (encodeVal v l)). simpl in *. split_and!; congruence || lia.
Qed.

Lemma xzero_first m :
  0 <= m < 64 ->
  let b := u8 (Z.lor 0x40 m) in decodeOpKind b = opXZero /\ Z.land b 0x3F = m /\ is_byte b.
Proof.
  intros H. pose (P m := let b := u8 (Z.lor 0x40 m) in
    match decodeOpKind b with opXZero => true | _ => false end && (Z.land b 0x3F =? m)
    && (0 <=? b) && (b <? 256)).
  pose proof (forall_range P 0 64 eq_refl m ltac:(lia)) as HP. unfold P in HP. clear P. cbv zeta in *.
  z_bools. unfold is_byte. by destruct (decodeOpKind _).
Qed.

Lemma decodeXZero_arith b0 b1 :
  is_byte b0 -> is_byte b1 -> decodeXZero b0 b1 = Z.land b0 0x3F * 256 + b1 + 1.
Proof.
  intros H0 H1. unfold decodeXZero.
  assert (0 <= Z.land b0 0x3F < 64) by (change 0x3F with (Z.ones 6); rewrite Z.land_ones by lia; zdm).
  rewrite u16_small by (rewrite Z.shiftl_mul_pow2 by lia; lia).
  rewrite lor_shiftl_add by (unfold is_byte in *; lia). lia.
Qed.

Lemma encodeXZero_spec n :
  1 <= n <= 16384 ->
  exists b0 b1, encodeXZero n = [b0; b1] /\ decodeOpKind b0 = opXZero /\
    decodeXZero b0 b1 = n /\ is_byte b0 /\ is_byte b1.
Proof.
  intros H. unfold encodeXZero. rewrite u16_small by lia.
  pose proof (xzero_first (Z.shiftr (n - 1) 8)) as Hx. rewrite Z.shiftr_div_pow2 in * by lia.
  destruct Hx as (Hk & Hm & Hb); [zdm|].
  assert (is_byte (u8 (n - 1))) by apply u8_range.
  eexists _, _. split; [done|]. split; [done|]. split; [|by split].
  rewrite decodeXZero_arith by done. rewrite Hm. unfold u8. zdm.
Qed.

Lemma decodeOp_ranges b :
  is_byte b ->
  match decodeOpKind b with
  | opZero => 1 <= decodeZero b <= 64
  | opXZero => True
  | opVal => 1 <= (decodeVal b).1 <= 32 /\ 1 <= (decodeVal b).2 <= 4
  end.
Proof.
  intros Hb. pose (P b := match decodeOpKind b with
    | opZero => (1 <=? decodeZero b) && (decodeZero b <=? 64)
    | opXZero => true
    | opVal => (1 <=? (decodeVal b).1) && ((decodeVal b).1 <=? 32)
               && (1 <=? (decodeVal b).2) && ((decodeVal b).2 <=? 4) end).
  pose proof (forall_range P 0 256 eq_refl b ltac:(unfold is_byte in Hb; lia)) as HP.
  unfold P in HP. clear P. destruct (decodeOpKind b); z_bools; lia || done.
Qed.

Lemma decodeXZero_range b0 b1 : is_byte b0 -> is_byte b1 -> 1 <= decodeXZero b0 b1 <= 16384.
Proof.
  intros H0 H1. rewrite decodeXZero_arith by done.
  assert (0 <= Z.land b0 0x3F < 64) by (change 0x3F with (Z.ones 6); rewrite Z.land_ones by lia; zdm).
  unfold is_byte in *. lia.
Qed.

(** ** Streams and their runs *)

(** Induction along the opcodes of a stream. *)
Lemma sparse_ind (P : list Z -> Prop) :
  P [] ->
  (forall b rest, decodeOpKind b <> opXZero -> P rest -> P (b :: rest)) ->
  (forall b, decodeOpKind b = opXZero -> P [b]) ->
  (forall b b1 rest, decodeOpKind b = opXZero -> P rest -> P (b :: b1 :: rest)) ->
  forall s, P s.
Proof.
  intros H0 H1 H2 H3 s. remember (length s) as n eqn:Hn.
  revert s Hn. induction n as [n IH] using lt_wf_ind. intros s ->.
  destruct s as [|b rest]; [done|]. destruct (decodeOpKind b) eqn:E.
  - apply H1; [congruence|]. apply (IH (length rest)); simpl; lia.
  - destruct rest as [|b1 rest]; [auto|]. apply H3; [done|]. apply (IH (length rest)); simpl; lia.
  - apply H1; [congruence|]. apply (IH (length rest)); simpl; lia.
Qed.

Lemma sparse_runs_app a b ra :
  sparse_runs a = Some ra -> sparse_runs (a ++ b) = app ra <$> sparse_runs b.
Proof.
  revert ra. induction a as [|x a Hx IH|x Hx|x x1 a Hx IH] using sparse_ind; intros ra.
  - intros [= <-]. simpl. by destruct (sparse_runs b).
  - cbn [sparse_runs app walkSparse]. destruct (decodeVal x) as [v n]. destruct (decodeOpKind x); try done;
      intros (ra' & Ha & ->)%fmap_Some; rewrite (IH _ Ha); by destruct (sparse_runs b).
  - cbn [sparse_runs app walkSparse]. by rewrite Hx.
  - cbn [sparse_runs app walkSparse]. rewrite Hx. intros (ra' & Ha & ->)%fmap_Some. rewrite (IH _ Ha).
    by destruct (sparse_runs b).
Qed.

Lemma regs_of_runs_app rs rs' : regs_of_runs (rs ++ rs') = regs_of_runs rs ++ regs_of_runs rs'.
Proof. unfold regs_of_runs. by rewrite fmap_app, concat_app. Qed.

Lemma regs_of_runs_cons r rs : regs_of_runs (r :: rs) = run r ++ regs_of_runs rs.
Proof. done. Qed.

Lemma sparse_regs_app a b ra rb :
  sparse_regs a = Some ra -> sparse_regs b = Some rb -> sparse_regs (a ++ b) = Some (ra ++ rb).
Proof.
  unfold sparse_regs. intros (rsa & Ha & ->)%fmap_Some (rsb & Hb & ->)%fmap_Some.
  rewrite (sparse_runs_app _ _ _ Ha), Hb. simpl. by rewrite regs_of_runs_app.
Qed.

(** The runs of a stream of bytes are never empty and hold what an opcode can. *)
Definition run_ok (r : Z * Z) : Prop := 1 <= r.1 <= 16384 /\ 0 <= r.2 <= 32.

Lemma sparse_runs_ok s rs : Forall is_byte s -> sparse_runs s = Some rs -> Forall run_ok rs.
Proof.
  revert rs. induction s as [|x s Hx IH|x Hx|x x1 s Hx IH] using sparse_ind; intros rs Hs.
  - intros [= <-]. constructor.
  - apply Forall_cons in Hs as [Hb Hs]. pose proof (decodeOp_ranges x Hb) as Hr. cbn [sparse_runs].
    destruct (decodeVal x) as [v n]. cbn [fst snd] in Hr.
    destruct (decodeOpKind x); try done; intros (rs' & Hrs & ->)%fmap_Some;
      (constructor; [|by apply IH]); unfold run_ok; cbn [fst snd]; lia.
  - cbn [sparse_runs app walkSparse]. by rewrite Hx.
  - apply Forall_cons in Hs as [Hb Hs]. apply Forall_cons in Hs as [Hb1 Hs].
    cbn [sparse_runs]. rewrite Hx. intros (rs' & Hrs & ->)%fmap_Some. constructor; [|by apply IH].
    pose proof (decodeXZero_range x x1 Hb Hb1). unfold run_ok. simpl. lia.
Qed.

Lemma regs_of_runs_range rs :
  Forall run_ok rs -> Forall (fun v => 0 <= v <= 32) (regs_of_runs rs).
Proof.
  induction 1 as [|[n v] rs [_ Hv] _ IH]; [constructor|].
  rewrite regs_of_runs_cons. apply Forall_app. split; [|done]. by apply Forall_replicate.
Qed.

Lemma length_run r : 1 <= r.1 -> Z.of_nat (length (run r)) = r.1.
Proof. intros. unfold run. rewrite length_replicate. lia. Qed.

(** Walking a stream is walking its runs. *)
Fixpoint walk_runs {St} (visit : Z -> Z -> Z -> St -> outcome (St * bool))
    (rs : list (Z * Z)) (idx : Z) (st : St) : outcome St :=
  match rs with
  | [] => Val st
  | (n, v) :: rs =>
      '(st, go) ← visit idx n v st;
      if (go : bool) then walk_runs visit rs (idx + n) st else Val st
  end.

Lemma walkSparse_runs {St} (visit : Z -> Z -> Z -> St -> outcome (St * bool)) s rs idx st :
  sparse_runs s = Some rs -> walkSparse visit s idx st = walk_runs visit rs idx st.
Proof.
  revert rs idx st. induction s as [|x s Hx IH|x Hx|x x1 s Hx IH] using sparse_ind; intros rs idx st.
  - by intros [= <-].
  - cbn [sparse_runs app walkSparse]. destruct (decodeOpKind x); try done.
    + intros (rs' & Hrs & ->)%fmap_Some. cbn [walk_runs mbind outcome_bind].
      destruct (visit _ _ _ st) as [[st' []]|]; [|done|done]. by apply IH.
    + destruct (decodeVal x) as [v n]. intros (rs' & Hrs & ->)%fmap_Some. cbn [walk_runs mbind outcome_bind].
      destruct (visit _ _ _ st) as [[st' []]|]; [|done|done]. by apply IH.
  - cbn [sparse_runs app walkSparse]. by rewrite Hx.
  - cbn [sparse_runs app walkSparse]. rewrite Hx. intros (rs' & Hrs & ->)%fmap_Some. cbn [walk_runs mbind outcome_bind].
    destruct (visit _ _ _ st) as [[st' []]|]; [|done|done]. by apply IH.
Qed.

(** ** Reading a register *)

Lemma lookup_run (n v : Z) i : 0 <= i < n -> run (n, v) !! Z.to_nat i = Some v.
Proof. intros. unfold run. simpl. apply lookup_replicate_2. lia. Qed.

Lemma sparseGet_runs rs idx index acc :
  Forall run_ok rs -> idx <= index -> 
  walk_runs (fun startIndex runLen value result =>
    if (startIndex <=? index) && (index <? startIndex + runLen)
    then Val (value, false) else Val (result, true)) rs idx acc
  = Val (default acc (regs_of_runs rs !! Z.to_nat (index - idx))).
Proof.
  intros Hrs. revert idx acc. induction Hrs as [|[n v] rs [Hn Hv] Hrs IH]; intros idx acc Hi; [done|].
  cbn [walk_runs]. rewrite (proj2 (Z.leb_le _ _)) by done. rewrite regs_of_runs_cons.
  pose proof (length_run (n, v) ltac:(simpl in *; lia)) as Hl. simpl in Hl, Hn.
  destruct (Z.ltb_spec index (idx + n)).
  - simpl. rewrite lookup_app_l by lia. by rewrite lookup_run by lia.
  - simpl. rewrite IH by lia. rewrite lookup_app_r by lia.
    do 3 f_equal. lia.
Qed.

(** ** The histogram *)

(** How many registers hold each value from 0 to 63. *)
Definition histogram (regs : list Z) : list Z :=
  foldl (fun h v => histo_add h v 1) (replicate 64 0) regs.

Lemma histo_add_add h v a b : histo_add (histo_add h v a) v b = histo_add h v (a + b).
Proof.
  unfold histo_add. apply list_eq. intros i. rewrite !list_lookup_alter.
  repeat case_decide; try done. subst i. destruct (h !! _); simpl; [|done]. by rewrite Z.add_assoc.
Qed.

Lemma histo_add_0 h v : histo_add h v 0 = h.
Proof.
  unfold histo_add. apply list_eq. intros i. rewrite list_lookup_alter.
  case_decide; [|done]. subst. destruct (h !! _); simpl; [f_equal; lia|done].
Qed.

Lemma histo_run h n v :
  0 <= n -> foldl (fun h v => histo_add h v 1) h (run (n, v)) = histo_add h v n.
Proof.
  intros Hn. unfold run. simpl. rewrite <-(Z2Nat.id n) at 2 by done.
  generalize (Z.to_nat n) as k. clear n Hn. intros k. revert h.
  induction k as [|k IH]; intros h; [by rewrite histo_add_0|].
  cbn [replicate foldl]. rewrite IH, histo_add_add. f_equal. lia.
Qed.

Lemma sparseHisto_runs rs idx h :
  Forall run_ok rs ->
  walk_runs (fun startIndex runLen value histo => Val (histo_add histo value runLen, true)) rs idx h
  = Val (foldl (fun h v => histo_add h v 1) h (regs_of_runs rs)).
Proof.
  intros Hrs. revert idx h. induction Hrs as [|[n v] rs [Hn Hv] Hrs IH]; intros idx h; [done|].
  cbn [walk_runs]. simpl. rewrite IH. rewrite regs_of_runs_cons, foldl_app, histo_run; [done|].
  simpl in Hn. lia.
Qed.

(** ** Well-formed streams *)

Definition registers : Z := 16384.

(** A stream of bytes that covers exactly the 16384 registers [regs]. *)
Definition sparse_denotes (s regs : list Z) : Prop :=
  Forall is_byte s /\ sparse_regs s = Some regs /\ Z.of_nat (length regs) = registers.

Lemma sparse_denotes_runs s regs :
  sparse_denotes s regs ->
  exists rs, sparse_runs s = Some rs /\ Forall run_ok rs /\ regs = regs_of_runs rs.
Proof.
  intros (Hb & Hr & _). apply fmap_Some in Hr as (rs & Hrs & ->). exists rs.
  eauto using sparse_runs_ok.
Qed.

Lemma sparse_denotes_range s regs : sparse_denotes s regs -> Forall (fun v => 0 <= v <= 32) regs.
Proof. intros (rs & _ & Hok & ->)%sparse_denotes_runs. by apply regs_of_runs_range. Qed.

Lemma sparseHisto_spec s regs : sparse_denotes s regs -> sparseHisto s = Val (histogram regs).
Proof.
  intros (rs & Hrs & Hok & ->)%sparse_denotes_runs. unfold sparseHisto.
  rewrite (walkSparse_runs _ _ _ _ _ Hrs). by apply sparseHisto_runs.
Qed.

(** ** Setting a register: what the new opcodes denote *)

Lemma run_insert n v i val :
  0 <= i < n ->
  <[Z.to_nat i := val]> (run (n, v)) = run (i, v) ++ [val] ++ run (n - i - 1, v).
Proof.
  intros H. unfold run. simpl. rewrite insert_replicate_lt by lia.
  do 2 f_equal. f_equal. lia.
Qed.

(** [s] is a stream of at most [k] bytes for the registers [regs]. *)
Definition encodes (k : nat) (s regs : list Z) : Prop :=
  Forall is_byte s /\ sparse_regs s = Some regs /\ (length s <= k)%nat.

Lemma encodes_nil : encodes 0 [] [].
Proof. split; [constructor|]. done. Qed.

Lemma encodes_app k k' s s' r r' :
  encodes k s r -> encodes k' s' r' -> encodes (k + k') (s ++ s') (r ++ r').
Proof.
  intros (Hb & Hr & Hl) (Hb' & Hr' & Hl'). split; [by apply Forall_app|].
  split; [by apply sparse_regs_app|]. rewrite length_app. lia.
Qed.

Lemma encodes_le k k' s r : (k <= k')%nat -> encodes k s r -> encodes k' s r.
Proof. intros ? (? & ? & ?). split; [done|]. split; [done|]. lia. Qed.

Lemma encodes_val v l :
  1 <= v <= 32 -> 1 <= l <= 4 -> encodes 1 [encodeVal v l] (run (l, v)).
Proof.
  intros Hv Hl. destruct (encodeVal_spec v l Hv Hl) as (Hk & Hd & Hb).
  split; [by constructor|]. split; [|done].
  unfold sparse_regs. cbn [sparse_runs]. rewrite Hk, Hd. simpl.
  unfold regs_of_runs. simpl. by rewrite app_nil_r.
Qed.

Lemma encodes_zero_run n : 1 <= n <= 16384 -> encodes 2 (encodeZeroRun n) (run (n, 0)).
Proof.
  intros Hn. unfold encodeZeroRun, sparseZeroMaxLen. destruct (Z.leb_spec n 64).
  - destruct (encodeZero_spec n) as (Hk & Hd & Hb); [lia|].
    split; [by constructor|]. split; [|simpl; lia].
    unfold sparse_regs. cbn [sparse_runs]. rewrite Hk, Hd. simpl.
    unfold regs_of_runs. simpl. by rewrite app_nil_r.
  - destruct (encodeXZero_spec n Hn) as (b0 & b1 & -> & Hk & Hd & Hb0 & Hb1).
    split; [by rewrite Forall_cons, Forall_singleton|]. split; [|done].
    unfold sparse_regs. cbn [sparse_runs]. rewrite Hk, Hd. simpl.
    unfold regs_of_runs. simpl. by rewrite app_nil_r.
Qed.

(** An optional run: nothing for zero registers. *)
Lemma encodes_opt k s n v :
  0 <= n -> (1 <= n -> encodes k s (run (n, v))) ->
  encodes k (if 0 <? n then s else []) (run (n, v)).
Proof.
  intros Hn H. destruct (Z.ltb_spec 0 n); [apply H; lia|].
  replace n with 0 by lia. eapply encodes_le; [|apply encodes_nil]. lia.
Qed.

Lemma run_single v : [v] = run (1, v).
Proof. done. Qed.

(** What the opcode being split may hold. *)
Definition splittable (kind : sparseOpKind) (value n : Z) : Prop :=
  match kind with
  | opVal => 1 <= value <= 32 /\ 1 <= n <= 4
  | _ => value = 0 /\ 1 <= n <= 16384
  end.

Lemma replacement_encodes kind value n i val :
  splittable kind value n -> 0 <= i < n -> 1 <= val <= 32 ->
  encodes (match kind with opVal => 3 | _ => 5 end) (sparse_replacement kind value n i val)
    (<[Z.to_nat i := val]> (run (n, value))).
Proof.
  intros Hs Hi Hv. rewrite run_insert by done. unfold sparse_replacement.
  destruct kind; destruct Hs as [Hval Hn].
  1,2: subst value; change 5%nat with (2 + (1 + 2))%nat.
  3: change 3%nat with (1 + (1 + 1))%nat.
  all: repeat apply encodes_app.
  all: first [ apply encodes_opt; [lia|]; intros; first [apply encodes_zero_run|apply encodes_val]; lia
             | rewrite run_single; apply encodes_val; lia ].
Qed.

(** The size of an opcode. *)
Definition op_bytes (kind : sparseOpKind) : nat := match kind with opXZero => 2 | _ => 1 end.

(** Setting the register [i] of the run that the opcode [op] encodes, between [pre]
    and [rest]. *)
Lemma sparseSet_op_hit pre op rest kind value n idx index val rp rr :
  splittable kind value n -> encodes (op_bytes kind) op (run (n, value)) ->
  length op = op_bytes kind ->
  encodes (length pre) pre rp -> encodes (length rest) rest rr ->
  Z.of_nat (length rp) = idx -> idx <= index < idx + n -> 1 <= val <= 32 ->
  exists s', sparseSet_op pre op rest kind value n idx index val = Some (s', value <? val) /\
    encodes (length (pre ++ op ++ rest) + 4) s'
      (rp ++ (if value <? val then <[Z.to_nat (index - idx) := val]> (run (n, value)) else run (n, value)) ++ rr) /\
    (val <= value -> s' = pre ++ op ++ rest).
Proof.
  intros Hs Hop Hlen Hpre Hrest Hidx Hi Hv. unfold sparseSet_op.
  rewrite (proj2 (Z.leb_le _ _)) by lia. rewrite (proj2 (Z.ltb_lt index _)) by lia. simpl.
  rewrite !length_app. rewrite Z.leb_antisym. destruct (Z.ltb_spec value val) as [Hlt|Hge]; simpl.
  - eexists. split; [done|]. split; [|lia].
    eapply encodes_le; [|apply encodes_app; [exact Hpre|];
      apply encodes_app; [apply replacement_encodes; [exact Hs|lia|done]|exact Hrest]].
    destruct kind; simpl in *; lia.
  - eexists. split; [done|]. split; [|done].
    eapply encodes_le; [|apply encodes_app; [exact Hpre|]; apply encodes_app; [exact Hop|exact Hrest]].
    lia.
Qed.

Lemma sparseSet_op_miss pre op rest kind value n idx index val :
  idx + n <= index -> sparseSet_op pre op rest kind value n idx index val = None.
Proof.
  intros. unfold sparseSet_op. rewrite (proj2 (Z.ltb_ge index _)) by lia. by rewrite andb_false_r.
Qed.

(** The list with the register [i] raised to at least [v]. *)
Definition raise (regs : list Z) (i v : Z) : list Z :=
  alter (Z.max v) (Z.to_nat i) regs.

Lemma raise_middle rp rr n value idx index val :
  Z.of_nat (length rp) = idx -> idx <= index < idx + n ->
  raise (rp ++ run (n, value) ++ rr) index val =
  rp ++ (if value <? val then <[Z.to_nat (index - idx) := val]> (run (n, value)) else run (n, value)) ++ rr.
Proof.
  intros Hidx Hi. unfold raise.
  assert (length (run (n, value)) = Z.to_nat n) as Hl by (unfold run; by rewrite length_replicate).
  rewrite (alter_as_insert _ _ _ value); cycle 1.
  { rewrite lookup_app_r by lia. rewrite lookup_app_l by lia.
    replace (Z.to_nat index - length rp)%nat with (Z.to_nat (index - idx)) by lia.
    apply lookup_run. lia. }
  rewrite insert_app_r_alt by lia. rewrite insert_app_l by lia.
  replace (Z.to_nat index - length rp)%nat with (Z.to_nat (index - idx)) by lia.
  destruct (Z.ltb_spec value val).
  - by rewrite Z.max_l by lia.
  - rewrite Z.max_r by lia. do 2 f_equal. apply list_insert_id. apply lookup_run. lia.
Qed.

(** The first opcode of a stream, what it encodes, and the loop's step on it. *)
Record first_op (s regs op rest rr : list Z) (kind : sparseOpKind) (value n : Z) : Prop := {
  fo_split : s = op ++ rest;
  fo_regs : regs = run (n, value) ++ rr;
  fo_kind : splittable kind value n;
  fo_op : encodes (op_bytes kind) op (run (n, value));
  fo_len : length op = op_bytes kind;
  fo_rest : encodes (length rest) rest rr;
  fo_step : forall pre idx index val,
    sparseSet_loop pre s idx index val =
    match sparseSet_op pre op rest kind value n idx index val with
    | Some res => Val res
    | None => sparseSet_loop (pre ++ op) rest (idx + n) index val
    end;
}.

Lemma single_op b k value n :
  is_byte b -> sparse_runs [b] = Some [(n, value)] -> (1 <= k)%nat -> encodes k [b] (run (n, value)).
Proof.
  intros Hb Hr Hk. split; [by constructor|]. split; [|done].
  unfold sparse_regs. rewrite Hr. simpl. unfold regs_of_runs. simpl. by rewrite app_nil_r.
Qed.

Lemma first_op_cons b rest regs :
  is_byte b -> Forall is_byte rest -> sparse_regs (b :: rest) = Some regs ->
  exists op rest' rr kind value n, first_op (b :: rest) regs op rest' rr kind value n.
Proof.
  intros Hb Hbs Hr. pose proof (decodeOp_ranges b Hb) as Hrange.
  unfold sparse_regs in Hr. cbn [sparse_runs] in Hr. destruct (decodeOpKind b) eqn:Hk.
  - apply fmap_Some in Hr as (rs & Hr & ->). apply fmap_Some in Hr as (rs' & Hr & ->).
    exists [b], rest, (regs_of_runs rs'), opZero, 0, (decodeZero b). split; try done.
    + split; [done|lia].
    + apply single_op; [done| |done]. cbn [sparse_runs]. by rewrite Hk.
    + split; [done|]. split; [|done]. unfold sparse_regs. by rewrite Hr.
    + intros. cbn [sparseSet_loop]. by rewrite Hk.
  - destruct rest as [|b1 rest]; [done|]. apply Forall_cons in Hbs as [Hb1 Hbs].
    apply fmap_Some in Hr as (rs & Hr & ->). apply fmap_Some in Hr as (rs' & Hr & ->).
    exists [b; b1], rest, (regs_of_runs rs'), opXZero, 0, (decodeXZero b b1). split; try done.
    + split; [done|by apply decodeXZero_range].
    + split; [by rewrite Forall_cons, Forall_singleton|]. split; [|done].
      unfold sparse_regs. cbn [sparse_runs]. rewrite Hk. simpl. unfold regs_of_runs. simpl.
      by rewrite app_nil_r.
    + split; [done|]. split; [|done]. unfold sparse_regs. by rewrite Hr.
    + intros. cbn [sparseSet_loop]. by rewrite Hk.
  - destruct (decodeVal b) as [v n] eqn:Hd. cbn [fst snd] in Hrange.
    apply fmap_Some in Hr as (rs & Hr & ->). apply fmap_Some in Hr as (rs' & Hr & ->).
    exists [b], rest, (regs_of_runs rs'), opVal, v, n. split; try done.
    + apply single_op; [done| |done]. cbn [sparse_runs]. by rewrite Hk, Hd.
    + split; [done|]. split; [|done]. unfold sparse_regs. by rewrite Hr.
    + intros. cbn [sparseSet_loop]. by rewrite Hk, Hd.
Qed.

Lemma sparseSet_loop_spec pre rest idx index val rp rr :
  encodes (length pre) pre rp -> encodes (length rest) rest rr ->
  Z.of_nat (length rp) = idx -> idx <= index < idx + Z.of_nat (length rr) -> 1 <= val <= 32 ->
  exists s' old, sparseSet_loop pre rest idx index val = Val (s', old <? val) /\
    (rp ++ rr) !! Z.to_nat index = Some old /\
    encodes (length (pre ++ rest) + 4) s' (raise (rp ++ rr) index val) /\
    (val <= old -> s' = pre ++ rest).
Proof.
  remember (length rest) as k eqn:Hk. revert pre rest idx rp rr Hk.
  induction k as [k IH] using lt_wf_ind. intros pre rest idx rp rr Hk Hpre Hrest Hidx Hi Hv.
  destruct Hrest as (Hb & Hr & _). destruct rest as [|b rest].
  { change (Some [] = Some rr) in Hr. simplify_eq. simpl in Hi. lia. }
  apply Forall_cons in Hb as [Hb Hbs].
  destruct (first_op_cons b rest rr Hb Hbs Hr) as (op & rest' & rr' & kind & value & n & F).
  destruct F as [Hsplit -> Hs Hop Hlen Hrest Hstep]. rewrite Hstep. rewrite Hsplit in *.
  assert (1 <= n) as Hn by (destruct kind; destruct Hs; lia).
  pose proof (length_run (n, value) Hn) as Hrun. cbn [fst] in Hrun.
  destruct (decide (index < idx + n)) as [Hhit|Hmiss].
  - destruct (sparseSet_op_hit pre op rest' kind value n idx index val rp rr')
      as (s' & -> & Henc & Hsame); try done; [lia|].
    exists s', value. split; [done|]. rewrite (raise_middle rp rr' n value idx) by lia.
    split; [|done]. rewrite lookup_app_r by lia. rewrite lookup_app_l by lia.
    replace (Z.to_nat index - length rp)%nat with (Z.to_nat (index - idx)) by lia.
    apply lookup_run. lia.
  - rewrite sparseSet_op_miss by lia. rewrite !app_assoc.
    apply (IH (length rest')); try done.
    + rewrite Hk, length_app, Hlen. destruct kind; simpl; lia.
    + rewrite length_app, Hlen. apply encodes_app; [done|]. by rewrite <-Hlen in Hop |- *.
    + rewrite length_app. lia.
    + rewrite length_app in Hi. lia.
Qed.

(** [sparseSet] on a well-formed stream. *)
Lemma sparseSet_spec s regs index val :
  sparse_denotes s regs -> 0 <= index < registers -> 1 <= val <= 32 ->
  exists s' old, sparseSet s index val = Val (s', old <? val) /\
    regs !! Z.to_nat index = Some old /\ sparse_denotes s' (raise regs index val) /\
    (length s' <= length s + 4)%nat /\ (val <= old -> s' = s).
Proof.
  intros (Hb & Hr & Hl) Hi Hv.
  assert (encodes (length s) s regs) as He by (split; [done|]; by split).
  destruct (sparseSet_loop_spec [] s 0 index val [] regs encodes_nil He eq_refl ltac:(lia) Hv)
    as (s' & old & E & Hold & (Hb' & Hr' & Hl') & Hsame).
  exists s', old. split; [done|]. split; [done|]. split; [|by split].
  split; [done|]. split; [done|]. unfold raise. by rewrite length_alter.
Qed.
