(* ===== verification/HllDense.v ===== *)
(** * The dense HyperLogLog registers (src/store/hll/hll.go)

    16384 counters of 6 bits packed in a byte slice, counter [i] at the bits
    [6 * i] to [6 * i + 5], so that it spans at most two bytes. *)

From S2P Require Import Prelude GoLib HllSparse.

Definition hllBits : Z := 6.
Definition registerMax : Z := 63.

(** [dense[i]] *)
Definition index_byte (l : list Z) (i : Z) : outcome Z :=
  if i <? 0 then Panic IndexOutOfRange
  else match l !! Z.to_nat i with
       | Some b => Val b
       | None => Panic IndexOutOfRange
       end.

Definition getDenseRegister (dense : list Z) (regnum : Z) : outcome Z :=
  let byteIdx := regnum * hllBits / 8 in
  let firstBit := (regnum * hllBits) mod 8 in
  let remBits := 8 - firstBit in
  b0 ← index_byte dense byteIdx;
  b1 ← index_byte dense (byteIdx + 1);
  Val (u8 (Z.land (Z.lor (Z.shiftr b0 firstBit) (u16 (Z.shiftl b1 remBits))) registerMax)).

(** [(b &^ clear) | set] *)
Definition splice (b clear set : Z) : Z := Z.lor (Z.ldiff b clear) set.

Definition setDenseRegister (dense : list Z) (regnum val : Z) : outcome (list Z * bool) :=
  let val := if registerMax <? val then registerMax else val in
  old ← getDenseRegister dense regnum;
  if val <=? old then Val (dense, false)
  else
    let byteIdx := regnum * hllBits / 8 in
    let firstBit := (regnum * hllBits) mod 8 in
    let remBits := 8 - firstBit in
    b0 ← index_byte dense byteIdx;
    let dense := <[Z.to_nat byteIdx := splice b0 (u8 (Z.shiftl registerMax firstBit)) (u8 (Z.shiftl val firstBit))]> dense in
    b1 ← index_byte dense (byteIdx + 1);
    let dense := <[Z.to_nat (byteIdx + 1) := splice b1 (Z.shiftr registerMax remBits) (Z.shiftr val remBits)]> dense in
    Val (dense, true).

(** One padding byte, so that the last register has a second byte. *)
Definition dense_size : Z := (registers * hllBits + 7) / 8 + 1.
Definition newDenseArray : list Z := replicate (Z.to_nat dense_size) 0.

(** ** The bits of the array *)

Definition dense_wf (d : list Z) : Prop := Forall is_byte d /\ Z.of_nat (length d) = dense_size.

(** Bit [p] of the array. *)
Definition bit_at (d : list Z) (p : Z) : bool := Z.testbit (d !!! Z.to_nat (p / 8)) (p mod 8).

Lemma index_byte_Val d i :
  0 <= i < Z.of_nat (length d) -> index_byte d i = Val (d !!! Z.to_nat i).
Proof.
  intros Hi. unfold index_byte. rewrite (proj2 (Z.ltb_ge _ _)) by lia.
  destruct (lookup_lt_is_Some_2 d (Z.to_nat i)) as [b Hb]; [lia|].
  rewrite Hb. by rewrite (list_lookup_total_correct _ _ _ Hb).
Qed.

Lemma dense_byte d i : dense_wf d -> 0 <= i < dense_size -> is_byte (d !!! Z.to_nat i).
Proof.
  intros [Hb Hl] Hi. destruct (lookup_lt_is_Some_2 d (Z.to_nat i)) as [b E]; [lia|].
  rewrite (list_lookup_total_correct _ _ _ E). by eapply Forall_lookup_1.
Qed.

(** Where register [i] is: byte [B], bit [f] of it. *)
Lemma register_place i :
  0 <= i < registers ->
  let B := i * hllBits / 8 in let f := (i * hllBits) mod 8 in
  6 * i = 8 * B + f /\ 0 <= f < 8 /\ 0 <= B /\ B + 1 < dense_size.
Proof.
  assert (dense_size = 12289) as -> by done. unfold registers, hllBits. cbv zeta.
  intros. zdm.
Qed.

Lemma testbit_63 i : Z.testbit registerMax i = (0 <=? i) && (i <? 6).
Proof. unfold registerMax. change 63 with (Z.ones 6). apply Z.testbit_ones. lia. Qed.

Lemma get_bit b0 b1 f t :
  is_byte b0 -> is_byte b1 -> 0 <= f < 8 -> 0 <= t < 6 ->
  Z.testbit (u8 (Z.land (Z.lor (Z.shiftr b0 f) (u16 (Z.shiftl b1 (8 - f)))) registerMax)) t
  = if f + t <? 8 then Z.testbit b0 (f + t) else Z.testbit b1 (f + t - 8).
Proof.
  intros H0 H1 Hf Ht. rewrite testbit_u8, Z.land_spec, Z.lor_spec, testbit_63 by lia.
  rewrite testbit_u16, Z.shiftr_spec, Z.shiftl_spec by lia.
  replace (t <? 8) with true by lia. replace (t <? 16) with true by lia.
  replace (0 <=? t) with true by lia. replace (t <? 6) with true by lia.
  cbn [andb]. rewrite andb_true_r. rewrite (Z.add_comm t f).
  replace (t - (8 - f)) with (f + t - 8) by lia.
  destruct (Z.ltb_spec (f + t) 8).
  - rewrite (Z.testbit_neg_r b1) by lia. by rewrite orb_false_r.
  - by rewrite (testbit_above b0 8) by (unfold is_byte in *; lia).
Qed.

Lemma splice_low b v f j :
  is_byte b -> 0 <= v < 64 -> 0 <= f < 8 -> 0 <= j < 8 ->
  Z.testbit (splice b (u8 (Z.shiftl registerMax f)) (u8 (Z.shiftl v f))) j
  = if (f <=? j) && (j <? f + 6) then Z.testbit v (j - f) else Z.testbit b j.
Proof.
  intros Hb Hv Hf Hj. unfold splice.
  rewrite Z.lor_spec, Z.ldiff_spec, !testbit_u8, !Z.shiftl_spec, testbit_63 by lia.
  replace (j <? 8) with true by lia. cbn [andb].
  destruct (Z.leb_spec f j); destruct (Z.ltb_spec j (f + 6)); cbn [andb].
  - replace (0 <=? j - f) with true by lia. replace (j - f <? 6) with true by lia.
    by rewrite andb_false_r.
  - replace (j - f <? 6) with false by lia. rewrite andb_false_r, andb_true_r.
    rewrite (testbit_above v 6) by lia. by rewrite orb_false_r.
  - replace (0 <=? j - f) with false by lia. rewrite andb_true_r.
    rewrite (Z.testbit_neg_r v) by lia. by rewrite orb_false_r.
  - replace (0 <=? j - f) with false by lia. rewrite andb_true_r.
    rewrite (Z.testbit_neg_r v) by lia. by rewrite orb_false_r.
Qed.

Lemma splice_high b v f j :
  is_byte b -> 0 <= v < 64 -> 0 <= f < 8 -> 0 <= j ->
  Z.testbit (splice b (Z.shiftr registerMax (8 - f)) (Z.shiftr v (8 - f))) j
  = if j + (8 - f) <? 6 then Z.testbit v (j + (8 - f)) else Z.testbit b j.
Proof.
  intros Hb Hv Hf Hj. unfold splice.
  rewrite Z.lor_spec, Z.ldiff_spec, !Z.shiftr_spec, testbit_63 by lia.
  replace (0 <=? j + (8 - f)) with true by lia. cbn [andb].
  destruct (Z.ltb_spec (j + (8 - f)) 6).
  - by rewrite andb_false_r.
  - rewrite andb_true_r, (testbit_above v 6) by lia. by rewrite orb_false_r.
Qed.

Lemma splice_byte b c s :
  is_byte b -> is_byte s -> is_byte (splice b c s).
Proof.
  unfold splice, is_byte. intros Hb Hs. change 256 with (2 ^ 8) in *.
  assert (0 <= Z.ldiff b c) by (apply Z.ldiff_nonneg; lia).
  assert (0 <= Z.lor (Z.ldiff b c) s) by (apply Z.lor_nonneg; lia).
  split; [done|]. destruct (decide (Z.lor (Z.ldiff b c) s = 0)) as [->|]; [done|].
  apply Z.log2_lt_pow2; [lia|]. destruct (Z.lt_ge_cases (Z.log2 (Z.lor (Z.ldiff b c) s)) 8); [done|].
  exfalso. pose proof (Z.bit_log2 (Z.lor (Z.ldiff b c) s) ltac:(lia)) as Hbit.
  rewrite Z.lor_spec, Z.ldiff_spec in Hbit.
  rewrite (testbit_above b 8), (testbit_above s 8) in Hbit by lia. done.
Qed.

Lemma get_range x : 0 <= u8 (Z.land x registerMax) < 64.
Proof.
  unfold registerMax. change 63 with (Z.ones 6). rewrite Z.land_ones by lia.
  pose proof (Z.mod_pos_bound x (2 ^ 6) ltac:(lia)). rewrite u8_small; lia.
Qed.

(** ** Reading a register *)

(** The value of register [i] (0 if the read would be out of range). *)
Definition reg_at (d : list Z) (i : Z) : Z :=
  match getDenseRegister d i with Val v => v | Panic _ => 0 end.

Lemma getDenseRegister_spec d i :
  dense_wf d -> 0 <= i < registers ->
  getDenseRegister d i = Val (reg_at d i) /\ 0 <= reg_at d i < 64 /\
  forall t, 0 <= t < 6 -> Z.testbit (reg_at d i) t = bit_at d (6 * i + t).
Proof.
  intros Hd Hi. destruct (register_place i Hi) as (Hp & Hf & HB & HB').
  unfold reg_at, getDenseRegister. destruct Hd as [Hby Hl].
  rewrite !index_byte_Val by lia. cbn [mbind outcome_bind].
  split; [done|]. split; [apply get_range|]. intros t Ht.
  pose proof (dense_byte d (i * hllBits / 8) (conj Hby Hl) ltac:(lia)) as H0.
  pose proof (dense_byte d (i * hllBits / 8 + 1) (conj Hby Hl) ltac:(lia)) as H1.
  rewrite get_bit by done.
  unfold bit_at. destruct (Z.ltb_spec ((i * hllBits) mod 8 + t) 8).
  - f_equal; [do 2 f_equal|]; zdm.
  - f_equal; [do 2 f_equal|]; zdm.
Qed.

(** ** Writing a register *)

Lemma bit_at_insert d k x p :
  0 <= p -> 0 <= k < Z.of_nat (length d) ->
  bit_at (<[Z.to_nat k := x]> d) p = if p / 8 =? k then Z.testbit x (p mod 8) else bit_at d p.
Proof.
  intros Hp Hk. unfold bit_at. destruct (Z.eqb_spec (p / 8) k) as [->|Hne].
  - by rewrite list_lookup_total_insert_eq by lia.
  - rewrite list_lookup_total_insert_ne; [done|]. intros H. apply Hne.
    assert (0 <= p / 8) by zdm. lia.
Qed.

(** The array after a write: the six bits of the register are [val]'s, all others
    are kept. *)
Definition written_dense (d : list Z) (i val : Z) : list Z :=
  let B := i * hllBits / 8 in
  let f := (i * hllBits) mod 8 in
  let d1 := <[Z.to_nat B := splice (d !!! Z.to_nat B) (u8 (Z.shiftl registerMax f)) (u8 (Z.shiftl val f))]> d in
  <[Z.to_nat (B + 1) := splice (d !!! Z.to_nat (B + 1)) (Z.shiftr registerMax (8 - f)) (Z.shiftr val (8 - f))]> d1.

Lemma written_dense_wf d i val :
  dense_wf d -> 0 <= i < registers -> 0 <= val < 64 -> dense_wf (written_dense d i val).
Proof.
  intros Hd Hi Hv. destruct (register_place i Hi) as (Hp & Hf & HB & HB').
  unfold written_dense. split; [|rewrite !length_insert; apply Hd].
  apply Forall_insert; [apply Forall_insert; [apply Hd|]|]; apply splice_byte;
    try (apply dense_byte; [done|lia]); [apply u8_range|].
  assert (0 <= Z.shiftr val (8 - (i * hllBits) mod 8) <= val); [|unfold is_byte; lia].
  rewrite Z.shiftr_div_pow2 by lia.
  pose proof (Z.pow_pos_nonneg 2 (8 - (i * hllBits) mod 8) ltac:(lia) ltac:(lia)).
  split; [apply Z.div_pos; lia|]. apply Z.div_le_upper_bound; nia.
Qed.

Lemma written_dense_bits d i val p :
  dense_wf d -> 0 <= i < registers -> 0 <= val < 64 -> 0 <= p ->
  bit_at (written_dense d i val) p
  = if (6 * i <=? p) && (p <? 6 * i + 6) then Z.testbit val (p - 6 * i) else bit_at d p.
Proof.
  intros Hd Hi Hv Hp. destruct (register_place i Hi) as (Hpl & Hf & HB & HB').
  unfold written_dense. set (B := i * hllBits / 8) in *. set (f := (i * hllBits) mod 8) in *.
  destruct Hd as [Hby Hl].
  pose proof (dense_byte d B (conj Hby Hl) ltac:(lia)) as H0.
  pose proof (dense_byte d (B + 1) (conj Hby Hl) ltac:(lia)) as H1.
  assert (p = 8 * (p / 8) + p mod 8 /\ 0 <= p mod 8 < 8) as [Hq Hr] by zdm.
  rewrite bit_at_insert by (rewrite ?length_insert; lia).
  destruct (Z.eqb_spec (p / 8) (B + 1)) as [Hb|Hb].
  - rewrite splice_high by (try done; lia).
    destruct (Z.leb_spec (6 * i) p); [|lia].
    destruct (Z.ltb_spec (p mod 8 + (8 - f)) 6), (Z.ltb_spec p (6 * i + 6)); try lia; simpl.
    + f_equal. lia.
    + unfold bit_at. by rewrite Hb.
  - rewrite bit_at_insert by lia. destruct (Z.eqb_spec (p / 8) B) as [Hb'|Hb'].
    + rewrite splice_low by (try done; lia).
      destruct (Z.leb_spec f (p mod 8)), (Z.leb_spec (6 * i) p); try lia;
        destruct (Z.ltb_spec (p mod 8) (f + 6)), (Z.ltb_spec p (6 * i + 6)); try lia; simpl;
        try (f_equal; lia); unfold bit_at; by rewrite Hb'.
    + destruct (Z.leb_spec (6 * i) p), (Z.ltb_spec p (6 * i + 6)); try done. lia.
Qed.

(** Two registers with the same six bits are equal. *)
Lemma six_bits_eq a b :
  0 <= a < 64 -> 0 <= b < 64 -> (forall t, 0 <= t < 6 -> Z.testbit a t = Z.testbit b t) -> a = b.
Proof.
  intros Ha Hb H. apply Z.bits_inj'. intros t Ht. destruct (decide (t < 6)); [apply H; lia|].
  by rewrite !(testbit_above _ 6) by lia.
Qed.

Lemma reg_at_written d i j val :
  dense_wf d -> 0 <= i < registers -> 0 <= j < registers -> 0 <= val < 64 ->
  reg_at (written_dense d i val) j = if j =? i then val else reg_at d j.
Proof.
  intros Hd Hi Hj Hv.
  destruct (getDenseRegister_spec _ j (written_dense_wf d i val Hd Hi Hv) Hj) as (_ & Hr & Hbits).
  destruct (getDenseRegister_spec d j Hd Hj) as (_ & Hr' & Hbits').
  destruct (Z.eqb_spec j i) as [->|Hne]; apply six_bits_eq; try done; intros t Ht; rewrite Hbits by done;
    rewrite written_dense_bits by (try done; lia).
  - destruct (Z.leb_spec (6 * i) (6 * i + t)), (Z.ltb_spec (6 * i + t) (6 * i + 6)); try lia.
    simpl. f_equal. lia.
  - rewrite Hbits' by done.
    destruct (Z.leb_spec (6 * i) (6 * j + t)), (Z.ltb_spec (6 * j + t) (6 * i + 6)); try done. lia.
Qed.

(** [setDenseRegister]: the register grows to [val], every other one is kept, and the
    result says whether it grew. *)
Lemma setDenseRegister_spec d i val :
  dense_wf d -> 0 <= i < registers -> 0 <= val < 64 ->
  exists d', setDenseRegister d i val = Val (d', reg_at d i <? val) /\ dense_wf d' /\
    (forall j, 0 <= j < registers -> reg_at d' j = if j =? i then Z.max (reg_at d i) val else reg_at d j) /\
    (val <= reg_at d i -> d' = d).
Proof.
  intros Hd Hi Hv. unfold setDenseRegister, registerMax.
  rewrite (proj2 (Z.ltb_ge _ _)) by lia.
  destruct (getDenseRegister_spec d i Hd Hi) as (-> & Hr & _). cbn [mbind outcome_bind].
  destruct (Z.leb_spec val (reg_at d i)) as [Hle|Hgt].
  - exists d. rewrite (proj2 (Z.ltb_ge _ _)) by lia. split; [done|]. split; [done|]. split; [|done].
    intros j Hj. destruct (Z.eqb_spec j i) as [->|]; [lia|done].
  - destruct (register_place i Hi) as (Hp & Hf & HB & HB'). destruct Hd as [Hby Hl].
    rewrite (proj2 (Z.ltb_lt _ _)) by lia. rewrite index_byte_Val by lia. cbn [mbind outcome_bind].
    rewrite index_byte_Val by (rewrite length_insert; lia). cbn [mbind outcome_bind].
    rewrite list_lookup_total_insert_ne by lia.
    exists (written_dense d i val). split; [done|]. split; [by apply written_dense_wf|].
    split; [|lia]. intros j Hj. rewrite reg_at_written by done.
    destruct (j =? i); [lia|done].
Qed.
