(* ===== verification/Hll.v ===== *)
(** * HyperLogLog sketches (src/store/hll/hll.go)

    A sketch holds 16384 registers in one of two representations and a cached
    cardinality estimate. [hll_denotes h regs] relates a sketch to its registers,
    and every operation is specified on them. *)

From Stdlib Require Import Uint63 FloatOps SpecFloat.
From S2P Require Import Prelude GoLib Murmur HllSparse HllDense.

Inductive encMode := encSparse | encDense.

Record HLL := mkHLL {
  dense : list Z;
  sparse : list Z;
  enc : encMode;
  cached : Z;
  dirty : bool;
}.

Definition HLL_New : HLL := mkHLL [] (encodeXZero registers) encSparse 0 false.

Definition HLL_Size (h : HLL) : Z :=
  match enc h with
  | encSparse => Z.of_nat (length (sparse h))
  | encDense => Z.of_nat (length (dense h))
  end.

Definition HLL_Encoding (h : HLL) : string :=
  match enc h with encSparse => "sparse" | encDense => "dense" end.

(** [for r := i; r < i+n; r++ { if setDenseRegister(d, r, f(r)) { changed = true } }] *)
Fixpoint set_loop (f : Z -> outcome Z) (d : list Z) (i : Z) (n : nat) (changed : bool)
    : outcome (list Z * bool) :=
  match n with
  | O => Val (d, changed)
  | S n =>
      v ← f i;
      '(d, c) ← setDenseRegister d i v;
      set_loop f d (i + 1) n (if (c : bool) then true else changed)
  end.

(** The closure [promote] and [Merge] pass to [walkSparse]. *)
Definition copy_run (startIndex runLen value : Z) (st : list Z * bool) : outcome ((list Z * bool) * bool) :=
  let '(d, changed) := st in
  if negb (value =? 0) then
    '(d, changed) ← set_loop (fun _ => Val value) d startIndex (Z.to_nat runLen) changed;
    Val ((d, changed), true)
  else Val ((d, changed), true).

Definition promote (h : HLL) : outcome HLL :=
  '(d, _) ← walkSparse copy_run (sparse h) 0 (newDenseArray, false);
  Val (mkHLL d [] encDense (cached h) (dirty h)).

Definition set_dirty (h : HLL) (changed : bool) : HLL :=
  if changed then mkHLL (dense h) (sparse h) (enc h) (cached h) true else h.

(** [Add]: the sketch and whether a register changed. *)
Definition HLL_Add (h : HLL) (data : list Z) : outcome (HLL * bool) :=
  let '(index, rank) := hllPatLen data in
  h ← (match enc h with
       | encSparse => if sparseValMaxValue <? rank then promote h else Val h
       | encDense => Val h
       end);
  '(h, changed) ←
    (match enc h with
     | encSparse =>
         '(newSparse, ch) ← sparseSet (sparse h) index rank;
         let h := if (ch : bool) then mkHLL (dense h) newSparse (enc h) (cached h) (dirty h) else h in
         h ← (if hllSparseMaxBytes <? Z.of_nat (length (sparse h)) then promote h else Val h);
         Val (h, ch)
     | encDense =>
         '(d, ch) ← setDenseRegister (dense h) index rank;
         Val (mkHLL d (sparse h) (enc h) (cached h) (dirty h), ch)
     end);
  Val (set_dirty h changed, changed).

Definition HLL_Merge (h other : HLL) : outcome (HLL * bool) :=
  h ← (match enc h with encSparse => promote h | encDense => Val h end);
  '(d, changed) ←
    (match enc other with
     | encDense => set_loop (getDenseRegister (dense other)) (dense h) 0 (Z.to_nat registers) false
     | encSparse => walkSparse copy_run (sparse other) 0 (dense h, false)
     end);
  Val (set_dirty (mkHLL d (sparse h) (enc h) (cached h) (dirty h)) changed, changed).

(** ** The estimator, in IEEE double precision *)

Definition float_of_Z (z : Z) : float := PrimFloat.of_uint63 (Uint63.of_Z z).

(** [uint64(x)]: the fraction is dropped; a value that does not fit gives what amd64 gives. *)
Definition uint64_of_float (x : float) : Z :=
  match Prim2SF x with
  | S754_zero _ => 0
  | S754_finite false m e =>
      let n := if 0 <=? e then Zpos m * 2 ^ e else Zpos m / 2 ^ (- e) in
      if n <? 2 ^ 64 then n else 2 ^ 63
  | _ => 2 ^ 63
  end.

Definition alphaInf : float := 0.721347520444481703680%float.

Section estimator.
Context `{GoEnv}.

(** [math.Pow(2, float64(val))] is exact. *)
Fixpoint harmonic_sum (sum : float) (val : Z) (histo : list Z) : float :=
  match histo with
  | [] => sum
  | count :: histo =>
      harmonic_sum (sum + float_of_Z count / Z.ldexp 1 val)%float (val + 1) histo
  end.

Definition estimate (histo : list Z) : Z :=
  let m := float_of_Z registers in
  let sum := harmonic_sum 0%float 0 histo in
  let est := (alphaInf * m * m / sum)%float in
  let zeros := histo !!! 0%nat in
  let est :=
    if PrimFloat.leb est (2.5 * m)%float then
      if negb (zeros =? 0) then (m * env_log (m / float_of_Z zeros))%float else est
    else est in
  uint64_of_float (est + 0.5)%float.

(** The loop over a dense array that counts each register's value. *)
Fixpoint dense_histo (d : list Z) (i : Z) (n : nat) (histo : list Z) : outcome (list Z) :=
  match n with
  | O => Val histo
  | S n =>
      v ← getDenseRegister d i;
      dense_histo d (i + 1) n (histo_add histo v 1)
  end.

Definition HLL_Count (h : HLL) : outcome (HLL * Z) :=
  if negb (dirty h) then Val (h, cached h)
  else
    histo ← (match enc h with
             | encSparse => sparseHisto (sparse h)
             | encDense => dense_histo (dense h) 0 (Z.to_nat registers) (replicate 64 0)
             end);
    let c := estimate histo in
    Val (mkHLL (dense h) (sparse h) (enc h) c false, c).
End estimator.

(** ** Registers *)

Definition dense_regs (d : list Z) : list Z := reg_at d <$> seqZ 0 registers.

Definition hll_denotes (h : HLL) (regs : list Z) : Prop :=
  match enc h with
  | encSparse => sparse_denotes (sparse h) regs
  | encDense => dense_wf (dense h) /\ regs = dense_regs (dense h)
  end.

Lemma registers_nonneg : 0 <= registers.
Proof. unfold registers. lia. Qed.

Lemma length_dense_regs d : Z.of_nat (length (dense_regs d)) = registers.
Proof. unfold dense_regs. rewrite length_fmap, length_seqZ. pose proof registers_nonneg. lia. Qed.

Lemma lookup_dense_regs d i : 0 <= i < registers -> dense_regs d !! Z.to_nat i = Some (reg_at d i).
Proof.
  intros Hi. unfold dense_regs. rewrite list_lookup_fmap, lookup_seqZ_lt by lia. simpl.
  do 2 f_equal. lia.
Qed.

(** Register lists are equal when they agree on every register. *)
Lemma regs_eq (l l' : list Z) :
  Z.of_nat (length l) = registers -> Z.of_nat (length l') = registers ->
  (forall i, 0 <= i < registers -> l !! Z.to_nat i = l' !! Z.to_nat i) -> l = l'.
Proof.
  intros Hl Hl' H. apply list_eq. intros k. destruct (decide (Z.of_nat k < registers)).
  - specialize (H (Z.of_nat k) ltac:(lia)). by rewrite Nat2Z.id in H.
  - rewrite !lookup_ge_None_2 by lia. done.
Qed.

Lemma hll_denotes_length h regs : hll_denotes h regs -> Z.of_nat (length regs) = registers.
Proof.
  unfold hll_denotes. destruct (enc h); [by intros (_ & _ & ?)|]. intros [_ ->].
  apply length_dense_regs.
Qed.

Lemma dense_regs_range d : dense_wf d -> Forall (fun v => 0 <= v < 64) (dense_regs d).
Proof.
  intros Hd. unfold dense_regs. apply Forall_fmap, Forall_seqZ. intros i Hi. simpl.
  apply getDenseRegister_spec; [done|lia].
Qed.

Lemma hll_denotes_range h regs : hll_denotes h regs -> Forall (fun v => 0 <= v < 64) regs.
Proof.
  unfold hll_denotes. destruct (enc h).
  - intros Hs%sparse_denotes_range. eapply Forall_impl; [exact Hs|]. simpl. lia.
  - intros [Hd ->]. by apply dense_regs_range.
Qed.

Lemma hll_denotes_inj h regs regs' : hll_denotes h regs -> hll_denotes h regs' -> regs = regs'.
Proof.
  unfold hll_denotes. destruct (enc h).
  - intros (_ & H & _) (_ & H' & _). congruence.
  - by intros [_ ->] [_ ->].
Qed.

Definition zero_regs : list Z := run (registers, 0).

Lemma HLL_New_denotes : hll_denotes HLL_New zero_regs.
Proof.
  destruct (encodes_zero_run registers ltac:(unfold registers; lia)) as (Hb & Hr & _).
  split; [exact Hb|]. split; [exact Hr|]. apply (length_run (registers, 0)). by vm_compute.
Qed.

(** ** Loops over registers *)

(** [d'] is [d] with every register of the range raised to [g], and [changed'] says
    whether that or an earlier step changed anything. *)
Definition raised (d d' : list Z) (g : Z -> Z) (changed changed' : bool) : Prop :=
  dense_wf d' /\
  (forall j, 0 <= j < registers -> reg_at d' j = Z.max (reg_at d j) (g j)) /\
  (changed' = true <-> changed = true \/ exists j, 0 <= j < registers /\ reg_at d j < g j).

Lemma raised_refl d c : dense_wf d -> raised d d (fun _ => 0) c c.
Proof.
  intros Hd. split; [done|].
  assert (forall j, 0 <= j < registers -> 0 <= reg_at d j) as Hnn.
  { intros j Hj. by destruct (getDenseRegister_spec d j Hd Hj) as (_ & [? _] & _). }
  split; [intros j Hj; specialize (Hnn j Hj); lia|].
  split; [by left|]. intros [?|(j & Hj & Hlt)]; [done|]. specialize (Hnn j Hj). lia.
Qed.

Lemma raised_trans d d' d'' g g' c c' c'' :
  raised d d' g c c' -> raised d' d'' g' c' c'' -> raised d d'' (fun j => Z.max (g j) (g' j)) c c''.
Proof.
  intros (Hw & Hr & Hc) (Hw' & Hr' & Hc'). split; [done|]. split.
  - intros j Hj. rewrite Hr', Hr by done. lia.
  - rewrite Hc', Hc. split.
    + intros [[?|(j & Hj & Hlt)]|(j & Hj & Hlt)]; [by left|..]; right; exists j; (split; [done|]).
      * lia.
      * rewrite Hr in Hlt by done. lia.
    + intros [?|(j & Hj & Hlt)]; [by left; left|].
      destruct (decide (reg_at d j < g j)); [left; right; eauto|].
      right. exists j. split; [done|]. rewrite Hr by done. lia.
Qed.

Lemma raised_ext d d' g g' c c' :
  (forall j, 0 <= j < registers -> g j = g' j) -> raised d d' g c c' -> raised d d' g' c c'.
Proof.
  intros Hg (Hw & Hr & Hc). split; [done|]. split.
  - intros j Hj. by rewrite Hr, Hg.
  - rewrite Hc. split; (intros [?|(j & Hj & Hlt)]; [by left|right; exists j; split; [done|]]).
    + by rewrite <-Hg.
    + by rewrite Hg.
Qed.

Lemma set_one d i v :
  dense_wf d -> 0 <= i < registers -> 0 <= v < 64 ->
  exists d' c', setDenseRegister d i v = Val (d', c') /\
    forall c, raised d d' (fun j => if j =? i then v else 0) c (if c' then true else c).
Proof.
  intros Hd Hi Hv. destruct (setDenseRegister_spec d i v Hd Hi Hv) as (d' & E & Hw & Hr & Hsame).
  eexists _, _. split; [exact E|]. intros c. split; [done|]. split.
  - intros j Hj. rewrite Hr by done. destruct (Z.eqb_spec j i) as [->|]; [done|].
    destruct (getDenseRegister_spec d j Hd Hj) as (_ & ? & _). lia.
  - destruct (Z.ltb_spec (reg_at d i) v).
    + split; [|done]. intros _. right. exists i. split; [done|]. by rewrite Z.eqb_refl.
    + split; [by left|]. intros [?|(j & Hj & Hlt)]; [done|].
      destruct (Z.eqb_spec j i) as [->|]; [lia|].
      destruct (getDenseRegister_spec d j Hd Hj) as (_ & ? & _). lia.
Qed.

Lemma set_loop_spec f g d i n c :
  dense_wf d -> 0 <= i -> i + Z.of_nat n <= registers ->
  (forall j, i <= j < i + Z.of_nat n -> f j = Val (g j) /\ 0 <= g j < 64) ->
  exists d' c', set_loop f d i n c = Val (d', c') /\
    raised d d' (fun j => if (i <=? j) && (j <? i + Z.of_nat n) then g j else 0) c c'.
Proof.
  revert d i c. induction n as [|n IH]; intros d i c Hd Hi Hn Hf.
  - exists d, c. split; [done|]. eapply raised_ext; [|by apply raised_refl].
    intros j Hj. rewrite Z.add_0_r. destruct (Z.leb_spec i j), (Z.ltb_spec j i); try done. lia.
  - destruct (Hf i ltac:(lia)) as [Hfi Hgi].
    destruct (set_one d i (g i) Hd ltac:(lia) Hgi) as (d1 & c1 & E1 & R1). specialize (R1 c).
    destruct (IH d1 (i + 1) (if c1 then true else c)) as (d2 & c2 & E2 & R2);
      [apply R1|lia|lia|intros j Hj; apply Hf; lia|].
    exists d2, c2. cbn [set_loop]. rewrite Hfi. cbn [mbind outcome_bind]. rewrite E1.
    split; [exact E2|]. eapply raised_ext; [|exact (raised_trans _ _ _ _ _ _ _ _ R1 R2)].
    intros j Hj. cbv beta.
    destruct (Z.eqb_spec j i), (Z.leb_spec (i + 1) j), (Z.leb_spec i j),
      (Z.ltb_spec j (i + 1 + Z.of_nat n)), (Z.ltb_spec j (i + Z.of_nat (S n))); subst; simpl; try lia;
      destruct (Hf j ltac:(lia)); lia.
Qed.

(** Register [j] of a stream of runs that starts at register [idx]. *)
Definition runs_at (rs : list (Z * Z)) (idx j : Z) : Z :=
  if idx <=? j then default 0 (regs_of_runs rs !! Z.to_nat (j - idx)) else 0.

Lemma runs_at_cons n v rs idx j :
  1 <= n -> runs_at ((n, v) :: rs) idx j
            = if (idx <=? j) && (j <? idx + n) then v else runs_at rs (idx + n) j.
Proof.
  intros Hn. unfold runs_at. rewrite regs_of_runs_cons.
  pose proof (length_run (n, v) Hn) as Hl. cbn [fst] in Hl.
  destruct (Z.leb_spec idx j), (Z.ltb_spec j (idx + n)), (Z.leb_spec (idx + n) j); simpl; try lia.
  - rewrite lookup_app_l by lia. by rewrite lookup_run by lia.
  - rewrite lookup_app_r by lia. do 2 f_equal. lia.
Qed.

Lemma walk_copy_spec rs d idx c :
  dense_wf d -> Forall run_ok rs -> 0 <= idx ->
  idx + Z.of_nat (length (regs_of_runs rs)) <= registers ->
  exists d' c', walk_runs copy_run rs idx (d, c) = Val (d', c') /\
    raised d d' (runs_at rs idx) c c'.
Proof.
  intros Hd Hok. revert d idx c Hd. induction Hok as [|[n v] rs [Hn Hv] Hok IH]; intros d idx c Hd Hi Hl.
  - exists d, c. split; [done|]. eapply raised_ext; [|by apply raised_refl].
    intros j Hj. unfold runs_at. by destruct (idx <=? j).
  - cbn [fst snd] in Hn, Hv. rewrite regs_of_runs_cons, length_app in Hl.
    pose proof (length_run (n, v) ltac:(cbn [fst]; lia)) as Hrun. cbn [fst] in Hrun.
    assert (exists d1 c1, copy_run idx n v (d, c) = Val ((d1, c1), true) /\
      raised d d1 (fun j => if (idx <=? j) && (j <? idx + n) then v else 0) c c1) as (d1 & c1 & E1 & R1).
    { unfold copy_run. destruct (Z.eqb_spec v 0) as [->|Hv0]; cbn [negb].
      - exists d, c. split; [done|]. eapply raised_ext; [|by apply raised_refl].
        intros j _. by destruct (_ && _).
      - destruct (set_loop_spec (fun _ => Val v) (fun _ => v) d idx (Z.to_nat n) c)
          as (d1 & c1 & E1 & R1); [done|done|lia|intros; split; [done|lia]|].
        rewrite Z2Nat.id in R1 by lia. exists d1, c1. by rewrite E1. }
    destruct (IH d1 (idx + n) c1) as (d2 & c2 & E2 & R2); [apply R1|lia|lia|].
    exists d2, c2. cbn [walk_runs]. rewrite E1. cbn [mbind outcome_bind]. split; [exact E2|].
    eapply raised_ext; [|exact (raised_trans _ _ _ _ _ _ _ _ R1 R2)].
    intros j Hj. cbv beta. rewrite runs_at_cons by lia.
    unfold runs_at. destruct (Z.leb_spec idx j), (Z.ltb_spec j (idx + n)), (Z.leb_spec (idx + n) j); simpl;
      try lia.
    destruct (regs_of_runs rs !! _) as [w|] eqn:Hw; simpl; [|done].
    pose proof (regs_of_runs_range rs Hok) as Hr.
    pose proof (Forall_lookup_1 _ _ _ _ Hr Hw). simpl in *. lia.
Qed.

(** ** Promotion keeps the registers *)

Lemma newDenseArray_wf : dense_wf newDenseArray.
Proof.
  unfold newDenseArray. split; [by apply Forall_replicate|]. rewrite length_replicate.
  apply Z2Nat.id. by vm_compute.
Qed.

Lemma reg_at_newDenseArray i : 0 <= i < registers -> reg_at newDenseArray i = 0.
Proof.
  intros Hi. destruct (getDenseRegister_spec _ i newDenseArray_wf Hi) as (_ & Hr & Hb).
  apply six_bits_eq; [done|lia|]. intros t Ht. rewrite Hb, Z.bits_0 by done. unfold bit_at, newDenseArray.
  assert (0 <= (6 * i + t) / 8 < dense_size).
  { assert (dense_size = 12289) as -> by done. unfold registers in Hi. zdm. }
  rewrite list_lookup_total_alt, lookup_replicate_2 by lia. apply Z.bits_0.
Qed.

Lemma raised_regs d d' other c c' :
  Z.of_nat (length other) = registers -> Forall (fun v => 0 <= v < 64) other ->
  raised d d' (fun j => default 0 (other !! Z.to_nat j)) c c' ->
  dense_regs d' = zip_with Z.max (dense_regs d) other.
Proof.
  intros Hl Ho (Hw & Hr & _). apply regs_eq.
  - apply length_dense_regs.
  - rewrite length_zip_with_l_eq by (pose proof (length_dense_regs d); lia). apply length_dense_regs.
  - intros i Hi. rewrite lookup_zip_with, !lookup_dense_regs by done. simpl.
    destruct (lookup_lt_is_Some_2 other (Z.to_nat i)) as [v Hv]; [lia|].
    rewrite Hr by done. by rewrite Hv.
Qed.

Lemma runs_at_0 rs j : 0 <= j -> runs_at rs 0 j = default 0 (regs_of_runs rs !! Z.to_nat j).
Proof. intros. unfold runs_at. rewrite (proj2 (Z.leb_le _ _)) by done. by rewrite Z.sub_0_r. Qed.

(** Copying a whole sparse stream into a dense array. *)
Lemma walk_stream_spec s regs d c :
  dense_wf d -> sparse_denotes s regs ->
  exists d' c', walkSparse copy_run s 0 (d, c) = Val (d', c') /\
    raised d d' (fun j => default 0 (regs !! Z.to_nat j)) c c'.
Proof.
  intros Hd Hs. destruct (sparse_denotes_runs s regs Hs) as (rs & Hrs & Hok & ->).
  destruct Hs as (_ & _ & Hl).
  destruct (walk_copy_spec rs d 0 c Hd Hok) as (d' & c' & E & R); [done|lia|].
  exists d', c'. rewrite (walkSparse_runs _ _ _ _ _ Hrs). split; [exact E|].
  eapply raised_ext; [|exact R]. intros j Hj. apply runs_at_0. lia.
Qed.

Lemma zip_max_zero l l' :
  Forall (fun v => v = 0) l -> length l = length l' -> Forall (fun v => 0 <= v < 64) l' ->
  zip_with Z.max l l' = l'.
Proof.
  revert l'. induction l as [|x l IH]; intros [|y l'] Hz Hlen Hr; simplify_eq; [done|].
  apply Forall_cons in Hz as [-> Hz]. apply Forall_cons in Hr as [Hy Hr]. simpl.
  rewrite IH by done. f_equal. lia.
Qed.

Lemma promote_spec h regs :
  sparse_denotes (sparse h) regs ->
  exists d, promote h = Val (mkHLL d [] encDense (cached h) (dirty h)) /\
    dense_wf d /\ regs = dense_regs d.
Proof.
  intros Hs. destruct (walk_stream_spec _ _ newDenseArray false newDenseArray_wf Hs) as (d & c & E & R).
  exists d. unfold promote. rewrite E. split; [done|]. split; [apply R|].
  assert (Forall (fun v => 0 <= v < 64) regs) as Hr.
  { eapply Forall_impl; [by eapply sparse_denotes_range|]. simpl. lia. }
  destruct Hs as (_ & _ & Hl). rewrite (raised_regs _ _ _ _ _ Hl Hr R). symmetry. apply zip_max_zero; [| |done].
  - unfold dense_regs. apply Forall_fmap, Forall_seqZ. intros j Hj. simpl. apply reg_at_newDenseArray. lia.
  - pose proof (length_dense_regs newDenseArray). lia.
Qed.

(** ** Add *)

Lemma raise_id regs i v old : regs !! Z.to_nat i = Some old -> v <= old -> raise regs i v = regs.
Proof.
  intros H Hv. unfold raise. rewrite (alter_as_insert _ _ _ old) by done.
  rewrite Z.max_r by done. by apply list_insert_id.
Qed.

Lemma raised_raise d d' i v c c' :
  0 <= i < registers -> dense_wf d -> raised d d' (fun j => if j =? i then v else 0) c c' ->
  dense_regs d' = raise (dense_regs d) i v.
Proof.
  intros Hi Hd (Hw & Hr & _). apply regs_eq.
  - apply length_dense_regs.
  - unfold raise. rewrite length_alter. apply length_dense_regs.
  - intros j Hj. unfold raise. rewrite list_lookup_alter, !lookup_dense_regs by done.
    rewrite Hr by done. destruct (Z.eqb_spec j i) as [->|Hne].
    + rewrite decide_True by done. simpl. by rewrite Z.max_comm.
    + rewrite decide_False by lia. destruct (getDenseRegister_spec d j Hd Hj) as (_ & ? & _).
      f_equal. lia.
Qed.

Lemma set_dirty_denotes h c regs : hll_denotes (set_dirty h c) regs <-> hll_denotes h regs.
Proof. by destruct c. Qed.

(** Setting a register of a dense sketch, as [Add] does. *)
Lemma add_dense h regs i v :
  dense_wf (dense h) -> regs = dense_regs (dense h) -> 0 <= i < registers -> 0 <= v < 64 ->
  exists d old, setDenseRegister (dense h) i v = Val (d, old <? v) /\ regs !! Z.to_nat i = Some old /\
    dense_wf d /\ raise regs i v = dense_regs d.
Proof.
  intros Hd -> Hi Hv. destruct (setDenseRegister_spec _ i v Hd Hi Hv) as (d & E & Hw & _).
  destruct (set_one _ i v Hd Hi Hv) as (d' & c' & E' & R). rewrite E' in E. simplify_eq.
  eexists _, _. split; [exact E'|]. split; [by apply lookup_dense_regs|]. split; [done|].
  symmetry. by eapply (raised_raise _ _ _ _ false), (R false).
Qed.

Lemma HLL_Add_spec h regs data i r :
  hll_denotes h regs -> hllPatLen data = (i, r) ->
  exists h' old, HLL_Add h data = Val (h', old <? r) /\ regs !! Z.to_nat i = Some old /\
    hll_denotes h' (raise regs i r) /\ cached h' = cached h /\
    dirty h' = (if old <? r then true else dirty h).
Proof.
  intros Hh Hp. destruct (hllPatLen_range data i r Hp) as [Hi Hr]. unfold HLL_Add. rewrite Hp.
  unfold hll_denotes in Hh. destruct (enc h) eqn:Henc.
  - unfold sparseValMaxValue. destruct (Z.ltb_spec 32 r) as [Hbig|Hsmall].
    + destruct (promote_spec h regs Hh) as (d & -> & Hd & ->). cbn [mbind outcome_bind enc dense].
      destruct (add_dense (mkHLL d [] encDense (cached h) (dirty h)) _ i r Hd eq_refl) as (d' & old & E & Hold & Hw & Hreg);
        [unfold registers; lia|lia|].
      cbn [dense] in *. rewrite E. cbn [mbind outcome_bind].
      eexists _, old. split; [done|]. split; [done|]. rewrite set_dirty_denotes. split; [by split|].
      by destruct (old <? r).
    + cbn [mbind outcome_bind]. rewrite Henc.
      destruct (sparseSet_spec (sparse h) regs i r Hh) as (s' & old & E & Hold & Hs' & _ & Hsame);
        [unfold registers; lia|lia|].
      rewrite E. cbn [mbind outcome_bind].
      set (h1 := if old <? r then _ else h).
      assert (sparse_denotes (sparse h1) (raise regs i r) /\ enc h1 = encSparse /\
              cached h1 = cached h /\ dirty h1 = dirty h) as (Hs1 & He1 & Hc1 & Hd1).
      { subst h1. destruct (Z.ltb_spec old r); [done|].
        rewrite (raise_id _ _ _ old) by done. done. }
      clearbody h1. destruct (hllSparseMaxBytes <? _).
      * destruct (promote_spec h1 _ Hs1) as (d & -> & Hd & Hreg). cbn [mbind outcome_bind].
        eexists _, old. split; [done|]. split; [done|]. rewrite set_dirty_denotes.
        split; [by split|]. rewrite <-Hc1, <-Hd1. by destruct (old <? r).
      * cbn [mbind outcome_bind]. eexists _, old. split; [done|]. split; [done|].
        rewrite set_dirty_denotes. split; [unfold hll_denotes; by rewrite He1|].
        rewrite <-Hc1, <-Hd1. by destruct (old <? r).
  - cbn [mbind outcome_bind]. rewrite Henc. destruct Hh as [Hd Hreg].
    destruct (add_dense h regs i r Hd Hreg) as (d' & old & E & Hold & Hw & Hreg');
      [unfold registers; lia|lia|].
    rewrite E. cbn [mbind outcome_bind]. eexists _, old. split; [done|]. split; [done|].
    rewrite set_dirty_denotes. split; [by split|]. by destruct (old <? r).
Qed.

(** ** Merge *)

Lemma zip_max_same l l' :
  Forall2 (fun x y => y <= x) l l' -> zip_with Z.max l l' = l.
Proof. induction 1; simpl; [done|]. f_equal; [lia|done]. Qed.

(** The dense array [Merge] works on. *)
Lemma merge_start h rh :
  hll_denotes h rh ->
  exists h1, (match enc h with encSparse => promote h | encDense => Val h end) = Val h1 /\
    enc h1 = encDense /\ dense_wf (dense h1) /\ rh = dense_regs (dense h1) /\
    cached h1 = cached h /\ dirty h1 = dirty h.
Proof.
  unfold hll_denotes. destruct (enc h) eqn:E.
  - intros Hs. destruct (promote_spec h rh Hs) as (d & -> & Hd & Hr). by eexists.
  - intros [Hd Hr]. by eexists.
Qed.

(** The loop that folds the other sketch in. *)
Lemma merge_loop d other ro :
  dense_wf d -> hll_denotes other ro ->
  exists d' c, (match enc other with
     | encDense => set_loop (getDenseRegister (dense other)) d 0 (Z.to_nat registers) false
     | encSparse => walkSparse copy_run (sparse other) 0 (d, false)
     end) = Val (d', c) /\ raised d d' (fun j => default 0 (ro !! Z.to_nat j)) false c.
Proof.
  intros Hd. unfold hll_denotes. destruct (enc other).
  - intros Hs. by apply walk_stream_spec.
  - intros [Ho ->]. destruct (set_loop_spec (getDenseRegister (dense other)) (reg_at (dense other))
      d 0 (Z.to_nat registers) false) as (d' & c & E & R); [done|done|pose proof registers_nonneg; lia| |].
    { intros j Hj. rewrite Z2Nat.id in Hj by apply registers_nonneg.
      destruct (getDenseRegister_spec _ j Ho ltac:(lia)) as (? & ? & _). done. }
    exists d', c. split; [exact E|]. eapply raised_ext; [|exact R]. intros j Hj. cbv beta.
    rewrite Z2Nat.id by apply registers_nonneg. rewrite lookup_dense_regs by done.
    destruct (Z.leb_spec 0 j), (Z.ltb_spec j (0 + registers)); try done; lia.
Qed.

Lemma dense_regs_ne d d' :
  dense_regs d' <> dense_regs d <-> exists j, 0 <= j < registers /\ reg_at d' j <> reg_at d j.
Proof.
  split.
  - intros Hne. destruct (list_neq_lookup (dense_regs d') (dense_regs d)) as (k & x & y & Hx & Hy & Hxy).
    { pose proof (length_dense_regs d). pose proof (length_dense_regs d'). lia. }
    { exact Hne. }
    clear Hne. pose proof (length_dense_regs d') as Hl. pose proof (lookup_lt_Some _ _ _ Hx).
    exists (Z.of_nat k). split; [lia|].
    pose proof (lookup_dense_regs d' (Z.of_nat k) ltac:(lia)) as H1.
    pose proof (lookup_dense_regs d (Z.of_nat k) ltac:(lia)) as H2.
    rewrite Nat2Z.id in H1, H2. rewrite H1 in Hx. rewrite H2 in Hy.
    injection Hx as <-. injection Hy as <-. exact Hxy.
  - intros (j & Hj & Hne) Heq. apply Hne.
    pose proof (lookup_dense_regs d' j Hj) as H1. rewrite Heq, (lookup_dense_regs d j Hj) in H1.
    injection H1 as H1. symmetry. exact H1.
Qed.

Lemma HLL_Merge_spec h other rh ro :
  hll_denotes h rh -> hll_denotes other ro ->
  exists h' c, HLL_Merge h other = Val (h', c) /\ enc h' = encDense /\
    hll_denotes h' (zip_with Z.max rh ro) /\ cached h' = cached h /\
    dirty h' = (if c then true else dirty h) /\ (c = true <-> zip_with Z.max rh ro <> rh).
Proof.
  intros Hh Ho. unfold HLL_Merge.
  destruct (merge_start h rh Hh) as (h1 & -> & He & Hd & -> & Hc & Hdi). cbn [mbind outcome_bind].
  destruct (merge_loop (dense h1) other ro Hd Ho) as (d' & c & -> & R). cbn [mbind outcome_bind].
  pose proof (hll_denotes_length _ _ Ho) as Hlen. pose proof (hll_denotes_range _ _ Ho) as Hran.
  pose proof (raised_regs _ _ _ _ _ Hlen Hran R) as Hreg. destruct R as (Hw & Hval & Hch).
  eexists _, c. split; [done|]. rewrite set_dirty_denotes.
  split; [by destruct c|]. split; [by rewrite <-Hreg; unfold hll_denotes; cbn [enc dense]; rewrite He|].
  rewrite <-Hc, <-Hdi. split; [by destruct c|]. split; [by destruct c|].
  rewrite Hch, <-Hreg, dense_regs_ne. split.
  - intros [Hf|(j & Hj & Hlt)]; [discriminate Hf|]. exists j. split; [exact Hj|].
    specialize (Hval j Hj). cbv beta in Hval, Hlt. rewrite Hval. clear -Hlt. lia.
  - intros (j & Hj & Hne). right. exists j. split; [exact Hj|].
    specialize (Hval j Hj). cbv beta in Hval |- *. rewrite Hval in Hne. clear -Hne. lia.
Qed.

(** ** Count *)

Section count.
Context `{GoEnv}.

(** The cached estimate is the estimate of the registers, unless it is marked dirty. *)
Definition cache_ok (h : HLL) (regs : list Z) : Prop :=
  dirty h = false -> cached h = estimate (histogram regs).

Definition hll_ok (h : HLL) (regs : list Z) : Prop := hll_denotes h regs /\ cache_ok h regs.

Lemma dense_histo_spec d i n histo :
  dense_wf d -> 0 <= i -> i + Z.of_nat n <= registers ->
  dense_histo d i n histo
  = Val (foldl (fun h v => histo_add h v 1) histo (reg_at d <$> seqZ i (Z.of_nat n))).
Proof.
  intros Hd. revert i histo. induction n as [|n IH]; intros i histo Hi Hn.
  - by rewrite seqZ_nil.
  - cbn [dense_histo]. destruct (getDenseRegister_spec d i Hd ltac:(lia)) as (-> & _ & _).
    cbn [mbind outcome_bind]. rewrite IH by lia. rewrite (seqZ_cons i (Z.of_nat (S n))) by lia.
    rewrite fmap_cons. cbn [foldl]. do 3 f_equal. f_equal; lia.
Qed.

Lemma dense_histo_regs d :
  dense_wf d -> dense_histo d 0 (Z.to_nat registers) (replicate 64 0) = Val (histogram (dense_regs d)).
Proof.
  intros Hd. pose proof registers_nonneg as Hn. unfold histogram, dense_regs.
  rewrite <-(Z2Nat.id registers Hn) at 2. apply dense_histo_spec; [exact Hd|lia|]. rewrite Z2Nat.id by exact Hn. lia.
Qed.

Lemma HLL_Count_spec h regs :
  hll_ok h regs ->
  exists h', HLL_Count h = Val (h', estimate (histogram regs)) /\ hll_ok h' regs /\
    dirty h' = false /\ HLL_Size h' = HLL_Size h.
Proof.
  intros [Hh Hc]. unfold HLL_Count. destruct (dirty h) eqn:Hd; cbn [negb].
  - assert ((match enc h with
             | encSparse => sparseHisto (sparse h)
             | encDense => dense_histo (dense h) 0 (Z.to_nat registers) (replicate 64 0)
             end) = Val (histogram regs)) as ->.
    { unfold hll_denotes in Hh. destruct (enc h); [by apply sparseHisto_spec|].
      destruct Hh as [Hw ->]. by apply dense_histo_regs. }
    cbn [mbind outcome_bind]. eexists. split; [done|]. split; [|done]. by split.
  - rewrite (Hc Hd). exists h. split; [done|]. done.
Qed.

Lemma cache_ok_dirty h regs : dirty h = true -> cache_ok h regs.
Proof. intros Hd Hd'. congruence. Qed.

Lemma HLL_Add_ok h regs data i r :
  hll_ok h regs -> hllPatLen data = (i, r) ->
  exists h' old, HLL_Add h data = Val (h', old <? r) /\ regs !! Z.to_nat i = Some old /\
    hll_ok h' (raise regs i r).
Proof.
  intros [Hh Hc] Hp. destruct (HLL_Add_spec h regs data i r Hh Hp) as (h' & old & E & Hold & Hh' & Hca & Hdi).
  exists h', old. split; [done|]. split; [done|]. split; [done|].
  destruct (Z.ltb_spec old r); [by apply cache_ok_dirty|].
  rewrite (raise_id _ _ _ old) by done. intros Hd. rewrite Hca. apply Hc. congruence.
Qed.

Lemma HLL_Merge_ok h other rh ro :
  hll_ok h rh -> hll_denotes other ro ->
  exists h' c, HLL_Merge h other = Val (h', c) /\ hll_ok h' (zip_with Z.max rh ro).
Proof.
  intros [Hh Hc] Ho. destruct (HLL_Merge_spec h other rh ro Hh Ho) as (h' & c & E & _ & Hh' & Hca & Hdi & Hch).
  exists h', c. split; [done|]. split; [done|]. destruct c; [by apply cache_ok_dirty|].
  destruct (decide (zip_with Z.max rh ro = rh)) as [->|Hne]; [|by apply Hch in Hne].
  intros Hd. rewrite Hca. apply Hc. congruence.
Qed.
End count.

(** ** Adding elements *)

(** [for _, v := range values { if h.Add([]byte(v)) { changed = true } }] *)
Fixpoint HLL_AddAll (h : HLL) (values : list string) (changed : bool) : outcome (HLL * bool) :=
  match values with
  | [] => Val (h, changed)
  | v :: values =>
      '(h, c) ← HLL_Add h (bytes_of v);
      HLL_AddAll h values (if (c : bool) then true else changed)
  end.

(** The registers after adding the elements [xs] to [regs]. *)
Definition raise_one (regs : list Z) (x : string) : list Z :=
  let '(i, r) := hllPatLen (bytes_of x) in raise regs i r.
Definition raise_all (regs : list Z) (xs : list string) : list Z := foldl raise_one regs xs.

(** [v] is the largest of [old] and the ranks of the elements of [xs] that go to register [k]. *)
Definition register_sup (old : Z) (xs : list string) (k : nat) (v : Z) : Prop :=
  old <= v /\
  (forall x i r, x ∈ xs -> hllPatLen (bytes_of x) = (i, r) -> Z.to_nat i = k -> r <= v) /\
  (v = old \/ exists x i r, x ∈ xs /\ hllPatLen (bytes_of x) = (i, r) /\ Z.to_nat i = k /\ r = v).

Lemma register_sup_unique old xs xs' k v v' :
  (forall x, x ∈ xs <-> x ∈ xs') ->
  register_sup old xs k v -> register_sup old xs' k v' -> v = v'.
Proof.
  assert (forall xs xs' v v', (forall x, x ∈ xs -> x ∈ xs') ->
    register_sup old xs k v -> register_sup old xs' k v' -> v <= v') as Hle.
  { intros l l' a a' Hs (_ & _ & Hw) (Ho' & Hall' & _).
    destruct Hw as [->|(x & i & r & Hx & Hp & Hi & <-)]; [done|]. eapply Hall'; eauto. }
  intros Hs Hv Hv'. apply Z.le_antisymm.
  - apply (Hle xs xs'); [|done..]. intros x. apply Hs.
  - apply (Hle xs' xs); [|done..]. intros x. apply Hs.
Qed.

Lemma length_raise_all regs xs : length (raise_all regs xs) = length regs.
Proof.
  revert regs. induction xs as [|x xs IH]; intros regs; [done|].
  unfold raise_all. cbn [foldl]. rewrite IH. unfold raise_one, raise.
  destruct (hllPatLen _). apply length_alter.
Qed.

Lemma raise_all_sup regs xs k old :
  regs !! k = Some old -> exists v, raise_all regs xs !! k = Some v /\ register_sup old xs k v.
Proof.
  revert regs old. induction xs as [|x xs IH]; intros regs old Hk.
  - exists old. split; [done|]. split; [lia|]. split; [intros x i r Hx; inversion Hx|by left].
  - unfold raise_all. cbn [foldl]. unfold raise_one at 2. destruct (hllPatLen (bytes_of x)) as [i r] eqn:Hp.
    destruct (IH (raise regs i r) (if decide (Z.to_nat i = k) then Z.max r old else old)) as (v & Hv & Ho & Hall & Hw).
    { unfold raise. rewrite list_lookup_alter, Hk. destruct (decide (Z.to_nat i = k)) as [->|]; [by rewrite Hk|done]. }
    exists v. split; [done|]. split; [case_decide; lia|]. split.
    + intros y j q Hy Hq Hj. apply elem_of_cons in Hy as [->|Hy]; [|by eapply Hall].
      rewrite Hp in Hq. injection Hq as <- <-. rewrite decide_True in Ho by done. lia.
    + destruct Hw as [->|(y & j & q & Hy & Hq & Hj & Hv')].
      * case_decide; [|by left]. destruct (Z.max_spec r old) as [[_ ->]|[_ ->]]; [by left|].
        right. exists x, i, r. split; [apply elem_of_cons; by left|done].
      * right. exists y, j, q. split; [apply elem_of_cons; by right|done].
Qed.

Lemma lookup_zero_regs i : 0 <= i < registers -> zero_regs !! Z.to_nat i = Some 0.
Proof. intros. by apply lookup_run. Qed.

Lemma length_zero_regs : Z.of_nat (length zero_regs) = registers.
Proof. apply (length_run (registers, 0)). by vm_compute. Qed.

Lemma raise_all_set xs ys :
  (forall x, x ∈ xs <-> x ∈ ys) -> raise_all zero_regs xs = raise_all zero_regs ys.
Proof.
  intros Hs. apply regs_eq; [by rewrite length_raise_all, length_zero_regs..|].
  intros i Hi. pose proof (lookup_zero_regs i Hi) as H0.
  destruct (raise_all_sup _ xs _ _ H0) as (v & -> & Hv), (raise_all_sup _ ys _ _ H0) as (v' & -> & Hv').
  f_equal. by eapply register_sup_unique.
Qed.

Lemma register_sup_app xs ys k v v' :
  register_sup 0 xs k v -> register_sup 0 ys k v' -> register_sup 0 (xs ++ ys) k (Z.max v v').
Proof.
  intros (Ho & Hall & Hw) (Ho' & Hall' & Hw'). split; [lia|]. split.
  - intros x i r [Hx|Hx]%elem_of_app Hp Hi; [specialize (Hall x i r Hx Hp Hi)|specialize (Hall' x i r Hx Hp Hi)]; lia.
  - destruct (Z.max_spec v v') as [[_ ->]|[_ ->]].
    + destruct Hw' as [->|(x & i & r & Hx & H)]; [by left|]. right. exists x, i, r. split; [|done]. apply elem_of_app. by right.
    + destruct Hw as [->|(x & i & r & Hx & H)]; [by left|]. right. exists x, i, r. split; [|done]. apply elem_of_app. by left.
Qed.

Lemma raise_all_app xs ys :
  zip_with Z.max (raise_all zero_regs xs) (raise_all zero_regs ys) = raise_all zero_regs (xs ++ ys).
Proof.
  apply regs_eq.
  - rewrite length_zip_with_l_eq by (by rewrite !length_raise_all). by rewrite length_raise_all, length_zero_regs.
  - by rewrite length_raise_all, length_zero_regs.
  - intros i Hi. pose proof (lookup_zero_regs i Hi) as H0. rewrite lookup_zip_with.
    destruct (raise_all_sup _ xs _ _ H0) as (v & -> & Hv), (raise_all_sup _ ys _ _ H0) as (v' & -> & Hv').
    destruct (raise_all_sup _ (xs ++ ys) _ _ H0) as (w & -> & Hw). cbn. f_equal.
    eapply (register_sup_unique 0 (xs ++ ys)); [done| |exact Hw]. by apply register_sup_app.
Qed.

(** Nothing changes exactly when no element beats its register. *)
Lemma raise_all_id regs xs :
  (forall x i r, x ∈ xs -> hllPatLen (bytes_of x) = (i, r) -> exists old, regs !! Z.to_nat i = Some old) ->
  raise_all regs xs = regs <->
  forall x i r old, x ∈ xs -> hllPatLen (bytes_of x) = (i, r) -> regs !! Z.to_nat i = Some old -> r <= old.
Proof.
  intros Hin. split.
  - intros Heq x i r old Hx Hp Ho. destruct (raise_all_sup regs xs _ _ Ho) as (v & Hv & _ & Hall & _).
    rewrite Heq, Ho in Hv. injection Hv as <-. by eapply Hall.
  - intros Hle. clear -Hin Hle. induction xs as [|x xs IH]; [done|].
    unfold raise_all. cbn [foldl]. unfold raise_one at 2.
    destruct (hllPatLen (bytes_of x)) as [i r] eqn:Hp.
    destruct (Hin x i r ltac:(apply elem_of_cons; by left) Hp) as [old Ho].
    rewrite (raise_id regs i r old Ho) by (eapply Hle; [apply elem_of_cons; by left|done..]).
    apply IH; intros; [eapply Hin|eapply Hle]; try done; apply elem_of_cons; by right.
Qed.

Section add_all.
Context `{GoEnv}.

Lemma hll_ok_lookup h regs x i r :
  hll_ok h regs -> hllPatLen (bytes_of x) = (i, r) -> exists old, regs !! Z.to_nat i = Some old.
Proof.
  intros [Hh _] Hp. pose proof (hll_denotes_length h regs Hh) as Hl. apply hllPatLen_range in Hp as [Hi _].
  apply lookup_lt_is_Some_2. unfold registers in Hl. lia.
Qed.

Lemma HLL_AddAll_ok h regs xs c :
  hll_ok h regs -> exists h' c', HLL_AddAll h xs c = Val (h', c') /\ hll_ok h' (raise_all regs xs) /\
    (c' = true <-> c = true \/ raise_all regs xs <> regs).
Proof.
  revert h regs c. induction xs as [|x xs IH]; intros h regs c Hh.
  { exists h, c. split; [done|]. split; [done|]. split; [by left|]. by intros [?|[]]. }
  destruct (hllPatLen (bytes_of x)) as [i r] eqn:Hp.
  destruct (HLL_Add_ok h regs (bytes_of x) i r Hh Hp) as (h1 & old & E & Hold & Hh1).
  cbn [HLL_AddAll]. rewrite E. cbn [mbind outcome_bind].
  destruct (IH h1 (raise regs i r) (if old <? r then true else c) Hh1) as (h' & c' & -> & Hh' & Hc).
  assert (raise_all regs (x :: xs) = raise_all (raise regs i r) xs) as Hcons.
  { unfold raise_all. cbn [foldl]. unfold raise_one at 2. by rewrite Hp. }
  exists h', c'. rewrite Hcons. split; [done|]. split; [done|]. rewrite Hc.
  destruct (Z.ltb_spec old r) as [Hlt|Hge]; [|by rewrite (raise_id regs i r old)].
  split; [|by left]. intros _. right. rewrite <-Hcons. intros Heq.
  apply raise_all_id with (x := x) (i := i) (r := r) (old := old) in Heq; [lia| |by apply elem_of_cons; left|done..].
  intros. by eapply hll_ok_lookup.
Qed.

Lemma histogram_zero : histogram zero_regs = histo_add (replicate 64 0) 0 registers.
Proof. unfold histogram, zero_regs. apply histo_run. apply registers_nonneg. Qed.

Lemma HLL_New_ok `{!GoEnvLaws} : hll_ok HLL_New zero_regs.
Proof.
  split; [apply HLL_New_denotes|]. intros _. rewrite histogram_zero. unfold estimate.
  replace (float_of_Z registers / float_of_Z (histo_add (replicate 64 0%Z) 0%Z registers !!! 0%nat))%float
    with 1%float by (by vm_compute).
  rewrite log_one. by vm_compute.
Qed.
End add_all.

(** ** What the sketches promise *)

Lemma sparseGet_denotes s regs i :
  sparse_denotes s regs -> 0 <= i < registers -> exists v, sparseGet s i = Val v /\ regs !! Z.to_nat i = Some v.
Proof.
  intros Hs Hi. destruct (sparse_denotes_runs s regs Hs) as (rs & Hrs & Hok & ->).
  destruct Hs as (_ & _ & Hl). destruct (lookup_lt_is_Some_2 (regs_of_runs rs) (Z.to_nat i)) as [v Hv]; [lia|].
  exists v. split; [|done]. unfold sparseGet. rewrite (walkSparse_runs _ _ _ _ _ Hrs).
  rewrite sparseGet_runs by (done || lia). rewrite Z.sub_0_r, Hv. done.
Qed.

(** Every sparse opcode decodes to the run it was built from. *)
Theorem sparse_opcode_roundtrip (n v : Z) :
  (1 <= n <= 64 -> decodeOpKind (encodeZero n) = opZero /\ decodeZero (encodeZero n) = n) /\
  (1 <= n <= 16384 ->
     exists b0 b1, encodeXZero n = [b0; b1] /\ decodeOpKind b0 = opXZero /\ decodeXZero b0 b1 = n) /\
  (1 <= v <= 32 -> 1 <= n <= 4 ->
     decodeOpKind (encodeVal v n) = opVal /\ decodeVal (encodeVal v n) = (v, n)).
Proof.
  split; [|split].
  - intros Hn. by destruct (encodeZero_spec n Hn) as (? & ? & _).
  - intros Hn. destruct (encodeXZero_spec n Hn) as (b0 & b1 & ? & ? & ? & _). by exists b0, b1.
  - intros Hv Hn. by destruct (encodeVal_spec v n Hv Hn) as (? & ? & _).
Qed.

Lemma sparse_opcode_roundtrip_witness :
  decodeZero (encodeZero 64) = 64 /\ decodeVal (encodeVal 32 4) = (32, 4).
Proof.
  split.
  - apply (sparse_opcode_roundtrip 64 0). lia.
  - apply (sparse_opcode_roundtrip 4 32); lia.
Defined.

(** Setting a register of a sparse sketch raises that register to at least the
    value, leaves every other register as it was, reports whether it changed anything,
    and makes the stream at most four bytes longer. *)
Theorem sparse_set_get (s regs : list Z) (index val : Z) :
  sparse_denotes s regs -> 0 <= index < registers -> 1 <= val <= sparseValMaxValue ->
  exists s' old, sparseGet s index = Val old /\ sparseSet s index val = Val (s', old <? val) /\
    Z.of_nat (length s') <= Z.of_nat (length s) + 4 /\
    forall j, 0 <= j < registers ->
      sparseGet s' j = if j =? index then Val (Z.max old val) else sparseGet s j.
Proof.
  intros Hs Hi Hv. destruct (sparseSet_spec s regs index val Hs Hi Hv) as (s' & old & E & Hold & Hs' & Hlen & _).
  destruct (sparseGet_denotes s regs index Hs Hi) as (v & Hg & Hv'). rewrite Hold in Hv'. injection Hv' as <-.
  exists s', old. split; [done|]. split; [done|]. split; [lia|]. intros j Hj.
  destruct (sparseGet_denotes s' _ j Hs' Hj) as (w & -> & Hw). unfold raise in Hw.
  rewrite list_lookup_alter in Hw. destruct (Z.eqb_spec j index) as [->|Hne].
  - rewrite decide_True, Hold in Hw by done. cbn in Hw. injection Hw as <-. by rewrite Z.max_comm.
  - rewrite decide_False in Hw by lia. destruct (sparseGet_denotes s regs j Hs Hj) as (u & -> & Hu). congruence.
Qed.

Lemma sparse_set_get_witness :
  exists s' old, sparseGet (encodeXZero registers) 100 = Val old /\
    sparseSet (encodeXZero registers) 100 7 = Val (s', old <? 7) /\
    Z.of_nat (length s') <= 6 /\
    forall j, 0 <= j < registers ->
      sparseGet s' j = if j =? 100 then Val (Z.max old 7) else sparseGet (encodeXZero registers) j.
Proof.
  apply (sparse_set_get (encodeXZero registers) zero_regs 100 7); [apply HLL_New_denotes|unfold registers; lia|unfold sparseValMaxValue; lia].
Defined.

(** Setting a six-bit register of the packed array raises that register to at least
    the value and disturbs no neighbour, although registers straddle bytes. *)
Theorem dense_set_get (d : list Z) (i val : Z) :
  dense_wf d -> 0 <= i < registers -> 0 <= val <= registerMax ->
  exists d' old, getDenseRegister d i = Val old /\ setDenseRegister d i val = Val (d', old <? val) /\
    dense_wf d' /\
    forall j, 0 <= j < registers ->
      getDenseRegister d' j = if j =? i then Val (Z.max old val) else getDenseRegister d j.
Proof.
  intros Hd Hi Hv. destruct (setDenseRegister_spec d i val Hd Hi) as (d' & E & Hw & Hr & _);
    [unfold registerMax in Hv; lia|].
  exists d', (reg_at d i). split; [by apply getDenseRegister_spec|]. split; [done|]. split; [done|].
  intros j Hj. destruct (getDenseRegister_spec d' j Hw Hj) as (-> & _). rewrite (Hr j Hj).
  destruct (j =? i); [done|]. symmetry. by apply getDenseRegister_spec.
Qed.

Lemma dense_set_get_witness :
  exists d' old, getDenseRegister newDenseArray 1 = Val old /\
    setDenseRegister newDenseArray 1 51 = Val (d', old <? 51) /\ dense_wf d' /\
    forall j, 0 <= j < registers ->
      getDenseRegister d' j = if j =? 1 then Val (Z.max old 51) else getDenseRegister newDenseArray j.
Proof.
  apply (dense_set_get newDenseArray 1 51);
    [apply newDenseArray_wf|unfold registers; lia|unfold registerMax; lia].
Defined.

(** Promotion keeps every register: the dense sketch reads what the sparse one read. *)
Theorem promote_keeps_registers (h : HLL) (regs : list Z) :
  sparse_denotes (sparse h) regs ->
  exists h', promote h = Val h' /\ enc h' = encDense /\ cached h' = cached h /\ dirty h' = dirty h /\
    forall i, 0 <= i < registers -> getDenseRegister (dense h') i = sparseGet (sparse h) i.
Proof.
  intros Hs. destruct (promote_spec h regs Hs) as (d & -> & Hd & Hr). eexists. split; [done|].
  split; [done|]. split; [done|]. split; [done|]. intros i Hi. cbn [dense].
  destruct (sparseGet_denotes _ _ i Hs Hi) as (v & -> & Hv).
  destruct (getDenseRegister_spec d i Hd Hi) as (-> & _).
  rewrite Hr, lookup_dense_regs in Hv by done. by injection Hv as ->.
Qed.

Lemma promote_keeps_registers_witness :
  exists h', promote HLL_New = Val h' /\ enc h' = encDense /\ cached h' = 0 /\ dirty h' = false /\
    forall i, 0 <= i < registers -> getDenseRegister (dense h') i = sparseGet (sparse HLL_New) i.
Proof. apply (promote_keeps_registers HLL_New zero_regs). apply HLL_New_denotes. Defined.

Section promises.
Context `{GoEnv}.

(** The sketch of a list of elements, as [PFADD] on a fresh key builds it. *)
Definition sketch_of (xs : list string) : outcome HLL :=
  '(h, _) ← HLL_AddAll HLL_New xs false; Val h.

Definition count_of (h : HLL) : outcome Z := '(_, n) ← HLL_Count h; Val n.

Lemma sketch_of_ok `{!GoEnvLaws} xs :
  exists h, sketch_of xs = Val h /\ hll_ok h (raise_all zero_regs xs).
Proof.
  destruct (HLL_AddAll_ok HLL_New zero_regs xs false HLL_New_ok) as (h & c & E & Hok & _).
  exists h. unfold sketch_of. by rewrite E.
Qed.

Lemma count_of_ok h regs : hll_ok h regs -> count_of h = Val (estimate (histogram regs)).
Proof. intros Hh. destruct (HLL_Count_spec h regs Hh) as (h' & E & _). unfold count_of. by rewrite E. Qed.

(** C21: The estimate depends only on the set of elements added: not on their order, not
    on repetitions, and not on when the sketch went from sparse to dense. *)
Theorem hll_counts_the_set `{!GoEnvLaws} (xs ys : list string) :
  (forall x, x ∈ xs <-> x ∈ ys) ->
  exists hx hy n, sketch_of xs = Val hx /\ sketch_of ys = Val hy /\
    count_of hx = Val n /\ count_of hy = Val n.
Proof.
  intros Hs. destruct (sketch_of_ok xs) as (hx & Ex & Hx), (sketch_of_ok ys) as (hy & Ey & Hy).
  exists hx, hy, (estimate (histogram (raise_all zero_regs xs))). split; [done|]. split; [done|].
  split; [by apply count_of_ok|]. rewrite (raise_all_set xs ys Hs). by apply count_of_ok.
Qed.

(** C22: Merging two sketches gives the estimate of the union of their elements. *)
Theorem hll_merge_is_union `{!GoEnvLaws} (xs ys : list string) :
  exists hx hy hu hm c n, sketch_of xs = Val hx /\ sketch_of ys = Val hy /\
    sketch_of (xs ++ ys) = Val hu /\ HLL_Merge hx hy = Val (hm, c) /\
    count_of hm = Val n /\ count_of hu = Val n.
Proof.
  destruct (sketch_of_ok xs) as (hx & Ex & Hx), (sketch_of_ok ys) as (hy & Ey & Hy),
    (sketch_of_ok (xs ++ ys)) as (hu & Eu & Hu).
  destruct (HLL_Merge_ok hx hy _ _ Hx (proj1 Hy)) as (hm & c & Em & Hm). rewrite raise_all_app in Hm.
  exists hx, hy, hu, hm, c, (estimate (histogram (raise_all zero_regs (xs ++ ys)))).
  split; [done|]. split; [done|]. split; [done|]. split; [done|]. split; by apply count_of_ok.
Qed.

(** The cached estimate is never stale: [Count] answers what it would answer if it
    recomputed, and leaves a sketch with the same registers and a valid cache. *)
Theorem hll_cache_never_stale (h : HLL) (regs : list Z) :
  hll_ok h regs ->
  count_of h = count_of (mkHLL (dense h) (sparse h) (enc h) (cached h) true) /\
  exists h' n, HLL_Count h = Val (h', n) /\ hll_ok h' regs /\ dirty h' = false /\
    HLL_Count h' = Val (h', n).
Proof.
  intros Hh. split.
  - rewrite (count_of_ok h regs Hh). symmetry. apply count_of_ok.
    split; [apply Hh|]. intros Hd. discriminate Hd.
  - destruct (HLL_Count_spec h regs Hh) as (h' & E & Hh' & Hd & _).
    exists h', (estimate (histogram regs)). split; [done|]. split; [done|]. split; [done|].
    unfold HLL_Count. rewrite Hd. cbn [negb]. by rewrite (proj2 Hh' Hd).
Qed.
End promises.

Lemma hll_counts_the_set_witness :
  let e := env_at unixToInternal in
  exists hx hy n, sketch_of ["a"; "b"; "a"] = Val hx /\ sketch_of ["b"; "a"] = Val hy /\
    count_of hx = Val n /\ count_of hy = Val n.
Proof.
  intros e. apply (@hll_counts_the_set e (env_at_laws _ (Z.le_refl _))). intros x. set_solver.
Defined.

Lemma hll_merge_is_union_witness :
  let e := env_at unixToInternal in
  exists hx hy hu hm c n, sketch_of ["a"; "b"] = Val hx /\ sketch_of ["b"; "c"] = Val hy /\
    sketch_of ["a"; "b"; "b"; "c"] = Val hu /\ HLL_Merge hx hy = Val (hm, c) /\
    count_of hm = Val n /\ count_of hu = Val n.
Proof. intros e. apply (@hll_merge_is_union e (env_at_laws _ (Z.le_refl _)) ["a"; "b"] ["b"; "c"]). Defined.

Lemma hll_cache_never_stale_witness :
  let e := env_at unixToInternal in
  exists h' n, HLL_Count HLL_New = Val (h', n) /\ hll_ok h' zero_regs /\ dirty h' = false /\
    HLL_Count h' = Val (h', n).
Proof.
  intros e. apply (@hll_cache_never_stale e HLL_New zero_regs).
  apply (@HLL_New_ok e (env_at_laws _ (Z.le_refl _))).
Defined.
