(* ===== verification/World.v ===== *)
(** * The state of the server (src/store/store.go, src/store/stats.go)

    What the dispatch worker reads and writes: the store, the keyspace
    statistics, the LFU parameters and the append-only file. [tick] counts the
    readings of the environment (clock, random numbers, map orders), so that two
    readings may differ. *)

From S2P Require Import Prelude GoLib Sds Hll.

Inductive Encoding := EncodingINT | EncodingEMBSTR | EncodingRAW | EncodingHLL.

Global Instance Encoding_eq_dec : EqDecision Encoding.
Proof. solve_decision. Defined.

Record entry := mkEntry {
  encoding : Encoding;
  intVal : Z;
  strVal : option SDS;
  hllVal : option HLL;
  expiresAt : Z;
  lru : Z;
}.

Record evictionCandidate := mkCandidate { key : string; score : Z }.

Record Store := mkStore {
  data : gmap string entry;
  usedMemory : Z;
  evPool : list evictionCandidate;
  policy : string;
}.

Record World := mkWorld {
  Default : Store;
  KeyspaceStat : list (gmap string Z);
  LFULogFactor : Z;
  LFUDecayTime : Z;
  aof : option string;
  tick : nat;
}.

(** [store.New], the initial statistics and the default LFU parameters. *)
Definition Store_New : Store := mkStore ∅ 0 [] "noeviction".
Definition World_init : World := mkWorld Store_New (replicate 4 ∅) 10 1 None 0.

(** ** Updates of single fields *)

Definition set_entry_lru (e : entry) (l : Z) : entry :=
  mkEntry (encoding e) (intVal e) (strVal e) (hllVal e) (expiresAt e) l.
Definition set_entry_hll (e : entry) (h : HLL) : entry :=
  mkEntry (encoding e) (intVal e) (strVal e) (Some h) (expiresAt e) (lru e).

Definition upd_store (f : Store -> Store) (w : World) : World :=
  mkWorld (f (Default w)) (KeyspaceStat w) (LFULogFactor w) (LFUDecayTime w) (aof w) (tick w).
Definition upd_data (f : gmap string entry -> gmap string entry) : World -> World :=
  upd_store (fun s => mkStore (f (data s)) (usedMemory s) (evPool s) (policy s)).
Definition upd_memory (f : Z -> Z) : World -> World :=
  upd_store (fun s => mkStore (data s) (f (usedMemory s)) (evPool s) (policy s)).
Definition set_pool (p : list evictionCandidate) : World -> World :=
  upd_store (fun s => mkStore (data s) (usedMemory s) p (policy s)).
Definition set_stat (ks : list (gmap string Z)) (w : World) : World :=
  mkWorld (Default w) ks (LFULogFactor w) (LFUDecayTime w) (aof w) (tick w).
Definition set_aof (a : option string) (w : World) : World :=
  mkWorld (Default w) (KeyspaceStat w) (LFULogFactor w) (LFUDecayTime w) a (tick w).
Definition next_tick (w : World) : World :=
  mkWorld (Default w) (KeyspaceStat w) (LFULogFactor w) (LFUDecayTime w) (aof w) (S (tick w)).

(** [n] readings of the environment later. *)
Definition advance (n : nat) (w : World) : World :=
  mkWorld (Default w) (KeyspaceStat w) (LFULogFactor w) (LFUDecayTime w) (aof w) (n + tick w).

(** [s.SetPolicy(policy)] *)
Definition SetPolicy (p : string) : World -> World :=
  upd_store (fun s => mkStore (data s) (usedMemory s) (evPool s) p).

(** [SetLFUParams]: out-of-range values leave the current setting. *)
Definition SetLFUParams (logFactor decayTime : Z) (w : World) : World :=
  mkWorld (Default w) (KeyspaceStat w)
    (if 0 <=? logFactor then u32 logFactor else LFULogFactor w)
    (if 1 <=? decayTime then u32 decayTime else LFUDecayTime w)
    (aof w) (tick w).

Notation lookup_key k := (gets (fun w => data (Default w) !! k)).

Section environment.
Context `{GoEnv}.

(** [s.now()], [rand.Float64()], and the order of one [range s.data]. *)
Definition now : GoM World Z := fun w => Val (env_clock (tick w), next_tick w).
Definition rand_Float64 : GoM World float := fun w => Val (env_rand (tick w), next_tick w).
Definition range_keys : GoM World (list string) := fun w =>
  Val (env_order (tick w) (fst <$> map_to_list (data (Default w))), next_tick w).

(** How the next write, of [b] to a file that holds [file], ends. *)
Definition next_write (file b : string) : GoM World (option nat) := fun w =>
  Val (env_write (tick w) file b, next_tick w).

(** [KeyspaceStat[num][metric] += value] *)
Definition UpdateDbStat (num : Z) (metric : string) (value : Z) : GoM World unit := fun w =>
  match KeyspaceStat w !! Z.to_nat num with
  | Some m =>
      Val (tt, set_stat (<[Z.to_nat num := <[metric := i64 (default 0 (m !! metric) + value)]> m]>
                          (KeyspaceStat w)) w)
  | None => Panic IndexOutOfRange
  end.
End environment.

(** [KeyspaceStat[0]["keys"]] *)
Definition keys_stat (w : World) : Z := default 0 ((KeyspaceStat w !!! 0%nat) !! "keys").

(** [w] and [w'] agree on everything but the store's data, its byte count, the
    statistics and the readings of the environment. *)
Definition same_setup (w w' : World) : Prop :=
  evPool (Default w') = evPool (Default w) /\ policy (Default w') = policy (Default w) /\
  LFULogFactor w' = LFULogFactor w /\ LFUDecayTime w' = LFUDecayTime w /\ aof w' = aof w /\
  (tick w <= tick w')%nat.

Lemma same_setup_refl w : same_setup w w.
Proof. repeat split. lia. Qed.

Lemma same_setup_advance n w : same_setup w (advance n w).
Proof. repeat split. simpl. lia. Qed.

Lemma advance_0 w : advance 0 w = w.
Proof. by destruct w. Qed.

Lemma advance_advance m n w : advance m (advance n w) = advance (m + n) w.
Proof. unfold advance. simpl. f_equal. lia. Qed.

Lemma same_setup_trans w w' w'' : same_setup w w' -> same_setup w' w'' -> same_setup w w''.
Proof. unfold same_setup. intros (?&?&?&?&?&?) (?&?&?&?&?&?). split_and!; try congruence. lia. Qed.

Global Instance same_setup_preorder : PreOrder same_setup.
Proof. split; [exact same_setup_refl|exact same_setup_trans]. Qed.

#[export] Hint Resolve same_setup_refl same_setup_advance : rediska.
