(* ===== verification/Lru.v ===== *)
(** * Recency and frequency stamps (src/store/lru.go, src/store/lfu.go)

    Every entry carries 24 bits: under an LRU policy the second of its last
    access, under an LFU policy a 16-bit minute and an 8-bit logarithmic counter. *)

From S2P Require Import Prelude GoLib Sds Hll World.

Definition LRUClockMax : Z := 2 ^ 24 - 1.
Definition LRUClockResolution : Z := 1000.
Definition EvictionPoolSize : Z := 16.
Definition entryOverhead : Z := 64.

Definition LFUInitVal : Z := 5.
Definition lfuCounterBits : Z := 8.
Definition lfuCounterMask : Z := Z.shiftl 1 lfuCounterBits - 1.
Definition lfuLdtMask : Z := 0xFFFF.

(** ** Pure functions on stamps *)

Definition lruIdle (clock access : Z) : Z :=
  if access <=? clock then u32 (clock - access) else u32 (clock + u32 (LRUClockMax - access)).

Definition lfuDecodeCounter (packed : Z) : Z := u8 (Z.land packed lfuCounterMask).
Definition lfuDecodeLdt (packed : Z) : Z := u16 (Z.land (Z.shiftr packed lfuCounterBits) lfuLdtMask).
Definition lfuEncode (ldt counter : Z) : Z := Z.lor (u32 (Z.shiftl ldt lfuCounterBits)) counter.

Definition ldtIdle (nowLdt storedLdt : Z) : Z :=
  if storedLdt <=? nowLdt then u16 (nowLdt - storedLdt) else u16 (nowLdt + u16 (lfuLdtMask - storedLdt)).

(** [lfuDecay]; the division panics when [LFUDecayTime] is 0. *)
Definition lfuDecay (decayTime counter idleMinutes : Z) : outcome Z :=
  if decayTime =? 0 then Panic IntegerDivideByZero
  else
    let steps := idleMinutes / decayTime in
    if steps =? 0 then Val counter
    else if counter <=? steps then Val 0
    else Val (u8 (counter - u8 steps)).

(** The probability of the logarithmic increment. *)
Definition lfuProbability (logFactor counter : Z) : float :=
  let baseVal := (float_of_Z counter - float_of_Z LFUInitVal)%float in
  let baseVal := if PrimFloat.ltb baseVal 0%float then 0%float else baseVal in
  (1 / (baseVal * float_of_Z logFactor + 1))%float.

Definition lfuNew (nowLdt : Z) : Z := lfuEncode nowLdt LFUInitVal.

(** ** Stamping *)

Section stamps.
Context `{GoEnv}.

Definition lruClock : GoM World Z :=
  t ← now; mret (u32 (Z.land (Z.quot (UnixMilli t) LRUClockResolution) LRUClockMax)).

Definition lfuClock : GoM World Z :=
  t ← now; mret (u16 (Z.land (Z.quot (Unix t) 60) lfuLdtMask)).

Definition lfuLogIncr (counter : Z) : GoM World Z :=
  if counter =? 255 then mret counter
  else
    logFactor ← gets LFULogFactor;
    r ← rand_Float64;
    if PrimFloat.ltb r (lfuProbability logFactor counter) then mret (u8 (counter + 1)) else mret counter.

Definition lfuTouch (packed nowLdt : Z) : GoM World Z :=
  let counter := lfuDecodeCounter packed in
  let storedLdt := lfuDecodeLdt packed in
  let idle := ldtIdle nowLdt storedLdt in
  decayTime ← gets LFUDecayTime;
  counter ← lift (lfuDecay decayTime counter idle);
  counter ← lfuLogIncr counter;
  mret (lfuEncode nowLdt counter).

Definition isLFU : GoM World bool :=
  gets (fun w => string_eqb (policy (Default w)) "allkeys-lfu"
                 || string_eqb (policy (Default w)) "volatile-lfu").

Definition stampNew : GoM World Z :=
  lfu ← isLFU;
  if (lfu : bool) then (l ← lfuClock; mret (lfuNew l)) else lruClock.

Definition stampAccess (current : Z) : GoM World Z :=
  lfu ← isLFU;
  if (lfu : bool) then (l ← lfuClock; lfuTouch current l) else lruClock.

(** [evictionScore]: higher is more evictable. *)
Definition evictionScore (e : entry) : GoM World Z :=
  lfu ← isLFU;
  if (lfu : bool) then mret (u32 (u8 (255 - lfuDecodeCounter (lru e))))
  else (c ← lruClock; mret (lruIdle c (lru e))).
End stamps.

(** ** Packing *)

Lemma lfuDecodeCounter_range p : 0 <= lfuDecodeCounter p < 256.
Proof. apply u8_range. Qed.
Lemma lfuDecodeLdt_range p : 0 <= lfuDecodeLdt p < 65536.
Proof. apply u16_range. Qed.

Lemma lfuEncode_arith ldt c :
  0 <= ldt < 65536 -> 0 <= c < 256 -> lfuEncode ldt c = ldt * 256 + c.
Proof.
  intros Hl Hc. unfold lfuEncode, lfuCounterBits. rewrite u32_small.
  - by rewrite lor_shiftl_add by lia.
  - rewrite Z.shiftl_mul_pow2 by lia. lia.
Qed.

Lemma lfuEncode_range ldt c : 0 <= ldt < 65536 -> 0 <= c < 256 -> 0 <= lfuEncode ldt c < 2 ^ 24.
Proof. intros. rewrite lfuEncode_arith by done. lia. Qed.

Lemma lfuDecodeCounter_arith p : lfuDecodeCounter p = p mod 256.
Proof.
  unfold lfuDecodeCounter. change lfuCounterMask with (Z.ones 8).
  rewrite Z.land_ones by lia. unfold u8. zdm.
Qed.

Lemma lfuDecodeLdt_arith p : lfuDecodeLdt p = (p / 256) mod 65536.
Proof.
  unfold lfuDecodeLdt, lfuCounterBits. change lfuLdtMask with (Z.ones 16).
  rewrite Z.land_ones, Z.shiftr_div_pow2 by lia. unfold u16. change (2 ^ 8) with 256. zdm.
Qed.

Lemma lfuDecode_lfuEncode ldt c :
  0 <= ldt < 65536 -> 0 <= c < 256 ->
  lfuDecodeLdt (lfuEncode ldt c) = ldt /\ lfuDecodeCounter (lfuEncode ldt c) = c.
Proof.
  intros Hl Hc. rewrite lfuDecodeLdt_arith, lfuDecodeCounter_arith, lfuEncode_arith by done. split; zdm.
Qed.

(** The minute and the counter packed into an entry's 24 bits are read back unchanged. *)
Theorem lfu_pack_roundtrip (ldt counter : Z) :
  0 <= ldt < 65536 -> 0 <= counter < 256 ->
  lfuDecodeLdt (lfuEncode ldt counter) = ldt /\ lfuDecodeCounter (lfuEncode ldt counter) = counter /\
  0 <= lfuEncode ldt counter <= LRUClockMax.
Proof.
  intros Hl Hc. destruct (lfuDecode_lfuEncode ldt counter Hl Hc) as [-> ->].
  pose proof (lfuEncode_range ldt counter Hl Hc). unfold LRUClockMax. lia.
Qed.

Lemma lfu_pack_roundtrip_witness :
  lfuDecodeLdt (lfuEncode 65535 255) = 65535 /\ lfuDecodeCounter (lfuEncode 65535 255) = 255 /\
  0 <= lfuEncode 65535 255 <= LRUClockMax.
Proof. apply lfu_pack_roundtrip; lia. Defined.

(** The idle time is the distance on the 24-bit clock face, but one tick short when
    the clock has wrapped since the access. *)
Theorem lru_idle_distance (clock access : Z) :
  0 <= clock <= LRUClockMax -> 0 <= access <= LRUClockMax ->
  lruIdle clock access
  = (clock - access) mod 2 ^ 24 - (if clock <? access then 1 else 0) /\
  0 <= lruIdle clock access <= LRUClockMax.
Proof.
  unfold LRUClockMax, lruIdle. intros Hc Ha.
  destruct (Z.leb_spec access clock), (Z.ltb_spec clock access); try lia.
  - rewrite u32_small by lia. rewrite Z.mod_small by lia. lia.
  - rewrite (u32_small (_ - access)) by (unfold LRUClockMax; lia).
    rewrite u32_small by (unfold LRUClockMax; lia). unfold LRUClockMax. split; [|lia].
    rewrite <-(Z_mod_plus_full _ 1), Z.mod_small by lia. lia.
Qed.

Lemma lru_idle_distance_witness :
  lruIdle 3 LRUClockMax = (3 - LRUClockMax) mod 2 ^ 24 - 1 /\ 0 <= lruIdle 3 LRUClockMax <= LRUClockMax.
Proof. apply (lru_idle_distance 3 LRUClockMax); unfold LRUClockMax; lia. Defined.

Lemma ldtIdle_distance t stored :
  0 <= t < 65536 -> 0 <= stored < 65536 ->
  ldtIdle t stored = (t - stored) mod 65536 - (if t <? stored then 1 else 0).
Proof.
  unfold ldtIdle, lfuLdtMask. intros Ht Hs.
  destruct (Z.leb_spec stored t), (Z.ltb_spec t stored); try lia.
  - rewrite u16_small by lia. rewrite Z.mod_small by lia. lia.
  - rewrite (u16_small (_ - stored)), u16_small by lia.
    rewrite <-(Z_mod_plus_full _ 1), Z.mod_small by lia. lia.
Qed.

(** ** Stamping reads the environment and changes nothing *)

Section stamp_lemmas.
Context `{GoEnv}.

(** [m] returns a value satisfying [Q], having only read the environment. *)
Definition reads {A} (m : GoM World A) (Q : A -> Prop) (w : World) : Prop :=
  exists a n, m w = Val (a, advance n w) /\ Q a.

Lemma reads_wp {A} (m : GoM World A) Q w :
  reads m Q w -> wp m (fun a w' => exists n, w' = advance n w /\ Q a) w.
Proof. intros (a & n & E & HQ). unfold wp. rewrite E. by exists n. Qed.

Lemma reads_now Q w : Q (env_clock (tick w)) -> reads now Q w.
Proof. intros HQ. by eexists _, 1%nat. Qed.

Lemma lruClock_reads w : reads lruClock (fun c => 0 <= c < 2 ^ 24) w.
Proof.
  eexists _, 1%nat. split; [done|]. change LRUClockMax with (Z.ones 24).
  rewrite Z.land_ones by lia. unfold u32. zdm.
Qed.

Lemma lfuClock_reads w : reads lfuClock (fun c => 0 <= c < 65536) w.
Proof. eexists _, 1%nat. split; [done|]. apply u16_range. Qed.

Lemma lfuDecay_spec dt c idle :
  1 <= dt -> 0 <= c < 256 -> 0 <= idle -> lfuDecay dt c idle = Val (Z.max 0 (c - idle / dt)).
Proof.
  intros Hd Hc Hi. unfold lfuDecay. rewrite (proj2 (Z.eqb_neq _ _)) by lia.
  assert (0 <= idle / dt) by (apply Z.div_pos; lia).
  destruct (Z.eqb_spec (idle / dt) 0) as [->|]; [f_equal; lia|].
  destruct (Z.leb_spec c (idle / dt)); f_equal; [lia|].
  rewrite (u8_small (idle / dt)), u8_small by lia. lia.
Qed.

Lemma lfuLogIncr_reads c w :
  0 <= c < 256 -> reads (lfuLogIncr c) (fun c' => c <= c' <= c + 1 /\ c' < 256) w.
Proof.
  intros Hc. unfold lfuLogIncr. destruct (Z.eqb_spec c 255) as [->|].
  - exists 255, 0%nat. rewrite advance_0. split; [done|lia].
  - unfold reads, gets, rand_Float64, mbind, GoM_bind, mret, GoM_ret.
    destruct (PrimFloat.ltb _ _).
    + exists (u8 (c + 1)), 1%nat. split; [done|]. rewrite u8_small; lia.
    + exists c, 1%nat. split; [done|]. lia.
Qed.

Lemma lfuTouch_reads p t w :
  0 <= t < 65536 -> 1 <= LFUDecayTime w ->
  reads (lfuTouch p t) (fun q =>
    let decayed := Z.max 0 (lfuDecodeCounter p - ldtIdle t (lfuDecodeLdt p) / LFUDecayTime w) in
    exists c, q = lfuEncode t c /\ decayed <= c <= decayed + 1 /\ 0 <= c < 256) w.
Proof.
  intros Ht Hd. set (d := Z.max 0 _). pose proof (lfuDecodeCounter_range p) as Hc.
  assert (0 <= ldtIdle t (lfuDecodeLdt p)) as Hi.
  { unfold ldtIdle. destruct (_ <=? _); apply u16_range. }
  assert (0 <= d < 256) as Hdr.
  { assert (0 <= ldtIdle t (lfuDecodeLdt p) / LFUDecayTime w) by (apply Z.div_pos; lia). subst d. lia. }
  destruct (lfuLogIncr_reads d w Hdr) as (c & n & E & H1 & H2).
  exists (lfuEncode t c), n. split; [|exists c; split; [done|lia]].
  unfold lfuTouch, gets, lift, mbind, GoM_bind, mret, GoM_ret. rewrite lfuDecay_spec by done.
  unfold d in E. by rewrite E.
Qed.

Lemma stampNew_reads w : reads stampNew (fun l => 0 <= l < 2 ^ 24) w.
Proof.
  unfold stampNew, isLFU, reads, gets, mbind, GoM_bind. destruct (_ || _); [|apply lruClock_reads].
  destruct (lfuClock_reads w) as (t & n & -> & Ht). exists (lfuNew t), n. split; [done|].
  by apply lfuEncode_range.
Qed.

Lemma stampAccess_reads l w :
  1 <= LFUDecayTime w -> reads (stampAccess l) (fun l => 0 <= l < 2 ^ 24) w.
Proof.
  intros Hd. unfold stampAccess, isLFU, reads, gets, mbind, GoM_bind. destruct (_ || _); [|apply lruClock_reads].
  destruct (lfuClock_reads w) as (t & n & -> & Ht).
  destruct (lfuTouch_reads l t (advance n w) Ht Hd) as (q & m & -> & c & -> & _ & Hc).
  exists (lfuEncode t c), (m + n)%nat. rewrite advance_advance. split; [done|]. by apply lfuEncode_range.
Qed.

Lemma evictionScore_reads e w : reads (evictionScore e) (fun s => 0 <= s < 2 ^ 32) w.
Proof.
  unfold evictionScore, isLFU, reads, gets, mbind, GoM_bind. destruct (_ || _).
  - eexists _, 0%nat. rewrite advance_0. split; [done|]. apply u32_range.
  - destruct (lruClock_reads w) as (c & n & -> & Hc). eexists _, n. split; [done|].
    unfold lruIdle. destruct (_ <=? _); apply u32_range.
Qed.

(** C33: An access under LFU, on an entry of any packed word, decays and then counts.
    The minutes since the stored minute are their distance on the 16-bit clock face, but
    one less when the clock has passed 65535 in between: for every [LFUDecayTime] of those
    minutes the counter loses one, never going below 0. Then it gains at most one, never
    beyond 255. The new word is the current minute over the new counter, and nothing but
    the reads of the environment has happened to the state. *)
Theorem lfu_touch_decays_then_counts (packed nowLdt : Z) (w : World) :
  0 <= nowLdt < 65536 -> 1 <= LFUDecayTime w ->
  let stored := packed / 256 mod 65536 in
  let counter := packed mod 256 in
  let minutes := (nowLdt - stored) mod 65536 - (if nowLdt <? stored then 1 else 0) in
  let decayed := Z.max 0 (counter - minutes / LFUDecayTime w) in
  exists c n, lfuTouch packed nowLdt w = Val (nowLdt * 256 + c, advance n w) /\
    decayed <= c <= Z.min 255 (decayed + 1).
Proof.
  intros Ht Hd. cbv zeta. destruct (lfuTouch_reads packed nowLdt w Ht Hd) as (q & n & E & c & -> & Hc & Hr).
  rewrite ldtIdle_distance, lfuDecodeLdt_arith, lfuDecodeCounter_arith in Hc by (done || apply lfuDecodeLdt_range).
  exists c, n. rewrite <-lfuEncode_arith by done. split; [exact E|lia].
Qed.
End stamp_lemmas.

(** A counter of 100 stamped at minute 65535 and touched at minute 3: four minutes have
    passed, and three are taken off. *)
Lemma lfu_touch_decays_then_counts_witness :
  let e := env_at unixToInternal in
  exists c n, lfuTouch (65535 * 256 + 100) 3 World_init = Val (3 * 256 + c, advance n World_init) /\
    97 <= c <= 98.
Proof.
  intros e. apply (@lfu_touch_decays_then_counts e (65535 * 256 + 100) 3 World_init); [lia|by vm_compute].
Defined.
