(* ===== verification/Store.v ===== *)
(** * The store (src/store/store.go, lru.go, expire.go)

    One definition per operation, in the state monad of the whole server. *)

From S2P Require Import Prelude GoLib Sds Hll World Lru.

Definition ErrNotHLL : string := "WRONGTYPE Key is not a valid HyperLogLog string value.".
Definition ErrNotInteger : string := "ERR value is not an integer or out of range".

Definition detectEncoding (value : string) : Encoding :=
  match ParseInt value with
  | Some _ => EncodingINT
  | None => if len value <=? 44 then EncodingEMBSTR else EncodingRAW
  end.

(** The entry [Set] builds. *)
Definition newEntry (value : string) (expiresAt lru : Z) : entry :=
  match detectEncoding value with
  | EncodingINT => mkEntry EncodingINT (default 0 (ParseInt value)) None None expiresAt lru
  | enc => mkEntry enc 0 (Some (SDS_New value)) None expiresAt lru
  end.

Definition entrySize (key : string) (e : entry) : Z :=
  let valueSize :=
    match encoding e with
    | EncodingINT => 8
    | EncodingEMBSTR | EncodingRAW => match strVal e with Some s => SDS_Cap s | None => 0 end
    | EncodingHLL => match hllVal e with Some h => HLL_Size h | None => 0 end
    end in
  i64 (len key + valueSize + entryOverhead).

(** [s.usedMemory += n] and [-= n] on an int64. *)
Definition addMemory (n : Z) : GoM World unit := modify (upd_memory (fun m => i64 (m + n))).
Definition subMemory (n : Z) : GoM World unit := modify (upd_memory (fun m => i64 (m - n))).

(** [s.data[key] = e] *)
Definition putEntry (key : string) (e : entry) : GoM World unit := modify (upd_data (<[key := e]>)).

(** The single deletion path. *)
Definition removeKey (key : string) : GoM World unit :=
  old ← lookup_key key;
  match old with
  | None => mret tt
  | Some e =>
      subMemory (entrySize key e) ;;
      modify (upd_data (delete key)) ;;
      UpdateDbStat 0 "keys" (-1)
  end.

Definition OverMemory (maxBytes : Z) : GoM World bool :=
  gets (fun w => (0 <? maxBytes) && (maxBytes <? usedMemory (Default w))).

Definition UsedMemory : GoM World Z := gets (fun w => usedMemory (Default w)).
Definition KeyCount : GoM World Z := gets (fun w => Z.of_nat (size (data (Default w)))).

Section operations.
Context `{GoEnv}.

Definition isExpired (e : entry) : GoM World bool :=
  if IsZero (expiresAt e) then mret false
  else t ← now; mret (negb (Before t (expiresAt e))).

(** ** Strings and integers *)

Definition Store_Set (key value : string) (ttl : Z) : GoM World unit :=
  old ← lookup_key key;
  (match old with
   | None => UpdateDbStat 0 "keys" 1
   | Some old => subMemory (entrySize key old)
   end) ;;
  expiresAt ← (if 0 <? ttl then (t ← now; mret (TimeAdd t ttl)) else mret 0);
  lru ← stampNew;
  let e := newEntry value expiresAt lru in
  putEntry key e ;;
  addMemory (entrySize key e).

Definition Store_Append (key value : string) : GoM World Z :=
  old ← lookup_key key;
  match old with
  | None => Store_Set key value 0 ;; mret (len value)
  | Some old =>
      subMemory (entrySize key old) ;;
      buf ← lift (match encoding old with
                  | EncodingINT => Val (SDS_New (FormatInt (intVal old)))
                  | _ => match strVal old with Some s => Val s | None => Panic NilDereference end
                  end);
      let buf := AppendString buf value in
      lru ← stampAccess (lru old);
      let e := mkEntry EncodingRAW 0 (Some buf) None (expiresAt old) lru in
      putEntry key e ;;
      addMemory (entrySize key e) ;;
      mret (SDS_Len buf)
  end.

(** The value, whether the key exists, the error, and the expiry. *)
Definition Store_GetInt (key : string) : GoM World (Z * bool * option string * Z) :=
  found ← lookup_key key;
  match found with
  | None => mret (0, false, None, 0)
  | Some e =>
      expired ← isExpired e;
      if (expired : bool) then removeKey key ;; mret (0, false, None, 0)
      else
        l ← stampAccess (lru e);
        let e := set_entry_lru e l in
        putEntry key e ;;
        match encoding e with
        | EncodingINT => mret (intVal e, true, None, expiresAt e)
        | _ => mret (0, true, Some ErrNotInteger, 0)
        end
  end.

(** [None] is a missing key. *)
Definition Store_GetEncoding (key : string) : GoM World (option Encoding) :=
  found ← lookup_key key;
  match found with
  | None => mret None
  | Some e =>
      expired ← isExpired e;
      if (expired : bool) then removeKey key ;; mret None else mret (Some (encoding e))
  end.

(** The counter, whether the key exists, and whether the policy is LFU. *)
Definition Store_GetFreq (key : string) : GoM World (Z * bool * bool) :=
  lfu ← isLFU;
  if negb lfu then mret (0, false, false)
  else
    found ← lookup_key key;
    match found with
    | None => mret (0, false, true)
    | Some e =>
        expired ← isExpired e;
        if (expired : bool) then removeKey key ;; mret (0, false, true)
        else mret (lfuDecodeCounter (lru e), true, true)
    end.

Definition Store_Get (key : string) : GoM World (option string) :=
  found ← lookup_key key;
  match found with
  | None => mret None
  | Some e =>
      expired ← isExpired e;
      if (expired : bool) then removeKey key ;; mret None
      else
        l ← stampAccess (lru e);
        let e := set_entry_lru e l in
        putEntry key e ;;
        match encoding e with
        | EncodingINT => mret (Some (FormatInt (intVal e)))
        | EncodingRAW | EncodingEMBSTR =>
            match strVal e with
            | Some s => mret (Some (SDS_String s))
            | None => panicking NilDereference
            end
        | EncodingHLL => mret None
        end
  end.

Definition Store_TTL (key : string) : GoM World Z :=
  found ← lookup_key key;
  match found with
  | None => mret (-2)
  | Some e =>
      if IsZero (expiresAt e) then mret (-1)
      else
        t ← now;
        let remaining := TimeSub (expiresAt e) t in
        if remaining <=? 0 then removeKey key ;; mret (-2)
        else mret (Z.quot (Milliseconds remaining + 500) 1000)
  end.

(** ** HyperLogLogs *)

(** [for _, v := range values { if e.hllVal.Add([]byte(v)) { changed = true } }] *)
Definition addValues (e : entry) (values : list string) (changed : bool) : GoM World (entry * bool) :=
  match values with
  | [] => mret (e, changed)
  | _ =>
      '(h, changed) ← lift (match hllVal e with
                            | Some h => HLL_AddAll h values changed
                            | None => Panic NilDereference
                            end);
      mret (set_entry_hll e h, changed)
  end.

(** Whether anything changed, or the error. *)
Definition Store_PFAdd (key : string) (values : list string) : GoM World (bool + string) :=
  found ← lookup_key key;
  live ← (match found with
          | Some e =>
              expired ← isExpired e;
              if (expired : bool) then removeKey key ;; mret None else mret (Some e)
          | None => mret None
          end);
  let wrongType := match live with
                   | Some e => negb (bool_decide (encoding e = EncodingHLL))
                   | None => false
                   end in
  if (wrongType : bool) then mret (inr ErrNotHLL)
  else
    '(e, changed) ←
      (match live with
       | Some e =>
           subMemory (entrySize key e) ;;
           l ← stampAccess (lru e);
           mret (set_entry_lru e l, false)
       | None =>
           l ← stampNew;
           UpdateDbStat 0 "keys" 1 ;;
           mret (mkEntry EncodingHLL 0 None (Some HLL_New) 0 l, true)
       end);
    '(e, changed) ← addValues e values changed;
    putEntry key e ;;
    addMemory (entrySize key e) ;;
    mret (inl changed).

(** [Count] updates the cached estimate of the sketch the entry points to. *)
Definition Store_PFCount (key : string) : GoM World Z :=
  found ← lookup_key key;
  match found with
  | Some e =>
      match encoding e with
      | EncodingHLL =>
          '(h, n) ← lift (match hllVal e with Some h => HLL_Count h | None => Panic NilDereference end);
          putEntry key (set_entry_hll e h) ;;
          mret (i64 n)
      | _ => mret 0
      end
  | None => mret 0
  end.

Definition Store_PFMerge (dest : string) (sources : list string) : GoM World unit :=
  acc ← foldM (dest :: sources) HLL_New (fun acc key =>
    found ← lookup_key key;
    match found with
    | Some e =>
        match encoding e with
        | EncodingHLL =>
            '(acc, _) ← lift (match hllVal e with
                              | Some h => HLL_Merge acc h
                              | None => Panic NilDereference
                              end);
            mret acc
        | _ => mret acc
        end
    | None => mret acc
    end);
  old ← lookup_key dest;
  (match old with
   | Some old => subMemory (entrySize dest old)
   | None => UpdateDbStat 0 "keys" 1
   end) ;;
  l ← stampNew;
  let e := mkEntry EncodingHLL 0 None (Some acc) 0 l in
  putEntry dest e ;;
  addMemory (entrySize dest e).

(** ** Deletion and expiry *)

Definition Store_Delete (keys : list string) : GoM World Z :=
  foldM keys 0 (fun removed key =>
    found ← lookup_key key;
    match found with
    | None => mret removed
    | Some e =>
        expired ← isExpired e;
        removeKey key ;;
        mret (if (expired : bool) then removed else i64 (removed + 1))
    end).

(** One round of active expiry; [break] leaves the loop. *)
Fixpoint expire_loop (keys : list string) (checked deleted : Z) : GoM World Z :=
  match keys with
  | [] => mret deleted
  | key :: keys =>
      if 20 <=? checked then mret deleted
      else
        found ← lookup_key key;
        match found with
        | None => expire_loop keys checked deleted
        | Some e =>
            if IsZero (expiresAt e) then expire_loop keys checked deleted
            else
              expired ← isExpired e;
              if (expired : bool) then removeKey key ;; expire_loop keys (checked + 1) (deleted + 1)
              else expire_loop keys (checked + 1) deleted
        end
  end.

Definition DeleteExpired : GoM World Z :=
  keys ← range_keys; expire_loop keys 0 0.
End operations.
