(* ===== verification/StoreInv.v ===== *)
(** * The store's invariant

    [store_ok] says that every entry's value matches its encoding tag, that
    [usedMemory] is the sum of the sizes of the entries and that the keyspace
    statistic is the number of keys. Each operation is specified by the map it
    leaves behind, and preserves the invariant. *)

From S2P Require Import Prelude GoLib Sds Hll World Lru Store.

Notation dataOf w := (data (Default w)).

Section invariant.
Context `{GoEnv}.

Definition value_ok (e : entry) : Prop :=
  match encoding e with
  | EncodingINT => is_int64 (intVal e)
  | EncodingEMBSTR | EncodingRAW => exists s, strVal e = Some s /\ sds_wf s
  | EncodingHLL => strVal e = None /\ exists h regs, hllVal e = Some h /\ hll_ok h regs
  end.

Definition entry_ok (e : entry) : Prop := value_ok e /\ 0 <= lru e < 2 ^ 24.

(** The bytes the entries of a map account for. *)
Definition total_size (m : gmap string entry) : Z := map_sum entrySize m.

Record store_ok (w : World) : Prop := {
  entries_ok : map_Forall (fun _ => entry_ok) (dataOf w);
  memory_exact : usedMemory (Default w) = i64 (total_size (dataOf w));
  keys_exact : keys_stat w = i64 (Z.of_nat (size (dataOf w)));
  stat_shape : length (KeyspaceStat w) = 4%nat;
  decay_positive : 1 <= LFUDecayTime w;
}.

(** [w'] is a good state with the map [m] and the setup of [w]. *)
Definition becomes (w w' : World) (m : gmap string entry) : Prop :=
  store_ok w' /\ dataOf w' = m /\ same_setup w w'.

Lemma becomes_refl w : store_ok w -> becomes w w (dataOf w).
Proof. intros. split_and!; auto with rediska. Qed.

Lemma becomes_trans w w' w'' m m' : becomes w w' m -> becomes w' w'' m' -> becomes w w'' m'.
Proof. intros (_ & _ & H1) (H2 & H3 & H4). split_and!; [done..|]. by etrans. Qed.

Lemma store_ok_advance n w : store_ok w -> store_ok (advance n w).
Proof. intros []. by split. Qed.

Lemma becomes_advance n w : store_ok w -> becomes w (advance n w) (dataOf w).
Proof. intros. split_and!; [by apply store_ok_advance|done|apply same_setup_advance]. Qed.

(** ** The three ways the map changes *)

(** [UpdateDbStat(0, "keys", v)] *)
Definition add_keys (v : Z) (w : World) : World :=
  set_stat (alter (fun m => <["keys" := i64 (default 0 (m !! "keys") + v)]> m) 0%nat (KeyspaceStat w)) w.

Lemma UpdateDbStat_keys v w :
  length (KeyspaceStat w) = 4%nat -> UpdateDbStat 0 "keys" v w = Val (tt, add_keys v w).
Proof.
  intros Hl. unfold UpdateDbStat, add_keys. change (Z.to_nat 0) with 0%nat.
  destruct (KeyspaceStat w) as [|m ks]; [done|]. done.
Qed.

Lemma keys_stat_add_keys v w :
  length (KeyspaceStat w) = 4%nat -> keys_stat (add_keys v w) = i64 (keys_stat w + v).
Proof.
  intros Hl. unfold keys_stat, add_keys, set_stat. cbn [KeyspaceStat].
  destruct (KeyspaceStat w) as [|m ks]; [done|]. cbn. by rewrite lookup_insert_eq.
Qed.

Lemma store_ok_insert_new w w' k e :
  store_ok w -> entry_ok e -> dataOf w !! k = None ->
  dataOf w' = <[k := e]> (dataOf w) ->
  usedMemory (Default w') = i64 (usedMemory (Default w) + entrySize k e) ->
  KeyspaceStat w' = KeyspaceStat (add_keys 1 w) -> LFUDecayTime w' = LFUDecayTime w ->
  store_ok w'.
Proof.
  intros [He Hm Hk Hs Hd] Hok Hn Hda Hus Hks Hdt. split.
  - rewrite Hda. by apply map_Forall_insert_2.
  - rewrite Hus, Hda, Hm. unfold total_size. rewrite map_sum_insert_None by done.
    rewrite i64_add_l. f_equal. lia.
  - unfold keys_stat. rewrite Hks. change (default 0 _) with (keys_stat (add_keys 1 w)).
    rewrite keys_stat_add_keys by done. rewrite Hk, Hda, map_size_insert_None by done.
    rewrite i64_add_l. f_equal. lia.
  - rewrite Hks. unfold add_keys. cbn [KeyspaceStat set_stat]. by rewrite length_alter.
  - by rewrite Hdt.
Qed.

Lemma store_ok_insert_old w w' k e old :
  store_ok w -> entry_ok e -> dataOf w !! k = Some old ->
  dataOf w' = <[k := e]> (dataOf w) ->
  usedMemory (Default w') = i64 (i64 (usedMemory (Default w) - entrySize k old) + entrySize k e) ->
  KeyspaceStat w' = KeyspaceStat w -> LFUDecayTime w' = LFUDecayTime w ->
  store_ok w'.
Proof.
  intros [He Hm Hk Hs Hd] Hok Hn Hda Hus Hks Hdt. split.
  - rewrite Hda. by apply map_Forall_insert_2.
  - rewrite Hus, Hda, Hm. unfold total_size. rewrite (map_sum_insert_Some _ _ _ _ _ Hn).
    by rewrite i64_add_l, <-i64_add_l, i64_sub_l, i64_add_l.
  - unfold keys_stat. rewrite Hks. change (default 0 _) with (keys_stat w).
    rewrite Hk, Hda, map_size_insert_Some by (by eexists). done.
  - by rewrite Hks.
  - by rewrite Hdt.
Qed.

(** An entry replaced by one of the same size leaves the accounts alone. *)
Lemma store_ok_update w w' k e old :
  store_ok w -> entry_ok e -> dataOf w !! k = Some old -> entrySize k e = entrySize k old ->
  dataOf w' = <[k := e]> (dataOf w) ->
  usedMemory (Default w') = usedMemory (Default w) ->
  KeyspaceStat w' = KeyspaceStat w -> LFUDecayTime w' = LFUDecayTime w ->
  store_ok w'.
Proof.
  intros Hw Hok Hn Hsz Hda Hus Hks Hdt. eapply store_ok_insert_old; try done.
  rewrite Hus, Hsz, i64_add_l. rewrite (memory_exact w Hw).
  replace (_ - _ + _) with (i64 (total_size (dataOf w))) by lia. by rewrite i64_idemp.
Qed.

Lemma removeKey_spec w k :
  store_ok w -> exists w', removeKey k w = Val (tt, w') /\ becomes w w' (delete k (dataOf w)).
Proof.
  intros Hw. unfold removeKey, gets, subMemory, modify, mbind, GoM_bind.
  destruct (dataOf w !! k) as [e|] eqn:Ek.
  - rewrite UpdateDbStat_keys by apply Hw. eexists. split; [done|]. split; [|by split].
    destruct Hw as [He Hm Hk Hs Hd]. split.
    + by apply map_Forall_delete.
    + cbn. rewrite Hm. unfold total_size. by rewrite (map_sum_delete _ _ _ _ Ek), i64_sub_l.
    + rewrite keys_stat_add_keys by done. cbn. rewrite map_size_delete_Some by (by eexists).
      change (keys_stat _) with (keys_stat w). rewrite Hk, i64_add_l. f_equal.
      pose proof (map_size_ne_0_lookup_2 (dataOf w) k ltac:(by eexists)). lia.
    + cbn. by rewrite length_alter.
    + done.
  - exists w. split; [done|]. rewrite delete_id by done. by apply becomes_refl.
Qed.

(** ** Reading entries *)

(** The string a client reads from an entry; a HyperLogLog has none. *)
Definition text (e : entry) : option string :=
  match encoding e with
  | EncodingINT => Some (FormatInt (intVal e))
  | EncodingEMBSTR | EncodingRAW => SDS_String <$> strVal e
  | EncodingHLL => None
  end.

(** What a stored string reads back as: integers are normalised. *)
Definition canonical (v : string) : string :=
  match ParseInt v with Some n => FormatInt n | None => v end.

(** Whether the entry has expired, if the clock is read now. *)
Definition expired_in (w : World) (e : entry) : bool :=
  negb (IsZero (expiresAt e)) && (expiresAt e <=? env_clock (tick w)).

(** The entry of [k], unless it is missing or has expired. *)
Definition live (w : World) (k : string) : option entry :=
  match dataOf w !! k with
  | Some e => if expired_in w e then None else Some e
  | None => None
  end.

Lemma live_Some w k e : live w k = Some e -> dataOf w !! k = Some e /\ expired_in w e = false.
Proof. unfold live. destruct (dataOf w !! k); [|done]. destruct (expired_in w _) eqn:E; [done|]. by intros [= <-]. Qed.

Lemma isExpired_wp e w :
  wp (isExpired e) (fun b w' => b = expired_in w e /\ exists n, w' = advance n w) w.
Proof.
  unfold wp, isExpired, expired_in, now, mbind, GoM_bind, mret, GoM_ret.
  destruct (IsZero (expiresAt e)); simpl.
  - split; [done|]. exists 0%nat. by rewrite advance_0.
  - unfold Before. rewrite Z.leb_antisym. split; [done|]. by exists 1%nat.
Qed.

Lemma removeKey_wp w k :
  store_ok w -> wp (removeKey k) (fun _ w' => becomes w w' (delete k (dataOf w))) w.
Proof. intros Hw. destruct (removeKey_spec w k Hw) as (w' & E & Hb). unfold wp. by rewrite E. Qed.

(** The prologue shared by the operations that look a key up and drop it when it has
    expired: [missing] runs without the key, [found] on its live entry. *)
Lemma lookup_live_wp {A} k (missing : GoM World A) (found : entry -> GoM World A) Q w :
  store_ok w ->
  (live w k = None -> forall w', becomes w w' (delete k (dataOf w)) -> wp missing Q w') ->
  (forall e n, live w k = Some e -> wp (found e) Q (advance n w)) ->
  wp (o ← lookup_key k;
      match o with
      | None => missing
      | Some e => expired ← isExpired e;
                  if (expired : bool) then removeKey k ;; missing else found e
      end) Q w.
Proof.
  unfold live. intros Hw Hm Hf. wp_step. apply wp_gets. destruct (dataOf w !! k) as [e|] eqn:Ek.
  - wp_step. wp_use isExpired_wp. intros b w1 [-> [n ->]]. destruct (expired_in w e).
    + wp_step. wp_use removeKey_wp; [by apply store_ok_advance|]. intros [] w' Hb.
      apply Hm; [done|]. eapply becomes_trans; [by apply (becomes_advance n)|done].
    + by apply Hf.
  - apply Hm; [done|]. rewrite delete_id by done. by apply becomes_refl.
Qed.

Lemma entry_ok_lookup w k e : store_ok w -> dataOf w !! k = Some e -> entry_ok e.
Proof. intros Hw He. by eapply (entries_ok w Hw). Qed.

Lemma entry_ok_lru e l : entry_ok e -> 0 <= l < 2 ^ 24 -> entry_ok (set_entry_lru e l).
Proof. intros [Hv _] Hl. by split. Qed.

(** Restamping an entry, as every read access does. *)
Lemma restamp_wp {A} w k e (K : Z -> GoM World A) Q :
  store_ok w -> dataOf w !! k = Some e ->
  (forall l w', becomes w w' (<[k := set_entry_lru e l]> (dataOf w)) -> wp (K l) Q w') ->
  wp (l ← stampAccess (lru e); putEntry k (set_entry_lru e l) ;; K l) Q w.
Proof.
  intros Hw He HK. wp_step. wp_use reads_wp; [apply stampAccess_reads; by apply decay_positive|].
  intros l w1 (n & -> & Hl). wp_step. apply wp_modify. apply HK. split; [|split; [done|]].
  - eapply (store_ok_update w _ k (set_entry_lru e l) e); try done.
    apply entry_ok_lru; [by eapply entry_ok_lookup|done].
  - split_and!; try done. cbn. lia.
Qed.

(** How a read access leaves the map: the key dropped if it is not live, restamped otherwise. *)
Definition accessed (w : World) (k : string) (m : gmap string entry) : Prop :=
  match live w k with
  | Some e => exists l, m = <[k := set_entry_lru e l]> (dataOf w)
  | None => m = delete k (dataOf w)
  end.

Lemma Store_Get_wp w k :
  store_ok w ->
  wp (Store_Get k) (fun r w' => r = live w k ≫= text /\ exists m, becomes w w' m /\ accessed w k m) w.
Proof.
  intros Hw. apply lookup_live_wp; [done|..].
  - intros Hl w' Hb. apply wp_ret. unfold accessed. rewrite Hl. eauto.
  - intros e n Hl. destruct (live_Some _ _ _ Hl) as [Ek _].
    apply (restamp_wp (advance n w) k e); [by apply store_ok_advance|done|].
    intros l w' Hb. unfold accessed. rewrite Hl. cbn [mbind option_bind encoding set_entry_lru intVal strVal].
    assert (exists m, becomes w w' m /\ exists l, m = <[k := set_entry_lru e l]> (dataOf w)) as Hm.
    { eexists. split; [by eapply becomes_trans, Hb; apply (becomes_advance n)|]. by exists l. }
    pose proof (proj1 (entry_ok_lookup w k e Hw Ek)) as Hv. unfold value_ok, text in *.
    destruct (encoding e); [by split| | |by split]; by destruct Hv as (s & -> & _).
Qed.

Lemma Store_GetInt_wp w k :
  store_ok w ->
  wp (Store_GetInt k) (fun r w' =>
    r = match live w k with
        | Some e => match encoding e with
                    | EncodingINT => (intVal e, true, None, expiresAt e)
                    | _ => (0, true, Some ErrNotInteger, 0)
                    end
        | None => (0, false, None, 0)
        end /\ exists m, becomes w w' m /\ accessed w k m) w.
Proof.
  intros Hw. apply lookup_live_wp; [done|..].
  - intros Hl w' Hb. apply wp_ret. unfold accessed. rewrite Hl. eauto.
  - intros e n Hl. destruct (live_Some _ _ _ Hl) as [Ek _].
    apply (restamp_wp (advance n w) k e); [by apply store_ok_advance|done|].
    intros l w' Hb. unfold accessed. rewrite Hl. cbn [encoding set_entry_lru intVal expiresAt].
    assert (exists m, becomes w w' m /\ exists l, m = <[k := set_entry_lru e l]> (dataOf w)) as Hm.
    { eexists. split; [by eapply becomes_trans, Hb; apply (becomes_advance n)|]. by exists l. }
    by destruct (encoding e).
Qed.

(** How a metadata read leaves the map: an expired key dropped, nothing else changed. *)
Definition inspected (w : World) (k : string) : gmap string entry :=
  match live w k with Some _ => dataOf w | None => delete k (dataOf w) end.

Lemma Store_GetEncoding_wp w k :
  store_ok w ->
  wp (Store_GetEncoding k) (fun r w' => r = encoding <$> live w k /\ becomes w w' (inspected w k)) w.
Proof.
  intros Hw. apply lookup_live_wp; [done|..].
  - intros Hl w' Hb. apply wp_ret. unfold inspected. by rewrite Hl.
  - intros e n Hl. apply wp_ret. unfold inspected. rewrite Hl. split; [done|]. by apply (becomes_advance n).
Qed.

Lemma Store_TTL_wp w k :
  store_ok w ->
  wp (Store_TTL k) (fun r w' =>
    r = match live w k with
        | Some e => if IsZero (expiresAt e) then -1
                    else Z.quot (Milliseconds (TimeSub (expiresAt e) (env_clock (tick w))) + 500) 1000
        | None => -2
        end /\ becomes w w' (inspected w k)) w.
Proof.
  intros Hw. unfold inspected, live, Store_TTL, expired_in. wp_step. apply wp_gets.
  destruct (dataOf w !! k) as [e|] eqn:Ek.
  - destruct (IsZero (expiresAt e)) eqn:Hz; cbn [negb andb].
    { apply wp_ret. rewrite Hz. split; [done|]. by apply becomes_refl. }
    wp_step. wp_use reads_wp; [by apply (reads_now (fun t => t = env_clock (tick w)))|].
    intros t w1 (n & -> & ->). pose proof (TimeSub_pos (expiresAt e) (env_clock (tick w))) as Hp.
    destruct (Z.leb_spec (TimeSub (expiresAt e) (env_clock (tick w))) 0).
    + rewrite (proj2 (Z.leb_le _ _)) by lia. wp_step.
      wp_use removeKey_wp; [by apply store_ok_advance|]. intros [] w' Hb. apply wp_ret. split; [done|].
      eapply becomes_trans; [by apply (becomes_advance n)|done].
    + rewrite (proj2 (Z.leb_gt _ _)) by lia. apply wp_ret. rewrite Hz. split; [done|].
      by apply (becomes_advance n).
  - apply wp_ret. split; [done|]. rewrite delete_id by done. by apply becomes_refl.
Qed.

(** ** Writing entries *)

(** [w1] is [w] prepared for a new entry of [k]: counted if the key is new, its old
    size taken off otherwise. *)
Definition prepared (w : World) (k : string) (w1 : World) : Prop :=
  exists n, w1 = advance n match dataOf w !! k with
                           | None => add_keys 1 w
                           | Some old => upd_memory (fun m => i64 (m - entrySize k old)) w
                           end.

Lemma prepared_advance w k n w1 : prepared w k w1 -> prepared w k (advance n w1).
Proof. intros [m ->]. exists (n + m)%nat. by rewrite advance_advance. Qed.

Lemma prepare_wp w k :
  store_ok w ->
  wp (match dataOf w !! k with
      | None => UpdateDbStat 0 "keys" 1
      | Some old => subMemory (entrySize k old)
      end) (fun _ => prepared w k) w.
Proof.
  intros Hw. unfold prepared. destruct (dataOf w !! k) as [old|].
  - apply wp_modify. exists 0%nat. by rewrite advance_0.
  - unfold wp. rewrite UpdateDbStat_keys by apply Hw. exists 0%nat. by rewrite advance_0.
Qed.

Lemma prepared_finish w k w1 e :
  store_ok w -> prepared w k w1 -> entry_ok e ->
  becomes w (upd_memory (fun m => i64 (m + entrySize k e)) (upd_data (<[k := e]>) w1)) (<[k := e]> (dataOf w)).
Proof.
  intros Hw [n ->] He. destruct (dataOf w !! k) as [old|] eqn:Ek.
  - split_and!; [by eapply (store_ok_insert_old w _ k e old)|done|]; repeat split; cbn; lia.
  - split_and!; [by eapply (store_ok_insert_new w _ k e)|done|]; repeat split; cbn; lia.
Qed.

Lemma ParseInt_FormatInt_canonical v n : ParseInt v = Some n -> canonical v = FormatInt n.
Proof. unfold canonical. by intros ->. Qed.

Lemma newEntry_ok v exp l : 0 <= l < 2 ^ 24 -> entry_ok (newEntry v exp l).
Proof.
  intros Hl. unfold newEntry, detectEncoding. destruct (ParseInt v) as [n|] eqn:E.
  - split; [|done]. cbn. by apply ParseInt_range in E.
  - destruct (_ <=? _); (split; [|done]); eexists; (split; [done|apply SDS_New_wf]).
Qed.

Lemma newEntry_text v exp l : text (newEntry v exp l) = Some (canonical v).
Proof.
  unfold newEntry, detectEncoding, text, canonical. destruct (ParseInt v) as [n|]; [done|].
  by destruct (_ <=? _).
Qed.

Lemma newEntry_expiresAt v exp l : expiresAt (newEntry v exp l) = exp.
Proof. unfold newEntry. by destruct (detectEncoding v). Qed.

(** When a key written now with this [ttl] expires; 0 is never. *)
Definition deadline (w : World) (ttl : Z) : Z := if 0 <? ttl then env_clock (tick w) + ttl else 0.

Lemma Store_Set_wp w k v ttl :
  store_ok w ->
  wp (Store_Set k v ttl)
     (fun _ w' => exists l, becomes w w' (<[k := newEntry v (deadline w ttl) l]> (dataOf w))) w.
Proof.
  intros Hw. unfold Store_Set. wp_step. apply wp_gets. wp_step.
  assert (forall w1, prepared w k w1 -> tick w1 = tick w -> wp
    (expiresAt ← (if 0 <? ttl then (t ← now; mret (TimeAdd t ttl)) else mret 0);
     lru ← stampNew;
     let e := newEntry v expiresAt lru in putEntry k e ;; addMemory (entrySize k e))
    (fun _ w' => exists l, becomes w w' (<[k := newEntry v (deadline w ttl) l]> (dataOf w))) w1) as Hrest.
  { intros w1 Hp Ht. wp_step.
    apply (wp_mono _ (fun x w2 => x = deadline w ttl /\ prepared w k w2)).
    { unfold deadline. destruct (0 <? ttl); [|by apply wp_ret]. wp_step. rewrite <-Ht.
      apply wp_ret. split; [done|]. by apply (prepared_advance w k 1). }
    intros x w2 [-> Hp2]. wp_step. wp_use reads_wp; [apply stampNew_reads|]. intros l w3 (n & -> & Hl).
    wp_step. apply wp_modify, wp_modify. exists l. apply prepared_finish; [done| |by apply newEntry_ok].
    by apply prepared_advance. }
  destruct (dataOf w !! k) as [old|] eqn:Ek.
  - apply wp_modify, Hrest; [|done]. exists 0%nat. by rewrite advance_0, Ek.
  - unfold wp at 1. rewrite UpdateDbStat_keys by apply Hw. apply Hrest; [|done].
    exists 0%nat. by rewrite advance_0, Ek.
Qed.

(** ** Small good states, for the witnesses *)

Lemma World_init_ok : store_ok World_init.
Proof. by split. Qed.

(** A server holding the single key [k], under the given policy. *)
Definition world_with (pol k : string) (e : entry) : World :=
  mkWorld (mkStore {[k := e]} (entrySize k e) [] pol) ({["keys" := 1]} :: replicate 3 ∅) 10 1 None 0.

Lemma world_with_ok pol k e : entry_ok e -> store_ok (world_with pol k e).
Proof.
  intros He. split; cbn [dataOf Default world_with usedMemory KeyspaceStat LFUDecayTime data].
  - by apply map_Forall_singleton.
  - unfold total_size. rewrite <-insert_empty, map_sum_insert_None, map_sum_empty, Z.add_0_r by done.
    unfold entrySize. by rewrite i64_idemp.
  - rewrite map_size_singleton. done.
  - done.
  - done.
Qed.
End invariant.
