(* ===== verification/StoreSpec.v ===== *)
(** * Specifications of the writing operations

    What [Append], the HyperLogLog operations, [Delete] and active expiry do to the
    map, each keeping the invariant of [StoreInv]. *)

From S2P Require Import Prelude GoLib Sds HllSparse Hll World Lru Store StoreInv.

Section specs.
Context `{!GoEnv} `{!GoEnvLaws}.

(** ** APPEND *)

(** On a key that holds a HyperLogLog there is no string to append to. *)
Lemma Store_Append_panics w k v old :
  store_ok w -> dataOf w !! k = Some old -> encoding old = EncodingHLL ->
  Store_Append k v w = Panic NilDereference.
Proof.
  intros Hw Ek He. pose proof (proj1 (entry_ok_lookup w k old Hw Ek)) as Hv.
  unfold value_ok in Hv. rewrite He in Hv. destruct Hv as [Hs _].
  unfold Store_Append, gets, subMemory, modify, lift, mbind, GoM_bind. rewrite Ek, He, Hs. done.
Qed.

(** The SDS that [Append] extends. *)
Lemma append_buffer e s :
  entry_ok e -> text e = Some s ->
  exists b, (match encoding e with
             | EncodingINT => Val (SDS_New (FormatInt (intVal e)))
             | _ => match strVal e with Some b => Val b | None => Panic NilDereference end
             end) = Val b /\ SDS_String b = s.
Proof.
  intros [Hv _] Ht. unfold value_ok, text in *. destruct (encoding e); [| | |done].
  - injection Ht as <-. by eexists.
  - destruct Hv as (b & Hb & _). rewrite Hb in *. injection Ht as <-. by eexists.
  - destruct Hv as (b & Hb & _). rewrite Hb in *. injection Ht as <-. by eexists.
Qed.

Lemma Store_Append_old_wp w k v old s :
  store_ok w -> dataOf w !! k = Some old -> text old = Some s ->
  wp (Store_Append k v) (fun r w' => r = len (s +++ v) /\ exists e,
    becomes w w' (<[k := e]> (dataOf w)) /\ text e = Some (s +++ v) /\ expiresAt e = expiresAt old /\
    encoding e = EncodingRAW) w.
Proof.
  intros Hw Ek Ht. unfold Store_Append. wp_step. apply wp_gets. rewrite Ek.
  wp_step. apply wp_modify. wp_step.
  destruct (append_buffer old s (entry_ok_lookup w k old Hw Ek) Ht) as (b & Hb & Hs).
  eapply wp_lift; [exact Hb|]. cbv zeta. wp_step.
  wp_use reads_wp; [apply stampAccess_reads; by apply (decay_positive w)|].
  intros l w2 (n & -> & Hl). wp_step. apply wp_modify. wp_step. apply wp_modify, wp_ret.
  pose proof (AppendString_String b v) as Hstr. rewrite Hs in Hstr.
  split; [change (len (SDS_String (AppendString b v)) = len (s +++ v)); by rewrite Hstr|].
  eexists. split; [apply prepared_finish; [done| |]|].
  - exists n. by rewrite Ek.
  - split; [|done]. eexists. split; [done|]. apply AppendString_wf.
  - split; [|done]. by rewrite <-Hstr.
Qed.

Lemma Store_Append_new_wp w k v :
  store_ok w -> dataOf w !! k = None ->
  wp (Store_Append k v) (fun r w' => r = len v /\ exists l,
    becomes w w' (<[k := newEntry v 0 l]> (dataOf w))) w.
Proof.
  intros Hw Ek. unfold Store_Append. wp_step. apply wp_gets. rewrite Ek. wp_step.
  wp_use Store_Set_wp; [done|]. intros [] w' [l Hb]. apply wp_ret. split; [done|]. by exists l.
Qed.

(** ** HyperLogLogs *)

(** The entry holds a sketch with these registers. *)
Definition sketch (e : entry) (regs : list Z) : Prop :=
  encoding e = EncodingHLL /\ strVal e = None /\ exists h, hllVal e = Some h /\ hll_ok h regs.

Lemma sketch_ok e regs : sketch e regs -> 0 <= lru e < 2 ^ 24 -> entry_ok e.
Proof.
  intros (He & Hs & h & Hh & Hok) Hl. split; [|done]. unfold value_ok. rewrite He. eauto.
Qed.

Lemma ok_sketch e : entry_ok e -> encoding e = EncodingHLL -> exists regs, sketch e regs.
Proof.
  intros [Hv _] He. unfold value_ok in Hv. rewrite He in Hv. destruct Hv as (Hs & h & regs & Hh & Hok).
  exists regs. split; [done|]. split; [done|]. by exists h.
Qed.

Lemma sketch_inj e regs regs' : sketch e regs -> sketch e regs' -> regs = regs'.
Proof.
  intros (_ & _ & h & Hh & Hok & _) (_ & _ & h' & Hh' & Hok' & _).
  rewrite Hh in Hh'. injection Hh' as <-. by eapply hll_denotes_inj.
Qed.

Lemma Store_PFCount_wp w k :
  store_ok w ->
  wp (Store_PFCount k) (fun r w' => exists m, becomes w w' m /\
    match dataOf w !! k with
    | Some e => if decide (encoding e = EncodingHLL) then
        exists regs e', sketch e regs /\ sketch e' regs /\ expiresAt e' = expiresAt e /\ lru e' = lru e /\
          m = <[k := e']> (dataOf w) /\ r = i64 (estimate (histogram regs))
        else r = 0 /\ m = dataOf w
    | None => r = 0 /\ m = dataOf w
    end) w.
Proof.
  intros Hw. unfold Store_PFCount. wp_step. apply wp_gets.
  pose proof (becomes_refl w Hw) as Hid.
  destruct (dataOf w !! k) as [e|] eqn:Ek; [|apply wp_ret; eauto].
  pose proof (entry_ok_lookup w k e Hw Ek) as Hok.
  destruct (decide (encoding e = EncodingHLL)) as [He|He]; [rewrite He|by destruct (encoding e); eauto using wp_ret].
  destruct (ok_sketch e Hok He) as (regs & Hsk).
  pose proof Hsk as (_ & Hs & h & Hh & Hhok). rewrite Hh.
  destruct (HLL_Count_spec h regs Hhok) as (h' & E & Hok' & _ & Hsz).
  wp_step. eapply wp_lift; [exact E|]. wp_step. apply wp_modify, wp_ret.
  assert (sketch (set_entry_hll e h') regs) as Hsk' by (split; [done|]; split; [done|]; by exists h').
  exists (<[k := set_entry_hll e h']> (dataOf w)). split.
  - split; [|split; [done|]; by split_and!]. eapply (store_ok_update w _ k (set_entry_hll e h') e); try done.
    + eapply sketch_ok; [exact Hsk'|]. apply Hok.
    + unfold entrySize. cbn. rewrite He, Hh. by rewrite Hsz.
  - exists regs, (set_entry_hll e h'). split; [done|]. by split_and!.
Qed.

Lemma sketch_lru e l regs : sketch e regs -> sketch (set_entry_lru e l) regs.
Proof. done. Qed.

(** Adding values to the sketch of an entry. *)
Lemma addValues_wp e regs values c w :
  sketch e regs ->
  wp (addValues e values c) (fun r w' => w' = w /\ sketch r.1 (raise_all regs values) /\ expiresAt r.1 = expiresAt e /\
                        lru r.1 = lru e /\ (r.2 = true <-> c = true \/ raise_all regs values <> regs)) w.
Proof.
  intros Hsk. destruct values as [|v values].
  - apply wp_ret. do 4 (split; [done|]). split; [by left|]. by intros [?|[]].
  - pose proof Hsk as (He & Hs & h & Hh & Hok). unfold addValues. rewrite Hh.
    destruct (HLL_AddAll_ok h regs (v :: values) c Hok) as (h' & c' & E & Hok' & Hc).
    wp_step. eapply wp_lift; [exact E|]. apply wp_ret. split; [done|]. split; [|by split_and!].
    split; [done|]. split; [done|]. by exists h'.
Qed.

(** What PFADD does to the map and answers. *)
Definition pfadd_post (w : World) (k : string) (values : list string) (r : bool + string) (w' : World) : Prop :=
  match live w k with
  | Some e =>
      if decide (encoding e = EncodingHLL) then
        exists regs e' c, sketch e regs /\ sketch e' (raise_all regs values) /\ expiresAt e' = expiresAt e /\
          becomes w w' (<[k := e']> (dataOf w)) /\ r = inl c /\
          (c = true <-> raise_all regs values <> regs)
      else r = inr ErrNotHLL /\ becomes w w' (dataOf w)
  | None =>
      exists e', sketch e' (raise_all zero_regs values) /\ expiresAt e' = 0 /\
        becomes w w' (<[k := e']> (dataOf w)) /\ r = inl true
  end.

(** The part of PFADD after the entry is chosen. *)
Lemma pfadd_finish_wp w k w1 e regs values c Q :
  store_ok w -> prepared w k w1 -> sketch e regs -> 0 <= lru e < 2 ^ 24 ->
  (forall e' (c' : bool) w', sketch e' (raise_all regs values) -> expiresAt e' = expiresAt e ->
     becomes w w' (<[k := e']> (dataOf w)) ->
     (c' = true <-> c = true \/ raise_all regs values <> regs) -> Q (inl c') w') ->
  wp ('(e, changed) ← addValues e values c;
      putEntry k e ;; addMemory (entrySize k e) ;; mret (inl changed : bool + string)) Q w1.
Proof.
  intros Hw Hp Hsk Hl HQ. wp_step. wp_use addValues_wp; [exact Hsk|].
  intros [e' c'] w2 (-> & Hsk' & Hx & Hlr & Hc). cbn [fst snd] in *.
  wp_step. apply wp_modify. wp_step. apply wp_modify, wp_ret. eapply HQ; [done|done| |exact Hc].
  apply prepared_finish; [done|done|]. eapply sketch_ok; [done|]. by rewrite Hlr.
Qed.

Lemma Store_PFAdd_wp w k values :
  store_ok w -> wp (Store_PFAdd k values) (pfadd_post w k values) w.
Proof.
  intros Hw. unfold Store_PFAdd. wp_step. apply wp_gets. wp_step.
  apply (wp_mono _ (fun r w' => r = live w k /\ becomes w w' (inspected w k))).
  { unfold inspected, live. destruct (dataOf w !! k) as [e|] eqn:Ek.
    - wp_step. wp_use isExpired_wp. intros b w1 [-> [n ->]]. destruct (expired_in w e).
      + wp_step. wp_use removeKey_wp; [by apply store_ok_advance|]. intros [] w' Hb. apply wp_ret.
        split; [done|]. eapply becomes_trans; [by apply (becomes_advance n)|done].
      + apply wp_ret. split; [done|]. by apply becomes_advance.
    - apply wp_ret. split; [done|]. rewrite delete_id by done. by apply becomes_refl. }
  intros r w1 [-> Hb]. unfold pfadd_post, inspected in *. destruct (live w k) as [e|] eqn:El.
  - destruct (live_Some _ _ _ El) as [Ek _]. destruct (decide (encoding e = EncodingHLL)) as [He|He].
    + rewrite bool_decide_eq_true_2 by done. cbn [negb].
      destruct (ok_sketch e (entry_ok_lookup w k e Hw Ek) He) as (regs & Hsk). pose proof Hb as (Hw1 & Hd1 & _).
      wp_step. wp_step. apply wp_modify. wp_step.
      wp_use reads_wp; [apply stampAccess_reads; by apply (decay_positive w1)|].
      intros l w2 (n & -> & Hl). apply wp_ret. apply (pfadd_finish_wp w1 _ _ _ regs); [done| |done|done|].
      { exists n. by rewrite Hd1, Ek. }
      intros e' c' w' Hsk' Hx Hb' Hc. exists regs, e', c'. split_and!; [done..| | |].
      * rewrite Hd1 in Hb'. by eapply becomes_trans.
      * done.
      * rewrite Hc. split; [by intros [?|?]|by right].
    + rewrite bool_decide_eq_false_2 by done. by apply wp_ret.
  - cbn [negb]. pose proof Hb as (Hw1 & Hd1 & _).
    assert (dataOf w1 !! k = None) as Ek by (by rewrite Hd1, lookup_delete_eq).
    wp_step. wp_step. wp_use reads_wp; [apply stampNew_reads|]. intros l w2 (n & -> & Hl).
    wp_step. unfold wp at 1. rewrite UpdateDbStat_keys by apply Hw1. apply wp_ret.
    apply (pfadd_finish_wp w1 _ _ _ zero_regs); [done| | |done|].
    { exists n. by rewrite Ek. }
    { split; [done|]. split; [done|]. eexists. split; [done|]. apply HLL_New_ok. }
    intros e' c' w' Hsk' Hx Hb' Hc. exists e'. split_and!; [done..| |].
    + rewrite Hd1, insert_delete_eq in Hb'. by eapply becomes_trans.
    + f_equal. apply Hc. by left.
Qed.

(** [R] gives the registers behind every key; a key without a sketch counts as empty. *)
Definition key_registers (w : World) (R : string -> list Z) : Prop :=
  forall k, match dataOf w !! k with
            | Some e => if decide (encoding e = EncodingHLL) then sketch e (R k) else R k = zero_regs
            | None => R k = zero_regs
            end.

(** The registers of a sketch, computed. *)
Definition hll_regs (h : HLL) : list Z :=
  match enc h with
  | encSparse => default zero_regs (sparse_regs (sparse h))
  | encDense => dense_regs (dense h)
  end.

Lemma hll_regs_denotes h regs : hll_denotes h regs -> hll_regs h = regs.
Proof.
  unfold hll_denotes, hll_regs. destruct (enc h); [by intros (_ & -> & _)|by intros [_ ->]].
Qed.

Lemma key_registers_exists w : store_ok w -> exists R, key_registers w R.
Proof.
  intros Hw. exists (fun k => match dataOf w !! k with
                              | Some e => if decide (encoding e = EncodingHLL)
                                          then from_option hll_regs zero_regs (hllVal e) else zero_regs
                              | None => zero_regs
                              end).
  intros k. destruct (dataOf w !! k) as [e|] eqn:Ek; [|done]. case_decide as He; [|done].
  destruct (ok_sketch e (entry_ok_lookup w k e Hw Ek) He) as (regs & Hsk).
  pose proof Hsk as (_ & _ & h & Hh & Hok). rewrite Hh. cbn. by rewrite (hll_regs_denotes h regs (proj1 Hok)).
Qed.

Definition merge_all (R : string -> list Z) (regs : list Z) (keys : list string) : list Z :=
  foldl (fun regs k => zip_with Z.max regs (R k)) regs keys.

Lemma zip_max_zero_regs h regs : hll_denotes h regs -> zip_with Z.max regs zero_regs = regs.
Proof.
  intros Hh. pose proof (hll_denotes_length h regs Hh) as Hl. pose proof (hll_denotes_range h regs Hh) as Hr.
  apply regs_eq; [|done|].
  - rewrite length_zip_with_l_eq; [done|]. pose proof length_zero_regs. lia.
  - intros i Hi. rewrite lookup_zip_with, lookup_zero_regs by done.
    destruct (regs !! Z.to_nat i) as [v|] eqn:Ev; [|done]. cbn. f_equal.
    pose proof (Forall_lookup_1 _ _ _ _ Hr Ev) as Hv. cbn in Hv. lia.
Qed.

Lemma Store_PFMerge_wp w dest sources R :
  store_ok w -> key_registers w R ->
  wp (Store_PFMerge dest sources) (fun _ w' => exists e,
    sketch e (merge_all R zero_regs (dest :: sources)) /\ expiresAt e = 0 /\
    becomes w w' (<[dest := e]> (dataOf w))) w.
Proof.
  intros Hw HR. unfold Store_PFMerge. wp_step.
  apply (wp_mono _ (fun acc w' => w' = w /\ hll_ok acc (merge_all R zero_regs (dest :: sources)))).
  { eapply wp_mono; [apply (wp_foldM (fun xs acc w' => w' = w /\ exists regs, hll_ok acc regs /\
      merge_all R regs xs = merge_all R zero_regs (dest :: sources)))|].
    - split; [done|]. exists zero_regs. split; [apply HLL_New_ok|done].
    - intros k xs acc w' (-> & regs & Hok & Hm). wp_step. apply wp_gets. specialize (HR k).
      destruct (dataOf w !! k) as [e|].
      + destruct (decide (encoding e = EncodingHLL)) as [He|He].
        * destruct HR as (_ & _ & h & Hh & Hhok). rewrite He, Hh.
          destruct (HLL_Merge_ok acc h regs (R k) Hok (proj1 Hhok)) as (acc' & c & E & Hok').
          wp_step. eapply wp_lift; [exact E|]. apply wp_ret. split; [done|]. by eexists.
        * assert (wp (mret acc) (fun acc w' => w' = w /\ exists regs, hll_ok acc regs /\
            merge_all R regs xs = merge_all R zero_regs (dest :: sources)) w) as Hskip.
          { apply wp_ret. split; [done|]. exists regs. split; [done|]. rewrite <-Hm. unfold merge_all at 2.
            cbn [foldl]. rewrite HR, (zip_max_zero_regs acc) by apply Hok. done. }
          by destruct (encoding e).
      + apply wp_ret. split; [done|]. exists regs. split; [done|]. rewrite <-Hm. unfold merge_all at 2.
        cbn [foldl]. rewrite HR, (zip_max_zero_regs acc) by apply Hok. done.
    - intros acc w' (-> & regs & Hok & Hm). split; [done|]. by rewrite <-Hm. }
  intros acc w' [-> Hok]. wp_step. apply wp_gets. wp_step.
  wp_use prepare_wp; [done|]. intros [] w1 Hp. wp_step. wp_use reads_wp; [apply stampNew_reads|].
  intros l w2 (n & -> & Hl). wp_step. apply wp_modify, wp_modify.
  assert (sketch (mkEntry EncodingHLL 0 None (Some acc) 0 l) (merge_all R zero_regs (dest :: sources))) as Hsk.
  { split; [done|]. split; [done|]. by eexists. }
  eexists. split; [exact Hsk|]. split; [done|].
  apply prepared_finish; [done|by apply prepared_advance|by eapply sketch_ok].
Qed.

(** ** Deletion *)

Definition delete_all (m : gmap string entry) (keys : list string) : gmap string entry :=
  foldl (fun m k => delete k m) m keys.

Lemma lookup_delete_all m keys k :
  delete_all m keys !! k = if decide (k ∈ keys) then None else m !! k.
Proof.
  revert m. induction keys as [|k' keys IH]; intros m; [done|].
  unfold delete_all. cbn [foldl]. change (foldl _ (delete k' m) keys) with (delete_all (delete k' m) keys).
  rewrite IH. destruct (decide (k = k')) as [->|Hne].
  - rewrite lookup_delete_eq. rewrite (decide_True (P := k' ∈ k' :: keys)) by (apply elem_of_cons; by left).
    by case_decide.
  - rewrite lookup_delete_ne by done. repeat case_decide; set_solver.
Qed.

(** No key of the list carries an expiry. *)
Definition persistent (m : gmap string entry) (keys : list string) : Prop :=
  forall k e, k ∈ keys -> m !! k = Some e -> expiresAt e = 0.

Lemma Store_Delete_wp w keys :
  store_ok w ->
  wp (Store_Delete keys) (fun r w' => becomes w w' (delete_all (dataOf w) keys) /\
    (persistent (dataOf w) keys ->
     r = i64 (Z.of_nat (size (dataOf w)) - Z.of_nat (size (delete_all (dataOf w) keys))))) w.
Proof.
  intros Hw. unfold Store_Delete.
  eapply wp_mono; [apply (wp_foldM (fun xs acc w' => exists m, becomes w w' m /\
    delete_all m xs = delete_all (dataOf w) keys /\ (forall k e, m !! k = Some e -> dataOf w !! k = Some e) /\
    (forall k, k ∈ xs -> k ∈ keys) /\
    (persistent (dataOf w) keys -> acc = i64 (Z.of_nat (size (dataOf w)) - Z.of_nat (size m)))))|].
  - exists (dataOf w). split; [by apply becomes_refl|]. split; [done|]. split; [done|]. split; [done|].
    intros _. by rewrite Z.sub_diag.
  - intros k xs acc w' (m & Hb & Hm & Hsub & Hin & Hacc). wp_step. apply wp_gets. pose proof Hb as (Hw' & Hd & _).
    rewrite Hd. destruct (m !! k) as [e|] eqn:Ek.
    + wp_step. wp_use isExpired_wp. intros b w1 [-> [n ->]]. wp_step.
      wp_use removeKey_wp; [by apply store_ok_advance|]. intros [] w2 Hb2. apply wp_ret.
      exists (delete k m). split; [|split; [done|split; [|split]]].
      * eapply becomes_trans; [exact Hb|]. eapply becomes_trans; [by apply (becomes_advance n)|].
        change (dataOf (advance n w')) with (dataOf w') in Hb2. by rewrite Hd in Hb2.
      * intros k' e' He'. apply Hsub. by apply lookup_delete_Some in He' as [_ ?].
      * intros k' Hk'. apply Hin, elem_of_cons. by right.
      * intros Hper. assert (expired_in w' e = false) as ->.
        { unfold expired_in. rewrite (Hper k e); [done|apply Hin, elem_of_cons; by left|by apply Hsub]. }
        rewrite (Hacc Hper), i64_add_l, map_size_delete_Some by (by eexists). f_equal.
        pose proof (map_size_ne_0_lookup_2 m k ltac:(by eexists)). lia.
    + apply wp_ret. exists m. split; [done|]. split; [|split; [done|split; [|done]]].
      * rewrite <-Hm. unfold delete_all. cbn [foldl]. by rewrite delete_id.
      * intros k' Hk'. apply Hin, elem_of_cons. by right.
  - intros acc w' (m & Hb & Hm & _ & _ & Hacc). unfold delete_all at 1 in Hm. cbn [foldl] in Hm. by rewrite Hm in *.
Qed.

(** ** Active expiry *)

Definition has_expiry (m : gmap string entry) (k : string) : Prop :=
  match m !! k with Some e => expiresAt e <> 0 | None => False end.

Global Instance has_expiry_dec m k : Decision (has_expiry m k).
Proof. unfold has_expiry. destruct (m !! k); apply _. Defined.

Lemma expired_in_mono w w' e : (tick w <= tick w')%nat -> expired_in w e = true -> expired_in w' e = true.
Proof.
  intros Ht. unfold expired_in. intros He. apply andb_true_iff in He as [Hz Hc]. rewrite Hz. z_bools.
  pose proof (clock_mono (tick w) (tick w') Ht). apply Z.leb_le. lia.
Qed.

(** What a run of the loop over [keys] has done, having started with [d] deletions. *)
Definition expire_post (w : World) (keys : list string) (c d r : Z) (w' : World) : Prop :=
  exists m, becomes w w' m /\ m ⊆ dataOf w /\
    r = d + (Z.of_nat (size (dataOf w)) - Z.of_nat (size m)) /\
    (forall k e, dataOf w !! k = Some e -> m !! k = None -> expired_in w' e = true) /\
    (c + Z.of_nat (length (filter (has_expiry (dataOf w)) keys)) <= 20 ->
     forall k e, k ∈ keys -> dataOf w !! k = Some e -> expired_in w e = true -> m !! k = None).

Lemma expire_post_skip w c c' d w1 k keys r w' n :
  store_ok w -> w1 = advance n w ->
  c + Z.of_nat (length (filter (has_expiry (dataOf w)) (k :: keys)))
    = c' + Z.of_nat (length (filter (has_expiry (dataOf w)) keys)) ->
  (forall e, dataOf w !! k = Some e -> expired_in w e = false) ->
  expire_post w1 keys c' d r w' -> expire_post w (k :: keys) c d r w'.
Proof.
  intros Hw -> Hc Hne (m & Hb & Hsub & Hr & Hsnd & Hcmp). exists m. split; [|split; [done|split; [done|split; [done|]]]].
  - eapply becomes_trans; [by apply (becomes_advance n)|done].
  - intros Hle k' e Hk' Ek He. apply elem_of_cons in Hk' as [->|Hk'].
    + rewrite (Hne e Ek) in He. done.
    + eapply Hcmp; [|done|done|]; [cbn in *; lia|]. eapply expired_in_mono; [|exact He]. cbn. lia.
Qed.

Lemma expire_post_drop w c d w1 k e keys r w' :
  store_ok w -> dataOf w !! k = Some e -> expired_in w e = true -> becomes w w1 (delete k (dataOf w)) ->
  expire_post w1 keys (c + 1) (d + 1) r w' -> expire_post w (k :: keys) c d r w'.
Proof.
  intros Hw Ek Hx Hb1 (m & Hb & Hsub & Hr & Hsnd & Hcmp). pose proof Hb1 as (_ & Hd1 & _ & _ & _ & _ & _ & Ht1).
  rewrite Hd1 in Hsub, Hr, Hsnd, Hcmp. assert (tick w1 <= tick w')%nat as Ht' by apply Hb.
  assert (has_expiry (dataOf w) k) as Hex.
  { unfold has_expiry. rewrite Ek. unfold expired_in, IsZero in Hx. z_bools. lia. }
  exists m. split; [by eapply becomes_trans|]. split; [|split; [|split]].
  - etrans; [exact Hsub|]. apply delete_subseteq.
  - rewrite Hr, map_size_delete_Some by (by eexists).
    pose proof (map_size_ne_0_lookup_2 (dataOf w) k ltac:(by eexists)). lia.
  - intros k' e' Ek' Hm. destruct (decide (k' = k)) as [->|Hne].
    + rewrite Ek in Ek'. injection Ek' as <-. eapply expired_in_mono; [|exact Hx]. lia.
    + eapply Hsnd; [|exact Hm]. by rewrite lookup_delete_ne.
  - intros Hle k' e' Hk' Ek' He'. destruct (decide (k' = k)) as [->|Hne].
    + eapply lookup_weaken_None; [|exact Hsub]. apply lookup_delete_eq.
    + apply elem_of_cons in Hk' as [->|Hk']; [done|].
      apply (Hcmp) with (e := e'); [|done|by rewrite lookup_delete_ne|].
      * rewrite filter_cons_True in Hle by done. cbn [length] in Hle.
        pose proof (length_filter_mono (has_expiry (delete k (dataOf w))) (has_expiry (dataOf w)) keys) as Hmono.
        assert (forall x, has_expiry (delete k (dataOf w)) x -> has_expiry (dataOf w) x) as Himp.
        { intros x. unfold has_expiry. destruct (decide (x = k)) as [->|]; [by rewrite lookup_delete_eq|].
          by rewrite lookup_delete_ne. }
        specialize (Hmono Himp). lia.
      * eapply expired_in_mono; [|exact He']. lia.
Qed.

Lemma expire_loop_wp keys c d w :
  store_ok w -> wp (expire_loop keys c d) (expire_post w keys c d) w.
Proof.
  revert c d w. induction keys as [|k keys IH]; intros c d w Hw; cbn [expire_loop].
  - apply wp_ret. exists (dataOf w). split; [by apply becomes_refl|]. split; [done|]. split; [lia|].
    split; [congruence|]. intros _ k e Hk. inversion Hk.
  - destruct (Z.leb_spec 20 c) as [Hfull|Hroom].
    { apply wp_ret. exists (dataOf w). split; [by apply becomes_refl|]. split; [done|]. split; [lia|].
      split; [congruence|]. intros Hle k' e Hk' Ek He. exfalso.
      assert (k' ∈ filter (has_expiry (dataOf w)) (k :: keys)) as Hin.
      { apply list_elem_of_filter. split; [|done]. unfold has_expiry. rewrite Ek.
        unfold expired_in, IsZero in He. z_bools. done. }
      destruct (filter _ (k :: keys)); [inversion Hin|]. cbn [length] in Hle. lia. }
    wp_step. apply wp_gets. destruct (dataOf w !! k) as [e|] eqn:Ek.
    + destruct (IsZero (expiresAt e)) eqn:Hz.
      * wp_use IH; [done|]. intros r w'. apply (expire_post_skip w c c d w k keys r w' 0); [done|by rewrite advance_0| |].
        { rewrite filter_cons_False; [done|]. unfold has_expiry. rewrite Ek. unfold IsZero in Hz. z_bools. lia. }
        intros e' He'. rewrite Ek in He'. injection He' as <-. unfold expired_in. by rewrite Hz.
      * assert (has_expiry (dataOf w) k) as Hex.
        { unfold has_expiry. rewrite Ek. unfold IsZero in Hz. by z_bools. }
        wp_step. wp_use isExpired_wp. intros b w1 [-> [n ->]]. destruct (expired_in w e) eqn:Hx.
        -- wp_step. wp_use removeKey_wp; [by apply store_ok_advance|]. intros [] w2 Hb2.
           wp_use IH; [apply Hb2|]. intros r w'. apply (expire_post_drop w c d w2 k e keys r w'); [done|done|done|].
           eapply becomes_trans; [by apply (becomes_advance n)|done].
        -- wp_use IH; [by apply store_ok_advance|]. intros r w'.
           apply (expire_post_skip w c (c + 1) d (advance n w) k keys r w' n); [done|done| |].
           ++ rewrite filter_cons_True by done. cbn [length]. lia.
           ++ intros e' He'. rewrite Ek in He'. by injection He' as <-.
    + wp_use IH; [done|]. intros r w'. apply (expire_post_skip w c c d w k keys r w' 0); [done|by rewrite advance_0| |].
      * rewrite filter_cons_False; [done|]. unfold has_expiry. rewrite Ek. by intros [].
      * intros e He. congruence.
Qed.
End specs.
