(* ===== verification/StoreClaims.v ===== *)
(** * What the store promises

    The theorems a client of the store relies on, each an application of the
    specifications in [StoreInv] and [StoreSpec]. *)

From S2P Require Import Prelude GoLib Sds HllSparse Hll World Lru Store StoreInv StoreSpec.

Section claims.
Context `{!GoEnv} `{!GoEnvLaws}.

(** Writes leave every other key alone. *)
Definition others_kept (k : string) (w w' : World) : Prop :=
  forall k', k' <> k -> dataOf w' !! k' = dataOf w !! k'.

Lemma others_insert k e w w' : dataOf w' = <[k := e]> (dataOf w) -> others_kept k w w'.
Proof. intros Hd k' Hk. by rewrite Hd, lookup_insert_ne. Qed.

Lemma live_after_set w w' k v ttl l :
  (tick w <= tick w')%nat -> dataOf w' = <[k := newEntry v (deadline w ttl) l]> (dataOf w) ->
  live w' k ≫= text
  = if (0 <? ttl) && (env_clock (tick w) + ttl <=? env_clock (tick w')) then None else Some (canonical v).
Proof.
  intros Ht Hd. unfold live, expired_in. rewrite Hd, lookup_insert_eq, newEntry_expiresAt.
  unfold deadline, IsZero. destruct (Z.ltb_spec 0 ttl); [|cbn; apply newEntry_text].
  pose proof (clock_after_epoch (tick w)). rewrite (proj2 (Z.eqb_neq _ _)) by (unfold unixToInternal in *; lia).
  cbn [negb andb]. destruct (_ <=? _); [done|apply newEntry_text].
Qed.

(** C14: A key that was set reads back as the value it was set to, integers in their
    normal form, until the time to live given with it has passed on the clock; after
    that it reads as missing. No other key changes. *)
Theorem set_then_get (w : World) (k v : string) (ttl : Z) :
  store_ok w ->
  exists w' w'', Store_Set k v ttl w = Val (tt, w') /\ store_ok w' /\ others_kept k w w' /\
    Store_Get k w'
    = Val (if (0 <? ttl) && (env_clock (tick w) + ttl <=? env_clock (tick w')) then None
           else Some (canonical v), w'') /\ store_ok w'' /\ others_kept k w w''.
Proof.
  intros Hw. pose proof (Store_Set_wp w k v ttl Hw) as Hs.
  apply wp_Val in Hs as ([] & w' & Es & l & Hw' & Hd & Hset).
  pose proof (Store_Get_wp w' k Hw') as Hg. apply wp_Val in Hg as (r & w'' & Eg & -> & m & (Hw'' & Hd'' & _) & Hacc).
  exists w', w''. split; [done|]. split; [done|]. split; [by eapply others_insert|].
  rewrite Eg, (live_after_set w w' k v ttl l); [|apply Hset|done]. split; [done|]. split; [done|].
  intros k' Hk. rewrite Hd''. unfold accessed in Hacc. destruct (live w' k).
  - destruct Hacc as [l' ->]. rewrite lookup_insert_ne by done. rewrite Hd. by rewrite lookup_insert_ne.
  - rewrite Hacc, lookup_delete_ne by done. rewrite Hd. by rewrite lookup_insert_ne.
Qed.

(** The value read back is the value written for everything but integers, and for
    integers printed the usual way. *)
Theorem canonical_is_identity (v : string) :
  (ParseInt v = None -> canonical v = v) /\
  (forall n, is_int64 n -> canonical (FormatInt n) = FormatInt n) /\
  ParseInt (canonical v) = ParseInt v.
Proof.
  split; [|split].
  - unfold canonical. by intros ->.
  - intros n Hn. unfold canonical. by rewrite ParseInt_FormatInt.
  - unfold canonical. destruct (ParseInt v) as [n|] eqn:E; [|done].
    apply ParseInt_FormatInt. by eapply ParseInt_range.
Qed.

(** A string that denotes an integer in another way than its decimal form is not
    read back as it was written. *)
Theorem set_get_rewrites_integers (w : World) (k : string) :
  store_ok w ->
  exists w' w'', Store_Set k "007" 0 w = Val (tt, w') /\ Store_Get k w' = Val (Some "7", w'').
Proof.
  intros Hw. pose proof (Store_Set_wp w k "007" 0 Hw) as Hs.
  apply wp_Val in Hs as ([] & w' & Es & l & Hw' & Hd & Hset).
  pose proof (Store_Get_wp w' k Hw') as Hg. apply wp_Val in Hg as (r & w'' & Eg & -> & _).
  exists w', w''. split; [done|]. rewrite Eg. by rewrite (live_after_set w w' k "007" 0 l (proj2 (proj2 (proj2 (proj2 (proj2 Hset))))) Hd).
Qed.

(** [Append] on a string or integer key adds the bytes at the end of what a client
    reads, keeps the expiry, answers the new length and touches no other key; on a
    missing key it is [Set] without a time to live. *)
Theorem append_extends (w : World) (k v : string) :
  store_ok w ->
  match dataOf w !! k with
  | None => exists w', Store_Append k v w = Val (len v, w') /\ store_ok w' /\ others_kept k w w' /\
      exists l, dataOf w' !! k = Some (newEntry v 0 l)
  | Some old => forall s, text old = Some s ->
      exists w' e, Store_Append k v w = Val (len (s +++ v), w') /\ store_ok w' /\ others_kept k w w' /\
        dataOf w' !! k = Some e /\ text e = Some (s +++ v) /\ expiresAt e = expiresAt old
  end.
Proof.
  intros Hw. destruct (dataOf w !! k) as [old|] eqn:Ek.
  - intros s Ht. pose proof (Store_Append_old_wp w k v old s Hw Ek Ht) as Ha.
    apply wp_Val in Ha as (r & w' & Ea & -> & e & (Hw' & Hd & _) & Hte & Hxe & _).
    exists w', e. split; [done|]. split; [done|]. split; [by eapply others_insert|].
    rewrite Hd, lookup_insert_eq. done.
  - pose proof (Store_Append_new_wp w k v Hw Ek) as Ha.
    apply wp_Val in Ha as (r & w' & Ea & -> & l & Hw' & Hd & _).
    exists w'. split; [done|]. split; [done|]. split; [by eapply others_insert|].
    exists l. by rewrite Hd, lookup_insert_eq.
Qed.

(** C36: [Append] on a key that holds a HyperLogLog dereferences a nil pointer, and
    with it the server stops. *)
Theorem append_on_hll_panics (w : World) (k v : string) (old : entry) :
  store_ok w -> dataOf w !! k = Some old -> encoding old = EncodingHLL ->
  Store_Append k v w = Panic NilDereference.
Proof. apply Store_Append_panics. Qed.

(** [Append] does not look at the expiry: it extends a value that [Get] already
    reports as missing, and the key stays expired. *)
Theorem append_ignores_expiry (w : World) (k v s : string) (old : entry) :
  store_ok w -> dataOf w !! k = Some old -> text old = Some s -> expired_in w old = true ->
  exists w' w'', Store_Append k v w = Val (len (s +++ v), w') /\ Store_Get k w' = Val (None, w'').
Proof.
  intros Hw Ek Ht Hx. pose proof (Store_Append_old_wp w k v old s Hw Ek Ht) as Ha.
  apply wp_Val in Ha as (r & w' & Ea & -> & e & (Hw' & Hd & Hs) & _ & Hxe & _).
  pose proof (Store_Get_wp w' k Hw') as Hg. apply wp_Val in Hg as (r & w'' & Eg & -> & _).
  exists w', w''. split; [done|]. rewrite Eg. unfold live. rewrite Hd, lookup_insert_eq.
  assert (expired_in w' e = true) as ->; [|done].
  assert (expired_in w' old = true) as Hx' by (eapply expired_in_mono; [apply Hs|done]).
  unfold expired_in in *. by rewrite Hxe.
Qed.

(** [TTL] answers -2 for a missing or expired key, -1 for a key without expiry and
    otherwise the remaining time rounded to the nearest second; it drops an expired key
    and changes nothing else. *)
Theorem ttl_answers (w : World) (k : string) :
  store_ok w ->
  exists w', Store_TTL k w = Val
    (match live w k with
     | None => -2
     | Some e => if IsZero (expiresAt e) then -1
                 else (Z.quot (TimeSub (expiresAt e) (env_clock (tick w))) Millisecond + 500) / 1000
     end, w') /\ store_ok w' /\ dataOf w' = match live w k with Some _ => dataOf w | None => delete k (dataOf w) end.
Proof.
  intros Hw. pose proof (Store_TTL_wp w k Hw) as Ht. apply wp_Val in Ht as (r & w' & E & -> & Hw' & Hd & _).
  exists w'. split; [|by split]. rewrite E. do 2 f_equal.
  destruct (live w k) as [e|] eqn:El; [|done]. destruct (IsZero (expiresAt e)) eqn:Hz; [done|].
  unfold Milliseconds. apply live_Some in El as [_ Hx]. unfold expired_in in Hx. rewrite Hz in Hx. cbn in Hx. z_bools.
  apply TimeSub_pos in Hx. apply Z.lt_le_incl in Hx.
  pose proof (Z.quot_pos _ Millisecond Hx eq_refl). apply Z.quot_div_nonneg; lia.
Qed.

(** [Delete] leaves none of the keys it was given and every other key as it was; if
    none of them carries an expiry it answers how many of them existed. *)
Theorem delete_removes (w : World) (keys : list string) :
  store_ok w ->
  exists r w', Store_Delete keys w = Val (r, w') /\ store_ok w' /\
    (forall k, dataOf w' !! k = if decide (k ∈ keys) then None else dataOf w !! k) /\
    (persistent (dataOf w) keys -> r = i64 (Z.of_nat (size (dataOf w)) - Z.of_nat (size (dataOf w')))).
Proof.
  intros Hw. pose proof (Store_Delete_wp w keys Hw) as Hdel. apply wp_Val in Hdel as (r & w' & E & (Hw' & Hd & _) & Hr).
  exists r, w'. split; [done|]. split; [done|]. rewrite Hd. split; [|done]. intros k. apply lookup_delete_all.
Qed.

(** A round of active expiry removes only expired keys, answers how many, and
    removes all of them if at most 20 keys carry an expiry. *)
Theorem active_expiry_round (w : World) :
  store_ok w ->
  exists r w', DeleteExpired w = Val (r, w') /\ store_ok w' /\ dataOf w' ⊆ dataOf w /\
    r = Z.of_nat (size (dataOf w)) - Z.of_nat (size (dataOf w')) /\
    (forall k e, dataOf w !! k = Some e -> dataOf w' !! k = None -> expired_in w' e = true) /\
    (forall keys, keys ≡ₚ (map_to_list (dataOf w)).*1 ->
       Z.of_nat (length (filter (has_expiry (dataOf w)) keys)) <= 20 ->
       forall k e, dataOf w !! k = Some e -> expired_in w e = true -> dataOf w' !! k = None).
Proof.
  intros Hw. pose proof (expire_loop_wp (env_order (tick w) (map_to_list (dataOf w)).*1) 0 0 (next_tick w)
    (store_ok_advance 1 w Hw)) as Hx.
  apply wp_Val in Hx as (r & w' & E & m & (Hw' & Hd & _) & Hsub & Hr & Hsnd & Hcmp).
  exists r, w'. split; [exact E|]. split; [done|]. rewrite Hd. split; [done|]. split; [cbn in *; lia|].
  split; [exact Hsnd|]. intros keys Hperm Hle k e Ek He. eapply Hcmp; [| |exact Ek|].
  - rewrite (order_perm (tick w)), <-Hperm. cbn in *. lia.
  - rewrite (order_perm (tick w)). apply list_elem_of_fmap. exists (k, e). split; [done|].
    by apply elem_of_map_to_list.
  - eapply expired_in_mono; [|exact He]. cbn. lia.
Qed.

(** PFADD raises the registers of the key's sketch (a fresh one for a missing or
    expired key) by the given elements, answers whether any register changed or the key
    was created, and refuses a key of another type without changing anything. *)
Theorem pfadd_adds (w : World) (k : string) (values : list string) :
  store_ok w ->
  exists r w', Store_PFAdd k values w = Val (r, w') /\ store_ok w' /\
    match live w k with
    | Some e =>
        if decide (encoding e = EncodingHLL) then
          exists regs e' c, sketch e regs /\ dataOf w' = <[k := e']> (dataOf w) /\
            sketch e' (raise_all regs values) /\ expiresAt e' = expiresAt e /\
            r = inl c /\ (c = true <-> raise_all regs values <> regs)
        else r = inr ErrNotHLL /\ dataOf w' = dataOf w
    | None => exists e', dataOf w' = <[k := e']> (dataOf w) /\ sketch e' (raise_all zero_regs values) /\
                         expiresAt e' = 0 /\ r = inl true
    end.
Proof.
  intros Hw. pose proof (Store_PFAdd_wp w k values Hw) as Ha. apply wp_Val in Ha as (r & w' & E & Hp).
  exists r, w'. split; [done|]. unfold pfadd_post in Hp. destruct (live w k) as [e|].
  - destruct (decide (encoding e = EncodingHLL)).
    + destruct Hp as (regs & e' & c & Hs & Hs' & Hx & (Hw' & Hd & _) & Hr & Hc). split; [done|].
      by exists regs, e', c.
    + destruct Hp as (Hr & Hw' & Hd & _). done.
  - destruct Hp as (e' & Hs & Hx & (Hw' & Hd & _) & Hr). split; [done|]. by exists e'.
Qed.

(** PFMERGE then PFCOUNT on the destination answers the estimate of the union: the
    register-wise maximum over the destination and every source, where keys that are
    missing or of another type count as empty. *)
Theorem pfmerge_then_pfcount (w : World) (dest : string) (sources : list string) (R : string -> list Z) :
  store_ok w -> key_registers w R ->
  exists w' w'', Store_PFMerge dest sources w = Val (tt, w') /\ store_ok w' /\ others_kept dest w w' /\
    Store_PFCount dest w'
    = Val (i64 (estimate (histogram (merge_all R zero_regs (dest :: sources)))), w'') /\ store_ok w''.
Proof.
  intros Hw HR. pose proof (Store_PFMerge_wp w dest sources R Hw HR) as Hm.
  apply wp_Val in Hm as ([] & w' & Em & e & Hsk & _ & Hw' & Hd & _).
  pose proof (Store_PFCount_wp w' dest Hw') as Hc. apply wp_Val in Hc as (r & w'' & Ec & m & (Hw'' & _) & Hpost).
  exists w', w''. split; [done|]. split; [done|]. split; [by eapply others_insert|]. split; [|done].
  rewrite Hd, lookup_insert_eq in Hpost. rewrite decide_True in Hpost by apply Hsk.
  destruct Hpost as (regs & e' & Hs & _ & _ & _ & _ & Hr). rewrite Ec, Hr.
  by rewrite (sketch_inj _ _ _ Hs Hsk).
Qed.
End claims.

(** ** Witnesses *)

Section witnesses.
Local Instance witness_env : GoEnv := env_at (unixToInternal + 10 * Second).
Local Instance witness_laws : GoEnvLaws.
Proof. apply env_at_laws. unfold Second. lia. Defined.

(** A fresh sketch under "h". *)
Definition hll_entry : entry := mkEntry EncodingHLL 0 None (Some HLL_New) 0 0.

Lemma hll_entry_sketch : sketch hll_entry zero_regs.
Proof. split; [done|]. split; [done|]. eexists. split; [done|]. apply HLL_New_ok. Qed.

Lemma hll_world_ok : store_ok (world_with "noeviction" "h" hll_entry).
Proof. apply world_with_ok. eapply sketch_ok; [apply hll_entry_sketch|]. cbn. lia. Qed.

(** A string under "k" that expired five seconds ago. *)
Definition stale_entry : entry := newEntry "old" (unixToInternal + 5 * Second) 0.

Lemma stale_world_ok : store_ok (world_with "noeviction" "k" stale_entry).
Proof. apply world_with_ok, newEntry_ok. lia. Qed.

Lemma set_then_get_witness :
  exists w' w'', Store_Set "k" "v" Second World_init = Val (tt, w') /\ Store_Get "k" w' = Val (Some "v", w'').
Proof.
  destruct (set_then_get World_init "k" "v" Second World_init_ok) as (w' & w'' & Hs & _ & _ & Hg & _).
  exists w', w''. split; [exact Hs|]. rewrite Hg. reflexivity.
Defined.

Lemma canonical_is_identity_witness : canonical "vinay" = "vinay" /\ canonical (FormatInt (-12)) = FormatInt (-12).
Proof.
  split.
  - apply (canonical_is_identity "vinay"). reflexivity.
  - apply (canonical_is_identity EmptyString). by vm_compute.
Defined.

Lemma set_get_rewrites_integers_witness :
  exists w' w'', Store_Set "k" "007" 0 World_init = Val (tt, w') /\ Store_Get "k" w' = Val (Some "7", w'').
Proof. apply set_get_rewrites_integers, World_init_ok. Defined.

Lemma append_extends_witness :
  exists w' e, Store_Append "k" "er" (world_with "noeviction" "k" stale_entry) = Val (5, w') /\
    dataOf w' !! "k" = Some e /\ text e = Some "older" /\ expiresAt e = expiresAt stale_entry.
Proof.
  destruct (append_extends (world_with "noeviction" "k" stale_entry) "k" "er" stale_world_ok "old" eq_refl)
    as (w' & e & Ha & _ & _ & Hd & Ht & Hx).
  exists w', e. split; [exact Ha|]. split; [exact Hd|]. split; [exact Ht|exact Hx].
Defined.

Lemma append_on_hll_panics_witness :
  Store_Append "h" "x" (world_with "noeviction" "h" hll_entry) = Panic NilDereference.
Proof. apply (append_on_hll_panics _ "h" "x" hll_entry); [apply hll_world_ok|reflexivity|reflexivity]. Defined.

Lemma append_ignores_expiry_witness :
  exists w' w'', Store_Append "k" "er" (world_with "noeviction" "k" stale_entry) = Val (5, w') /\
    Store_Get "k" w' = Val (None, w'').
Proof.
  apply (append_ignores_expiry _ "k" "er" "old" stale_entry); [apply stale_world_ok|reflexivity..].
Defined.

Lemma ttl_answers_witness :
  exists w', Store_TTL "k" (world_with "noeviction" "k" stale_entry) = Val (-2, w').
Proof.
  destruct (ttl_answers (world_with "noeviction" "k" stale_entry) "k" stale_world_ok) as (w' & Ht & _).
  exists w'. rewrite Ht. reflexivity.
Defined.

Lemma delete_removes_witness :
  exists r w', Store_Delete ["h"; "h"; "x"] (world_with "noeviction" "h" hll_entry) = Val (r, w') /\
    store_ok w' /\
    (forall k, dataOf w' !! k = if decide (k ∈ ["h"; "h"; "x"]) then None
                                else dataOf (world_with "noeviction" "h" hll_entry) !! k).
Proof.
  destruct (delete_removes _ ["h"; "h"; "x"] hll_world_ok) as (r & w' & Hd & Hw' & Hk & _).
  exists r, w'. split; [exact Hd|]. split; [exact Hw'|exact Hk].
Defined.

Lemma active_expiry_round_witness :
  exists r w', DeleteExpired (world_with "noeviction" "k" stale_entry) = Val (r, w') /\ store_ok w' /\
    r = 1 - Z.of_nat (size (dataOf w')).
Proof.
  destruct (active_expiry_round _ stale_world_ok) as (r & w' & Hd & Hw' & _ & Hr & _).
  exists r, w'. split; [exact Hd|]. split; [exact Hw'|exact Hr].
Defined.

Lemma pfadd_adds_witness :
  exists r w', Store_PFAdd "k" ["a"] (world_with "noeviction" "k" stale_entry) = Val (r, w') /\ store_ok w' /\
    exists e', sketch e' (raise_all zero_regs ["a"]) /\ r = inl true.
Proof.
  destruct (pfadd_adds _ "k" ["a"] stale_world_ok) as (r & w' & Ha & Hw' & Hc).
  exists r, w'. split; [exact Ha|]. split; [exact Hw'|].
  assert (live (world_with "noeviction" "k" stale_entry) "k" = None) as Hl by reflexivity.
  rewrite Hl in Hc. destruct Hc as (e' & _ & Hs & _ & Hr). exists e'. split; [exact Hs|exact Hr].
Defined.

Lemma pfmerge_then_pfcount_witness :
  exists w' w'' n, Store_PFMerge "d" ["h"] (world_with "noeviction" "h" hll_entry) = Val (tt, w') /\
    Store_PFCount "d" w' = Val (n, w'').
Proof.
  destruct (pfmerge_then_pfcount (world_with "noeviction" "h" hll_entry) "d" ["h"] (fun _ => zero_regs))
    as (w' & w'' & Hm & _ & _ & Hc & _).
  - apply hll_world_ok.
  - intros k. cbn [dataOf data Default world_with]. destruct (decide (k = "h")) as [->|Hne].
    + rewrite lookup_singleton_eq. rewrite decide_True by reflexivity. apply hll_entry_sketch.
    + rewrite lookup_singleton_ne by congruence. reflexivity.
  - eexists w', w'', _. split; [exact Hm|exact Hc].
Defined.
End witnesses.
