(* ===== verification/Evict.v ===== *)
(** * Eviction (src/store/lru.go)

    The eviction pool and the loop that frees keys until the store is back under
    its limit. [evict_loop] is the Go loop with fuel; it says whether it finished,
    and [evict_loop_finishes] shows that two rounds per key always suffice. *)

From S2P Require Import Prelude GoLib Sds Hll World Lru Store StoreInv.

(** [for k := range s.data { keys = append(keys, k); if len(keys) >= n { break } }] *)
Fixpoint sample_loop (n : Z) (keys acc : list string) : list string :=
  match keys with
  | [] => acc
  | k :: keys =>
      let acc := acc ++ [k] in
      if n <=? Z.of_nat (length acc) then acc else sample_loop n keys acc
  end.

(** The entry read from a map that does not hold the key. *)
Definition zero_entry : entry := mkEntry EncodingINT 0 None None 0 0.

Fixpoint refresh (key : string) (score : Z) (pool : list evictionCandidate) : option (list evictionCandidate) :=
  match pool with
  | [] => None
  | c :: pool =>
      if decide (World.key c = key) then Some (mkCandidate key score :: pool)
      else cons c <$> refresh key score pool
  end.

(** The most keys that can be sampled: a slice of more strings cannot be made. *)
Definition maxSamples : Z := maxAlloc / 16.

Section eviction.
Context `{GoEnv}.

(** [make([]string, 0, n)]: a string header takes 16 bytes. *)
Definition make_keys (n : Z) : GoM World unit :=
  if make_ok 16 n then mret tt else panicking MakeSliceCapOutOfRange.

Definition sampleKeys (n : Z) : GoM World (list string) :=
  make_keys n ;; keys ← range_keys; mret (sample_loop n keys []).

Definition sort_pool (pool : list evictionCandidate) : list evictionCandidate :=
  env_sort evictionCandidate (fun a b => score a <? score b) pool.

(** The pool after [poolInsert(key, score)]. *)
Definition pool_insert (key : string) (score : Z) (pool : list evictionCandidate) : list evictionCandidate :=
  match refresh key score pool with
  | Some pool => sort_pool pool
  | None =>
      let cand := mkCandidate key score in
      if Z.of_nat (length pool) <? EvictionPoolSize then sort_pool (pool ++ [cand])
      else match pool with
           | [] => pool
           | c :: rest => if score <=? World.score c then pool else sort_pool (cand :: rest)
           end
  end.

Definition poolInsert (key : string) (score : Z) : GoM World unit :=
  modify (fun w => set_pool (pool_insert key score (evPool (Default w))) w).

(** [for i := len(s.evPool) - 1; i >= 0; i--]: drop the last candidate until one still exists. *)
Fixpoint evict_from (i : nat) : GoM World unit :=
  match i with
  | O => mret tt
  | S i =>
      pool ← gets (fun w => evPool (Default w));
      match pool !! i with
      | None => panicking IndexOutOfRange
      | Some cand =>
          modify (set_pool (take i pool ++ drop (S i) pool)) ;;
          found ← lookup_key (key cand);
          match found with
          | Some _ => removeKey (key cand)
          | None => evict_from i
          end
      end
  end.

(** The body of the loop of [PerformEvictions]. *)
Definition evict_round (samples : Z) : GoM World unit :=
  keys ← sampleKeys samples;
  forM keys (fun k =>
    e ← gets (fun w => default zero_entry (data (Default w) !! k));
    s ← evictionScore e;
    poolInsert k s) ;;
  n ← gets (fun w => length (evPool (Default w)));
  evict_from n.

(** Whether the loop ended within the fuel. *)
Fixpoint evict_loop (fuel : nat) (samples maxBytes : Z) : GoM World bool :=
  used ← UsedMemory;
  if negb (maxBytes <? used) then mret true
  else
    n ← KeyCount;
    if n =? 0 then mret true
    else match fuel with
         | O => mret false
         | S fuel => evict_round samples ;; evict_loop fuel samples maxBytes
         end.

Definition PerformEvictions (samples maxBytes : Z) : GoM World unit :=
  if maxBytes <=? 0 then mret tt
  else
    let samples := if samples <=? 0 then 5 else samples in
    n ← KeyCount;
    evict_loop (2 * Z.to_nat n + 2) samples maxBytes ;;
    mret tt.
End eviction.

(** ** The pool *)

(** At most 16 candidates with distinct keys, sorted by score. *)
Definition pool_ok (p : list evictionCandidate) : Prop :=
  Z.of_nat (length p) <= EvictionPoolSize /\ NoDup (key <$> p) /\
  StronglySorted (fun a b => score a <= score b) p.

Lemma refresh_None k s p : refresh k s p = None <-> k ∉ key <$> p.
Proof.
  induction p as [|c p IH]; cbn [refresh].
  - split; [intros _; rewrite fmap_nil; by apply not_elem_of_nil|done].
  - rewrite fmap_cons, not_elem_of_cons. case_decide as Hc.
    + split; [done|]. intros [Hne _]. congruence.
    + rewrite fmap_None, IH. naive_solver.
Qed.

Lemma refresh_Some k s p p' :
  refresh k s p = Some p' -> key <$> p' = key <$> p /\ length p' = length p /\ k ∈ key <$> p.
Proof.
  revert p'. induction p as [|c p IH]; intros p'; cbn [refresh]; [done|]. case_decide as Hc.
  - intros [= <-]. rewrite !fmap_cons. cbn. rewrite Hc. split; [done|]. split; [done|]. apply elem_of_cons. by left.
  - intros (q & Hq & ->)%fmap_Some. destruct (IH q Hq) as (Hk & Hl & Hin). rewrite !fmap_cons, Hk. cbn. rewrite Hl.
    split; [done|]. split; [done|]. apply elem_of_cons. by right.
Qed.

Section pool.
Context `{!GoEnv} `{!GoEnvLaws}.

Lemma sort_pool_perm p : sort_pool p ≡ₚ p.
Proof. apply sort_perm. Qed.

Lemma sort_pool_ok p :
  Z.of_nat (length p) <= EvictionPoolSize -> NoDup (key <$> p) -> pool_ok (sort_pool p).
Proof.
  intros Hl Hn. pose proof (sort_pool_perm p) as Hp. split; [by rewrite Hp|]. split; [by rewrite Hp|].
  apply (sort_sorted _ score).
Qed.

Lemma pool_insert_ok k s p : pool_ok p -> pool_ok (pool_insert k s p).
Proof.
  intros (Hl & Hn & Hs). unfold pool_insert. destruct (refresh k s p) as [q|] eqn:Er.
  - apply refresh_Some in Er as (Hk & Hlq & _). apply sort_pool_ok; [lia|]. by rewrite Hk.
  - apply refresh_None in Er. destruct (Z.ltb_spec (Z.of_nat (length p)) EvictionPoolSize).
    + apply sort_pool_ok; [rewrite length_app; cbn; lia|]. rewrite fmap_app. apply NoDup_app. cbn.
      split; [done|]. split; [|by apply NoDup_singleton]. intros x Hx ->%list_elem_of_singleton. done.
    + destruct p as [|c rest]; [done|]. destruct (_ <=? _); [done|]. apply sort_pool_ok; [done|].
      rewrite fmap_cons in *. apply NoDup_cons in Hn as [_ Hn]. apply not_elem_of_cons in Er as [_ Er].
      by apply NoDup_cons.
Qed.

Lemma pool_insert_keys k s p x : x ∈ key <$> pool_insert k s p -> x = k \/ x ∈ key <$> p.
Proof.
  unfold pool_insert. destruct (refresh k s p) as [q|] eqn:Er.
  - apply refresh_Some in Er as (Hk & _ & _). rewrite sort_pool_perm, Hk. by right.
  - destruct (_ <? _).
    + rewrite sort_pool_perm, fmap_app, elem_of_app. intros [?|Hx]; [by right|]. left. cbn in Hx.
      by apply list_elem_of_singleton in Hx.
    + destruct p as [|c rest]; [by right|]. destruct (_ <=? _); [by right|].
      rewrite sort_pool_perm, !fmap_cons, !elem_of_cons. cbn. tauto.
Qed.

Lemma pool_insert_nonempty k s p : pool_insert k s p <> [].
Proof.
  intros Hp. assert (length (pool_insert k s p) = 0%nat) as Hl by (by rewrite Hp). revert Hl. clear Hp.
  unfold pool_insert. destruct (refresh k s p) as [q|] eqn:Er.
  - apply refresh_Some in Er as (_ & Hl & Hin). rewrite sort_pool_perm, Hl. destruct p; [inversion Hin|done].
  - destruct (Z.ltb_spec (Z.of_nat (length p)) EvictionPoolSize).
    + rewrite sort_pool_perm, length_app. cbn. lia.
    + destruct p as [|c rest]; [unfold EvictionPoolSize in *; cbn in *; lia|].
      destruct (_ <=? _); [done|]. rewrite sort_pool_perm. done.
Qed.

(** A candidate that was refused had no more to offer than any that is pooled. *)
Lemma pool_insert_drops k s p :
  pool_ok p -> k ∉ key <$> pool_insert k s p -> Forall (fun c => s <= score c) (pool_insert k s p).
Proof.
  intros (Hl & Hn & Hs) Hk. unfold pool_insert in *. destruct (refresh k s p) as [q|] eqn:Er.
  - apply refresh_Some in Er as (Hkq & _ & Hin). rewrite sort_pool_perm, Hkq in Hk. done.
  - destruct (_ <? _).
    + destruct Hk. rewrite sort_pool_perm, fmap_app, elem_of_app. right. by apply list_elem_of_singleton.
    + destruct p as [|c rest]; [done|]. destruct (Z.leb_spec s (score c)).
      * apply StronglySorted_inv in Hs as [_ Hall]. constructor; [done|].
        eapply Forall_impl; [exact Hall|]. cbn. lia.
      * destruct Hk. rewrite sort_pool_perm, fmap_cons. apply elem_of_cons. by left.
Qed.
End pool.

(** ** One round *)

Lemma sample_loop_spec n keys acc :
  (forall k, k ∈ sample_loop n keys acc -> k ∈ acc \/ k ∈ keys) /\
  (acc <> [] \/ keys <> [] -> sample_loop n keys acc <> []).
Proof.
  revert acc. induction keys as [|k keys IH]; intros acc; cbn [sample_loop].
  - split; [by left|]. by intros [?|[]].
  - destruct (IH (acc ++ [k])) as [Hin Hne]. destruct (_ <=? _).
    + split; [|intros _; by destruct acc]. intros x. set_solver.
    + split; [|intros _; apply Hne; left; by destruct acc].
      intros x Hx. destruct (Hin x Hx) as [Hx'|Hx']; [|right; apply elem_of_cons; by right].
      set_solver.
Qed.

Section rounds.
Context `{!GoEnv} `{!GoEnvLaws}.

Lemma range_keys_spec w :
  exists ks, range_keys w = Val (ks, advance 1 w) /\ forall k, k ∈ ks <-> is_Some (dataOf w !! k).
Proof.
  eexists. split; [done|]. intros k. rewrite (order_perm (tick w)). rewrite list_elem_of_fmap. split.
  - intros ([k' e] & -> & Hin). apply elem_of_map_to_list in Hin. cbn. by eexists.
  - intros [e He]. exists (k, e). split; [done|]. by apply elem_of_map_to_list.
Qed.

(** [w'] is [w] with another pool, some readings of the environment later. *)
Definition repooled (w : World) (p : list evictionCandidate) (w' : World) : Prop :=
  exists n, w' = advance n (set_pool p w).

Lemma repooled_ok w p w' : store_ok w -> repooled w p w' -> store_ok w'.
Proof. intros [] [n ->]. by split. Qed.

Lemma pool_samples_wp w k0 keys :
  pool_ok (evPool (Default w)) ->
  wp (forM (k0 :: keys) (fun k =>
        e ← gets (fun w => default zero_entry (data (Default w) !! k));
        s ← evictionScore e;
        poolInsert k s))
     (fun _ w' => exists p, repooled w p w' /\ pool_ok p /\ p <> [] /\
        forall x, x ∈ key <$> p -> x ∈ k0 :: keys \/ x ∈ key <$> evPool (Default w)) w.
Proof.
  intros Hpool.
  eapply wp_mono; [apply (wp_forM (fun rest w' => exists p, repooled w p w' /\ pool_ok p /\
    (p <> [] \/ rest = k0 :: keys) /\ (forall x, x ∈ rest -> x ∈ k0 :: keys) /\
    forall x, x ∈ key <$> p -> x ∈ k0 :: keys \/ x ∈ key <$> evPool (Default w)))|].
  - exists (evPool (Default w)). split; [exists 0%nat; rewrite advance_0; by destruct w as [[]]|]. split; [done|].
    split; [by right|]. split; [done|]. by right.
  - intros k rest w' (p & [n ->] & Hp & _ & Hin & Hkeys). wp_step. apply wp_gets. wp_step.
    wp_use reads_wp; [apply evictionScore_reads|]. intros s w2 (n2 & -> & _). apply wp_modify.
    exists (pool_insert k s p). split; [by exists (n2 + n)%nat; rewrite advance_advance|].
    split; [by apply pool_insert_ok|]. split; [left; apply pool_insert_nonempty|].
    split; [intros x Hx; apply Hin, elem_of_cons; by right|].
    intros x [->|Hx]%pool_insert_keys; [left; apply Hin, elem_of_cons; by left|by apply Hkeys].
  - intros [] w' (p & Hr & Hp & [Hne|Hne] & _ & Hkeys); [|done]. by exists p.
Qed.

(** [w'] has fewer keys than [w] and is otherwise set up as [w]. *)
Definition same_config (w w' : World) : Prop :=
  policy (Default w') = policy (Default w) /\ LFULogFactor w' = LFULogFactor w /\
  LFUDecayTime w' = LFUDecayTime w /\ aof w' = aof w /\ (tick w <= tick w')%nat.

Lemma same_config_trans w w' w'' : same_config w w' -> same_config w' w'' -> same_config w w''.
Proof. unfold same_config. intros (?&?&?&?&?) (?&?&?&?&?). split_and!; try congruence. lia. Qed.

(** The last candidate of the pool whose key exists is evicted; the ones after it are dropped. *)
Lemma evict_from_wp n w :
  store_ok w -> length (evPool (Default w)) = n ->
  wp (evict_from n) (fun _ w' => store_ok w' /\ same_config w w' /\
    let p := evPool (Default w) in
    ((forall c, c ∈ p -> dataOf w !! key c = None) /\ dataOf w' = dataOf w /\ evPool (Default w') = []) \/
    (exists i c, p !! i = Some c /\ is_Some (dataOf w !! key c) /\
       (forall j c', p !! j = Some c' -> (i < j)%nat -> dataOf w !! key c' = None) /\
       dataOf w' = delete (key c) (dataOf w) /\ evPool (Default w') = take i p)) w.
Proof.
  revert w. induction n as [|n IH]; intros w Hw Hn; cbn [evict_from].
  - apply nil_length_inv in Hn. apply wp_ret. rewrite Hn. split; [done|]. split; [by repeat split|]. left.
    split; [|done]. intros c Hc. inversion Hc.
  - wp_step. apply wp_gets. set (p := evPool (Default w)) in *.
    destruct (lookup_lt_is_Some_2 p n) as [c Hc]; [lia|]. rewrite Hc. wp_step. apply wp_modify.
    assert (take n p ++ drop (S n) p = take n p) as -> by (rewrite drop_ge by lia; apply app_nil_r).
    assert (p = take n p ++ [c]) as Hp.
    { rewrite <-(take_S_r p n c Hc). by rewrite take_ge by lia. }
    wp_step. apply wp_gets. cbn [dataOf Default set_pool upd_store].
    assert (store_ok (set_pool (take n p) w)) as Hw1 by (destruct Hw; by split).
    destruct (dataOf w !! key c) as [e|] eqn:Ec.
    + wp_use removeKey_wp; [done|]. intros [] w' (Hw' & Hd & Hs).
      split; [done|]. split; [by destruct Hs as (_&?&?&?&?&?)|]. right. exists n, c. split; [done|].
      split; [by rewrite Ec|]. split.
      { intros j c' Hj Hlt. apply lookup_lt_Some in Hj. lia. }
      split; [by rewrite Hd|]. by destruct Hs as (-> & _).
    + wp_use IH; [done|cbn; rewrite length_take; lia|].
      intros [] w' (Hw' & Hcf & Hpost). split; [done|]. split; [done|].
      cbn [evPool Default set_pool upd_store dataOf] in Hpost.
      destruct Hpost as [(Hall & Hd & He)|(i & c' & Hi & Hsome & Hafter & Hd & He)]; [left|right].
      * split; [|done]. intros x. rewrite Hp, elem_of_app, list_elem_of_singleton. intros [Hx| ->]; [by apply Hall|done].
      * apply lookup_take_Some in Hi as [Hi Hlt]. exists i, c'. split; [done|]. split; [done|]. split.
        { intros j x Hj Hij. destruct (decide (j < n)%nat).
          - eapply Hafter; [|exact Hij]. by rewrite lookup_take_lt.
          - pose proof (lookup_lt_Some _ _ _ Hj). assert (j = n) as -> by lia. congruence. }
        split; [done|]. rewrite He, take_take. f_equal. lia.
Qed.

Lemma pool_ok_take n p : pool_ok p -> pool_ok (take n p).
Proof.
  intros (Hl & Hn & Hs). split; [rewrite length_take; lia|]. split.
  - rewrite fmap_take. rewrite <-(take_drop n (key <$> p)) in Hn. by apply NoDup_app in Hn as (? & _).
  - clear Hl Hn. revert n. induction Hs as [|c p Hs IH Hc]; intros [|n]; cbn [take]; constructor; [apply IH|].
    by apply Forall_take.
Qed.

Lemma pool_ok_nil : pool_ok [].
Proof. split; [by vm_compute|]. split; constructor. Qed.

Lemma repooled_config w p w' : repooled w p w' -> same_config w w'.
Proof. intros [n ->]. repeat split. cbn. lia. Qed.

Lemma maxAlloc_eq : maxAlloc = 281474976710656.
Proof. reflexivity. Qed.
Lemma maxSamples_eq : maxSamples = 17592186044416.
Proof. reflexivity. Qed.

Lemma make_keys_ok n : 0 <= n <= maxSamples -> make_keys n = mret tt.
Proof.
  unfold make_keys, make_ok. rewrite maxSamples_eq, maxAlloc_eq. intros Hn.
  rewrite (proj2 (Z.leb_le 0 n)), (proj2 (Z.leb_le (n * 16) _)) by lia. done.
Qed.

Lemma make_keys_panics n w : maxSamples < n -> make_keys n w = Panic MakeSliceCapOutOfRange.
Proof.
  unfold make_keys, make_ok. rewrite maxSamples_eq, maxAlloc_eq. intros Hn. rewrite (proj2 (Z.leb_gt (n * 16) _)), andb_false_r by lia. done.
Qed.

(** A round evicts a key, or else empties a pool that held only vanished keys. *)
Lemma evict_round_wp samples w :
  0 <= samples <= maxSamples -> store_ok w -> pool_ok (evPool (Default w)) -> dataOf w <> ∅ ->
  wp (evict_round samples) (fun _ w' => store_ok w' /\ same_config w w' /\ pool_ok (evPool (Default w')) /\
    ((dataOf w' = dataOf w /\ evPool (Default w') = [] /\ evPool (Default w) <> []) \/
     exists k, is_Some (dataOf w !! k) /\ dataOf w' = delete k (dataOf w))) w.
Proof.
  intros Hn Hw Hpool Hne. unfold evict_round, sampleKeys. wp_step. wp_step. rewrite make_keys_ok by done. apply wp_ret. wp_step.
  destruct (range_keys_spec w) as (ks & E & Hks). unfold wp at 1. rewrite E. apply wp_ret.
  destruct (sample_loop_spec samples ks []) as [Hin Hnil].
  assert (ks <> []) as Hksne.
  { apply map_choose in Hne as (k & e & Hk). intros ->. assert (k ∈ @nil string) as Hx by (apply Hks; by eexists).
    inversion Hx. }
  specialize (Hnil (or_intror Hksne)). destruct (sample_loop samples ks []) as [|k0 keys]; [done|].
  wp_step. wp_use pool_samples_wp; [done|]. intros [] w1 (p & Hr & Hp & Hpne & Hkeys).
  wp_step. apply wp_gets. pose proof (repooled_ok (advance 1 w) p w1 (store_ok_advance 1 w Hw) Hr) as Hw1.
  wp_use evict_from_wp; [done|done|]. intros [] w' (Hw' & Hcf & Hpost).
  destruct Hr as [n ->]. cbn [evPool Default advance set_pool upd_store dataOf] in *.
  split; [done|]. split; [eapply same_config_trans, Hcf; repeat split; cbn; lia|].
  destruct Hpost as [(Hall & Hd & He)|(i & c & Hi & Hsome & _ & Hd & He)].
  - rewrite He. split; [apply pool_ok_nil|]. left. split; [done|]. split; [done|]. intros Hnil0.
    destruct p as [|c p]; [done|]. assert (key c ∈ key <$> c :: p) as Hk by (apply elem_of_cons; by left).
    destruct (Hkeys _ Hk) as [Hx|Hx]; [|by rewrite Hnil0 in Hx; inversion Hx].
    destruct (Hin _ Hx) as [Hy|Hy]; [inversion Hy|]. apply Hks in Hy as [e Hy].
    rewrite Hall in Hy; [done|]. apply elem_of_cons. by left.
  - rewrite He. split; [by apply pool_ok_take|]. right. by exists (key c).
Qed.

(** Rounds still needed: two per key, the second for a pool of vanished keys. *)
Definition rounds_left (w : World) : nat :=
  (2 * size (dataOf w) + match evPool (Default w) with [] => 0 | _ => 1 end)%nat.

(** What eviction down to [maxBytes] leaves: a part of the map, under the limit or empty,
    and over the limit again if the key evicted last were put back. *)
Definition eviction_post (maxBytes : Z) (w w' : World) : Prop :=
  store_ok w' /\ pool_ok (evPool (Default w')) /\ same_config w w' /\ dataOf w' ⊆ dataOf w /\
  (usedMemory (Default w') <= maxBytes \/ dataOf w' = ∅) /\
  (dataOf w' = dataOf w \/
   exists k e, dataOf w !! k = Some e /\ dataOf w' !! k = None /\
     maxBytes < i64 (total_size (<[k := e]> (dataOf w')))).

Lemma evict_loop_wp fuel samples maxBytes w :
  0 <= samples <= maxSamples -> store_ok w -> pool_ok (evPool (Default w)) -> (rounds_left w <= fuel)%nat ->
  wp (evict_loop fuel samples maxBytes) (fun r w' => r = true /\ eviction_post maxBytes w w') w.
Proof.
  intros Hn. revert w. induction fuel as [|fuel IH]; intros w Hw Hp Hf; cbn [evict_loop].
  all: wp_step; apply wp_gets; destruct (Z.ltb_spec maxBytes (usedMemory (Default w))) as [Hover|Hunder]; cbn [negb].
  2, 4: apply wp_ret; split; [done|]; (split; [done|]; split; [done|]; split; [by repeat split|];
    split; [done|]; split; by left).
  all: wp_step; apply wp_gets; destruct (Z.eqb_spec (Z.of_nat (size (dataOf w))) 0) as [Hz|Hz].
  1, 3: apply wp_ret; assert (dataOf w = ∅) by (apply map_size_empty_inv; lia);
    split; [done|]; (split; [done|]; split; [done|]; split; [by repeat split|]; split; [done|];
    split; [by right|by left]).
  - exfalso. unfold rounds_left in Hf. lia.
  - assert (dataOf w <> ∅) as Hne by (intros He; rewrite He, map_size_empty in Hz; done).
    wp_step. wp_use evict_round_wp; [done|done|done|done|]. intros [] w1 (Hw1 & Hcf & Hp1 & Hcase).
    assert (rounds_left w1 <= fuel)%nat as Hf1.
    { unfold rounds_left in *. destruct Hcase as [(-> & -> & Hpne)|(k & Hk & ->)].
      - destruct (evPool (Default w)); [done|lia].
      - rewrite map_size_delete_Some by done. destruct (evPool (Default w1)); lia. }
    wp_use IH; [done|done|done|]. intros r w' (-> & Hw' & Hp' & Hcf' & Hsub & Hlim & Hmin). split; [done|].
    split; [done|]. split; [done|]. split; [by eapply same_config_trans|].
    destruct Hcase as [(Hd & _ & _)|(k & [e Hk] & Hd)]; rewrite Hd in *; [by split_and!|].
    split; [etrans; [exact Hsub|apply delete_subseteq]|]. split; [done|]. right. destruct Hmin as [Hsame|(k' & e' & Hk' & Hgone & Hbig)].
    + exists k, e. rewrite Hsame, lookup_delete_eq, insert_delete_id by done. split; [done|]. split; [done|].
      by rewrite <-(memory_exact w Hw).
    + exists k', e'. apply lookup_delete_Some in Hk' as [_ Hk']. done.
Qed.

Lemma PerformEvictions_wp samples maxBytes w :
  samples <= maxSamples -> store_ok w -> pool_ok (evPool (Default w)) -> 0 < maxBytes ->
  wp (PerformEvictions samples maxBytes) (fun _ w' =>
    eviction_post maxBytes w w' /\ usedMemory (Default w') <= maxBytes) w.
Proof.
  intros Hn Hw Hp Hm. unfold PerformEvictions. rewrite (proj2 (Z.leb_gt maxBytes _)) by lia.
  wp_step. apply wp_gets. wp_step. wp_use evict_loop_wp; [|done|done| |].
  { rewrite maxSamples_eq in *. destruct (Z.leb_spec samples 0); lia. }
  { unfold rounds_left. rewrite Nat2Z.id. destruct (evPool (Default w)); lia. }
  intros r w' (_ & Hpost). apply wp_ret. split; [done|].
  destruct Hpost as (Hw' & _ & _ & _ & [?|He] & _); [done|].
  rewrite (memory_exact w' Hw'), He. unfold total_size. rewrite map_sum_empty.
  rewrite i64_small by (unfold is_int64, MinInt64, MaxInt64; lia). lia.
Qed.

(** Nothing happens below the limit. *)
Lemma PerformEvictions_under samples maxBytes w :
  usedMemory (Default w) <= maxBytes -> PerformEvictions samples maxBytes w = Val (tt, w).
Proof.
  intros Hbelow. unfold PerformEvictions. destruct (Z.leb_spec maxBytes 0); [done|].
  unfold KeyCount, gets, mbind, GoM_bind. rewrite Nat.add_comm. cbn [plus evict_loop].
  unfold UsedMemory, gets, mbind, GoM_bind, mret, GoM_ret. by rewrite (proj2 (Z.ltb_ge _ _)).
Qed.

(** With more samples than a slice can hold, eviction ends only if there is nothing to do. *)
Lemma PerformEvictions_oversampled samples maxBytes w w' :
  maxSamples < samples -> store_ok w -> 0 < maxBytes -> PerformEvictions samples maxBytes w = Val (tt, w') ->
  usedMemory (Default w) <= maxBytes.
Proof.
  intros Hn Hw Hm. unfold PerformEvictions. rewrite (proj2 (Z.leb_gt maxBytes _)) by lia.
  rewrite (proj2 (Z.leb_gt samples _)) by (rewrite maxSamples_eq in *; lia).
  unfold KeyCount, gets, mbind at 1, GoM_bind at 1. rewrite Nat.add_comm. cbn [plus evict_loop].
  unfold UsedMemory, KeyCount, gets, mbind, GoM_bind, mret, GoM_ret.
  destruct (Z.ltb_spec maxBytes (usedMemory (Default w))) as [Hover|]; cbn [negb]; [|done].
  destruct (Z.eqb_spec (Z.of_nat (size (data (Default w)))) 0) as [Hz|Hz].
  - exfalso. assert (dataOf w = ∅) as He by (apply map_size_empty_inv; lia).
    rewrite (memory_exact w Hw), He in Hover. unfold total_size in Hover. rewrite map_sum_empty in Hover.
    rewrite i64_small in Hover by (unfold is_int64, MinInt64, MaxInt64; lia). lia.
  - unfold evict_round, sampleKeys, mbind, GoM_bind. by rewrite make_keys_panics.
Qed.

(** C16: Eviction terminates, whatever keys the samples hit, and ends at or below the
    limit, unless so many samples are asked for that their slice cannot be made. It only removes keys, keeps the invariants, does nothing below the limit, and
    stops as soon as it can: with the last evicted key the store would still be over. *)
Theorem eviction_reaches_limit (samples maxBytes : Z) (w : World) :
  samples <= maxSamples -> store_ok w -> pool_ok (evPool (Default w)) -> 0 < maxBytes ->
  (forall fuel, 0 <= samples -> (rounds_left w <= fuel)%nat ->
     exists w', evict_loop fuel samples maxBytes w = Val (true, w')) /\
  exists w', PerformEvictions samples maxBytes w = Val (tt, w') /\
    store_ok w' /\ pool_ok (evPool (Default w')) /\
    usedMemory (Default w') <= maxBytes /\ dataOf w' ⊆ dataOf w /\
    (usedMemory (Default w) <= maxBytes -> w' = w) /\
    (dataOf w' = dataOf w \/
     exists k e, dataOf w !! k = Some e /\ dataOf w' !! k = None /\
       maxBytes < i64 (total_size (<[k := e]> (dataOf w')))).
Proof.
  intros Hn Hw Hp Hm. split.
  - intros fuel Hn0 Hf. pose proof (evict_loop_wp fuel samples maxBytes w (conj Hn0 Hn) Hw Hp Hf) as Hrun.
    apply wp_Val in Hrun as (r & w' & E & -> & _). by exists w'.
  - pose proof (PerformEvictions_wp samples maxBytes w Hn Hw Hp Hm) as Hrun.
    apply wp_Val in Hrun as ([] & w' & E & (Hw' & Hp' & _ & Hsub & _ & Hmin) & Hle).
    exists w'. split_and!; try done. intros Hbelow. rewrite PerformEvictions_under in E by done. by injection E as <-.
Qed.

(** C32: Of the pooled candidates whose key still exists, the one with the highest score
    is evicted, and only it. *)
Theorem eviction_takes_most_evictable (w : World) (c : evictionCandidate) :
  store_ok w -> pool_ok (evPool (Default w)) ->
  c ∈ evPool (Default w) -> is_Some (dataOf w !! key c) ->
  exists w' best, evict_from (length (evPool (Default w))) w = Val (tt, w') /\
    best ∈ evPool (Default w) /\ is_Some (dataOf w !! key best) /\
    dataOf w' = delete (key best) (dataOf w) /\ score c <= score best.
Proof.
  intros Hw (_ & _ & Hsorted) Hc Hlive. pose proof (evict_from_wp _ w Hw eq_refl) as Hrun.
  apply wp_Val in Hrun as ([] & w' & E & _ & _ & [(Hall & _)|(i & best & Hi & Hbest & Hafter & Hd & _)]).
  - rewrite (Hall c Hc) in Hlive. by destruct Hlive.
  - exists w', best. split; [done|]. split; [by eapply list_elem_of_lookup_2|]. split; [done|]. split; [done|].
    apply list_elem_of_lookup in Hc as [j Hj]. destruct (decide (i < j)%nat) as [Hij|Hij].
    + rewrite (Hafter j c Hj Hij) in Hlive. by destruct Hlive.
    + destruct (decide (i = j)) as [->|Hne]; [rewrite Hi in Hj; injection Hj as ->; lia|].
      eapply (sorted_lookup score); [exact Hsorted| |exact Hj|exact Hi]. lia.
Qed.
End rounds.

Lemma eviction_reaches_limit_witness :
  let e := env_at unixToInternal in
  let w := world_with "allkeys-lru" "k" (newEntry "1" 0 0) in
  10 < usedMemory (Default w) /\
  exists w', PerformEvictions 5 10 w = Val (tt, w') /\ usedMemory (Default w') <= 10.
Proof.
  intros e w. split; [by vm_compute|].
  destruct (@eviction_reaches_limit e (env_at_laws _ (Z.le_refl _)) 5 10 w) as [_ (w' & E & _ & _ & Hle & _)].
  - rewrite maxSamples_eq. lia.
  - apply world_with_ok, newEntry_ok. lia.
  - apply pool_ok_nil.
  - lia.
  - exists w'. split; [exact E|exact Hle].
Defined.

Lemma eviction_takes_most_evictable_witness :
  let e := env_at unixToInternal in
  let w := set_pool [mkCandidate "k" 5; mkCandidate "gone" 12]
             (world_with "allkeys-lru" "k" (newEntry "1" 0 0)) in
  exists w' best, evict_from 2 w = Val (tt, w') /\
    best ∈ evPool (Default w) /\ is_Some (dataOf w !! key best) /\
    dataOf w' = delete (key best) (dataOf w) /\ 5 <= score best.
Proof.
  intros e w.
  apply (@eviction_takes_most_evictable e w (mkCandidate "k" 5)).
  - assert (store_ok (world_with "allkeys-lru" "k" (newEntry "1" 0 0))) as Hw
      by (apply world_with_ok, newEntry_ok; lia).
    destruct Hw. by split.
  - split; [by vm_compute|]. split.
    + cbn. apply NoDup_cons. split; [set_solver|apply NoDup_singleton].
    + repeat constructor. cbn. lia.
  - cbn. set_solver.
  - by eexists.
Defined.
