(* ===== verification/Slot.v ===== *)
(** * Hash slots (src/cluster/slot.go)

    CRC16-XMODEM through a table, proved to be the remainder of the key, as a polynomial
    over GF(2), by [x^16 + x^12 + x^5 + 1]; and the slot of a key with its hash tag. *)

From S2P Require Import Prelude GoLib.

Definition NumSlots : Z := 16384.

(** One round of the loop that builds the table. *)
Definition crc_bit (crc : Z) : Z :=
  if negb (Z.land crc 0x8000 =? 0) then Z.lxor (u16 (Z.shiftl crc 1)) 0x1021 else u16 (Z.shiftl crc 1).

(** [crc16tab[i]] *)
Definition crc16_entry (i : Z) : Z := Nat.iter 8 crc_bit (u16 (Z.shiftl i 8)).

Definition crc16tab : list Z := crc16_entry <$> seqZ 0 256.

Definition crc_byte (crc b : Z) : Z :=
  Z.lxor (u16 (Z.shiftl crc 8)) (crc16tab !!! Z.to_nat (Z.lxor (u8 (Z.shiftr crc 8)) b)).

Definition CRC16 (s : string) : Z := foldl crc_byte 0 (bytes_of s).

(** [indexByte]; [s] is what follows position [i]. *)
Fixpoint index_loop (s : string) (c : ascii) (i : Z) : Z :=
  match s with
  | EmptyString => -1
  | String a s => if decide (a = c) then i else index_loop s c (i + 1)
  end.

Definition indexByte (s : string) (c : ascii) (from : Z) : Z :=
  index_loop (drop_bytes (Z.to_nat from) s) c from.

(** [s[lo:hi]] for bounds inside the string. *)
Definition slice (s : string) (lo hi : Z) : string :=
  match take_bytes (Z.to_nat (hi - lo)) (drop_bytes (Z.to_nat lo) s) with
  | Some (a, _) => a
  | None => EmptyString
  end.

(** The part of the key that is hashed. *)
Definition hash_part (key : string) : string :=
  let open := indexByte key "{" 0 in
  if 0 <=? open then
    let close := indexByte key "}" (open + 1) in
    if open + 1 <? close then slice key (open + 1) close else key
  else key.

Definition KeyHashSlot (key : string) : Z := Z.land (CRC16 (hash_part key)) (NumSlots - 1).

(** ** The checksum CRC16-XMODEM is named after

    A polynomial over GF(2) is the number whose bit [i] is the coefficient of [x^i]:
    addition is [Z.lxor], and multiplication by [x^e] is a shift by [e]. *)

(** The exponents of [x^16 + x^12 + x^5 + 1]. *)
Definition xmodem : list Z := [16; 12; 5; 0].

(** The product of [q] with the polynomial of exponents [g]. *)
Definition poly_mul (g : list Z) (q : Z) : Z := foldr (fun e acc => Z.lxor (Z.shiftl q e) acc) 0 g.

(** The key as one number, its first byte the most significant. *)
Definition message (s : string) : Z := foldl (fun m b => m * 256 + b) 0 (bytes_of s).

(** [r] is the remainder of [m * x^16] divided by the polynomial; the initial value is 0
    and nothing is added at the end. *)
Definition crc_remainder (m r : Z) : Prop :=
  0 <= r < 2 ^ 16 /\ exists q, 0 <= q /\ Z.shiftl m 16 = Z.lxor (poly_mul xmodem q) r.

(** ** The table computes eight rounds at once *)

Definition crc_rounds (crc b : Z) : Z := Nat.iter 8 crc_bit (Z.lxor crc (Z.shiftl b 8)).

Definition is_u16 (z : Z) : Prop := 0 <= z < 65536.

Lemma is_u16_bits z : is_u16 z <-> 0 <= z /\ forall i, 16 <= i -> Z.testbit z i = false.
Proof.
  split.
  - intros Hz. split; [apply Hz|]. intros i Hi. by apply (testbit_above z 16).
  - intros [Hz Hb]. split; [done|]. destruct (decide (z = 0)) as [->|]; [lia|].
    assert (Z.log2 z < 16) as Hl.
    { destruct (Z.ltb_spec (Z.log2 z) 16) as [|Hge]; [done|]. specialize (Hb _ Hge). by rewrite (Z.bit_log2 z) in Hb by lia. }
    apply Z.log2_lt_pow2 in Hl; lia.
Qed.

Lemma is_u16_lxor a b : is_u16 a -> is_u16 b -> is_u16 (Z.lxor a b).
Proof.
  rewrite !is_u16_bits. intros [Ha Ha'] [Hb Hb']. split; [by apply Z.lxor_nonneg|].
  intros i Hi. by rewrite Z.lxor_spec, Ha', Hb'.
Qed.

Lemma land_bit15 z : negb (Z.land z 0x8000 =? 0) = Z.testbit z 15.
Proof.
  change 0x8000 with (2 ^ 15). destruct (Z.testbit z 15) eqn:E.
  - apply negb_true_iff, Z.eqb_neq. intros H. apply (f_equal (fun x => Z.testbit x 15)) in H.
    rewrite Z.land_spec, E, Z.pow2_bits_true, Z.bits_0 in H by lia. done.
  - apply negb_false_iff, Z.eqb_eq, Z.bits_inj'. intros i Hi. rewrite Z.land_spec, Z.pow2_bits_eqb, Z.bits_0 by lia.
    destruct (Z.eqb_spec 15 i) as [<-|]; [by rewrite E|apply andb_false_r].
Qed.

Lemma crc_bit_eq z :
  crc_bit z = Z.lxor (u16 (Z.shiftl z 1)) (if Z.testbit z 15 then 0x1021 else 0).
Proof. unfold crc_bit. rewrite land_bit15. destruct (Z.testbit z 15); [done|]. by rewrite Z.lxor_0_r. Qed.

Lemma u16_shiftl_lxor a b k :
  0 <= k -> u16 (Z.shiftl (Z.lxor a b) k) = Z.lxor (u16 (Z.shiftl a k)) (u16 (Z.shiftl b k)).
Proof.
  intros Hk. apply Z.bits_inj'. intros i Hi. rewrite Z.lxor_spec, !testbit_u16, !Z.shiftl_spec, Z.lxor_spec by done.
  by destruct (i <? 16).
Qed.

(** The bit step is linear over exclusive or. *)
Lemma crc_bit_lxor a b : crc_bit (Z.lxor a b) = Z.lxor (crc_bit a) (crc_bit b).
Proof.
  rewrite !crc_bit_eq, u16_shiftl_lxor, Z.lxor_spec by lia.
  apply Z.bits_inj'. intros i Hi. rewrite !Z.lxor_spec.
  destruct (Z.testbit a 15), (Z.testbit b 15); cbn [xorb]; rewrite ?Z.bits_0;
    destruct (Z.testbit (u16 (Z.shiftl a 1)) i), (Z.testbit (u16 (Z.shiftl b 1)) i), (Z.testbit 0x1021 i); done.
Qed.

Lemma iter_crc_bit_lxor n a b :
  Nat.iter n crc_bit (Z.lxor a b) = Z.lxor (Nat.iter n crc_bit a) (Nat.iter n crc_bit b).
Proof.
  induction n as [|n IH]; [done|]. change (Nat.iter (S n) crc_bit ?x) with (crc_bit (Nat.iter n crc_bit x)).
  by rewrite IH, crc_bit_lxor.
Qed.

(** A low byte is only shifted by eight rounds. *)
Lemma iter_crc_bit_low n x :
  0 <= x < 256 -> (n <= 8)%nat -> Nat.iter n crc_bit x = Z.shiftl x (Z.of_nat n).
Proof.
  intros Hx. induction n as [|n IH]; intros Hn; [done|].
  change (Nat.iter (S n) crc_bit x) with (crc_bit (Nat.iter n crc_bit x)). rewrite IH by lia.
  rewrite crc_bit_eq, Z.shiftl_spec by lia. rewrite (testbit_above x 8 (15 - Z.of_nat n)) by lia.
  rewrite Z.lxor_0_r, Z.shiftl_shiftl by lia. replace (Z.of_nat n + 1) with (Z.of_nat (S n)) by lia.
  apply u16_small. rewrite Z.shiftl_mul_pow2 by lia.
  assert (0 < 2 ^ Z.of_nat (S n) <= 2 ^ 8) by (split; [lia|apply Z.pow_le_mono_r; lia]). nia.
Qed.

Lemma crc_split crc : is_u16 crc -> crc = Z.lxor (Z.shiftl (crc / 256) 8) (crc mod 256).
Proof.
  intros Hc. apply Z.bits_inj'. intros i Hi. change 256 with (2 ^ 8). rewrite <-Z.shiftr_div_pow2 by lia.
  rewrite Z.lxor_spec, Z.shiftl_spec by done. destruct (Z.ltb_spec i 8).
  - rewrite Z.mod_pow2_bits_low by lia. by rewrite (Z.testbit_neg_r _ (i - 8)) by lia.
  - rewrite Z.mod_pow2_bits_high by lia. rewrite Z.shiftr_spec by lia. rewrite xorb_false_r. f_equal. lia.
Qed.

Lemma crc16tab_lookup i : 0 <= i < 256 -> crc16tab !!! Z.to_nat i = crc16_entry i.
Proof.
  intros Hi. unfold crc16tab. apply list_lookup_total_correct. rewrite list_lookup_fmap, lookup_seqZ_lt by lia.
  rewrite Z2Nat.id by lia. done.
Qed.

Lemma is_byte_lxor a b : 0 <= a < 256 -> 0 <= b < 256 -> 0 <= Z.lxor a b < 256.
Proof.
  intros Ha Hb. assert (forall z, 0 <= z < 256 -> u8 z = z) as Hu by (intros; by apply u8_small).
  rewrite <-(Hu a Ha), <-(Hu b Hb).
  assert (Z.lxor (u8 a) (u8 b) = u8 (Z.lxor a b)) as ->; [|apply u8_range].
  apply Z.bits_inj'. intros i Hi. rewrite Z.lxor_spec, !testbit_u8, Z.lxor_spec by done. by destruct (i <? 8).
Qed.

Lemma crc_byte_correct crc b : is_u16 crc -> 0 <= b < 256 -> crc_byte crc b = crc_rounds crc b.
Proof.
  intros Hc Hb. unfold crc_byte, crc_rounds. unfold is_u16 in Hc.
  rewrite Z.shiftr_div_pow2 by lia. change (2 ^ 8) with 256.
  assert (0 <= crc / 256 < 256) as Hhi by zdm. assert (0 <= crc mod 256 < 256) as Hlo by zdm.
  rewrite (u8_small (crc / 256)) by done. pose proof (is_byte_lxor _ _ Hhi Hb) as Hx.
  rewrite crc16tab_lookup by done. unfold crc16_entry.
  rewrite (u16_small (Z.shiftl (Z.lxor (crc / 256) b) 8)) by (rewrite Z.shiftl_mul_pow2 by lia; lia).
  assert (Z.lxor crc (Z.shiftl b 8) = Z.lxor (crc mod 256) (Z.shiftl (Z.lxor (crc / 256) b) 8)) as ->.
  { rewrite (crc_split crc Hc) at 1. rewrite Z.shiftl_lxor, <-!Z.lxor_assoc. f_equal. apply Z.lxor_comm. }
  rewrite iter_crc_bit_lxor, (iter_crc_bit_low 8 (crc mod 256)) by (done || lia). f_equal.
  change (Z.of_nat 8) with 8. rewrite !Z.shiftl_mul_pow2 by lia. unfold u16. zdm.
Qed.

Lemma crc_bit_u16 z : is_u16 (crc_bit z).
Proof.
  rewrite crc_bit_eq. apply is_u16_lxor; [apply u16_range|]. unfold is_u16. destruct (Z.testbit z 15); lia.
Qed.

Lemma crc_byte_u16 crc b : is_u16 crc -> 0 <= b < 256 -> is_u16 (crc_byte crc b).
Proof.
  intros Hc Hb. rewrite crc_byte_correct by done. unfold crc_rounds.
  change (Nat.iter 8 crc_bit ?x) with (crc_bit (Nat.iter 7 crc_bit x)). apply crc_bit_u16.
Qed.

Lemma crc_fold_correct bs crc :
  Forall (fun b => 0 <= b < 256) bs -> is_u16 crc ->
  foldl crc_byte crc bs = foldl crc_rounds crc bs /\ is_u16 (foldl crc_byte crc bs).
Proof.
  intros Hbs. revert crc. induction Hbs as [|b bs Hb Hbs IH]; intros crc Hc; cbn [foldl]; [done|].
  rewrite <-(crc_byte_correct crc b) by done. by apply IH, crc_byte_u16.
Qed.

Lemma CRC16_u16 s : is_u16 (CRC16 s).
Proof. apply crc_fold_correct; [apply bytes_of_range|]. unfold is_u16. lia. Qed.

(** ** The rounds divide by the polynomial *)

Lemma poly_mul_lxor g a b : poly_mul g (Z.lxor a b) = Z.lxor (poly_mul g a) (poly_mul g b).
Proof.
  unfold poly_mul. induction g as [|e g IH]; cbn [foldr]; [done|]. rewrite IH, Z.shiftl_lxor. apply Z.bits_inj'. intros i Hi.
  rewrite !Z.lxor_spec. by repeat destruct (Z.testbit _ i).
Qed.

Lemma poly_mul_shiftl q k : 0 <= k -> poly_mul xmodem (Z.shiftl q k) = Z.shiftl (poly_mul xmodem q) k.
Proof.
  intros Hk. unfold xmodem, poly_mul. cbn [foldr]. rewrite !Z.shiftl_lxor, Z.shiftl_0_l, !Z.shiftl_shiftl by lia.
  by rewrite !(Z.add_comm k).
Qed.

(** The top bit of a product is the top bit of [q], sixteen places up. *)
Lemma poly_mul_top q : 0 < q -> Z.testbit (poly_mul xmodem q) (Z.log2 q + 16) = true.
Proof.
  intros Hq. pose proof (Z.log2_nonneg q). unfold xmodem, poly_mul. cbn [foldr].
  rewrite !Z.lxor_spec, !Z.shiftl_spec, Z.bits_0 by lia. rewrite Z.add_simpl_r, Z.bit_log2 by done.
  by rewrite !Z.bits_above_log2 by lia.
Qed.

(** [a] and [r] differ by a multiple of the polynomial. *)
Definition congruent (a r : Z) : Prop := exists q, 0 <= q /\ a = Z.lxor (poly_mul xmodem q) r.

Lemma congruent_refl a : congruent a a.
Proof. exists 0. split; [done|]. change (poly_mul xmodem 0) with 0. by rewrite Z.lxor_0_l. Qed.

Lemma congruent_trans a b c : congruent a b -> congruent b c -> congruent a c.
Proof.
  intros (q & Hq & ->) (q' & Hq' & ->). exists (Z.lxor q q'). split; [by apply Z.lxor_nonneg|].
  by rewrite poly_mul_lxor, Z.lxor_assoc.
Qed.

Lemma congruent_shiftl a b k : 0 <= k -> congruent a b -> congruent (Z.shiftl a k) (Z.shiftl b k).
Proof.
  intros Hk (q & Hq & ->). exists (Z.shiftl q k). split; [by apply Z.shiftl_nonneg|].
  by rewrite poly_mul_shiftl, Z.shiftl_lxor.
Qed.

Lemma congruent_lxor a b x : congruent a b -> congruent (Z.lxor a x) (Z.lxor b x).
Proof. intros (q & Hq & ->). exists q. split; [done|]. by rewrite Z.lxor_assoc. Qed.

(** One round multiplies by [x] and takes the polynomial off when [x^16] appears. *)
Lemma crc_bit_congruent z : is_u16 z -> congruent (Z.shiftl z 1) (crc_bit z).
Proof.
  rewrite is_u16_bits. intros [Hz Hb]. exists (if Z.testbit z 15 then 1 else 0). split; [by destruct (Z.testbit z 15)|].
  rewrite crc_bit_eq, (Z.lxor_comm (u16 _)), <-Z.lxor_assoc.
  transitivity (Z.lxor (if Z.testbit z 15 then 2 ^ 16 else 0) (u16 (Z.shiftl z 1))).
  - apply Z.bits_inj'. intros i Hi. rewrite Z.lxor_spec, testbit_u16, !Z.shiftl_spec by done.
    destruct (Z.ltb_spec i 16), (decide (i = 16)) as [->|]; try lia.
    + destruct (Z.testbit z 15); rewrite ?Z.pow2_bits_false, ?Z.bits_0 by lia; by rewrite xorb_false_l.
    + rewrite andb_false_l, xorb_false_r. change (16 - 1) with 15.
      destruct (Z.testbit z 15); [by rewrite Z.pow2_bits_true|by rewrite Z.bits_0].
    + rewrite andb_false_l, xorb_false_r, Hb by lia.
      destruct (Z.testbit z 15); [by rewrite Z.pow2_bits_false by lia|by rewrite Z.bits_0].
  - by destruct (Z.testbit z 15).
Qed.

Lemma iter_crc_bit_congruent n z :
  is_u16 z -> congruent (Z.shiftl z (Z.of_nat n)) (Nat.iter n crc_bit z) /\ is_u16 (Nat.iter n crc_bit z).
Proof.
  intros Hz. induction n as [|n [IH IHu]]; [split; [apply congruent_refl|done]|].
  change (Nat.iter (S n) crc_bit z) with (crc_bit (Nat.iter n crc_bit z)). split; [|apply crc_bit_u16].
  apply (congruent_trans _ (Z.shiftl (Nat.iter n crc_bit z) 1)); [|by apply crc_bit_congruent].
  replace (Z.of_nat (S n)) with (Z.of_nat n + 1) by lia. rewrite <-Z.shiftl_shiftl by lia.
  by apply congruent_shiftl.
Qed.

(** Reading one more byte: the remainder of [m] gives the remainder of [m * 256 + b]. *)
Lemma crc_rounds_congruent m crc b :
  is_u16 crc -> 0 <= b < 256 -> congruent (Z.shiftl m 16) crc ->
  congruent (Z.shiftl (m * 256 + b) 16) (crc_rounds crc b).
Proof.
  intros Hc Hb Hm. assert (is_u16 (Z.shiftl b 8)) as Hb8.
  { unfold is_u16. rewrite Z.shiftl_mul_pow2 by lia. lia. }
  assert (Z.shiftl (m * 256 + b) 16 = Z.shiftl (Z.lxor (Z.shiftl m 16) (Z.shiftl b 8)) 8) as ->.
  { rewrite Z.shiftl_lxor, !Z.shiftl_shiftl by lia. change (16 + 8) with (8 + 16). change (8 + 8) with 16.
    rewrite <-(Z.shiftl_shiftl m 8 16), <-Z.shiftl_lxor by lia. f_equal.
    rewrite <-Z.add_nocarry_lxor; [by rewrite Z.shiftl_mul_pow2 by lia|].
    apply Z.bits_inj'. intros i Hi. rewrite Z.land_spec, Z.shiftl_spec, Z.bits_0 by done.
    destruct (Z.ltb_spec i 8); [by rewrite Z.testbit_neg_r by lia|].
    by rewrite (testbit_above b 8 i), andb_false_r by lia. }
  apply (congruent_trans _ (Z.shiftl (Z.lxor crc (Z.shiftl b 8)) 8)).
  - by apply congruent_shiftl, congruent_lxor; [lia|].
  - apply (iter_crc_bit_congruent 8). by apply is_u16_lxor.
Qed.

Lemma crc_fold_congruent bs m crc :
  Forall (fun b => 0 <= b < 256) bs -> is_u16 crc -> congruent (Z.shiftl m 16) crc ->
  congruent (Z.shiftl (foldl (fun m b => m * 256 + b) m bs) 16) (foldl crc_byte crc bs).
Proof.
  intros Hbs. revert m crc. induction Hbs as [|b bs Hb Hbs IH]; intros m crc Hc Hm; cbn [foldl]; [done|].
  apply IH; [by apply crc_byte_u16|]. rewrite crc_byte_correct by done. by apply crc_rounds_congruent.
Qed.

Lemma CRC16_remainder s : crc_remainder (message s) (CRC16 s).
Proof.
  split; [apply CRC16_u16|].
  apply crc_fold_congruent; [apply bytes_of_range|unfold is_u16; lia|apply congruent_refl].
Qed.

(** Division by the polynomial has one remainder. *)
Lemma crc_remainder_unique m r r' : crc_remainder m r -> crc_remainder m r' -> r = r'.
Proof.
  intros [Hr (q & Hq & E)] [Hr' (q' & Hq' & E')]. rewrite E in E'.
  assert (poly_mul xmodem (Z.lxor q q') = Z.lxor r r') as Hd.
  { rewrite poly_mul_lxor. apply Z.bits_inj'. intros i Hi. apply (f_equal (fun z => Z.testbit z i)) in E'.
    rewrite !Z.lxor_spec in *. revert E'. by repeat destruct (Z.testbit _ i). }
  apply Z.lxor_eq_0_iff. destruct (decide (Z.lxor q q' = 0)) as [E0|Hne].
  { rewrite E0 in Hd. by rewrite <-Hd. }
  assert (0 <= Z.lxor q q') by (by apply Z.lxor_nonneg). pose proof (Z.log2_nonneg (Z.lxor q q')).
  pose proof (poly_mul_top (Z.lxor q q') ltac:(lia)) as Ht.
  assert (is_u16 (Z.lxor r r')) as Hx by (by apply is_u16_lxor).
  rewrite Hd, (testbit_above _ 16) in Ht by (apply Hx || lia). done.
Qed.

(** C31: The table-driven checksum of a key is its CRC16-XMODEM, and nothing else is: the
    number [r] the code computes is the one remainder of at most sixteen bits that the
    key's bytes, read as one polynomial over GF(2) and multiplied by [x^16], leave when
    divided by [x^16 + x^12 + x^5 + 1]. *)
Theorem crc16_is_xmodem (s : string) (r : Z) : CRC16 s = r <-> crc_remainder (message s) r.
Proof.
  split; [intros <-; apply CRC16_remainder|]. intros Hr. exact (crc_remainder_unique _ _ _ (CRC16_remainder s) Hr).
Qed.

Example crc16_check_value : CRC16 "123456789" = 0x31C3.
Proof. reflexivity. Qed.

(** Every key has a slot between 0 and 16383. *)
Theorem key_slot_in_range (key : string) : 0 <= KeyHashSlot key < NumSlots.
Proof.
  unfold KeyHashSlot. change (NumSlots - 1) with (Z.ones 14). rewrite Z.land_ones by lia.
  by apply Z.mod_pos_bound.
Qed.

(** ** Hash tags *)

Lemma index_loop_first p c s i :
  not_in c p = true -> index_loop (p +++ String c s) c i = i + len p.
Proof.
  revert i. induction p as [|a p IH]; intros i Hp; cbn [String.append index_loop].
  - rewrite decide_True by done. rewrite len_nil. lia.
  - cbn [not_in] in Hp. apply andb_true_iff in Hp as [Ha Hp]. apply negb_true_iff, bool_decide_eq_false_1 in Ha.
    rewrite decide_False by congruence. rewrite IH by done. rewrite len_cons. lia.
Qed.

Lemma drop_bytes_app a b : drop_bytes (String.length a) (a +++ b) = b.
Proof. induction a; [by destruct b|done]. Qed.

Lemma to_nat_len s : Z.to_nat (len s) = String.length s.
Proof. unfold len. lia. Qed.

Lemma hash_part_tag p tag r :
  not_in "{" p = true -> not_in "}" tag = true -> tag <> EmptyString ->
  hash_part (p +++ String "{" (tag +++ String "}" r)) = tag.
Proof.
  intros Hp Ht Hne. set (key := (p +++ _)). unfold hash_part.
  assert (indexByte key "{" 0 = len p) as ->.
  { unfold indexByte. change (drop_bytes (Z.to_nat 0) key) with key. unfold key. by rewrite index_loop_first. }
  assert (drop_bytes (Z.to_nat (len p + 1)) key = tag +++ String "}" r) as Hdrop.
  { replace (Z.to_nat (len p + 1)) with (String.length (p +++ "{")).
    - unfold key. replace (p +++ String "{" (tag +++ String "}" r)) with ((p +++ "{") +++ (tag +++ String "}" r)).
      + apply drop_bytes_app.
      + by rewrite append_assoc'.
    - rewrite length_append'. unfold len. cbn [String.length]. lia. }
  pose proof (len_nonneg p). rewrite (proj2 (Z.leb_le _ _)) by done.
  assert (indexByte key "}" (len p + 1) = len p + 1 + len tag) as ->.
  { unfold indexByte. rewrite Hdrop. by apply index_loop_first. }
  assert (0 < len tag) by (destruct tag; [done|]; rewrite len_cons; pose proof (len_nonneg tag); lia).
  rewrite (proj2 (Z.ltb_lt _ _)) by lia. unfold slice. rewrite Hdrop.
  replace (Z.to_nat _) with (String.length tag) by (unfold len; lia). by rewrite take_bytes_app.
Qed.

(** Keys with the same hash tag are in the same slot, the slot of the tag itself,
    whatever surrounds the tag. *)
Theorem same_tag_same_slot (p p' tag r r' : string) :
  not_in "{" p = true -> not_in "{" p' = true -> not_in "}" tag = true -> tag <> EmptyString ->
  KeyHashSlot (p +++ String "{" (tag +++ String "}" r)) = KeyHashSlot (p' +++ String "{" (tag +++ String "}" r')) /\
  KeyHashSlot (p +++ String "{" (tag +++ String "}" r)) = Z.land (CRC16 tag) (NumSlots - 1).
Proof. intros Hp Hp' Ht Hne. unfold KeyHashSlot. by rewrite !hash_part_tag. Qed.

Lemma same_tag_same_slot_witness :
  KeyHashSlot "{user1000}.following" = KeyHashSlot "foo{user1000}.followers" /\
  KeyHashSlot "{user1000}.following" = Z.land (CRC16 "user1000") (NumSlots - 1).
Proof.
  apply (same_tag_same_slot EmptyString "foo" "user1000" ".following" ".followers");
    [reflexivity|reflexivity|reflexivity|discriminate].
Defined.
