(* ===== verification/Layout.v ===== *)
(** * The cluster layout (src/cluster/config.go)

    The nodes of the cluster and who owns each slot. Nodes are compared by address
    of the object in the source; here a node is its position in [Nodes]. *)

From S2P Require Import Prelude GoLib Slot.

Record SlotRange := mkSlotRange { Start : Z; End : Z }.

Record Node := mkNode {
  Name : string;
  Addr : string;
  Port : Z;
  ID : string;
  Slots : list SlotRange;
}.

(** [owner] has one element per slot: the position of the owning node, if any. *)
Record Layout := mkLayout {
  Nodes : list Node;
  Self : nat;
  owner : list (option nat);
}.

Definition Owner (l : Layout) (slot : Z) : option nat :=
  if (slot <? 0) || (NumSlots <=? slot) then None
  else default None (owner l !! Z.to_nat slot).

(** Every slot has an entry, and every entry and [Self] name a node of the list. *)
Definition layout_ok (l : Layout) : Prop :=
  Z.of_nat (length (owner l)) = NumSlots /\ is_Some (Nodes l !! Self l) /\
  forall slot i, owner l !! slot = Some (Some i) -> is_Some (Nodes l !! i).
