(* ===== verification/Sha1.v ===== *)
(** * SHA-1 and node identifiers (crypto/sha1 and encoding/hex as nodeID of src/cluster/config.go uses them) *)

From S2P Require Import Prelude GoLib.

(** ** crypto/sha1 *)

(** [bits.RotateLeft32] *)
Definition rotl32 (k x : Z) : Z := Z.lor (u32 (Z.shiftl x k)) (Z.shiftr (u32 x) (32 - k)).

(** A chunk of [n] elements at a time. *)
Fixpoint chunks {A} (fuel n : nat) (l : list A) : list (list A) :=
  match fuel, l with
  | S fuel, _ :: _ => take n l :: chunks fuel n (drop n l)
  | _, _ => []
  end.

(** Big-endian words and bytes. *)
Definition be_word (bytes : list Z) : Z := foldl (fun acc b => acc * 256 + b) 0 bytes.
Definition be_bytes (n : nat) (w : Z) : list Z := (fun i => (w / 256 ^ (Z.of_nat i)) mod 256) <$> reverse (seq 0 n).

(** The message, a one bit, zeros up to eight bytes short of a block, and its length in bits. *)
Definition sha1_pad (msg : list Z) : list Z :=
  let n := Z.of_nat (length msg) in
  msg ++ [128] ++ replicate (Z.to_nat ((55 - n) mod 64)) 0 ++ be_bytes 8 (u64 (8 * n)).

(** The message schedule, latest word first. *)
Fixpoint sha1_schedule (rounds : nat) (w : list Z) : list Z :=
  match rounds with
  | O => w
  | S rounds =>
      let at_ i := default 0 (w !! i) in
      sha1_schedule rounds
        (rotl32 1 (Z.lxor (Z.lxor (at_ 2%nat) (at_ 7%nat)) (Z.lxor (at_ 13%nat) (at_ 15%nat))) :: w)
  end.

(** The round function and constant of round [i]. *)
Definition sha1_f (i b c d : Z) : Z :=
  if i <? 20 then Z.lor (Z.land b c) (Z.land (Z.lxor b (2 ^ 32 - 1)) d)
  else if i <? 40 then Z.lxor b (Z.lxor c d)
  else if i <? 60 then Z.lor (Z.land (Z.lor b c) d) (Z.land b c)
  else Z.lxor b (Z.lxor c d).

Definition sha1_k (i : Z) : Z :=
  if i <? 20 then 0x5A827999 else if i <? 40 then 0x6ED9EBA1 else if i <? 60 then 0x8F1BBCDC else 0xCA62C1D6.

Definition sha1_state : Type := Z * Z * Z * Z * Z.

Fixpoint sha1_rounds (i : Z) (w : list Z) (s : sha1_state) : sha1_state :=
  match w with
  | [] => s
  | x :: w =>
      let '(a, b, c, d, e) := s in
      sha1_rounds (i + 1) w (u32 (rotl32 5 a + sha1_f i b c d + e + x + sha1_k i), a, rotl32 30 b, c, d)
  end.

Definition sha1_block (s : sha1_state) (block : list Z) : sha1_state :=
  let w := reverse (sha1_schedule 64 (reverse (be_word <$> chunks 16 4 block))) in
  let '(a, b, c, d, e) := s in
  let '(a', b', c', d', e') := sha1_rounds 0 w s in
  (u32 (a + a'), u32 (b + b'), u32 (c + c'), u32 (d + d'), u32 (e + e')).

Definition sha1_Sum (data : list Z) : list Z :=
  let padded := sha1_pad data in
  let '(a, b, c, d, e) :=
    foldl sha1_block (0x67452301, 0xEFCDAB89, 0x98BADCFE, 0x10325476, 0xC3D2E1F0)
      (chunks (length padded) 64 padded) in
  concat (be_bytes 4 <$> [a; b; c; d; e]).

(** ** encoding/hex *)

Definition hex_digit (d : Z) : ascii := Z_byte (if d <? 10 then 48 + d else 87 + d).

Fixpoint EncodeToString (bytes : list Z) : string :=
  match bytes with
  | [] => EmptyString
  | b :: bytes => String (hex_digit (b / 16)) (String (hex_digit (b mod 16)) (EncodeToString bytes))
  end.

(** ** nodeID *)

Definition nodeID (name : string) : string := EncodeToString (sha1_Sum (bytes_of name)).

(** The test vectors of FIPS 180-1: one block, and a padding that needs a second one. *)
Example sha1_abc : EncodeToString (sha1_Sum (bytes_of "abc")) = "a9993e364706816aba3e25717850c26c9cd0d89d".
Proof. vm_compute. reflexivity. Qed.

Example sha1_two_blocks :
  EncodeToString (sha1_Sum (bytes_of "abcdbcdecdefdefgefghfghighijhijkijkljklmklmnlmnomnopnopq"))
  = "84983e441c3bd26ebaae4aa1f95129e5e54670f1".
Proof. vm_compute. reflexivity. Qed.

Lemma EncodeToString_length bytes : String.length (EncodeToString bytes) = (2 * length bytes)%nat.
Proof. induction bytes as [|b bytes IH]; [done|]. cbn [EncodeToString String.length length]. rewrite IH. lia. Qed.

(** The comment on [Node.ID]: 40 characters. *)
Lemma nodeID_length name : String.length (nodeID name) = 40%nat.
Proof.
  unfold nodeID. rewrite EncodeToString_length. unfold sha1_Sum. by destruct (foldl _ _ _) as [[[[a b] c] d] e].
Qed.
