(* ===== verification/Commands.v ===== *)
(** * The commands (src/commands/)

    Parsing of requests, the table that says which arguments are keys, the
    handlers, and the cluster check. A handler takes the arguments and returns the
    encoded reply. The settings and the cluster layout do not change after startup
    and are parameters of the section. *)

From S2P Require Import Prelude GoLib Resp Sds Hll World Lru Store Slot Layout.

(** ** Requests *)

Record Command := mkCommand { cmdName : string; Args : list string }.

(** The verb [%T]. *)
Definition type_name (v : value) : string :=
  match v with VString _ => "string" | VInt _ => "int64" | VArray _ => "[]interface {}" end.

(** [parts[i], ok = v.(string)] for each element, from index [i]. *)
Fixpoint command_parts (i : Z) (arr : list value) : list string + string :=
  match arr with
  | [] => inl []
  | VString s :: arr =>
      match command_parts (i + 1) arr with
      | inl parts => inl (s :: parts)
      | inr e => inr e
      end
  | v :: _ => inr ("expected bulk string at index " +++ Itoa i +++ ", got " +++ type_name v)
  end.

Definition ParseCommand `{GoEnv} (decoded : value) : Command + string :=
  match decoded with
  | VArray arr =>
      match command_parts 0 arr with
      | inr e => inr e
      | inl [] => inr "empty command"
      | inl (name :: args) => inl (mkCommand (ToUpper name) args)
      end
  | v => inr ("expected array, got " +++ type_name v)
  end.

(** ** Which arguments are keys *)

Record KeySpec := mkKeySpec { First : Z; Last : Z; Step : Z }.

Definition noKeys : KeySpec := mkKeySpec 0 0 0.

Definition keySpecs : list (string * KeySpec) :=
  [("GET", mkKeySpec 1 1 1); ("SET", mkKeySpec 1 1 1); ("EXPIRE", mkKeySpec 1 1 1);
   ("TTL", mkKeySpec 1 1 1); ("INCR", mkKeySpec 1 1 1); ("APPEND", mkKeySpec 1 1 1);
   ("PFADD", mkKeySpec 1 1 1); ("PFCOUNT", mkKeySpec 1 (-1) 1); ("PFMERGE", mkKeySpec 1 (-1) 1);
   ("DEL", mkKeySpec 1 (-1) 1); ("OBJECT", mkKeySpec 2 2 1); ("PING", noKeys); ("INFO", noKeys);
   ("DEBUG", noKeys); ("CLUSTER", noKeys); ("_EXPIRY", noKeys)].

Fixpoint assoc {A} (name : string) (l : list (string * A)) : option A :=
  match l with
  | [] => None
  | (n, a) :: l => if string_eqb n name then Some a else assoc name l
  end.

(** [for pos := spec.First; pos <= last && pos < argc; pos += spec.Step]; the loop runs
    at most once per argument, since every spec with keys has a positive step. *)
Fixpoint keys_loop (fuel : nat) (args : list string) (pos last step : Z) : list string :=
  match fuel with
  | O => []
  | S fuel =>
      if (pos <=? last) && (pos <? Z.of_nat (length args) + 1) then
        match args !! Z.to_nat (pos - 1) with
        | Some k => k :: keys_loop fuel args (pos + step) last step
        | None => []
        end
      else []
  end.

(** [None] is an unknown command. *)
Definition KeysOf (cmd : Command) : option (list string) :=
  match assoc (cmdName cmd) keySpecs with
  | None => None
  | Some spec =>
      if First spec =? 0 then Some []
      else
        let argc := Z.of_nat (length (Args cmd)) + 1 in
        let last := if Last spec <? 0 then argc + Last spec else Last spec in
        Some (keys_loop (S (length (Args cmd))) (Args cmd) (First spec) last (Step spec))
  end.

(** ** Settings *)

Record Config := mkConfig {
  MaxMemory : Z;
  MaxMemoryPolicy : string;
  MaxMemorySamples : Z;
  ClusterEnabled : bool;
}.

Definition HandlerFunc : Type := list string -> GoM World string.

Section handlers.
Context `{GoEnv} (cfg : Config) (Current : option Layout).

(** ** The cluster check *)

(** [None] if the keys can be served here, otherwise the error reply. *)
Definition checkKeys (keys : list string) : option string :=
  match Current with
  | None => None
  | Some layout =>
      match keys with
      | [] => None
      | k0 :: rest =>
          let slot := KeyHashSlot k0 in
          if existsb (fun k => negb (KeyHashSlot k =? slot)) rest then
            Some (EncodeError "CROSSSLOT Keys in request don't hash to the same slot")
          else
            match Owner layout slot with
            | None => Some (EncodeError "CLUSTERDOWN Hash slot not served")
            | Some o =>
                if Nat.eqb o (Self layout) then None
                else Some (EncodeError ("MOVED " +++ Itoa slot +++ " "
                                        +++ from_option Addr EmptyString (Nodes layout !! o)))
            end
      end
  end.

Definition checkCluster (cmd : Command) : option string := checkKeys (default [] (KeysOf cmd)).

(** The check for a command that is queued, on the connection's goroutine. *)
Definition CheckCluster (cmd : Command) : option string := checkCluster cmd.

Definition checkClusterBatch (cmds : list Command) : option string :=
  checkKeys (concat ((fun c => default [] (KeysOf c)) <$> cmds)).

(** ** Handlers *)

Definition handlePing : HandlerFunc := fun args =>
  match args with
  | [] => mret (EncodeSimpleString "PONG")
  | [x] => mret (EncodeBulkString x)
  | _ => mret (EncodeError "ERR wrong number of arguments for 'ping' command")
  end.

Definition handleGet : HandlerFunc := fun args =>
  match args with
  | [key] =>
      value ← Store_Get key;
      match value with
      | None => mret EncodeNullBulkString
      | Some v => mret (EncodeBulkString v)
      end
  | _ => mret (EncodeError "ERR wrong number of arguments for 'get' command")
  end.

(** The time to live of SET's option, or the error. *)
Definition set_ttl (option n : string) : Z + string :=
  let option := ToUpper option in
  match Atoi n with
  | None => inr (EncodeError "ERR invalid expire time in 'set' command")
  | Some n =>
      if n <=? 0 then inr (EncodeError "ERR invalid expire time in 'set' command")
      else if string_eqb option "EX" then inl (i64 (n * Second))
      else if string_eqb option "PX" then inl (i64 (n * Millisecond))
      else inr (EncodeError "ERR syntax error")
  end.

Definition handleSet : HandlerFunc := fun args =>
  match args with
  | [key; value] => Store_Set key value 0 ;; mret (EncodeSimpleString "OK")
  | [key; value; option; n] =>
      match set_ttl option n with
      | inr e => mret e
      | inl ttl => Store_Set key value ttl ;; mret (EncodeSimpleString "OK")
      end
  | _ => mret (EncodeError "ERR wrong number of arguments for 'set' command")
  end.

Definition handleAppend : HandlerFunc := fun args =>
  match args with
  | [key; value] => newLen ← Store_Append key value; mret (EncodeInteger newLen)
  | _ => mret (EncodeError "ERR wrong number of arguments for 'append' command")
  end.

Definition handleDel : HandlerFunc := fun args =>
  match args with
  | [] => mret (EncodeError "ERR wrong number of arguments for 'del' command")
  | _ => n ← Store_Delete args; mret (EncodeInteger n)
  end.

Definition handleExpire : HandlerFunc := fun args =>
  match args with
  | [key; n] =>
      match Atoi n with
      | None => mret (EncodeError "ERR invalid expire time for EXPIRE command")
      | Some n =>
          value ← Store_Get key;
          match value with
          | None => mret (EncodeError "Cannot find key in the hashmap")
          | Some v => Store_Set key v (i64 (n * Second)) ;; mret (EncodeInteger 1)
          end
      end
  | _ => mret (EncodeError "ERR wrong number of arguments for EXPIRE command")
  end.

Definition handleTTL : HandlerFunc := fun args =>
  match args with
  | [key] => seconds ← Store_TTL key; mret (EncodeInteger seconds)
  | _ => mret (EncodeError "ERR wrong number of arguments for 'ttl' command")
  end.

(** [time.Until(expiry)] *)
Definition time_Until (t : Z) : GoM World Z := u ← now; mret (TimeSub t u).

Definition handleIncr : HandlerFunc := fun args =>
  match args with
  | [key] =>
      '(n, found, err, expiry) ← Store_GetInt key;
      let n := if (found : bool) then n else 0 in
      match err with
      | Some _ => mret (EncodeError "ERR while incrementing")
      | None =>
          ttl ← (if negb (IsZero expiry) then time_Until expiry else mret 0);
          let n := i64 (n + 1) in
          Store_Set key (FormatInt n) ttl ;;
          mret (EncodeInteger n)
      end
  | _ => mret (EncodeError "ERR incorrect arguments for INCR")
  end.

Definition handlePFAdd : HandlerFunc := fun args =>
  match args with
  | [] => mret (EncodeError "Incorrect number of arguments for pfadd")
  | key :: values =>
      r ← Store_PFAdd key values;
      match r with
      | inr err => mret (EncodeError err)
      | inl changed => mret (EncodeInteger (if (changed : bool) then 1 else 0))
      end
  end.

Definition handlePFCount : HandlerFunc := fun args =>
  match args with
  | [key] => count ← Store_PFCount key; mret (EncodeInteger count)
  | _ => mret (EncodeError "Incorrect number of arguments for PFCount")
  end.

Definition handlePFMerge : HandlerFunc := fun args =>
  match args with
  | [] => mret (EncodeError "Incorrect number of arguments for PFMerge")
  | dest :: sources => Store_PFMerge dest sources ;; mret (EncodeSimpleString "OK")
  end.

Definition handleObject : HandlerFunc := fun args =>
  match args with
  | sub :: key :: _ =>
      let subcommand := ToUpper sub in
      if string_eqb subcommand "ENCODING" then
        enc ← Store_GetEncoding key;
        match enc with
        | None => mret (EncodeError "ERR no such key")
        | Some EncodingINT => mret (EncodeBulkString "int")
        | Some EncodingEMBSTR => mret (EncodeBulkString "embstr")
        | Some EncodingRAW => mret (EncodeBulkString "str")
        | Some EncodingHLL => mret (EncodeError "ERR unknown encoding")
        end
      else if string_eqb subcommand "FREQ" then
        '(freq, ok, policyOK) ← Store_GetFreq key;
        if negb policyOK then mret (EncodeError "ERR An LFU maxmemory policy is not selected, access frequency not tracked. Please note that when switching between maxmemory policies at runtime LFU and LRU data will take some time to adjust.")
        else if negb ok then mret (EncodeError "ERR no such key")
        else mret (EncodeInteger freq)
      else mret (EncodeError "ERR unknown subcommand for 'object'")
  | _ => mret (EncodeError "ERR wrong number of arguments for 'object' command")
  end.

Definition handleDebug : HandlerFunc := fun args =>
  match args with
  | [] => mret (EncodeError "ERR DEBUG subcommand required")
  | sub :: _ =>
      let subcommand := ToUpper sub in
      if string_eqb subcommand "MEMORY" then n ← UsedMemory; mret (EncodeInteger n)
      else if string_eqb subcommand "KEYS" then n ← KeyCount; mret (EncodeInteger n)
      else mret (EncodeError ("ERR unknown DEBUG subcommand '" +++ sub +++ "'"))
  end.

Definition infoCluster : string :=
  "# Cluster" +++ CRLF +++ "cluster_enabled:" +++ Itoa (if ClusterEnabled cfg then 1 else 0) +++ CRLF.

(** [store.KeyspaceStat[0][metric]] *)
Definition db0_stat (metric : string) : GoM World Z := fun w =>
  match KeyspaceStat w !! 0%nat with
  | Some m => Val (default 0 (m !! metric), w)
  | None => Panic IndexOutOfRange
  end.

Definition infoKeyspace : GoM World string :=
  keys ← db0_stat "keys";
  expires ← db0_stat "expires";
  avg_ttl ← db0_stat "avg_ttl";
  mret ("# Keyspace" +++ CRLF +++ "db0:keys=" +++ Itoa keys +++ ",expires=" +++ Itoa expires
        +++ ",avg_ttl=" +++ Itoa avg_ttl +++ CRLF).

Definition handleInfo : HandlerFunc := fun args =>
  let section := match args with [] => "all" | s :: _ => ToLower s end in
  if string_eqb section "cluster" then mret (EncodeBulkString infoCluster)
  else if string_eqb section "keyspace" then (s ← infoKeyspace; mret (EncodeBulkString s))
  else if string_eqb section "all" then
    (s ← infoKeyspace; mret (EncodeBulkString (infoCluster +++ CRLF +++ s)))
  else mret (EncodeBulkString EmptyString).

(** ** CLUSTER *)

(** [strings.LastIndexByte(s, c)], from position [i]. *)
Fixpoint last_index (s : string) (c : ascii) (i acc : Z) : Z :=
  match s with
  | EmptyString => acc
  | String a s => last_index s c (i + 1) (if decide (a = c) then i else acc)
  end.

Definition splitAddr (addr : string) : outcome (string * Z) :=
  let i := last_index addr ":" 0 (-1) in
  let port := default 0 (Atoi (drop_bytes (Z.to_nat (i + 1)) addr)) in
  if i <? 0 then Panic SliceBoundsOutOfRange else Val (slice addr 0 i, port).

Definition slot_entries (l : Layout) : list (SlotRange * Node) :=
  concat ((fun n => (fun r => (r, n)) <$> Slots n) <$> Nodes l).

Fixpoint encode_slots (entries : list (SlotRange * Node)) : outcome (list string) :=
  match entries with
  | [] => Val []
  | (r, n) :: entries =>
      '(host, port) ← splitAddr (Addr n);
      let owner := EncodeRawArray
        [EncodeBulkString host; EncodeInteger port; EncodeBulkString (ID n); EncodeRawArray []] in
      out ← encode_slots entries;
      Val (EncodeRawArray [EncodeInteger (Start r); EncodeInteger (End r); owner] :: out)
  end.

Definition clusterSlots (l : Layout) : outcome string :=
  out ← encode_slots (env_sort (SlotRange * Node) (fun a b => Start a.1 <? Start b.1) (slot_entries l));
  Val (EncodeRawArray out).

Definition slot_text (r : SlotRange) : string :=
  if Start r =? End r then " " +++ Itoa (Start r) else " " +++ Itoa (Start r) +++ "-" +++ Itoa (End r).

Fixpoint nodes_text (self i : nat) (nodes : list Node) : outcome string :=
  match nodes with
  | [] => Val EmptyString
  | n :: nodes =>
      '(host, port) ← splitAddr (Addr n);
      let flags := if Nat.eqb i self then "myself,master" else "master" in
      let line := ID n +++ " " +++ host +++ ":" +++ Itoa port +++ "@" +++ Itoa (i64 (port + 10000)) +++ " " +++ flags
                  +++ " - 0 0 " +++ Itoa (Z.of_nat i + 1) +++ " connected"
                  +++ concat_all (slot_text <$> Slots n) +++ String LF EmptyString in
      rest ← nodes_text self (S i) nodes;
      Val (line +++ rest)
  end.

Definition clusterNodes (l : Layout) : outcome string := nodes_text (Self l) 0 (Nodes l).

Definition slots_assigned (l : Layout) : Z :=
  foldl (fun n r => n + (End r - Start r + 1)) 0 (concat (Slots <$> Nodes l)).

Definition clusterInfo (l : Layout) : string :=
  let assigned := slots_assigned l in
  let size := Z.of_nat (length (filter (fun n => Slots n <> []) (Nodes l))) in
  let known := Z.of_nat (length (Nodes l)) in
  let myEpoch := Z.of_nat (Self l) + 1 in
  let state := if assigned <? NumSlots then "fail" else "ok" in
  concat_all ((fun line => line +++ CRLF) <$>
    ["cluster_state:" +++ state; "cluster_slots_assigned:" +++ Itoa assigned;
     "cluster_slots_ok:" +++ Itoa assigned; "cluster_slots_pfail:0"; "cluster_slots_fail:0";
     "cluster_known_nodes:" +++ Itoa known; "cluster_size:" +++ Itoa size;
     "cluster_current_epoch:" +++ Itoa known; "cluster_my_epoch:" +++ Itoa myEpoch]).

(** The layout CLUSTER works on; a nil [cluster.Current] or [Self] is dereferenced. *)
Definition current_layout : outcome Layout :=
  match Current with Some l => Val l | None => Panic NilDereference end.

Definition handleCluster : HandlerFunc := fun args =>
  if negb (ClusterEnabled cfg) then mret (EncodeError "ERR This instance has cluster support disabled")
  else
    match args with
    | [] => mret (EncodeError "ERR wrong number of arguments for 'cluster' command")
    | sub0 :: rest =>
        let sub := ToUpper sub0 in
        if negb (string_eqb sub "KEYSLOT") && negb (match rest with [] => true | _ => false end) then
          mret (EncodeError ("ERR wrong number of arguments for 'cluster|" +++ ToLower sub +++ "' command"))
        else if string_eqb sub "KEYSLOT" then
          match rest with
          | [key] => mret (EncodeInteger (KeyHashSlot key))
          | _ => mret (EncodeError "ERR wrong number of arguments for 'cluster|keyslot' command")
          end
        else if string_eqb sub "MYID" then
          l ← lift current_layout;
          lift (match Nodes l !! Self l with
                | Some n => Val (EncodeBulkString (ID n))
                | None => Panic NilDereference
                end)
        else if string_eqb sub "SLOTS" then l ← lift current_layout; lift (clusterSlots l)
        else if string_eqb sub "NODES" then
          l ← lift current_layout; text ← lift (clusterNodes l); mret (EncodeBulkString text)
        else if string_eqb sub "INFO" then
          l ← lift current_layout; mret (EncodeBulkString (clusterInfo l))
        else mret (EncodeError ("ERR unknown subcommand '" +++ sub0 +++ "'. Try CLUSTER HELP."))
    end.

(** The handler of the server's own _EXPIRY command. *)
Definition handleExpiry : HandlerFunc := fun _ =>
  deleted ← DeleteExpired; mret (EncodeInteger deleted).
End handlers.
