(* ===== verification/CommandClaims.v ===== *)
(** * What single commands promise

    INCR and EXPIRE, which combine two operations of the store. *)

From S2P Require Import Prelude GoLib Resp Sds Hll World Lru Store StoreInv Commands.

Section commands.
Context `{!GoEnv} `{!GoEnvLaws}.

Lemma FormatInt_text n exp l : is_int64 n -> text (newEntry (FormatInt n) exp l) = Some (FormatInt n).
Proof. intros Hn. rewrite newEntry_text. unfold canonical. by rewrite ParseInt_FormatInt. Qed.

(** A write after a read access of the same key leaves the other keys alone. *)
Lemma access_then_write w k m e :
  accessed w k m -> forall k', k' <> k -> <[k := e]> m !! k' = dataOf w !! k'.
Proof.
  intros Hacc k' Hk. rewrite lookup_insert_ne by done. unfold accessed in Hacc.
  destruct (live w k); [destruct Hacc as [l ->]; by rewrite lookup_insert_ne|].
  rewrite Hacc. by rewrite lookup_delete_ne.
Qed.

(** Storing the new number, with whatever time to live was computed. *)
Lemma incr_store_wp w w1 k m n ttl :
  accessed w k m -> becomes w w1 m -> is_int64 n ->
  wp (Store_Set k (FormatInt n) ttl ;; mret (EncodeInteger n)) (fun r w' =>
    r = EncodeInteger n /\ store_ok w' /\ (forall k', k' <> k -> dataOf w' !! k' = dataOf w !! k') /\
    exists e', dataOf w' !! k = Some e' /\ text e' = Some (FormatInt n) /\ expiresAt e' = deadline w1 ttl) w1.
Proof.
  intros Hacc (Hw1 & Hd1 & _) Hn. wp_step. wp_use Store_Set_wp; [done|]. intros [] w' (l & Hw' & Hd' & _).
  apply wp_ret. split; [done|]. split; [done|]. rewrite Hd', Hd1. split; [by apply access_then_write|].
  eexists. split; [apply lookup_insert_eq|]. split; [by apply FormatInt_text|apply newEntry_expiresAt].
Qed.

(** INCR adds one to a live integer, modulo 2^64, and answers the new value; it
    starts a missing or expired key at 1; it refuses any other value and leaves what a
    client reads from it as it was. No other key changes, and a key without expiry stays
    without. *)
Theorem incr_counts (w : World) (k : string) :
  store_ok w ->
  exists reply w', handleIncr [k] w = Val (reply, w') /\ store_ok w' /\
    (forall k', k' <> k -> dataOf w' !! k' = dataOf w !! k') /\
    match live w k with
    | Some e =>
        if decide (encoding e = EncodingINT) then
          reply = EncodeInteger (i64 (intVal e + 1)) /\
          exists e', dataOf w' !! k = Some e' /\ text e' = Some (FormatInt (i64 (intVal e + 1))) /\
            (expiresAt e = 0 -> expiresAt e' = 0)
        else reply = EncodeError "ERR while incrementing" /\
          exists e', dataOf w' !! k = Some e' /\ text e' = text e
    | None => reply = EncodeInteger 1 /\
        exists e', dataOf w' !! k = Some e' /\ text e' = Some "1" /\ expiresAt e' = 0
    end.
Proof.
  intros Hw. apply wp_Val. unfold handleIncr. wp_step. wp_use Store_GetInt_wp; [done|].
  intros r w1 (-> & m & Hb & Hacc). destruct (live w k) as [e|] eqn:El.
  - destruct (decide (encoding e = EncodingINT)) as [He|He].
    + rewrite He. cbv beta iota. wp_step.
      assert (forall ttl w2, becomes w w2 m -> (expiresAt e = 0 -> ttl = 0) ->
        wp (let n := i64 (intVal e + 1) in Store_Set k (FormatInt n) ttl ;; mret (EncodeInteger n))
           (fun reply w' => store_ok w' /\ (forall k', k' <> k -> dataOf w' !! k' = dataOf w !! k') /\
              reply = EncodeInteger (i64 (intVal e + 1)) /\
              exists e', dataOf w' !! k = Some e' /\ text e' = Some (FormatInt (i64 (intVal e + 1))) /\
                (expiresAt e = 0 -> expiresAt e' = 0)) w2) as Hset.
      { intros ttl w2 Hb2 Httl. cbv zeta. wp_use incr_store_wp; [exact Hacc|exact Hb2|apply i64_range|].
        intros reply w' (-> & Hw' & Hoth & e' & Hk & Ht & Hx). split; [done|]. split; [done|]. split; [done|].
        exists e'. split; [done|]. split; [done|]. intros Hz. by rewrite Hx, (Httl Hz). }
      destruct (IsZero (expiresAt e)) eqn:Hz; cbn [negb].
      * apply wp_ret. by apply Hset.
      * unfold time_Until. wp_step. wp_use reads_wp; [by apply (reads_now (fun _ => True))|].
        intros t w2 (n & -> & _). apply wp_ret. apply Hset.
        -- eapply becomes_trans; [exact Hb|]. destruct Hb as (Hw1 & <- & _). by apply becomes_advance.
        -- intros Hz'. rewrite Hz' in Hz. discriminate Hz.
    + assert (wp (mret (EncodeError "ERR while incrementing")) (fun reply w' => store_ok w' /\
        (forall k', k' <> k -> dataOf w' !! k' = dataOf w !! k') /\
        reply = EncodeError "ERR while incrementing" /\
        exists e', dataOf w' !! k = Some e' /\ text e' = text e) w1) as Herr.
      { apply wp_ret. destruct Hb as (Hw1 & Hd & _). unfold accessed in Hacc. rewrite El in Hacc.
        destruct Hacc as [l ->]. split; [done|]. rewrite Hd. split; [intros; by rewrite lookup_insert_ne|].
        split; [done|]. eexists. split; [apply lookup_insert_eq|done]. }
      destruct (encoding e); [done|exact Herr..].
  - cbv beta iota. wp_step. apply wp_ret. cbv zeta. change (i64 (0 + 1)) with 1.
    wp_use incr_store_wp; [exact Hacc|exact Hb|by vm_compute|].
    intros reply w' (-> & Hw' & Hoth & e' & Hk & Ht & Hx). split; [done|]. split; [done|]. split; [done|].
    by exists e'.
Qed.

(** EXPIRE with a positive number of seconds makes a live string or integer expire
    that long after the command; with zero or a negative number it takes the expiry away. *)
Theorem expire_sets_the_deadline (w : World) (k n v : string) (e : entry) (z : Z) :
  store_ok w -> live w k = Some e -> text e = Some v ->
  Atoi n = Some z -> -9223372036 <= z <= 9223372036 ->
  exists w' e' t, handleExpire [k; n] w = Val (EncodeInteger 1, w') /\ store_ok w' /\
    (forall k', k' <> k -> dataOf w' !! k' = dataOf w !! k') /\
    dataOf w' !! k = Some e' /\ text e' = Some (canonical v) /\
    (tick w <= t <= tick w')%nat /\ expiresAt e' = if 0 <? z then env_clock t + z * Second else 0.
Proof.
  intros Hw Hl Ht Hn Hz. unfold handleExpire. rewrite Hn.
  pose proof (Store_Get_wp w k Hw) as Hg. apply wp_Val in Hg as (r & w1 & Eg & Hr & m & Hb & Hacc).
  rewrite Hl in Hr. cbn [mbind option_bind] in Hr. rewrite Ht in Hr. subst r. pose proof Hb as (Hw1 & Hd1 & Hs1).
  pose proof (Store_Set_wp w1 k v (i64 (z * Second)) Hw1) as Hs.
  apply wp_Val in Hs as ([] & w' & Es & l & Hw' & Hd' & Hs').
  exists w', (newEntry v (deadline w1 (i64 (z * Second))) l), (tick w1).
  unfold mbind, GoM_bind. rewrite Eg, Es. split; [done|]. split; [done|]. rewrite Hd', Hd1.
  split; [by apply access_then_write|]. split; [apply lookup_insert_eq|]. split; [apply newEntry_text|].
  split; [split; [apply Hs1|apply Hs']|]. rewrite newEntry_expiresAt. unfold deadline.
  rewrite i64_small by (unfold is_int64, MinInt64, MaxInt64, Second; lia). unfold Second.
  destruct (Z.ltb_spec 0 z), (Z.ltb_spec 0 (z * 10 ^ 9)); try lia; done.
Qed.
End commands.

Section witnesses.
Local Instance command_env : GoEnv := env_at (unixToInternal + 10 * Second).

Definition max_entry : entry := mkEntry EncodingINT 9223372036854775807 None None 0 0.

(** The counter wraps around. *)
Lemma incr_counts_witness :
  exists w', handleIncr ["n"] (world_with "noeviction" "n" max_entry)
             = Val (EncodeInteger (-9223372036854775808), w') /\ store_ok w'.
Proof.
  destruct (incr_counts (world_with "noeviction" "n" max_entry) "n") as (r & w' & E & Hw' & _ & Hr).
  - apply world_with_ok. split; [by vm_compute|cbn; lia].
  - assert (live (world_with "noeviction" "n" max_entry) "n" = Some max_entry) as Hl by reflexivity.
    rewrite Hl in Hr. destruct Hr as [Hr _]. exists w'. split; [rewrite E, Hr; reflexivity|exact Hw'].
Defined.

(** EXPIRE with 0 takes the expiry away. *)
Lemma expire_sets_the_deadline_witness :
  exists w' e', handleExpire ["k"; "0"] (world_with "noeviction" "k"
                  (newEntry "v" (unixToInternal + 60 * Second) 0)) = Val (EncodeInteger 1, w') /\
    dataOf w' !! "k" = Some e' /\ expiresAt e' = 0.
Proof.
  destruct (expire_sets_the_deadline (world_with "noeviction" "k" (newEntry "v" (unixToInternal + 60 * Second) 0))
    "k" "0" "v" (newEntry "v" (unixToInternal + 60 * Second) 0) 0) as (w' & e' & t & E & _ & _ & Hk & _ & _ & Hx).
  - apply world_with_ok, newEntry_ok. lia.
  - reflexivity.
  - reflexivity.
  - reflexivity.
  - lia.
  - exists w', e'. split; [exact E|]. split; [exact Hk|exact Hx].
Defined.

(** The seconds of SET are not checked for overflow: the time to live wraps around, and
    one that is not positive means no expiry. *)
Example set_ex_overflows : set_ttl "EX" "9223372037" = inl (-9223372036709551616).
Proof. reflexivity. Qed.
End witnesses.
