(* ===== verification/Dispatch.v ===== *)
(** * Dispatch (src/commands/registry.go, route.go; the replay of src/server/tcp_server.go)

    Running one command, a transaction, a pipeline, and the commands of the
    append-only file. *)

From S2P Require Import Prelude GoLib Resp Aof Sds Hll World Lru Store StoreInv StoreSpec Evict Slot Layout Commands.

Definition writeCommands : list string := ["SET"; "EXPIRE"; "INCR"; "APPEND"; "PFADD"; "PFMERGE"; "DEL"].
Definition denyOOMCommands : list string := ["SET"; "INCR"; "APPEND"; "PFADD"; "PFMERGE"].

Definition is_in (name : string) (l : list string) : bool := existsb (string_eqb name) l.

Definition isErrorReply (reply : string) : bool :=
  match reply with String c _ => bool_decide (c = "-"%char) | EmptyString => false end.

Section dispatch.
Context `{GoEnv} (cfg : Config) (Current : option Layout).

(** The map [commands]. [Register] adds a handler, in place of one of the same name. *)
Definition registry : Type := list (string * HandlerFunc).

Fixpoint Register (name : string) (f : HandlerFunc) (m : registry) : registry :=
  match m with
  | [] => [(name, f)]
  | (n, g) :: m => if string_eqb n name then (name, f) :: m else (n, g) :: Register name f m
  end.

(** The [init] functions of the files, which Go runs in the order of the file names. *)
Definition init_append : registry -> registry := Register "APPEND" handleAppend.
Definition init_cluster : registry -> registry := Register "CLUSTER" (handleCluster cfg Current).
Definition init_debug : registry -> registry := Register "DEBUG" handleDebug.
Definition init_del : registry -> registry := Register "DEL" handleDel.
Definition init_expire : registry -> registry := Register "EXPIRE" handleExpire.
Definition init_get : registry -> registry := Register "GET" handleGet.
Definition init_incr : registry -> registry := Register "INCR" handleIncr.
Definition init_info : registry -> registry := Register "INFO" (handleInfo cfg).
Definition init_object : registry -> registry := Register "OBJECT" handleObject.
Definition init_pfadd : registry -> registry := Register "PFADD" handlePFAdd.
Definition init_pfcount : registry -> registry := Register "PFCOUNT" handlePFCount.
Definition init_pfmerge : registry -> registry := Register "PFMERGE" handlePFMerge.
Definition init_ping : registry -> registry := Register "PING" handlePing.
Definition init_registry : registry -> registry := Register "_EXPIRY" handleExpiry.
Definition init_set : registry -> registry := Register "SET" handleSet.
Definition init_ttl : registry -> registry := Register "TTL" handleTTL.

Definition commands : registry :=
  foldl (fun m init => init m) []
    [init_append; init_cluster; init_debug; init_del; init_expire; init_get; init_incr; init_info; init_object;
     init_pfadd; init_pfcount; init_pfmerge; init_ping; init_registry; init_set; init_ttl].

Lemma commands_list :
  commands =
  [("APPEND", handleAppend); ("CLUSTER", handleCluster cfg Current); ("DEBUG", handleDebug); ("DEL", handleDel);
   ("EXPIRE", handleExpire); ("GET", handleGet); ("INCR", handleIncr); ("INFO", handleInfo cfg);
   ("OBJECT", handleObject); ("PFADD", handlePFAdd); ("PFCOUNT", handlePFCount); ("PFMERGE", handlePFMerge);
   ("PING", handlePing); ("_EXPIRY", handleExpiry); ("SET", handleSet); ("TTL", handleTTL)].
Proof. reflexivity. Qed.

Definition IsKnownCommand (name : string) : bool :=
  match assoc name commands with Some _ => true | None => false end.

(** [int64(config.MaxMemory) << 20] *)
Definition maxBytes : Z := i64 (Z.shiftl (MaxMemory cfg) 20).

Definition evicting_policy (p : string) : bool :=
  string_eqb p "allkeys-lru" || string_eqb p "allkeys-lfu" || string_eqb p "volatile-lfu".

(** Whether the command must be refused for lack of memory, after evicting. *)
Definition check_memory (name : string) : GoM World bool :=
  if is_in name denyOOMCommands && (0 <? MaxMemory cfg) then
    (if evicting_policy (MaxMemoryPolicy cfg) then PerformEvictions (MaxMemorySamples cfg) maxBytes
     else mret tt) ;;
    OverMemory maxBytes
  else mret false.

(** [aof.Write(fullCmd)] if there is a file; an error is only printed. *)
Definition log_command (cmd : Command) (reply : string) : GoM World unit :=
  file ← gets aof;
  match file with
  | Some f =>
      if is_in (cmdName cmd) writeCommands && negb (isErrorReply reply)
      then wr ← next_write f (EncodeArray (cmdName cmd :: Args cmd)); modify (set_aof (Some (AOF_Write wr f (cmdName cmd :: Args cmd)).1))
      else mret tt
  | None => mret tt
  end.

Definition oomReply : string := EncodeError "OOM command not allowed when used memory > 'maxmemory'.".

Definition Dispatch (cmd : Command) : GoM World string :=
  match assoc (cmdName cmd) commands with
  | None => mret (EncodeError ("ERR unknown command '" +++ cmdName cmd +++ "'"))
  | Some handler =>
      match checkCluster Current cmd with
      | Some errReply => mret errReply
      | None =>
          oom ← check_memory (cmdName cmd);
          if (oom : bool) then mret oomReply
          else
            reply ← handler (Args cmd);
            log_command cmd reply ;;
            mret reply
      end
  end.

Definition Replay (cmd : Command) : GoM World unit :=
  match assoc (cmdName cmd) commands with
  | Some handler => handler (Args cmd) ;; mret tt
  | None => mret tt
  end.

(** The replies of [Dispatch] on each command, in order. *)
Fixpoint dispatch_each (cmds : list Command) : GoM World (list string) :=
  match cmds with
  | [] => mret []
  | c :: cmds => r ← Dispatch c; rs ← dispatch_each cmds; mret (r :: rs)
  end.

Definition DispatchBatch (cmds : list Command) : GoM World string :=
  match checkClusterBatch Current cmds with
  | Some errReply => mret errReply
  | None => replies ← dispatch_each cmds; mret (EncodeRawArray replies)
  end.

Definition DispatchPipeline (cmds : list Command) : GoM World string :=
  replies ← dispatch_each cmds; mret (concat_all replies).

(** The function [Run] hands to [aof.Recover]. *)
Definition replayAOFCommand (args : list string) : GoM World unit :=
  match args with
  | [] => mret tt
  | name :: args => Replay (mkCommand (ToUpper name) args)
  end.

(** Startup with an append-only file: replay it, then start appending to it. *)
Definition startup (file : string) : GoM World unit :=
  Recover replayAOFCommand file ;; modify (set_aof (Some file)).
End dispatch.

(** The cases of a registered handler. *)
Ltac by_command Hn :=
  rewrite commands_list in Hn; cbn [assoc] in Hn;
  repeat match type of Hn with
  | (if string_eqb ?n ?m then _ else _) = _ =>
      let E := fresh "E" in destruct (string_eqb n m) eqn:E;
      [apply String.eqb_eq in E; first [congruence|subst m; injection Hn as <-]|clear E]
  end; [..|done].

(** ** The invariant of the whole server *)

Section dispatch_inv.
Context `{!GoEnv} `{!GoEnvLaws} (cfg : Config) (Current : option Layout).

Definition server_ok (w : World) : Prop := store_ok w /\ pool_ok (evPool (Default w)).

(** The server is in order and its append-only file holds [a]. *)
Definition inv (a : option string) (w : World) : Prop := server_ok w /\ aof w = a.

Lemma becomes_inv a w w' m : inv a w -> becomes w w' m -> inv a w'.
Proof.
  intros [[_ Hp] Ha] (Hw' & _ & He & _ & _ & _ & Haof & _). split; [|congruence].
  split; [done|]. by rewrite He.
Qed.

(** From a spec of an operation in terms of [becomes], that it keeps the server in order. *)
Lemma wp_inv {A} (m : GoM World A) Q a w :
  inv a w -> wp m Q w -> (forall x w', Q x w' -> exists d, becomes w w' d) -> wp m (fun _ => inv a) w.
Proof.
  intros Hs Hm HQ. eapply wp_mono; [exact Hm|]. intros x w' Hx. destruct (HQ x w' Hx) as [d Hd].
  by eapply becomes_inv.
Qed.

Ltac by_spec lem :=
  intros w Hw; eapply (wp_inv _ _ _ _ Hw); [apply lem; apply Hw|cbv beta; naive_solver].

Lemma Set_preserves a k v ttl : preserves (inv a) (Store_Set k v ttl).
Proof. by_spec Store_Set_wp. Qed.
Lemma Get_preserves a k : preserves (inv a) (Store_Get k).
Proof. by_spec Store_Get_wp. Qed.
Lemma GetInt_preserves a k : preserves (inv a) (Store_GetInt k).
Proof. by_spec Store_GetInt_wp. Qed.
Lemma GetEncoding_preserves a k : preserves (inv a) (Store_GetEncoding k).
Proof. by_spec Store_GetEncoding_wp. Qed.
Lemma TTL_preserves a k : preserves (inv a) (Store_TTL k).
Proof. by_spec Store_TTL_wp. Qed.
Lemma PFCount_preserves a k : preserves (inv a) (Store_PFCount k).
Proof. by_spec Store_PFCount_wp. Qed.
Lemma Delete_preserves a keys : preserves (inv a) (Store_Delete keys).
Proof. by_spec Store_Delete_wp. Qed.

Lemma PFAdd_preserves a k values : preserves (inv a) (Store_PFAdd k values).
Proof.
  intros w Hw. eapply (wp_inv _ _ _ _ Hw); [apply Store_PFAdd_wp; apply Hw|]. unfold pfadd_post.
  intros r w'. destruct (live w k) as [e|]; [case_decide|]; naive_solver.
Qed.

Lemma PFMerge_preserves a dest sources : preserves (inv a) (Store_PFMerge dest sources).
Proof.
  intros w Hw. destruct (key_registers_exists w (proj1 (proj1 Hw))) as [R HR].
  eapply (wp_inv _ _ _ _ Hw); [by apply Store_PFMerge_wp; [apply Hw|exact HR]|].
  intros [] w' (e & _ & _ & Hb). by eexists.
Qed.

Lemma GetFreq_preserves a k : preserves (inv a) (Store_GetFreq k).
Proof.
  intros w Hw. unfold Store_GetFreq. wp_step. apply wp_gets. destruct (negb _); [by apply wp_ret|].
  apply lookup_live_wp; [apply Hw|..].
  - intros _ w' Hb. apply wp_ret. by eapply becomes_inv.
  - intros e n _. apply wp_ret. eapply becomes_inv; [exact Hw|]. apply becomes_advance. apply Hw.
Qed.

Lemma DeleteExpired_preserves a : preserves (inv a) DeleteExpired.
Proof.
  intros w Hw. unfold DeleteExpired. wp_step. unfold wp at 1, range_keys.
  assert (inv a (next_tick w)) as Hw1.
  { eapply becomes_inv; [exact Hw|]. apply (becomes_advance 1), Hw. }
  eapply (wp_inv _ _ _ _ Hw1); [apply expire_loop_wp, Hw1|]. unfold expire_post. naive_solver.
Qed.

(** [Append] is fine on every key but one that holds a HyperLogLog. *)
Definition appendable (w : World) (k : string) : Prop :=
  forall e, dataOf w !! k = Some e -> encoding e <> EncodingHLL.

Lemma Append_wp_inv a w k v : inv a w -> appendable w k -> wp (Store_Append k v) (fun _ => inv a) w.
Proof.
  intros Hw Happ. destruct (dataOf w !! k) as [e|] eqn:Ek.
  - assert (exists s, text e = Some s) as [s Hs].
    { pose proof (proj1 (entry_ok_lookup w k e (proj1 (proj1 Hw)) Ek)) as Hv. specialize (Happ e Ek).
      unfold value_ok, text in *. destruct (encoding e); [by eexists| | |done];
        destruct Hv as (b & -> & _); by eexists. }
    eapply (wp_inv _ _ _ _ Hw); [by eapply Store_Append_old_wp; [apply Hw|..]|]. cbv beta. naive_solver.
  - eapply (wp_inv _ _ _ _ Hw); [by eapply Store_Append_new_wp; [apply Hw|..]|]. cbv beta. naive_solver.
Qed.

Lemma Evictions_wp_inv a w samples mb :
  samples <= maxSamples -> inv a w -> 0 < mb ->
  wp (PerformEvictions samples mb) (fun _ w' => inv a w' /\ (tick w <= tick w')%nat /\ dataOf w' ⊆ dataOf w /\
                                      usedMemory (Default w') <= mb) w.
Proof.
  intros Hn [[Hw Hp] Ha] Hm. wp_use PerformEvictions_wp; [done|done|done|done|].
  intros [] w' [(Hw' & Hp' & Hcf & Hsub & _) Hle]. destruct Hcf as (_ & _ & _ & Haof & Ht).
  split; [|done]. split; [by split|congruence].
Qed.

Lemma server_ok_init a : server_ok (set_aof a World_init).
Proof. split; [by split|apply pool_ok_nil]. Qed.
End dispatch_inv.

#[export] Hint Resolve Set_preserves Get_preserves GetInt_preserves GetEncoding_preserves TTL_preserves
  PFCount_preserves Delete_preserves PFAdd_preserves PFMerge_preserves GetFreq_preserves
  DeleteExpired_preserves : rediska.

(** ** The handlers keep the server in order *)

(** Follow the control flow of a handler down to the operations of the store. *)
Ltac handler_step :=
  match goal with
  | |- preserves _ (mret _) => apply preserves_ret
  | |- preserves _ (_ ≫= _) => apply preserves_bind; [|intros]
  | |- preserves _ (match ?x with _ => _ end) => destruct x
  | |- preserves _ _ => solve [auto with rediska]
  end.
Ltac solve_handler := cbv zeta; repeat (handler_step; cbv beta zeta).

Section handler_inv.
Context `{!GoEnv} `{!GoEnvLaws} (cfg : Config) (Current : option Layout).

Lemma now_preserves a : preserves (inv a) now.
Proof. intros w Hw. eapply becomes_inv; [exact Hw|]. apply (becomes_advance 1), Hw. Qed.

Lemma db0_stat_preserves a metric : preserves (inv a) (db0_stat metric).
Proof.
  intros w Hw. unfold wp, db0_stat. pose proof (stat_shape w (proj1 (proj1 Hw))) as Hl.
  destruct (KeyspaceStat w) as [|m ks]; [done|]. done.
Qed.

Lemma lift_preserves {A} a (x : A) : preserves (inv a) (lift (Val x)).
Proof. by intros w Hw. Qed.

Hint Resolve now_preserves db0_stat_preserves lift_preserves : rediska.

Lemma infoKeyspace_preserves a : preserves (inv a) infoKeyspace.
Proof. unfold infoKeyspace. solve_handler. Qed.
Lemma time_Until_preserves a t : preserves (inv a) (time_Until t).
Proof. unfold time_Until. solve_handler. Qed.
Hint Resolve infoKeyspace_preserves time_Until_preserves : rediska.

(** Every handler but those of APPEND and CLUSTER, on any arguments. *)
Lemma handlers_preserve a name h args :
  assoc name (commands cfg Current) = Some h -> name <> "APPEND" -> name <> "CLUSTER" ->
  preserves (inv a) (h args).
Proof.
  intros Hn Happ Hcl. by_command Hn.
  - unfold handleDebug, UsedMemory, KeyCount. solve_handler.
  - unfold handleDel. solve_handler.
  - unfold handleExpire. solve_handler.
  - unfold handleGet. solve_handler.
  - unfold handleIncr. solve_handler.
  - unfold handleInfo. solve_handler.
  - unfold handleObject. solve_handler.
  - unfold handlePFAdd. solve_handler.
  - unfold handlePFCount. solve_handler.
  - unfold handlePFMerge. solve_handler.
  - unfold handlePing. solve_handler.
  - unfold handleExpiry. solve_handler.
  - unfold handleSet. solve_handler.
  - unfold handleTTL. solve_handler.
Qed.

(** *** CLUSTER *)

Definition has_colon (addr : string) : Prop := not_in ":" addr = false.

(** Cluster mode comes with a layout whose nodes have addresses with a port. *)
Definition cluster_ready : Prop :=
  ClusterEnabled cfg = true ->
  exists l, Current = Some l /\ layout_ok l /\ Forall (fun n => has_colon (Addr n)) (Nodes l).

Lemma last_index_found s c i acc : (not_in c s = false \/ 0 <= acc) -> 0 <= i -> 0 <= last_index s c i acc.
Proof.
  revert i acc. induction s as [|a s IH]; intros i acc Hs Hi; cbn [last_index].
  - destruct Hs; done.
  - apply IH; [|lia]. case_decide as Hd; [by right|]. destruct Hs as [Hs|Hs]; [|by right].
    cbn [not_in] in Hs. rewrite bool_decide_eq_false_2 in Hs by congruence. by left.
Qed.

Lemma splitAddr_ok addr : has_colon addr -> exists r, splitAddr addr = Val r.
Proof.
  intros Ha. unfold splitAddr. pose proof (last_index_found addr ":" 0 (-1) (or_introl Ha) ltac:(lia)).
  rewrite (proj2 (Z.ltb_ge _ _)) by done. by eexists.
Qed.

Lemma encode_slots_ok entries :
  Forall (fun e => has_colon (Addr e.2)) entries -> exists r, encode_slots entries = Val r.
Proof.
  induction 1 as [|[r n] es Hn Hes [out IH]]; cbn [encode_slots]; [by eexists|].
  destruct (splitAddr_ok (Addr n) Hn) as [[host port] ->]. cbn. rewrite IH. by eexists.
Qed.

Lemma nodes_text_ok self i nodes :
  Forall (fun n => has_colon (Addr n)) nodes -> exists r, nodes_text self i nodes = Val r.
Proof.
  intros Hn. revert i. induction Hn as [|n nodes Hn Hns IH]; intros i; cbn [nodes_text]; [by eexists|].
  destruct (splitAddr_ok (Addr n) Hn) as [[host port] ->]. destruct (IH (S i)) as [r ->]. by eexists.
Qed.

Lemma slot_entries_ok l :
  Forall (fun n => has_colon (Addr n)) (Nodes l) -> Forall (fun e => has_colon (Addr e.2)) (slot_entries l).
Proof.
  intros Hl. unfold slot_entries. apply Forall_concat, Forall_fmap. eapply Forall_impl; [exact Hl|].
  intros n Hn. apply Forall_fmap, Forall_forall. done.
Qed.

Lemma handleCluster_preserves a args : cluster_ready -> preserves (inv a) (handleCluster cfg Current args).
Proof.
  intros Hready. unfold handleCluster, cluster_ready in *. destruct (ClusterEnabled cfg); cbn [negb]; [|solve_handler].
  destruct (Hready eq_refl) as (l & -> & (_ & [n Hself] & _) & Hcol). unfold current_layout.
  destruct args as [|sub0 rest]; [solve_handler|]. cbv zeta.
  destruct (_ && _); [solve_handler|]. destruct (string_eqb _ "KEYSLOT"); [solve_handler|].
  destruct (string_eqb _ "MYID").
  { intros w Hw. wp_step. apply (wp_lift (Val l) l); [done|]. rewrite Hself. by apply (wp_lift _ (EncodeBulkString (ID n))). }
  destruct (string_eqb _ "SLOTS").
  { intros w Hw. wp_step. apply (wp_lift (Val l) l); [done|]. unfold clusterSlots.
    destruct (encode_slots_ok (env_sort _ (fun a b => Start a.1 <? Start b.1) (slot_entries l))) as [out ->].
    - rewrite sort_perm. by apply slot_entries_ok.
    - by apply (wp_lift _ (EncodeRawArray out)). }
  destruct (string_eqb _ "NODES").
  { intros w Hw. wp_step. apply (wp_lift (Val l) l); [done|]. unfold clusterNodes.
    destruct (nodes_text_ok (Self l) 0 (Nodes l) Hcol) as [t ->]. wp_step. apply (wp_lift _ t); [done|]. by apply wp_ret. }
  destruct (string_eqb _ "INFO"); solve_handler.
Qed.
End handler_inv.

(** ** Dispatch *)

Lemma isErrorReply_EncodeError s : isErrorReply (EncodeError s) = true.
Proof. done. Qed.

Section dispatch_spec.
Context `{!GoEnv} `{!GoEnvLaws} (cfg : Config) (Current : option Layout).

(** The command can be run on [w] without a panic: it does not append to a HyperLogLog. *)
Definition runnable (w : World) (cmd : Command) : Prop :=
  cmdName cmd = "APPEND" -> forall k v, Args cmd = [k; v] -> appendable w k.

Lemma runnable_sub w w' cmd : dataOf w' ⊆ dataOf w -> runnable w cmd -> runnable w' cmd.
Proof.
  intros Hsub Hr Hn k v Ha e He. apply (Hr Hn k v Ha e). by eapply lookup_weaken.
Qed.

Lemma handler_wp a w cmd h :
  assoc (cmdName cmd) (commands cfg Current) = Some h -> cluster_ready cfg Current ->
  inv a w -> runnable w cmd -> wp (h (Args cmd)) (fun _ => inv a) w.
Proof.
  intros Hh Hready Hw Hr. destruct (decide (cmdName cmd = "APPEND")) as [En|Hna].
  - rewrite En in Hh. injection Hh as <-. unfold handleAppend. specialize (Hr En).
    destruct (Args cmd) as [|k [|v [|]]]; try by apply wp_ret.
    wp_step. wp_use Append_wp_inv; [done|by apply (Hr k v)|]. intros n w' Hw'. by apply wp_ret.
  - destruct (decide (cmdName cmd = "CLUSTER")) as [En|Hnc].
    + rewrite En in Hh. injection Hh as <-. by apply handleCluster_preserves.
    + by eapply handlers_preserve.
Qed.

Lemma handleCluster_keeps a args : keeps (inv a) (handleCluster cfg Current args).
Proof.
  unfold handleCluster.
  repeat match goal with
  | |- keeps _ (mret _) => apply preserves_keeps, preserves_ret
  | |- keeps _ (lift _) => apply keeps_lift
  | |- keeps _ (_ ≫= _) => apply keeps_bind; [|intros]
  | |- keeps _ (let _ := _ in _) => cbv zeta
  | |- keeps _ (match ?x with _ => _ end) => destruct x
  end.
Qed.

Lemma handleAppend_keeps a args : keeps (inv a) (handleAppend args).
Proof.
  unfold handleAppend. destruct args as [|k [|v [|]]]; try apply preserves_keeps, preserves_ret.
  apply keeps_bind; [|intros; apply preserves_keeps, preserves_ret].
  intros w r w' Hw E. destruct (dataOf w !! k) as [e|] eqn:Ek.
  - destruct (decide (encoding e = EncodingHLL)) as [He|He].
    + rewrite (Store_Append_panics w k v e) in E; [done|apply Hw|done|done].
    + assert (appendable w k) as Happ by (intros e' He'; congruence).
      pose proof (Append_wp_inv a w k v Hw Happ) as Hwp. unfold wp in Hwp. by rewrite E in Hwp.
  - assert (appendable w k) as Happ by (intros e' He'; congruence).
    pose proof (Append_wp_inv a w k v Hw Happ) as Hwp. unfold wp in Hwp. by rewrite E in Hwp.
Qed.

Lemma handlers_keep a name h args :
  assoc name (commands cfg Current) = Some h -> keeps (inv a) (h args).
Proof.
  intros Hh. destruct (decide (name = "APPEND")) as [->|Hna].
  - injection Hh as <-. apply handleAppend_keeps.
  - destruct (decide (name = "CLUSTER")) as [->|Hnc].
    + injection Hh as <-. apply handleCluster_keeps.
    + by apply preserves_keeps, (handlers_preserve cfg Current a name).
Qed.

(** Whether a command of this name finds the store over its limit. *)
Definition over_limit (w : World) (name : string) : bool :=
  is_in name denyOOMCommands && (0 <? MaxMemory cfg) && ((0 <? maxBytes cfg) && (maxBytes cfg <? usedMemory (Default w))).

(** What checking the memory does: below the limit nothing, and above it keys are evicted
    until there is room, or the command is refused, as the policy says. *)
Definition memory_checked (w : World) (name : string) (oom : bool) (w' : World) : Prop :=
  (tick w <= tick w')%nat /\ dataOf w' ⊆ dataOf w /\
  if over_limit w name then
    if evicting_policy (MaxMemoryPolicy cfg) then oom = false /\ usedMemory (Default w') <= maxBytes cfg
    else oom = true /\ w' = w
  else oom = false /\ w' = w.

Lemma memory_checked_evicting w name oom w' :
  memory_checked w name oom w' -> evicting_policy (MaxMemoryPolicy cfg) = true -> oom = false.
Proof. unfold memory_checked. intros (_ & _ & Hm) Hp. rewrite Hp in Hm. by destruct (over_limit w name), Hm. Qed.

Lemma memory_checked_keeping w name oom w' :
  memory_checked w name oom w' -> evicting_policy (MaxMemoryPolicy cfg) = false -> w' = w.
Proof. unfold memory_checked. intros (_ & _ & Hm) Hp. rewrite Hp in Hm. by destruct (over_limit w name), Hm. Qed.

Lemma check_memory_wp a w name :
  (over_limit w name = true -> evicting_policy (MaxMemoryPolicy cfg) = true -> MaxMemorySamples cfg <= maxSamples) ->
  inv a w -> wp (check_memory cfg name) (fun oom w' => inv a w' /\ memory_checked w name oom w') w.
Proof.
  intros Hn Hw. revert Hn. unfold check_memory, memory_checked, over_limit.
  destruct (is_in name denyOOMCommands && (0 <? MaxMemory cfg)); cbn [andb]; [|intros _; by apply wp_ret].
  destruct (Z.ltb_spec 0 (maxBytes cfg)) as [Hpos|Hle], (Z.ltb_spec (maxBytes cfg) (usedMemory (Default w))) as [Hover|Hunder];
    cbn [andb]; intros Hn; wp_step.
  - destruct (evicting_policy _).
    + wp_use Evictions_wp_inv; [by apply Hn|done|done|]. intros [] w' (Hw' & Ht & Hsub & Hlim). apply wp_gets.
      rewrite (proj2 (Z.ltb_ge _ (usedMemory _))), andb_false_r by done. done.
    + apply wp_ret, wp_gets. by rewrite !(proj2 (Z.ltb_lt _ _)).
  - destruct (evicting_policy _); [unfold wp; rewrite PerformEvictions_under by done; cbn|apply wp_ret, wp_gets];
      by rewrite (proj2 (Z.ltb_ge _ (usedMemory _))), andb_false_r.
  - destruct (evicting_policy _); [unfold wp, PerformEvictions; rewrite (proj2 (Z.leb_le _ _)) by done; cbn|apply wp_ret, wp_gets];
      by rewrite (proj2 (Z.ltb_ge _ _)).
  - destruct (evicting_policy _); [unfold wp, PerformEvictions; rewrite (proj2 (Z.leb_le _ _)) by done; cbn|apply wp_ret, wp_gets];
      by rewrite (proj2 (Z.ltb_ge 0 _)).
Qed.

(** The same, for any check that returns. *)
Lemma check_memory_returns a w name oom w' :
  inv a w -> check_memory cfg name w = Val (oom, w') -> inv a w' /\ memory_checked w name oom w'.
Proof.
  intros Hw E. assert (wp (check_memory cfg name) (fun oom w' => inv a w' /\ memory_checked w name oom w') w) as Hwp.
  { apply check_memory_wp; [|done]. unfold over_limit. intros [[Hd Hm]%andb_true_iff [Hpos Hover]%andb_true_iff]%andb_true_iff Hev.
    destruct (Z.leb_spec (MaxMemorySamples cfg) maxSamples) as [|Hn]; [done|exfalso].
    unfold check_memory in E. rewrite Hd, Hm, Hev in E. cbn [andb] in E. unfold mbind, GoM_bind in E.
    destruct (PerformEvictions _ _ w) as [[[] w1]|] eqn:E1; [|done]. apply Z.ltb_lt in Hpos, Hover.
    apply PerformEvictions_oversampled in E1; [lia|done|apply Hw|done]. }
  unfold wp in Hwp. by rewrite E in Hwp.
Qed.

(** The append-only file after [cmd] was answered with [reply] and the write ended as [wr]. *)
Definition logged (cmd : Command) (reply : string) : bool :=
  is_in (cmdName cmd) writeCommands && negb (isErrorReply reply).

Definition aof_after (wr : option nat) (a : option string) (cmd : Command) (reply : string) : option string :=
  if logged cmd reply then (fun f => (AOF_Write wr f (cmdName cmd :: Args cmd)).1) <$> a else a.

(** The server is in order and has logged [cmd], as far as the disk allowed. *)
Definition inv_logged (a : option string) (cmd : Command) (reply : string) (w : World) : Prop :=
  exists i, inv (aof_after (env_write i (default EmptyString a) (EncodeArray (cmdName cmd :: Args cmd))) a cmd reply) w.

Lemma log_command_wp a w cmd reply :
  inv a w -> wp (log_command cmd reply) (fun _ => inv_logged a cmd reply) w.
Proof.
  intros [Hs Ha]. unfold log_command, inv_logged, aof_after, logged. wp_step. apply wp_gets. rewrite Ha.
  destruct a as [f|].
  - destruct (_ && _).
    + wp_step. unfold next_write. exists (tick w). split; [|done]. destruct Hs as [[] Hp]. split; [by split|done].
    + apply wp_ret. by exists 0%nat.
  - apply wp_ret. exists 0%nat. split; [done|]. by destruct (_ && _).
Qed.

Lemma log_command_data cmd reply w r w' : log_command cmd reply w = Val (r, w') -> dataOf w' = dataOf w.
Proof.
  unfold log_command, next_write, mbind, GoM_bind, gets, mret, GoM_ret, modify.
  destruct (aof w); [destruct (_ && _)|]; by intros [= <- <-].
Qed.

Lemma aof_after_error wr a cmd s : aof_after wr a cmd (EncodeError s) = a.
Proof. unfold aof_after, logged. rewrite isErrorReply_EncodeError. by rewrite andb_false_r. Qed.

Lemma inv_logged_error a cmd s w : inv a w -> inv_logged a cmd (EncodeError s) w.
Proof. intros Hw. exists 0%nat. by rewrite aof_after_error. Qed.

Lemma inv_logged_ok a cmd reply w : inv_logged a cmd reply w -> server_ok w.
Proof. by intros [i [Hw _]]. Qed.

Lemma checkKeys_error keys r : checkKeys Current keys = Some r -> exists s, r = EncodeError s.
Proof.
  unfold checkKeys. destruct Current as [l|]; [|done]. destruct keys as [|k0 rest]; [done|].
  destruct (existsb _ _); [intros [= <-]; by eexists|].
  destruct (Owner l _); [|intros [= <-]; by eexists]. destruct (Nat.eqb _ _); [done|]. intros [= <-]. by eexists.
Qed.

Lemma Dispatch_wp a w cmd :
  cluster_ready cfg Current -> MaxMemorySamples cfg <= maxSamples -> inv a w -> runnable w cmd ->
  wp (Dispatch cfg Current cmd) (fun reply w' => inv_logged a cmd reply w') w.
Proof.
  intros Hready Hn Hw Hr. unfold Dispatch. destruct (assoc _ _) as [h|] eqn:Eh.
  - destruct (checkCluster Current cmd) as [r|] eqn:Ec.
    { apply checkKeys_error in Ec as [s ->]. by apply wp_ret, inv_logged_error. }
    wp_step. wp_use check_memory_wp; [done|done|]. intros oom w1 (Hw1 & _ & Hsub & _). destruct oom.
    { by apply wp_ret, inv_logged_error. }
    wp_step. wp_use handler_wp; [done|done|done|by eapply runnable_sub|]. intros reply w2 Hw2.
    wp_step. wp_use log_command_wp; [exact Hw2|]. intros [] w3 Hw3. by apply wp_ret.
  - by apply wp_ret, inv_logged_error.
Qed.

(** The same, for any command that returns. *)
Lemma Dispatch_returns a w cmd reply w' :
  inv a w -> Dispatch cfg Current cmd w = Val (reply, w') -> inv_logged a cmd reply w'.
Proof.
  intros Hw. unfold Dispatch. destruct (assoc _ _) as [h|] eqn:Eh.
  - destruct (checkCluster Current cmd) as [r|] eqn:Ec.
    { apply checkKeys_error in Ec as [s ->]. intros [= <- <-]. by apply inv_logged_error. }
    unfold mbind, GoM_bind. destruct (check_memory cfg (cmdName cmd) w) as [[oom w1]|] eqn:E1; [|done].
    destruct (check_memory_returns a w (cmdName cmd) oom w1 Hw E1) as [Hw1 _]. destruct oom.
    { intros [= <- <-]. by apply inv_logged_error. }
    destruct (h (Args cmd) w1) as [[r w2]|] eqn:E2; [|done].
    pose proof (handlers_keep a _ h (Args cmd) Eh w1 r w2 Hw1 E2) as Hw2.
    pose proof (log_command_wp a w2 cmd r Hw2) as Hl. apply wp_Val in Hl as ([] & w3 & -> & Hw3).
    by intros [= <- <-].
  - intros [= <- <-]. by apply inv_logged_error.
Qed.
End dispatch_spec.
