(* ===== verification/DispatchClaims.v ===== *)
(** * What the dispatcher promises *)

From S2P Require Import Prelude GoLib Resp Aof Sds Hll World Lru Store StoreInv StoreSpec Evict Slot Layout Commands Dispatch.

(** ** Keys and slots *)

Lemma keys_loop_all fuel pre args last :
  (length args < fuel)%nat -> last = Z.of_nat (length pre + length args) ->
  keys_loop fuel (pre ++ args) (Z.of_nat (length pre) + 1) last 1 = args.
Proof.
  revert fuel pre. induction args as [|a args IH]; intros fuel pre Hf Hl; (destruct fuel as [|fuel]; [cbn in Hf; lia|]);
    cbn [keys_loop].
  - rewrite (proj2 (Z.leb_gt _ _)) by (cbn in Hl; lia). done.
  - rewrite (proj2 (Z.leb_le _ _)) by (cbn in Hl; lia).
    rewrite (proj2 (Z.ltb_lt _ _)) by (rewrite length_app; cbn; lia). cbn [andb].
    replace (Z.to_nat (Z.of_nat (length pre) + 1 - 1)) with (length pre) by lia.
    rewrite list_lookup_middle by done. f_equal.
    specialize (IH fuel (pre ++ [a])). rewrite <-app_assoc, length_app in IH. cbn [app length] in IH.
    replace (Z.of_nat (length pre) + 1 + 1) with (Z.of_nat (length pre + 1) + 1) by lia.
    apply IH; [cbn in Hf; lia|cbn in Hl; lia].
Qed.

Lemma keys_loop_one fuel args pos :
  1 <= pos -> keys_loop (S (S fuel)) args pos pos 1 = take 1 (drop (Z.to_nat (pos - 1)) args).
Proof.
  intros Hp. cbn [keys_loop]. rewrite (proj2 (Z.leb_le _ _)) by lia. cbn [andb].
  destruct (Z.ltb_spec pos (Z.of_nat (length args) + 1)).
  - destruct (lookup_lt_is_Some_2 args (Z.to_nat (pos - 1))) as [k Hk]; [lia|]. rewrite Hk.
    rewrite (proj2 (Z.leb_gt _ _)) by lia. cbn [andb]. by rewrite (drop_S _ _ _ Hk).
  - rewrite drop_ge by lia. done.
Qed.

(** The key table covers exactly the registered commands, and it names the keys each
    handler uses: every argument of DEL, PFCOUNT and PFMERGE, the second argument of
    OBJECT, the first one of the others, and none for the server commands. *)
Theorem keys_of_commands `{GoEnv} (cfg : Config) (Current : option Layout) (name : string) (args : list string) :
  (IsKnownCommand cfg Current name = true <-> is_Some (KeysOf (mkCommand name args))) /\
  (name ∈ ["DEL"; "PFCOUNT"; "PFMERGE"] -> KeysOf (mkCommand name args) = Some args) /\
  (name ∈ ["GET"; "SET"; "EXPIRE"; "TTL"; "INCR"; "APPEND"; "PFADD"] ->
     KeysOf (mkCommand name args) = Some (take 1 args)) /\
  (name = "OBJECT" -> KeysOf (mkCommand name args) = Some (take 1 (drop 1 args))) /\
  (name ∈ ["PING"; "INFO"; "DEBUG"; "CLUSTER"; "_EXPIRY"] -> KeysOf (mkCommand name args) = Some []).
Proof.
  split; [|split; [|split; [|split]]].
  - unfold IsKnownCommand, KeysOf. cbn [cmdName Args].
    assert (is_Some (assoc name (commands cfg Current)) <-> is_Some (assoc name keySpecs)) as Hiff.
    { rewrite commands_list. unfold keySpecs. cbn [assoc].
      repeat match goal with
      | |- context [string_eqb ?n name] =>
          destruct (string_eqb n name); [split; intros _; repeat case_match; by eexists|]
      end. done. }
    destruct (assoc name (commands cfg Current)) as [h|], (assoc name keySpecs) as [spec|].
    + split; [intros _; destruct (First spec =? 0); by eexists|done].
    + destruct Hiff as [Hi _]. by destruct (Hi ltac:(by eexists)).
    + destruct Hiff as [_ Hi]. by destruct (Hi ltac:(by eexists)).
    + split; [done|]. by intros [? ?].
  - intros Hn. rewrite !elem_of_cons in Hn. destruct Hn as [->|[->|[->|Hn]]]; [..|inversion Hn];
      unfold KeysOf; cbn [cmdName Args assoc keySpecs string_eqb]; f_equal;
      apply (keys_loop_all _ []); cbn -[Z.of_nat]; lia.
  - assert (keys_loop (S (length args)) args 1 1 1 = take 1 args) as Hone.
    { destruct args as [|x args]; [done|]. by apply (keys_loop_one (length args) (x :: args) 1). }
    intros Hn. rewrite !elem_of_cons in Hn.
    destruct Hn as [->|[->|[->|[->|[->|[->|[->|Hn]]]]]]]; [..|inversion Hn];
      unfold KeysOf; cbn [cmdName Args assoc keySpecs string_eqb]; f_equal; exact Hone.
  - intros ->. unfold KeysOf. cbn [cmdName Args assoc keySpecs string_eqb]. f_equal.
    destruct args as [|x [|y args]]; [done|done|]. by apply (keys_loop_one _ _ 2).
  - intros Hn. rewrite !elem_of_cons in Hn. by destruct Hn as [->|[->|[->|[->|[->|Hn]]]]]; [..|inversion Hn].
Qed.

Lemma keys_of_commands_witness :
  KeysOf (mkCommand "DEL" ["a"; "b"; "c"]) = Some ["a"; "b"; "c"] /\
  KeysOf (mkCommand "OBJECT" ["ENCODING"; "k"]) = Some ["k"].
Proof.
  pose (e := env_at unixToInternal). split.
  - apply (@keys_of_commands e (mkConfig 0 "noeviction" 5 false) None "DEL" ["a"; "b"; "c"]). set_solver.
  - apply (@keys_of_commands e (mkConfig 0 "noeviction" 5 false) None "OBJECT" ["ENCODING"; "k"]). reflexivity.
Defined.

Lemma existsb_slots slot rest :
  existsb (fun k => negb (KeyHashSlot k =? slot)) rest = false <-> forall k, k ∈ rest -> KeyHashSlot k = slot.
Proof.
  induction rest as [|x rest IH]; cbn [existsb].
  - split; [|done]. intros _ k Hk. inversion Hk.
  - rewrite orb_false_iff, negb_false_iff, Z.eqb_eq, IH. split.
    + intros [Hx Hr] k [->|Hk]%elem_of_cons; [done|by apply Hr].
    + intros Hall. split; [apply Hall, elem_of_cons; by left|]. intros k Hk. apply Hall, elem_of_cons. by right.
Qed.

Lemma checkKeys_spec (l : Layout) (keys : list string) :
  checkKeys (Some l) keys = None <->
  keys = [] \/ exists slot, (forall k, k ∈ keys -> KeyHashSlot k = slot) /\ Owner l slot = Some (Self l).
Proof.
  unfold checkKeys. destruct keys as [|k0 rest]; [split; [by left|done]|].
  destruct (existsb _ rest) eqn:Ex.
  - split; [done|]. intros [Hnil|(slot & Hall & _)]; [discriminate Hnil|].
    rewrite (proj2 (existsb_slots (KeyHashSlot k0) rest)) in Ex; [done|].
    intros k Hk. rewrite (Hall k0) by (apply elem_of_cons; by left). apply Hall, elem_of_cons. by right.
  - pose proof (proj1 (existsb_slots _ rest) Ex) as Hall0. split.
    + intros Hc. right. exists (KeyHashSlot k0). split.
      * intros k [->|Hk]%elem_of_cons; [done|by apply Hall0].
      * destruct (Owner l (KeyHashSlot k0)) as [o|]; [|done]. destruct (Nat.eqb_spec o (Self l)); [by subst|done].
    + intros [Hnil|(slot & Hall & Ho)]; [discriminate Hnil|].
      rewrite (Hall k0) by (apply elem_of_cons; by left). rewrite Ho. by rewrite Nat.eqb_refl.
Qed.

(** C26: In cluster mode a request is served here exactly when all its keys are in one
    slot and this node owns it; a request without keys always is. *)
Theorem served_iff_owned (l : Layout) (keys : list string) :
  checkKeys (Some l) keys = None <->
  keys = [] \/ exists slot, (forall k, k ∈ keys -> KeyHashSlot k = slot) /\ Owner l slot = Some (Self l).
Proof. apply checkKeys_spec. Qed.

Section promises.
Context `{!GoEnv} `{!GoEnvLaws} (cfg : Config) (Current : option Layout).

Lemma checkKeys_sub keys keys' :
  (forall k, k ∈ keys' -> k ∈ keys) -> checkKeys Current keys = None -> checkKeys Current keys' = None.
Proof.
  intros Hsub. destruct Current as [l|]; [|done]. rewrite !checkKeys_spec.
  intros [->|(slot & Hall & Ho)].
  - left. destruct keys' as [|k keys']; [done|]. specialize (Hsub k ltac:(apply elem_of_cons; by left)). inversion Hsub.
  - right. exists slot. split; [|done]. intros k Hk. by apply Hall, Hsub.
Qed.

(** C27: A transaction is refused as a whole or not at all: if its keys together pass the
    cluster check, every one of its commands passes it, and otherwise nothing runs. *)
Theorem transaction_all_or_nothing (cmds : list Command) (w : World) :
  match checkClusterBatch Current cmds with
  | Some errReply => DispatchBatch cfg Current cmds w = Val (errReply, w)
  | None => forall c, c ∈ cmds -> checkCluster Current c = None
  end.
Proof.
  unfold DispatchBatch. destruct (checkClusterBatch Current cmds) as [r|] eqn:E; [done|].
  intros c Hc. unfold checkClusterBatch, checkCluster in *. eapply checkKeys_sub; [|exact E].
  intros k Hk. apply list_elem_of_In, in_concat. exists (default [] (KeysOf c)).
  split; [|by apply list_elem_of_In]. apply list_elem_of_In, list_elem_of_fmap. by exists c.
Qed.

(** C6: With no more samples configured for eviction than a slice can hold, every command
    that does not append to a HyperLogLog is answered: the dispatcher does not panic, keeps the accounts and the well-formedness of every entry, and extends
    the append-only file exactly if the command is a write that succeeded: by its record, or
    by a part of it if the disk fails, in which case the reply is the same. *)
Theorem dispatch_keeps_the_server_in_order (w : World) (cmd : Command) :
  cluster_ready cfg Current -> MaxMemorySamples cfg <= maxSamples -> server_ok w -> runnable w cmd ->
  exists reply w' p lost, Dispatch cfg Current cmd w = Val (reply, w') /\ server_ok w' /\
    EncodeArray (cmdName cmd :: Args cmd) = (p +++ lost) /\ (disk_holds None -> lost = EmptyString) /\
    aof w' = if is_in (cmdName cmd) writeCommands && negb (isErrorReply reply)
             then (fun f => f +++ p) <$> aof w else aof w.
Proof.
  intros Hready Hn Hw Hr. pose proof (Dispatch_wp cfg Current (aof w) w cmd Hready Hn (conj Hw eq_refl) Hr) as Hd.
  apply wp_Val in Hd as (reply & w' & E & i & Hw' & Ha). exists reply, w'. unfold aof_after, AOF_Write, File_Write in Ha.
  destruct (env_write _ _ _) as [n|] eqn:Ew.
  - destruct (substring_prefix n (EncodeArray (cmdName cmd :: Args cmd))) as (r & Hp & _).
    eexists _, r. split; [exact E|]. split; [done|]. split; [exact Hp|]. split; [|exact Ha].
    intros Hdisk. by rewrite Hdisk in Ew.
  - exists (EncodeArray (cmdName cmd :: Args cmd)), EmptyString. by rewrite append_nil_r.
Qed.

(** C28: A command that is refused, because its keys belong elsewhere or because memory is
    short under a policy that does not evict, changes nothing at all. Under a policy that
    evicts (and whose samples fit a slice), no command is refused for memory. *)
Theorem refused_commands_change_nothing (w : World) (cmd : Command) :
  server_ok w ->
  (forall err, IsKnownCommand cfg Current (cmdName cmd) = true -> checkCluster Current cmd = Some err ->
     Dispatch cfg Current cmd w = Val (err, w)) /\
  (IsKnownCommand cfg Current (cmdName cmd) = true -> checkCluster Current cmd = None ->
   is_in (cmdName cmd) denyOOMCommands = true -> 0 < MaxMemory cfg ->
   evicting_policy (MaxMemoryPolicy cfg) = false -> 0 < maxBytes cfg < usedMemory (Default w) ->
   Dispatch cfg Current cmd w = Val (oomReply, w)) /\
  (evicting_policy (MaxMemoryPolicy cfg) = true -> MaxMemorySamples cfg <= maxSamples ->
   exists w', check_memory cfg (cmdName cmd) w = Val (false, w')).
Proof.
  intros Hw. unfold IsKnownCommand, Dispatch. split; [|split].
  - intros err Hk Hc. destruct (assoc _ _); [|done]. by rewrite Hc.
  - intros Hk Hc Hd Hm Hp Hu. destruct (assoc _ _); [|done]. rewrite Hc. unfold check_memory. rewrite Hd, Hp.
    rewrite (proj2 (Z.ltb_lt _ _)) by done. cbn [andb]. unfold OverMemory, gets, mbind, GoM_bind, mret, GoM_ret.
    rewrite !(proj2 (Z.ltb_lt _ _)) by lia. done.
  - intros Hp Hn. pose proof (check_memory_wp cfg (aof w) w (cmdName cmd) (fun _ _ => Hn) (conj Hw eq_refl)) as Hc.
    apply wp_Val in Hc as (oom & w' & E & _ & Hoom). rewrite (memory_checked_evicting _ _ _ _ _ Hoom Hp) in E. by exists w'.
Qed.

(** ** The log *)

(** The commands of a run that end up in the file. *)
Fixpoint log_of (cmds : list Command) (replies : list string) : list (list string) :=
  match cmds, replies with
  | c :: cmds, r :: replies =>
      if logged c r then (cmdName c :: Args c) :: log_of cmds replies else log_of cmds replies
  | _, _ => []
  end.

Lemma dispatch_each_log cap cmds w replies w' f :
  disk_holds cap -> inv (Some f) w -> dispatch_each cfg Current cmds w = Val (replies, w') ->
  inv (Some (filled cap f (log_of cmds replies))) w' /\ length replies = length cmds.
Proof.
  intros Hdisk. revert w replies f. induction cmds as [|c cmds IH]; intros w replies f Hw; cbn [dispatch_each].
  - intros [= <- <-]. done.
  - unfold mbind, GoM_bind. destruct (Dispatch cfg Current c w) as [[r w1]|] eqn:E1; [|done].
    destruct (dispatch_each cfg Current cmds w1) as [[rs w2]|] eqn:E2; [|done]. intros [= <- <-].
    pose proof (Dispatch_returns cfg Current _ w c r w1 Hw E1) as [i Hw1]. rewrite Hdisk in Hw1. unfold aof_after in Hw1.
    cbn [log_of]. destruct (logged c r); cbn [fmap option_fmap option_map default] in Hw1.
    + destruct (IH w1 rs _ Hw1 E2) as [Hi Hl]. cbn [length]. by rewrite Hl.
    + destruct (IH w1 rs _ Hw1 E2) as [Hi Hl]. cbn [length]. by rewrite Hl.
Qed.

(** C15: After a run on a disk with room the append-only file holds the successful writes of
    the run in their order, and a restart replays exactly those, even if a crash cut a further one short. *)
Theorem restart_replays_the_run (cmds : list Command) (w w' w0 : World) (replies : list string)
    (last : list string) (p q : string) :
  disk_holds None -> server_ok w -> aof w = Some EmptyString ->
  dispatch_each cfg Current cmds w = Val (replies, w') ->
  Forall sendable (log_of cmds replies) -> sendable last -> (p +++ q) = EncodeArray last -> q <> EmptyString ->
  exists file, aof w' = Some file /\ server_ok w' /\
    Recover (replayAOFCommand cfg Current) (file +++ p) w0
    = forM (log_of cmds replies) (replayAOFCommand cfg Current) w0.
Proof.
  intros Hd Hw Ha E Hs Hl Hpq Hq.
  destruct (dispatch_each_log None cmds w replies w' EmptyString Hd (conj Hw Ha) E) as [[Hw' Ha'] _].
  eexists. split; [exact Ha'|]. split; [done|].
  change (filled None EmptyString (log_of cmds replies)) with (written (log_of cmds replies)).
  rewrite Recover_written by done. unfold mbind, GoM_bind.
  destruct (forM _ _ w0) as [[[] w1]|]; [|done]. by eapply Recover_truncated.
Qed.
End promises.

(** ** Witnesses *)

Section witnesses.
Local Instance dispatch_env : GoEnv := env_at (unixToInternal + 10 * Second).
Local Instance dispatch_laws : GoEnvLaws.
Proof. apply env_at_laws. unfold Second. lia. Defined.

Definition plain_config : Config := mkConfig 0 "noeviction" 5 false.

Lemma dispatch_keeps_the_server_in_order_witness :
  exists reply w', Dispatch plain_config None (mkCommand "DEL" ["k"; "k"]) (set_aof (Some EmptyString) World_init)
                   = Val (reply, w') /\ server_ok w'.
Proof.
  destruct (dispatch_keeps_the_server_in_order plain_config None (set_aof (Some EmptyString) World_init)
    (mkCommand "DEL" ["k"; "k"])) as (r & w' & p & lost & E & Hw' & _).
  - discriminate.
  - discriminate.
  - apply server_ok_init.
  - discriminate.
  - exists r, w'. split; [exact E|exact Hw'].
Defined.

(** Two megabytes in one string, with a limit of one and no eviction. *)
Definition big_world : World :=
  world_with "noeviction" "big" (mkEntry EncodingRAW 0 (Some (mkSDS "x" 2000000)) None 0 0).

Lemma refused_commands_change_nothing_witness :
  Dispatch (mkConfig 1 "noeviction" 5 false) None (mkCommand "SET" ["k"; "v"]) big_world = Val (oomReply, big_world).
Proof.
  apply (refused_commands_change_nothing (mkConfig 1 "noeviction" 5 false) None big_world (mkCommand "SET" ["k"; "v"])).
  - split; [|apply pool_ok_nil]. apply world_with_ok. split; [|cbn; lia]. eexists. split; [reflexivity|].
    by vm_compute.
  - reflexivity.
  - reflexivity.
  - reflexivity.
  - cbn. lia.
  - reflexivity.
  - split; reflexivity.
Defined.

Lemma restart_replays_the_run_witness :
  exists replies w' file,
    dispatch_each plain_config None [mkCommand "PING" []; mkCommand "DEL" ["k"]]
      (set_aof (Some EmptyString) World_init) = Val (replies, w') /\ aof w' = Some file /\
    Recover (replayAOFCommand plain_config None) (file +++ "*1") World_init
    = forM [["DEL"; "k"]] (replayAOFCommand plain_config None) World_init.
Proof.
  destruct (restart_replays_the_run plain_config None [mkCommand "PING" []; mkCommand "DEL" ["k"]]
    (set_aof (Some EmptyString) World_init)
    (next_tick (set_aof (Some (written [["DEL"; "k"]])) World_init)) World_init [EncodeSimpleString "PONG"; EncodeInteger 0]
    ["PING"] "*1" (CRLF +++ EncodeBulkString "PING")) as (file & Ha & _ & E).
  - intros i f b. reflexivity.
  - apply server_ok_init.
  - reflexivity.
  - reflexivity.
  - cbn. repeat constructor; try done; unfold small; done.
  - split; [|done]. repeat constructor; unfold small; done.
  - reflexivity.
  - discriminate.
  - eexists _, _, file. split; [reflexivity|]. split; [exact Ha|exact E].
Defined.
End witnesses.
