(* ===== verification/LayoutFile.v ===== *)
(** * The cluster layout file (ParseLayout, parseRange of src/cluster/config.go)

    The text is parsed into a [Layout]. What of bufio.Scanner, strings and net the
    parser calls comes first. An error is a value that keeps what the message of the
    source mentions. *)

From S2P Require Import Prelude GoLib Resp Aof Sds Hll World Lru Store StoreInv Evict Slot Layout Sha1 Commands Dispatch.

(** ** bufio.Scanner *)

(** A line that reaches this many bytes ends the scan with an error. *)
Definition MaxScanTokenSize : Z := 64 * 1024.

(** The text up to the first line feed, and what follows it. *)
Fixpoint cut_line (s : string) : string * option string :=
  match s with
  | EmptyString => (EmptyString, None)
  | String c s =>
      if decide (c = LF) then (EmptyString, Some s)
      else let '(l, rest) := cut_line s in (String c l, rest)
  end.

Definition dropCR (line : string) : string := TrimSuffix line (String CR EmptyString).

(** The lines [Scan] yields, and whether it stopped at a line that is too long. *)
Fixpoint scan_lines (fuel : nat) (s : string) : list string * bool :=
  match fuel, s with
  | O, _ | _, EmptyString => ([], false)
  | S fuel, _ =>
      let '(line, rest) := cut_line s in
      if MaxScanTokenSize <=? len line then ([], true)
      else let '(lines, long) := scan_lines fuel (default EmptyString rest) in (dropCR line :: lines, long)
  end.

(** ** strings *)

Fixpoint before_byte (c : ascii) (s : string) : string :=
  match s with
  | EmptyString => EmptyString
  | String a s => if decide (a = c) then EmptyString else String a (before_byte c s)
  end.

(** [strings.Cut(s, sep)] for a separator of one byte; [None] if it does not occur. *)
Fixpoint Cut (c : ascii) (s : string) : option (string * string) :=
  match s with
  | EmptyString => None
  | String a s => if decide (a = c) then Some (EmptyString, s) else prod_map (String a) id <$> Cut c s
  end.

(** The number of bytes of the white space character [s] starts with, 0 if it starts
    with none: the characters of [unicode.IsSpace] in UTF-8. A lead byte is never part of
    another character, so the match does not depend on what precedes. *)
Definition space_width (s : string) : nat :=
  let bs := bytes_of s in
  let b i := default (-1) (bs !! i) in
  let b0 := b 0%nat in let b1 := b 1%nat in let b2 := b 2%nat in
  if (9 <=? b0) && (b0 <=? 13) || (b0 =? 32) then 1%nat
  else if (b0 =? 0xC2) && ((b1 =? 0x85) || (b1 =? 0xA0)) then 2%nat
  else if (b0 =? 0xE1) && (b1 =? 0x9A) && (b2 =? 0x80)
       || (b0 =? 0xE2) && (b1 =? 0x80)
          && ((0x80 <=? b2) && (b2 <=? 0x8A) || (b2 =? 0xA8) || (b2 =? 0xA9) || (b2 =? 0xAF))
       || (b0 =? 0xE2) && (b1 =? 0x81) && (b2 =? 0x9F)
       || (b0 =? 0xE3) && (b1 =? 0x80) && (b2 =? 0x80) then 3%nat
  else 0%nat.

Definition emit_field (field : string) (fields : list string) : list string :=
  match field with EmptyString => fields | _ => field :: fields end.

(** [field] is the field being read; [skip] bytes belong to the last white space. *)
Fixpoint fields_loop (skip : nat) (field s : string) : list string :=
  match s with
  | EmptyString => emit_field field []
  | String c s' =>
      match skip with
      | S skip => fields_loop skip field s'
      | O =>
          match space_width s with
          | S w => emit_field field (fields_loop w EmptyString s')
          | O => fields_loop 0 (field +++ String c EmptyString) s'
          end
      end
  end.

Definition Fields (s : string) : list string := fields_loop 0 EmptyString s.

(** ** net.SplitHostPort *)

Inductive addrError := missingPort | missingBracket | tooManyColons | unexpectedBracket (b : ascii).

Definition SplitHostPort (hostport : string) : (string * string) + addrError :=
  let i := last_index hostport ":" 0 (-1) in
  let check (host : string) (j k : Z) :=
    if 0 <=? indexByte hostport "[" j then inr (unexpectedBracket "[")
    else if 0 <=? indexByte hostport "]" k then inr (unexpectedBracket "]")
    else inl (host, slice hostport (i + 1) (len hostport)) in
  if i <? 0 then inr missingPort
  else if string_eqb (slice hostport 0 1) "[" then
    let close := indexByte hostport "]" 0 in
    if close <? 0 then inr missingBracket
    else if close + 1 =? len hostport then inr missingPort
    else if close + 1 =? i then check (slice hostport 1 close) 1 (close + 1)
    else if string_eqb (slice hostport (close + 1) (close + 2)) ":" then inr tooManyColons
    else inr missingPort
  else
    let host := slice hostport 0 i in
    if 0 <=? indexByte host ":" 0 then inr tooManyColons else check host 0 0.

(** ** Slot ranges *)

Inductive rangeError := BadSlot (spec : string) | BadSlotRange (spec : string) | RangeOutOfBounds (spec : string).

Definition parseRange (spec : string) : SlotRange + rangeError :=
  let '(lo, hi, isRange) := match Cut "-" spec with Some (lo, hi) => (lo, hi, true) | None => (spec, EmptyString, false) end in
  match Atoi lo with
  | None => inr (BadSlot spec)
  | Some start =>
      match (if (isRange : bool) then Atoi hi else Some start) with
      | None => inr (BadSlotRange spec)
      | Some stop =>
          if (start <? 0) || (NumSlots <=? stop) || (stop <? start) then inr (RangeOutOfBounds spec)
          else inl (mkSlotRange start stop)
      end
  end.

(** ** ParseLayout *)

Inductive layoutError :=
  | WantFields (lineNo : Z)
  | DuplicateName (lineNo : Z) (name : string)
  | DuplicateAddr (lineNo : Z) (addr : string)
  | BadAddress (lineNo : Z) (addr : string) (err : addrError)
  | BadPort (lineNo : Z) (addr : string)
  | BadRange (lineNo : Z) (err : rangeError)
  | ClaimedByBoth (lineNo slot : Z) (prev name : string)
  | PortTwice (port : Z)
  | LineTooLong
  | NoNodes
  | NoSelf (port : Z).

(** The layout being built; [names] and [addrs] are the maps of what was seen. *)
Record parsing := mkParsing {
  p_Nodes : list Node;
  p_Self : option nat;
  p_owner : list (option nat);
  names : gset string;
  addrs : gset string;
}.

Definition parsing_init : parsing := mkParsing [] None (replicate (Z.to_nat NumSlots) None) ∅ ∅.

(** The loop over the slots of one range, for the node at position [n]; an error is the
    slot and the node that already has it. *)
Fixpoint claim_slots (n : nat) (slots : list Z) (owner : list (option nat)) : list (option nat) + Z * nat :=
  match slots with
  | [] => inl owner
  | s :: slots =>
      match owner !! Z.to_nat s with
      | Some (Some prev) => inr (s, prev)
      | _ => claim_slots n slots (<[Z.to_nat s := Some n]> owner)
      end
  end.

Definition range_slots (r : SlotRange) : list Z := seqZ (Start r) (End r - Start r + 1).

Definition name_of (nodes : list Node) (name : string) (i : nat) : string :=
  match nodes !! i with Some n => Name n | None => name end.

(** The loop over the specs of a line. *)
Fixpoint parse_specs (lineNo : Z) (nodes : list Node) (name : string) (specs : list string)
    (slots : list SlotRange) (owner : list (option nat)) : (list SlotRange * list (option nat)) + layoutError :=
  match specs with
  | [] => inl (slots, owner)
  | spec :: specs =>
      match parseRange spec with
      | inr err => inr (BadRange lineNo err)
      | inl sr =>
          match claim_slots (length nodes) (range_slots sr) owner with
          | inr (s, prev) => inr (ClaimedByBoth lineNo s (name_of nodes name prev) name)
          | inl owner => parse_specs lineNo nodes name specs (slots ++ [sr]) owner
          end
      end
  end.

(** The body of the loop over the lines. *)
Definition parse_line (myPort lineNo : Z) (l : parsing) (line : string) : parsing + layoutError :=
  match Fields (before_byte "#" line) with
  | [] => inl l
  | name :: addr :: ((_ :: _) as specs) =>
      if bool_decide (name ∈ names l) then inr (DuplicateName lineNo name)
      else if bool_decide (addr ∈ addrs l) then inr (DuplicateAddr lineNo addr)
      else
        match SplitHostPort addr with
        | inr err => inr (BadAddress lineNo addr err)
        | inl (_, portStr) =>
            match Atoi portStr with
            | None => inr (BadPort lineNo addr)
            | Some port =>
                match parse_specs lineNo (p_Nodes l) name specs [] (p_owner l) with
                | inr err => inr err
                | inl (slots, owner) =>
                    let self := length (p_Nodes l) in
                    let nodes := p_Nodes l ++ [mkNode name addr port (nodeID name) slots] in
                    let done self := mkParsing nodes self owner ({[name]} ∪ names l) ({[addr]} ∪ addrs l) in
                    if port =? myPort then
                      match p_Self l with
                      | Some _ => inr (PortTwice port)
                      | None => inl (done (Some self))
                      end
                    else inl (done (p_Self l))
                end
            end
        end
  | _ => inr (WantFields lineNo)
  end.

Fixpoint parse_lines (myPort lineNo : Z) (lines : list string) (l : parsing) : parsing + layoutError :=
  match lines with
  | [] => inl l
  | line :: lines =>
      match parse_line myPort (lineNo + 1) l line with
      | inl l => parse_lines myPort (lineNo + 1) lines l
      | inr err => inr err
      end
  end.

Definition ParseLayout (text : string) (myPort : Z) : Layout + layoutError :=
  let '(lines, long) := scan_lines (S (String.length text)) text in
  match parse_lines myPort 0 lines parsing_init with
  | inr err => inr err
  | inl l =>
      if (long : bool) then inr LineTooLong
      else match p_Nodes l, p_Self l with
           | [], _ => inr NoNodes
           | _, None => inr (NoSelf myPort)
           | nodes, Some self => inl (mkLayout nodes self (p_owner l))
           end
  end.

(** ** Owners *)

(** How many slots have an owner. *)
Fixpoint owned (owner : list (option nat)) : Z :=
  match owner with
  | [] => 0
  | Some _ :: owner => 1 + owned owner
  | None :: owner => owned owner
  end.

Lemma owned_bound owner : 0 <= owned owner <= Z.of_nat (length owner).
Proof. induction owner as [|[] owner IH]; cbn [owned length]; lia. Qed.

Lemma owned_insert owner i n : owner !! i = Some None -> owned (<[i := Some n]> owner) = owned owner + 1.
Proof.
  revert i. induction owner as [|o owner IH]; intros [|i]; try done; cbn.
  - intros [= ->]. lia.
  - intros Hi. rewrite IH by done. destruct o; lia.
Qed.

Lemma owned_all owner : owned owner = Z.of_nat (length owner) <-> Forall is_Some owner.
Proof.
  induction owner as [|o owner IH]; [by split|]. pose proof (owned_bound owner). rewrite Forall_cons.
  destruct o as [i|]; cbn [owned length].
  - rewrite <-IH. split; [intros ?; split; [done|lia]|intros [_ ?]; lia].
  - split; [lia|by intros [[? [=]] _]].
Qed.

Lemma owned_replicate k : owned (replicate k None) = 0.
Proof. by induction k. Qed.

(** [owner] assigns exactly the slots of the ranges, those of [rss !! i] to [i]. *)
Definition owner_is (rss : list (list SlotRange)) (owner : list (option nat)) : Prop :=
  Z.of_nat (length owner) = NumSlots /\
  (forall slot i, owner !! slot = Some (Some i) <->
     exists rs r, rss !! i = Some rs /\ r ∈ rs /\ Start r <= Z.of_nat slot <= End r) /\
  owned owner = foldl (fun n r => n + (End r - Start r + 1)) 0 (concat rss).

Lemma total_snoc rs r n0 :
  foldl (fun n r => n + (End r - Start r + 1)) n0 (rs ++ [r])
  = foldl (fun n r => n + (End r - Start r + 1)) n0 rs + (End r - Start r + 1).
Proof. by rewrite foldl_app. Qed.

Lemma claim_slots_inl n slots owner owner' :
  claim_slots n slots owner = inl owner' -> Forall (fun s => 0 <= s < Z.of_nat (length owner)) slots ->
  length owner' = length owner /\
  (forall s : nat, owner' !! s = if decide (Z.of_nat s ∈ slots) then Some (Some n) else owner !! s) /\
  owned owner' = owned owner + Z.of_nat (length slots) /\
  (forall s : nat, Z.of_nat s ∈ slots -> owner !! s = Some None).
Proof.
  revert owner. induction slots as [|s slots IH]; intros owner; cbn [claim_slots].
  - intros [= <-] _. split; [done|]. split; [|split; [cbn; lia|set_solver]].
    intros s. by rewrite decide_False by set_solver.
  - intros Hc [Hs Hslots]%Forall_cons.
    destruct (lookup_lt_is_Some_2 owner (Z.to_nat s)) as [o Ho]; [lia|]. rewrite Ho in Hc. destruct o as [prev|]; [done|].
    destruct (IH _ Hc) as (Hl & Hlook & Hcount & Hfree). { by rewrite length_insert. }
    rewrite length_insert in Hl. rewrite owned_insert in Hcount by done.
    split; [done|]. split; [|split; [cbn [length]; lia|]].
    + intros t. rewrite Hlook. destruct (decide (Z.of_nat t ∈ slots)) as [Ht|Ht].
      { by rewrite decide_True by set_solver. }
      destruct (decide (Z.of_nat t = s)) as [<-|Hne].
      * rewrite decide_True by set_solver. rewrite Nat2Z.id in *. apply list_lookup_insert_eq. lia.
      * rewrite decide_False by set_solver. apply list_lookup_insert_ne. lia.
    + intros t [<-|Ht]%elem_of_cons; [by rewrite Nat2Z.id in Ho|].
      specialize (Hfree t Ht). destruct (decide (Z.to_nat s = t)) as [<-|Hne].
      * done.
      * by rewrite list_lookup_insert_ne in Hfree.
Qed.

Definition range_ok (r : SlotRange) : Prop := 0 <= Start r <= End r /\ End r < NumSlots.

Lemma parseRange_ok spec r : parseRange spec = inl r -> range_ok r.
Proof.
  unfold parseRange, range_ok. destruct (match Cut "-" spec with Some _ => _ | None => _ end) as [[lo hi] b].
  destruct (Atoi lo) as [start|]; [|done]. destruct (if b then _ else _) as [stop|]; [|done].
  destruct (Z.ltb_spec start 0), (Z.leb_spec NumSlots stop), (Z.ltb_spec stop start); cbn [orb]; try done.
  intros [= <-]. cbn. lia.
Qed.

Lemma elem_of_range_slots r s : s ∈ range_slots r <-> Start r <= s <= End r.
Proof. unfold range_slots. rewrite elem_of_seqZ. lia. Qed.

(** A node claims one more range. *)
Lemma owner_claim rss slots r owner owner' :
  range_ok r -> owner_is (rss ++ [slots]) owner ->
  claim_slots (length rss) (range_slots r) owner = inl owner' -> owner_is (rss ++ [slots ++ [r]]) owner'.
Proof.
  intros [Hr Hb] (Hlen & Hown & Hsum) Hc. destruct (claim_slots_inl _ _ _ _ Hc) as (Hl & Hlook & Hcount & Hfree).
  { apply Forall_forall. intros s Hs%elem_of_range_slots. lia. }
  split; [lia|]. split.
  - intros s i. rewrite Hlook. destruct (decide (Z.of_nat s ∈ range_slots r)) as [Hs|Hs].
    + apply elem_of_range_slots in Hs as Hs'. split.
      * intros [= <-]. exists (slots ++ [r]), r. rewrite lookup_app_r, Nat.sub_diag by done.
        split; [done|]. split; [set_solver|done].
      * intros (rs & r' & Hi & Hr' & Hin). f_equal. f_equal.
        destruct (decide (i = length rss)) as [->|Hne]; [done|]. exfalso.
        apply lookup_app_Some in Hi as [Hi|[Hi1 Hi2]].
        2:{ apply lookup_lt_Some in Hi2. cbn in Hi2. lia. }
        assert (owner !! s = Some (Some i)) as Hs2.
        { apply Hown. exists rs, r'. rewrite lookup_app_l by (by eapply lookup_lt_Some). done. }
        rewrite Hfree in Hs2; done.
    + rewrite Hown. rewrite elem_of_range_slots in Hs. split; intros (rs & r' & Hi & Hr' & Hin).
      * apply lookup_app_Some in Hi as [Hi|[Hi1 Hi2]].
        { exists rs, r'. rewrite lookup_app_l by (by eapply lookup_lt_Some). done. }
        apply list_lookup_singleton_Some in Hi2 as [Hi2 <-]. exists (slots ++ [r]), r'.
        rewrite lookup_app_r by done. rewrite Hi2. split; [done|]. split; [set_solver|done].
      * apply lookup_app_Some in Hi as [Hi|[Hi1 Hi2]].
        { exists rs, r'. rewrite lookup_app_l by (by eapply lookup_lt_Some). done. }
        apply list_lookup_singleton_Some in Hi2 as [Hi2 <-]. exists slots, r'.
        rewrite lookup_app_r by done. rewrite Hi2. split; [done|]. split; [|done].
        apply elem_of_app in Hr' as [Hr'|Hr']; [done|]. apply list_elem_of_singleton in Hr' as ->. lia.
  - rewrite Hcount, Hsum, !concat_app. cbn [concat]. rewrite !app_nil_r, app_assoc, total_snoc.
    unfold range_slots. rewrite length_seqZ. lia.
Qed.

Lemma parse_specs_ok lineNo nodes name specs slots owner slots' owner' :
  parse_specs lineNo nodes name specs slots owner = inl (slots', owner') ->
  Forall range_ok slots -> owner_is ((Slots <$> nodes) ++ [slots]) owner ->
  Forall range_ok slots' /\ owner_is ((Slots <$> nodes) ++ [slots']) owner'.
Proof.
  revert slots owner. induction specs as [|spec specs IH]; intros slots owner; cbn [parse_specs].
  - by intros [= <- <-].
  - destruct (parseRange spec) as [r|] eqn:Er; [|done]. apply parseRange_ok in Er.
    destruct (claim_slots _ _ _) as [owner1|[]] eqn:Ec; [|done]. intros E Hs Ho. apply (IH _ _ E).
    + apply Forall_app. by split; [|constructor].
    + eapply owner_claim; [done|exact Ho|]. by rewrite length_fmap.
Qed.

Lemma owner_is_start rss owner : owner_is rss owner -> owner_is (rss ++ [[]]) owner.
Proof.
  intros (Hlen & Hown & Hsum). split; [done|]. split; [|rewrite concat_app; cbn [concat]; by rewrite !app_nil_r].
  intros s i. rewrite Hown. split; intros (rs & r & Hi & Hr & Hin); exists rs, r.
  - rewrite lookup_app_l by (by eapply lookup_lt_Some). done.
  - apply lookup_app_Some in Hi as [Hi|[_ Hi]]; [done|].
    apply list_lookup_singleton_Some in Hi as [_ <-]. set_solver.
Qed.

(** ** Addresses *)

Lemma last_index_absent s c i acc : not_in c s = true -> last_index s c i acc = acc.
Proof.
  revert i. induction s as [|a s IH]; intros i; [done|]. cbn [last_index not_in].
  intros [Ha Hs]%andb_true_iff. apply negb_true_iff, bool_decide_eq_false in Ha.
  rewrite decide_False by congruence. by apply IH.
Qed.

Lemma SplitHostPort_colon addr hp : SplitHostPort addr = inl hp -> has_colon addr.
Proof.
  unfold SplitHostPort, has_colon. destruct (not_in ":" addr) eqn:Hc; [|done].
  by rewrite last_index_absent.
Qed.

(** ** The parser *)

(** This node, if it was found, is the only one with its port. *)
Definition self_is (myPort : Z) (nodes : list Node) (self : option nat) : Prop :=
  forall i n, nodes !! i = Some n -> (Port n = myPort <-> self = Some i).

Record parsing_ok (myPort : Z) (l : parsing) : Prop := {
  ok_owner : owner_is (Slots <$> p_Nodes l) (p_owner l);
  ok_names : names l = list_to_set (Name <$> p_Nodes l);
  ok_addrs : addrs l = list_to_set (Addr <$> p_Nodes l);
  ok_names_NoDup : NoDup (Name <$> p_Nodes l);
  ok_addrs_NoDup : NoDup (Addr <$> p_Nodes l);
  ok_ranges : Forall (fun n => Forall range_ok (Slots n)) (p_Nodes l);
  ok_colon : Forall (fun n => has_colon (Addr n)) (p_Nodes l);
  ok_ids : Forall (fun n => ID n = nodeID (Name n)) (p_Nodes l);
  ok_self : self_is myPort (p_Nodes l) (p_Self l);
  ok_self_lt : forall i, p_Self l = Some i -> (i < length (p_Nodes l))%nat;
}.

Lemma parsing_ok_init myPort : parsing_ok myPort parsing_init.
Proof.
  constructor; cbn [parsing_init p_Nodes p_Self p_owner names addrs fmap list_fmap]; try done; try by constructor.
  split; [by rewrite length_replicate|]. split; [|apply owned_replicate]. intros s i. split.
  - by intros [[=] _]%lookup_replicate.
  - by intros (rs & r & [=] & _).
Qed.

(** A node is added to the list. *)
Lemma self_is_snoc myPort nodes self n :
  self_is myPort nodes self -> (forall i, self = Some i -> (i < length nodes)%nat) ->
  (Port n = myPort -> self = None) ->
  self_is myPort (nodes ++ [n]) (if Port n =? myPort then Some (length nodes) else self).
Proof.
  intros Hs Hlt Hn i n' [Hi|[Hi Hi']]%lookup_app_Some.
  - rewrite (Hs i n' Hi). apply lookup_lt_Some in Hi. destruct (Z.eqb_spec (Port n) myPort) as [He|He]; [|done].
    rewrite (Hn He). split; [done|]. intros Hi2. assert (length nodes = i) by congruence. lia.
  - apply list_lookup_singleton_Some in Hi' as [Hi' <-]. destruct (Z.eqb_spec (Port n) myPort) as [He|He].
    + split; [|done]. intros _. f_equal. lia.
    + split; [done|]. intros Hi2. apply Hlt in Hi2. lia.
Qed.

Lemma list_to_set_snoc (l : list string) x : list_to_set (l ++ [x]) = ({[x]} ∪ list_to_set l : gset string).
Proof. rewrite list_to_set_app_L. cbn. set_solver. Qed.

Lemma NoDup_snoc_string (l : list string) x : NoDup l -> x ∉ l -> NoDup (l ++ [x]).
Proof. intros Hl Hx. apply NoDup_app. split; [done|]. split; [set_solver|apply NoDup_singleton]. Qed.

Lemma parse_line_ok myPort lineNo l line l' :
  parsing_ok myPort l -> parse_line myPort lineNo l line = inl l' -> parsing_ok myPort l'.
Proof.
  intros Hl. unfold parse_line. destruct (Fields _) as [|name [|addr [|spec specs]]]; [by intros [= <-]|done..|].
  case_bool_decide as Hn; [done|]. case_bool_decide as Ha; [done|].
  destruct (SplitHostPort addr) as [[host portStr]|] eqn:Eh; [|done]. apply SplitHostPort_colon in Eh.
  destruct (Atoi portStr) as [port|]; [|done].
  destruct (parse_specs _ _ _ _ _ _) as [[slots owner]|] eqn:Es; [|done].
  apply parse_specs_ok in Es as [Hr Ho]; [|done|by eapply owner_is_start, ok_owner].
  set (n := mkNode name addr port (nodeID name) slots). destruct Hl.
  intros E. assert (exists self, l' = mkParsing (p_Nodes l ++ [n]) self owner ({[name]} ∪ names l) ({[addr]} ∪ addrs l) /\
    self = (if Port n =? myPort then Some (length (p_Nodes l)) else p_Self l) /\
    (Port n = myPort -> p_Self l = None)) as (self & -> & -> & Hself).
  { destruct (Z.eqb_spec port myPort) as [He|He].
    - destruct (p_Self l); [done|]. injection E as <-. eexists. split; [done|]. cbn [Port n].
      by rewrite (proj2 (Z.eqb_eq _ _) He).
    - injection E as <-. eexists. split; [done|]. cbn [Port n]. by rewrite (proj2 (Z.eqb_neq _ _) He). }
  constructor; cbn [p_Nodes p_Self p_owner names addrs]; rewrite ?fmap_app; cbn [fmap list_fmap n Name Addr Slots].
  - exact Ho.
  - by rewrite list_to_set_snoc, <-ok_names0.
  - by rewrite list_to_set_snoc, <-ok_addrs0.
  - apply NoDup_snoc_string; [done|]. intros Hin. apply Hn. rewrite ok_names0. by apply elem_of_list_to_set.
  - apply NoDup_snoc_string; [done|]. intros Hin. apply Ha. rewrite ok_addrs0. by apply elem_of_list_to_set.
  - apply Forall_app. by split; [|constructor].
  - apply Forall_app. by split; [|constructor].
  - apply Forall_app. by split; [|constructor].
  - by apply self_is_snoc.
  - intros i. rewrite length_app. cbn [length]. destruct (_ =? _); [intros [= <-]; lia|].
    intros Hi%ok_self_lt0. lia.
Qed.

Lemma parse_lines_ok myPort lineNo lines l l' :
  parsing_ok myPort l -> parse_lines myPort lineNo lines l = inl l' -> parsing_ok myPort l'.
Proof.
  revert lineNo l. induction lines as [|line lines IH]; intros lineNo l Hl; cbn [parse_lines]; [by intros [= <-]|].
  destruct (parse_line _ _ _ _) as [l1|] eqn:E1; [|done]. apply IH. by eapply parse_line_ok.
Qed.

(** What a layout that was read from a file satisfies. *)
Lemma ParseLayout_parsed text myPort l :
  ParseLayout text myPort = inl l ->
  parsing_ok myPort (mkParsing (Nodes l) (Some (Self l)) (owner l)
    (list_to_set (Name <$> Nodes l)) (list_to_set (Addr <$> Nodes l))).
Proof.
  unfold ParseLayout. destruct (scan_lines _ _) as [lines long].
  destruct (parse_lines _ _ _ _) as [p|] eqn:E; [|done]. apply parse_lines_ok in E; [|apply parsing_ok_init].
  destruct long; [done|]. destruct E. destruct p as [nodes self o ns ad]. cbn [p_Nodes p_Self p_owner names addrs] in *.
  destruct nodes as [|n nodes]; [done|]. destruct self as [self|]; [|done]. intros [= <-]. by constructor.
Qed.

Lemma Owner_lookup l slot i :
  Z.of_nat (length (owner l)) = NumSlots ->
  Owner l slot = Some i <-> 0 <= slot /\ owner l !! Z.to_nat slot = Some (Some i).
Proof.
  intros Hlen. unfold Owner. destruct (Z.ltb_spec slot 0); cbn [orb]; [split; [done|lia]|].
  destruct (Z.leb_spec NumSlots slot) as [Hs|Hs].
  - split; [done|]. intros [_ Hl%lookup_lt_Some]. lia.
  - destruct (owner l !! Z.to_nat slot) as [[j|]|]; cbn; split; try done; try (by intros [_ [=]]); naive_solver lia.
Qed.

Lemma all_owned l :
  Z.of_nat (length (owner l)) = NumSlots ->
  owned (owner l) = NumSlots <-> forall slot, 0 <= slot < NumSlots -> is_Some (Owner l slot).
Proof.
  intros Hlen. rewrite <-Hlen at 1. rewrite owned_all, Forall_lookup. split.
  - intros Hall slot Hs. destruct (lookup_lt_is_Some_2 (owner l) (Z.to_nat slot)) as [o Ho]; [lia|].
    destruct (Hall _ _ Ho) as [i ->]. exists i. apply Owner_lookup; [done|]. by split; [lia|].
  - intros Hall s o Ho. pose proof (lookup_lt_Some _ _ _ Ho). destruct (Hall (Z.of_nat s)) as [i Hi]; [lia|].
    apply Owner_lookup in Hi as [_ Hi]; [|done]. rewrite Nat2Z.id in Hi. rewrite Ho in Hi. injection Hi as ->. done.
Qed.

(** C29: A layout that was accepted is consistent: names and addresses are distinct, the
    owner of a slot is exactly the node one of whose ranges contains it (so no slot has
    two owners), slots outside every range have none, and this node is the only one with
    its port. *)
Theorem parsed_layout_is_consistent (text : string) (myPort : Z) (l : Layout) :
  ParseLayout text myPort = inl l ->
  NoDup (Name <$> Nodes l) /\ NoDup (Addr <$> Nodes l) /\
  (forall slot i, Owner l slot = Some i <->
     exists n r, Nodes l !! i = Some n /\ r ∈ Slots n /\ Start r <= slot <= End r) /\
  is_Some (Nodes l !! Self l) /\
  (forall i n, Nodes l !! i = Some n -> (Port n = myPort <-> i = Self l)).
Proof.
  intros [Ho _ _ Hn Ha Hr _ _ Hs Hlt]%ParseLayout_parsed. cbn [p_Nodes p_Self p_owner names addrs] in *.
  destruct Ho as (Hlen & Hown & _). split; [done|]. split; [done|]. split; [|split].
  - intros slot i. rewrite Owner_lookup by done. rewrite Hown. split.
    + intros (Hslot & rs & r & (n & -> & Hi)%list_lookup_fmap_Some & Hin & Hb). exists n, r.
      rewrite Z2Nat.id in Hb by lia. done.
    + intros (n & r & Hi & Hin & Hb). assert (range_ok r) as [Hr1 Hr2].
      { rewrite Forall_lookup in Hr. specialize (Hr _ _ Hi). rewrite Forall_forall in Hr. by apply Hr. }
      split; [lia|]. exists (Slots n), r. rewrite list_lookup_fmap, Hi. rewrite Z2Nat.id by lia. done.
  - apply lookup_lt_is_Some_2. by apply Hlt.
  - intros i n Hi. rewrite (Hs i n Hi). split; congruence.
Qed.

(** An accepted layout is what the dispatcher relies on in cluster mode. *)
Lemma ParseLayout_ready text myPort l cfg : ParseLayout text myPort = inl l -> cluster_ready cfg (Some l).
Proof.
  intros [Ho _ _ _ _ _ Hc _ _ Hlt]%ParseLayout_parsed _. cbn [p_Nodes p_Self p_owner names addrs] in *.
  destruct Ho as (Hlen & Hown & _). exists l. split; [done|]. split; [|done]. split; [done|].
  split; [apply lookup_lt_is_Some_2; by apply Hlt|].
  intros slot i (rs & r & (n & -> & Hi)%list_lookup_fmap_Some & _)%Hown. done.
Qed.

(** CLUSTER INFO tells whether the cluster is complete: for a layout read from the file,
    the slots it reports as assigned are those that have an owner, the state it reports is
    "ok" exactly if every slot has one, CLUSTER NODES does not panic on the layout, and the
    layout is what the dispatcher relies on in cluster mode. *)
Theorem cluster_info_tells_coverage (text : string) (myPort : Z) (l : Layout) (cfg : Config) :
  ParseLayout text myPort = inl l ->
  cluster_ready cfg (Some l) /\ (exists reply, clusterNodes l = Val reply) /\
  slots_assigned l = owned (owner l) /\
  (is_Some (strip_prefix ("cluster_state:ok" +++ CRLF) (clusterInfo l)) <->
   forall slot, 0 <= slot < NumSlots -> is_Some (Owner l slot)).
Proof.
  intros Hp. split; [by eapply ParseLayout_ready|].
  apply ParseLayout_parsed in Hp as [Ho _ _ _ _ _ Hc _ _ Hlt]. cbn [p_Nodes p_Self p_owner names addrs] in *.
  destruct Ho as (Hlen & Hown & Hsum). split; [by apply nodes_text_ok|split].
  - done.
  - rewrite <-all_owned by done. rewrite Hsum. change (foldl _ 0 _) with (slots_assigned l).
    pose proof (owned_bound (owner l)) as Hb. rewrite Hsum, Hlen in Hb. change (foldl _ 0 _) with (slots_assigned l) in Hb.
    unfold clusterInfo. destruct (Z.ltb_spec (slots_assigned l) NumSlots) as [Hlt2|Hge].
    + split; [|lia]. by intros [? [=]].
    + split; [lia|]. intros _. cbn. by eexists.
Qed.

(** ** Printing a layout file *)

(** A word of the file: visible ASCII characters other than the comment sign. *)
Definition plain_char (c : ascii) : bool := (33 <=? byte_Z c) && (byte_Z c <=? 126) && negb (bool_decide (c = "#"%char)).
Fixpoint plain (s : string) : bool :=
  match s with
  | EmptyString => true
  | String c s => plain_char c && plain s
  end.
Definition word (s : string) : Prop := s <> EmptyString /\ plain s = true.

Lemma plain_append a b : plain (a +++ b) = plain a && plain b.
Proof. induction a; cbn; [done|]. by rewrite IHa, andb_assoc. Qed.

Lemma plain_char_not_in c s : plain_char c = false -> plain s = true -> not_in c s = true.
Proof.
  intros Hc. induction s as [|a s IH]; [done|]. cbn [plain not_in]. intros [Ha Hs]%andb_true_iff.
  rewrite IH by done. rewrite bool_decide_eq_false_2; [done|]. intros ->. congruence.
Qed.

Lemma space_width_plain c s : plain_char c = true -> space_width (String c s) = 0%nat.
Proof.
  unfold plain_char, space_width. cbn [bytes_of]. intros [[H1 H2]%andb_true_iff _]%andb_true_iff.
  apply Z.leb_le in H1, H2. cbn [lookup list_lookup default].
  unfold id. rewrite (proj2 (Z.leb_gt (byte_Z c) 13)), andb_false_r by lia.
  do 5 rewrite (proj2 (Z.eqb_neq (byte_Z c) _)) by lia. done.
Qed.

(** The words of a line, each but the first after a space. *)
Definition spaced (words : list string) : string := concat_all ((fun w => " " +++ w) <$> words).

Lemma fields_loop_word field w rest :
  plain w = true -> fields_loop 0 field (w +++ rest) = fields_loop 0 (field +++ w) rest.
Proof.
  revert field. induction w as [|c w IH]; intros field; cbn [plain String.append].
  - by rewrite append_nil_r.
  - intros [Hc Hw]%andb_true_iff. cbn [fields_loop]. rewrite space_width_plain by done.
    rewrite IH by done. by rewrite append_assoc'.
Qed.

Lemma fields_loop_spaced field words :
  Forall word words -> fields_loop 0 field (spaced words) = emit_field field words.
Proof.
  intros Hw. revert field. induction Hw as [|w words [Hne Hp] Hws IH]; intros field; [done|].
  unfold spaced in *. rewrite fmap_cons. cbn [concat_all].
  change ((" " +++ w) +++ ?x) with (String " " (w +++ x)). cbn [fields_loop].
  change (space_width (String " " ?x)) with 1%nat. cbn match. rewrite fields_loop_word by done.
  cbn [String.append]. rewrite IH. f_equal. by destruct w.
Qed.

Lemma Fields_spaced w words : Forall word (w :: words) -> Fields (w +++ spaced words) = w :: words.
Proof.
  intros [[Hne Hp] Hws]%Forall_cons. unfold Fields. rewrite fields_loop_word by done.
  cbn [String.append]. rewrite fields_loop_spaced by done. by destruct w.
Qed.

Lemma plain_digit d : 0 <= d < 10 -> plain_char (digit_char d) = true.
Proof.
  intros Hd. unfold plain_char, digit_char. rewrite byte_Z_byte by lia.
  rewrite !(proj2 (Z.leb_le _ _)) by lia. rewrite bool_decide_eq_false_2; [done|].
  intros Hc%(f_equal byte_Z). rewrite byte_Z_byte in Hc by lia. change (byte_Z "#") with 35 in Hc. lia.
Qed.

Lemma format_digits_plain fuel n acc : 0 <= n -> plain acc = true -> plain (format_digits fuel n acc) = true.
Proof.
  revert n acc. induction fuel as [|fuel IH]; intros n acc Hn Ha; [done|]. cbn [format_digits].
  assert (plain (String (digit_char (n mod 10)) acc) = true) by (cbn [plain]; rewrite plain_digit; [done|zdm]).
  destruct (Z.ltb_spec n 10); [done|]. apply IH; [zdm|done].
Qed.

Lemma plain_Itoa n : plain (Itoa n) = true.
Proof.
  unfold Itoa, FormatInt, format_udec. destruct (Z.ltb_spec n 0); cbn [plain].
  - rewrite format_digits_plain by (done || lia). done.
  - apply format_digits_plain; [lia|done].
Qed.

Lemma Itoa_ne n : is_int64 n -> Itoa n <> EmptyString.
Proof. intros Hn He. pose proof (Atoi_Itoa n Hn) as Ha. by rewrite He in Ha. Qed.

Lemma Itoa_no_dash n : 0 <= n -> not_in "-" (Itoa n) = true.
Proof.
  intros Hn. unfold Itoa, FormatInt, format_udec. rewrite (proj2 (Z.ltb_ge _ _)) by lia.
  by apply format_digits_not_in.
Qed.

(** *** Ranges *)

Definition spec_text (r : SlotRange) : string :=
  if Start r =? End r then Itoa (Start r) else Itoa (Start r) +++ "-" +++ Itoa (End r).

Lemma Cut_found c a b : not_in c a = true -> Cut c (a +++ String c b) = Some (a, b).
Proof.
  induction a as [|x a IH]; cbn [String.append Cut not_in].
  - by rewrite decide_True.
  - intros [Hx Ha]%andb_true_iff. apply negb_true_iff, bool_decide_eq_false in Hx.
    rewrite decide_False by congruence. by rewrite IH.
Qed.

Lemma Cut_absent c a : not_in c a = true -> Cut c a = None.
Proof.
  induction a as [|x a IH]; cbn [Cut not_in]; [done|].
  intros [Hx Ha]%andb_true_iff. apply negb_true_iff, bool_decide_eq_false in Hx.
  rewrite decide_False by congruence. by rewrite IH.
Qed.

Lemma slot_int64 z : 0 <= z < NumSlots -> is_int64 z.
Proof. unfold is_int64, MinInt64, MaxInt64, NumSlots. lia. Qed.

Lemma parseRange_text r : range_ok r -> parseRange (spec_text r) = inl r.
Proof.
  destruct r as [a b]. unfold range_ok, spec_text, parseRange. cbn [Start End]. intros Hr.
  destruct (Z.eqb_spec a b) as [<-|Hne].
  - rewrite Cut_absent by (apply Itoa_no_dash; lia). rewrite Atoi_Itoa by (apply slot_int64; lia).
    rewrite (proj2 (Z.ltb_ge a 0)), (proj2 (Z.leb_gt NumSlots a)), (proj2 (Z.ltb_ge a a)) by lia. done.
  - change ("-" +++ ?x) with (String "-" x). rewrite Cut_found by (apply Itoa_no_dash; lia).
    rewrite !Atoi_Itoa by (apply slot_int64; lia).
    rewrite (proj2 (Z.ltb_ge a 0)), (proj2 (Z.leb_gt NumSlots b)), (proj2 (Z.ltb_ge b a)) by lia. done.
Qed.

Lemma spec_text_word r : range_ok r -> word (spec_text r).
Proof.
  intros [H1 H2]. assert (Itoa (Start r) <> EmptyString) by (apply Itoa_ne, slot_int64; lia).
  unfold spec_text. destruct (_ =? _); split.
  - done.
  - apply plain_Itoa.
  - by destruct (Itoa (Start r)).
  - by rewrite !plain_append, !plain_Itoa.
Qed.

(** *** Addresses *)

Lemma last_index_last c a b i acc : not_in c b = true -> last_index (a +++ String c b) c i acc = i + len a.
Proof.
  intros Hb. revert i acc. induction a as [|x a IH]; intros i acc; cbn [String.append last_index].
  - rewrite decide_True by done. rewrite last_index_absent by done. change (len EmptyString) with 0. lia.
  - rewrite IH, len_cons. lia.
Qed.

Lemma index_loop_absent c s i : not_in c s = true -> index_loop s c i = -1.
Proof.
  revert i. induction s as [|x s IH]; intros i; cbn [index_loop not_in]; [done|].
  intros [Hx Hs]%andb_true_iff. apply negb_true_iff, bool_decide_eq_false in Hx.
  rewrite decide_False by congruence. by apply IH.
Qed.

Lemma slice_app a b : slice (a +++ b) 0 (len a) = a.
Proof. unfold slice. rewrite Z.sub_0_r, to_nat_len. change (drop_bytes (Z.to_nat 0) ?s) with s. by rewrite take_bytes_app. Qed.

Lemma slice_first c s : not_in c s = true -> string_eqb (slice s 0 1) (String c EmptyString) = false.
Proof.
  destruct s as [|x s]; [done|]. cbn [not_in]. intros [Hx _]%andb_true_iff.
  apply negb_true_iff, bool_decide_eq_false in Hx. unfold string_eqb. apply String.eqb_neq. change (slice (String x s) 0 1) with (String x EmptyString). congruence.
Qed.

Lemma SplitHostPort_text host port :
  not_in ":" host = true -> not_in "[" host = true -> not_in "]" host = true ->
  SplitHostPort (host +++ ":" +++ Itoa port) = inl (host, Itoa port).
Proof.
  intros Hc Ho Hcl. unfold SplitHostPort. change (":" +++ Itoa port) with (String ":" (Itoa port)).
  assert (forall c, digit_of c = None -> c <> "-"%char -> not_in c (Itoa port) = true) as Hd
    by (intros; by apply FormatInt_not_in).
  assert (forall c, digit_of c = None -> c <> "-"%char -> c <> ":"%char -> not_in c host = true ->
    not_in c (host +++ String ":" (Itoa port)) = true) as Hn.
  { intros c H1 H2 H3 H4. rewrite not_in_append, H4. cbn [not_in]. rewrite bool_decide_eq_false_2, Hd by done. done. }
  rewrite last_index_last by (by apply Hd). pose proof (len_nonneg host) as Hl. rewrite Z.add_0_l.
  rewrite (proj2 (Z.ltb_ge _ _)) by lia. rewrite slice_first by (by apply Hn). rewrite slice_app.
  unfold indexByte. change (Z.to_nat 0) with 0%nat. cbn [drop_bytes]. rewrite !index_loop_absent by (done || by apply Hn). cbn match.
  f_equal. f_equal. unfold slice. rewrite len_append, len_cons.
  replace (Z.to_nat (len host + 1)) with (String.length (host +++ ":")).
  2:{ rewrite length_append'. unfold len. cbn [String.length]. lia. }
  replace (host +++ String ":" (Itoa port)) with ((host +++ ":") +++ Itoa port) by (by rewrite append_assoc').
  rewrite drop_bytes_app. replace (Z.to_nat _) with (String.length (Itoa port)) by (unfold len; lia).
  rewrite <-(append_nil_r (Itoa port)) at 2. by rewrite take_bytes_app.
Qed.

(** *** Lines *)

Definition line_ok (line : string) : Prop :=
  not_in LF line = true /\ not_in CR line = true /\ len line < MaxScanTokenSize.

Lemma cut_line_found line rest : not_in LF line = true -> cut_line (line +++ String LF rest) = (line, Some rest).
Proof.
  induction line as [|c line IH]; cbn [String.append cut_line not_in].
  - by rewrite decide_True.
  - intros [Hc Hl]%andb_true_iff. apply negb_true_iff, bool_decide_eq_false in Hc.
    rewrite decide_False by congruence. by rewrite IH.
Qed.

Lemma dropCR_plain line : not_in CR line = true -> dropCR line = line.
Proof.
  intros Hl. unfold dropCR, TrimSuffix. replace (strip_suffix _ _) with (@None string); [done|]. symmetry.
  induction line as [|c line IH]; [done|]. cbn [not_in] in Hl. apply andb_true_iff in Hl as [Hc Hl].
  apply negb_true_iff, bool_decide_eq_false in Hc. cbn [strip_suffix].
  rewrite decide_False by congruence. by rewrite IH.
Qed.

Definition lines_text (lines : list string) : string := concat_all ((fun l => l +++ String LF EmptyString) <$> lines).

Lemma scan_lines_text lines fuel :
  Forall line_ok lines -> (length lines < fuel)%nat -> scan_lines fuel (lines_text lines) = (lines, false).
Proof.
  intros Hl. revert fuel. induction Hl as [|line lines (Hlf & Hcr & Hlen) Hls IH]; intros fuel Hf.
  - by destruct fuel.
  - destruct fuel as [|fuel]; [lia|]. cbn [length] in Hf.
    assert (lines_text (line :: lines) = line +++ String LF (lines_text lines)) as ->.
    { unfold lines_text. rewrite fmap_cons. cbn [concat_all]. by rewrite append_assoc'. }
    assert (exists c s, line +++ String LF (lines_text lines) = String c s) as (c & s & E).
    { destruct line; by eexists _, _. }
    cbn [scan_lines]. rewrite E, <-E, cut_line_found by done.
    rewrite (proj2 (Z.leb_gt _ _)) by lia. cbn [default id from_option].
    rewrite IH by lia. by rewrite dropCR_plain.
Qed.

Lemma lines_text_length lines : (length lines <= String.length (lines_text lines))%nat.
Proof.
  induction lines as [|l lines IH]; [done|]. unfold lines_text in *. rewrite fmap_cons. cbn [concat_all length].
  rewrite !length_append'. cbn [String.length]. lia.
Qed.

(** *** Claiming free slots *)

Lemma claim_slots_free n slots owner :
  NoDup slots -> Forall (fun s => 0 <= s /\ owner !! Z.to_nat s = Some None) slots ->
  exists owner', claim_slots n slots owner = inl owner'.
Proof.
  intros Hnd. revert owner. induction Hnd as [|s slots Hs Hnd IH]; intros owner Hfree; [by eexists|].
  apply Forall_cons in Hfree as [[Hs0 Ho] Hfree]. cbn [claim_slots]. rewrite Ho. apply IH.
  rewrite Forall_forall in Hfree |- *. intros t Ht. destruct (Hfree t Ht) as [Ht0 Hto]. split; [done|].
  rewrite list_lookup_insert_ne; [done|]. intros He. apply Z2Nat.inj in He; [|done..]. subst. done.
Qed.

(** No two ranges overlap. *)
Definition disjoint_ranges (rs : list SlotRange) : Prop := NoDup (concat (range_slots <$> rs)).

Lemma disjoint_ranges_snoc rs r rs' s :
  disjoint_ranges (rs ++ r :: rs') -> s ∈ range_slots r -> forall r', r' ∈ rs -> s ∉ range_slots r'.
Proof.
  unfold disjoint_ranges. rewrite fmap_app, concat_app, fmap_cons. cbn [concat].
  intros (_ & Hd & _)%NoDup_app Hs r' Hr' Hs'. apply (Hd s); [|set_solver].
  apply list_elem_of_In, in_concat. exists (range_slots r'). rewrite <-!list_elem_of_In.
  split; [by apply list_elem_of_fmap_2|done].
Qed.

Lemma owner_free rss slots r rs' owner s :
  owner_is (rss ++ [slots]) owner -> disjoint_ranges (concat rss ++ slots ++ r :: rs') -> range_ok r ->
  s ∈ range_slots r -> owner !! Z.to_nat s = Some None.
Proof.
  intros (Hlen & Hown & _) Hd [Hr Hb] Hs. rewrite app_assoc in Hd.
  pose proof (disjoint_ranges_snoc _ _ _ _ Hd Hs) as Hno. apply elem_of_range_slots in Hs.
  destruct (lookup_lt_is_Some_2 owner (Z.to_nat s)) as [[i|] Ho]; [lia| |done]. exfalso.
  apply Hown in Ho as (rs & r' & Hi & Hr' & Hin). rewrite Z2Nat.id in Hin by lia.
  apply (Hno r'); [|by apply elem_of_range_slots].
  replace (concat rss ++ slots) with (concat (rss ++ [slots])) by (rewrite concat_app; cbn; by rewrite app_nil_r).
  apply list_elem_of_In, in_concat. exists rs. rewrite <-!list_elem_of_In. split; [by eapply list_elem_of_lookup_2|done].
Qed.

Lemma parse_specs_text lineNo nodes name rs slots owner :
  Forall range_ok rs -> owner_is ((Slots <$> nodes) ++ [slots]) owner ->
  disjoint_ranges (concat (Slots <$> nodes) ++ slots ++ rs) ->
  exists owner', parse_specs lineNo nodes name (spec_text <$> rs) slots owner = inl (slots ++ rs, owner').
Proof.
  intros Hrs. revert slots owner. induction Hrs as [|r rs Hr Hrs IH]; intros slots owner Ho Hd.
  - exists owner. cbn. by rewrite app_nil_r.
  - rewrite fmap_cons. cbn [parse_specs]. rewrite parseRange_text by done.
    destruct (claim_slots_free (length nodes) (range_slots r) owner) as [owner1 E].
    + apply NoDup_seqZ.
    + apply Forall_forall. intros s Hs. split; [apply elem_of_range_slots in Hs; destruct Hr; lia|].
      by eapply owner_free.
    + rewrite E. destruct (IH (slots ++ [r]) owner1) as [owner' E'].
      * eapply owner_claim; [done|exact Ho|]. by rewrite length_fmap.
      * by rewrite <-(app_assoc slots).
      * exists owner'. by rewrite E', <-app_assoc.
Qed.

(** *** Nodes *)

(** A node as a file describes it. *)
Record node_ok (n : Node) : Prop := {
  node_name : word (Name n);
  node_addr : exists host, Addr n = host +++ ":" +++ Itoa (Port n) /\ plain host = true /\
    not_in ":" host = true /\ not_in "[" host = true /\ not_in "]" host = true;
  node_port : is_int64 (Port n);
  node_id : ID n = nodeID (Name n);
  node_slots : Slots n <> [];
  node_ranges : Forall range_ok (Slots n);
}.

Definition node_line (n : Node) : string := Name n +++ spaced (Addr n :: (spec_text <$> Slots n)).

Definition layout_text (nodes : list Node) : string := lines_text (node_line <$> nodes).

Lemma node_words n : node_ok n -> Forall word (Name n :: Addr n :: (spec_text <$> Slots n)).
Proof.
  intros [Hn (host & Ha & Hh & _) Hp _ _ Hr]. constructor; [done|]. constructor.
  - rewrite Ha. split; [by destruct host|]. by rewrite !plain_append, Hh, plain_Itoa.
  - apply Forall_fmap. eapply Forall_impl; [exact Hr|]. apply spec_text_word.
Qed.

Lemma not_in_spaced c words : Forall word words -> plain_char c = false -> c <> " "%char -> not_in c (spaced words) = true.
Proof.
  intros Hw Hc Hs. induction Hw as [|w words [_ Hp] Hws IH]; [done|]. unfold spaced in *. rewrite fmap_cons.
  cbn [concat_all]. change ((" " +++ w) +++ ?x) with (String " " (w +++ x)). cbn [not_in].
  rewrite bool_decide_eq_false_2, not_in_append, IH, plain_char_not_in by done. done.
Qed.

Lemma not_in_node_line c n : node_ok n -> plain_char c = false -> c <> " "%char -> not_in c (node_line n) = true.
Proof.
  intros Hn Hc Hs. pose proof (node_words n Hn) as [[_ Hp] Hws]%Forall_cons. unfold node_line.
  rewrite not_in_append, not_in_spaced, plain_char_not_in by done. done.
Qed.

Lemma before_byte_absent c s : not_in c s = true -> before_byte c s = s.
Proof.
  induction s as [|x s IH]; cbn [before_byte not_in]; [done|].
  intros [Hx Hs]%andb_true_iff. apply negb_true_iff, bool_decide_eq_false in Hx.
  rewrite decide_False by congruence. by rewrite IH.
Qed.

Lemma parse_line_text myPort lineNo l n :
  parsing_ok myPort l -> node_ok n -> Name n ∉ Name <$> p_Nodes l -> Addr n ∉ Addr <$> p_Nodes l ->
  disjoint_ranges (concat (Slots <$> p_Nodes l) ++ Slots n) -> (Port n = myPort -> p_Self l = None) ->
  exists l', parse_line myPort lineNo l (node_line n) = inl l' /\ p_Nodes l' = p_Nodes l ++ [n].
Proof.
  intros Hl Hn Hname Haddr Hd Hself. unfold parse_line.
  rewrite before_byte_absent by (by apply not_in_node_line). unfold node_line.
  rewrite Fields_spaced by (by apply node_words). destruct Hn as [Hw (host & Ha & _ & H1 & H2 & H3) Hp Hid Hne Hr].
  destruct (spec_text <$> Slots n) as [|sp sps] eqn:Esp; [by destruct (Slots n)|]. rewrite <-Esp. clear Esp.
  rewrite bool_decide_eq_false_2 by (rewrite (ok_names _ _ Hl), elem_of_list_to_set; done).
  rewrite bool_decide_eq_false_2 by (rewrite (ok_addrs _ _ Hl), elem_of_list_to_set; done).
  assert (SplitHostPort (Addr n) = inl (host, Itoa (Port n))) as -> by (rewrite Ha; by apply SplitHostPort_text).
  rewrite Atoi_Itoa by done.
  destruct (parse_specs_text lineNo (p_Nodes l) (Name n) (Slots n) [] (p_owner l)) as [owner' E]; [done| |done|].
  { by eapply owner_is_start, ok_owner. }
  rewrite E. cbn [app]. destruct n as [name addr port id slots]. cbn [Name Addr Port ID Slots] in *. subst id.
  destruct (Z.eqb_spec port myPort) as [He|He]; [rewrite (Hself He)|]; by eexists.
Qed.

Lemma parse_lines_text myPort nodes lineNo l :
  parsing_ok myPort l -> Forall node_ok nodes -> NoDup (Name <$> (p_Nodes l ++ nodes)) ->
  NoDup (Addr <$> (p_Nodes l ++ nodes)) -> disjoint_ranges (concat (Slots <$> (p_Nodes l ++ nodes))) ->
  (forall i j n n', (p_Nodes l ++ nodes) !! i = Some n -> (p_Nodes l ++ nodes) !! j = Some n' ->
     Port n = myPort -> Port n' = myPort -> i = j) ->
  exists l', parse_lines myPort lineNo (node_line <$> nodes) l = inl l' /\ p_Nodes l' = p_Nodes l ++ nodes.
Proof.
  intros Hl Hns. revert lineNo l Hl. induction Hns as [|n nodes Hn Hns IH]; intros lineNo l Hl Hnm Had Hd Hp.
  - exists l. cbn. by rewrite app_nil_r.
  - rewrite fmap_cons. cbn [parse_lines].
    destruct (parse_line_text myPort (lineNo + 1) l n) as (l1 & E1 & Hl1); try done.
    + rewrite fmap_app in Hnm. apply NoDup_app in Hnm as (_ & Hx & _). intros Hin. apply (Hx _ Hin). set_solver.
    + rewrite fmap_app in Had. apply NoDup_app in Had as (_ & Hx & _). intros Hin. apply (Hx _ Hin). set_solver.
    + unfold disjoint_ranges in *. rewrite !fmap_app, fmap_cons, concat_app in Hd. cbn [concat] in Hd.
      rewrite app_assoc, fmap_app, concat_app in Hd. by apply NoDup_app in Hd as [Hd _].
    + intros He. destruct (p_Self l) as [i|] eqn:Es; [exfalso|done]. pose proof (ok_self_lt _ _ Hl i Es) as Hi.
      destruct (lookup_lt_is_Some_2 (p_Nodes l) i Hi) as [n' Hn'].
      assert (i = length (p_Nodes l)); [|lia]. apply (Hp i _ n' n).
      * by rewrite lookup_app_l.
      * by rewrite lookup_app_r, Nat.sub_diag by done.
      * by apply (ok_self _ _ Hl i n' Hn').
      * done.
    + rewrite E1. assert (p_Nodes l ++ n :: nodes = p_Nodes l1 ++ nodes) as Heq by (rewrite Hl1, <-app_assoc; done).
      rewrite Heq in *. apply IH; try done. by eapply parse_line_ok.
Qed.

(** C30: Nothing but mistakes is rejected: the file that lists any nodes with distinct names
    and addresses, in range and disjoint slot ranges and exactly one of them on this node's
    port is accepted, and read back as exactly these nodes. *)
Theorem layout_file_roundtrip (nodes : list Node) (myPort : Z) (self : nat) (me : Node) :
  Forall node_ok nodes -> Forall (fun n => len (node_line n) < MaxScanTokenSize) nodes ->
  NoDup (Name <$> nodes) -> NoDup (Addr <$> nodes) -> disjoint_ranges (concat (Slots <$> nodes)) ->
  nodes !! self = Some me -> Port me = myPort ->
  (forall i n, nodes !! i = Some n -> Port n = myPort -> i = self) ->
  exists o, ParseLayout (layout_text nodes) myPort = inl (mkLayout nodes self o).
Proof.
  intros Hn Hlen Hnm Had Hd Hself Hport Hu. unfold ParseLayout, layout_text.
  pose proof (lines_text_length (node_line <$> nodes)) as Hll. rewrite scan_lines_text; [| |lia].
  2:{ apply Forall_fmap. rewrite Forall_forall in Hn, Hlen |- *. intros n Hin. specialize (Hn n Hin).
      split; [by apply not_in_node_line|]. split; [by apply not_in_node_line|by apply Hlen]. }
  destruct (parse_lines_text myPort nodes 0 parsing_init) as (l & E & Hl); try done.
  { apply parsing_ok_init. }
  { intros i j n n' Hi Hj Hpi Hpj. cbn in Hi, Hj. rewrite (Hu i n Hi Hpi). by rewrite (Hu j n' Hj Hpj). }
  rewrite E. apply parse_lines_ok in E; [|apply parsing_ok_init]. cbn [parsing_init p_Nodes app] in Hl.
  pose proof (ok_self _ _ E self me) as Hs. rewrite Hl in Hs |- *. rewrite (proj1 (Hs Hself) Hport).
  destruct nodes as [|n nodes]; [done|]. by eexists.
Qed.

(** ** Concrete files *)

Definition small_file : string :=
  "# name address slots" +++ String LF
  ("n1  127.0.0.1:7001 0-100 200 # the first" +++ String CR (String LF
  (String LF "n2 [::1]:7002 150"))).

Definition small_layout : Layout :=
  match ParseLayout small_file 7002 with inl l => l | inr _ => mkLayout [] 0 [] end.

Lemma small_file_parses : ParseLayout small_file 7002 = inl small_layout.
Proof. vm_compute. reflexivity. Qed.

(** The mistakes of the tests. *)
Example mistakes :
  (fun text => match ParseLayout text 7001 with inl _ => None | inr e => Some e end) <$>
    ["n1 a:7001 0-100" +++ String LF "n2 a:7002 100-200"; "n1 a:7001 0-16384"; "n1 a:7001 200-100"; "n1 a:7001 abc";
     "n1 a:7001"; "n1 localhost 0-100"; "n1 a:7001 0-10" +++ String LF "n1 a:7002 11-20"; "n1 a:7002 0-100"; "# none";
     "n1 a:7001 1" +++ String LF "n2 b:7001 2"]
  = [Some (ClaimedByBoth 2 100 "n1" "n2"); Some (BadRange 1 (RangeOutOfBounds "0-16384"));
     Some (BadRange 1 (RangeOutOfBounds "200-100")); Some (BadRange 1 (BadSlot "abc")); Some (WantFields 1);
     Some (BadAddress 1 "localhost" missingPort); Some (DuplicateName 2 "n1"); Some (NoSelf 7001); Some NoNodes;
     Some (PortTwice 7001)].
Proof. vm_compute. reflexivity. Qed.

Lemma parsed_layout_is_consistent_witness :
  Owner small_layout 100 = Some 0%nat <->
  exists n r, Nodes small_layout !! 0%nat = Some n /\ r ∈ Slots n /\ Start r <= 100 <= End r.
Proof.
  destruct (parsed_layout_is_consistent small_file 7002 small_layout small_file_parses) as (_ & _ & Ho & _).
  apply Ho.
Defined.

Lemma cluster_info_tells_coverage_witness :
  slots_assigned small_layout = owned (owner small_layout) /\ exists reply, clusterNodes small_layout = Val reply.
Proof.
  destruct (cluster_info_tells_coverage small_file 7002 small_layout (mkConfig 0 "noeviction" 5 true)
    small_file_parses) as (_ & Hn & Hs & _).
  split; [exact Hs|exact Hn].
Defined.

Definition two_nodes : list Node :=
  [mkNode "n1" "127.0.0.1:7001" 7001 (nodeID "n1") [mkSlotRange 0 100; mkSlotRange 200 200];
   mkNode "n2" ":7002" 7002 (nodeID "n2") [mkSlotRange 150 199]].

Lemma layout_file_roundtrip_witness :
  exists o, ParseLayout (layout_text two_nodes) 7002 = inl (mkLayout two_nodes 1 o).
Proof.
  apply (layout_file_roundtrip two_nodes 7002 1 (mkNode "n2" ":7002" 7002 (nodeID "n2") [mkSlotRange 150 199])).
  - repeat constructor; cbn; try done; try lia.
    + exists "127.0.0.1". repeat split; reflexivity.
    + exists EmptyString. repeat split; reflexivity.
  - repeat constructor; vm_compute; reflexivity.
  - apply (bool_decide_unpack _). vm_compute. exact I.
  - apply (bool_decide_unpack _). vm_compute. exact I.
  - apply (bool_decide_unpack _). vm_compute. exact I.
  - reflexivity.
  - reflexivity.
  - intros [|[|i]] n Hi Hp; [|done|done]. injection Hi as <-. discriminate.
Defined.
