(* ===== verification/Transaction.v ===== *)
(** * Transactions and the dispatch worker (src/server/transaction.go, tcp_server.go)

    The state a connection keeps between MULTI and EXEC, as a state machine over
    the commands of the client, and the worker that runs one request at a time. *)

From S2P Require Import Prelude GoLib Resp Aof Sds Hll World Lru Store StoreInv Evict Slot Layout Commands Dispatch.

Record txState := mkTx { isMulti : bool; queued : list Command; txDirty : bool }.

Inductive txAction := actionPassthrough | actionReply | actionExec.

Definition newTxState : txState := mkTx false [] false.

(** [t.reset()] *)
Definition tx_reset (t : txState) : txState := mkTx false [] false.

(** One unit of work for the worker. An empty list is the nil slice. *)
Record CommandRequest := mkRequest {
  req_cmd : Command;
  batch : list Command;
  pipeline : list Command;
}.

Definition execAbort : string := EncodeError "EXECABORT Transaction discarded because of previous errors.".

Section transactions.
Context `{GoEnv} (cfg : Config) (Current : option Layout).

(** The new state, the action, the reply and the batch. *)
Definition handle (t : txState) (cmd : Command) : txState * (txAction * string * list Command) :=
  if string_eqb (cmdName cmd) "MULTI" then
    if isMulti t then (t, (actionReply, EncodeError "ERR MULTI calls can not be nested", []))
    else (mkTx true (queued t) (txDirty t), (actionReply, EncodeSimpleString "OK", []))
  else if string_eqb (cmdName cmd) "DISCARD" then
    if negb (isMulti t) then (t, (actionReply, EncodeError "ERR DISCARD without MULTI", []))
    else (tx_reset t, (actionReply, EncodeSimpleString "OK", []))
  else if string_eqb (cmdName cmd) "EXEC" then
    if negb (isMulti t) then (t, (actionReply, EncodeError "ERR EXEC without MULTI", []))
    else if txDirty t then (tx_reset t, (actionReply, execAbort, []))
    else (tx_reset t, (actionExec, EmptyString, queued t))
  else if negb (isMulti t) then (t, (actionPassthrough, EmptyString, []))
  else if negb (IsKnownCommand cfg Current (cmdName cmd)) then
    (mkTx (isMulti t) (queued t) true,
     (actionReply, EncodeError ("ERR unknown command '" +++ cmdName cmd +++ "'"), []))
  else
    match CheckCluster Current cmd with
    | Some errReply => (mkTx (isMulti t) (queued t) true, (actionReply, errReply, []))
    | None => (mkTx (isMulti t) (queued t ++ [cmd]) (txDirty t), (actionReply, EncodeSimpleString "QUEUED", []))
    end.

(** The body of the loop of [dispatchWorker]. *)
Definition serve (req : CommandRequest) : GoM World string :=
  match batch req with
  | _ :: _ => DispatchBatch cfg Current (batch req)
  | [] =>
      match pipeline req with
      | _ :: _ => DispatchPipeline cfg Current (pipeline req)
      | [] => Dispatch cfg Current (req_cmd req)
      end
  end.

(** The requests of the channel, in the order they are taken from it; the replies go to
    the connections that sent them. *)
Fixpoint dispatchWorker (reqs : list CommandRequest) : GoM World (list string) :=
  match reqs with
  | [] => mret []
  | req :: reqs => reply ← serve req; replies ← dispatchWorker reqs; mret (reply :: replies)
  end.

(** What every command preserves the worker preserves, however the commands are grouped. *)
Section preserved.
Context (I : World -> Prop).
Hypothesis Dispatch_keeps : forall w cmd reply w', I w -> Dispatch cfg Current cmd w = Val (reply, w') -> I w'.

Lemma dispatch_each_keeps cmds w replies w' : I w -> dispatch_each cfg Current cmds w = Val (replies, w') -> I w'.
Proof.
  revert w replies. induction cmds as [|c cmds IH]; intros w replies Hw; cbn [dispatch_each].
  - by intros [= <- <-].
  - unfold mbind, GoM_bind. destruct (Dispatch cfg Current c w) as [[r w1]|] eqn:E1; [|done].
    destruct (dispatch_each cfg Current cmds w1) as [[rs w2]|] eqn:E2; [|done]. intros [= <- <-]. eauto.
Qed.

Lemma serve_keeps req w reply w' : I w -> serve req w = Val (reply, w') -> I w'.
Proof.
  intros Hw. unfold serve. destruct (batch req) as [|c cs].
  - destruct (pipeline req) as [|c cs]; [by eauto|]. unfold DispatchPipeline, mbind, GoM_bind.
    destruct (dispatch_each cfg Current (c :: cs) w) as [[rs w1]|] eqn:E1; [|done]. intros [= <- <-].
    by eapply dispatch_each_keeps.
  - unfold DispatchBatch. destruct (checkClusterBatch _ _); [by intros [= <- <-]|]. unfold mbind, GoM_bind.
    destruct (dispatch_each cfg Current (c :: cs) w) as [[rs w1]|] eqn:E1; [|done]. intros [= <- <-].
    by eapply dispatch_each_keeps.
Qed.

Lemma dispatchWorker_keeps reqs w replies w' : I w -> dispatchWorker reqs w = Val (replies, w') -> I w'.
Proof.
  revert w replies. induction reqs as [|req reqs IH]; intros w replies Hw; cbn [dispatchWorker].
  - by intros [= <- <-].
  - unfold mbind, GoM_bind. destruct (serve req w) as [[r w1]|] eqn:E1; [|done].
    destruct (dispatchWorker reqs w1) as [[rs w2]|] eqn:E2; [|done]. intros [= <- <-].
    eapply IH; [by eapply serve_keeps|exact E2].
Qed.
End preserved.

Lemma dispatchWorker_snoc reqs req w replies w1 r w2 :
  dispatchWorker reqs w = Val (replies, w1) -> serve req w1 = Val (r, w2) ->
  dispatchWorker (reqs ++ [req]) w = Val (replies ++ [r], w2).
Proof.
  revert w replies. induction reqs as [|req0 reqs IH]; intros w replies; cbn [dispatchWorker app]; unfold mbind, GoM_bind.
  - intros [= <- <-] ->. done.
  - destruct (serve req0 w) as [[r0 w0]|]; [|done]. destruct (dispatchWorker reqs w0) as [[rs w3]|] eqn:E; [|done].
    intros [= <- <-] Hs. by rewrite (IH w0 rs E Hs).
Qed.

(** ** The state machine *)

(** States a connection can be in. *)
Inductive reachable : txState -> Prop :=
  | reachable_new : reachable newTxState
  | reachable_step t cmd : reachable t -> reachable (handle t cmd).1.

(** The command may be queued. *)
Definition acceptable (c : Command) : bool :=
  IsKnownCommand cfg Current (cmdName c) && match checkCluster Current c with None => true | Some _ => false end.

Definition is_control (c : Command) : bool :=
  string_eqb (cmdName c) "MULTI" || string_eqb (cmdName c) "DISCARD" || string_eqb (cmdName c) "EXEC".

(** Outside MULTI nothing is queued, and whatever is queued was checked. *)
Definition tx_ok (t : txState) : Prop :=
  (isMulti t = false -> t = newTxState) /\
  Forall (fun c => acceptable c = true /\ is_control c = false) (queued t).

Lemma handle_plain t cmd :
  is_control cmd = false -> isMulti t = true ->
  handle t cmd = if acceptable cmd then (mkTx true (queued t ++ [cmd]) (txDirty t), (actionReply, EncodeSimpleString "QUEUED", []))
                 else (mkTx true (queued t) true, (handle t cmd).2).
Proof.
  unfold is_control, handle, acceptable, CheckCluster. intros Hc Hm. apply orb_false_iff in Hc as [[-> ->]%orb_false_iff ->].
  rewrite Hm. cbn [negb]. destruct (IsKnownCommand _ _ _); cbn [negb andb]; [|done].
  by destruct (checkCluster Current cmd).
Qed.

Lemma handle_plain_reply t cmd :
  is_control cmd = false -> isMulti t = true -> (handle t cmd).2.1.1 = actionReply.
Proof.
  unfold is_control, handle, CheckCluster. intros Hc Hm. apply orb_false_iff in Hc as [[-> ->]%orb_false_iff ->].
  rewrite Hm. cbn [negb]. destruct (IsKnownCommand _ _ _); cbn [negb]; [|done].
  by destruct (checkCluster Current cmd).
Qed.

Lemma tx_ok_new : tx_ok newTxState.
Proof. by split. Qed.

Lemma handle_ok t cmd : tx_ok t -> tx_ok (handle t cmd).1.
Proof.
  intros Ht. pose proof Ht as [Hout Hq]. destruct (is_control cmd) eqn:Hc.
  - unfold handle, CheckCluster. unfold is_control in Hc. destruct (string_eqb _ "MULTI").
    { destruct (isMulti t); [exact Ht|]. split; [done|exact Hq]. }
    destruct (string_eqb _ "DISCARD"). { destruct (isMulti t); [exact tx_ok_new|exact Ht]. }
    cbn [orb] in Hc. rewrite Hc. destruct (isMulti t); [|exact Ht].
    destruct (txDirty t); exact tx_ok_new.
  - destruct (isMulti t) eqn:Hm.
    + rewrite handle_plain by done. destruct (acceptable cmd) eqn:Ha; (split; [done|]); [|exact Hq].
      apply Forall_app. split; [exact Hq|]. by apply Forall_singleton.
    + unfold handle, CheckCluster. unfold is_control in Hc. apply orb_false_iff in Hc as [[-> ->]%orb_false_iff ->].
      rewrite Hm. exact Ht.
Qed.

Lemma reachable_ok t : reachable t -> tx_ok t.
Proof. induction 1 as [|t cmd _ IH]; [exact tx_ok_new|by apply handle_ok]. Qed.

(** ** What transactions promise *)

(** The states and answers along a sequence of commands. *)
Fixpoint run_tx (t : txState) (cmds : list Command) : txState * list (txAction * string * list Command) :=
  match cmds with
  | [] => (t, [])
  | c :: cmds =>
      let '(t1, out) := handle t c in
      let '(t2, outs) := run_tx t1 cmds in
      (t2, out :: outs)
  end.

Lemma run_tx_queue t cmds :
  isMulti t = true -> Forall (fun c => is_control c = false) cmds ->
  (run_tx t cmds).1 = mkTx true (queued t ++ filter (fun c => acceptable c = true) cmds)
                           (txDirty t || negb (forallb acceptable cmds)) /\
  Forall (fun out => out.1.1 = actionReply) (run_tx t cmds).2.
Proof.
  intros Hm Hc. revert t Hm. induction Hc as [|c cmds Hc Hcs IH]; intros t Hm.
  - cbn. rewrite app_nil_r, orb_false_r. destruct t. cbn in *. by rewrite Hm.
  - cbn [run_tx]. pose proof (handle_plain_reply t c Hc Hm) as Hr. pose proof (handle_plain t c Hc Hm) as Hh.
    destruct (handle t c) as [t1 out] eqn:E1. cbn [snd fst] in Hr.
    assert (isMulti t1 = true /\ queued t1 = queued t ++ filter (fun c => acceptable c = true) [c] /\
            txDirty t1 = txDirty t || negb (acceptable c)) as (Hm1 & Hq1 & Hd1).
    { rewrite filter_cons. cbn [snd] in Hh. destruct (acceptable c) eqn:Ha.
      - injection Hh as -> _. cbn. by rewrite orb_false_r.
      - injection Hh as ->. cbn. by rewrite app_nil_r, orb_true_r. }
    destruct (IH t1 Hm1) as [Hs Ho]. destruct (run_tx t1 cmds) as [t2 outs]. cbn [fst snd] in *.
    split; [|by constructor]. rewrite Hs, Hq1, Hd1, <-app_assoc, <-filter_app. cbn [app forallb].
    f_equal. by destruct (txDirty t), (acceptable c).
Qed.

Lemma filter_acceptable cmds : forallb acceptable cmds = true -> filter (fun c => acceptable c = true) cmds = cmds.
Proof.
  induction cmds as [|c cmds IH]; cbn [forallb]; [done|]. intros [Hc Hcs]%andb_true_iff.
  rewrite filter_cons_True by done. by rewrite IH.
Qed.

(** C17: A transaction runs all of its commands in the order they were sent, or none: after
    MULTI and any commands, EXEC hands exactly those commands to the worker if each of them
    was known and passed the cluster check, and answers EXECABORT otherwise. Nothing is
    handed out before EXEC, and afterwards the connection is as new. *)
Theorem transaction_runs_all_or_none (cmds : list Command) (args args' : list string) :
  Forall (fun c => is_control c = false) cmds ->
  let '(t, outs) := run_tx newTxState (mkCommand "MULTI" args :: cmds) in
  Forall (fun out => out.1.1 = actionReply) outs /\
  handle t (mkCommand "EXEC" args')
  = (newTxState, if forallb acceptable cmds then (actionExec, EmptyString, cmds)
                 else (actionReply, execAbort, [])).
Proof.
  intros Hc. cbn [run_tx]. change (handle newTxState (mkCommand "MULTI" args))
    with (mkTx true [] false, (actionReply, EncodeSimpleString "OK", @nil Command)).
  destruct (run_tx_queue (mkTx true [] false) cmds eq_refl Hc) as [Hs Ho].
  destruct (run_tx (mkTx true [] false) cmds) as [t outs]. cbn [fst snd] in *.
  split; [by constructor|]. rewrite Hs. cbn [queued app txDirty orb].
  change (handle ?t (mkCommand "EXEC" args')) with
    (if negb (isMulti t) then (t, (actionReply, EncodeError "ERR EXEC without MULTI", @nil Command))
     else if txDirty t then (tx_reset t, (actionReply, execAbort, [])) else (tx_reset t, (actionExec, EmptyString, queued t))).
  cbn [isMulti txDirty queued negb]. destruct (forallb acceptable cmds) eqn:Ha; [|done].
  cbn [negb]. unfold tx_reset, newTxState. do 2 f_equal.
  by apply filter_acceptable.
Qed.

(** Whatever a client sends, the batch that EXEC hands to the worker contains only
    commands that are registered, are not transaction commands themselves and may be
    served by this node; and a connection outside MULTI never hands out a batch. *)
Theorem exec_batch_was_checked (t t' : txState) (cmd : Command) (reply : string) (b : list Command) :
  reachable t -> handle t cmd = (t', (actionExec, reply, b)) ->
  isMulti t = true /\ t' = newTxState /\ b = queued t /\
  Forall (fun c => IsKnownCommand cfg Current (cmdName c) = true /\ checkCluster Current c = None /\
                   is_control c = false) b.
Proof.
  intros Hr. pose proof (reachable_ok t Hr) as [_ Hq]. unfold handle, CheckCluster.
  destruct (string_eqb _ "MULTI"); [destruct (isMulti t); congruence|].
  destruct (string_eqb _ "DISCARD"); [destruct (isMulti t); cbn; congruence|].
  destruct (string_eqb _ "EXEC").
  - destruct (isMulti t); cbn [negb]; [|congruence]. destruct (txDirty t); [congruence|]. intros [= <- <- <-].
    split; [done|]. split; [done|]. split; [done|]. eapply Forall_impl; [exact Hq|]. intros c [Ha Hc].
    unfold acceptable in Ha. destruct (IsKnownCommand _ _ _); [|done]. by destruct (checkCluster Current c).
  - destruct (isMulti t); cbn [negb]; [|congruence]. destruct (IsKnownCommand _ _ _); cbn [negb]; [|congruence].
    destruct (checkCluster Current cmd); congruence.
Qed.

(** An empty transaction is not an empty array: the worker takes its nil batch for a
    single command without a name, and answers that it does not know the command. *)
Theorem empty_transaction_is_unknown_command (args args' : list string) (w : World) :
  let '(t, _) := run_tx newTxState [mkCommand "MULTI" args] in
  exists b, handle t (mkCommand "EXEC" args') = (newTxState, (actionExec, EmptyString, b)) /\
    serve (mkRequest (mkCommand EmptyString []) b []) w = Val (EncodeError "ERR unknown command ''", w) /\
    EncodeError "ERR unknown command ''" <> EncodeRawArray [].
Proof. exists []. split; [done|]. split; [done|]. discriminate. Qed.
End transactions.

Lemma transaction_runs_all_or_none_witness :
  let e := env_at unixToInternal in
  let cfg := mkConfig 0 "noeviction" 5 false in
  let cmds := [mkCommand "SET" ["a"; "1"]; mkCommand "INCR" ["a"]] in
  let '(t, outs) := run_tx cfg None newTxState (mkCommand "MULTI" [] :: cmds) in
  Forall (fun out => out.1.1 = actionReply) outs /\
  handle cfg None t (mkCommand "EXEC" []) = (newTxState, (actionExec, EmptyString, cmds)).
Proof.
  intros e cfg cmds. apply (@transaction_runs_all_or_none e cfg None cmds [] []). repeat constructor.
Defined.

Lemma exec_batch_was_checked_witness :
  let e := env_at unixToInternal in
  let cfg := mkConfig 0 "noeviction" 5 false in
  Forall (fun c => IsKnownCommand cfg None (cmdName c) = true /\ checkCluster None c = None /\ is_control c = false)
    [mkCommand "GET" ["k"]].
Proof.
  intros e cfg.
  apply (@exec_batch_was_checked e cfg None (mkTx true [mkCommand "GET" ["k"]] false) newTxState
    (mkCommand "EXEC" []) EmptyString [mkCommand "GET" ["k"]]); [|reflexivity].
  apply (reachable_step cfg None (mkTx true [] false) (mkCommand "GET" ["k"])).
  apply (reachable_step cfg None newTxState (mkCommand "MULTI" [])). apply reachable_new.
Defined.
