(* ===== verification/Frame.v ===== *)
(** * What a command can change

    A command changes the entries of the keys its row of the key table names and no
    others, except for the keys that eviction and active expiry drop. In cluster mode
    a node therefore never comes to hold a key of a slot it does not own. *)

From S2P Require Import Prelude GoLib Resp Aof Sds Hll World Lru Store StoreInv StoreSpec Evict Slot Layout Commands Dispatch DispatchClaims Transaction.

(** The entries of all keys but [ks] are the same. *)
Definition frame (ks : list string) (w w' : World) : Prop :=
  forall k, k ∉ ks -> dataOf w' !! k = dataOf w !! k.

Lemma frame_refl ks w : frame ks w w.
Proof. done. Qed.

Lemma frame_trans ks w w' w'' : frame ks w w' -> frame ks w' w'' -> frame ks w w''.
Proof. intros H1 H2 k Hk. by rewrite H2, H1. Qed.

Global Instance frame_preorder ks : PreOrder (frame ks).
Proof. split; [intros w; apply frame_refl|intros w w' w''; apply frame_trans]. Qed.

Lemma frame_insert ks w w' k e : k ∈ ks -> dataOf w' = <[k := e]> (dataOf w) -> frame ks w w'.
Proof. intros Hk Hd k' Hk'. rewrite Hd, lookup_insert_ne; [done|]. by intros ->. Qed.

Lemma frame_delete ks w w' k : k ∈ ks -> dataOf w' = delete k (dataOf w) -> frame ks w w'.
Proof. intros Hk Hd k' Hk'. rewrite Hd, lookup_delete_ne; [done|]. by intros ->. Qed.

Lemma frame_same ks w w' : dataOf w' = dataOf w -> frame ks w w'.
Proof. intros Hd k _. by rewrite Hd. Qed.

#[export] Hint Resolve frame_refl frame_insert frame_delete frame_same : rediska.

Section touches.
Context `{!GoEnv} `{!GoEnvLaws} (ks : list string).

(** If [m] returns, the store is in order and only the keys [ks] have changed. *)
Definition touches {A} (m : GoM World A) : Prop :=
  forall w r w', store_ok w -> m w = Val (r, w') -> store_ok w' /\ frame ks w w'.

Lemma touches_wp {A} (m : GoM World A) :
  (forall w, store_ok w -> wp m (fun _ w' => store_ok w' /\ frame ks w w') w) -> touches m.
Proof. intros Hm w r w' Hw E. specialize (Hm w Hw). unfold wp in Hm. by rewrite E in Hm. Qed.

Lemma touches_ret {A} (a : A) : touches (mret a).
Proof. by intros w r w' Hw [= <- <-]. Qed.

Lemma touches_gets {A} (f : World -> A) : touches (gets f).
Proof. by intros w r w' Hw [= <- <-]. Qed.

Lemma touches_lift {A} (x : outcome A) : touches (lift x).
Proof. intros w r w' Hw. unfold lift. destruct x; [|done]. by intros [= <- <-]. Qed.

Lemma touches_bind {A B} (m : GoM World A) (f : A -> GoM World B) :
  touches m -> (forall a, touches (f a)) -> touches (m ≫= f).
Proof.
  intros Hm Hf w r w' Hw. unfold mbind, GoM_bind. destruct (m w) as [[a w1]|] eqn:E; [|done].
  intros E'. destruct (Hm _ _ _ Hw E) as [Hw1 F1]. destruct (Hf _ _ _ _ Hw1 E') as [Hw2 F2].
  split; [done|]. by etrans.
Qed.

Lemma touches_now : touches now.
Proof. intros w r w' Hw [= <- <-]. split; [by apply (store_ok_advance 1)|done]. Qed.

Lemma touches_db0_stat metric : touches (db0_stat metric).
Proof. intros w r w' Hw. unfold db0_stat. destruct (_ !! _); [|done]. by intros [= <- <-]. Qed.

Lemma frame_accessed k w w' m : k ∈ ks -> becomes w w' m -> accessed w k m -> store_ok w' /\ frame ks w w'.
Proof.
  intros Hk (Hw' & Hd & _) Hacc. split; [done|]. unfold accessed in Hacc.
  destruct (live w k); [destruct Hacc as [l ->]|]; eauto with rediska. subst m. eauto with rediska.
Qed.

Lemma frame_inspected k w w' : k ∈ ks -> becomes w w' (inspected w k) -> store_ok w' /\ frame ks w w'.
Proof.
  intros Hk (Hw' & Hd & _). split; [done|]. unfold inspected in Hd. destruct (live w k); eauto with rediska.
Qed.

Lemma frame_written k w w' e : k ∈ ks -> becomes w w' (<[k := e]> (dataOf w)) -> store_ok w' /\ frame ks w w'.
Proof. intros Hk (Hw' & Hd & _). eauto with rediska. Qed.

(** ** The operations of the store *)

Lemma touches_Set k v ttl : k ∈ ks -> touches (Store_Set k v ttl).
Proof.
  intros Hk. apply touches_wp. intros w Hw. wp_use Store_Set_wp; [done|]. intros [] w' [l Hb]. by eapply frame_written.
Qed.

Lemma touches_Get k : k ∈ ks -> touches (Store_Get k).
Proof.
  intros Hk. apply touches_wp. intros w Hw. wp_use Store_Get_wp; [done|].
  intros r w' (_ & m & Hb & Hacc). by eapply frame_accessed.
Qed.

Lemma touches_GetInt k : k ∈ ks -> touches (Store_GetInt k).
Proof.
  intros Hk. apply touches_wp. intros w Hw. wp_use Store_GetInt_wp; [done|].
  intros r w' (_ & m & Hb & Hacc). by eapply frame_accessed.
Qed.

Lemma touches_GetEncoding k : k ∈ ks -> touches (Store_GetEncoding k).
Proof.
  intros Hk. apply touches_wp. intros w Hw. wp_use Store_GetEncoding_wp; [done|].
  intros r w' [_ Hb]. by eapply frame_inspected.
Qed.

Lemma touches_TTL k : k ∈ ks -> touches (Store_TTL k).
Proof.
  intros Hk. apply touches_wp. intros w Hw. wp_use Store_TTL_wp; [done|]. intros r w' [_ Hb]. by eapply frame_inspected.
Qed.

Lemma touches_GetFreq k : k ∈ ks -> touches (Store_GetFreq k).
Proof.
  intros Hk. apply touches_wp. intros w Hw. unfold Store_GetFreq. wp_step. apply wp_gets.
  destruct (negb _); [by apply wp_ret|]. apply lookup_live_wp; [done|..].
  - intros _ w' (Hw' & Hd & _). apply wp_ret. eauto with rediska.
  - intros e n _. apply wp_ret. split; [by apply store_ok_advance|]. by apply frame_same.
Qed.

Lemma touches_Append k v : k ∈ ks -> touches (Store_Append k v).
Proof.
  intros Hk w r w' Hw E. destruct (dataOf w !! k) as [e|] eqn:Ek.
  - destruct (decide (encoding e = EncodingHLL)) as [He|He].
    + by rewrite (Store_Append_panics w k v e) in E.
    + assert (exists s, text e = Some s) as [s Hs].
      { pose proof (proj1 (entry_ok_lookup w k e Hw Ek)) as Hv. unfold value_ok, text in *.
        destruct (encoding e); [by eexists| | |done]; destruct Hv as (b & -> & _); by eexists. }
      pose proof (Store_Append_old_wp w k v e s Hw Ek Hs) as Ha. unfold wp in Ha. rewrite E in Ha.
      destruct Ha as (_ & e' & Hb & _). by eapply frame_written.
  - pose proof (Store_Append_new_wp w k v Hw Ek) as Ha. unfold wp in Ha. rewrite E in Ha.
    destruct Ha as (_ & l & Hb). by eapply frame_written.
Qed.

Lemma touches_PFAdd k values : k ∈ ks -> touches (Store_PFAdd k values).
Proof.
  intros Hk. apply touches_wp. intros w Hw. wp_use Store_PFAdd_wp; [done|]. intros r w'. unfold pfadd_post.
  destruct (live w k) as [e|].
  - destruct (decide (encoding e = EncodingHLL)).
    + intros (regs & e' & c & _ & _ & _ & Hb & _). by eapply frame_written.
    + intros (_ & Hw' & Hd & _). eauto with rediska.
  - intros (e' & _ & _ & Hb & _). by eapply frame_written.
Qed.

Lemma touches_PFCount k : k ∈ ks -> touches (Store_PFCount k).
Proof.
  intros Hk. apply touches_wp. intros w Hw. wp_use Store_PFCount_wp; [done|]. intros r w' (m & (Hw' & Hd & _) & Hm).
  split; [done|]. destruct (dataOf w !! k) as [e|].
  - destruct (decide (encoding e = EncodingHLL)).
    + destruct Hm as (regs & e' & _ & _ & _ & _ & -> & _). eauto with rediska.
    + destruct Hm as [_ ->]. by apply frame_same.
  - destruct Hm as [_ ->]. by apply frame_same.
Qed.

Lemma touches_PFMerge dest sources : dest ∈ ks -> touches (Store_PFMerge dest sources).
Proof.
  intros Hk. apply touches_wp. intros w Hw. destruct (key_registers_exists w Hw) as [R HR].
  wp_use Store_PFMerge_wp; [done|exact HR|]. intros [] w' (e & _ & _ & Hb). by eapply frame_written.
Qed.

Lemma touches_Delete keys : (forall k, k ∈ keys -> k ∈ ks) -> touches (Store_Delete keys).
Proof.
  intros Hk. apply touches_wp. intros w Hw. wp_use Store_Delete_wp; [done|]. intros r w' [(Hw' & Hd & _) _].
  split; [done|]. intros k Hn. rewrite Hd, lookup_delete_all, decide_False; [done|]. by intros ?%Hk.
Qed.
End touches.

#[export] Hint Resolve touches_Set touches_Get touches_GetInt touches_GetEncoding touches_TTL touches_GetFreq
  touches_Append touches_PFAdd touches_PFCount touches_PFMerge touches_Delete touches_ret touches_gets touches_lift
  touches_now touches_db0_stat : rediska.

(** ** Commands *)

(** Follow the control flow of a handler down to the operations of the store. *)
Ltac touches_step :=
  match goal with
  | |- touches _ (_ ≫= _) => apply touches_bind; [|intros]
  | |- touches _ (match ?x with _ => _ end) => destruct x
  | |- touches _ _ => solve [eauto with rediska | eauto using list_elem_of_here with rediska]
  end.
Ltac solve_touches := cbv zeta; repeat (touches_step; cbv beta zeta).

Section commands.
Context `{!GoEnv} `{!GoEnvLaws} (cfg : Config) (Current : option Layout).

(** The keys the table names. *)
Definition keys_of (cmd : Command) : list string := default [] (KeysOf cmd).

Lemma keys_first name args :
  name ∈ ["GET"; "SET"; "EXPIRE"; "TTL"; "INCR"; "APPEND"; "PFADD"] -> keys_of (mkCommand name args) = take 1 args.
Proof. intros Hn. unfold keys_of. by rewrite (proj1 (proj2 (proj2 (keys_of_commands cfg Current name args))) Hn). Qed.

Lemma keys_all name args : name ∈ ["DEL"; "PFCOUNT"; "PFMERGE"] -> keys_of (mkCommand name args) = args.
Proof. intros Hn. unfold keys_of. by rewrite (proj1 (proj2 (keys_of_commands cfg Current name args)) Hn). Qed.

Lemma keys_object args : keys_of (mkCommand "OBJECT" args) = take 1 (drop 1 args).
Proof.
  unfold keys_of. by rewrite (proj1 (proj2 (proj2 (proj2 (keys_of_commands cfg Current "OBJECT" args)))) eq_refl).
Qed.

Lemma handleCluster_touches ks args : touches ks (handleCluster cfg Current args).
Proof. unfold handleCluster. solve_touches. Qed.

(** A handler touches only the keys of its row. *)
Lemma handler_touches name args h :
  assoc name (commands cfg Current) = Some h -> name <> "_EXPIRY" -> touches (keys_of (mkCommand name args)) (h args).
Proof.
  intros Hn Hx. by_command Hn.
  all: rewrite ?keys_object; try rewrite keys_first by set_solver; try rewrite keys_all by set_solver.
  - unfold handleAppend. solve_touches.
  - apply handleCluster_touches.
  - unfold handleDebug, UsedMemory, KeyCount. solve_touches.
  - unfold handleDel. solve_touches.
  - unfold handleExpire. solve_touches.
  - unfold handleGet. solve_touches.
  - unfold handleIncr, time_Until. solve_touches.
  - unfold handleInfo, infoKeyspace. solve_touches.
  - unfold handleObject. destruct args as [|sub [|k args]]; cbn [take drop]; solve_touches.
  - unfold handlePFAdd. solve_touches.
  - unfold handlePFCount. solve_touches.
  - unfold handlePFMerge. solve_touches.
  - unfold handlePing. solve_touches.
  - unfold handleSet. solve_touches.
  - unfold handleTTL. solve_touches.
Qed.

(** Dropping keys is the only other thing that happens to the map. *)
Definition dropped_only (ks : list string) (w w' : World) : Prop :=
  forall k, k ∉ ks -> dataOf w' !! k = dataOf w !! k \/ dataOf w' !! k = None.

Lemma Dispatch_frame w cmd reply w' :
  server_ok w -> Dispatch cfg Current cmd w = Val (reply, w') ->
  dropped_only (keys_of cmd) w w' /\
  (evicting_policy (MaxMemoryPolicy cfg) = false -> cmdName cmd <> "_EXPIRY" -> frame (keys_of cmd) w w').
Proof.
  intros Hw. unfold Dispatch. destruct (assoc _ _) as [h|] eqn:Eh; [|intros [= <- <-]; split; [by left|done]].
  destruct (checkCluster Current cmd); [intros [= <- <-]; split; [by left|done]|].
  unfold mbind, GoM_bind. destruct (check_memory cfg (cmdName cmd) w) as [[oom w1]|] eqn:E1; [|done].
  destruct (check_memory_returns cfg (aof w) w (cmdName cmd) oom w1 (conj Hw eq_refl) E1) as [[[Hs1 Hp1] Ha1] Hc]. pose proof (memory_checked_keeping _ _ _ _ _ Hc) as Hsame.
  destruct Hc as (_ & Hsub & _).
  assert (dropped_only (keys_of cmd) w w1) as Hd1.
  { intros k _. destruct (dataOf w1 !! k) eqn:Ek; [left|by right]. symmetry. by eapply lookup_weaken. }
  destruct oom; [intros [= <- <-]; split; [done|]; by intros ->%Hsame|].
  destruct (h (Args cmd) w1) as [[r w2]|] eqn:E2; [|done].
  destruct (log_command cmd r w2) as [[[] w3]|] eqn:E3; [|done]. intros [= <- <-].
  pose proof (log_command_data _ _ _ _ _ E3) as Hlog.
  destruct (decide (cmdName cmd = "_EXPIRY")) as [En|Hn].
  - split; [|done]. rewrite En in Eh. injection Eh as <-. unfold handleExpiry, mbind, GoM_bind in E2.
    pose proof (expire_loop_wp (env_order (tick w1) (map_to_list (dataOf w1)).*1) 0 0 (next_tick w1)
      (store_ok_advance 1 w1 Hs1)) as Hx.
    apply wp_Val in Hx as (n & w4 & E4 & m & (_ & Hd4 & _) & Hsub4 & _).
    unfold DeleteExpired, range_keys, mbind, GoM_bind in E2. rewrite E4 in E2. injection E2 as <- <-.
    intros k Hk. rewrite Hlog, Hd4. destruct (m !! k) eqn:Ek; [left|by right].
    symmetry. eapply lookup_weaken; [|exact Hsub]. by eapply lookup_weaken in Ek; [|exact Hsub4].
  - destruct cmd as [name args]. cbn [cmdName Args] in *.
    destruct (handler_touches name args h Eh Hn w1 r w2 Hs1 E2) as [_ F2]. split.
    + intros k Hk. rewrite Hlog, F2 by done. by apply Hd1.
    + intros Hev _ k Hk. rewrite Hlog, F2 by done. by rewrite Hsame.
Qed.

(** C19: A command changes only the keys its row of the key table names. Every other key
    keeps its entry as it is; it may disappear, but only if the policy evicts or the
    command is the server's own active expiry. *)
Theorem commands_touch_only_their_keys (w w' : World) (cmd : Command) (reply k : string) :
  server_ok w -> Dispatch cfg Current cmd w = Val (reply, w') -> k ∉ default [] (KeysOf cmd) ->
  dataOf w' !! k = dataOf w !! k \/
  dataOf w' !! k = None /\ (evicting_policy (MaxMemoryPolicy cfg) = true \/ cmdName cmd = "_EXPIRY").
Proof.
  intros Hw E Hk. destruct (Dispatch_frame w cmd reply w' Hw E) as [Hd Hf].
  destruct (evicting_policy (MaxMemoryPolicy cfg)) eqn:Hev; [|destruct (decide (cmdName cmd = "_EXPIRY")) as [Hn|Hn]].
  - destruct (Hd k Hk) as [?|?]; [by left|right]. auto.
  - destruct (Hd k Hk) as [?|?]; [by left|right]. auto.
  - left. by apply Hf.
Qed.
End commands.

(** ** Slots *)

Section slots.
Context `{!GoEnv} `{!GoEnvLaws} (cfg : Config) (l : Layout).

(** Every key that is stored belongs to a slot of this node. *)
Definition stores_own (w : World) : Prop :=
  forall k, is_Some (dataOf w !! k) -> Owner l (KeyHashSlot k) = Some (Self l).

Lemma Dispatch_stores_own w cmd reply w' :
  server_ok w /\ stores_own w -> Dispatch cfg (Some l) cmd w = Val (reply, w') -> server_ok w' /\ stores_own w'.
Proof.
  intros [Hw Ho] E. split; [by eapply inv_logged_ok, (Dispatch_returns cfg (Some l) (aof w)); [split|]|].
  intros k Hk. destruct (decide (k ∈ keys_of cmd)) as [Hin|Hout].
  - unfold Dispatch in E. destruct (assoc _ _); [|injection E as <- <-; by apply Ho].
    destruct (checkCluster (Some l) cmd) as [|] eqn:Ec; [injection E as <- <-; by apply Ho|].
    unfold checkCluster in Ec. apply checkKeys_spec in Ec as [En|(slot & Hall & Hown)].
    + unfold keys_of in Hin. rewrite En in Hin. by apply elem_of_nil in Hin.
    + by rewrite (Hall k Hin).
  - destruct (proj1 (Dispatch_frame cfg (Some l) w cmd reply w' Hw E) k Hout) as [Heq|Heq].
    + apply Ho. by rewrite <-Heq.
    + rewrite Heq in Hk. by destruct Hk.
Qed.

(** C20: A cluster node never comes to hold a key of a slot it does not own: whatever the
    connections send (single commands, transactions, pipelines), the worker keeps every
    stored key inside this node's slots. *)
Theorem node_stores_only_its_slots (reqs : list CommandRequest) (replies : list string) (w w' : World) :
  server_ok w -> stores_own w -> dispatchWorker cfg (Some l) reqs w = Val (replies, w') ->
  server_ok w' /\ stores_own w'.
Proof.
  intros Hw Ho. apply (dispatchWorker_keeps cfg (Some l) (fun w => server_ok w /\ stores_own w) Dispatch_stores_own). done.
Qed.
End slots.

(** ** Witnesses *)

Section witnesses.
Local Instance frame_env : GoEnv := env_at (unixToInternal + 10 * Second).
Local Instance frame_laws : GoEnvLaws.
Proof. apply env_at_laws. unfold Second. lia. Defined.

Definition holding_b : World := world_with "noeviction" "b" (mkEntry EncodingINT 7 None None 0 0).

Lemma holding_b_ok : server_ok holding_b.
Proof. split; [|apply pool_ok_nil]. apply world_with_ok. split; [|cbn; lia]. by vm_compute. Qed.

Lemma commands_touch_only_their_keys_witness :
  exists reply w', Dispatch plain_config None (mkCommand "SET" ["a"; "1"]) holding_b = Val (reply, w') /\
    (dataOf w' !! "b" = dataOf holding_b !! "b" \/
     dataOf w' !! "b" = None /\ (evicting_policy "noeviction" = true \/ "SET" = "_EXPIRY")).
Proof.
  eexists _, _. split; [reflexivity|].
  eapply (commands_touch_only_their_keys plain_config None holding_b _ (mkCommand "SET" ["a"; "1"]) _ "b").
  - exact holding_b_ok.
  - reflexivity.
  - set_solver.
Defined.

(** The first of two nodes, which owns the lower half of the slots. *)
Definition first_of_two : Layout :=
  mkLayout [mkNode "n1" "127.0.0.1:7001" 7001 EmptyString [mkSlotRange 0 8191];
            mkNode "n2" "127.0.0.1:7002" 7002 EmptyString [mkSlotRange 8192 16383]] 0
    (replicate 8192 (Some 0%nat) ++ replicate 8192 (Some 1%nat)).

(** The slot of "b" is 3300, that of "a" is 15495: the first command is sent to the other
    node, the second is done here. *)
Definition two_requests : list CommandRequest :=
  [mkRequest (mkCommand "SET" ["a"; "1"]) [] []; mkRequest (mkCommand "SET" ["b"; "2"]) [] []].

Definition after_two : list string * World :=
  match dispatchWorker plain_config (Some first_of_two) two_requests World_init with
  | Val x => x
  | Panic _ => ([], World_init)
  end.

Lemma two_requests_run : dispatchWorker plain_config (Some first_of_two) two_requests World_init = Val (after_two.1, after_two.2).
Proof. vm_compute. reflexivity. Qed.

Lemma after_two_is :
  after_two.1 = [EncodeError "MOVED 15495 127.0.0.1:7002"; EncodeSimpleString "OK"] /\
  dataOf after_two.2 !! "a" = None /\ is_Some (dataOf after_two.2 !! "b").
Proof. vm_compute. split_and!; [done..|by eexists]. Qed.

Lemma node_stores_only_its_slots_witness :
  stores_own first_of_two after_two.2 /\ dataOf after_two.2 !! "a" = None /\ is_Some (dataOf after_two.2 !! "b").
Proof.
  split; [|exact (proj2 after_two_is)].
  eapply (node_stores_only_its_slots plain_config first_of_two two_requests after_two.1 World_init).
  - apply (server_ok_init None).
  - intros k [e He]. cbn in He. by rewrite lookup_empty in He.
  - exact two_requests_run.
Defined.
End witnesses.
