(* ===== verification/Keyspace.v ===== *)
(** * The keyspace a client sees

    An abstract specification of the commands as pure functions on a finite map from
    keys to values, without clocks, access stamps, capacities, caches or byte counts,
    and the theorem that the dispatcher implements it for keys without expiry. Sections
    [spec] and [refinement]; [Recovery] builds on them. *)

From S2P Require Import Prelude GoLib Resp Aof Sds HllSparse HllDense Hll World Lru Store StoreInv StoreSpec Evict Slot Layout Commands CommandClaims Dispatch.

(** A value is an integer, a string (a client can see whether it was stored as a raw one)
    or the registers of a sketch. *)
Inductive kvalue := KInt (n : Z) | KText (raw : bool) (s : string) | KSketch (regs : list Z).

Notation keyspace := (gmap string kvalue).

Section spec.
Context `{GoEnv}.

(** What GET reads; a sketch has no text. *)
Definition k_text (v : kvalue) : option string :=
  match v with KInt n => Some (FormatInt n) | KText _ s => Some s | KSketch _ => None end.

(** What SET stores. *)
Definition k_new (v : string) : kvalue :=
  match ParseInt v with Some n => KInt n | None => KText (negb (len v <=? 44)) v end.

Definition k_regs (K : keyspace) (k : string) : list Z :=
  match K !! k with Some (KSketch regs) => regs | _ => zero_regs end.

(** The reply, [None] if the specification leaves it open, and the keyspace after. *)
Definition spec_fun : Type := list string -> keyspace -> option string * keyspace.

Definition wrong_args (msg : string) (K : keyspace) : option string * keyspace := (Some (EncodeError msg), K).

Definition spec_ping : spec_fun := fun args K =>
  match args with
  | [] => (Some (EncodeSimpleString "PONG"), K)
  | [x] => (Some (EncodeBulkString x), K)
  | _ => wrong_args "ERR wrong number of arguments for 'ping' command" K
  end.

Definition spec_get : spec_fun := fun args K =>
  match args with
  | [k] => (Some (match K !! k ≫= k_text with Some s => EncodeBulkString s | None => EncodeNullBulkString end), K)
  | _ => wrong_args "ERR wrong number of arguments for 'get' command" K
  end.

(** The time to live SET asks for, in nanoseconds as 64 bits hold them: a positive number of
    seconds after EX, of milliseconds after PX, in either case of letters. *)
Definition k_ttl (option n : string) : Z + string :=
  match Atoi n with
  | Some (Zpos p) =>
      if bool_decide (ToUpper option = "EX") then inl (i64 (Zpos p * 1000000000))
      else if bool_decide (ToUpper option = "PX") then inl (i64 (Zpos p * 1000000))
      else inr (EncodeError "ERR syntax error")
  | _ => inr (EncodeError "ERR invalid expire time in 'set' command")
  end.

Definition spec_set : spec_fun := fun args K =>
  match args with
  | [k; v] => (Some (EncodeSimpleString "OK"), <[k := k_new v]> K)
  | [k; v; option; n] =>
      match k_ttl option n with
      | inr e => (Some e, K)
      | inl _ => (Some (EncodeSimpleString "OK"), <[k := k_new v]> K)
      end
  | _ => wrong_args "ERR wrong number of arguments for 'set' command" K
  end.

Definition spec_append : spec_fun := fun args K =>
  match args with
  | [k; v] =>
      match K !! k with
      | None => (Some (EncodeInteger (len v)), <[k := k_new v]> K)
      | Some old =>
          let s := default EmptyString (k_text old) +++ v in
          (Some (EncodeInteger (len s)), <[k := KText true s]> K)
      end
  | _ => wrong_args "ERR wrong number of arguments for 'append' command" K
  end.

Definition k_delete_all (K : keyspace) (keys : list string) : keyspace := foldl (fun m k => delete k m) K keys.

Definition spec_del : spec_fun := fun args K =>
  match args with
  | [] => wrong_args "ERR wrong number of arguments for 'del' command" K
  | _ =>
      let K' := k_delete_all K args in
      (Some (EncodeInteger (i64 (Z.of_nat (size K) - Z.of_nat (size K')))), K')
  end.

Definition spec_expire : spec_fun := fun args K =>
  match args with
  | [k; n] =>
      match Atoi n with
      | None => wrong_args "ERR invalid expire time for EXPIRE command" K
      | Some _ =>
          match K !! k ≫= k_text with
          | None => wrong_args "Cannot find key in the hashmap" K
          | Some v => (Some (EncodeInteger 1), <[k := k_new v]> K)
          end
      end
  | _ => wrong_args "ERR wrong number of arguments for EXPIRE command" K
  end.

Definition spec_ttl : spec_fun := fun args K =>
  match args with
  | [k] => (Some (EncodeInteger (match K !! k with Some _ => -1 | None => -2 end)), K)
  | _ => wrong_args "ERR wrong number of arguments for 'ttl' command" K
  end.

Definition spec_incr : spec_fun := fun args K =>
  match args with
  | [k] =>
      let store n := (Some (EncodeInteger n), <[k := KInt n]> K) in
      match K !! k with
      | Some (KInt n) => store (i64 (n + 1))
      | Some _ => wrong_args "ERR while incrementing" K
      | None => store 1
      end
  | _ => wrong_args "ERR incorrect arguments for INCR" K
  end.

Definition spec_pfadd : spec_fun := fun args K =>
  match args with
  | [] => wrong_args "Incorrect number of arguments for pfadd" K
  | k :: values =>
      match K !! k with
      | Some (KSketch regs) =>
          let regs' := raise_all regs values in
          (Some (EncodeInteger (if bool_decide (regs' = regs) then 0 else 1)), <[k := KSketch regs']> K)
      | Some _ => (Some (EncodeError ErrNotHLL), K)
      | None => (Some (EncodeInteger 1), <[k := KSketch (raise_all zero_regs values)]> K)
      end
  end.

Definition spec_pfcount : spec_fun := fun args K =>
  match args with
  | [k] =>
      (Some (EncodeInteger (match K !! k with
                            | Some (KSketch regs) => i64 (estimate (histogram regs))
                            | _ => 0
                            end)), K)
  | _ => wrong_args "Incorrect number of arguments for PFCount" K
  end.

Definition spec_pfmerge : spec_fun := fun args K =>
  match args with
  | [] => wrong_args "Incorrect number of arguments for PFMerge" K
  | dest :: sources =>
      (Some (EncodeSimpleString "OK"), <[dest := KSketch (merge_all (k_regs K) zero_regs (dest :: sources))]> K)
  end.

Definition spec_object : spec_fun := fun args K =>
  match args with
  | sub :: k :: _ =>
      if string_eqb (ToUpper sub) "ENCODING" then
        (Some (match K !! k with
               | None => EncodeError "ERR no such key"
               | Some (KInt _) => EncodeBulkString "int"
               | Some (KText false _) => EncodeBulkString "embstr"
               | Some (KText true _) => EncodeBulkString "str"
               | Some (KSketch _) => EncodeError "ERR unknown encoding"
               end), K)
      else if string_eqb (ToUpper sub) "FREQ" then (None, K)
      else wrong_args "ERR unknown subcommand for 'object'" K
  | _ => wrong_args "ERR wrong number of arguments for 'object' command" K
  end.

Definition spec_debug : spec_fun := fun args K =>
  match args with
  | sub :: _ =>
      if string_eqb (ToUpper sub) "MEMORY" then (None, K)
      else if string_eqb (ToUpper sub) "KEYS" then (Some (EncodeInteger (Z.of_nat (size K))), K)
      else wrong_args ("ERR unknown DEBUG subcommand '" +++ sub +++ "'") K
  | [] => wrong_args "ERR DEBUG subcommand required" K
  end.

Definition spec_expiry : spec_fun := fun _ K => (Some (EncodeInteger 0), K).
Definition spec_unspecified : spec_fun := fun _ K => (None, K).

Definition spec_commands : list (string * spec_fun) :=
  [("_EXPIRY", spec_expiry); ("APPEND", spec_append); ("CLUSTER", spec_unspecified);
   ("DEBUG", spec_debug); ("DEL", spec_del); ("EXPIRE", spec_expire); ("GET", spec_get);
   ("INCR", spec_incr); ("INFO", spec_unspecified); ("OBJECT", spec_object); ("PFADD", spec_pfadd);
   ("PFCOUNT", spec_pfcount); ("PFMERGE", spec_pfmerge); ("PING", spec_ping); ("SET", spec_set);
   ("TTL", spec_ttl)].

(** A command that the node serves. *)
Definition exec (cmd : Command) (K : keyspace) : option string * keyspace :=
  match assoc (cmdName cmd) spec_commands with
  | Some f => f (Args cmd) K
  | None => (Some (EncodeError ("ERR unknown command '" +++ cmdName cmd +++ "'")), K)
  end.

(** Any command: one that is not known or not served here is refused. *)
Definition spec_dispatch (Current : option Layout) (cmd : Command) (K : keyspace) : option string * keyspace :=
  match assoc (cmdName cmd) spec_commands, checkCluster Current cmd with
  | Some _, Some err => (Some err, K)
  | _, _ => exec cmd K
  end.

(** The command gives no key an expiry. *)
Definition lasting (cmd : Command) : Prop :=
  match Args cmd with
  | [_; _; option; n] => cmdName cmd = "SET" -> forall ttl, k_ttl option n = inl ttl -> ttl <= 0
  | [_; n] => cmdName cmd = "EXPIRE" -> forall z, Atoi n = Some z -> i64 (z * 1000000000) <= 0
  | _ => True
  end.
End spec.

(** ** The abstraction *)

(** The value an entry stands for. *)
Definition abs (e : entry) : kvalue :=
  match encoding e with
  | EncodingINT => KInt (intVal e)
  | EncodingEMBSTR => KText false (from_option SDS_String EmptyString (strVal e))
  | EncodingRAW => KText true (from_option SDS_String EmptyString (strVal e))
  | EncodingHLL => KSketch (from_option hll_regs zero_regs (hllVal e))
  end.

Definition contents (w : World) : keyspace := abs <$> dataOf w.

(** No key carries an expiry. *)
Definition all_persistent (w : World) : Prop := map_Forall (fun _ e => expiresAt e = 0) (dataOf w).

Section refinement.
Context `{!GoEnv} `{!GoEnvLaws} (cfg : Config) (Current : option Layout).

Lemma contents_lookup w k : contents w !! k = abs <$> dataOf w !! k.
Proof. apply lookup_fmap. Qed.

Lemma contents_sketch w k regs :
  contents w !! k = Some (KSketch regs) -> exists e, dataOf w !! k = Some e /\ encoding e = EncodingHLL.
Proof.
  rewrite contents_lookup. intros (e & Ek & He)%fmap_Some. exists e. split; [done|].
  unfold abs in He. by destruct (encoding e).
Qed.

Lemma contents_insert w w' k e : dataOf w' = <[k := e]> (dataOf w) -> contents w' = <[k := abs e]> (contents w).
Proof. unfold contents. intros ->. apply fmap_insert. Qed.

Lemma contents_update w w' k e e0 :
  dataOf w !! k = Some e0 -> abs e = abs e0 -> dataOf w' = <[k := e]> (dataOf w) -> contents w' = contents w.
Proof.
  intros Hk Ha Hd. rewrite (contents_insert w w' k e Hd), Ha. apply insert_id. by rewrite contents_lookup, Hk.
Qed.

Lemma contents_size w : size (contents w) = size (dataOf w).
Proof. apply map_size_fmap. Qed.

Lemma abs_newEntry v x l : abs (newEntry v x l) = k_new v.
Proof.
  unfold newEntry, detectEncoding, k_new, abs. destruct (ParseInt v); [done|]. by destruct (_ <=? _).
Qed.

Lemma abs_text e : entry_ok e -> text e = k_text (abs e).
Proof.
  intros [Hv _]. unfold value_ok, text, abs in *. destruct (encoding e); [done| | |done]; by destruct Hv as (s & -> & _).
Qed.

Lemma abs_sketch e regs : sketch e regs -> abs e = KSketch regs.
Proof.
  intros (He & _ & h & Hh & Hok). unfold abs. rewrite He, Hh. cbn [from_option]. f_equal.
  apply hll_regs_denotes, Hok.
Qed.

Lemma k_new_FormatInt n : is_int64 n -> k_new (FormatInt n) = KInt n.
Proof. intros Hn. unfold k_new. by rewrite ParseInt_FormatInt. Qed.

Lemma live_persistent w k : all_persistent w -> live w k = dataOf w !! k.
Proof.
  intros Hp. unfold live. destruct (dataOf w !! k) as [e|] eqn:Ek; [|done].
  unfold expired_in. by rewrite (Hp k e Ek).
Qed.

Lemma persistent_insert w w' k e :
  all_persistent w -> expiresAt e = 0 -> dataOf w' = <[k := e]> (dataOf w) -> all_persistent w'.
Proof. unfold all_persistent. intros Hp He ->. by apply map_Forall_insert_2. Qed.

(** [m], run on a good state without expiries, does what the specification [f] does. *)
Definition refines {A} (w : World) (m : GoM World A) (f : keyspace -> option A * keyspace) : Prop :=
  wp m (fun r w' => store_ok w' /\ all_persistent w' /\ same_setup w w' /\ contents w' = (f (contents w)).2 /\
                    forall x, (f (contents w)).1 = Some x -> r = x) w.

Lemma refines_ret {A} w (r : A) (o : option A) :
  store_ok w -> all_persistent w -> (forall x, o = Some x -> r = x) -> refines w (mret r) (fun K => (o, K)).
Proof. intros Hw Hp Ho. apply wp_ret. split_and!; auto with rediska. Qed.

Ltac refines_ret := by apply refines_ret; [assumption|assumption|intros ? [= <-]].

(** Ending a handler in a state reached by an operation. *)
Lemma refines_done w w' m (r : string) :
  becomes w w' m -> all_persistent w' -> forall K' o,
  contents w' = K' -> (forall x, o = Some x -> r = x) ->
  wp (mret r) (fun r w' => store_ok w' /\ all_persistent w' /\ same_setup w w' /\ contents w' = K' /\
                           forall x, o = Some x -> r = x) w'.
Proof. intros (Hw' & _ & Hs) Hp K' o HK Ho. by apply wp_ret. Qed.

(** A read access leaves the keyspace as it is. *)
Lemma accessed_contents w w' k m :
  all_persistent w -> becomes w w' m -> accessed w k m -> contents w' = contents w /\ all_persistent w'.
Proof.
  intros Hp (Hw' & Hd & _) Hacc. unfold accessed in Hacc. rewrite live_persistent in Hacc by done.
  destruct (dataOf w !! k) as [e|] eqn:Ek.
  - destruct Hacc as [l ->]. split; [by apply (contents_update w w' k (set_entry_lru e l) e)|].
    eapply persistent_insert; [exact Hp| |exact Hd]. by apply (Hp k e).
  - rewrite delete_id in Hacc by done. rewrite Hacc in Hd. unfold contents, all_persistent. by rewrite Hd.
Qed.

Lemma inspected_same w k : all_persistent w -> inspected w k = dataOf w.
Proof.
  intros Hp. unfold inspected. rewrite live_persistent by done. destruct (dataOf w !! k) eqn:Ek; [done|].
  by rewrite delete_id.
Qed.

(** ** The handlers *)

Lemma Set_contents w w1 m k v ttl :
  becomes w w1 m -> all_persistent w1 -> ttl <= 0 ->
  wp (Store_Set k v ttl) (fun _ w' => store_ok w' /\ all_persistent w' /\ same_setup w w' /\
    contents w' = <[k := k_new v]> (contents w1)) w1.
Proof.
  intros (Hw1 & _ & Hs1) Hp Ht. wp_use Store_Set_wp; [done|]. intros [] w' (l & Hw' & Hd & Hs).
  assert (deadline w1 ttl = 0) as Hdl by (unfold deadline; by rewrite (proj2 (Z.ltb_ge _ _)) by lia).
  rewrite Hdl in Hd. split; [done|]. split; [|split; [by etrans|]].
  - eapply persistent_insert; [exact Hp| |exact Hd]. apply newEntry_expiresAt.
  - rewrite (contents_insert w1 w' k _ Hd). by rewrite abs_newEntry.
Qed.

Lemma get_text w k : store_ok w -> all_persistent w -> live w k ≫= text = contents w !! k ≫= k_text.
Proof.
  intros Hw Hp. rewrite live_persistent by done. rewrite contents_lookup.
  destruct (dataOf w !! k) as [e|] eqn:Ek; [|done]. cbn. apply abs_text. by eapply entry_ok_lookup.
Qed.

Lemma refines_get w args : store_ok w -> all_persistent w -> refines w (handleGet args) (spec_get args).
Proof.
  intros Hw Hp. unfold handleGet, spec_get. destruct args as [|k [|]]; [refines_ret| |refines_ret].
  unfold refines. wp_step. wp_use Store_Get_wp; [done|]. intros r w' (-> & m & Hb & Hacc).
  destruct (accessed_contents w w' k m Hp Hb Hacc) as [HK Hp']. rewrite (get_text w k Hw Hp).
  destruct (contents w !! k ≫= k_text) as [s|]; (eapply refines_done; [exact Hb|done|done|by intros ? [= <-]]).
Qed.

Lemma refines_ping w args : store_ok w -> all_persistent w -> refines w (handlePing args) (spec_ping args).
Proof. intros Hw Hp. unfold handlePing, spec_ping. destruct args as [|x [|]]; refines_ret. Qed.

(** SET's option is read in the units the specification names. *)
Lemma set_ttl_units o n : set_ttl o n = k_ttl o n.
Proof.
  unfold set_ttl, k_ttl. destruct (Atoi n) as [[|p|p]|]; try done. cbn [Z.leb Z.compare].
  unfold string_eqb. destruct (String.eqb_spec (ToUpper o) "EX"), (String.eqb_spec (ToUpper o) "PX"); by repeat case_bool_decide.
Qed.

Lemma refines_set w args :
  store_ok w -> all_persistent w -> lasting (mkCommand "SET" args) -> refines w (handleSet args) (spec_set args).
Proof.
  intros Hw Hp Hl. unfold handleSet, spec_set. destruct args as [|k [|v [|o [|n [|]]]]]; try refines_ret.
  - unfold refines. wp_step. wp_use (Set_contents w w); [by apply becomes_refl|done|lia|].
    intros [] w' (Hw' & Hp' & Hs & HK). apply wp_ret. split_and!; try done. by intros ? [= <-].
  - specialize (Hl eq_refl). rewrite set_ttl_units. destruct (k_ttl o n) as [ttl|e]; [|refines_ret].
    unfold refines. wp_step. wp_use (Set_contents w w); [by apply becomes_refl|done|by apply Hl|].
    intros [] w' (Hw' & Hp' & Hs & HK). apply wp_ret. split_and!; try done. by intros ? [= <-].
Qed.

Lemma refines_expire w args :
  store_ok w -> all_persistent w -> lasting (mkCommand "EXPIRE" args) -> refines w (handleExpire args) (spec_expire args).
Proof.
  intros Hw Hp Hl. unfold handleExpire, spec_expire. destruct args as [|k [|n [|]]]; try refines_ret.
  specialize (Hl eq_refl). cbn [Args] in Hl. destruct (Atoi n) as [z|]; [|refines_ret]. specialize (Hl z eq_refl).
  unfold refines. wp_step. wp_use Store_Get_wp; [done|]. intros r w1 (-> & m & Hb & Hacc).
  destruct (accessed_contents w w1 k m Hp Hb Hacc) as [HK Hp1]. rewrite (get_text w k Hw Hp).
  destruct (contents w !! k ≫= k_text) as [s|].
  - wp_step. wp_use Set_contents; [exact Hb|done|exact Hl|]. intros [] w' (Hw' & Hp' & Hs & HK').
    apply wp_ret. rewrite HK in HK'. split_and!; try done. by intros ? [= <-].
  - eapply refines_done; [exact Hb|done|done|by intros ? [= <-]].
Qed.

Lemma refines_ttl w args : store_ok w -> all_persistent w -> refines w (handleTTL args) (spec_ttl args).
Proof.
  intros Hw Hp. unfold handleTTL, spec_ttl. destruct args as [|k [|]]; [refines_ret| |refines_ret].
  unfold refines. wp_step. wp_use Store_TTL_wp; [done|]. intros r w' [-> Hb]. rewrite inspected_same in Hb by done.
  pose proof Hb as (_ & Hd & _). eapply refines_done; [exact Hb| | |].
  - unfold all_persistent. by rewrite Hd.
  - unfold contents. by rewrite Hd.
  - intros ? [= <-]. rewrite live_persistent, contents_lookup by done.
    destruct (dataOf w !! k) as [e|] eqn:Ek; [|done]. cbn. by rewrite (Hp k e Ek).
Qed.

Lemma refines_incr w args : store_ok w -> all_persistent w -> refines w (handleIncr args) (spec_incr args).
Proof.
  intros Hw Hp. unfold handleIncr, spec_incr. destruct args as [|k [|]]; [refines_ret| |refines_ret].
  unfold refines. wp_step. wp_use Store_GetInt_wp; [done|]. intros r w1 (-> & m & Hb & Hacc).
  destruct (accessed_contents w w1 k m Hp Hb Hacc) as [HK Hp1]. rewrite live_persistent, contents_lookup by done.
  assert (forall n, is_int64 n -> wp (Store_Set k (FormatInt n) 0 ;; mret (EncodeInteger n)) (fun r w' =>
    store_ok w' /\ all_persistent w' /\ same_setup w w' /\ contents w' = <[k := KInt n]> (contents w) /\
    forall x, Some (EncodeInteger n) = Some x -> r = x) w1) as Hstore.
  { intros n Hn. wp_step. wp_use Set_contents; [exact Hb|done|lia|]. intros [] w' (Hw' & Hp' & Hs & HK').
    apply wp_ret. rewrite HK, k_new_FormatInt in HK' by done. split_and!; try done. by intros ? [= <-]. }
  assert (wp (mret (EncodeError "ERR while incrementing")) (fun r w' =>
    store_ok w' /\ all_persistent w' /\ same_setup w w' /\ contents w' = contents w /\
    forall x, Some (EncodeError "ERR while incrementing") = Some x -> r = x) w1) as Herr.
  { eapply refines_done; [exact Hb|done|done|by intros ? [= <-]]. }
  destruct (dataOf w !! k) as [e|] eqn:Ek.
  - cbn [fmap option_fmap option_map]. unfold abs. rewrite (Hp k e Ek). destruct (encoding e); [|exact Herr..].
    cbv beta iota. change (IsZero 0) with true. cbn [negb]. wp_step. apply wp_ret. apply Hstore, i64_range.
  - cbv beta iota. change (IsZero 0) with true. cbn [negb]. wp_step. apply wp_ret.
    apply (Hstore 1). by vm_compute.
Qed.

(** The key does not hold a sketch, which APPEND cannot extend. *)
Definition k_runnable (cmd : Command) (K : keyspace) : Prop :=
  cmdName cmd = "APPEND" -> forall k v regs, Args cmd = [k; v] -> K !! k <> Some (KSketch regs).

Lemma runnable_contents w cmd : runnable w cmd <-> k_runnable cmd (contents w).
Proof.
  unfold runnable, k_runnable, appendable. split; intros Hr Hn.
  - intros k v regs Ha Hk. rewrite contents_lookup in Hk. destruct (dataOf w !! k) as [e|] eqn:Ek; [|done].
    apply (Hr Hn k v Ha e Ek). cbn in Hk. unfold abs in Hk. by destruct (encoding e).
  - intros k v Ha e Ek He. apply (Hr Hn k v (from_option hll_regs zero_regs (hllVal e)) Ha).
    rewrite contents_lookup, Ek. cbn [fmap option_fmap option_map]. unfold abs. by rewrite He.
Qed.

Lemma refines_append w args :
  store_ok w -> all_persistent w -> k_runnable (mkCommand "APPEND" args) (contents w) ->
  refines w (handleAppend args) (spec_append args).
Proof.
  intros Hw Hp Hr. unfold handleAppend, spec_append. destruct args as [|k [|v [|]]]; try refines_ret.
  specialize (Hr eq_refl k v). unfold refines. wp_step. destruct (dataOf w !! k) as [old|] eqn:Ek.
  - assert (exists s, k_text (abs old) = Some s) as [s Hs].
    { pose proof (fun regs => Hr regs eq_refl) as Hr'. rewrite contents_lookup, Ek in Hr'.
      cbn [fmap option_fmap option_map] in Hr'. destruct (abs old) as [n|raw t|regs]; [by eexists..|].
      by destruct (Hr' regs). }
    wp_use Store_Append_old_wp; [done|exact Ek|rewrite abs_text; [exact Hs|by eapply entry_ok_lookup]|].
    intros r w' (-> & e & (Hw' & Hd & Hset) & Ht & Hx & He). apply wp_ret.
    rewrite contents_lookup, Ek. cbn [fmap option_fmap option_map]. rewrite Hs. cbn [default from_option id].
    assert (abs e = KText true (s +++ v)) as Ha.
    { unfold text, abs in *. rewrite He in *. destruct (strVal e) as [b|]; [|done]. cbn in Ht |- *. by injection Ht as <-. }
    split_and!; [done| |done| |by intros ? [= <-]].
    + eapply persistent_insert; [exact Hp| |exact Hd]. rewrite Hx. by apply (Hp k).
    + by rewrite (contents_insert w w' k e Hd), Ha.
  - wp_use Store_Append_new_wp; [done|exact Ek|]. intros r w' (-> & l & Hw' & Hd & Hset). apply wp_ret.
    rewrite contents_lookup, Ek. cbn [fmap option_fmap option_map].
    split_and!; [done| |done| |by intros ? [= <-]].
    + eapply persistent_insert; [exact Hp| |exact Hd]. apply newEntry_expiresAt.
    + by rewrite (contents_insert w w' k _ Hd), abs_newEntry.
Qed.

Lemma contents_delete_all (m : gmap string entry) keys : abs <$> delete_all m keys = k_delete_all (abs <$> m) keys.
Proof.
  revert m. induction keys as [|k keys IH]; intros m; [done|]. unfold delete_all, k_delete_all in *. cbn [foldl].
  by rewrite IH, fmap_delete.
Qed.

Lemma refines_del w args : store_ok w -> all_persistent w -> refines w (handleDel args) (spec_del args).
Proof.
  intros Hw Hp. unfold handleDel, spec_del. destruct args as [|k ks]; [refines_ret|].
  unfold refines. wp_step. wp_use Store_Delete_wp; [done|]. intros r w' [Hb Hr].
  assert (contents w' = k_delete_all (contents w) (k :: ks)) as HK.
  { unfold contents. rewrite (proj1 (proj2 Hb)). apply contents_delete_all. }
  eapply refines_done; [exact Hb| |exact HK|].
  - intros k' e He. rewrite (proj1 (proj2 Hb)), lookup_delete_all in He. case_decide; [done|]. by apply (Hp k').
  - intros ? [= <-]. rewrite Hr by (intros ? ? _; apply Hp).
    change (k_delete_all (delete k (contents w)) ks) with (k_delete_all (contents w) (k :: ks)).
    rewrite <-HK, !contents_size. by rewrite (proj1 (proj2 Hb)).
Qed.

Lemma refines_pfadd w args : store_ok w -> all_persistent w -> refines w (handlePFAdd args) (spec_pfadd args).
Proof.
  intros Hw Hp. unfold handlePFAdd, spec_pfadd. destruct args as [|k values]; [refines_ret|].
  unfold refines. wp_step. wp_use Store_PFAdd_wp; [done|]. intros r w'. unfold pfadd_post.
  rewrite live_persistent, contents_lookup by done. destruct (dataOf w !! k) as [e|] eqn:Ek.
  - cbn [fmap option_fmap option_map]. destruct (decide (encoding e = EncodingHLL)) as [He|He].
    + intros (regs & e' & c & Hsk & Hsk' & Hx & (Hw' & Hd & Hset) & -> & Hc). apply wp_ret.
      rewrite (abs_sketch e regs Hsk). split; [done|]. split; [|split; [done|split]].
      * eapply persistent_insert; [exact Hp| |exact Hd]. rewrite Hx. by apply (Hp k).
      * rewrite (contents_insert w w' k e' Hd). by rewrite (abs_sketch e' _ Hsk').
      * intros x Hxx. injection Hxx as <-. f_equal. case_bool_decide as Heq.
        -- destruct c; [|done]. by destruct (proj1 Hc eq_refl).
        -- by rewrite (proj2 Hc Heq).
    + intros (-> & Hb). eapply refines_done; [exact Hb| | |].
      * unfold all_persistent. by rewrite (proj1 (proj2 Hb)).
      * unfold contents. rewrite (proj1 (proj2 Hb)). unfold abs. by destruct (encoding e).
      * unfold abs. destruct (encoding e); by intros ? [= <-].
  - cbn [fmap option_fmap option_map]. intros (e' & Hsk' & Hx & (Hw' & Hd & Hset) & ->). apply wp_ret.
    split; [done|]. split; [|split; [done|split; [|by intros ? [= <-]]]].
    + by eapply persistent_insert.
    + rewrite (contents_insert w w' k e' Hd). by rewrite (abs_sketch e' _ Hsk').
Qed.

Lemma refines_pfcount w args : store_ok w -> all_persistent w -> refines w (handlePFCount args) (spec_pfcount args).
Proof.
  intros Hw Hp. unfold handlePFCount, spec_pfcount. destruct args as [|k [|]]; [refines_ret| |refines_ret].
  unfold refines. wp_step. wp_use Store_PFCount_wp; [done|]. intros r w' (m & Hb & Hm).
  rewrite contents_lookup. destruct (dataOf w !! k) as [e|] eqn:Ek; cbn [fmap option_fmap option_map].
  - destruct (decide (encoding e = EncodingHLL)) as [He|He].
    + destruct Hm as (regs & e' & Hsk & Hsk' & Hx & _ & -> & ->). rewrite (abs_sketch e regs Hsk).
      eapply refines_done; [exact Hb| | |by intros ? [= <-]].
      * eapply persistent_insert; [exact Hp| |exact (proj1 (proj2 Hb))]. rewrite Hx. by apply (Hp k).
      * apply (contents_update w w' k e' e); [done| |exact (proj1 (proj2 Hb))].
        by rewrite (abs_sketch e regs Hsk), (abs_sketch e' regs Hsk').
    + destruct Hm as [-> ->]. eapply refines_done; [exact Hb| | |].
      * unfold all_persistent. by rewrite (proj1 (proj2 Hb)).
      * unfold contents. by rewrite (proj1 (proj2 Hb)).
      * unfold abs. destruct (encoding e); by intros ? [= <-].
  - destruct Hm as [-> ->]. eapply refines_done; [exact Hb| | |by intros ? [= <-]].
    + unfold all_persistent. by rewrite (proj1 (proj2 Hb)).
    + unfold contents. by rewrite (proj1 (proj2 Hb)).
Qed.

Lemma contents_registers w : store_ok w -> key_registers w (k_regs (contents w)).
Proof.
  intros Hw k. unfold k_regs. rewrite contents_lookup. destruct (dataOf w !! k) as [e|] eqn:Ek; [|done].
  cbn [fmap option_fmap option_map]. case_decide as He.
  - destruct (ok_sketch e (entry_ok_lookup w k e Hw Ek) He) as (regs & Hsk). by rewrite (abs_sketch e regs Hsk).
  - unfold abs. by destruct (encoding e).
Qed.

Lemma refines_pfmerge w args : store_ok w -> all_persistent w -> refines w (handlePFMerge args) (spec_pfmerge args).
Proof.
  intros Hw Hp. unfold handlePFMerge, spec_pfmerge. destruct args as [|dest sources]; [refines_ret|].
  unfold refines. wp_step. wp_use Store_PFMerge_wp; [done|by apply contents_registers|].
  intros [] w' (e & Hsk & Hx & (Hw' & Hd & Hset)). apply wp_ret.
  split; [done|]. split; [by eapply persistent_insert|]. split; [done|]. split; [|by intros ? [= <-]].
  rewrite (contents_insert w w' dest e Hd). by rewrite (abs_sketch e _ Hsk).
Qed.

(** *** Commands that only look *)

(** If [m] returns, the state is the same. *)
Definition readonly {A} (m : GoM World A) : Prop := forall w r w', m w = Val (r, w') -> w' = w.

Lemma readonly_ret {A} (a : A) : readonly (mret a).
Proof. by intros w r w' [= <- <-]. Qed.
Lemma readonly_gets {A} (f : World -> A) : readonly (gets f).
Proof. by intros w r w' [= <- <-]. Qed.
Lemma readonly_lift {A} (x : outcome A) : readonly (lift x).
Proof. intros w r w'. unfold lift. destruct x; [|done]. by intros [= <- <-]. Qed.
Lemma readonly_db0_stat m : readonly (db0_stat m).
Proof. intros w r w'. unfold db0_stat. destruct (_ !! _); [|done]. by intros [= <- <-]. Qed.
Lemma readonly_bind {A B} (m : GoM World A) (f : A -> GoM World B) :
  readonly m -> (forall a, readonly (f a)) -> readonly (m ≫= f).
Proof.
  intros Hm Hf w r w'. unfold mbind, GoM_bind. destruct (m w) as [[a w1]|] eqn:E; [|done].
  intros E'. by rewrite (Hf _ _ _ _ E'), (Hm _ _ _ E).
Qed.

Ltac solve_readonly := repeat (cbv beta zeta; first
  [ apply readonly_ret | apply readonly_gets | apply readonly_lift | apply readonly_db0_stat
  | apply readonly_bind; [|intros] | match goal with |- readonly (match ?x with _ => _ end) => destruct x end ]).

(** A command that only looks and does not panic leaves the keyspace as it is. *)
Lemma refines_readonly w (m : GoM World string) :
  server_ok w -> all_persistent w -> preserves (inv (aof w)) m -> readonly m -> refines w m (fun K => (None, K)).
Proof.
  intros Hw Hp Hpre Hro. pose proof (Hpre w (conj Hw eq_refl)) as Hm.
  apply wp_Val in Hm as (r & w' & E & _). unfold refines, wp. rewrite E. rewrite (Hro w r w' E).
  split; [apply Hw|]. split_and!; auto with rediska. done.
Qed.

Lemma refines_object w args : store_ok w -> all_persistent w -> refines w (handleObject args) (spec_object args).
Proof.
  intros Hw Hp. unfold handleObject, spec_object. destruct args as [|sub [|k args]]; try refines_ret.
  cbv zeta. destruct (string_eqb (ToUpper sub) "ENCODING").
  - unfold refines. wp_step. wp_use Store_GetEncoding_wp; [done|]. intros r w' [-> Hb].
    rewrite inspected_same in Hb by done. rewrite live_persistent, contents_lookup by done.
    assert (all_persistent w' /\ contents w' = contents w) as [Hp' HK].
    { unfold all_persistent, contents. by rewrite (proj1 (proj2 Hb)). }
    destruct (dataOf w !! k) as [e|]; cbn [fmap option_fmap option_map]; [|by eapply refines_done; [exact Hb|..|intros ? [= <-]]].
    unfold abs. destruct (encoding e); (by eapply refines_done; [exact Hb|..|intros ? [= <-]]).
  - destruct (string_eqb (ToUpper sub) "FREQ"); [|refines_ret].
    unfold refines. wp_step. unfold Store_GetFreq. wp_step. apply wp_gets.
    assert (forall r, wp (let '(freq, ok, policyOK) := r in
        if negb policyOK then mret (EncodeError "ERR An LFU maxmemory policy is not selected, access frequency not tracked. Please note that when switching between maxmemory policies at runtime LFU and LRU data will take some time to adjust.")
        else if negb ok then mret (EncodeError "ERR no such key") else mret (EncodeInteger freq))
        (fun r w' => store_ok w' /\ all_persistent w' /\ same_setup w w' /\ contents w' = contents w /\
                     forall x, None = Some x -> r = x) w) as Hend.
    { intros [[freq ok] pok]. destruct pok, ok; apply wp_ret; split_and!; auto with rediska; done. }
    destruct (negb _); [apply wp_ret; exact (Hend (0, false, false))|]. wp_step. apply wp_gets.
    destruct (dataOf w !! k) as [e|] eqn:Ek; [|apply wp_ret; exact (Hend (0, false, true))].
    unfold isExpired. rewrite (Hp k e Ek). cbn [IsZero Z.eqb]. wp_step. apply wp_ret, wp_ret.
    exact (Hend (lfuDecodeCounter (lru e), true, true)).
Qed.

Lemma refines_debug w args : store_ok w -> all_persistent w -> refines w (handleDebug args) (spec_debug args).
Proof.
  intros Hw Hp. unfold handleDebug, spec_debug. destruct args as [|sub args]; [refines_ret|]. cbv zeta.
  destruct (string_eqb (ToUpper sub) "MEMORY").
  - unfold refines. wp_step. apply wp_gets, wp_ret. split_and!; auto with rediska; done.
  - destruct (string_eqb (ToUpper sub) "KEYS"); [|refines_ret].
    unfold refines. wp_step. apply wp_gets, wp_ret. rewrite contents_size. split_and!; auto with rediska.
    by intros ? [= <-].
Qed.

Lemma refines_expiry w args : store_ok w -> all_persistent w -> refines w (handleExpiry args) (spec_expiry args).
Proof.
  intros Hw Hp. unfold handleExpiry, refines, DeleteExpired. wp_step. wp_step. unfold wp at 1, range_keys.
  wp_use expire_loop_wp; [by apply (store_ok_advance 1)|].
  intros r w' (m & Hb & Hsub & Hr & Hsnd & _). change (dataOf (next_tick w)) with (dataOf w) in *.
  assert (m = dataOf w) as ->.
  { apply map_eq. intros k. destruct (dataOf w !! k) as [e|] eqn:Ek.
    - destruct (m !! k) as [e'|] eqn:Em.
      + eapply lookup_weaken in Em; [|exact Hsub]. by rewrite Ek in Em.
      + specialize (Hsnd k e Ek Em). unfold expired_in in Hsnd. by rewrite (Hp k e Ek) in Hsnd.
    - by eapply lookup_weaken_None. }
  assert (all_persistent w' /\ contents w' = contents w) as [Hp' HK].
  { unfold all_persistent, contents. by rewrite (proj1 (proj2 Hb)). }
  replace r with 0 by lia. eapply (refines_done w w'); [|done|done|by intros ? [= <-]].
  eapply becomes_trans; [by apply (becomes_advance 1)|exact Hb].
Qed.

Lemma readonly_info args : readonly (handleInfo cfg args).
Proof. unfold handleInfo, infoKeyspace. solve_readonly. Qed.

Lemma readonly_cluster args : readonly (handleCluster cfg Current args).
Proof. unfold handleCluster. solve_readonly. Qed.

(** Every handler implements its specification. *)
Lemma handler_refines w cmd h :
  assoc (cmdName cmd) (commands cfg Current) = Some h -> cluster_ready cfg Current -> server_ok w ->
  all_persistent w -> lasting cmd -> k_runnable cmd (contents w) -> refines w (h (Args cmd)) (exec cmd).
Proof.
  destruct cmd as [name args]. cbn [cmdName Args]. intros Hn Hready Hw Hp Hl Hr. pose proof (proj1 Hw) as Hs.
  by_command Hn.
  - by apply refines_append.
  - apply refines_readonly; [done|done|by apply handleCluster_preserves|apply readonly_cluster].
  - by apply refines_debug.
  - by apply refines_del.
  - by apply refines_expire.
  - by apply refines_get.
  - by apply refines_incr.
  - apply refines_readonly; [done|done|by apply (handlers_preserve cfg Current _ "INFO")|apply readonly_info].
  - by apply refines_object.
  - by apply refines_pfadd.
  - by apply refines_pfcount.
  - by apply refines_pfmerge.
  - by apply refines_ping.
  - by apply refines_expiry.
  - by apply refines_set.
  - by apply refines_ttl.
Qed.

(** The specification knows the commands the registry knows. *)
Lemma spec_known name :
  match assoc name spec_commands with
  | Some _ => is_Some (assoc name (commands cfg Current))
  | None => assoc name (commands cfg Current) = None
  end.
Proof.
  rewrite commands_list. unfold spec_commands. cbn [assoc].
  repeat match goal with
  | |- context [string_eqb ?n name] => destruct (string_eqb n name); [repeat case_match; by eexists|]
  end. done.
Qed.

(** *** Memory *)

(** Whether [cmd] gets to run and finds the store over its limit. *)
Definition tight (w : World) (cmd : Command) : bool :=
  over_limit cfg w (cmdName cmd) && match checkCluster Current cmd with None => true | Some _ => false end.

(** Serving a command that the specification [f] describes, when memory is short if [over]:
    under a policy that does not evict it is refused; otherwise it runs on what is left of
    the keyspace, which is all of it unless memory is short. *)
Definition limited {A} (over : bool) (f : gmap string A -> option string * gmap string A)
    (K : gmap string A) (r : string) (K' : gmap string A) : Prop :=
  if over && negb (evicting_policy (MaxMemoryPolicy cfg)) then r = oomReply /\ K' = K
  else exists kept, kept ⊆ K /\ (over = false -> kept = K) /\ K' = (f kept).2 /\ forall x, (f kept).1 = Some x -> r = x.

Lemma limited_all {A} over (f : gmap string A -> option string * gmap string A) K r K' :
  over = false -> K' = (f K).2 -> (forall x, (f K).1 = Some x -> r = x) -> limited over f K r K'.
Proof. intros -> HK Hr. exists K. done. Qed.

Lemma limited_unlimited {A} over (f : gmap string A -> option string * gmap string A) K r K' :
  over = false -> limited over f K r K' -> K' = (f K).2 /\ forall x, (f K).1 = Some x -> r = x.
Proof. intros ->. intros (kept & _ & -> & HK & Hr); done. Qed.

Lemma tight_unlimited w cmd : MaxMemory cfg <= 0 -> tight w cmd = false.
Proof. intros Hm. unfold tight, over_limit. by rewrite (proj2 (Z.ltb_ge _ _)), andb_false_r. Qed.

Lemma tight_unknown w cmd : assoc (cmdName cmd) (commands cfg Current) = None -> tight w cmd = false.
Proof.
  intros Hk. unfold tight, over_limit. destruct (is_in (cmdName cmd) denyOOMCommands) eqn:Hd; [|done]. exfalso.
  apply existsb_exists in Hd as (n & Hin & Hn%String.eqb_eq). rewrite Hn in Hk.
  repeat (destruct Hin as [<-|Hin]; [discriminate Hk|]). destruct Hin.
Qed.

(** What checking the memory means for a command that is specified by [f] on [K]: if it is
    refused that is its answer, and otherwise it may run on what is left. *)
Lemma memory_checked_limited {A} w cmd oom w1 (f : gmap string A -> option string * gmap string A) K kept :
  checkCluster Current cmd = None -> memory_checked cfg w (cmdName cmd) oom w1 -> kept ⊆ K -> (w1 = w -> kept = K) ->
  if oom then w1 = w /\ limited (tight w cmd) f K oomReply K
  else forall r K', K' = (f kept).2 -> (forall x, (f kept).1 = Some x -> r = x) -> limited (tight w cmd) f K r K'.
Proof.
  unfold tight. intros -> (_ & _ & Hm) Hsub Hsame. rewrite andb_true_r. unfold limited.
  destruct (over_limit cfg w (cmdName cmd)); cbn [andb].
  - destruct (evicting_policy _); cbn [negb]; destruct Hm as [-> Hm]; [|done].
    intros r K' HK' Hr. exists kept. done.
  - destruct Hm as [-> Hm]. intros r K' HK' Hr. exists kept. auto.
Qed.

(** A command that returns has not appended to a sketch. *)
Lemma handler_runnable w cmd h r w' :
  assoc (cmdName cmd) (commands cfg Current) = Some h -> server_ok w -> h (Args cmd) w = Val (r, w') ->
  k_runnable cmd (contents w).
Proof.
  intros Hh Hw E Hn k v regs Ha Hk. rewrite Hn in Hh. injection Hh as <-. rewrite Ha in E.
  apply contents_sketch in Hk as (e & Ek & He). revert E. unfold handleAppend, mbind, GoM_bind. by rewrite (Store_Append_panics w k v e (proj1 Hw) Ek He).
Qed.

(** A command that returns was answered as the specification says. *)
Lemma Dispatch_refines w cmd r w' :
  cluster_ready cfg Current -> server_ok w -> all_persistent w -> lasting cmd -> Dispatch cfg Current cmd w = Val (r, w') ->
  all_persistent w' /\ limited (tight w cmd) (spec_dispatch Current cmd) (contents w) r (contents w').
Proof.
  intros Hready Hw Hp Hl E. unfold Dispatch in E. pose proof (spec_known (cmdName cmd)) as Hk.
  assert (forall e, spec_dispatch Current cmd (contents w) = (Some e, contents w) -> tight w cmd = false ->
    limited (tight w cmd) (spec_dispatch Current cmd) (contents w) e (contents w)) as Hdone.
  { intros e He Ht. apply limited_all; rewrite ?He; [done..|]. by intros ? [= <-]. }
  destruct (assoc (cmdName cmd) (commands cfg Current)) as [h|] eqn:Eh.
  2: { injection E as <- <-. split; [done|]. apply Hdone; [|by apply tight_unknown]. unfold spec_dispatch, exec.
       destruct (assoc (cmdName cmd) spec_commands); [by destruct Hk|done]. }
  destruct (assoc (cmdName cmd) spec_commands) as [f|] eqn:Ef; [|done].
  destruct (checkCluster Current cmd) as [err|] eqn:Ec.
  { injection E as <- <-. split; [done|]. apply Hdone; [unfold spec_dispatch; by rewrite Ef, Ec|].
    unfold tight. by rewrite Ec, andb_false_r. }
  unfold mbind, GoM_bind, mret, GoM_ret in E. destruct (check_memory cfg (cmdName cmd) w) as [[oom w1]|] eqn:E1; [|done].
  destruct (check_memory_returns cfg (aof w) w (cmdName cmd) oom w1 (conj Hw eq_refl) E1) as [[Hw1 _] Hc].
  assert (dataOf w1 ⊆ dataOf w) as Hsub by apply Hc.
  pose proof (memory_checked_limited w cmd oom w1 (spec_dispatch Current cmd) (contents w) (contents w1) Ec Hc
    (map_fmap_mono _ _ _ Hsub) ltac:(by intros ->)) as Hlim.
  destruct oom; [injection E as <- <-; by destruct Hlim as [-> Hlim]|].
  destruct (h (Args cmd) w1) as [[r1 w2]|] eqn:E2; [|done].
  assert (all_persistent w1) as Hp1 by (intros k e He; apply (Hp k); by eapply lookup_weaken).
  pose proof (handler_refines w1 cmd h Eh Hready Hw1 Hp1 Hl (handler_runnable w1 cmd h r1 w2 Eh Hw1 E2)) as Hh.
  unfold refines, wp in Hh. rewrite E2 in Hh. destruct Hh as (_ & Hp2 & _ & HK2 & Hr2).
  destruct (log_command cmd r1 w2) as [[[] w3]|] eqn:E3; [|done]. injection E as <- <-.
  apply log_command_data in E3. unfold all_persistent, contents. rewrite E3. split; [done|].
  apply Hlim; unfold spec_dispatch; by rewrite Ef, Ec.
Qed.

(** The same without a limit. *)
Lemma Dispatch_refines_unlimited w cmd r w' :
  MaxMemory cfg <= 0 -> cluster_ready cfg Current -> server_ok w -> all_persistent w -> lasting cmd ->
  Dispatch cfg Current cmd w = Val (r, w') ->
  all_persistent w' /\ contents w' = (spec_dispatch Current cmd (contents w)).2 /\
  forall x, (spec_dispatch Current cmd (contents w)).1 = Some x -> r = x.
Proof.
  intros Hm Hready Hw Hp Hl E. destruct (Dispatch_refines w cmd r w') as [Hp' Hlim]; [done..|]. split; [done|].
  eapply limited_unlimited; [|exact Hlim]. by apply tight_unlimited.
Qed.

(** C4: The dispatcher implements the keyspace a client sees. With no expiries in play, every
    command that does not append to a sketch is answered as the specification says, and
    leaves the keyspace the specification leaves: no clock, access stamp, cache, buffer
    capacity or byte count can be observed through it. A memory limit shows only in this:
    when a command that may grow the store finds it over the limit, the command is refused,
    or runs on a keyspace from which keys were evicted, as the policy says; the samples
    configured for that must fit a slice. *)
Theorem dispatch_refines_keyspace (w : World) (cmd : Command) :
  cluster_ready cfg Current -> MaxMemorySamples cfg <= maxSamples -> server_ok w -> all_persistent w -> lasting cmd ->
  k_runnable cmd (contents w) ->
  exists r w', Dispatch cfg Current cmd w = Val (r, w') /\ server_ok w' /\ all_persistent w' /\
    limited (tight w cmd) (spec_dispatch Current cmd) (contents w) r (contents w').
Proof.
  intros Hready Hn Hw Hp Hl Hr%runnable_contents. pose proof (Dispatch_wp cfg Current (aof w) w cmd Hready Hn (conj Hw eq_refl) Hr) as Hd.
  apply wp_Val in Hd as (r & w' & E & Hw'%inv_logged_ok). exists r, w'. split; [done|]. split; [done|]. by apply Dispatch_refines.
Qed.
End refinement.

(** ** Witness *)

Section witness.
Local Instance keyspace_env : GoEnv := env_at (unixToInternal + 10 * Second).
Local Instance keyspace_laws : GoEnvLaws.
Proof. apply env_at_laws. unfold Second. lia. Defined.

Definition counter_at_7 : World := world_with "noeviction" "n" (mkEntry EncodingINT 7 None None 0 0).

Lemma dispatch_refines_keyspace_witness :
  exists w', Dispatch (mkConfig 0 "noeviction" 5 false) None (mkCommand "INCR" ["n"]) counter_at_7
    = Val (EncodeInteger 8, w') /\ contents w' = <["n" := KInt 8]> (contents counter_at_7).
Proof.
  destruct (dispatch_refines_keyspace (mkConfig 0 "noeviction" 5 false) None counter_at_7 (mkCommand "INCR" ["n"]))
    as (r & w' & E & _ & _ & Hlim).
  - discriminate.
  - discriminate.
  - split; [|apply pool_ok_nil]. apply world_with_ok. split; [|cbn; lia]. by vm_compute.
  - apply map_Forall_singleton. reflexivity.
  - exact I.
  - discriminate.
  - apply limited_unlimited in Hlim as [HK Hr]; [|reflexivity].
    assert (spec_dispatch None (mkCommand "INCR" ["n"]) (contents counter_at_7)
      = (Some (EncodeInteger 8), <["n" := KInt 8]> (contents counter_at_7))) as Es by reflexivity.
    rewrite Es in HK, Hr. exists w'. rewrite (Hr _ eq_refl) in E. split; [exact E|exact HK].
Defined.
End witness.
