(* ===== verification/Deadlines.v ===== *)
(** * The keyspace in time

    The specification of the commands on a keyspace in which a key may have a deadline, at
    an instant of the clock, and the theorem that the dispatcher implements it: a key is
    visible until its deadline, when its entry is removed cannot be observed, and the
    commands that set, keep, drop and tell deadlines do as they should. *)

From S2P Require Import Prelude GoLib Resp Aof Sds HllSparse HllDense Hll World Lru Store StoreInv StoreSpec Evict Slot Layout Commands CommandClaims Dispatch DispatchClaims Keyspace.

(** A value and its deadline, 0 for none. *)
Notation tkeyspace := (gmap string (kvalue * Z)).

(** ** The specification *)

Section spec.
Context `{GoEnv}.

(** At the instant [T]. *)
Definition tspec : Type := Z -> list string -> tkeyspace -> option string * tkeyspace.

Definition t_wrong_args (msg : string) (K : tkeyspace) : option string * tkeyspace := (Some (EncodeError msg), K).

Definition t_text (K : tkeyspace) (k : string) : option string := K !! k ≫= fun v => k_text v.1.

(** A time to live that is not positive means no deadline. *)
Definition t_deadline (T ttl : Z) : Z := if 0 <? ttl then T + ttl else 0.

(** The deadline INCR sets again, from the time that is left. *)
Definition t_same_deadline (T x : Z) : Z := if IsZero x then 0 else T + TimeSub x T.

Definition t_get : tspec := fun T args K =>
  match args with
  | [k] => (Some (match t_text K k with Some s => EncodeBulkString s | None => EncodeNullBulkString end), K)
  | _ => t_wrong_args "ERR wrong number of arguments for 'get' command" K
  end.

Definition t_ping : tspec := fun T args K =>
  match args with
  | [] => (Some (EncodeSimpleString "PONG"), K)
  | [x] => (Some (EncodeBulkString x), K)
  | _ => t_wrong_args "ERR wrong number of arguments for 'ping' command" K
  end.

Definition t_set : tspec := fun T args K =>
  match args with
  | [k; v] => (Some (EncodeSimpleString "OK"), <[k := (k_new v, 0)]> K)
  | [k; v; option; n] =>
      match k_ttl option n with
      | inr e => (Some e, K)
      | inl ttl => (Some (EncodeSimpleString "OK"), <[k := (k_new v, t_deadline T ttl)]> K)
      end
  | _ => t_wrong_args "ERR wrong number of arguments for 'set' command" K
  end.

Definition t_append : tspec := fun T args K =>
  match args with
  | [k; v] =>
      match K !! k with
      | None => (Some (EncodeInteger (len v)), <[k := (k_new v, 0)]> K)
      | Some (old, x) =>
          let s := default EmptyString (k_text old) +++ v in
          (Some (EncodeInteger (len s)), <[k := (KText true s, x)]> K)
      end
  | _ => t_wrong_args "ERR wrong number of arguments for 'append' command" K
  end.

Definition t_delete_all (K : tkeyspace) (keys : list string) : tkeyspace := foldl (fun m k => delete k m) K keys.

(** DEL answers how many of the keys were visible. *)
Definition t_del : tspec := fun T args K =>
  match args with
  | [] => t_wrong_args "ERR wrong number of arguments for 'del' command" K
  | _ =>
      let K' := t_delete_all K args in
      (Some (EncodeInteger (i64 (Z.of_nat (size K) - Z.of_nat (size K')))), K')
  end.

Definition t_expire : tspec := fun T args K =>
  match args with
  | [k; n] =>
      match Atoi n with
      | None => t_wrong_args "ERR invalid expire time for EXPIRE command" K
      | Some z =>
          match t_text K k with
          | None => t_wrong_args "Cannot find key in the hashmap" K
          | Some v => (Some (EncodeInteger 1), <[k := (k_new v, t_deadline T (i64 (z * 1000000000)))]> K)
          end
      end
  | _ => t_wrong_args "ERR wrong number of arguments for EXPIRE command" K
  end.

(** The time left in seconds, rounded. *)
Definition t_ttl : tspec := fun T args K =>
  match args with
  | [k] =>
      (Some (EncodeInteger (match K !! k with
         | None => -2
         | Some (_, x) => if IsZero x then -1 else Z.quot (Milliseconds (TimeSub x T) + 500) 1000
         end)), K)
  | _ => t_wrong_args "ERR wrong number of arguments for 'ttl' command" K
  end.

Definition t_incr : tspec := fun T args K =>
  match args with
  | [k] =>
      let store n x := (Some (EncodeInteger n), <[k := (KInt n, x)]> K) in
      match K !! k with
      | Some (KInt n, x) => store (i64 (n + 1)) (t_same_deadline T x)
      | Some _ => t_wrong_args "ERR while incrementing" K
      | None => store 1 0
      end
  | _ => t_wrong_args "ERR incorrect arguments for INCR" K
  end.

Definition t_pfadd : tspec := fun T args K =>
  match args with
  | [] => t_wrong_args "Incorrect number of arguments for pfadd" K
  | k :: values =>
      match K !! k with
      | Some (KSketch regs, x) =>
          let regs' := raise_all regs values in
          (Some (EncodeInteger (if bool_decide (regs' = regs) then 0 else 1)), <[k := (KSketch regs', x)]> K)
      | Some _ => (Some (EncodeError ErrNotHLL), K)
      | None => (Some (EncodeInteger 1), <[k := (KSketch (raise_all zero_regs values), 0)]> K)
      end
  end.

Definition t_regs (K : tkeyspace) (k : string) : list Z :=
  match K !! k with Some (KSketch regs, _) => regs | _ => zero_regs end.

Definition t_pfcount : tspec := fun T args K =>
  match args with
  | [k] =>
      (Some (EncodeInteger (match K !! k with
                            | Some (KSketch regs, _) => i64 (estimate (histogram regs))
                            | _ => 0
                            end)), K)
  | _ => t_wrong_args "Incorrect number of arguments for PFCount" K
  end.

Definition t_pfmerge : tspec := fun T args K =>
  match args with
  | [] => t_wrong_args "Incorrect number of arguments for PFMerge" K
  | dest :: sources =>
      (Some (EncodeSimpleString "OK"), <[dest := (KSketch (merge_all (t_regs K) zero_regs (dest :: sources)), 0)]> K)
  end.

Definition t_object : tspec := fun T args K =>
  match args with
  | sub :: k :: _ =>
      if string_eqb (ToUpper sub) "ENCODING" then
        (Some (match fst <$> K !! k with
               | None => EncodeError "ERR no such key"
               | Some (KInt _) => EncodeBulkString "int"
               | Some (KText false _) => EncodeBulkString "embstr"
               | Some (KText true _) => EncodeBulkString "str"
               | Some (KSketch _) => EncodeError "ERR unknown encoding"
               end), K)
      else if string_eqb (ToUpper sub) "FREQ" then (None, K)
      else t_wrong_args "ERR unknown subcommand for 'object'" K
  | _ => t_wrong_args "ERR wrong number of arguments for 'object' command" K
  end.

(** DEBUG tells sizes that include entries past their deadline. *)
Definition t_debug : tspec := fun T args K =>
  match args with
  | sub :: _ =>
      if string_eqb (ToUpper sub) "MEMORY" then (None, K)
      else if string_eqb (ToUpper sub) "KEYS" then (None, K)
      else t_wrong_args ("ERR unknown DEBUG subcommand '" +++ sub +++ "'") K
  | [] => t_wrong_args "ERR DEBUG subcommand required" K
  end.

Definition t_unspecified : tspec := fun _ _ K => (None, K).

Definition t_commands : list (string * tspec) :=
  [("_EXPIRY", t_unspecified); ("APPEND", t_append); ("CLUSTER", t_unspecified);
   ("DEBUG", t_debug); ("DEL", t_del); ("EXPIRE", t_expire); ("GET", t_get);
   ("INCR", t_incr); ("INFO", t_unspecified); ("OBJECT", t_object); ("PFADD", t_pfadd);
   ("PFCOUNT", t_pfcount); ("PFMERGE", t_pfmerge); ("PING", t_ping); ("SET", t_set);
   ("TTL", t_ttl)].

Definition t_exec (cmd : Command) (T : Z) (K : tkeyspace) : option string * tkeyspace :=
  match assoc (cmdName cmd) t_commands with
  | Some f => f T (Args cmd) K
  | None => (Some (EncodeError ("ERR unknown command '" +++ cmdName cmd +++ "'")), K)
  end.

Definition timed_dispatch (Current : option Layout) (cmd : Command) (T : Z) (K : tkeyspace) : option string * tkeyspace :=
  match assoc (cmdName cmd) t_commands, checkCluster Current cmd with
  | Some _, Some err => (Some err, K)
  | _, _ => t_exec cmd T K
  end.

(** What is left of a keyspace when the clock shows [T]. *)
Definition left_at (T : Z) (K : tkeyspace) : tkeyspace :=
  filter (fun kv => kv.2.2 = 0 \/ T < kv.2.2) K.
End spec.

(** ** What is visible *)

Definition expired_at (T : Z) (e : entry) : bool := negb (IsZero (expiresAt e)) && (expiresAt e <=? T).

Definition shown (T : Z) (e : entry) : option (kvalue * Z) :=
  if expired_at T e then None else Some (abs e, expiresAt e).

Definition seen (T : Z) (m : gmap string entry) : tkeyspace := omap (shown T) m.

Definition visible (T : Z) (w : World) : tkeyspace := seen T (dataOf w).

Lemma seen_lookup T m k : seen T m !! k = m !! k ≫= shown T.
Proof. apply lookup_omap. Qed.

Lemma seen_insert T m k e : expired_at T e = false -> seen T (<[k := e]> m) = <[k := (abs e, expiresAt e)]> (seen T m).
Proof. intros He. apply omap_insert_Some. unfold shown. by rewrite He. Qed.

Lemma seen_delete T m k : seen T (delete k m) = delete k (seen T m).
Proof. apply omap_delete. Qed.

(** Removing an entry that is not visible, or replacing one by one that looks the same. *)
Lemma seen_delete_hidden T m k : m !! k ≫= shown T = None -> seen T (delete k m) = seen T m.
Proof. intros Hk. rewrite seen_delete. apply delete_id. by rewrite seen_lookup. Qed.

Lemma seen_update T m k e0 e :
  m !! k = Some e0 -> abs e = abs e0 -> expiresAt e = expiresAt e0 -> seen T (<[k := e]> m) = seen T m.
Proof.
  intros Hk Ha Hx. apply map_eq. intros j. rewrite !seen_lookup. destruct (decide (j = k)) as [->|Hj].
  - rewrite lookup_insert_eq, Hk. cbn. unfold shown, expired_at. by rewrite Ha, Hx.
  - by rewrite lookup_insert_ne.
Qed.

(** As time passes keys vanish at their deadlines and nothing else changes. *)
Lemma visible_later T T' w : T <= T' -> visible T' w = left_at T' (visible T w).
Proof.
  intros HT. apply map_eq. intros k. unfold left_at, visible. rewrite map_lookup_filter, !seen_lookup.
  destruct (dataOf w !! k) as [e|]; [|done]. cbn. unfold shown, expired_at, IsZero.
  destruct (Z.eqb_spec (expiresAt e) 0) as [Hz|Hz]; cbn [negb andb].
  - cbn. by rewrite option_guard_True by (by left).
  - destruct (Z.leb_spec (expiresAt e) T'), (Z.leb_spec (expiresAt e) T); cbn; try lia.
    + done.
    + rewrite option_guard_False; [done|]. cbn. lia.
    + rewrite option_guard_True; [done|]. cbn. lia.
Qed.

(** ** The handlers *)

Section refinement.
Context `{!GoEnv} `{!GoEnvLaws} (cfg : Config) (Current : option Layout).

(** The clock shows [T] from the start to the end of a command. *)
Definition instant (T : Z) (w w' : World) : Prop := env_clock (tick w) = T /\ env_clock (tick w') = T.

Lemma instant_between T w w1 w' : same_setup w w1 -> same_setup w1 w' -> instant T w w' -> env_clock (tick w1) = T.
Proof.
  intros (_ & _ & _ & _ & _ & H1) (_ & _ & _ & _ & _ & H2) [Hw Hw'].
  pose proof (clock_mono _ _ H1). pose proof (clock_mono _ _ H2). lia.
Qed.

(** [m] does what the specification [f] does, at any instant for which [ok] holds. *)
Definition t_post (w : World) (f : Z -> tkeyspace -> option string * tkeyspace) (ok : Z -> Prop)
    (r : string) (w' : World) : Prop :=
  store_ok w' /\ same_setup w w' /\ forall T, instant T w w' -> ok T ->
    visible T w' = (f T (visible T w)).2 /\ forall x, (f T (visible T w)).1 = Some x -> r = x.

Definition trefines (w : World) (m : GoM World string) f ok : Prop := wp m (t_post w f ok) w.

Lemma trefines_ret w r (o : option string) ok :
  store_ok w -> (forall x, o = Some x -> r = x) -> trefines w (mret r) (fun _ K => (o, K)) ok.
Proof. intros Hw Ho. apply wp_ret. split_and!; auto with rediska. Qed.

Ltac t_ret := by apply trefines_ret; [assumption|intros ? [= <-]].

(** Ending a handler in a state reached by an operation. *)
Lemma t_done w w' m f ok (r : string) :
  becomes w w' m ->
  (forall T, instant T w w' -> ok T -> seen T m = (f T (visible T w)).2 /\ forall x, (f T (visible T w)).1 = Some x -> r = x) ->
  wp (mret r) (t_post w f ok) w'.
Proof. intros (Hw' & Hd & Hs) Hf. apply wp_ret. split; [done|]. split; [done|]. unfold visible at 1. by rewrite Hd. Qed.

Lemma visible_live T w k : env_clock (tick w) = T -> visible T w !! k = (fun e => (abs e, expiresAt e)) <$> live w k.
Proof.
  intros <-. unfold visible. rewrite seen_lookup. unfold live, shown, expired_in, expired_at.
  destruct (dataOf w !! k) as [e|]; [|done]. cbn [mbind option_bind]. by destruct (negb _ && _).
Qed.

Lemma live_None_hidden T w k : env_clock (tick w) = T -> live w k = None -> dataOf w !! k ≫= shown T = None.
Proof. intros HT Hl. rewrite <-seen_lookup. change (visible T w !! k = None). by rewrite (visible_live T w k HT), Hl. Qed.

Lemma accessed_visible T w k m : env_clock (tick w) = T -> accessed w k m -> seen T m = visible T w.
Proof.
  intros HT. unfold accessed. destruct (live w k) as [e|] eqn:El.
  - intros [l ->]. apply live_Some in El as [Ek _]. by apply (seen_update T _ k e).
  - intros ->. apply seen_delete_hidden. by apply live_None_hidden.
Qed.

Lemma inspected_visible T w k : env_clock (tick w) = T -> seen T (inspected w k) = visible T w.
Proof.
  intros HT. unfold inspected. destruct (live w k) as [e|] eqn:El; [done|]. apply seen_delete_hidden. by apply live_None_hidden.
Qed.

Lemma visible_text T w k : store_ok w -> env_clock (tick w) = T -> t_text (visible T w) k = live w k ≫= text.
Proof.
  intros Hw HT. unfold t_text. rewrite (visible_live T w k HT). destruct (live w k) as [e|] eqn:El; [|done]. cbn.
  symmetry. apply abs_text. apply live_Some in El as [Ek _]. by eapply entry_ok_lookup.
Qed.

(** Setting a key in a state reached at the same instant. *)
Lemma t_set_wp w w1 m k v ttl f ok r :
  becomes w w1 m ->
  (forall T, env_clock (tick w) = T -> env_clock (tick w1) = T -> ok T ->
     f T (visible T w) = (Some r, <[k := (k_new v, t_deadline T ttl)]> (seen T m))) ->
  wp (Store_Set k v ttl ;; mret r) (t_post w f ok) w1.
Proof.
  intros Hb Hf. wp_step. wp_use Store_Set_wp; [apply Hb|]. intros [] w' (l & Hb'). pose proof Hb as (_ & Hd & Hs).
  eapply t_done; [by eapply becomes_trans|]. intros T HT Hok.
  assert (env_clock (tick w1) = T) as HT1 by (eapply instant_between; [exact Hs|apply Hb'|done]).
  rewrite (Hf T) by (done || apply HT). cbn [fst snd]. split; [|by intros ? [= <-]]. rewrite Hd.
  rewrite seen_insert.
  - rewrite abs_newEntry, newEntry_expiresAt. unfold deadline, t_deadline. by rewrite HT1.
  - unfold expired_at. rewrite newEntry_expiresAt. unfold deadline, IsZero. rewrite HT1.
    destruct (Z.ltb_spec 0 ttl); [|done]. apply andb_false_iff. right. apply Z.leb_gt. lia.
Qed.

Lemma t_refines_ping w args : store_ok w -> trefines w (handlePing args) (fun T => t_ping T args) (fun _ => True).
Proof. intros Hw. unfold handlePing, t_ping. destruct args as [|x [|]]; t_ret. Qed.

Lemma t_refines_get w args : store_ok w -> trefines w (handleGet args) (fun T => t_get T args) (fun _ => True).
Proof.
  intros Hw. unfold handleGet, t_get. destruct args as [|k [|]]; [t_ret| |t_ret].
  unfold trefines. wp_step. wp_use Store_Get_wp; [done|]. intros r w' (-> & m & Hb & Hacc).
  assert (forall T, instant T w w' -> seen T m = visible T w /\ live w k ≫= text = t_text (visible T w) k) as Hv.
  { intros T [HT _]. split; [by eapply accessed_visible|by rewrite visible_text]. }
  destruct (live w k ≫= text) as [s|]; (eapply t_done; [exact Hb|]; intros T HT _; destruct (Hv T HT) as [Hm <-];
    split; [done|by intros ? [= <-]]).
Qed.

Lemma t_refines_set w args : store_ok w -> trefines w (handleSet args) (fun T => t_set T args) (fun _ => True).
Proof.
  intros Hw. unfold handleSet, t_set. destruct args as [|k [|v [|o [|n [|]]]]]; try t_ret.
  - eapply (t_set_wp w w (dataOf w)); [by apply becomes_refl|]. done.
  - rewrite set_ttl_units. destruct (k_ttl o n) as [ttl|e]; [|t_ret]. eapply (t_set_wp w w (dataOf w)); [by apply becomes_refl|]. done.
Qed.

Lemma t_refines_expire w args : store_ok w -> trefines w (handleExpire args) (fun T => t_expire T args) (fun _ => True).
Proof.
  intros Hw. unfold handleExpire, t_expire. destruct args as [|k [|n [|]]]; try t_ret. destruct (Atoi n) as [z|]; [|t_ret].
  unfold trefines. wp_step. wp_use Store_Get_wp; [done|]. intros r w1 (-> & m & Hb & Hacc).
  assert (forall T, env_clock (tick w) = T -> seen T m = visible T w /\ t_text (visible T w) k = live w k ≫= text) as Hv.
  { intros T HT. split; [by eapply accessed_visible|by rewrite visible_text]. }
  destruct (live w k ≫= text) as [s|].
  - eapply t_set_wp; [exact Hb|]. intros T HT _ _. destruct (Hv T HT) as [-> ->]. done.
  - eapply t_done; [exact Hb|]. intros T [HT _] _. destruct (Hv T HT) as [-> ->]. split; [done|by intros ? [= <-]].
Qed.

Lemma t_refines_ttl w args : store_ok w -> trefines w (handleTTL args) (fun T => t_ttl T args) (fun _ => True).
Proof.
  intros Hw. unfold handleTTL, t_ttl. destruct args as [|k [|]]; [t_ret| |t_ret].
  unfold trefines. wp_step. wp_use Store_TTL_wp; [done|]. intros r w' [-> Hb].
  eapply t_done; [exact Hb|]. intros T [HT _] _. split; [by apply inspected_visible|].
  cbn [fst]. intros ? [= <-]. rewrite (visible_live T w k HT). destruct (live w k) as [e|]; [|done]. cbn. by rewrite HT.
Qed.

Lemma t_refines_incr w args : store_ok w -> trefines w (handleIncr args) (fun T => t_incr T args) (fun _ => True).
Proof.
  intros Hw. unfold handleIncr, t_incr. destruct args as [|k [|]]; [t_ret| |t_ret].
  unfold trefines. wp_step. wp_use Store_GetInt_wp; [done|]. intros r w1 (-> & m & Hb & Hacc).
  assert (forall T, env_clock (tick w) = T -> seen T m = visible T w) as Hm by (intros; by eapply accessed_visible).
  pose proof (fun T => visible_live T w k) as Hk. destruct (live w k) as [e|] eqn:El.
  - pose proof (live_Some w k e El) as [_ Hx].
    assert (encoding e <> EncodingINT -> wp (mret (EncodeError "ERR while incrementing"))
      (t_post w (fun T => t_incr T [k]) (fun _ => True)) w1) as Herr.
    { intros He. eapply t_done; [exact Hb|]. intros T [HT _] _. unfold t_incr. rewrite (Hk T HT), (Hm T HT). cbn.
      unfold abs. destruct (encoding e); [done|..]; (split; [done|by intros ? [= <-]]). }
    destruct (encoding e) eqn:He; [|by apply Herr..]. cbv beta iota.
    destruct (IsZero (expiresAt e)) eqn:Hz; cbn [negb].
    + wp_step. apply wp_ret. eapply t_set_wp; [exact Hb|]. intros T HT _ _. rewrite (Hk T HT), (Hm T HT). cbn [fmap option_fmap option_map].
      unfold abs. rewrite He. unfold t_same_deadline. rewrite Hz. by rewrite k_new_FormatInt by apply i64_range.
    + unfold time_Until. wp_step. wp_step. unfold wp at 1, now. apply wp_ret.
      eapply (t_set_wp w (next_tick w1) m).
      { eapply becomes_trans; [exact Hb|]. pose proof Hb as (Hw1 & <- & _). by apply (becomes_advance 1). }
      intros T HT HT2 _. rewrite (Hk T HT), (Hm T HT). cbn [fmap option_fmap option_map]. unfold abs. rewrite He.
      rewrite k_new_FormatInt by apply i64_range. do 4 f_equal.
      assert (env_clock (tick w1) = T) as ->.
      { pose proof Hb as (_ & _ & Hs). eapply (instant_between T w w1 (next_tick w1)); [exact Hs|apply (same_setup_advance 1)|done]. }
      unfold t_same_deadline, t_deadline. rewrite Hz. rewrite (proj2 (Z.ltb_lt _ _)); [done|]. apply TimeSub_pos.
      unfold expired_in in Hx. rewrite Hz, HT in Hx. cbn in Hx. by apply Z.leb_gt in Hx.
  - cbv beta iota. change (IsZero 0) with true. cbn [negb]. wp_step. apply wp_ret.
    eapply t_set_wp; [exact Hb|]. intros T HT _ _. rewrite (Hk T HT), (Hm T HT). cbn [fmap option_fmap option_map].
    change (i64 (0 + 1)) with 1. by rewrite k_new_FormatInt by (by vm_compute).
Qed.

(** The key [k] holds no entry past its deadline: APPEND, PFCOUNT and PFMERGE do not look. *)
Definition unstale (T : Z) (w : World) (k : string) : Prop := forall e, dataOf w !! k = Some e -> expired_at T e = false.

Lemma visible_unstale T w k : unstale T w k -> visible T w !! k = (fun e => (abs e, expiresAt e)) <$> dataOf w !! k.
Proof.
  intros Hu. unfold visible. rewrite seen_lookup. destruct (dataOf w !! k) as [e|] eqn:Ek; [|done]. cbn.
  unfold shown. by rewrite (Hu e Ek).
Qed.

Lemma t_refines_append w args :
  store_ok w -> runnable w (mkCommand "APPEND" args) ->
  trefines w (handleAppend args) (fun T => t_append T args) (fun T => forall k v, args = [k; v] -> unstale T w k).
Proof.
  intros Hw Hr. unfold handleAppend, t_append. destruct args as [|k [|v [|]]]; try t_ret.
  specialize (Hr eq_refl k v eq_refl). unfold trefines. wp_step. destruct (dataOf w !! k) as [old|] eqn:Ek.
  - assert (exists s, k_text (abs old) = Some s) as [s Hs].
    { unfold abs. specialize (Hr old Ek). destruct (encoding old); [by eexists..|done]. }
    wp_use Store_Append_old_wp; [done|exact Ek|rewrite abs_text; [exact Hs|by eapply entry_ok_lookup]|].
    intros r w' (-> & e & Hb & Ht & Hx & He). eapply t_done; [exact Hb|]. intros T _ Hu. specialize (Hu k v eq_refl).
    rewrite (visible_unstale T w k Hu), Ek. cbn [fmap option_fmap option_map]. rewrite Hs. cbn [default from_option id fst snd].
    split; [|by intros ? [= <-]]. rewrite seen_insert by (unfold expired_at in *; rewrite Hx; by apply Hu).
    rewrite Hx. do 2 f_equal. unfold text, abs in *. rewrite He in *. destruct (strVal e) as [b|]; [|done]. cbn in Ht |- *. by injection Ht as <-.
  - wp_use Store_Append_new_wp; [done|exact Ek|]. intros r w' (-> & l & Hb). eapply t_done; [exact Hb|].
    intros T _ Hu. specialize (Hu k v eq_refl). rewrite (visible_unstale T w k Hu), Ek. cbn [fmap option_fmap option_map fst snd].
    split; [|by intros ? [= <-]]. rewrite seen_insert, abs_newEntry, newEntry_expiresAt; [done|].
    unfold expired_at. by rewrite newEntry_expiresAt.
Qed.

(** How many visible keys DEL removed. *)
Lemma seen_size_delete T m k e :
  m !! k = Some e ->
  Z.of_nat (size (seen T (delete k m))) = Z.of_nat (size (seen T m)) - (if expired_at T e then 0 else 1).
Proof.
  intros Ek. rewrite seen_delete. destruct (expired_at T e) eqn:He.
  - rewrite delete_id; [lia|]. rewrite seen_lookup, Ek. cbn. unfold shown. by rewrite He.
  - assert (is_Some (seen T m !! k)) as Hk. { rewrite seen_lookup, Ek. cbn. unfold shown. rewrite He. by eexists. }
    rewrite map_size_delete_Some by done. pose proof (map_size_ne_0_lookup_2 (seen T m) k Hk). lia.
Qed.

Lemma Store_Delete_counts w keys :
  store_ok w ->
  wp (Store_Delete keys) (fun r w' => becomes w w' (delete_all (dataOf w) keys) /\
    forall T, instant T w w' ->
      r = i64 (Z.of_nat (size (visible T w)) - Z.of_nat (size (seen T (delete_all (dataOf w) keys))))) w.
Proof.
  intros Hw. unfold Store_Delete.
  eapply wp_mono; [apply (wp_foldM (fun xs acc w' => exists m, becomes w w' m /\
    delete_all m xs = delete_all (dataOf w) keys /\
    (forall T, instant T w w' -> acc = i64 (Z.of_nat (size (visible T w)) - Z.of_nat (size (seen T m))))))|].
  - exists (dataOf w). split; [by apply becomes_refl|]. split; [done|]. intros T _. by rewrite Z.sub_diag.
  - intros k xs acc w' (m & Hb & Hm & Hacc). wp_step. apply wp_gets. pose proof Hb as (Hw' & Hd & Hs).
    rewrite Hd. destruct (m !! k) as [e|] eqn:Ek.
    + wp_step. wp_use isExpired_wp. intros b w1 [-> [n ->]]. wp_step.
      wp_use removeKey_wp; [by apply store_ok_advance|]. intros [] w2 Hb2. apply wp_ret.
      change (dataOf (advance n w')) with (dataOf w') in Hb2. rewrite Hd in Hb2.
      exists (delete k m). split; [|split; [done|]].
      * eapply becomes_trans; [exact Hb|]. eapply becomes_trans; [by apply (becomes_advance n)|done].
      * intros T HT. assert (same_setup w' w2) as Hs2 by (etrans; [apply (same_setup_advance n)|apply Hb2]).
        pose proof (instant_between T w w' w2 Hs Hs2 HT) as HT'. rewrite (Hacc T) by (split; [apply HT|done]).
        rewrite (seen_size_delete T m k e Ek). unfold expired_in. rewrite HT'. fold (expired_at T e).
        destruct (expired_at T e); [f_equal; lia|]. rewrite i64_add_l. f_equal. lia.
    + apply wp_ret. exists m. split; [done|]. split; [|done].
      rewrite <-Hm. unfold delete_all. cbn [foldl]. by rewrite delete_id.
  - intros acc w' (m & Hb & Hm & Hacc). unfold delete_all at 1 in Hm. cbn [foldl] in Hm. by rewrite Hm in *.
Qed.

Lemma seen_delete_all T m keys : seen T (delete_all m keys) = t_delete_all (seen T m) keys.
Proof.
  revert m. induction keys as [|k keys IH]; intros m; [done|]. unfold delete_all, t_delete_all in *. cbn [foldl].
  by rewrite IH, seen_delete.
Qed.

Lemma t_refines_del w args : store_ok w -> trefines w (handleDel args) (fun T => t_del T args) (fun _ => True).
Proof.
  intros Hw. unfold handleDel, t_del. destruct args as [|k ks]; [t_ret|].
  unfold trefines. wp_step. wp_use Store_Delete_counts; [done|]. intros r w' [Hb Hr].
  eapply t_done; [exact Hb|]. intros T HT _. cbn [fst snd]. rewrite seen_delete_all. split; [done|].
  intros ? [= <-]. rewrite (Hr T HT), seen_delete_all. done.
Qed.

Lemma live_unexpired T w k e : env_clock (tick w) = T -> live w k = Some e -> expired_at T e = false.
Proof. intros <- [_ Hx]%live_Some. exact Hx. Qed.

Lemma t_refines_pfadd w args : store_ok w -> trefines w (handlePFAdd args) (fun T => t_pfadd T args) (fun _ => True).
Proof.
  intros Hw. unfold handlePFAdd, t_pfadd. destruct args as [|k values]; [t_ret|].
  unfold trefines. wp_step. wp_use Store_PFAdd_wp; [done|]. intros r w'. unfold pfadd_post.
  pose proof (fun T => visible_live T w k) as Hk. pose proof (fun T => live_unexpired T w k) as Hlu.
  destruct (live w k) as [e|] eqn:El.
  - destruct (decide (encoding e = EncodingHLL)) as [He|He].
    + intros (regs & e' & c & Hsk & Hsk' & Hx & Hb & -> & Hc). eapply t_done; [exact Hb|]. intros T [HT _] _.
      rewrite (Hk T HT). cbn [fmap option_fmap option_map]. rewrite (abs_sketch e regs Hsk). cbn [fst snd].
      rewrite seen_insert by (unfold expired_at; rewrite Hx; by apply (Hlu T e)). rewrite (abs_sketch e' _ Hsk'), Hx.
      split; [done|]. intros x [= <-]. f_equal. case_bool_decide as Heq.
      * destruct c; [|done]. by destruct (proj1 Hc eq_refl).
      * by rewrite (proj2 Hc Heq).
    + intros (-> & Hb). eapply t_done; [exact Hb|]. intros T [HT _] _. rewrite (Hk T HT). cbn [fmap option_fmap option_map].
      unfold abs. destruct (encoding e); [..|done]; (split; [done|by intros ? [= <-]]).
  - intros (e' & Hsk' & Hx & Hb & ->). eapply t_done; [exact Hb|]. intros T [HT _] _. rewrite (Hk T HT).
    cbn [fmap option_fmap option_map fst snd]. rewrite seen_insert by (unfold expired_at; by rewrite Hx).
    rewrite (abs_sketch e' _ Hsk'), Hx. split; [done|by intros ? [= <-]].
Qed.

Lemma t_refines_pfcount w args :
  store_ok w -> trefines w (handlePFCount args) (fun T => t_pfcount T args) (fun T => forall k, args = [k] -> unstale T w k).
Proof.
  intros Hw. unfold handlePFCount, t_pfcount. destruct args as [|k [|]]; [t_ret| |t_ret].
  unfold trefines. wp_step. wp_use Store_PFCount_wp; [done|]. intros r w' (m & Hb & Hm).
  eapply t_done; [exact Hb|]. intros T _ Hu. rewrite (visible_unstale T w k (Hu k eq_refl)).
  destruct (dataOf w !! k) as [e|] eqn:Ek; cbn [fmap option_fmap option_map fst snd].
  - destruct (decide (encoding e = EncodingHLL)) as [He|He].
    + destruct Hm as (regs & e' & Hsk & Hsk' & Hx & _ & -> & ->). rewrite (abs_sketch e regs Hsk).
      split; [|by intros ? [= <-]]. apply (seen_update T _ k e); [done| |done].
      by rewrite (abs_sketch e regs Hsk), (abs_sketch e' regs Hsk').
    + destruct Hm as [-> ->]. split; [done|]. unfold abs. destruct (encoding e); by intros ? [= <-].
  - destruct Hm as [-> ->]. split; [done|by intros ? [= <-]].
Qed.

Lemma merge_all_ext (R R' : string -> list Z) keys regs :
  (forall k, k ∈ keys -> R k = R' k) -> merge_all R regs keys = merge_all R' regs keys.
Proof.
  revert regs. induction keys as [|k keys IH]; intros regs HR; [done|]. unfold merge_all in *. cbn [foldl].
  rewrite (HR k) by set_solver. apply IH. intros k' Hk'. apply HR. set_solver.
Qed.

Lemma t_regs_contents T w k : unstale T w k -> t_regs (visible T w) k = k_regs (contents w) k.
Proof.
  intros Hu. unfold t_regs, k_regs. rewrite (visible_unstale T w k Hu), contents_lookup.
  by destruct (dataOf w !! k).
Qed.

Lemma t_refines_pfmerge w args :
  store_ok w -> trefines w (handlePFMerge args) (fun T => t_pfmerge T args) (fun T => forall k, k ∈ args -> unstale T w k).
Proof.
  intros Hw. unfold handlePFMerge, t_pfmerge. destruct args as [|dest sources]; [t_ret|].
  unfold trefines. wp_step. wp_use Store_PFMerge_wp; [done|by apply contents_registers|].
  intros [] w' (e & Hsk & Hx & Hb). eapply t_done; [exact Hb|]. intros T _ Hu. cbn [fst snd].
  rewrite seen_insert by (unfold expired_at; by rewrite Hx). rewrite (abs_sketch e _ Hsk), Hx.
  split; [|by intros ? [= <-]]. do 3 f_equal. symmetry. apply merge_all_ext. intros k Hk. by apply t_regs_contents, Hu.
Qed.

(** A handler that returns in a state with the same visible keys and whose reply is open. *)
Lemma t_refines_open w (m : GoM World string) :
  wp m (fun _ w' => store_ok w' /\ same_setup w w' /\ forall T, instant T w w' -> visible T w' = visible T w) w ->
  trefines w m (fun _ K => (None, K)) (fun _ => True).
Proof.
  intros Hm. eapply wp_mono; [exact Hm|]. intros r w' (Hw' & Hs & Hv). split; [done|]. split; [done|].
  intros T HT _. split; [by apply Hv|done].
Qed.

Lemma t_refines_readonly w (m : GoM World string) :
  server_ok w -> preserves (inv (aof w)) m -> readonly m -> trefines w m (fun _ K => (None, K)) (fun _ => True).
Proof.
  intros Hw Hpre Hro. pose proof (Hpre w (conj Hw eq_refl)) as Hm. apply wp_Val in Hm as (r & w' & E & _).
  apply t_refines_open. unfold wp. rewrite E. rewrite (Hro w r w' E). split; [apply Hw|]. split; [auto with rediska|done].
Qed.

Lemma t_refines_object w args : store_ok w -> trefines w (handleObject args) (fun T => t_object T args) (fun _ => True).
Proof.
  intros Hw. unfold handleObject, t_object. destruct args as [|sub [|k args]]; try t_ret.
  cbv zeta. destruct (string_eqb (ToUpper sub) "ENCODING").
  - unfold trefines. wp_step. wp_use Store_GetEncoding_wp; [done|]. intros r w' [-> Hb].
    assert (forall T, instant T w w' -> seen T (inspected w k) = visible T w /\ fst <$> visible T w !! k = abs <$> live w k) as Hv.
    { intros T [HT _]. split; [by apply inspected_visible|]. rewrite (visible_live T w k HT). by destruct (live w k). }
    destruct (live w k) as [e|]; cbn [fmap option_fmap option_map] in *.
    + unfold abs in Hv. destruct (encoding e); (eapply t_done; [exact Hb|]; intros T HT _; destruct (Hv T HT) as [-> ->];
        split; [done|by intros ? [= <-]]).
    + eapply t_done; [exact Hb|]. intros T HT _. destruct (Hv T HT) as [-> ->]. split; [done|by intros ? [= <-]].
  - destruct (string_eqb (ToUpper sub) "FREQ"); [|t_ret]. apply t_refines_open.
    wp_step. unfold Store_GetFreq. wp_step. apply wp_gets.
    assert (forall r w1 m, becomes w w1 m -> (forall T, env_clock (tick w) = T -> seen T m = visible T w) -> wp (let '(freq, ok, policyOK) := r in
        if negb policyOK then mret (EncodeError "ERR An LFU maxmemory policy is not selected, access frequency not tracked. Please note that when switching between maxmemory policies at runtime LFU and LRU data will take some time to adjust.")
        else if negb ok then mret (EncodeError "ERR no such key") else mret (EncodeInteger freq))
        (fun _ w' => store_ok w' /\ same_setup w w' /\ forall T, instant T w w' -> visible T w' = visible T w) w1) as Hend.
    { intros [[freq ok] pok] w1 m (Hw1 & Hd & Hs) Hv.
      assert (forall T, instant T w w1 -> visible T w1 = visible T w) by (intros T [HT _]; unfold visible at 1; rewrite Hd; auto).
      destruct pok, ok; by apply wp_ret. }
    assert (becomes w w (dataOf w)) as Hrefl by (by apply becomes_refl).
    destruct (negb _); [apply wp_ret; by apply (Hend (0, false, false) w _ Hrefl)|]. wp_step. apply wp_gets.
    destruct (dataOf w !! k) as [e|] eqn:Ek; [|apply wp_ret; by apply (Hend (0, false, true) w _ Hrefl)].
    wp_step. wp_use isExpired_wp. intros b w1 [-> [n ->]]. destruct (expired_in w e) eqn:Hx.
    + wp_step. wp_use removeKey_wp; [by apply store_ok_advance|]. intros [] w2 Hb. apply wp_ret.
      eapply (Hend (0, false, true)); [eapply becomes_trans; [by apply (becomes_advance n)|exact Hb]|]. intros T <-.
      apply seen_delete_hidden. change (dataOf (advance n w)) with (dataOf w). rewrite Ek. cbn. unfold shown. change (expired_at _ e) with (expired_in w e). by rewrite Hx.
    + apply wp_ret. by apply (Hend (lfuDecodeCounter (lru e), true, true) _ _ (becomes_advance n w Hw)).
Qed.

Lemma t_refines_debug w args : store_ok w -> trefines w (handleDebug args) (fun T => t_debug T args) (fun _ => True).
Proof.
  intros Hw. unfold handleDebug, t_debug. destruct args as [|sub args]; [t_ret|]. cbv zeta.
  destruct (string_eqb (ToUpper sub) "MEMORY"); [|destruct (string_eqb (ToUpper sub) "KEYS"); [|t_ret]].
  all: apply t_refines_open; wp_step; apply wp_gets, wp_ret; split_and!; auto with rediska.
Qed.

(** Active expiry cannot be observed. *)
Lemma t_refines_expiry w args : store_ok w -> trefines w (handleExpiry args) (fun T => t_unspecified T args) (fun _ => True).
Proof.
  intros Hw. apply t_refines_open. unfold handleExpiry, DeleteExpired. wp_step. wp_step. unfold wp at 1, range_keys.
  wp_use expire_loop_wp; [by apply (store_ok_advance 1)|].
  intros r w' (m & (Hw' & Hd & Hs) & Hsub & _ & Hsnd & _). change (dataOf (next_tick w)) with (dataOf w) in *. apply wp_ret.
  split; [done|]. split; [etrans; [apply (same_setup_advance 1)|exact Hs]|]. intros T [_ HT]. unfold visible. rewrite Hd.
  apply map_eq. intros k. rewrite !seen_lookup. destruct (m !! k) as [e|] eqn:Em.
  - by rewrite (lookup_weaken _ _ _ _ Em Hsub).
  - destruct (dataOf w !! k) as [e|] eqn:Ek; [|done]. cbn. unfold shown. specialize (Hsnd k e Ek Em).
    unfold expired_in in Hsnd. rewrite HT in Hsnd. unfold expired_at. by rewrite Hsnd.
Qed.

(** The commands that do not look at deadlines find no entry past its own. *)
Definition fresh (w : World) (cmd : Command) (T : Z) : Prop :=
  (cmdName cmd = "APPEND" -> forall k v, Args cmd = [k; v] -> unstale T w k) /\
  (cmdName cmd = "PFCOUNT" -> forall k, Args cmd = [k] -> unstale T w k) /\
  (cmdName cmd = "PFMERGE" -> forall k, k ∈ Args cmd -> unstale T w k).

Lemma trefines_weaken w m f (ok ok' : Z -> Prop) : (forall T, ok' T -> ok T) -> trefines w m f ok -> trefines w m f ok'.
Proof.
  intros Hok Hm. eapply wp_mono; [exact Hm|]. intros r w' (Hw' & Hs & Hf). split; [done|]. split; [done|]. eauto.
Qed.

Lemma t_handler w cmd h :
  assoc (cmdName cmd) (commands cfg Current) = Some h -> cluster_ready cfg Current -> server_ok w -> runnable w cmd ->
  trefines w (h (Args cmd)) (t_exec cmd) (fresh w cmd).
Proof.
  destruct cmd as [name args]. cbn [cmdName Args]. intros Hn Hready Hw Hr. pose proof (proj1 Hw) as Hs.
  by_command Hn.
  all: eapply trefines_weaken; [|first
    [ by apply t_refines_expiry | by apply t_refines_append | by apply t_refines_debug | by apply t_refines_del
    | by apply t_refines_expire | by apply t_refines_get | by apply t_refines_incr | by apply t_refines_object
    | by apply t_refines_pfadd | by apply t_refines_pfcount | by apply t_refines_pfmerge | by apply t_refines_ping
    | by apply t_refines_set | by apply t_refines_ttl
    | apply t_refines_readonly; [done|by apply handleCluster_preserves|apply readonly_cluster]
    | apply t_refines_readonly; [done|by apply (handlers_preserve cfg Current _ "INFO")|apply readonly_info] ]]; cbv beta.
  all: try done.
  all: intros T (H1 & H2 & H3); first [exact (H1 eq_refl)|exact (H2 eq_refl)|exact (H3 eq_refl)].
Qed.

Lemma t_known name :
  match assoc name t_commands with
  | Some _ => is_Some (assoc name (commands cfg Current))
  | None => assoc name (commands cfg Current) = None
  end.
Proof.
  rewrite commands_list. unfold t_commands. cbn [assoc].
  repeat match goal with
  | |- context [string_eqb ?n name] => destruct (string_eqb n name); [repeat case_match; by eexists|]
  end. done.
Qed.

Lemma log_command_tick cmd reply w r w' : log_command cmd reply w = Val (r, w') -> (tick w <= tick w')%nat.
Proof.
  unfold log_command, next_write, mbind, GoM_bind, gets, mret, GoM_ret, modify.
  destruct (aof w); [destruct (_ && _)|]; intros [= <- <-]; cbn; lia.
Qed.

Lemma fresh_sub w w' cmd T : dataOf w' ⊆ dataOf w -> fresh w cmd T -> fresh w' cmd T.
Proof.
  intros Hsub (H1 & H2 & H3). assert (forall k, unstale T w k -> unstale T w' k) as Hk.
  { intros k Hu e He. apply Hu. by eapply lookup_weaken. }
  split; [eauto|]. split; eauto.
Qed.

(** The clock does not move between two readings of the same instant. *)
Lemma clock_between T i j k : (i <= j)%nat -> (j <= k)%nat -> env_clock i = T -> env_clock k = T -> env_clock j = T.
Proof. intros H1 H2 <- Hk. pose proof (clock_mono _ _ H1). pose proof (clock_mono _ _ H2). lia. Qed.

Lemma Dispatch_timed w cmd r w' T :
  cluster_ready cfg Current -> server_ok w -> runnable w cmd -> Dispatch cfg Current cmd w = Val (r, w') ->
  env_clock (tick w) = T -> env_clock (tick w') = T -> fresh w cmd T ->
  limited cfg (tight cfg Current w cmd) (timed_dispatch Current cmd T) (visible T w) r (visible T w').
Proof.
  intros Hready Hw Hr E HT HT' Hf. pose proof (t_known (cmdName cmd)) as Hk. unfold Dispatch in E.
  assert (forall e, timed_dispatch Current cmd T (visible T w) = (Some e, visible T w) -> tight cfg Current w cmd = false ->
    limited cfg (tight cfg Current w cmd) (timed_dispatch Current cmd T) (visible T w) e (visible T w)) as Hdone.
  { intros e He Ht. apply limited_all; rewrite ?He; [done..|]. by intros ? [= <-]. }
  destruct (assoc (cmdName cmd) (commands cfg Current)) as [h|] eqn:Eh.
  2: { injection E as <- <-. apply Hdone; [|by apply tight_unknown]. unfold timed_dispatch, t_exec.
       destruct (assoc (cmdName cmd) t_commands); [by destruct Hk|done]. }
  destruct (assoc (cmdName cmd) t_commands) as [f|] eqn:Ef; [|done].
  destruct (checkCluster Current cmd) as [err|] eqn:Ec.
  { injection E as <- <-. apply Hdone; [unfold timed_dispatch; by rewrite Ef, Ec|]. unfold tight. by rewrite Ec, andb_false_r. }
  unfold mbind, GoM_bind, mret, GoM_ret in E. destruct (check_memory cfg (cmdName cmd) w) as [[oom w1]|] eqn:E1; [|done].
  destruct (check_memory_returns cfg (aof w) w (cmdName cmd) oom w1 (conj Hw eq_refl) E1) as [[Hw1 _] Hc].
  pose proof Hc as (Ht1 & Hsub & _).
  pose proof (memory_checked_limited cfg Current w cmd oom w1 (timed_dispatch Current cmd T) (visible T w) (visible T w1)
    Ec Hc (map_omap_mono _ _ _ Hsub) ltac:(by intros ->)) as Hlim.
  destruct oom; [injection E as <- <-; by destruct Hlim as [-> Hlim]|].
  pose proof (t_handler w1 cmd h Eh Hready Hw1 (runnable_sub _ _ _ Hsub Hr)) as Hh.
  apply wp_Val in Hh as (r1 & w2 & E2 & _ & Hs2 & Hpost). rewrite E2 in E.
  destruct (log_command cmd r1 w2) as [[[] w3]|] eqn:E3; [|done]. injection E as <- <-.
  pose proof (log_command_tick _ _ _ _ _ E3) as Ht3. pose proof (log_command_data _ _ _ _ _ E3) as Hd.
  assert (tick w1 <= tick w2)%nat as Ht2 by apply Hs2.
  destruct (Hpost T) as [HK Hreply]; [split; (eapply clock_between; [| |exact HT|exact HT']; lia)|by eapply fresh_sub|].
  apply Hlim; unfold timed_dispatch; rewrite Ef, Ec; [|exact Hreply]. rewrite <-HK. unfold visible. by rewrite Hd.
Qed.

(** C5: The dispatcher implements the keyspace in time. A command that runs at an instant
    [T] of the clock and does not append to a sketch is answered as the specification says
    of the keys visible at [T], and leaves visible what the specification leaves; a memory
    limit shows as in [dispatch_refines_keyspace]; from then on keys vanish exactly at their
    deadlines, whether or not their entries have been removed. Only APPEND, PFCOUNT and
    PFMERGE look at entries past their deadline, which must not be there; the samples
    configured for eviction must fit a slice. *)
Theorem dispatch_refines_timed_keyspace (w : World) (cmd : Command) :
  cluster_ready cfg Current -> MaxMemorySamples cfg <= maxSamples -> server_ok w -> runnable w cmd ->
  exists r w', Dispatch cfg Current cmd w = Val (r, w') /\ server_ok w' /\
    forall T, env_clock (tick w) = T -> env_clock (tick w') = T -> fresh w cmd T ->
      limited cfg (tight cfg Current w cmd) (timed_dispatch Current cmd T) (visible T w) r (visible T w') /\
      forall T', T <= T' -> visible T' w' = left_at T' (visible T w').
Proof.
  intros Hready Hn Hw Hr. pose proof (Dispatch_wp cfg Current (aof w) w cmd Hready Hn (conj Hw eq_refl) Hr) as Hd.
  apply wp_Val in Hd as (r & w' & E & Hw'%inv_logged_ok). exists r, w'. split; [done|]. split; [done|].
  intros T HT HT' Hf. split; [by apply Dispatch_timed|]. intros T' HT2. by apply visible_later.
Qed.
End refinement.

(** INCR keeps the deadline of a key: it sets again what is left of it, unless that is more
    than a duration can hold. *)
Lemma t_same_deadline_keeps T x : T < x -> x - T <= MaxInt64 -> t_same_deadline T x = x.
Proof.
  intros Hx Hm. unfold t_same_deadline, IsZero. destruct (Z.eqb_spec x 0) as [->|]; [done|].
  unfold TimeSub, MinInt64 in *. lia.
Qed.

(** ** Witness *)

Section witness.
Local Instance deadline_env : GoEnv := env_at (unixToInternal + 10 * Second).
Local Instance deadline_laws : GoEnvLaws.
Proof. apply env_at_laws. unfold Second. lia. Defined.

(** A key that expires in two seconds and one that expired a second ago. *)
Definition two_deadlines : World :=
  upd_data (fun _ => <["a" := mkEntry EncodingINT 7 None None (unixToInternal + 12 * Second) 0]>
                     {["b" := mkEntry EncodingINT 8 None None (unixToInternal + 9 * Second) 0]})
    (upd_memory (fun _ => 146) (set_stat [{["keys" := 2]}; ∅; ∅; ∅] World_init)).

Lemma two_deadlines_ok : server_ok two_deadlines.
Proof.
  split; [split|apply pool_ok_nil].
  - cbn [dataOf two_deadlines upd_data upd_memory set_stat World_init data Default].
    apply map_Forall_insert_2; [|apply map_Forall_singleton]; (split; [by vm_compute|cbn; lia]).
  - reflexivity.
  - reflexivity.
  - reflexivity.
  - cbn. lia.
Qed.

Lemma dispatch_refines_timed_keyspace_witness :
  exists w', Dispatch (mkConfig 0 "noeviction" 5 false) None (mkCommand "DEL" ["a"; "b"; "a"]) two_deadlines = Val (EncodeInteger 1, w').
Proof.
  destruct (dispatch_refines_timed_keyspace (mkConfig 0 "noeviction" 5 false) None two_deadlines
    (mkCommand "DEL" ["a"; "b"; "a"])) as (r & w' & E & _ & Hw').
  - discriminate.
  - discriminate.
  - exact two_deadlines_ok.
  - discriminate.
  - destruct (Hw' (unixToInternal + 10 * Second) eq_refl) as [Hr _].
    + vm_compute in E. injection E as _ <-. reflexivity.
    + split; [discriminate|]. split; discriminate.
    + apply limited_unlimited in Hr as [_ Hr]; [|reflexivity]. exists w'. rewrite E. do 2 f_equal. apply Hr. reflexivity.
Defined.
End witness.
