(* ===== verification/Recovery.v ===== *)
(** * Restarting from the append-only file

    The commands of a run that the log leaves out change nothing a client sees, and
    replaying those it holds does to the keyspace what they did when they were first
    run. So a restart restores the contents of the server. *)

From S2P Require Import Prelude GoLib Resp Aof Sds HllSparse HllDense Hll World Lru Store StoreInv StoreSpec Evict Slot Layout Commands CommandClaims Dispatch DispatchClaims Keyspace.

(** ** What the log leaves out *)

Section log.
Context `{!GoEnv}.

(** Reduce a specification applied to arguments of every possible number. *)
Ltac spec_cases :=
  repeat match goal with
  | |- context [match ?x with _ => _ end] => destruct x
  end.

Lemma exec_reads cmd K : is_in (cmdName cmd) writeCommands = false -> (exec cmd K).2 = K.
Proof.
  destruct cmd as [name args]. unfold exec. cbn [cmdName Args]. unfold spec_commands. cbn [assoc].
  repeat match goal with
  | |- context [if string_eqb ?n name then _ else _] =>
      let E := fresh "E" in destruct (string_eqb n name) eqn:E; [apply String.eqb_eq in E; subst name|clear E]
  end; try (intros Hw; discriminate Hw); intros _; try done;
  unfold spec_debug, spec_get, spec_object, spec_pfcount, spec_ping, spec_ttl, wrong_args; by spec_cases.
Qed.

(** A write is answered; if with an error, it has changed nothing. *)
Lemma exec_writes cmd K :
  is_in (cmdName cmd) writeCommands = true ->
  exists r, (exec cmd K).1 = Some r /\ (isErrorReply r = true -> (exec cmd K).2 = K).
Proof.
  destruct cmd as [name args]. unfold exec. cbn [cmdName Args]. unfold spec_commands. cbn [assoc].
  repeat match goal with
  | |- context [if string_eqb ?n name then _ else _] =>
      let E := fresh "E" in destruct (string_eqb n name) eqn:E; [apply String.eqb_eq in E; subst name|]
  end; intros Hw; try discriminate Hw.
  - unfold spec_append, wrong_args. spec_cases; (eexists; split; [reflexivity|]); done.
  - unfold spec_del, wrong_args. spec_cases; (eexists; split; [reflexivity|]); done.
  - unfold spec_expire, wrong_args. spec_cases; (eexists; split; [reflexivity|]); done.
  - unfold spec_incr, wrong_args. spec_cases; (eexists; split; [reflexivity|]); done.
  - unfold spec_pfadd, wrong_args. destruct args as [|k values]; [by eexists|].
    destruct (K !! k) as [[n|raw s|regs]|]; (eexists; split; [reflexivity|]); try done.
  - unfold spec_pfmerge, wrong_args. destruct args as [|k ks]; (eexists; split; [reflexivity|]); done.
  - unfold spec_set, wrong_args. spec_cases; (eexists; split; [reflexivity|]); done.
  - exfalso. unfold is_in, writeCommands in Hw. cbn [existsb] in Hw. unfold string_eqb in *.
    rewrite !(String.eqb_sym name) in Hw.
    repeat match goal with E : String.eqb _ name = false |- _ => try rewrite E in Hw; clear E end. done.
Qed.

(** The reply of a command the specification refuses or answers with an error. *)
Lemma spec_dispatch_unlogged Current cmd K reply :
  (forall r, (spec_dispatch Current cmd K).1 = Some r -> reply = r) -> logged cmd reply = false ->
  (spec_dispatch Current cmd K).2 = K.
Proof.
  unfold logged. intros Hr Hlog. unfold spec_dispatch in *.
  assert ((forall r, (exec cmd K).1 = Some r -> reply = r) -> (exec cmd K).2 = K) as Hexec.
  { intros Hr'. destruct (is_in (cmdName cmd) writeCommands) eqn:Hw; [|by apply exec_reads].
    destruct (exec_writes cmd K Hw) as (r & Er & Hk). apply Hk. rewrite (Hr' r Er) in Hlog.
    by apply negb_false_iff in Hlog. }
  destruct (assoc (cmdName cmd) spec_commands); [|by apply Hexec].
  destruct (checkCluster Current cmd); [done|by apply Hexec].
Qed.

(** A command that was logged was not refused. *)
Lemma spec_dispatch_logged Current cmd K reply :
  (forall r, (spec_dispatch Current cmd K).1 = Some r -> reply = r) -> logged cmd reply = true ->
  spec_dispatch Current cmd K = exec cmd K.
Proof.
  unfold logged, spec_dispatch. intros Hr [_ Hne]%andb_true_iff.
  destruct (assoc (cmdName cmd) spec_commands) as [f|]; [|done].
  destruct (checkCluster Current cmd) as [err|] eqn:Ec; [|done].
  apply checkKeys_error in Ec as [s ->]. by rewrite (Hr _ eq_refl) in Hne.
Qed.
End log.

(** ** Replaying *)

Section replay.
Context `{!GoEnv} `{!GoEnvLaws} (cfg : Config) (Current : option Layout).
Context (no_limit : MaxMemory cfg <= 0) (ready : cluster_ready cfg Current).

(** The record of a command. *)
Definition record (cmd : Command) : list string := cmdName cmd :: Args cmd.

(** A server without expiries that shows the keyspace [K]. *)
Definition shows (w : World) (K : keyspace) : Prop := server_ok w /\ all_persistent w /\ contents w = K.

Lemma ToUpper_write name : is_in name writeCommands = true -> ToUpper name = name.
Proof.
  unfold is_in, writeCommands. cbn [existsb]. intros Hn. apply existsb_exists with (l := writeCommands) in Hn as (n & Hin & ->%String.eqb_eq).
  repeat (destruct Hin as [<-|Hin]; [reflexivity|]). destruct Hin.
Qed.

Lemma Replay_refines w K cmd :
  shows w K -> is_in (cmdName cmd) writeCommands = true -> lasting cmd -> k_runnable cmd K ->
  exists w', replayAOFCommand cfg Current (cmdName cmd :: Args cmd) w = Val (tt, w') /\ shows w' (exec cmd K).2.
Proof.
  intros (Hw & Hp & <-) Hn Hl Hr. unfold replayAOFCommand. rewrite ToUpper_write by done.
  unfold Replay. cbn [cmdName Args].
  destruct (assoc (cmdName cmd) (commands cfg Current)) as [h|] eqn:Eh.
  - pose proof (handler_refines cfg Current w cmd h Eh ready Hw Hp Hl Hr) as Hh.
    apply wp_Val in Hh as (r & w' & E & Hw' & Hp' & Hs & HK & _). exists w'. unfold mbind, GoM_bind. rewrite E.
    split; [done|]. split; [|done]. destruct (becomes_inv (aof w) w w' (dataOf w') (conj Hw eq_refl)) as [Hok _];
      [by split; [|split]|done].
  - exists w. split; [done|]. split; [done|]. split; [done|]. unfold exec.
    pose proof (spec_known cfg Current (cmdName cmd)) as Hk. destruct (assoc (cmdName cmd) spec_commands); [|done].
    destruct Hk as [? Hk]. congruence.
Qed.

(** Replaying a log of such commands. *)
Definition replayed (log : list Command) (K : keyspace) : keyspace := foldl (fun K cmd => (exec cmd K).2) K log.

Lemma replay_log log w K w' :
  shows w K -> Forall (fun cmd => is_in (cmdName cmd) writeCommands = true /\ lasting cmd) log ->
  forM (record <$> log) (replayAOFCommand cfg Current) w = Val (tt, w') -> shows w' (replayed log K).
Proof.
  intros Hw Hl. revert w K Hw. induction Hl as [|cmd log [Hn Hc] Hl IH]; intros w K Hw; cbn [fmap list_fmap forM].
  - by intros [= <-].
  - unfold mbind, GoM_bind. destruct (replayAOFCommand cfg Current (record cmd) w) as [[[] w1]|] eqn:E1; [|done].
    apply IH. assert (k_runnable cmd K) as Hr.
    { pose proof Hw as (Hok & _ & <-). unfold record, replayAOFCommand in E1. rewrite ToUpper_write in E1 by done.
      unfold Replay in E1. cbn [cmdName Args] in E1. destruct (assoc _ _) as [h|] eqn:Eh; [|intros Hx; by rewrite Hx in Eh].
      unfold mbind, GoM_bind in E1. destruct (h (Args cmd) w) as [[r w2]|] eqn:E2; [|done]. by eapply handler_runnable. }
    destruct (Replay_refines w K cmd Hw Hn Hc Hr) as (w2 & E2 & Hw2). unfold record in E1. rewrite E2 in E1. by injection E1 as <-.
Qed.

(** A command that was run without a panic did not append to a sketch. *)
Lemma Dispatch_runnable w cmd r w' :
  server_ok w -> checkCluster Current cmd = None -> Dispatch cfg Current cmd w = Val (r, w') ->
  k_runnable cmd (contents w).
Proof.
  intros Hw Hc E. unfold Dispatch in E. destruct (assoc _ _) as [h|] eqn:Eh.
  - rewrite Hc in E. unfold check_memory in E. rewrite (proj2 (Z.ltb_ge _ _)), andb_false_r in E by done.
    unfold mbind, GoM_bind, mret, GoM_ret in E. destruct (h (Args cmd) w) as [[r1 w1]|] eqn:E1; [|done].
    by eapply handler_runnable.
  - intros Hn. by rewrite Hn in Eh.
Qed.

(** One command of the run, and its replay. *)
Lemma replay_step w w0 K cmd r w' :
  shows w K -> shows w0 K -> lasting cmd -> Dispatch cfg Current cmd w = Val (r, w') ->
  exists K' w1, shows w' K' /\ shows w1 K' /\
    (if logged cmd r then replayAOFCommand cfg Current (cmdName cmd :: Args cmd) w0 = Val (tt, w1) else w1 = w0).
Proof.
  intros (Hw & Hp & HK) Hw0 Hl E. destruct (checkCluster Current cmd) as [err|] eqn:Ec.
  - exists K, w0. assert (w' = w /\ isErrorReply r = true) as [-> Herr].
    { revert E. unfold Dispatch. rewrite Ec. destruct (assoc _ _); [|by intros [= <- <-]].
      apply checkKeys_error in Ec as [s ->]. by intros [= <- <-]. }
    split; [by split|]. split; [done|]. unfold logged. rewrite Herr. by rewrite andb_false_r.
  - pose proof (Dispatch_runnable w cmd r w' Hw Ec E) as Hr.
    destruct (Dispatch_refines_unlimited cfg Current w cmd r w' no_limit ready Hw Hp Hl E) as (Hp' & HK' & Hreply).
    pose proof (Dispatch_returns cfg Current (aof w) w cmd r w' (conj Hw eq_refl) E) as Hw'%inv_logged_ok. rewrite HK in *. destruct (logged cmd r) eqn:Hlog.
    + rewrite (spec_dispatch_logged Current cmd K r Hreply Hlog) in HK'.
      apply andb_true_iff in Hlog as [Hn _].
      destruct (Replay_refines w0 K cmd Hw0 Hn Hl Hr) as (w1 & E1 & Hw1).
      exists (exec cmd K).2, w1. by split; [|split].
    + rewrite (spec_dispatch_unlogged Current cmd K r Hreply Hlog) in HK'. exists K, w0. by split; [|split].
Qed.

Lemma replay_run cmds w w0 K replies w' :
  shows w K -> shows w0 K -> Forall lasting cmds -> dispatch_each cfg Current cmds w = Val (replies, w') ->
  exists K' w1, shows w' K' /\ shows w1 K' /\
    forM (log_of cmds replies) (replayAOFCommand cfg Current) w0 = Val (tt, w1).
Proof.
  intros Hw Hw0 Hl. revert w w0 K replies Hw Hw0.
  induction Hl as [|cmd cmds Hc Hcs IH]; intros w w0 K replies Hw Hw0; cbn [dispatch_each].
  - intros [= <- <-]. by exists K, w0.
  - unfold mbind, GoM_bind. destruct (Dispatch cfg Current cmd w) as [[r w1]|] eqn:E1; [|done].
    destruct (dispatch_each cfg Current cmds w1) as [[rs w2]|] eqn:E2; [|done]. intros [= <- <-].
    destruct (replay_step w w0 K cmd r w1 Hw Hw0 Hc E1) as (K1 & w01 & Hw1 & Hw01 & Hstep).
    destruct (IH w1 w01 K1 rs Hw1 Hw01 E2) as (K' & wf & Hw' & Hwf & Ef). exists K', wf. split; [done|]. split; [done|].
    cbn [log_of]. destruct (logged cmd r); [|by subst w01].
    cbn [forM]. unfold mbind, GoM_bind. by rewrite Hstep.
Qed.

(** ** Cutting a run *)

Lemma dispatch_each_take n cmds w replies w' :
  dispatch_each cfg Current cmds w = Val (replies, w') ->
  exists wn, dispatch_each cfg Current (take n cmds) w = Val (take n replies, wn) /\ (take n cmds = cmds -> wn = w').
Proof.
  revert n w replies. induction cmds as [|c cmds IH]; intros n w replies; cbn [dispatch_each].
  - intros [= <- <-]. rewrite !take_nil. by exists w.
  - unfold mbind, GoM_bind. destruct (Dispatch cfg Current c w) as [[r w1]|] eqn:E1; [|done].
    destruct (dispatch_each cfg Current cmds w1) as [[rs w2]|] eqn:E2; [|done]. intros [= <- <-].
    destruct n as [|n]; [by exists w|]. destruct (IH n w1 rs E2) as (wn & En & Hn). exists wn.
    cbn [take dispatch_each]. unfold mbind, GoM_bind. rewrite E1, En. split; [done|]. intros [= Ht]. auto.
Qed.

(** The first entries of the log come from the first commands of the run. *)
Lemma log_of_take m cmds replies :
  length replies = length cmds ->
  exists n, log_of (take n cmds) (take n replies) = take m (log_of cmds replies) /\
    (take m (log_of cmds replies) = log_of cmds replies -> take n cmds = cmds).
Proof.
  revert m replies. induction cmds as [|c cmds IH]; intros m [|r replies] Hlen; try done.
  - exists 0%nat. by destruct m.
  - injection Hlen as Hlen. cbn [log_of]. destruct (logged c r) eqn:Hl.
    + destruct m as [|m]; [exists 0%nat; by split; [|intros [=]]|]. destruct (IH m replies Hlen) as (n & Hn & Hall). exists (S n).
      cbn [take log_of]. rewrite Hl, Hn. split; [done|]. intros [= Ht]. by rewrite Hall.
    + destruct (IH m replies Hlen) as (n & Hn & Hall). exists (S n). cbn [take log_of]. rewrite Hl. split; [done|].
      intros Ht. by rewrite Hall.
Qed.

(** C8: A restart restores the contents, and a crash or a full disk loses at most the last
    commands. Whatever commands were run (reads, refused and failed ones included), as long
    as none gave a key an expiry and memory is not limited, on a disk with room for [cap]
    bytes or for everything: if [f] is what is left of the append-only file, which is any
    prefix of it, then starting up again from [f] gives a server in order that shows clients
    exactly the keyspace the first one showed after some of the commands, and after all of
    them if [f] holds all that was to be logged. *)
Theorem restart_restores_contents (cmds : list Command) (replies : list string) (w w' w0 : World) (cap : option Z) (f rest : string) :
  disk_holds cap -> (forall c, cap = Some c -> 0 <= c) ->
  shows w (contents w0) -> shows w0 (contents w0) -> aof w = Some EmptyString -> Forall lasting cmds ->
  dispatch_each cfg Current cmds w = Val (replies, w') -> Forall sendable (log_of cmds replies) ->
  aof w' = Some (f +++ rest) ->
  exists n wn w1, dispatch_each cfg Current (take n cmds) w = Val (take n replies, wn) /\
    startup cfg Current f w0 = Val (tt, w1) /\ server_ok w1 /\ contents w1 = contents wn /\ aof w1 = Some f /\
    (f = written (log_of cmds replies) -> wn = w').
Proof.
  intros Hd Hcap Hw Hw0 Ha Hl E Hs Hf.
  destruct (dispatch_each_log cfg Current cap cmds w replies w' EmptyString Hd (conj (proj1 Hw) Ha) E) as [[_ Ha'] Hlen].
  rewrite Ha' in Hf. injection Hf as Hf.
  destruct (filled_prefix cap EmptyString (log_of cmds replies)) as [rest' Hr]; [by intros ? ->; apply Hcap|].
  rewrite Hf, append_assoc' in Hr.
  destruct (Recover_cut (replayAOFCommand cfg Current) _ f _ Hs Hr) as (m & Hm & Hall).
  destruct (log_of_take m cmds replies Hlen) as (n & Hn & Hn').
  destruct (dispatch_each_take n cmds w replies w' E) as (wn & En & Hwn).
  assert (Forall lasting (take n cmds)) as Hln by (by apply Forall_take).
  destruct (replay_run _ w w0 _ _ wn Hw Hw0 Hln En) as (K' & w1 & (_ & _ & HK') & (Hw1 & _ & HK1) & E1).
  exists n, wn, (set_aof (Some f) w1). split; [exact En|]. unfold startup, mbind, GoM_bind. rewrite Hm, <-Hn, E1.
  split; [done|]. split; [destruct Hw1 as [[] Hp]; by split; [split|]|].
  split; [change (contents w1 = contents wn); by rewrite HK1, HK'|]. split; [done|].
  intros Hwhole. apply Hwn, Hn', Hall. apply (append_inv_nil f). by rewrite <-Hr.
Qed.
End replay.

(** ** Witness *)

Section witness.
(** A disk with room for 60 bytes. *)
Local Instance recovery_env : GoEnv := with_writes (fun _ => room (Some 60)) (env_at (unixToInternal + 10 * Second)).
Local Instance recovery_laws : GoEnvLaws.
Proof. apply with_writes_laws, env_at_laws. unfold Second. lia. Defined.

Definition a_run : list Command :=
  [mkCommand "SET" ["a"; "5"]; mkCommand "INCR" ["a"]; mkCommand "GET" ["a"]; mkCommand "APPEND" ["b"; "xy"];
   mkCommand "INCR" ["b"]; mkCommand "DEL" ["c"]; mkCommand "SET" ["a"]].

Definition after_run : list string * World :=
  match dispatch_each plain_config None a_run (set_aof (Some EmptyString) World_init) with
  | Val x => x
  | Panic _ => ([], World_init)
  end.

Lemma a_run_returns :
  dispatch_each plain_config None a_run (set_aof (Some EmptyString) World_init) = Val (after_run.1, after_run.2).
Proof. vm_compute. reflexivity. Qed.

Lemma a_run_log :
  log_of a_run after_run.1 = [["SET"; "a"; "5"]; ["INCR"; "a"]; ["APPEND"; "b"; "xy"]; ["DEL"; "c"]].
Proof. vm_compute. reflexivity. Qed.

(** Of the 60 bytes that fit, one command and the start of the next are left. *)
Lemma restart_restores_contents_witness :
  exists n wn w1, dispatch_each plain_config None (take n a_run) (set_aof (Some EmptyString) World_init) = Val (take n after_run.1, wn) /\
    startup plain_config None (written [["SET"; "a"; "5"]] +++ "*2") World_init = Val (tt, w1) /\ contents w1 = contents wn.
Proof.
  destruct (restart_restores_contents plain_config None ltac:(cbn; lia) ltac:(discriminate) a_run after_run.1
    (set_aof (Some EmptyString) World_init) after_run.2 World_init (Some 60) (written [["SET"; "a"; "5"]] +++ "*2")
    (TrimPrefix (default EmptyString (aof after_run.2)) (written [["SET"; "a"; "5"]] +++ "*2")))
    as (n & wn & w1 & En & E & _ & HK & _).
  - intros i f b. reflexivity.
  - intros c [= <-]. lia.
  - split; [apply server_ok_init|]. split; [apply map_Forall_empty|reflexivity].
  - split; [apply (server_ok_init None)|]. split; [apply map_Forall_empty|reflexivity].
  - reflexivity.
  - repeat constructor; discriminate.
  - exact a_run_returns.
  - rewrite a_run_log. repeat constructor; try done; unfold small; done.
  - vm_compute. reflexivity.
  - exists n, wn, w1. split; [exact En|]. split; [exact E|exact HK].
Defined.
End witness.
