(* ===== verification/Restart.v ===== *)
(** * Restarting with deadlines

    The log holds times to live, not deadlines. Replaying it at an instant of the clock does
    to the visible keys what the specification of [Deadlines] says at that instant: every
    deadline is counted again from the restart. *)

From S2P Require Import Prelude GoLib Resp Aof Sds HllSparse HllDense Hll World Lru Store StoreInv StoreSpec Evict Slot Layout Commands CommandClaims Dispatch DispatchClaims Keyspace Deadlines Recovery.

Section restart.
Context `{!GoEnv} `{!GoEnvLaws} (cfg : Config) (Current : option Layout).

(** ** No entry is past its deadline while the log is replayed *)

Definition unexpired (T : Z) (m : gmap string entry) : Prop := map_Forall (fun _ e => expired_at T e = false) m.

Definition current (T : Z) (w : World) : Prop := store_ok w /\ T <= env_clock (tick w) /\ unexpired T (dataOf w).

Lemma becomes_current T w w' m : current T w -> becomes w w' m -> unexpired T m -> current T w'.
Proof.
  intros (_ & Ht & _) (Hw' & <- & _ & _ & _ & _ & _ & Htick) Hm. split; [done|]. split; [|done].
  pose proof (clock_mono _ _ Htick). lia.
Qed.

(** From the specification of an operation, that it creates no entry past its deadline. *)
Lemma wp_current {A} (m : GoM World A) Q T w :
  current T w -> wp m Q w -> (forall x w', Q x w' -> exists d, becomes w w' d /\ unexpired T d) -> wp m (fun _ => current T) w.
Proof.
  intros Hw Hm HQ. eapply wp_mono; [exact Hm|]. intros x w' Hx. destruct (HQ x w' Hx) as (d & Hd & Hu).
  by eapply becomes_current.
Qed.

Lemma unexpired_insert T m k e : unexpired T m -> expired_at T e = false -> unexpired T (<[k := e]> m).
Proof. intros Hm He. by apply map_Forall_insert_2. Qed.

Lemma unexpired_sub T m m' : m' ⊆ m -> unexpired T m -> unexpired T m'.
Proof. intros Hs Hm k e He. apply (Hm k). by eapply lookup_weaken. Qed.

Lemma expired_at_0 T e : expiresAt e = 0 -> expired_at T e = false.
Proof. unfold expired_at. by intros ->. Qed.

Lemma accessed_unexpired T w k m : unexpired T (dataOf w) -> accessed w k m -> unexpired T m.
Proof.
  intros Hu. unfold accessed. destruct (live w k) as [e|] eqn:El.
  - intros [l ->]. apply live_Some in El as [Ek _]. apply unexpired_insert; [done|]. exact (Hu k e Ek).
  - intros ->. eapply unexpired_sub; [apply delete_subseteq|done].
Qed.

Lemma newEntry_unexpired T w v ttl l : T <= env_clock (tick w) -> expired_at T (newEntry v (deadline w ttl) l) = false.
Proof.
  intros Ht. unfold expired_at. rewrite newEntry_expiresAt. unfold deadline, IsZero.
  destruct (Z.ltb_spec 0 ttl); [|done]. apply andb_false_iff. right. apply Z.leb_gt. lia.
Qed.

Ltac by_current lem :=
  intros w Hw; eapply (wp_current _ _ _ _ Hw); [apply lem; apply Hw|cbv beta; pose proof Hw as (_ & Ht & Hu)].

Lemma Set_current T k v ttl : preserves (current T) (Store_Set k v ttl).
Proof.
  by_current Store_Set_wp. intros _ w' [l Hb]. eexists. split; [exact Hb|]. apply unexpired_insert; [done|].
  by apply newEntry_unexpired.
Qed.

Lemma Get_current T k : preserves (current T) (Store_Get k).
Proof. by_current Store_Get_wp. intros r w' (_ & m & Hb & Hm). exists m. split; [done|]. by eapply accessed_unexpired. Qed.

Lemma GetInt_current T k : preserves (current T) (Store_GetInt k).
Proof. by_current Store_GetInt_wp. intros r w' (_ & m & Hb & Hm). exists m. split; [done|]. by eapply accessed_unexpired. Qed.

Lemma Delete_current T keys : preserves (current T) (Store_Delete keys).
Proof.
  by_current Store_Delete_wp. intros r w' (Hb & _). eexists. split; [exact Hb|]. revert Hu. apply unexpired_sub.
  clear. unfold delete_all. generalize (dataOf w). induction keys as [|k keys IH]; intros m; [done|]. cbn [foldl].
  etrans; [apply IH|apply delete_subseteq].
Qed.

Lemma PFAdd_current T k values : preserves (current T) (Store_PFAdd k values).
Proof.
  by_current Store_PFAdd_wp. intros r w'. unfold pfadd_post. destruct (live w k) as [e|] eqn:El.
  - apply live_Some in El as [Ek _]. case_decide.
    + intros (regs & e' & c & _ & _ & Hx & Hb & _). eexists. split; [exact Hb|]. apply unexpired_insert; [done|].
      unfold expired_at. rewrite Hx. exact (Hu k e Ek).
    + intros [_ Hb]. eexists. by split; [exact Hb|].
  - intros (e' & _ & Hx & Hb & _). eexists. split; [exact Hb|]. apply unexpired_insert; [done|]. by apply expired_at_0.
Qed.

Lemma PFMerge_current T dest sources : preserves (current T) (Store_PFMerge dest sources).
Proof.
  intros w Hw. eapply (wp_current _ _ _ _ Hw); [apply Store_PFMerge_wp; [apply Hw|apply contents_registers, Hw]|].
  intros [] w' (e & _ & Hx & Hb). eexists. split; [exact Hb|]. apply unexpired_insert; [apply Hw|by apply expired_at_0].
Qed.

Lemma now_current T : preserves (current T) now.
Proof. intros w Hw. eapply becomes_current; [exact Hw|apply (becomes_advance 1), Hw|apply Hw]. Qed.

Lemma Append_current T k v : keeps (current T) (Store_Append k v).
Proof.
  intros w r w' Hw E. pose proof Hw as (Hs & _ & Hu). destruct (dataOf w !! k) as [old|] eqn:Ek.
  - destruct (decide (encoding old = EncodingHLL)) as [He|He]; [by rewrite (Store_Append_panics w k v old Hs Ek He) in E|].
    assert (exists s, text old = Some s) as [s Ht].
    { rewrite (abs_text old) by (by eapply entry_ok_lookup). unfold abs. destruct (encoding old); [by eexists..|done]. }
    pose proof (Store_Append_old_wp w k v old s Hs Ek Ht) as Hwp. unfold wp in Hwp. rewrite E in Hwp.
    destruct Hwp as (_ & e & Hb & _ & Hx & _). eapply becomes_current; [done|exact Hb|]. apply unexpired_insert; [done|].
    unfold expired_at. rewrite Hx. exact (Hu k old Ek).
  - pose proof (Store_Append_new_wp w k v Hs Ek) as Hwp. unfold wp in Hwp. rewrite E in Hwp.
    destruct Hwp as (_ & l & Hb). eapply becomes_current; [done|exact Hb|]. apply unexpired_insert; [done|].
    apply expired_at_0, newEntry_expiresAt.
Qed.

Hint Resolve Set_current Get_current GetInt_current Delete_current PFAdd_current PFMerge_current now_current lift_preserves : rediska.

Lemma write_current T cmd h :
  assoc (cmdName cmd) (commands cfg Current) = Some h -> is_in (cmdName cmd) writeCommands = true ->
  keeps (current T) (h (Args cmd)).
Proof.
  destruct cmd as [name args]. cbn [cmdName Args]. intros Hn Hw. by_command Hn; try discriminate Hw.
  1: { unfold handleAppend. destruct args as [|k [|v [|]]]; try apply preserves_keeps, preserves_ret.
       apply keeps_bind; [apply Append_current|]. intros. apply preserves_keeps, preserves_ret. }
  all: apply preserves_keeps; unfold handleDel, handleExpire, handleIncr, handlePFAdd, handlePFMerge, handleSet, time_Until; solve_handler.
Qed.

(** ** Replaying *)

(** The keyspace that the commands leave when all are run at the instant [T]. *)
Definition run_at (T : Z) (cmds : list Command) : tkeyspace := foldl (fun K cmd => (t_exec cmd T K).2) ∅ cmds.

Lemma replay_returns w cmd w' :
  cluster_ready cfg Current -> server_ok w -> is_in (cmdName cmd) writeCommands = true ->
  replayAOFCommand cfg Current (record cmd) w = Val (tt, w') ->
  server_ok w' /\ (tick w <= tick w')%nat /\
  forall T, env_clock (tick w) = T -> env_clock (tick w') = T -> unexpired T (dataOf w) ->
    unexpired T (dataOf w') /\ visible T w' = (t_exec cmd T (visible T w)).2.
Proof.
  intros Hready Hw Hn. unfold replayAOFCommand, record. rewrite ToUpper_write by done. unfold Replay. cbn [cmdName Args].
  destruct (assoc (cmdName cmd) (commands cfg Current)) as [h|] eqn:Eh.
  2: { intros [= <-]. split; [done|]. split; [done|]. intros T _ _ Hu. split; [done|]. pose proof (t_known cfg Current (cmdName cmd)) as Hk.
       unfold t_exec. destruct (assoc (cmdName cmd) t_commands); [|done]. destruct Hk as [? Hk]. congruence. }
  unfold mbind, GoM_bind. destruct (h (Args cmd) w) as [[r w1]|] eqn:E; [|done]. intros [= <-].
  assert (runnable w cmd) as Hr by (apply runnable_contents; by eapply handler_runnable).
  pose proof (t_handler cfg Current w cmd h Eh Hready Hw Hr) as Hh. unfold trefines, wp in Hh. rewrite E in Hh.
  destruct Hh as (_ & Hs & Hpost). split; [|split; [apply Hs|]].
  - by destruct (handlers_keep cfg Current (aof w) _ h (Args cmd) Eh w r w1 (conj Hw eq_refl) E).
  - intros T HT HT' Hu. split.
    + eapply (write_current T cmd h Eh Hn w r w1); [|exact E]. split; [apply Hw|]. split; [lia|done].
    + apply (Hpost T); [by split|]. split; [|split]; intros; intros e He; by apply (Hu _ e He).
Qed.

Lemma replay_all cmds w w' :
  cluster_ready cfg Current -> server_ok w -> Forall (fun c => is_in (cmdName c) writeCommands = true) cmds ->
  forM (record <$> cmds) (replayAOFCommand cfg Current) w = Val (tt, w') ->
  server_ok w' /\ (tick w <= tick w')%nat /\
  forall T, env_clock (tick w) = T -> env_clock (tick w') = T -> unexpired T (dataOf w) ->
    visible T w' = foldl (fun K cmd => (t_exec cmd T K).2) (visible T w) cmds.
Proof.
  intros Hready Hw Hc. revert w Hw. induction Hc as [|cmd cmds Hcmd Hcmds IH]; intros w Hw; cbn [fmap list_fmap forM].
  - intros [= <-]. done.
  - unfold mbind, GoM_bind. destruct (replayAOFCommand cfg Current (record cmd) w) as [[[] w1]|] eqn:E1; [|done]. intros E2.
    destruct (replay_returns w cmd w1 Hready Hw Hcmd E1) as (Hw1 & Ht1 & Hpost1).
    destruct (IH w1 Hw1 E2) as (Hw' & Ht2 & Hpost2). split; [done|]. split; [lia|]. intros T HT HT' Hu.
    assert (env_clock (tick w1) = T) as HT1 by (eapply clock_between; [exact Ht1|exact Ht2|done|done]).
    destruct (Hpost1 T HT HT1 Hu) as [Hu1 Hv1]. rewrite (Hpost2 T HT1 HT' Hu1), Hv1. done.
Qed.

(** C10: A restart counts deadlines anew. Starting up at an instant [T] from a log of any
    write commands, expiries included, leaves visible exactly what the specification leaves
    when all of them are run at [T]. So a time to live starts again at the restart, and a
    key that had expired before it is back. *)
Theorem restart_renews_deadlines (log : list Command) (w0 w1 : World) (T : Z) :
  cluster_ready cfg Current -> server_ok w0 -> dataOf w0 = ∅ ->
  Forall (fun c => is_in (cmdName c) writeCommands = true /\ sendable (record c)) log ->
  startup cfg Current (written (record <$> log)) w0 = Val (tt, w1) ->
  env_clock (tick w0) = T -> env_clock (tick w1) = T ->
  server_ok w1 /\ visible T w1 = run_at T log /\ forall T', T <= T' -> visible T' w1 = left_at T' (run_at T log).
Proof.
  intros Hready Hw He Hl. unfold startup, mbind, GoM_bind.
  pose proof (Recover_written (replayAOFCommand cfg Current) (record <$> log) EmptyString w0) as Hrec.
  rewrite append_nil_r in Hrec. rewrite Hrec by (apply Forall_fmap; eapply Forall_impl; [exact Hl|]; by intros ? []).
  unfold mbind, GoM_bind. destruct (forM (record <$> log) _ w0) as [[[] w2]|] eqn:E; [|done].
  change (Recover (replayAOFCommand cfg Current) EmptyString w2) with (Val (tt, w2)). intros [= <-] HT HT'.
  destruct (replay_all log w0 w2 Hready Hw) as (Hw2 & _ & Hv); [eapply Forall_impl; [exact Hl|]; by intros ? []|exact E|].
  assert (visible T w2 = run_at T log) as HK.
  { rewrite (Hv T HT HT'); [|by rewrite He]. unfold visible, run_at. by rewrite He. }
  split; [destruct Hw2 as [[] Hp]; by split; [split|]|]. split; [exact HK|]. intros T' HT2.
  change (visible T' (set_aof (Some (written (record <$> log))) w2)) with (visible T' w2). rewrite <-HK. by apply visible_later.
Qed.
End restart.

(** ** A key comes back *)

Section witness.
(** The clock shows 10 seconds past the epoch at first, and 20 from the third reading on. *)
Definition clock_at (i : nat) : Z := unixToInternal + (if (i <? 3)%nat then 10 else 20) * Second.

Local Instance restart_env : GoEnv := {|
  env_clock := clock_at;
  env_rand := fun _ => 0.5%float;
  env_order := fun _ l => l;
  env_sort := @insertion_sort;
  env_append_cap := fun _ n => n;
  env_log := fun _ => 0%float;
  env_unicode_upper := id;
  env_unicode_lower := id;
  env_write := fun _ _ _ => None;
|}.

Local Instance restart_laws : GoEnvLaws.
Proof.
  destruct (env_at_laws unixToInternal ltac:(lia)). split; try done.
  - intros i j Hij. cbn. unfold clock_at, Second. destruct (Nat.ltb_spec i 3), (Nat.ltb_spec j 3); lia.
  - intros i. cbn. unfold clock_at, Second. destruct (Nat.ltb_spec i 3); lia.
Defined.

Definition short_lived : Command := mkCommand "SET" ["k"; "v"; "EX"; "5"].

(** The file after the command, and the state when the clock shows 20. *)
Definition late : World :=
  match Dispatch plain_config None short_lived (set_aof (Some EmptyString) World_init) with
  | Val (_, w) => w
  | Panic _ => World_init
  end.

Definition restarted : World :=
  match startup plain_config None (default EmptyString (aof late)) (advance 3 World_init) with
  | Val (_, w) => w
  | Panic _ => World_init
  end.

(** Set for five seconds at second 10, it is gone at second 20; a restart then brings it back. *)
Example expired_key_comes_back :
  let reply w := match Dispatch plain_config None (mkCommand "GET" ["k"]) w with Val (r, _) => Some r | Panic _ => None end in
  env_clock (tick (set_aof (Some EmptyString) World_init)) = unixToInternal + 10 * Second /\
  env_clock (tick late) = unixToInternal + 20 * Second /\
  reply late = Some EncodeNullBulkString /\ reply restarted = Some (EncodeBulkString "v").
Proof. vm_compute. repeat split. Qed.

(** A counter that had expired and was started again continues from its old value. *)
Example expired_counter_continues :
  let run cmds w := match dispatch_each plain_config None cmds w with Val (rs, w) => (rs, w) | Panic _ => ([], w) end in
  let was := run [mkCommand "SET" ["n"; "5"; "EX"; "5"]; mkCommand "INCR" ["n"]] (set_aof (Some EmptyString) World_init) in
  was.1 = [EncodeSimpleString "OK"; EncodeInteger 1] /\
  match startup plain_config None (default EmptyString (aof was.2)) (advance 3 World_init) with
  | Val (_, w) => (run [mkCommand "GET" ["n"]] w).1 = [EncodeBulkString "6"]
  | Panic _ => False
  end.
Proof. vm_compute. repeat split. Qed.

Lemma restart_renews_deadlines_witness :
  let T := unixToInternal + 20 * Second in
  visible T restarted = run_at T [short_lived] /\
  run_at T [short_lived] = {["k" := (KText false "v", T + 5 * Second)]}.
Proof.
  intros T. split; [|vm_compute; reflexivity].
  apply (restart_renews_deadlines plain_config None [short_lived] (advance 3 World_init) restarted).
  - discriminate.
  - split; [apply store_ok_advance, (server_ok_init None)|apply pool_ok_nil].
  - reflexivity.
  - constructor; [|constructor]. split; [reflexivity|]. split; [|done]. repeat constructor; unfold small; done.
  - vm_compute. reflexivity.
  - reflexivity.
  - vm_compute. reflexivity.
Defined.
End witness.
