(* ===== verification/Evicted.v ===== *)
(** * Restarting after an eviction

    Eviction removes keys without a trace in the append-only file, and the replay does not
    check memory. A restart therefore starts from keys that the commands logged since the
    eviction did not see: counters continue where they had been, and an APPEND that made a
    new string meets the sketch that was there before, which stops the server. *)

From S2P Require Import Prelude GoLib Resp Aof Sds HllSparse HllDense Hll World Lru Store StoreInv StoreSpec Evict Slot Layout Commands CommandClaims Dispatch DispatchClaims Keyspace Recovery.

Section evicted.
Context `{!GoEnv} `{!GoEnvLaws} (cfg : Config) (Current : option Layout).
Context (ready : cluster_ready cfg Current).

(** The file that the commands [log] leave. *)
Definition file_of (log : list Command) : string := written (record <$> log).

Definition loggable (cmd : Command) : Prop :=
  is_in (cmdName cmd) writeCommands = true /\ lasting cmd /\ sendable (record cmd).

Lemma startup_file log w0 :
  Forall loggable log ->
  startup cfg Current (file_of log) w0
  = (forM (record <$> log) (replayAOFCommand cfg Current) ;; modify (set_aof (Some (file_of log)))) w0.
Proof.
  intros Hl. unfold startup, mbind, GoM_bind.
  pose proof (Recover_written (replayAOFCommand cfg Current) (record <$> log) EmptyString w0) as Hrec.
  rewrite append_nil_r in Hrec. unfold file_of. rewrite Hrec by (apply Forall_fmap; eapply Forall_impl; [exact Hl|]; by intros ? (_ & _ & ?)).
  unfold mbind, GoM_bind. by destruct (forM _ _ w0) as [[[] w1]|].
Qed.

Lemma file_of_snoc log cmd : file_of (log ++ [cmd]) = appended (file_of log) (record cmd).
Proof. unfold file_of, written. by rewrite fmap_app, foldl_app. Qed.

(** Starting up from the file, if the server has been able to. *)
Lemma startup_shows log w0 w1 :
  Forall loggable log -> shows w0 ∅ -> startup cfg Current (file_of log) w0 = Val (tt, w1) ->
  exists w, forM (record <$> log) (replayAOFCommand cfg Current) w0 = Val (tt, w) /\ shows w (replayed log ∅).
Proof.
  intros Hl Hw0. rewrite startup_file by done. unfold mbind, GoM_bind.
  destruct (forM _ _ w0) as [[[] w]|] eqn:E; [|done]. intros _. exists w. split; [done|].
  eapply (replay_log cfg Current ready log w0); [done| |done]. eapply Forall_impl; [exact Hl|]. by intros ? (? & ? & _).
Qed.

(** One more command in the file. *)
Lemma startup_snoc log cmd w0 w :
  Forall loggable log -> loggable cmd -> forM (record <$> log) (replayAOFCommand cfg Current) w0 = Val (tt, w) ->
  startup cfg Current (file_of (log ++ [cmd])) w0
  = match replayAOFCommand cfg Current (record cmd) w with
    | Val (_, w') => Val (tt, set_aof (Some (file_of (log ++ [cmd]))) w')
    | Panic p => Panic p
    end.
Proof.
  intros Hl Hc E. rewrite startup_file by (apply Forall_app; split; [done|by apply Forall_singleton]).
  rewrite fmap_app. unfold mbind at 1, GoM_bind at 1. rewrite forM_app. unfold mbind, GoM_bind. rewrite E.
  change (record <$> [cmd]) with [record cmd]. cbn [forM]. unfold mbind, GoM_bind.
  by destruct (replayAOFCommand cfg Current (record cmd) w) as [[[] w']|].
Qed.

(** A command on a key that is not there, under a policy that evicts: it is answered as on
    a keyspace without the key, and logged. *)
Lemma Dispatch_missing w cmd f r K' :
  MaxMemorySamples cfg <= maxSamples -> evicting_policy (MaxMemoryPolicy cfg) = true -> disk_holds None ->
  shows w (contents w) -> aof w = Some f -> loggable cmd -> k_runnable cmd (contents w) ->
  (forall K, K ⊆ contents w -> (spec_dispatch Current cmd K).1 = Some r /\ K' (spec_dispatch Current cmd K).2) ->
  isErrorReply r = false ->
  exists w', Dispatch cfg Current cmd w = Val (r, w') /\ K' (contents w') /\ aof w' = Some (appended f (record cmd)).
Proof.
  intros Hn Hev Hdisk (Hw & Hp & _) Ha (Hwr & Hl & _) Hr%runnable_contents Hspec Herr.
  pose proof (Dispatch_wp cfg Current (aof w) w cmd ready Hn (conj Hw eq_refl) Hr) as Hd.
  apply wp_Val in Hd as (r0 & w' & E & i & _ & Haof).
  destruct (Dispatch_refines cfg Current w cmd r0 w' ready Hw Hp Hl E) as [_ Hlim].
  unfold limited in Hlim. rewrite Hev, andb_false_r in Hlim. destruct Hlim as (kept & Hsub & _ & HK & Hr0).
  destruct (Hspec kept Hsub) as [Hreply Hleft]. rewrite (Hr0 _ Hreply) in *. exists w'. split; [done|]. split; [by rewrite HK|].
  rewrite Haof, Hdisk, Ha. unfold aof_after, logged. rewrite Hwr, Herr. done.
Qed.

Lemma sub_missing (K K0 : keyspace) k : K ⊆ K0 -> K0 !! k = None -> K !! k = None.
Proof. intros Hsub Hk. eapply lookup_weaken_None; [exact Hk|done]. Qed.

(** A node checks APPEND as it checks INCR: both have the one key. *)
Lemma append_checked k v : checkCluster Current (mkCommand "APPEND" [k; v]) = checkCluster Current (mkCommand "INCR" [k]).
Proof. reflexivity. Qed.

Lemma append_to_sketch w log k regs v :
  shows w (replayed log ∅) -> replayed log ∅ !! k = Some (KSketch regs) ->
  replayAOFCommand cfg Current (record (mkCommand "APPEND" [k; v])) w = Panic NilDereference.
Proof.
  intros (Hw & _ & HK) Hk. unfold replayAOFCommand, record. cbn [cmdName Args]. rewrite ToUpper_write by done.
  change (Replay cfg Current (mkCommand "APPEND" [k; v]) w) with ((handleAppend [k; v] ;; mret tt) w).
  rewrite <-HK in Hk. apply contents_sketch in Hk as (e & Ek & He).
  unfold handleAppend, mbind, GoM_bind. by rewrite (Store_Append_panics w k v e (proj1 Hw) Ek He).
Qed.

(** C11: A restart does not know of evictions. Let the server have evicted the key [k], which
    the commands in its file set; memory is limited by a policy that evicts, and the disk
    has room. If [k] was the integer [n], INCR makes a new counter and answers 1, but after a
    restart the counter stands at [n + 1]. If [k] was a sketch, APPEND makes a new string
    and is answered with its length, but from then on the server cannot be started: the
    replay of that command panics. *)
Theorem restart_ignores_evictions (log : list Command) (w w0 w1 : World) (k : string) :
  MaxMemorySamples cfg <= maxSamples -> evicting_policy (MaxMemoryPolicy cfg) = true -> disk_holds None ->
  shows w (contents w) -> aof w = Some (file_of log) -> Forall loggable log ->
  shows w0 ∅ -> startup cfg Current (file_of log) w0 = Val (tt, w1) ->
  contents w !! k = None -> checkCluster Current (mkCommand "INCR" [k]) = None ->
  (forall n, replayed log ∅ !! k = Some (KInt n) -> sendable ["INCR"; k] ->
    exists w' f w2, Dispatch cfg Current (mkCommand "INCR" [k]) w = Val (EncodeInteger 1, w') /\
      contents w' !! k = Some (KInt 1) /\ aof w' = Some f /\
      startup cfg Current f w0 = Val (tt, w2) /\ contents w2 !! k = Some (KInt (i64 (n + 1)))) /\
  (forall regs v, replayed log ∅ !! k = Some (KSketch regs) -> sendable ["APPEND"; k; v] ->
    exists w' f, Dispatch cfg Current (mkCommand "APPEND" [k; v]) w = Val (EncodeInteger (len v), w') /\
      aof w' = Some f /\ startup cfg Current f w0 = Panic NilDereference).
Proof.
  intros Hn Hev Hdisk Hw Ha Hlog Hw0 Hstart Hk Hcl. destruct (startup_shows log w0 w1 Hlog Hw0 Hstart) as (wl & El & Hwl).
  split.
  - intros n HK Hs. set (cmd := mkCommand "INCR" [k]). assert (loggable cmd) as Hlc by done.
    destruct (Dispatch_missing w cmd (file_of log) (EncodeInteger 1) (fun K => K !! k = Some (KInt 1)))
      as (w' & E & Hk1 & Hf); [done..|discriminate| |done|].
    { intros K HsubK. unfold spec_dispatch. unfold cmd. rewrite Hcl. unfold exec. cbn [cmdName Args].
      change (assoc "INCR" spec_commands) with (Some spec_incr). cbn [spec_incr]. rewrite (sub_missing K _ k HsubK Hk).
      split; [done|]. apply lookup_insert_eq. }
    rewrite <-file_of_snoc in Hf. exists w', (file_of (log ++ [cmd])).
    destruct (Replay_refines cfg Current ready wl _ cmd Hwl eq_refl I ltac:(discriminate)) as (w2 & E2 & _ & _ & HK2).
    eexists. split; [done|]. split; [done|]. split; [done|].
    rewrite (startup_snoc log cmd w0 wl) by done. unfold record. rewrite E2. split; [done|].
    change (contents w2 !! k = Some (KInt (i64 (n + 1)))). rewrite HK2. unfold exec, cmd. cbn [cmdName Args].
    change (assoc "INCR" spec_commands) with (Some spec_incr). cbn [spec_incr]. rewrite HK. apply lookup_insert_eq.
  - intros regs v HK Hs. set (cmd := mkCommand "APPEND" [k; v]). assert (loggable cmd) as Hlc by done.
    destruct (Dispatch_missing w cmd (file_of log) (EncodeInteger (len v)) (fun _ => True))
      as (w' & E & _ & Hf); [done..| | |done|].
    { intros _ k' v' regs' [= <- <-]. by rewrite Hk. }
    { intros K HsubK. unfold spec_dispatch. unfold cmd. rewrite append_checked, Hcl. unfold exec. cbn [cmdName Args].
      change (assoc "APPEND" spec_commands) with (Some spec_append). cbn [spec_append]. by rewrite (sub_missing K _ k HsubK Hk). }
    rewrite <-file_of_snoc in Hf. exists w', (file_of (log ++ [cmd])). split; [done|]. split; [done|].
    rewrite (startup_snoc log cmd w0 wl) by done. unfold cmd. by rewrite (append_to_sketch wl log k regs v).
Qed.
End evicted.

(** ** A key comes back *)

Section witness.
(** Appending to a string makes room for another megabyte. *)
Local Instance roomy_env : GoEnv := {|
  env_clock := fun _ => unixToInternal + 10 * Second;
  env_rand := fun _ => 0.5%float;
  env_order := fun _ l => l;
  env_sort := @insertion_sort;
  env_append_cap := fun _ n => n + 2 ^ 20;
  env_log := fun _ => 0%float;
  env_unicode_upper := id;
  env_unicode_lower := id;
  env_write := fun _ _ _ => None;
|}.

Local Instance roomy_laws : GoEnvLaws.
Proof.
  destruct (env_at_laws (unixToInternal + 10 * Second) ltac:(unfold Second; lia)). split; try done.
  intros c n. cbn. lia.
Defined.

(** One megabyte, and the least recently used keys are evicted. *)
Definition one_megabyte : Config := mkConfig 1 "allkeys-lru" 5 false.

(** The last command finds the store over the limit. *)
Definition crowding : list Command :=
  [mkCommand "SET" ["n"; "5"]; mkCommand "PFADD" ["h"; "x"]; mkCommand "SET" ["s"; "x"];
   mkCommand "APPEND" ["s"; "y"]; mkCommand "INCR" ["z"]].

Definition crowded : World :=
  match dispatch_each one_megabyte None crowding (set_aof (Some EmptyString) World_init) with
  | Val (_, w) => w
  | Panic _ => World_init
  end.

Lemma crowding_runs : exists rs, dispatch_each one_megabyte None crowding (set_aof (Some EmptyString) World_init) = Val (rs, crowded).
Proof. vm_compute. eexists. reflexivity. Qed.

(** All but the last key have been evicted, and the file holds all five commands. *)
Lemma crowded_data : exists e, dataOf crowded = {["z" := e]} /\ expiresAt e = 0.
Proof. eexists. split; [vm_compute; reflexivity|reflexivity]. Qed.

Lemma crowded_file : aof crowded = Some (file_of crowding).
Proof. vm_compute. reflexivity. Qed.

Lemma roomy_disk : disk_holds None.
Proof. intros i f b. reflexivity. Qed.

Lemma crowded_in_order : server_ok crowded.
Proof.
  destruct crowding_runs as [rs E].
  apply (dispatch_each_log one_megabyte None None crowding _ rs crowded EmptyString roomy_disk (conj (server_ok_init (Some EmptyString)) eq_refl) E).
Qed.

Lemma crowded_shows : shows crowded (contents crowded).
Proof.
  split; [exact crowded_in_order|]. split; [|reflexivity]. destruct crowded_data as (e & Hd & He).
  unfold all_persistent. rewrite Hd. apply map_Forall_singleton. exact He.
Qed.

Lemma crowded_missing k : k <> "z" -> contents crowded !! k = None.
Proof. intros Hk. destruct crowded_data as (e & Hd & _). rewrite contents_lookup, Hd, lookup_singleton_ne by done. done. Qed.

Lemma crowding_loggable : Forall loggable crowding.
Proof. repeat constructor; try done; unfold small; done. Qed.

Lemma crowding_starts : exists w1, startup one_megabyte None (file_of crowding) World_init = Val (tt, w1).
Proof. vm_compute. eexists. reflexivity. Qed.

Lemma crowding_counter : replayed crowding ∅ !! "n" = Some (KInt 5).
Proof. reflexivity. Qed.

Lemma crowding_sketch : replayed crowding ∅ !! "h" = Some (KSketch (raise_all zero_regs ["x"])).
Proof. reflexivity. Qed.

(** The counter that a client was told to stand at 1 stands at 6 after a restart; once a
    client has appended to the key of the sketch, there is no restart. *)
Lemma restart_ignores_evictions_witness :
  (exists w' f w2, Dispatch one_megabyte None (mkCommand "INCR" ["n"]) crowded = Val (EncodeInteger 1, w') /\
    contents w' !! "n" = Some (KInt 1) /\ aof w' = Some f /\
    startup one_megabyte None f World_init = Val (tt, w2) /\ contents w2 !! "n" = Some (KInt 6)) /\
  (exists w' f, Dispatch one_megabyte None (mkCommand "APPEND" ["h"; "abc"]) crowded = Val (EncodeInteger 3, w') /\
    aof w' = Some f /\ startup one_megabyte None f World_init = Panic NilDereference).
Proof.
  assert (shows World_init ∅) as Hw0 by (split; [apply (server_ok_init None)|]; split; [apply map_Forall_empty|reflexivity]).
  destruct crowding_starts as [w1 Hw1].
  pose proof (fun k => restart_ignores_evictions one_megabyte None ltac:(discriminate) crowding crowded World_init w1 k
    ltac:(discriminate) eq_refl roomy_disk crowded_shows crowded_file crowding_loggable Hw0 Hw1) as H.
  split.
  - destruct (H "n" (crowded_missing "n" ltac:(discriminate)) eq_refl) as [Hn _].
    apply (Hn 5); [exact crowding_counter|]. repeat constructor; unfold small; done.
  - destruct (H "h" (crowded_missing "h" ltac:(discriminate)) eq_refl) as [_ Hh].
    apply (Hh (raise_all zero_regs ["x"]) "abc"); [exact crowding_sketch|]. repeat constructor; unfold small; done.
Defined.
End witness.
