(* ===== verification/Connection.v ===== *)
(** * A client connection (handleConnection of src/server/tcp_server.go)

    One connection reads requests, folds the plain commands it already has in
    memory into one pipeline, and writes the replies through a buffer. The client's
    bytes are one string, at whose end the stream closes; how many of them have
    arrived when the code asks [reader.Buffered()] is left open ([buffered]), so a
    theorem holds for every way the network cuts the stream. In this file the connection
    has the worker to itself; [Sessions] takes the same loop into the concurrent server.
    Writes to the socket are taken to succeed. *)

From S2P Require Import Prelude GoLib Resp Aof Sds Hll World Lru Store StoreInv Evict Slot Layout Commands Dispatch Transaction.

(** ** bufio.Writer *)

(** What has reached the socket, and what waits in the writer's buffer. *)
Record writer := mkWriter { sent : string; wbuf : string }.

Definition defaultBufSize : Z := 4096.

(** [b.Write(p)]: fill the buffer, flush it, and send what does not fit directly. *)
Definition bufio_Write (b : writer) (p : string) : writer :=
  let available := defaultBufSize - len (wbuf b) in
  if len p <=? available then mkWriter (sent b) (wbuf b +++ p)
  else if len (wbuf b) =? 0 then mkWriter (sent b +++ p) EmptyString
  else
    match take_bytes (Z.to_nat available) p with
    | Some (a, rest) =>
        let flushed := sent b +++ wbuf b +++ a in
        if len rest <=? defaultBufSize then mkWriter flushed rest else mkWriter (flushed +++ rest) EmptyString
    | None => b
    end.

Definition bufio_Flush (b : writer) : writer := mkWriter (sent b +++ wbuf b) EmptyString.

(** [conn.Write(p)], which goes past the buffer. *)
Definition conn_Write (b : writer) (p : string) : writer := mkWriter (sent b +++ p) (wbuf b).

(** ** The connection *)

Record conn := mkConn {
  rest : string;       (** the client's bytes not yet consumed *)
  scr : string;        (** the decoder's scratch buffer *)
  tx : txState;
  out : writer;
  asks : nat;          (** how often [reader.Buffered()] was asked *)
}.

Definition set_reader (c : conn) (r : reader) : conn :=
  mkConn (input r) (default EmptyString (scratch r)) (tx c) (out c) (asks c).
Definition set_tx (c : conn) (t : txState) : conn := mkConn (rest c) (scr c) t (out c) (asks c).
Definition set_out (c : conn) (b : writer) : conn := mkConn (rest c) (scr c) (tx c) b (asks c).
Definition asked (c : conn) : conn := mkConn (rest c) (scr c) (tx c) (out c) (S (asks c)).

(** What a connection needs from the rest of the server: to have a request answered by the
    worker ([commandCh <- req] and [<-replych]), and to panic. The loop below is written
    against this interface; here it is called directly ([worker]), in [Server] it goes
    through the channel. *)
Class Worker (M : Type -> Type) := {
  ask : CommandRequest -> M string;
  crash : forall A, panic -> M A;
}.
Global Arguments crash {M _ A} p.

Definition worker `{GoEnv} (cfg : Config) (Current : option Layout) : Worker (GoM World) :=
  {| ask := serve cfg Current; crash := fun A p => panicking p |}.

Section connection.
Context `{GoEnv} {M : Type -> Type} `{!MRet M} `{!MBind M} `{!Worker M}.
Context (cfg : Config) (Current : option Layout).

(** The answer to the [n]-th [reader.Buffered() > 0], given what the stream still holds. *)
Context (buffered : nat -> string -> bool).

Definition noCommand : Command := mkCommand EmptyString [].

(** Send a request to the worker and write its reply. *)
Definition dispatch_request (req : CommandRequest) (c : conn) : M conn :=
  reply ← ask req;
  mret (set_out c (bufio_Write (out c) reply)).

Definition dispatchSingle (cmd : Command) (c : conn) : M conn :=
  dispatch_request (mkRequest cmd [] []) c.

Definition dispatchPipeline (pipe : list Command) (c : conn) : M conn :=
  match pipe with
  | [cmd] => dispatchSingle cmd c
  | _ => dispatch_request (mkRequest noCommand [] pipe) c
  end.

Definition handleAction (action : txAction) (txReply : string) (b : list Command) (c : conn) : M conn :=
  match action with
  | actionReply => mret (set_out c (bufio_Write (out c) txReply))
  | actionExec => dispatch_request (mkRequest noCommand b []) c
  | actionPassthrough => mret c
  end.

(** [pipelineLoop]; the result says whether the connection stays open. *)
Fixpoint pipelineLoop (fuel : nat) (pipe : list Command) (c : conn) : M (conn * bool) :=
  match fuel with
  | O => mret (c, false)
  | S fuel =>
      if buffered (asks c) (rest c) then
        let c := asked c in
        match Decoder_Decode (rest c) (scr c) with
        | DPanic p => crash p
        | DErr _ | DOutOfFuel =>
            c ← dispatchPipeline pipe c;
            mret (set_out c (bufio_Flush (out c)), false)
        | DOk v r =>
            let c := set_reader c r in
            match ParseCommand v with
            | inr perr =>
                c ← dispatchPipeline pipe c;
                mret (set_out c (conn_Write (out c) (EncodeError ("ERR " +++ perr))), true)
            | inl nextCmd =>
                let '(t, (nextAction, nextTxReply, nextBatch)) := handle cfg Current (tx c) nextCmd in
                let c := set_tx c t in
                match nextAction with
                | actionPassthrough => pipelineLoop fuel (pipe ++ [nextCmd]) c
                | _ =>
                    c ← dispatchPipeline pipe c;
                    c ← handleAction nextAction nextTxReply nextBatch c;
                    mret (c, true)
                end
            end
        end
      else
        c ← dispatchPipeline pipe (asked c);
        mret (c, true)
  end.

(** The end of the loop body: flush if nothing more has arrived. *)
Definition flush_if_idle (c : conn) : conn :=
  if buffered (asks c) (rest c) then asked c
  else let c := asked c in set_out c (bufio_Flush (out c)).

(** The loop of [handleConnection]. A round reads at least one byte; the result says
    whether the connection was closed within the fuel. *)
Fixpoint conn_loop (fuel : nat) (c : conn) : M (conn * bool) :=
  match fuel with
  | O => mret (c, false)
  | S fuel =>
      match Decoder_Decode (rest c) (scr c) with
      | DPanic p => crash p
      | DErr _ | DOutOfFuel => mret (c, true)
      | DOk v r =>
          let c := set_reader c r in
          match ParseCommand v with
          | inr err => conn_loop fuel (set_out c (conn_Write (out c) (EncodeError ("ERR " +++ err))))
          | inl command =>
              let '(t, (action, txReply, b)) := handle cfg Current (tx c) command in
              let c := set_tx c t in
              match action with
              | actionPassthrough =>
                  '(c, open) ← pipelineLoop (S (String.length (rest c))) [command] c;
                  if (open : bool) then conn_loop fuel (flush_if_idle c) else mret (c, true)
              | _ =>
                  c ← handleAction action txReply b c;
                  conn_loop fuel (flush_if_idle c)
              end
          end
      end
  end.

Definition handleConnection (stream : string) : M (conn * bool) :=
  conn_loop (S (String.length stream)) (mkConn stream EmptyString newTxState (mkWriter EmptyString EmptyString) 0).

End connection.

(** ** One command at a time *)

Section reference.
Context `{GoEnv} (cfg : Config) (Current : option Layout).

(** What the requests would be answered if each were handled on its own. *)
Fixpoint one_by_one (t : txState) (cmds : list Command) : GoM World (txState * list string) :=
  match cmds with
  | [] => mret (t, [])
  | cmd :: cmds =>
      let '(t, (action, txReply, b)) := handle cfg Current t cmd in
      reply ← (match action with
               | actionPassthrough => Dispatch cfg Current cmd
               | actionReply => mret txReply
               | actionExec => serve cfg Current (mkRequest noCommand b [])
               end);
      '(t, replies) ← one_by_one t cmds;
      mret (t, reply :: replies)
  end.
End reference.

(** ** What the writer has been given *)

Definition emitted (b : writer) : string := sent b +++ wbuf b.

Lemma take_bytes_le n s : (n <= String.length s)%nat -> exists a r, take_bytes n s = Some (a, r).
Proof.
  revert s. induction n as [|n IH]; intros s Hn; [by eexists _, _|].
  destruct s as [|c s]; cbn in Hn; [lia|]. destruct (IH s ltac:(lia)) as (a & r & E). cbn. rewrite E. by eexists _, _.
Qed.

Lemma emitted_Write b p : emitted (bufio_Write b p) = emitted b +++ p.
Proof.
  unfold bufio_Write, emitted. destruct (Z.leb_spec (len p) (defaultBufSize - len (wbuf b))) as [Hfit|Hbig].
  - cbn [sent wbuf]. by rewrite append_assoc'.
  - destruct (Z.eqb_spec (len (wbuf b)) 0) as [Hz|Hz].
    + apply len_0_nil in Hz. rewrite Hz. cbn [sent wbuf]. by rewrite !append_nil_r.
    + destruct (take_bytes_le (Z.to_nat (defaultBufSize - len (wbuf b))) p) as (a & r & E);
        [unfold len in *; lia|]. rewrite E. apply take_bytes_Some in E as [-> _].
      destruct (_ <=? _); cbn [sent wbuf]; by rewrite ?append_nil_r, !append_assoc'.
Qed.

Lemma emitted_Flush b : emitted (bufio_Flush b) = emitted b.
Proof. unfold emitted, bufio_Flush. cbn [sent wbuf]. by rewrite append_nil_r. Qed.

(** ** Requests on the wire *)

Definition request : Type := string * list string.
Definition wire (reqs : list request) : string := concat_all ((fun r => EncodeArray (r.1 :: r.2)) <$> reqs).

Lemma wire_length reqs : (length reqs <= String.length (wire reqs))%nat.
Proof.
  induction reqs as [|r reqs IH]; [done|]. unfold wire in *. rewrite fmap_cons. cbn [concat_all length].
  rewrite length_append'. unfold EncodeArray at 1. rewrite length_append'. cbn [String.length]. lia.
Qed.

Lemma decode_request (r : request) tail sc :
  sendable (r.1 :: r.2) ->
  exists rd, Decoder_Decode (EncodeArray (r.1 :: r.2) +++ tail) sc = DOk (VArray (VString <$> r.1 :: r.2)) rd /\
             input rd = tail.
Proof.
  intros Hs. unfold Decoder_Decode.
  destruct (decode_EncodeArray (r.1 :: r.2) tail (Some sc) Hs) as (sc' & E & _). rewrite E. by eexists.
Qed.

Lemma wire_cons r reqs : wire (r :: reqs) = EncodeArray (r.1 :: r.2) +++ wire reqs.
Proof. done. Qed.

Lemma command_parts_strings i l : command_parts i (VString <$> l) = inl l.
Proof. revert i. induction l as [|s l IH]; intros i; [done|]. cbn. by rewrite IH. Qed.

Section transparency.
Context `{!GoEnv} (cfg : Config) (Current : option Layout) (buffered : nat -> string -> bool).

Local Hint Extern 0 (Worker (GoM World)) => exact (worker cfg Current) : typeclass_instances.

(** Nothing is buffered once the stream is exhausted. *)
Context (buffered_end : forall n, buffered n EmptyString = false).

Definition command_of (r : request) : Command := mkCommand (ToUpper r.1) r.2.

Lemma parse_request (r : request) : ParseCommand (VArray (VString <$> r.1 :: r.2)) = inl (command_of r).
Proof. unfold ParseCommand. by rewrite command_parts_strings. Qed.

Lemma dispatchPipeline_each pipe c w :
  pipe <> [] ->
  dispatchPipeline (M := GoM World) pipe c w
  = match dispatch_each cfg Current pipe w with
    | Val (rs, w') => Val (set_out c (bufio_Write (out c) (concat_all rs)), w')
    | Panic p => Panic p
    end.
Proof.
  intros Hp. destruct pipe as [|cmd [|cmd' pipe]]; [done|..].
  - unfold dispatchPipeline, dispatchSingle, dispatch_request, ask, worker, serve. cbn [batch pipeline req_cmd dispatch_each].
    unfold mbind, GoM_bind, mret, GoM_ret. destruct (Dispatch cfg Current cmd w) as [[r w']|]; [|done].
    cbn [concat_all]. by rewrite append_nil_r.
  - unfold dispatchPipeline, dispatch_request, ask, worker, serve, DispatchPipeline. cbn [batch pipeline].
    unfold mbind at 1 2, GoM_bind at 1 2. destruct (dispatch_each cfg Current (cmd :: cmd' :: pipe) w) as [[rs w']|]; done.
Qed.

(** Run from [w], [res] closes the connection having written [E] followed by the
    replies of [ref], and leaves the server as [ref] does; it panics if [ref] does. *)
Definition agrees (E : string) (res : GoM World (conn * bool)) (ref : GoM World (txState * list string))
    (w : World) : Prop :=
  match ref w with
  | Val ((t, rs), w') =>
      exists F, res w = Val ((F, true), w') /\ tx F = t /\ rest F = EmptyString /\
        out F = mkWriter (E +++ concat_all rs) EmptyString
  | Panic p => res w = Panic p
  end.

Lemma agrees_reply E r t cmds res w :
  agrees (E +++ r) res (one_by_one cfg Current t cmds) w ->
  agrees E res ('(t, rs) ← one_by_one cfg Current t cmds; mret (t, r :: rs)) w.
Proof.
  unfold agrees, mbind, GoM_bind, mret, GoM_ret. destruct (one_by_one cfg Current t cmds w) as [[[t' rs] w']|]; [|done].
  intros (F & HF & Ht & Hr & Ho). exists F. split; [done|]. split; [done|]. split; [done|].
  rewrite Ho. cbn [concat_all]. by rewrite append_assoc'.
Qed.

Lemma flush_if_idle_spec c :
  rest (flush_if_idle buffered c) = rest c /\ tx (flush_if_idle buffered c) = tx c /\
  emitted (out (flush_if_idle buffered c)) = emitted (out c) /\
  (rest c = EmptyString -> wbuf (out (flush_if_idle buffered c)) = EmptyString).
Proof.
  unfold flush_if_idle. destruct (buffered (asks c) (rest c)) eqn:Eb.
  - split_and!; try done. intros Hr. rewrite Hr, buffered_end in Eb. done.
  - split_and!; try done. cbn [out set_out]. apply emitted_Flush.
Qed.

(** The loop of the connection, started where requests [reqs] are still to come. *)
Definition loop_ok (reqs : list request) : Prop := forall fuel c w,
  (length reqs < fuel)%nat -> rest c = wire reqs -> (reqs = [] -> wbuf (out c) = EmptyString) ->
  agrees (emitted (out c)) (conn_loop cfg Current buffered fuel c)
         (one_by_one cfg Current (tx c) (command_of <$> reqs)) w.

(** The pipeline loop with [pipe] collected, followed by the rest of the connection. *)
Definition pipeline_ok (reqs : list request) : Prop := forall fuel fuel' pipe c w,
  pipe <> [] -> (length reqs < fuel)%nat -> (length reqs < fuel')%nat -> rest c = wire reqs ->
  agrees (emitted (out c))
    ('(c, open) ← pipelineLoop cfg Current buffered fuel pipe c;
     if (open : bool) then conn_loop cfg Current buffered fuel' (flush_if_idle buffered c) else mret (c, true))
    (rs0 ← dispatch_each cfg Current pipe;
     '(t, rs) ← one_by_one cfg Current (tx c) (command_of <$> reqs); mret (t, rs0 ++ rs)) w.

(** After a reply was written, the loop goes on. *)
Lemma loop_after_reply reqs fuel c r w :
  loop_ok reqs -> (length reqs < fuel)%nat -> rest c = wire reqs ->
  agrees (emitted (out c) +++ r)
    (conn_loop cfg Current buffered fuel (flush_if_idle buffered (set_out c (bufio_Write (out c) r))))
    (one_by_one cfg Current (tx c) (command_of <$> reqs)) w.
Proof.
  intros Hok Hf Hr. set (c1 := set_out c (bufio_Write (out c) r)).
  destruct (flush_if_idle_spec c1) as (Hr1 & Ht1 & He1 & Hw1).
  assert (emitted (out c) +++ r = emitted (out (flush_if_idle buffered c1))) as ->.
  { rewrite He1. symmetry. apply emitted_Write. }
  replace (tx c) with (tx (flush_if_idle buffered c1)) by (rewrite Ht1; done).
  apply Hok; [done|by rewrite Hr1|]. intros ->. by apply Hw1.
Qed.

Lemma loop_nil : loop_ok [].
Proof.
  intros fuel c w Hf Hr Hw. destruct fuel as [|fuel]; [cbn in Hf; lia|]. cbn [conn_loop]. rewrite Hr.
  change (Decoder_Decode (wire []) (scr c)) with (@DErr value ErrEOF).
  exists c. split; [done|]. split; [done|]. split; [done|]. specialize (Hw eq_refl). unfold emitted.
  destruct (out c) as [s b]. cbn in *. subst b. by rewrite !append_nil_r.
Qed.

(** [dispatchPipeline] on a nonempty pipeline, then [K]. *)
Lemma agrees_pipeline E pipe c (K : conn -> GoM World (conn * bool)) t reqs w :
  pipe <> [] ->
  (forall rs w', agrees (E +++ concat_all rs) (K (set_out c (bufio_Write (out c) (concat_all rs))))
                   (one_by_one cfg Current t reqs) w') ->
  agrees E (c ← dispatchPipeline pipe c; K c)
    (rs0 ← dispatch_each cfg Current pipe; '(t, rs) ← one_by_one cfg Current t reqs; mret (t, rs0 ++ rs)) w.
Proof.
  intros Hp HK. unfold agrees, mbind, GoM_bind, mret, GoM_ret. rewrite dispatchPipeline_each by done.
  destruct (dispatch_each cfg Current pipe w) as [[rs0 w1]|]; [|done]. specialize (HK rs0 w1). unfold agrees in HK.
  destruct (one_by_one cfg Current t reqs w1) as [[[t' rs] w']|]; [|done].
  destruct HK as (F & HF & Ht & Hr & Ho). exists F. split; [done|]. split; [done|]. split; [done|].
  rewrite Ho, append_assoc'. do 2 f_equal. clear. induction rs0 as [|r rs0 IH]; [done|].
  cbn [app concat_all]. by rewrite append_assoc', IH.
Qed.

(** A request that is answered on its own: by the transaction state, or by EXEC. *)
Definition reply_of (action : txAction) (txReply : string) (b : list Command) : GoM World string :=
  match action with
  | actionExec => serve cfg Current (mkRequest noCommand b [])
  | _ => mret txReply
  end.

Lemma agrees_action E action txReply b c fuel reqs w :
  action <> actionPassthrough -> loop_ok reqs -> (length reqs < fuel)%nat -> rest c = wire reqs ->
  E = emitted (out c) ->
  agrees E (c ← handleAction action txReply b c;
            conn_loop cfg Current buffered fuel (flush_if_idle buffered c))
    (reply ← reply_of action txReply b;
     '(t, rs) ← one_by_one cfg Current (tx c) (command_of <$> reqs); mret (t, reply :: rs)) w.
Proof.
  intros Ha Hok Hf Hr ->. unfold handleAction, reply_of, dispatch_request, ask, worker. destruct action; [done|..].
  - apply (agrees_reply _ txReply). by apply loop_after_reply.
  - pose proof (fun r w1 => agrees_reply _ r _ _ _ _ (loop_after_reply reqs fuel c r w1 Hok Hf Hr)) as Hl.
    unfold agrees, mbind, GoM_bind, mret, GoM_ret in *.
    destruct (serve cfg Current (mkRequest noCommand b []) w) as [[r w1]|]; [exact (Hl r w1)|done].
Qed.

(** The requests after the first, of the reference: their answer does not depend on how the
    first was answered. *)
Lemma one_by_one_cons t cmd cmds w :
  one_by_one cfg Current t (cmd :: cmds) w
  = let '(t', (action, txReply, b)) := handle cfg Current t cmd in
    match action with
    | actionPassthrough =>
        (rs0 ← dispatch_each cfg Current [cmd];
         '(t, rs) ← one_by_one cfg Current t' cmds; mret (t, rs0 ++ rs)) w
    | _ =>
        (reply ← reply_of action txReply b;
         '(t, rs) ← one_by_one cfg Current t' cmds; mret (t, reply :: rs)) w
    end.
Proof.
  cbn [one_by_one dispatch_each]. destruct (handle cfg Current t cmd) as [t' [[action txReply] b]].
  destruct action; [|done..]. unfold mbind, GoM_bind, mret, GoM_ret.
  by destruct (Dispatch cfg Current cmd w) as [[r w1]|].
Qed.

Lemma agrees_ext E res res' ref ref' w : res w = res' w -> ref w = ref' w -> agrees E res' ref' w -> agrees E res ref w.
Proof. unfold agrees. by intros -> ->. Qed.

Lemma dispatch_each_snoc pipe cmd w :
  dispatch_each cfg Current (pipe ++ [cmd]) w
  = (rs ← dispatch_each cfg Current pipe; rs' ← dispatch_each cfg Current [cmd]; mret (rs ++ rs')) w.
Proof.
  revert w. induction pipe as [|p pipe IH]; intros w.
  - cbn [app dispatch_each]. unfold mbind, GoM_bind, mret, GoM_ret.
    by destruct (Dispatch cfg Current cmd w) as [[r w1]|].
  - cbn [app dispatch_each]. unfold mbind, GoM_bind, mret, GoM_ret in *.
    destruct (Dispatch cfg Current p w) as [[r w1]|]; [|done]. rewrite IH. cbn [dispatch_each].
    destruct (dispatch_each cfg Current pipe w1) as [[rs w2]|]; [|done].
    unfold mbind, GoM_bind, mret, GoM_ret. by destruct (Dispatch cfg Current cmd w2) as [[r' w3]|].
Qed.

(** One round of the loop, from the rounds after it. *)
Lemma loop_step (r : request) reqs :
  sendable (r.1 :: r.2) -> loop_ok reqs -> pipeline_ok reqs -> loop_ok (r :: reqs).
Proof.
  intros Hs Hl Hp fuel c w Hf Hr _. destruct fuel as [|fuel]; [lia|]. cbn [length] in Hf. rewrite fmap_cons.
  destruct (decode_request r (wire reqs) (scr c) Hs) as (rd & Ed & Hin).
  cbn [conn_loop]. rewrite Hr, wire_cons, Ed, parse_request. cbn [tx set_reader].
  pose proof (one_by_one_cons (tx c) (command_of r) (command_of <$> reqs) w) as Href.
  destruct (handle cfg Current (tx c) (command_of r)) as [t [[action txReply] b]].
  set (c1 := set_tx (set_reader c rd) t).
  assert (rest c1 = wire reqs) as Hr1 by done.
  pose proof (wire_length reqs) as Hlen. rewrite <-Hr1 in Hlen.
  destruct action.
  - eapply agrees_ext; [reflexivity|exact Href|].
    exact (Hp (S (String.length (rest c1))) fuel [command_of r] c1 w ltac:(done) ltac:(lia) ltac:(lia) Hr1).
  - eapply agrees_ext; [reflexivity|exact Href|].
    apply (agrees_action _ actionReply txReply b c1); [done|done|lia|done|done].
  - eapply agrees_ext; [reflexivity|exact Href|].
    apply (agrees_action _ actionExec txReply b c1); [done|done|lia|done|done].
Qed.

(** The pipeline ends because nothing more has arrived. *)
Lemma pipeline_idle reqs fuel fuel' pipe c w :
  loop_ok reqs -> pipe <> [] -> (length reqs < fuel')%nat -> rest c = wire reqs ->
  buffered (asks c) (rest c) = false ->
  agrees (emitted (out c))
    ('(c, open) ← pipelineLoop cfg Current buffered (S fuel) pipe c;
     if (open : bool) then conn_loop cfg Current buffered fuel' (flush_if_idle buffered c) else mret (c, true))
    (rs0 ← dispatch_each cfg Current pipe;
     '(t, rs) ← one_by_one cfg Current (tx c) (command_of <$> reqs); mret (t, rs0 ++ rs)) w.
Proof.
  intros Hl Hp Hf Hr Hb.
  eapply agrees_ext; [|reflexivity|apply (agrees_pipeline _ pipe (asked c)
    (fun c => conn_loop cfg Current buffered fuel' (flush_if_idle buffered c))); [done|]].
  - cbn [pipelineLoop]. rewrite Hb. unfold mbind, GoM_bind, mret, GoM_ret.
    by destruct (dispatchPipeline (M := GoM World) pipe (asked c) w) as [[c' w']|].
  - intros rs w'. exact (loop_after_reply reqs fuel' (asked c) (concat_all rs) w' Hl Hf Hr).
Qed.

(** The pipeline ends at a request that is answered on its own. *)
Lemma pipeline_broken cmd reqs fuel' pipe c t action txReply b w :
  loop_ok reqs -> pipe <> [] -> (length reqs < fuel')%nat -> rest c = wire reqs ->
  handle cfg Current t cmd = (tx c, (action, txReply, b)) -> action <> actionPassthrough ->
  agrees (emitted (out c))
    (c ← dispatchPipeline pipe c; c ← handleAction action txReply b c;
     conn_loop cfg Current buffered fuel' (flush_if_idle buffered c))
    (rs0 ← dispatch_each cfg Current pipe;
     '(t, rs) ← one_by_one cfg Current t (cmd :: (command_of <$> reqs)); mret (t, rs0 ++ rs)) w.
Proof.
  intros Hl Hp Hf Hr Hh Ha.
  apply (agrees_pipeline _ pipe c (fun c => c ← handleAction action txReply b c;
     conn_loop cfg Current buffered fuel' (flush_if_idle buffered c))); [done|]. intros rs w'.
  pose proof (one_by_one_cons t cmd (command_of <$> reqs) w') as Href. rewrite Hh in Href.
  eapply agrees_ext; [reflexivity| |
    eapply (agrees_action _ action txReply b (set_out c (bufio_Write (out c) (concat_all rs)))); try done].
  - by destruct action.
  - cbn [out set_out]. by rewrite emitted_Write.
Qed.

(** One round of the pipeline loop, from the rounds after it. *)
Lemma pipeline_step (r : request) reqs :
  sendable (r.1 :: r.2) -> loop_ok (r :: reqs) -> loop_ok reqs -> pipeline_ok reqs -> pipeline_ok (r :: reqs).
Proof.
  intros Hs Hl Hl' Hp fuel fuel' pipe c w Hne Hf Hf' Hr.
  destruct fuel as [|fuel]; [lia|]. destruct (buffered (asks c) (rest c)) eqn:Hb; [|by apply pipeline_idle].
  cbn [length] in Hf, Hf'. rewrite fmap_cons.
  destruct (decode_request r (wire reqs) (scr c) Hs) as (rd & Ed & Hin).
  cbn [pipelineLoop]. rewrite Hb. cbn [rest asked scr tx]. rewrite Hr, wire_cons, Ed, parse_request. cbn [tx set_reader asked].
  destruct (handle cfg Current (tx c) (command_of r)) as [t [[action txReply] b]] eqn:Eh.
  set (c1 := set_tx (set_reader (asked c) rd) t).
  assert (rest c1 = wire reqs) as Hr1 by done.
  assert (action = actionPassthrough \/ action <> actionPassthrough) as [->|Ha]
    by (destruct action; [by left|by right..]).
  - eapply agrees_ext; [reflexivity| |
      exact (Hp fuel fuel' (pipe ++ [command_of r]) c1 w ltac:(by destruct pipe) ltac:(lia) ltac:(lia) Hr1)].
    pose proof (one_by_one_cons (tx c) (command_of r) (command_of <$> reqs)) as Href. rewrite Eh in Href.
    pose proof (dispatch_each_snoc pipe (command_of r) w) as Hd.
    unfold mbind, GoM_bind, mret, GoM_ret in *. rewrite Hd. clear Hd.
    destruct (dispatch_each cfg Current pipe w) as [[rs w1]|]; [|done]. rewrite Href.
    destruct (dispatch_each cfg Current [command_of r] w1) as [[rs' w2]|]; [|done].
    change (tx c1) with t. destruct (one_by_one cfg Current t (command_of <$> reqs) w2) as [[[t' rs''] w3]|]; [|done].
    by rewrite app_assoc.
  - eapply agrees_ext; [|reflexivity|
      apply (pipeline_broken (command_of r) reqs fuel' pipe c1 (tx c) action txReply b w); try done; lia].
    unfold mbind, GoM_bind, mret, GoM_ret.
    destruct action; [done|..]; (destruct (dispatchPipeline (M := GoM World) pipe c1 w) as [[c2 w2]|]; [|done]);
      destruct (handleAction (M := GoM World) _ _ _ _ _) as [[c3 w3]|]; done.
Qed.

Lemma connection_ok reqs :
  Forall (fun r => sendable (r.1 :: r.2)) reqs -> loop_ok reqs /\ pipeline_ok reqs.
Proof.
  induction 1 as [|r reqs Hs _ [IHl IHp]].
  - split; [exact loop_nil|]. intros fuel fuel' pipe c w Hne Hf Hf' Hr. destruct fuel as [|fuel]; [lia|].
    apply pipeline_idle; try done; [exact loop_nil|]. rewrite Hr. apply buffered_end.
  - pose proof (loop_step r reqs Hs IHl IHp). split; [done|]. by apply pipeline_step.
Qed.

(** C13: Pipelining cannot be observed. However the network cuts the client's stream,
    and however many requests are therefore folded into one pipeline, the connection
    sends exactly the replies the requests get when each is handled alone and in
    order (MULTI, EXEC and DISCARD included), leaves the server in the same state, has
    nothing left in its buffer when the stream ends, and panics only if they do. *)
Theorem pipelining_is_transparent (reqs : list request) (w : World) :
  Forall (fun r => sendable (r.1 :: r.2)) reqs ->
  match one_by_one cfg Current newTxState (command_of <$> reqs) w with
  | Val ((t, replies), w') =>
      exists c, handleConnection (M := GoM World) cfg Current buffered (wire reqs) w = Val ((c, true), w') /\
        tx c = t /\ rest c = EmptyString /\ out c = mkWriter (concat_all replies) EmptyString
  | Panic p => handleConnection (M := GoM World) cfg Current buffered (wire reqs) w = Panic p
  end.
Proof.
  intros Hs. destruct (connection_ok reqs Hs) as [Hl _]. pose proof (wire_length reqs) as Hlen.
  exact (Hl (S (String.length (wire reqs))) (mkConn (wire reqs) EmptyString newTxState (mkWriter EmptyString EmptyString) 0)
    w ltac:(lia) eq_refl (fun _ => eq_refl)).
Qed.
End transparency.

(** ** Malformed requests *)

Section malformed.
Context `{!GoEnv} (cfg : Config) (Current : option Layout).

Local Hint Extern 0 (Worker (GoM World)) => exact (worker cfg Current) : typeclass_instances.

(** Everything the client sends arrives at once. *)
Definition all_arrived (n : nat) (stream : string) : bool := negb (string_eqb stream EmptyString).

(** An array without elements, which is no command. *)
Definition empty_command : string := "*0" +++ CRLF.

Lemma decode_empty_command sc : Decoder_Decode empty_command sc = DOk (VArray []) (Reader EmptyString (Some sc)).
Proof. reflexivity. Qed.

Lemma pipelineLoop_malformed fuel cmd reply sc t w w' :
  Dispatch cfg Current cmd w = Val (reply, w') -> len reply <= defaultBufSize ->
  pipelineLoop (M := GoM World) cfg Current all_arrived (S fuel) [cmd]
    (mkConn empty_command sc t (mkWriter EmptyString EmptyString) 0) w
  = Val ((mkConn EmptyString sc t (mkWriter (EncodeError "ERR empty command") reply) 1, true), w').
Proof.
  intros Hd Hlen. cbn [pipelineLoop asks rest]. change (all_arrived 0 empty_command) with true. cbn match.
  cbn [asked rest scr]. rewrite decode_empty_command. cbn [ParseCommand command_parts].
  unfold mbind at 1, GoM_bind at 1. rewrite dispatchPipeline_each by done. cbn [dispatch_each].
  unfold mbind, GoM_bind, mret, GoM_ret. rewrite Hd. cbn [concat_all]. rewrite append_nil_r.
  cbn [out set_reader set_out rest asked]. unfold bufio_Write. cbn [wbuf].
  change (len EmptyString) with 0. rewrite (proj2 (Z.leb_le _ _)) by lia. reflexivity.
Qed.

(** C37: The reply to a malformed request overtakes the one before it: the error goes
    straight to the socket while the reply to the well-formed request that came first
    is still in the write buffer, so the client receives the two in the wrong order. *)
Theorem parse_error_overtakes_reply (r : request) (reply : string) (w w' : World) :
  sendable (r.1 :: r.2) -> is_control (command_of r) = false ->
  Dispatch cfg Current (command_of r) w = Val (reply, w') -> len reply <= defaultBufSize ->
  exists c,
    handleConnection (M := GoM World) cfg Current all_arrived (EncodeArray (r.1 :: r.2) +++ empty_command) w = Val ((c, true), w') /\
    out c = mkWriter (EncodeError "ERR empty command" +++ reply) EmptyString.
Proof.
  intros Hs Hc Hd Hlen. destruct (decode_request r empty_command EmptyString Hs) as (rd & Ed & Hin).
  assert (handle cfg Current newTxState (command_of r) = (newTxState, (actionPassthrough, EmptyString, []))) as Hh.
  { unfold handle, is_control in *. by apply orb_false_iff in Hc as [[-> ->]%orb_false_iff ->]. }
  unfold handleConnection. cbn [conn_loop rest scr]. rewrite Ed, parse_request. cbn [tx set_reader]. rewrite Hh.
  destruct rd as [i sc]. cbn [input] in Hin. subst i.
  unfold mbind, GoM_bind. change (set_tx _ _) with
    (mkConn empty_command (default EmptyString sc) newTxState (mkWriter EmptyString EmptyString) 0).
  rewrite (pipelineLoop_malformed _ _ _ _ _ _ _ Hd Hlen).
  assert (String.length (EncodeArray (r.1 :: r.2) +++ empty_command)
    = S (pred (String.length (EncodeArray (r.1 :: r.2) +++ empty_command)))) as ->.
  { rewrite length_append'. change (String.length empty_command) with 4%nat. lia. }
  eexists. split; [reflexivity|reflexivity].
Qed.

Lemma decode_garbage (garbage : ascii) tail sc :
  ~ In garbage ["+"; "-"; ":"; "$"; "*"]%char ->
  Decoder_Decode (String garbage tail) sc = DErr (ErrUnknownType garbage).
Proof.
  intros Hg. unfold Decoder_Decode, decode_fuel. cbn [decode input scratch].
  do 5 (rewrite decide_False; [|by intros ->; apply Hg; cbn; tauto]). done.
Qed.

(** A reply is lost when the next frame is not RESP: MULTI is answered OK, but the
    reply stays in the write buffer because more bytes had arrived, and the decoder's
    error closes the connection without flushing it. *)
Theorem unflushed_reply_is_lost (garbage : ascii) (tail : string) (w : World) :
  ~ In garbage ["+"; "-"; ":"; "$"; "*"]%char ->
  exists c,
    handleConnection (M := GoM World) cfg Current all_arrived (EncodeArray ["MULTI"] +++ String garbage tail) w = Val ((c, true), w) /\
    out c = mkWriter EmptyString (EncodeSimpleString "OK").
Proof.
  intros Hg. destruct (decode_request ("MULTI", []) (String garbage tail) EmptyString) as ([i sc] & Ed & Hin).
  { split; [|done]. repeat constructor; unfold small; done. }
  cbn [input fst snd] in Hin, Ed. subst i. unfold handleConnection. cbn [conn_loop rest scr]. rewrite Ed.
  change (ParseCommand _) with (@inl Command string (mkCommand "MULTI" [])). cbn [tx set_reader].
  change (handle cfg Current newTxState (mkCommand "MULTI" []))
    with (mkTx true [] false, (actionReply, EncodeSimpleString "OK", @nil Command)). cbn match.
  unfold mbind, GoM_bind, handleAction, mret, GoM_ret.
  set (c1 := flush_if_idle _ _).
  assert (c1 = mkConn (String garbage tail) (default EmptyString sc) (mkTx true [] false)
                 (mkWriter EmptyString (EncodeSimpleString "OK")) 1) as -> by reflexivity.
  rewrite length_append'. cbn [String.length]. rewrite Nat.add_succ_r. cbn [conn_loop rest scr].
  rewrite decode_garbage by done. eexists. split; [reflexivity|reflexivity].
Qed.
End malformed.

(** ** Concrete connections *)

Section witnesses.
Local Instance connection_env : GoEnv := env_at (unixToInternal + 10 * Second).

Definition a_config : Config := mkConfig 0 "noeviction" 5 false.

Local Hint Extern 0 (Worker (GoM World)) => exact (worker a_config None) : typeclass_instances.

Definition a_session : list request :=
  [("ping", []); ("GET", ["k"]); ("MULTI", []); ("del", ["k"]); ("PING", []); ("EXEC", []); ("ping", [])].

Definition session_replies : list string :=
  [EncodeSimpleString "PONG"; EncodeNullBulkString; EncodeSimpleString "OK"; EncodeSimpleString "QUEUED";
   EncodeSimpleString "QUEUED"; EncodeRawArray [EncodeInteger 0; EncodeSimpleString "PONG"]; EncodeSimpleString "PONG"].

Lemma pipelining_is_transparent_witness :
  exists c, handleConnection (M := GoM World) a_config None all_arrived (wire a_session) World_init = Val ((c, true), World_init) /\
            out c = mkWriter (concat_all session_replies) EmptyString.
Proof.
  pose proof (pipelining_is_transparent a_config None all_arrived (fun _ => eq_refl) a_session World_init) as Ht.
  assert (one_by_one a_config None newTxState (command_of <$> a_session) World_init
          = Val ((newTxState, session_replies), World_init)) as Er by reflexivity.
  rewrite Er in Ht. destruct Ht as (c & E & _ & _ & Ho).
  - repeat constructor; unfold small; done.
  - exists c. split; [exact E|exact Ho].
Defined.

Lemma parse_error_overtakes_reply_witness :
  exists c,
    handleConnection (M := GoM World) a_config None all_arrived (EncodeArray ["ping"] +++ empty_command) World_init
    = Val ((c, true), World_init) /\
    out c = mkWriter (EncodeError "ERR empty command" +++ EncodeSimpleString "PONG") EmptyString.
Proof.
  apply (parse_error_overtakes_reply a_config None ("ping", []) (EncodeSimpleString "PONG") World_init World_init).
  - repeat constructor; unfold small; done.
  - reflexivity.
  - reflexivity.
  - vm_compute. discriminate.
Defined.

Lemma unflushed_reply_is_lost_witness :
  exists c,
    handleConnection (M := GoM World) a_config None all_arrived (EncodeArray ["MULTI"] +++ "?") World_init = Val ((c, true), World_init) /\
    out c = mkWriter EmptyString (EncodeSimpleString "OK").
Proof.
  apply (unflushed_reply_is_lost a_config None "?" EmptyString World_init). cbn. intuition discriminate.
Defined.
End witnesses.
