(* ===== verification/Server.v ===== *)
(** * The concurrent server (Run, dispatchWorker, startActiveExpiry and the goroutines of
      handleConnection in src/server/tcp_server.go)

    Connections and the active-expiry loop run concurrently. Each sends its requests over
    one buffered channel to the worker, and waits for the answer on a reply channel that
    connections take from and return to a pool. A goroutine is a resumption ([prog]): it
    has returned, it asks for a request to be served, or it panics. [step] interleaves the
    goroutines, the worker and the main goroutine's accepting and shutting down. *)

From S2P Require Import Prelude GoLib Resp Aof Sds Hll World Lru Store StoreInv Evict Slot Layout Commands Dispatch Transaction Connection.

(** ** Goroutines *)

Inductive prog (A : Type) :=
  | Ret (a : A)
  | Ask (req : CommandRequest) (k : string -> prog A)
  | Crash (p : panic).
Arguments Ret {A} a.
Arguments Ask {A} req k.
Arguments Crash {A} p.

Global Instance prog_ret : MRet prog := fun A a => Ret a.
Global Instance prog_bind : MBind prog := fun A B f =>
  fix bind (m : prog A) : prog B :=
    match m with
    | Ret a => f a
    | Ask req k => Ask req (fun r => bind (k r))
    | Crash p => Crash p
    end.
Global Instance prog_worker : Worker prog := Build_Worker prog (fun req => Ask req Ret) (fun A p => Crash p).

(** How a goroutine ends: a connection is closed, a round of active expiry has its reply. *)
Inductive ending := Closed (c : conn) (open : bool) | Replied (r : string).

(** [talk p l p']: having exchanged the requests and replies [l], [p] is at [p']. *)
Inductive talk {A} : prog A -> list (CommandRequest * string) -> prog A -> Prop :=
  | talk_nil p : talk p [] p
  | talk_cons req k r l p : talk (k r) l p -> talk (Ask req k) ((req, r) :: l) p.

Lemma talk_snoc {A} (p : prog A) l req k r : talk p l (Ask req k) -> talk p (l ++ [(req, r)]) (k r).
Proof.
  intros Ht. remember (Ask req k) as p' eqn:Hp. induction Ht as [p|req0 k0 r0 l p Ht IH]; subst.
  - constructor. constructor.
  - cbn. constructor. by apply IH.
Qed.

Section goroutines.
Context `{GoEnv} (cfg : Config) (Current : option Layout).

(** A connection over the given stream, and one round of active expiry. *)
Definition connection (buffered : nat -> string -> bool) (stream : string) : prog ending :=
  '(c, open) ← handleConnection cfg Current buffered stream; mret (Closed c open).

Definition expiry_request : CommandRequest := mkRequest (mkCommand "_EXPIRY" []) [] [].
Definition expiry_round : prog ending := Ask expiry_request (fun r => Ret (Replied r)).

(** Whether the inner loop of [startActiveExpiry] breaks on this reply. *)
Definition round_enough (reply : string) : bool :=
  match DecodeInteger reply with Some deleted => deleted <? 5 | None => true end.
End goroutines.

(** ** The state *)

(** Where a goroutine is: between ticks (the expiry loop only), about to act, holding a
    reply channel and about to send, waiting for the reply, with the reply and about to
    return the channel, or done. *)
Inductive goroutine :=
  | Sleeping
  | Ready (p : prog ending)
  | Holding (ch : nat) (req : CommandRequest) (k : string -> prog ending)
  | Waiting (ch : nat) (k : string -> prog ending)
  | Putting (ch : nat) (p : prog ending)
  | Finished.

Inductive dispatcher_state := Idle | Replying (who ch : nat) (reply : string) | Exited.
Inductive phase := Accepting | WaitingProducers | Draining | Returned.
Inductive crash_reason := Panicked (p : panic) | SendOnClosed.

(** Goroutine 0 is [startActiveExpiry]. The items of the channels carry the number of the
    goroutine that asked; [hist] (the requests served so far with their replies) and
    [started] (how each goroutine began) record the run and do not influence it. *)
Record system := mkSystem {
  world : World;
  clients : list goroutine;
  commandCh : list (nat * CommandRequest * nat);
  chClosed : bool;
  dispatcher : dispatcher_state;
  replych : gmap nat (nat * string);
  replyChPool : list nat;
  next_ch : nat;
  ctxDone : bool;
  runPhase : phase;
  synced : option (option sync_result);
  crashed : option crash_reason;
  hist : list (nat * CommandRequest * string);
  started : list (prog ending);
}.

Definition commandCh_cap : nat := 256.

Definition init (w : World) : system :=
  mkSystem w [Sleeping] [] false Idle ∅ [] 0 false Accepting None None [] [expiry_round].

(** *** Updates of single fields *)

Definition set_client (i : nat) (g : goroutine) (s : system) : system :=
  mkSystem (world s) (<[i := g]> (clients s)) (commandCh s) (chClosed s) (dispatcher s) (replych s) (replyChPool s)
    (next_ch s) (ctxDone s) (runPhase s) (synced s) (crashed s) (hist s) (started s).
Definition add_client (p : prog ending) (s : system) : system :=
  mkSystem (world s) (clients s ++ [Ready p]) (commandCh s) (chClosed s) (dispatcher s) (replych s) (replyChPool s)
    (next_ch s) (ctxDone s) (runPhase s) (synced s) (crashed s) (hist s) (started s ++ [p]).
Definition set_queue (q : list (nat * CommandRequest * nat)) (s : system) : system :=
  mkSystem (world s) (clients s) q (chClosed s) (dispatcher s) (replych s) (replyChPool s)
    (next_ch s) (ctxDone s) (runPhase s) (synced s) (crashed s) (hist s) (started s).
Definition set_replych (m : gmap nat (nat * string)) (s : system) : system :=
  mkSystem (world s) (clients s) (commandCh s) (chClosed s) (dispatcher s) m (replyChPool s)
    (next_ch s) (ctxDone s) (runPhase s) (synced s) (crashed s) (hist s) (started s).
Definition set_chpool (l : list nat) (s : system) : system :=
  mkSystem (world s) (clients s) (commandCh s) (chClosed s) (dispatcher s) (replych s) l
    (next_ch s) (ctxDone s) (runPhase s) (synced s) (crashed s) (hist s) (started s).
Definition make_ch (s : system) : system :=
  mkSystem (world s) (clients s) (commandCh s) (chClosed s) (dispatcher s) (replych s) (replyChPool s)
    (S (next_ch s)) (ctxDone s) (runPhase s) (synced s) (crashed s) (hist s) (started s).
Definition set_dispatcher (d : dispatcher_state) (s : system) : system :=
  mkSystem (world s) (clients s) (commandCh s) (chClosed s) d (replych s) (replyChPool s)
    (next_ch s) (ctxDone s) (runPhase s) (synced s) (crashed s) (hist s) (started s).
Definition record_served (w : World) (x : nat * CommandRequest * string) (s : system) : system :=
  mkSystem w (clients s) (commandCh s) (chClosed s) (dispatcher s) (replych s) (replyChPool s)
    (next_ch s) (ctxDone s) (runPhase s) (synced s) (crashed s) (hist s ++ [x]) (started s).
Definition cancel_ctx (s : system) : system :=
  mkSystem (world s) (clients s) (commandCh s) (chClosed s) (dispatcher s) (replych s) (replyChPool s)
    (next_ch s) true (runPhase s) (synced s) (crashed s) (hist s) (started s).
Definition set_main (m : phase) (s : system) : system :=
  mkSystem (world s) (clients s) (commandCh s) (chClosed s) (dispatcher s) (replych s) (replyChPool s)
    (next_ch s) (ctxDone s) m (synced s) (crashed s) (hist s) (started s).
Definition close_commandCh (s : system) : system :=
  mkSystem (world s) (clients s) (commandCh s) true (dispatcher s) (replych s) (replyChPool s)
    (next_ch s) (ctxDone s) (runPhase s) (synced s) (crashed s) (hist s) (started s).
(** [aof.Sync], if there is a file; an error is only logged. *)
Definition sync_aof (failed : bool) (s : system) : system :=
  mkSystem (world s) (clients s) (commandCh s) (chClosed s) (dispatcher s) (replych s) (replyChPool s)
    (next_ch s) (ctxDone s) (runPhase s) (Some (AOF_Sync failed <$> aof (world s))) (crashed s) (hist s) (started s).
Definition crash_with (r : crash_reason) (s : system) : system :=
  mkSystem (world s) (clients s) (commandCh s) (chClosed s) (dispatcher s) (replych s) (replyChPool s)
    (next_ch s) (ctxDone s) (runPhase s) (synced s) (Some r) (hist s) (started s).

(** ** Steps *)

Section steps.
Context `{GoEnv} (cfg : Config) (Current : option Layout).

Inductive step : system -> system -> Prop :=
  (** [listener.Accept] returns a connection; its goroutine starts. *)
  | step_accept s buffered stream (Hcr : crashed s = None) (Hmain : runPhase s = Accepting) :
      step s (add_client (connection cfg Current buffered stream) s)
  (** [replyChPool.Get()] gives a pooled channel or makes a new one; the expiry loop always
      makes one. The pool may forget channels at any time. *)
  | step_get_pooled s i req k ch l1 l2 (Hcr : crashed s = None) (Hi : clients s !! i = Some (Ready (Ask req k)))
      (Hnz : i <> 0%nat) (Hpool : replyChPool s = l1 ++ ch :: l2) :
      step s (set_client i (Holding ch req k) (set_chpool (l1 ++ l2) s))
  | step_get_new s i req k (Hcr : crashed s = None) (Hi : clients s !! i = Some (Ready (Ask req k))) :
      step s (set_client i (Holding (next_ch s) req k) (make_ch s))
  | step_forget s ch l1 l2 (Hcr : crashed s = None) (Hpool : replyChPool s = l1 ++ ch :: l2) :
      step s (set_chpool (l1 ++ l2) s)
  (** [commandCh <- req], which blocks while the channel is full and panics if it is closed. *)
  | step_send s i ch req k (Hcr : crashed s = None) (Hi : clients s !! i = Some (Holding ch req k))
      (Hclosed : chClosed s = false) (Hroom : (length (commandCh s) < commandCh_cap)%nat) :
      step s (set_client i (Waiting ch k) (set_queue (commandCh s ++ [(i, req, ch)]) s))
  | step_send_closed s i ch req k (Hcr : crashed s = None) (Hi : clients s !! i = Some (Holding ch req k))
      (Hclosed : chClosed s = true) :
      step s (crash_with SendOnClosed s)
  (** [reply := <-replych], then [replyChPool.Put(replych)]. *)
  | step_receive s i ch k who r (Hcr : crashed s = None) (Hi : clients s !! i = Some (Waiting ch k))
      (Hreply : replych s !! ch = Some (who, r)) :
      step s (set_client i (Putting ch (k r)) (set_replych (delete ch (replych s)) s))
  | step_put s i ch p (Hcr : crashed s = None) (Hi : clients s !! i = Some (Putting ch p)) (Hnz : i <> 0%nat) :
      step s (set_client i (Ready p) (set_chpool (ch :: replyChPool s) s))
  (** [handleConnection] returns, or a read or write fails and it returns early, or panics. *)
  | step_return s i e (Hcr : crashed s = None) (Hi : clients s !! i = Some (Ready (Ret e))) (Hnz : i <> 0%nat) :
      step s (set_client i Finished s)
  | step_hangup s i p (Hcr : crashed s = None) (Hi : clients s !! i = Some (Ready p)) (Hnz : i <> 0%nat) :
      step s (set_client i Finished s)
  | step_panic s i p (Hcr : crashed s = None) (Hi : clients s !! i = Some (Ready (Crash p))) :
      step s (crash_with (Panicked p) s)
  (** [startActiveExpiry]: a tick, the next round, the end of the rounds, and cancellation,
      seen between ticks or while sending. *)
  | step_tick s (Hcr : crashed s = None) (Hi : clients s !! 0%nat = Some Sleeping) :
      step s (set_client 0 (Ready expiry_round) s)
  | step_expiry_reply s ch p (Hcr : crashed s = None) (Hi : clients s !! 0%nat = Some (Putting ch p)) :
      step s (set_client 0 (Ready p) s)
  | step_expiry_again s r (Hcr : crashed s = None) (Hi : clients s !! 0%nat = Some (Ready (Ret (Replied r))))
      (Henough : round_enough r = false) :
      step s (set_client 0 (Ready expiry_round) s)
  | step_expiry_enough s r (Hcr : crashed s = None) (Hi : clients s !! 0%nat = Some (Ready (Ret (Replied r))))
      (Henough : round_enough r = true) :
      step s (set_client 0 Sleeping s)
  | step_expiry_cancelled s g (Hcr : crashed s = None) (Hi : clients s !! 0%nat = Some g)
      (Hctx : ctxDone s = true) (Hg : (g = Sleeping \/ exists ch req k, g = Holding ch req k)) :
      step s (set_client 0 Finished s)
  (** [dispatchWorker]: take a request and serve it, send the reply, leave the loop. *)
  | step_serve s who req ch q r w' (Hcr : crashed s = None) (Hdisp : dispatcher s = Idle)
      (Hqueue : commandCh s = (who, req, ch) :: q) (Hserve : serve cfg Current req (world s) = Val (r, w')) :
      step s (set_dispatcher (Replying who ch r) (set_queue q (record_served w' (who, req, r) s)))
  | step_serve_panic s who req ch q p (Hcr : crashed s = None) (Hdisp : dispatcher s = Idle)
      (Hqueue : commandCh s = (who, req, ch) :: q) (Hserve : serve cfg Current req (world s) = Panic p) :
      step s (crash_with (Panicked p) s)
  | step_reply s who ch r (Hcr : crashed s = None) (Hdisp : dispatcher s = Replying who ch r)
      (Hreply : replych s !! ch = None) :
      step s (set_dispatcher Idle (set_replych (<[ch := (who, r)]> (replych s)) s))
  | step_worker_exit s (Hcr : crashed s = None) (Hdisp : dispatcher s = Idle) (Hclosed : chClosed s = true)
      (Hqueue : commandCh s = []) :
      step s (set_dispatcher Exited s)
  (** The shutdown signal, and the rest of [Run]. *)
  | step_cancel s (Hcr : crashed s = None) :
      step s (cancel_ctx s)
  | step_stop_accepting s (Hcr : crashed s = None) (Hmain : runPhase s = Accepting) (Hctx : ctxDone s = true) :
      step s (set_main WaitingProducers s)
  | step_close s (Hcr : crashed s = None) (Hmain : runPhase s = WaitingProducers)
      (Hall : Forall (eq Finished) (clients s)) :
      step s (set_main Draining (close_commandCh s))
  | step_finish s failed (Hcr : crashed s = None) (Hmain : runPhase s = Draining) (Hdisp : dispatcher s = Exited) :
      step s (set_main Returned (sync_aof failed s)).

Definition reachable_system (w : World) (s : system) : Prop := rtc step (init w) s.
End steps.

(** ** A goroutine on its own *)

Section direct.
Context `{GoEnv} (cfg : Config) (Current : option Layout).
Local Hint Extern 0 (Worker (GoM World)) => exact (worker cfg Current) : typeclass_instances.

(** Every request is served at once. *)
Fixpoint interp {A} (p : prog A) : GoM World A :=
  match p with
  | Ret a => mret a
  | Ask req k => fun w =>
      match serve cfg Current req w with
      | Val (r, w') => interp (k r) w'
      | Panic q => Panic q
      end
  | Crash q => panicking q
  end.

Lemma interp_bind {A B} (m : prog A) (f : A -> prog B) w :
  interp (m ≫= f) w = match interp m w with Val (a, w') => interp (f a) w' | Panic p => Panic p end.
Proof.
  revert w. induction m as [a|req k IH|p]; intros w; [done| |done].
  cbn [interp mbind prog_bind]. destruct (serve cfg Current req w) as [[r w']|]; [|done]. apply IH.
Qed.

Lemma GoM_bind_eq {S A B} (m : GoM S A) (f : A -> GoM S B) s :
  (m ≫= f) s = match m s with Val (a, s') => f a s' | Panic p => Panic p end.
Proof. done. Qed.

Lemma interp_dispatchPipeline pipe c w :
  interp (dispatchPipeline pipe c) w = dispatchPipeline (M := GoM World) pipe c w.
Proof.
  unfold dispatchPipeline, dispatchSingle, dispatch_request. destruct pipe as [|cmd [|]];
    cbn [ask prog_worker worker mbind prog_bind interp]; unfold mbind, GoM_bind, mret, GoM_ret;
    destruct (serve cfg Current _ w) as [[r w']|]; done.
Qed.

Lemma interp_handleAction action t b c w :
  interp (handleAction action t b c) w = handleAction (M := GoM World) action t b c w.
Proof.
  unfold handleAction, dispatch_request. destruct action; [done|done|].
  cbn [ask prog_worker worker mbind prog_bind interp]. unfold mbind, GoM_bind, mret, GoM_ret.
  by destruct (serve cfg Current _ w) as [[r w']|].
Qed.

Lemma interp_pipelineLoop buffered fuel pipe c w :
  interp (pipelineLoop cfg Current buffered fuel pipe c) w
  = pipelineLoop (M := GoM World) cfg Current buffered fuel pipe c w.
Proof.
  revert pipe c w. induction fuel as [|fuel IH]; intros pipe c w; [done|]. cbn [pipelineLoop].
  destruct (buffered (asks c) (rest c)).
  - destruct (Decoder_Decode _ _) as [v r|e|p|]; [|..].
    + destruct (ParseCommand v) as [cmd|err].
      * destruct (handle _ _ _ _) as [t [[action reply] b]]. destruct action; [apply IH|..].
        all: rewrite interp_bind, interp_dispatchPipeline; rewrite GoM_bind_eq;
          destruct (dispatchPipeline (M := GoM World) pipe _ w) as [[c1 w1]|]; [|done];
          rewrite interp_bind, interp_handleAction; rewrite GoM_bind_eq;
          destruct (handleAction (M := GoM World) _ _ _ c1 w1) as [[c2 w2]|]; done.
      * rewrite interp_bind, interp_dispatchPipeline. rewrite GoM_bind_eq.
        by destruct (dispatchPipeline (M := GoM World) pipe _ w) as [[c1 w1]|].
    + rewrite interp_bind, interp_dispatchPipeline. rewrite GoM_bind_eq.
      by destruct (dispatchPipeline (M := GoM World) pipe _ w) as [[c1 w1]|].
    + done.
    + rewrite interp_bind, interp_dispatchPipeline. rewrite GoM_bind_eq.
      by destruct (dispatchPipeline (M := GoM World) pipe _ w) as [[c1 w1]|].
  - rewrite interp_bind, interp_dispatchPipeline. rewrite GoM_bind_eq.
    by destruct (dispatchPipeline (M := GoM World) pipe _ w) as [[c1 w1]|].
Qed.

Lemma interp_conn_loop buffered fuel c w :
  interp (conn_loop cfg Current buffered fuel c) w = conn_loop (M := GoM World) cfg Current buffered fuel c w.
Proof.
  revert c w. induction fuel as [|fuel IH]; intros c w; [done|]. cbn [conn_loop].
  destruct (Decoder_Decode _ _) as [v r|e|p|]; try done.
  destruct (ParseCommand v) as [cmd|err]; [|apply IH].
  destruct (handle _ _ _ _) as [t [[action reply] b]]. destruct action.
  - rewrite interp_bind, interp_pipelineLoop. rewrite GoM_bind_eq.
    destruct (pipelineLoop (M := GoM World) _ _ _ _ _ _ w) as [[[c1 open] w1]|]; [|done]. destruct open; [apply IH|done].
  - rewrite interp_bind, interp_handleAction. rewrite GoM_bind_eq.
    destruct (handleAction (M := GoM World) _ _ _ _ w) as [[c1 w1]|]; [apply IH|done].
  - rewrite interp_bind, interp_handleAction. rewrite GoM_bind_eq.
    destruct (handleAction (M := GoM World) _ _ _ _ w) as [[c1 w1]|]; [apply IH|done].
Qed.

(** The goroutine of a connection, when nothing comes between its requests, is the loop of
    [Connection] with the worker called directly. *)
Lemma interp_handleConnection buffered stream w :
  interp (handleConnection cfg Current buffered stream) w
  = handleConnection (M := GoM World) cfg Current buffered stream w.
Proof. apply interp_conn_loop. Qed.
End direct.
