(* ===== verification/ServerInv.v ===== *)
(** * Invariants of the concurrent server

    The reply channels are never shared or confused, the state of the store is what the
    worker reaches by serving the recorded requests one after the other, and every
    connection has received exactly the replies to its own requests. *)

From S2P Require Import Prelude GoLib Resp Aof Sds Hll World Lru Store StoreInv Evict Slot Layout Commands Dispatch Transaction Connection Server.

(** ** Reply channels *)

(** The protocol of the reply channels on its own. [v i] is the channel goroutine [i]
    holds and whether it waits on it; [L] are the requests on their way to a reply, each a
    goroutine and its channel; [R] are the channels that hold a reply, and for whom; [P] is
    the pool and [n] the number of channels made. *)
Record chans_ok (v : nat -> option (nat * bool)) (L : list (nat * nat)) (R : gmap nat nat)
    (P : list nat) (n : nat) : Prop := {
  ch_made : forall i ch b, v i = Some (ch, b) -> (ch < n)%nat;
  ch_pool_made : forall ch, ch ∈ P -> (ch < n)%nat;
  ch_unique : forall i j ch b b', v i = Some (ch, b) -> v j = Some (ch, b') -> i = j;
  ch_pool_free : forall i ch b, ch ∈ P -> v i <> Some (ch, b);
  ch_pool_NoDup : NoDup P;
  ch_waiting : forall i ch, v i = Some (ch, true) <-> (i, ch) ∈ L \/ R !! ch = Some i;
  ch_NoDup : NoDup L.*2;
  ch_one_place : forall ch, ch ∈ L.*2 -> R !! ch = None;
}.

(** [v'] is [v] with goroutine [i] at [x]. *)
Definition moves (v : nat -> option (nat * bool)) (i : nat) (x : option (nat * bool)) (v' : nat -> option (nat * bool)) : Prop :=
  forall j, v' j = if decide (j = i) then x else v j.

Section protocol.
Context (v v' : nat -> option (nat * bool)) (L : list (nat * nat)) (R : gmap nat nat) (P : list nat) (n i ch : nat).

Ltac by_moves Hv := intros; rewrite ?Hv in *; repeat case_decide; subst; simplify_eq; eauto.

Lemma chans_ok_ext : (forall j, v' j = v j) -> chans_ok v L R P n -> chans_ok v' L R P n.
Proof. intros Hv []. split; intros *; rewrite ?Hv; eauto. Qed.

(** Letting go of a channel that is not waited on, for good or into the pool. *)
Lemma chans_ok_release b :
  moves v i None v' -> v i = Some (ch, b) -> b = false -> chans_ok v L R P n ->
  chans_ok v' L R P n /\ chans_ok v' L R (ch :: P) n.
Proof.
  intros Hv Hi -> Hok. assert (chans_ok v' L R P n) as Hok'.
  { destruct Hok. split; [by_moves Hv..|done| |done|done].
    intros j ch'. rewrite Hv. case_decide as Hj; [|done]. subst j. split; [done|]. intros Hp.
    apply ch_waiting0 in Hp. congruence. }
  split; [done|]. pose proof Hok as []. destruct Hok'. split; [done| |done| | |done..].
  - intros ch' [->|Hc]%elem_of_cons; eauto.
  - intros j ch' b' [->|Hc]%elem_of_cons; [|by eauto]. rewrite Hv. case_decide; [done|]. intros Hj. eauto.
  - apply NoDup_cons. split; [|done]. intros Hc. by eapply ch_pool_free0.
Qed.

Lemma chans_ok_forget l1 l2 : P = l1 ++ ch :: l2 -> chans_ok v L R P n -> chans_ok v L R (l1 ++ l2) n.
Proof.
  clear v' i. intros -> []. split; [done| |done| | |done..].
  - intros c Hc. apply ch_pool_made0. set_solver.
  - intros j c b Hc. apply ch_pool_free0. set_solver.
  - apply NoDup_app in ch_pool_NoDup0 as (H1 & H2 & H3%NoDup_cons_1_2). apply NoDup_app. split; [done|]. split; [|done].
    intros x Hx Hx2. apply (H2 x Hx). set_solver.
Qed.

Lemma chans_ok_get_pooled l1 l2 :
  P = l1 ++ ch :: l2 -> v i = None -> moves v i (Some (ch, false)) v' -> chans_ok v L R P n ->
  chans_ok v' L R (l1 ++ l2) n.
Proof.
  intros HP Hi Hv Hok. pose proof (chans_ok_forget l1 l2 HP Hok) as []. destruct Hok.
  assert (ch ∈ P) as Hin by (subst P; set_solver).
  assert (ch ∉ l1 ++ l2) as Hout.
  { subst P. apply NoDup_app in ch_pool_NoDup1 as (H1 & H2 & [H3 _]%NoDup_cons). intros [Hc|Hc]%elem_of_app; [|done].
    apply (H2 ch Hc). set_solver. }
  split; [|done| | |done| |done..].
  - intros j c b. rewrite Hv. case_decide; [intros [= <- _]|]; eauto.
  - intros j j' c b b'. rewrite !Hv. repeat case_decide; subst; intros; simplify_eq; eauto; exfalso; by eapply ch_pool_free1.
  - intros j c b Hc. rewrite Hv. case_decide; [|by eauto]. intros [= -> _]. done.
  - intros j c. rewrite Hv. case_decide; [|done]. subst j. split; [by intros [= _ ?]|].
    intros Hp. apply ch_waiting1 in Hp. congruence.
Qed.

Lemma chans_ok_get_new :
  v i = None -> moves v i (Some (n, false)) v' -> chans_ok v L R P n -> chans_ok v' L R P (S n).
Proof.
  intros Hi Hv []. split; [| | | |done| |done..].
  - intros j c b. rewrite Hv. case_decide; [intros [= <- _]; lia|]. intros Hj. specialize (ch_made0 _ _ _ Hj). lia.
  - intros c Hc. specialize (ch_pool_made0 c Hc). lia.
  - intros j j' c b b'. rewrite !Hv. repeat case_decide; subst; intros H1 H2; simplify_eq; eauto;
      exfalso; [specialize (ch_made0 _ _ _ H2)|specialize (ch_made0 _ _ _ H1)]; lia.
  - intros j c b Hc. rewrite Hv. case_decide; [|by eauto]. intros [= -> _]. specialize (ch_pool_made0 c Hc). lia.
  - intros j c. rewrite Hv. case_decide; [|done]. subst j. split; [by intros [= _ ?]|].
    intros Hp. apply ch_waiting0 in Hp. congruence.
Qed.

Lemma chans_ok_send :
  v i = Some (ch, false) -> moves v i (Some (ch, true)) v' -> chans_ok v L R P n ->
  chans_ok v' (L ++ [(i, ch)]) R P n.
Proof.
  intros Hi Hv []. assert (ch ∉ L.*2 /\ R !! ch = None) as [Hfree HR].
  { split.
    - intros ((j, c) & -> & Hin)%list_elem_of_fmap. cbn in *.
      assert (v j = Some (c, true)) as Hj by (apply ch_waiting0; by left).
      rewrite (ch_unique0 _ _ _ _ _ Hj Hi) in Hj. congruence.
    - destruct (R !! ch) as [j|] eqn:Hr; [|done].
      assert (v j = Some (ch, true)) as Hj by (apply ch_waiting0; by right).
      rewrite (ch_unique0 _ _ _ _ _ Hj Hi) in Hj. congruence. }
  split; [intros j c b; rewrite Hv; case_decide; [intros [= <- _]|]; eauto|done| | |done| | |].
  - intros j j' c b b'. rewrite !Hv. repeat case_decide; subst; intros; simplify_eq; eauto; symmetry; eauto.
  - intros j c b Hc. rewrite Hv. case_decide; [|by eauto]. intros [= -> _]. by eapply ch_pool_free0.
  - intros j c. rewrite Hv, elem_of_app, list_elem_of_singleton. case_decide as Hj.
    + subst j. split; [intros [= ->]; left; by right|]. intros [[Hp|[= ->]]|Hp]; [|done|].
      * assert (v i = Some (c, true)) by (apply ch_waiting0; by left). congruence.
      * assert (v i = Some (c, true)) by (apply ch_waiting0; by right). congruence.
    + rewrite ch_waiting0. split; [by intros [?|?]; auto|]. intros [[?|[= ? _]]|?]; [by left|done|by right].
  - rewrite fmap_app. apply NoDup_app. split; [done|]. split; [set_solver|apply NoDup_singleton].
  - intros c. rewrite fmap_app, elem_of_app. intros [Hc|Hc]; [by apply ch_one_place0|]. set_solver.
Qed.

Lemma chans_ok_reply L' : L = (i, ch) :: L' -> chans_ok v L R P n -> R !! ch = None /\ chans_ok v L' (<[ch := i]> R) P n.
Proof.
  clear v'. intros -> []. split; [apply ch_one_place0; set_solver|]. rewrite fmap_cons in ch_NoDup0.
  apply NoDup_cons in ch_NoDup0 as [Hni Hnd]. split; [done..| |done|].
  - intros j c. rewrite ch_waiting0, elem_of_cons. destruct (decide (c = ch)) as [->|Hc].
    + rewrite lookup_insert_eq, (ch_one_place0 ch) by set_solver. split.
      * intros [[[= ->]|Hin]|?]; [by right| |done]. exfalso. apply Hni. apply list_elem_of_fmap. by exists (j, ch).
      * intros [Hin|[= ->]]; [|by left; left]. exfalso. apply Hni. apply list_elem_of_fmap. by exists (j, ch).
    + rewrite lookup_insert_ne by done. split; [intros [[[= -> ->]|?]|?]; auto; done|intros [?|?]; auto].
  - intros c Hc. rewrite lookup_insert_ne; [apply ch_one_place0; set_solver|]. intros ->. done.
Qed.

Lemma chans_ok_receive who :
  v i = Some (ch, true) -> R !! ch = Some who -> moves v i (Some (ch, false)) v' -> chans_ok v L R P n ->
  who = i /\ chans_ok v' L (delete ch R) P n.
Proof.
  intros Hi HR Hv []. assert (v who = Some (ch, true)) as Hwho by (apply ch_waiting0; by right).
  assert (who = i) as -> by eauto. split; [done|].
  split; [intros j c b; rewrite Hv; case_decide; [intros [= <- _]|]; eauto|done| | |done| |done|].
  - intros j j' c b b'. rewrite !Hv. repeat case_decide; subst; intros; simplify_eq; eauto; symmetry; eauto.
  - intros j c b Hc. rewrite Hv. case_decide; [|by eauto]. intros [= -> _]. by eapply ch_pool_free0.
  - intros j c. rewrite Hv. case_decide as Hj.
    + subst j. split; [by intros [= _ ?]|]. intros [Hp|Hp].
      * assert (v i = Some (c, true)) as Hi' by (apply ch_waiting0; by left).
        assert (c = ch) as -> by congruence. rewrite (ch_one_place0 ch) in HR; [done|].
        apply list_elem_of_fmap. by exists (i, ch).
      * apply lookup_delete_Some in Hp as [Hne Hp]. assert (v i = Some (c, true)) by (apply ch_waiting0; by right). congruence.
    + rewrite ch_waiting0. destruct (decide (c = ch)) as [->|Hc].
      * rewrite lookup_delete_eq, HR. split; [intros [?|[= ->]]; [by left|done]|intros [?|?]; [by left|done]].
      * by rewrite lookup_delete_ne.
  - intros c Hc. destruct (decide (c = ch)) as [->|Hne]; [apply lookup_delete_eq|]. rewrite lookup_delete_ne by done.
    by apply ch_one_place0.
Qed.
End protocol.

(** ** Channels of the system *)

Definition cview (g : goroutine) : option (nat * bool) :=
  match g with
  | Holding ch _ _ | Putting ch _ => Some (ch, false)
  | Waiting ch _ => Some (ch, true)
  | _ => None
  end.

Definition view (s : system) (i : nat) : option (nat * bool) := clients s !! i ≫= cview.

Definition replying (d : dispatcher_state) : list (nat * nat) :=
  match d with Replying who ch _ => [(who, ch)] | _ => [] end.

Definition in_flight (s : system) : list (nat * nat) :=
  replying (dispatcher s) ++ ((fun x => (x.1.1, x.2)) <$> commandCh s).

Definition chans (s : system) : Prop :=
  chans_ok (view s) (in_flight s) (fst <$> replych s) (replyChPool s) (next_ch s).

Lemma clients_lookup_set (l : list goroutine) (i j : nat) (g g0 : goroutine) :
  l !! i = Some g0 -> <[i := g]> l !! j = if decide (j = i) then Some g else l !! j.
Proof.
  intros Hi. case_decide as Hj; [subst j|by rewrite list_lookup_insert_ne].
  apply list_lookup_insert_eq. by eapply lookup_lt_Some.
Qed.

Lemma view_set s i g g0 v0 :
  clients s !! i = Some g0 -> (forall j, v0 j = view s j) -> moves v0 i (cview g) (fun j => <[i := g]> (clients s) !! j ≫= cview).
Proof.
  intros Hi Hv j. rewrite (clients_lookup_set _ _ _ g g0 Hi), Hv. unfold view. by case_decide.
Qed.

Lemma view_at s i g : clients s !! i = Some g -> view s i = cview g.
Proof. unfold view. by intros ->. Qed.

Section invariant.
Context `{!GoEnv} (cfg : Config) (Current : option Layout).

(** A goroutine that holds no channel before or after. *)
Lemma chans_quiet s i g g0 :
  clients s !! i = Some g0 -> cview g0 = None -> cview g = None -> chans s -> chans (set_client i g s).
Proof.
  intros Hi H0 Hg. apply chans_ok_ext. intros j. unfold view. cbn.
  rewrite (clients_lookup_set _ _ _ g g0 Hi). case_decide as Hj; [|done]. subst j. rewrite Hi. cbn. by rewrite H0, Hg.
Qed.

Lemma chans_step s s' : step cfg Current s s' -> chans s -> chans s'.
Proof.
  intros Hstep Hc. destruct Hstep.
  - revert Hc. apply chans_ok_ext. intros j. unfold view. cbn.
    destruct (decide (j < length (clients s))%nat); [by rewrite lookup_app_l|].
    rewrite (lookup_ge_None_2 (clients s)) by lia. rewrite lookup_app_r by lia.
    destruct (j - length (clients s))%nat as [|m]; [done|]. by destruct m.
  - eapply chans_ok_get_pooled; [exact Hpool|by rewrite (view_at s i _ Hi)|by eapply (view_set s i (Holding ch req k))|exact Hc].
  - eapply chans_ok_get_new; [by rewrite (view_at s i _ Hi)|by eapply (view_set s i (Holding (next_ch s) req k))|exact Hc].
  - exact (chans_ok_forget _ _ _ _ _ _ l1 l2 Hpool Hc).
  - unfold chans, in_flight. cbn. rewrite fmap_app, app_assoc.
    eapply (chans_ok_send (view s) _ _ _ _ _ i ch); [by rewrite (view_at s i _ Hi)|by eapply (view_set s i (Waiting ch k))|exact Hc].
  - done.
  - unfold chans. cbn. rewrite fmap_delete.
    eapply (chans_ok_receive (view s) _ _ _ _ _ i ch who); [by rewrite (view_at s i _ Hi)|by rewrite lookup_fmap, Hreply
      |by eapply (view_set s i (Putting ch (k r)))|exact Hc].
  - eapply (chans_ok_release (view s) _ _ _ _ _ i ch); [by eapply (view_set s i (Ready p))|by rewrite (view_at s i _ Hi)|done|exact Hc].
  - by eapply chans_quiet.
  - by eapply chans_quiet.
  - done.
  - by eapply chans_quiet.
  - eapply (chans_ok_release (view s) _ _ _ _ _ 0%nat ch); [by eapply (view_set s 0 (Ready p))|by rewrite (view_at s 0 _ Hi)|done|exact Hc].
  - by eapply chans_quiet.
  - by eapply chans_quiet.
  - destruct Hg as [->|(ch & req & k & ->)]; [by eapply chans_quiet|].
    eapply (chans_ok_release (view s) _ _ _ _ _ 0%nat ch); [by eapply (view_set s 0 Finished)|by rewrite (view_at s 0 _ Hi)|done|exact Hc].
  - unfold chans, in_flight in *. cbn. by rewrite Hdisp, Hqueue in Hc.
  - done.
  - unfold chans, in_flight in *. cbn. rewrite fmap_insert. rewrite Hdisp in Hc.
    exact (proj2 (chans_ok_reply _ _ _ _ _ who ch _ eq_refl Hc)).
  - unfold chans, in_flight in *. cbn. by rewrite Hdisp in Hc.
  - done.
  - done.
  - done.
  - done.
Qed.

Lemma chans_init w : chans (init w).
Proof.
  split; cbn; try set_solver; try (intros *; unfold view; cbn; destruct i; done).
  - apply NoDup_nil_2.
  - intros i ch. unfold view. destruct i; cbn; set_solver.
  - apply NoDup_nil_2.
Qed.

(** ** Phases of the shutdown *)

Record phase_ok (s : system) : Prop := {
  ph_room : (length (commandCh s) <= commandCh_cap)%nat;
  ph_closed : chClosed s = true <-> runPhase s = Draining \/ runPhase s = Returned;
  ph_finished : chClosed s = true -> Forall (eq Finished) (clients s);
  ph_exited : dispatcher s = Exited -> chClosed s = true /\ commandCh s = [];
  ph_done : runPhase s <> Accepting -> ctxDone s = true;
  ph_synced : runPhase s = Returned -> dispatcher s = Exited /\ exists failed, synced s = Some (AOF_Sync failed <$> aof (world s));
  ph_crash : crashed s <> Some SendOnClosed;
}.

(** No goroutine moves once the channel is closed. *)
Lemma closed_finished s i g : phase_ok s -> clients s !! i = Some g -> g <> Finished -> chClosed s = false.
Proof.
  intros Hp Hi Hg. destruct (chClosed s) eqn:Hcl; [|done]. exfalso.
  pose proof (ph_finished s Hp Hcl) as Hall. rewrite Forall_lookup in Hall. by apply Hg, eq_sym, (Hall i).
Qed.

(** A step of a goroutine: the channel is open. *)
Lemma phase_open s s' :
  chClosed s = false -> runPhase s' = runPhase s -> chClosed s' = chClosed s -> ctxDone s' = ctxDone s ->
  dispatcher s' = dispatcher s -> (length (commandCh s') <= commandCh_cap)%nat -> crashed s' = crashed s ->
  phase_ok s -> phase_ok s'.
Proof.
  intros Ho Hm Hcl Hctx Hd Hroom Hcr []. split; rewrite ?Hm, ?Hcl, ?Hctx, ?Hd, ?Hcr; try done.
  - by rewrite Ho.
  - intros Hx%ph_exited0. destruct Hx. congruence.
  - intros Hx. assert (chClosed s = true) by (apply ph_closed0; auto). congruence.
Qed.

(** A step of the worker, which has not left its loop. *)
Lemma phase_worker s s' :
  dispatcher s <> Exited -> dispatcher s' <> Exited -> runPhase s' = runPhase s -> chClosed s' = chClosed s ->
  ctxDone s' = ctxDone s -> clients s' = clients s -> (length (commandCh s') <= commandCh_cap)%nat ->
  crashed s' = crashed s -> phase_ok s -> phase_ok s'.
Proof.
  intros Hd Hd' Hm Hcl Hctx Hc Hroom Hcr []. split; rewrite ?Hm, ?Hcl, ?Hctx, ?Hc, ?Hcr; try done.
  intros [Hx _]%ph_synced0. done.
Qed.

Lemma phase_step s s' : step cfg Current s s' -> phase_ok s -> phase_ok s'.
Proof.
  intros Hstep Hp. pose proof Hp as [Hroom' Hclosed' Hfin Hex Hdone Hsync Hcrash]. destruct Hstep.
  all: try (eapply (phase_open s); [by eapply closed_finished|(cbn; by auto)..]; fail).
  all: try (split; cbn; rewrite ?Hcr; by auto).
  - eapply (phase_open s); [|done..]. destruct (chClosed s); [naive_solver congruence|done].
  - eapply (phase_open s); cbn; try done. rewrite length_app. cbn. lia.
  - rewrite (closed_finished s i _ Hp Hi) in Hclosed; done.
  - eapply (phase_open s); [eapply closed_finished; [done|exact Hi|]|done..].
    destruct Hg as [->|(ch & req & k & ->)]; done.
  - eapply (phase_worker s); cbn; try done; [congruence|]. rewrite Hqueue in Hroom'. cbn in Hroom'. lia.
  - eapply (phase_worker s); cbn; try done; congruence.
  - split; cbn; rewrite ?Hcr; try done; auto. intros [Hx _]%Hsync. congruence.
  - rewrite Hmain in Hclosed', Hsync. split; cbn; rewrite ?Hcr; try done; auto. naive_solver.
  - rewrite Hmain in Hclosed', Hsync. split; cbn; rewrite ?Hcr; try done; auto; [naive_solver|..].
    + intros Hx%Hex. destruct Hx. naive_solver congruence.
    + intros _. apply Hdone. congruence.
  - rewrite Hmain in Hclosed', Hsync. split; cbn; rewrite ?Hcr; try done; auto; [naive_solver|..].
    + intros _. apply Hdone. congruence.
    + intros _. split; [done|]. by exists failed.
Qed.

Lemma phase_init w : phase_ok (init w).
Proof. split; cbn; try done; [lia|naive_solver]. Qed.

(** ** What each goroutine has exchanged *)

Definition exchanges (i : nat) (h : list (nat * CommandRequest * string)) : list (CommandRequest * string) :=
  (fun x => (x.1.2, x.2)) <$> filter (fun x => x.1.1 = i) h.

#[global] Arguments exchanges : simpl never.

Lemma exchanges_snoc i h who req r :
  exchanges i (h ++ [(who, req, r)]) = if decide (who = i) then exchanges i h ++ [(req, r)] else exchanges i h.
Proof.
  unfold exchanges. rewrite filter_app, fmap_app, filter_cons. cbn.
  case_decide; cbn; [done|]. by rewrite app_nil_r.
Qed.

Lemma exchanges_none i h : (forall req r, (i, req, r) ∉ h) -> exchanges i h = [].
Proof.
  intros Hno. induction h as [|[[j req] r] h IH]; [done|]. unfold exchanges. rewrite filter_cons. case_decide as Hj; cbn in Hj.
  - subst j. exfalso. apply (Hno req r). set_solver.
  - apply IH. intros req' r' Hin. apply (Hno req' r'). set_solver.
Qed.

(** The reply [r] to goroutine [i] is in the worker's hands or in the channel [ch]. *)
Definition on_its_way (s : system) (i ch : nat) (r : string) : Prop :=
  dispatcher s = Replying i ch r \/ replych s !! ch = Some (i, r).

Definition track (s : system) (i : nat) (p0 : prog ending) (g : goroutine) : Prop :=
  match g with
  | Sleeping => False
  | Ready p | Putting _ p => talk p0 (exchanges i (hist s)) p
  | Holding _ req k => talk p0 (exchanges i (hist s)) (Ask req k)
  | Waiting ch k =>
      (forall req, (i, req, ch) ∈ commandCh s -> talk p0 (exchanges i (hist s)) (Ask req k)) /\
      (forall r, on_its_way s i ch r -> talk p0 (exchanges i (hist s)) (k r))
  | Finished => exists p, talk p0 (exchanges i (hist s)) p
  end.

Record tracked (s : system) : Prop := {
  tr_started : length (started s) = length (clients s);
  tr_hist : forall i req r, (i, req, r) ∈ hist s -> (i < length (clients s))%nat;
  tr_track : forall i p0 g, i <> 0%nat -> started s !! i = Some p0 -> clients s !! i = Some g -> track s i p0 g;
}.

Lemma track_mono s s' i p0 g :
  exchanges i (hist s') = exchanges i (hist s) ->
  (forall req ch, (i, req, ch) ∈ commandCh s' -> (i, req, ch) ∈ commandCh s) ->
  (forall ch r, on_its_way s' i ch r -> on_its_way s i ch r) -> track s i p0 g -> track s' i p0 g.
Proof. intros He Hq Hw. destruct g; cbn; rewrite ?He; try done. intros [H1 H2]. split; eauto. Qed.

(** One goroutine moves; nothing is served, and no other goroutine's requests change. *)
Lemma tracked_set s s' i g g0 :
  clients s !! i = Some g0 -> clients s' = <[i := g]> (clients s) -> started s' = started s -> hist s' = hist s ->
  (forall j req ch, j <> i -> (j, req, ch) ∈ commandCh s' -> (j, req, ch) ∈ commandCh s) ->
  (forall j ch r, j <> i -> on_its_way s' j ch r -> on_its_way s j ch r) ->
  (forall p0, i <> 0%nat -> track s i p0 g0 -> track s' i p0 g) -> tracked s -> tracked s'.
Proof.
  intros Hi Hc Hs Hh Hq Hw Ht [Hlen Hhist Htr]. split.
  - by rewrite Hc, Hs, length_insert.
  - rewrite Hc, Hh, length_insert. done.
  - intros j p0 gj Hj. rewrite Hc, Hs, (clients_lookup_set _ _ _ g g0 Hi). intros Hp0. case_decide as Hji.
    + intros [= <-]. subst j. apply Ht; [done|]. eauto.
    + intros Hgj. eapply (track_mono s); [by rewrite Hh|eauto..].
Qed.

(** Nobody moves and nothing is served. *)
Lemma tracked_same s s' :
  clients s' = clients s -> started s' = started s -> hist s' = hist s ->
  (forall j req ch, (j, req, ch) ∈ commandCh s' -> (j, req, ch) ∈ commandCh s) ->
  (forall j ch r, on_its_way s' j ch r -> on_its_way s j ch r) -> tracked s -> tracked s'.
Proof.
  intros Hc Hs Hh Hq Hw [Hlen Hhist Htr]. split; rewrite ?Hc, ?Hs, ?Hh; [done..|].
  intros j p0 g Hj Hp0 Hg. eapply (track_mono s); [by rewrite Hh|eauto..].
Qed.

Lemma chans_queued s i req ch : chans s -> (i, req, ch) ∈ commandCh s -> view s i = Some (ch, true).
Proof.
  intros Hc Hin. apply (ch_waiting _ _ _ _ _ Hc). left. unfold in_flight. apply elem_of_app. right.
  apply list_elem_of_fmap. by exists (i, req, ch).
Qed.

Lemma chans_on_its_way s i ch r : chans s -> on_its_way s i ch r -> view s i = Some (ch, true).
Proof.
  intros Hc [Hd|Hr]; apply (ch_waiting _ _ _ _ _ Hc).
  - left. unfold in_flight. rewrite Hd. cbn. set_solver.
  - right. by rewrite lookup_fmap, Hr.
Qed.

Lemma view_waiting s i ch : view s i = Some (ch, true) -> exists k, clients s !! i = Some (Waiting ch k).
Proof. unfold view. destruct (clients s !! i) as [[]|]; cbn; intros; simplify_eq; eauto. Qed.

Lemma tracked_accept s p : tracked s -> tracked (add_client p s).
Proof.
  intros [Hlen Hhist Htr]. split; cbn [clients started hist add_client].
  - rewrite !length_app. cbn. lia.
  - intros i req r Hin. rewrite length_app. cbn. specialize (Hhist _ _ _ Hin). lia.
  - intros i p0 g Hi Hp0 Hg. destruct (decide (i < length (clients s))%nat) as [Hlt|Hge].
    + rewrite lookup_app_l in Hp0 by lia. rewrite lookup_app_l in Hg by lia. by eapply (track_mono s); eauto.
    + rewrite lookup_app_r in Hp0 by lia. rewrite lookup_app_r in Hg by lia. rewrite Hlen in Hp0.
      destruct (i - length (clients s))%nat as [|m]; [|by destruct m]. cbn in Hp0, Hg. simplify_eq.
      cbn [track hist add_client]. rewrite exchanges_none; [constructor|]. intros req r Hin%Hhist. lia.
Qed.

(** The oldest request in the channel: its goroutine waits for it, has no other in the
    channel, and its reply channel is empty. *)
Lemma chans_head s who req ch q :
  dispatcher s = Idle -> commandCh s = (who, req, ch) :: q -> chans s ->
  (exists k, clients s !! who = Some (Waiting ch k)) /\ (forall req', (who, req', ch) ∉ q) /\ replych s !! ch = None.
Proof.
  intros Hd Hq Hc. assert ((who, req, ch) ∈ commandCh s) as Hin by (rewrite Hq; set_solver).
  split; [by eapply view_waiting, chans_queued|]. split.
  - intros req' Hin'. pose proof (ch_NoDup _ _ _ _ _ Hc) as Hnd. unfold in_flight in Hnd. rewrite Hd, Hq in Hnd. cbn in Hnd.
    apply NoDup_cons in Hnd as [Hni _]. apply Hni. apply list_elem_of_fmap. exists (who, ch). split; [done|].
    apply list_elem_of_fmap. by exists (who, req', ch).
  - pose proof (ch_one_place _ _ _ _ _ Hc ch) as Hp. rewrite lookup_fmap, fmap_None in Hp. apply Hp.
    unfold in_flight. rewrite Hq, fmap_app. cbn. set_solver.
Qed.

(** The oldest request is served: it is the one its goroutine waits for, and no other
    goroutine's exchanges change. *)
Lemma tracked_serve s who req ch q r w' :
  dispatcher s = Idle -> commandCh s = (who, req, ch) :: q -> chans s -> tracked s ->
  tracked (set_dispatcher (Replying who ch r) (set_queue q (record_served w' (who, req, r) s))).
Proof.
  intros Hd Hq Hc [Hlen Hhist Htr]. destruct (chans_head s who req ch q Hd Hq Hc) as ([k Hk] & Hone & Hempty).
  assert ((who, req, ch) ∈ commandCh s) as Hin by (rewrite Hq; set_solver).
  split; cbn; [done|..].
  - intros i req' r' [Hi|Hi]%elem_of_app; [eauto|]. apply list_elem_of_singleton in Hi. simplify_eq. by eapply lookup_lt_Some.
  - intros i p0 g Hi Hp0 Hg. specialize (Htr i p0 g Hi Hp0 Hg). destruct (decide (who = i)) as [<-|Hne].
    + rewrite Hk in Hg. injection Hg as <-. destruct Htr as [Ht _]. specialize (Ht req Hin).
      split; cbn; rewrite exchanges_snoc, decide_True by done.
      * intros req' []%Hone.
      * intros r' [[= <-]|Hr]; [by apply talk_snoc|]. cbn in Hr. congruence.
    + eapply (track_mono s); [cbn; by rewrite exchanges_snoc, decide_False by done|..|exact Htr].
      * cbn. intros req' ch'. rewrite Hq. set_solver.
      * intros ch' r' [[= ->]|Hr]; [done|by right].
Qed.

Lemma tracked_step s s' : step cfg Current s s' -> chans s -> tracked s -> tracked s'.
Proof.
  intros Hstep Hc Ht. destruct Hstep.
  all: try (eapply (tracked_set s); [exact Hi|done..| |exact Ht]; cbn; by eauto).
  all: try (eapply (tracked_same s); [done..|exact Ht]; fail).
  - by apply tracked_accept.
  - eapply (tracked_set s); [exact Hi|done|done|done|set_solver|done| |exact Ht]. intros p0 _ Htalk. split.
    + intros req' [Hin|Hin]%elem_of_app; [|set_solver]. pose proof (chans_queued _ _ _ _ Hc Hin) as Hv.
      by rewrite (view_at s i _ Hi) in Hv.
    + intros r Hr. pose proof (chans_on_its_way s i ch r Hc Hr) as Hv. by rewrite (view_at s i _ Hi) in Hv.
  - pose proof (chans_on_its_way s who ch r Hc (or_intror Hreply)) as Hv.
    assert (who = i) as -> by (eapply (ch_unique _ _ _ _ _ Hc); [exact Hv|exact (view_at s i _ Hi)]).
    eapply (tracked_set s); [exact Hi|done..| | |exact Ht].
    + intros j ch' r' _ [Hd|Hd]; [by left|]. right. cbn in Hd. by apply lookup_delete_Some in Hd as [_ ?].
    + intros p0 _ [_ Hk]. cbn. by apply Hk; right.
  - by apply tracked_serve.
  - eapply (tracked_same s); [done..| |exact Ht]. intros j ch' r' [Hd|Hd]; [done|]. cbn in Hd.
    apply lookup_insert_Some in Hd as [[<- [= <- <-]]|[_ Hd]]; [by left|by right].
  - eapply (tracked_same s); [done..| |exact Ht]. intros j ch' r' [Hd|Hd]; [done|by right].
Qed.

Lemma tracked_init w : tracked (init w).
Proof. split; cbn; [done|set_solver|]. intros i p0 g Hi. destruct i; [done|]. done. Qed.
End invariant.
