(* ===== verification/ServerRun.v ===== *)
(** * The concurrent server, executable

    [perform] runs one named step of the server, if it is enabled. It performs exactly the
    steps of [step], so a list of actions is a schedule of the server. *)

From S2P Require Import Prelude GoLib Resp Aof Sds Hll World Lru Store StoreInv Evict Slot Layout Commands Dispatch Transaction Connection Server.

Inductive action :=
  | Accept (buffered : nat -> string -> bool) (stream : string)
  | GetPooled (i n : nat)
  | GetNew (i : nat)
  | Forget (n : nat)
  | Send (i : nat)
  | Receive (i : nat)
  | Put (i : nat)
  | Return (i : nat)
  | Hangup (i : nat)
  | GoPanic (i : nat)
  | Tick
  | ExpiryReply
  | ExpiryNext
  | ExpiryCancel
  | Serve
  | Reply
  | WorkerExit
  | Cancel
  | StopAccepting
  | CloseChannel
  | Finish (failed : bool).

Definition is_Finished (g : goroutine) : bool := match g with Finished => true | _ => false end.

(** Every way an action can be enabled. *)
Ltac split_guards :=
  repeat match goal with
    | H : context [match ?x with _ => _ end] |- _ => destruct x eqn:?; try discriminate H
    end.

Section run.
Context `{!GoEnv} (cfg : Config) (Current : option Layout).

Definition get_pooled (i n : nat) (s : system) : option system :=
  match clients s !! i, i, replyChPool s !! n with
  | Some (Ready (Ask req k)), S _, Some ch => Some (set_client i (Holding ch req k) (set_chpool (delete n (replyChPool s)) s))
  | _, _, _ => None
  end.

Definition get_new (i : nat) (s : system) : option system :=
  match clients s !! i with
  | Some (Ready (Ask req k)) => Some (set_client i (Holding (next_ch s) req k) (make_ch s))
  | _ => None
  end.

Definition send (i : nat) (s : system) : option system :=
  match clients s !! i with
  | Some (Holding ch req k) =>
      if chClosed s then Some (crash_with SendOnClosed s)
      else if (length (commandCh s) <? commandCh_cap)%nat
      then Some (set_client i (Waiting ch k) (set_queue (commandCh s ++ [(i, req, ch)]) s))
      else None
  | _ => None
  end.

Definition receive (i : nat) (s : system) : option system :=
  match clients s !! i with
  | Some (Waiting ch k) =>
      match replych s !! ch with
      | Some (_, r) => Some (set_client i (Putting ch (k r)) (set_replych (delete ch (replych s)) s))
      | None => None
      end
  | _ => None
  end.

Definition put (i : nat) (s : system) : option system :=
  match clients s !! i, i with
  | Some (Putting ch p), S _ => Some (set_client i (Ready p) (set_chpool (ch :: replyChPool s) s))
  | _, _ => None
  end.

Definition leave (i : nat) (early : bool) (s : system) : option system :=
  match clients s !! i, i with
  | Some (Ready (Ret _)), S _ => Some (set_client i Finished s)
  | Some (Ready _), S _ => if early then Some (set_client i Finished s) else None
  | _, _ => None
  end.

Definition go_panic (i : nat) (s : system) : option system :=
  match clients s !! i with
  | Some (Ready (Crash p)) => Some (crash_with (Panicked p) s)
  | _ => None
  end.

Definition expiry_next (s : system) : option system :=
  match clients s !! 0%nat with
  | Some (Ready (Ret (Replied r))) =>
      Some (set_client 0 (if round_enough r then Sleeping else Ready expiry_round) s)
  | _ => None
  end.

Definition expiry_cancel (s : system) : option system :=
  match clients s !! 0%nat with
  | Some Sleeping | Some (Holding _ _ _) => if ctxDone s then Some (set_client 0 Finished s) else None
  | _ => None
  end.

Definition work (s : system) : option system :=
  match dispatcher s, commandCh s with
  | Idle, (who, req, ch) :: q =>
      match serve cfg Current req (world s) with
      | Val (r, w') => Some (set_dispatcher (Replying who ch r) (set_queue q (record_served w' (who, req, r) s)))
      | Panic p => Some (crash_with (Panicked p) s)
      end
  | _, _ => None
  end.

Definition worker_reply (s : system) : option system :=
  match dispatcher s with
  | Replying who ch r =>
      match replych s !! ch with
      | None => Some (set_dispatcher Idle (set_replych (<[ch := (who, r)]> (replych s)) s))
      | Some _ => None
      end
  | _ => None
  end.

Definition worker_exit (s : system) : option system :=
  match dispatcher s, chClosed s, commandCh s with
  | Idle, true, [] => Some (set_dispatcher Exited s)
  | _, _, _ => None
  end.

Definition perform (a : action) (s : system) : option system :=
  match crashed s with
  | Some _ => None
  | None =>
      match a with
      | Accept buffered stream =>
          match runPhase s with Accepting => Some (add_client (connection cfg Current buffered stream) s) | _ => None end
      | GetPooled i n => get_pooled i n s
      | GetNew i => get_new i s
      | Forget n => match replyChPool s !! n with Some _ => Some (set_chpool (delete n (replyChPool s)) s) | None => None end
      | Send i => send i s
      | Receive i => receive i s
      | Put i => put i s
      | Return i => leave i false s
      | Hangup i => leave i true s
      | GoPanic i => go_panic i s
      | Tick => match clients s !! 0%nat with Some Sleeping => Some (set_client 0 (Ready expiry_round) s) | _ => None end
      | ExpiryReply => match clients s !! 0%nat with Some (Putting _ p) => Some (set_client 0 (Ready p) s) | _ => None end
      | ExpiryNext => expiry_next s
      | ExpiryCancel => expiry_cancel s
      | Serve => work s
      | Reply => worker_reply s
      | WorkerExit => worker_exit s
      | Cancel => Some (cancel_ctx s)
      | StopAccepting =>
          match runPhase s with
          | Accepting => if ctxDone s then Some (set_main WaitingProducers s) else None
          | _ => None
          end
      | CloseChannel =>
          match runPhase s with
          | WaitingProducers => if forallb is_Finished (clients s) then Some (set_main Draining (close_commandCh s)) else None
          | _ => None
          end
      | Finish failed =>
          match runPhase s, dispatcher s with
          | Draining, Exited => Some (set_main Returned (sync_aof failed s))
          | _, _ => None
          end
      end
  end.

(** A schedule. *)
Fixpoint performs (l : list action) (s : system) : option system :=
  match l with
  | [] => Some s
  | a :: l => match perform a s with Some s' => performs l s' | None => None end
  end.

Lemma is_Finished_all l : forallb is_Finished l = true <-> Forall (eq Finished) l.
Proof.
  induction l as [|g l IH]; [done|]. cbn. rewrite andb_true_iff, IH, Forall_cons. destruct g; naive_solver.
Qed.

Lemma perform_sound a s s' : perform a s = Some s' -> step cfg Current s s'.
Proof.
  unfold perform. destruct (crashed s) eqn:Hcr; [done|].
  destruct a; unfold get_pooled, get_new, send, receive, put, leave, go_panic, expiry_next, expiry_cancel,
    work, worker_reply, worker_exit; intros Hs; split_guards; injection Hs as <-.
  all: try (econstructor; eauto; fail).
  - rewrite delete_take_drop. eapply step_get_pooled; eauto. symmetry. by apply take_drop_middle.
  - rewrite delete_take_drop. eapply step_forget; [done|]. symmetry. by apply take_drop_middle.
  - eapply step_send; eauto. by apply Nat.ltb_lt.
  - apply step_close; [done..|]. by apply is_Finished_all.
Qed.

Lemma perform_complete s s' : step cfg Current s s' -> exists a, perform a s = Some s'.
Proof.
  intros Hstep. unfold perform. destruct Hstep; rewrite Hcr.
  - exists (Accept buffered stream). by rewrite Hmain.
  - exists (GetPooled i (length l1)). unfold get_pooled. rewrite Hi, Hpool, list_lookup_middle, delete_middle by done.
    by destruct i.
  - exists (GetNew i). unfold get_new. by rewrite Hi.
  - exists (Forget (length l1)). by rewrite Hpool, list_lookup_middle, delete_middle.
  - exists (Send i). unfold send. rewrite Hi, Hclosed. by rewrite (proj2 (Nat.ltb_lt _ _) Hroom).
  - exists (Send i). unfold send. by rewrite Hi, Hclosed.
  - exists (Receive i). unfold receive. by rewrite Hi, Hreply.
  - exists (Put i). unfold put. rewrite Hi. by destruct i.
  - exists (Return i). unfold leave. rewrite Hi. by destruct i.
  - exists (Hangup i). unfold leave. rewrite Hi. destruct i; [done|]. by destruct p.
  - exists (GoPanic i). unfold go_panic. by rewrite Hi.
  - exists Tick. by rewrite Hi.
  - exists ExpiryReply. by rewrite Hi.
  - exists ExpiryNext. unfold expiry_next. by rewrite Hi, Henough.
  - exists ExpiryNext. unfold expiry_next. by rewrite Hi, Henough.
  - exists ExpiryCancel. unfold expiry_cancel. rewrite Hi, Hctx. by destruct Hg as [->|(ch & req & k & ->)].
  - exists Serve. unfold work. by rewrite Hdisp, Hqueue, Hserve.
  - exists Serve. unfold work. by rewrite Hdisp, Hqueue, Hserve.
  - exists Reply. unfold worker_reply. by rewrite Hdisp, Hreply.
  - exists WorkerExit. unfold worker_exit. by rewrite Hdisp, Hclosed, Hqueue.
  - by exists Cancel.
  - exists StopAccepting. by rewrite Hmain, Hctx.
  - exists CloseChannel. by rewrite Hmain, (proj2 (is_Finished_all _) Hall).
  - exists (Finish failed). by rewrite Hmain, Hdisp.
Qed.

(** The schedules from the start give exactly the reachable states. *)
Lemma performs_reachable w s : reachable_system cfg Current w s <-> exists l, performs l (init w) = Some s.
Proof.
  unfold reachable_system. split.
  - generalize (init w). induction 1 as [x|x y z Hxy _ [l Hl]]; [by exists []|].
    apply perform_complete in Hxy as [a Ha]. exists (a :: l). cbn. by rewrite Ha.
  - intros [l Hl]. revert Hl. generalize (init w). induction l as [|a l IH]; intros s0; cbn; [intros [= ->]; constructor|].
    destruct (perform a s0) as [s1|] eqn:Ha; [|done]. intros Hl. econstructor; [by eapply perform_sound|eauto].
Qed.
End run.
