(* ===== verification/ServerClaims.v ===== *)
(** * What the concurrent server promises

    Every run of the server is a run of the worker over the requests one at a time, in
    which each connection is answered its own requests in order; the reply channels are
    never mixed up; and a shutdown loses nothing that was sent. *)

From S2P Require Import Prelude GoLib Resp Aof Sds Hll World Lru Store StoreInv Evict Slot Layout Commands Dispatch DispatchClaims Transaction Connection Server ServerInv ServerRun.

Section server.
Context `{!GoEnv} (cfg : Config) (Current : option Layout).

(** ** The active-expiry goroutine *)

Definition expirer_ok (g : goroutine) : Prop :=
  match g with
  | Sleeping | Finished => True
  | Ready p => p = expiry_round \/ exists r, p = Ret (Replied r)
  | Holding _ req k => req = expiry_request /\ k = (fun r => Ret (Replied r))
  | Waiting _ k => k = (fun r => Ret (Replied r))
  | Putting _ p => exists r, p = Ret (Replied r)
  end.

Record expirer (s : system) : Prop := {
  ex_ok : exists g, clients s !! 0%nat = Some g /\ expirer_ok g;
  ex_queue : forall req ch, (0%nat, req, ch) ∈ commandCh s -> req = expiry_request;
  ex_hist : forall req r, (0%nat, req, r) ∈ hist s -> req = expiry_request;
}.

Lemma expirer_set s s' i g g0 :
  clients s !! i = Some g0 -> clients s' = <[i := g]> (clients s) -> hist s' = hist s -> commandCh s' = commandCh s ->
  (i = 0%nat -> expirer_ok g0 -> expirer_ok g) -> expirer s -> expirer s'.
Proof.
  intros Hi Hc Hh Hq Ht [(g1 & Hg1 & Hok) Hx Hy]. split; rewrite ?Hh, ?Hq; [|done..]. rewrite Hc, (clients_lookup_set _ _ _ g g0 Hi).
  case_decide as H0; [|by eauto]. subst i. rewrite Hi in Hg1. simplify_eq. eauto.
Qed.

Lemma expirer_same s s' :
  clients s' = clients s -> hist s' = hist s -> commandCh s' = commandCh s -> expirer s -> expirer s'.
Proof. intros Hc Hh Hq []. split; by rewrite ?Hc, ?Hh, ?Hq. Qed.

Lemma expirer_step s s' : step cfg Current s s' -> expirer s -> expirer s'.
Proof.
  intros Hstep He. pose proof He as [(g0 & Hg0 & Hok) Hq Hh]. destruct Hstep.
  all: try (by eapply (expirer_same s)).
  all: try (eapply (expirer_set s); [exact Hi|done..| |exact He]; naive_solver; fail).
  - split; [|exact Hq|exact Hh]. exists g0. split; [|done]. apply lookup_app_l_Some. exact Hg0.
  - eapply (expirer_set s); [exact Hi|done..| |exact He]. cbn. intros _ [[= -> ->]|[r [=]]]. done.
  - split; cbn [clients commandCh hist set_client set_queue]; [..|exact Hh].
    + rewrite (clients_lookup_set _ _ _ (Waiting ch k) _ Hi). case_decide as H0; [|by eauto]. subst i.
      rewrite Hi in Hg0. injection Hg0 as <-. destruct Hok as [_ ->]. by eexists.
    + intros req' ch' [Hin|Hin]%elem_of_app; [by eauto|]. apply list_elem_of_singleton in Hin.
      injection Hin as <- -> ->. rewrite Hi in Hg0. injection Hg0 as <-. by destruct Hok.
  - split; cbn [clients commandCh hist set_dispatcher set_queue record_served]; [by eauto|..].
    + intros req' ch' Hin. apply (Hq req' ch'). rewrite Hqueue. set_solver.
    + intros req' r' [Hin|Hin]%elem_of_app; [by eauto|]. apply list_elem_of_singleton in Hin. simplify_eq.
      apply (Hq req ch). rewrite Hqueue. set_solver.
Qed.

(** ** The invariant *)

Record run_ok (w : World) (s : system) : Prop := {
  ok_chans : chans s;
  ok_phase : phase_ok s;
  ok_tracked : tracked s;
  ok_expirer : expirer s;
  ok_served : dispatchWorker cfg Current ((fun x => x.1.2) <$> hist s) w = Val ((fun x => x.2) <$> hist s, world s);
  ok_conns : forall i p0, i <> 0%nat -> started s !! i = Some p0 ->
    exists buffered stream, p0 = connection cfg Current buffered stream;
}.

Lemma run_ok_init w : run_ok w (init w).
Proof.
  split; [apply chans_init|apply phase_init|apply tracked_init| |done|by intros [|i]].
  split; [by eexists|set_solver..].
Qed.

Lemma run_ok_step w s s' : step cfg Current s s' -> run_ok w s -> run_ok w s'.
Proof.
  intros Hstep [Hc Hp Ht He Hs Hn].
  split; [by eapply chans_step|by eapply phase_step|by eapply tracked_step|by eapply expirer_step|..].
  - destruct Hstep; try exact Hs. cbn [hist world set_dispatcher set_queue record_served]. rewrite !fmap_app.
    by eapply dispatchWorker_snoc.
  - destruct Hstep; try exact Hn. cbn [started add_client]. intros i p0 Hi [Hl|[Hge Hl]]%lookup_app_Some; [by eauto|].
    destruct (i - length (started s))%nat as [|m]; [|by destruct m]. injection Hl as <-. eauto.
Qed.

Lemma reachable_run_ok w s : reachable_system cfg Current w s -> run_ok w s.
Proof.
  revert s. apply (rtc_ind_r (R := step cfg Current) (run_ok w) (init w)); [apply run_ok_init|].
  intros x y _ Hxy Hx. by eapply run_ok_step.
Qed.

(** The conversation of a connection so far, whatever it is doing. *)
Lemma tracked_talk s i p0 g :
  chans s -> tracked s -> i <> 0%nat -> started s !! i = Some p0 -> clients s !! i = Some g ->
  exists p, talk p0 (exchanges i (hist s)) p.
Proof.
  intros Hc Ht Hi Hp0 Hg. pose proof (tr_track s Ht i p0 g Hi Hp0 Hg) as Htr. destruct g as [|p|ch req k|ch k|ch p|]; cbn in Htr; eauto; [done|].
  assert (view s i = Some (ch, true)) as Hv by exact (view_at s i _ Hg). destruct Htr as [Hq Hw].
  apply (ch_waiting _ _ _ _ _ Hc) in Hv as [Hin|Hr].
  - unfold in_flight in Hin. apply elem_of_app in Hin as [Hin|Hin].
    + destruct (dispatcher s) as [|who ch' r|] eqn:Hd; cbn in Hin; [set_solver| |set_solver].
      apply list_elem_of_singleton in Hin. simplify_eq. eexists. apply (Hw r). by left.
    + apply list_elem_of_fmap in Hin as ([[j req] ch'] & Hx & Hin). cbn in Hx. simplify_eq. eauto.
  - rewrite lookup_fmap in Hr. apply fmap_Some in Hr as ([j r] & Hr & Hj). cbn in Hj. subst j. eexists. apply (Hw r). by right.
Qed.

(** The store stays in order, since the worker alone changes it. *)
Lemma run_ok_store `{!GoEnvLaws} w s : run_ok w s -> server_ok w -> server_ok (world s).
Proof.
  intros Hr Hw. pose proof (ok_served w s Hr) as Hs. revert Hs.
  apply (dispatchWorker_keeps cfg Current server_ok); [|done].
  intros w1 cmd reply w2 Hw1 E. by eapply inv_logged_ok, (Dispatch_returns cfg Current (aof w1)); [split|].
Qed.

(** ** Claims *)

(** C3: Serializability. However the goroutines interleave, the replies given out and the
    state of the store are those of the worker serving the requests one after the other;
    each connection has exchanged exactly the requests and replies its own handler makes
    when it is given these replies, in its order; and the remaining requests are those of
    active expiry. *)
Theorem server_is_serializable (w : World) (s : system) :
  reachable_system cfg Current w s ->
  dispatchWorker cfg Current ((fun x => x.1.2) <$> hist s) w = Val ((fun x => x.2) <$> hist s, world s) /\
  (forall i p0, i <> 0%nat -> started s !! i = Some p0 ->
    (exists buffered stream, p0 = connection cfg Current buffered stream) /\
    (exists p, talk p0 (exchanges i (hist s)) p) /\
    (forall p, clients s !! i = Some (Ready p) -> talk p0 (exchanges i (hist s)) p)) /\
  (forall req r, (0%nat, req, r) ∈ hist s -> req = expiry_request).
Proof.
  intros [Hc Hp Ht He Hs Hn]%reachable_run_ok. split; [exact Hs|]. split; [|exact (ex_hist s He)].
  intros i p0 Hi Hp0. split; [by eauto|]. split.
  - apply lookup_lt_Some in Hp0 as Hlt. rewrite (tr_started s Ht) in Hlt.
    apply lookup_lt_is_Some_2 in Hlt as [g Hg]. by eapply tracked_talk.
  - intros p Hg. exact (tr_track s Ht i p0 _ Hi Hp0 Hg).
Qed.

(** C9: The protocol of the reply channels. No two goroutines ever hold the same reply
    channel, and none holds a pooled one; when the worker sends a reply the channel is
    empty, so the worker never blocks, and the goroutine that asked is waiting on it; a
    reply in a channel is received by the goroutine it is for; the command channel never
    holds more than its capacity and is never sent on after it is closed. *)
Theorem replies_reach_their_connection (w : World) (s : system) :
  reachable_system cfg Current w s ->
  (forall i j ch b b', view s i = Some (ch, b) -> view s j = Some (ch, b') -> i = j) /\
  (forall i ch b, ch ∈ replyChPool s -> view s i <> Some (ch, b)) /\
  (forall who ch r, dispatcher s = Replying who ch r ->
    replych s !! ch = None /\ exists k, clients s !! who = Some (Waiting ch k)) /\
  (forall i ch k who r, clients s !! i = Some (Waiting ch k) -> replych s !! ch = Some (who, r) -> who = i) /\
  (length (commandCh s) <= commandCh_cap)%nat /\
  crashed s <> Some SendOnClosed.
Proof.
  intros [Hc Hp Ht He Hs Hn]%reachable_run_ok. split; [exact (ch_unique _ _ _ _ _ Hc)|].
  split; [exact (ch_pool_free _ _ _ _ _ Hc)|]. split; [|split; [|split; [exact (ph_room s Hp)|exact (ph_crash s Hp)]]].
  - intros who ch r Hd. split; [|apply view_waiting; apply (chans_on_its_way s who ch r Hc); by left].
    pose proof (ch_one_place _ _ _ _ _ Hc ch) as Hone. rewrite lookup_fmap, fmap_None in Hone. apply Hone.
    unfold in_flight. rewrite Hd. cbn. set_solver.
  - intros i ch k who r Hi Hr. eapply (ch_unique _ _ _ _ _ Hc); [|exact (view_at s i _ Hi)].
    apply (chans_on_its_way s who ch r Hc). by right.
Qed.

(** C18: A clean shutdown loses nothing. When [Run] returns, every goroutine has finished,
    every request that was sent has been served and every reply received, the worker has
    left its loop, and the whole append-only file has been synced, unless [Sync] failed. *)
Theorem shutdown_loses_nothing (w : World) (s : system) :
  reachable_system cfg Current w s -> runPhase s = Returned ->
  Forall (eq Finished) (clients s) /\ commandCh s = [] /\ replych s = ∅ /\ dispatcher s = Exited /\
  (synced s = Some (Synced <$> aof (world s)) \/ synced s = Some (const SyncError <$> aof (world s))) /\ ctxDone s = true.
Proof.
  intros [Hc Hp Ht He Hs Hn]%reachable_run_ok Hm. destruct (ph_synced s Hp Hm) as [Hd [failed Hsy]].
  destruct (ph_exited s Hp Hd) as [Hcl Hq]. pose proof (ph_finished s Hp Hcl) as Hall.
  split; [done|]. split; [done|]. split; [|split; [done|split; [destruct failed; [right|left]; exact Hsy|apply (ph_done s Hp); congruence]]].
  apply map_empty. intros ch. destruct (replych s !! ch) as [[who r]|] eqn:Hr; [|done].
  destruct (view_waiting s who ch (chans_on_its_way s who ch r Hc (or_intror Hr))) as [k Hk].
  rewrite Forall_lookup in Hall. by specialize (Hall who _ Hk).
Qed.
End server.

(** ** A concrete run *)

Section witnesses.
Local Instance server_env : GoEnv := env_at (unixToInternal + 10 * Second).

Definition aof_server : World := set_aof (Some EmptyString) World_init.

(** Two connections and a round of active expiry, interleaved: while the reply to the
    first is underway the other two requests are already in the channel. *)
Definition busy_schedule : list action :=
  [Accept all_arrived (wire [("SET", ["k"; "v"])]); Accept all_arrived (wire [("GET", ["k"])]);
   GetNew 1; GetNew 2; Send 1; Tick; Send 2; GetNew 0; Serve; Send 0; Reply].

(** The rest of the run, up to the end of a clean shutdown. *)
Definition shutdown_schedule : list action :=
  [Receive 1; Put 1; Serve; Reply; Receive 2; Serve; Cancel; Reply; Put 2; Return 1; Return 2;
   Receive 0; ExpiryReply; ExpiryNext; ExpiryCancel; StopAccepting; CloseChannel; WorkerExit; Finish false].

Definition after_schedule (l : list action) : system :=
  match performs plain_config None l (init aof_server) with Some s => s | None => init aof_server end.

Lemma after_schedule_reachable l :
  match performs plain_config None l (init aof_server) with Some _ => true | None => false end = true ->
  reachable_system plain_config None aof_server (after_schedule l).
Proof.
  intros Hl. apply performs_reachable. exists l. unfold after_schedule.
  by destruct (performs plain_config None l (init aof_server)).
Qed.

Lemma busy_reachable : reachable_system plain_config None aof_server (after_schedule busy_schedule).
Proof. apply after_schedule_reachable. vm_compute. reflexivity. Qed.

Lemma shutdown_reachable :
  reachable_system plain_config None aof_server (after_schedule (busy_schedule ++ shutdown_schedule)).
Proof. apply after_schedule_reachable. vm_compute. reflexivity. Qed.

Lemma server_is_serializable_witness :
  let s := after_schedule (busy_schedule ++ shutdown_schedule) in
  dispatchWorker plain_config None ((fun x => x.1.2) <$> hist s) aof_server = Val ((fun x => x.2) <$> hist s, world s) /\
  ((fun x => x.1.1) <$> hist s) = [1%nat; 2%nat; 0%nat].
Proof.
  split.
  - apply (server_is_serializable plain_config None aof_server _ shutdown_reachable).
  - vm_compute. reflexivity.
Defined.

Lemma replies_reach_their_connection_witness :
  let s := after_schedule busy_schedule in (length (commandCh s) <= commandCh_cap)%nat /\ length (commandCh s) = 2%nat.
Proof.
  split.
  - apply (replies_reach_their_connection plain_config None aof_server _ busy_reachable).
  - vm_compute. reflexivity.
Defined.

Lemma shutdown_loses_nothing_witness :
  let s := after_schedule (busy_schedule ++ shutdown_schedule) in synced s = Some (Synced <$> aof (world s)).
Proof.
  destruct (shutdown_loses_nothing plain_config None aof_server _ shutdown_reachable) as (_ & _ & _ & _ & [Hs|Hs] & _).
  - vm_compute. reflexivity.
  - exact Hs.
  - exfalso. vm_compute in Hs. discriminate Hs.
Defined.
End witnesses.
