(* ===== verification/Sessions.v ===== *)
(** * The session of a client of the concurrent server

    Pipelining, seen by clients that share the server: each run of the concurrent server is
    a run of the worker over single commands and transactions in which every client, however
    its requests were folded into pipelines and whatever the other clients did between them,
    receives the bytes of the answers to its own commands, in its order. *)

From S2P Require Import Prelude GoLib Resp Aof Sds Hll World Lru Store StoreInv Evict Slot Layout Commands Dispatch DispatchClaims Transaction Connection Server ServerInv ServerRun ServerClaims.

Global Instance Command_eq_dec : EqDecision Command.
Proof. solve_decision. Defined.
Global Instance CommandRequest_eq_dec : EqDecision CommandRequest.
Proof. solve_decision. Defined.

Definition alone (cmd : Command) : CommandRequest := mkRequest cmd [] [].

(** ** Cutting pipelines into commands *)

(** The commands and transactions a request stands for. *)
Definition parts (req : CommandRequest) : list CommandRequest :=
  match batch req, pipeline req with
  | [], _ :: _ => alone <$> pipeline req
  | _, _ => [req]
  end.

(** The exchange [e] cut into the exchanges [l] of its parts. *)
Definition cut (e : CommandRequest * string) (l : list (CommandRequest * string)) : Prop :=
  l.*1 = parts e.1 /\ e.2 = concat_all l.*2.

Inductive cuts : list (CommandRequest * string) -> list (CommandRequest * string) -> Prop :=
  | cuts_nil : cuts [] []
  | cuts_cons e l es ls : cut e l -> cuts es ls -> cuts (e :: es) (l ++ ls).

(** The same for the exchanges of all goroutines. *)
Definition by_client (i : nat) (l : list (CommandRequest * string)) : list (nat * CommandRequest * string) :=
  (fun e => (i, e.1, e.2)) <$> l.

Inductive hist_cuts : list (nat * CommandRequest * string) -> list (nat * CommandRequest * string) -> Prop :=
  | hist_cuts_nil : hist_cuts [] []
  | hist_cuts_cons i req r l h f : cut (req, r) l -> hist_cuts h f -> hist_cuts ((i, req, r) :: h) (by_client i l ++ f).

Lemma exchanges_by_client i j l f :
  exchanges i (by_client j l ++ f) = if decide (j = i) then l ++ exchanges i f else exchanges i f.
Proof.
  unfold by_client. induction l as [|[req r] l IH]; [by case_decide|]. rewrite fmap_cons. cbn [app].
  unfold exchanges in *. rewrite filter_cons. cbn. case_decide; [|done]. rewrite fmap_cons, IH. done.
Qed.

Lemma exchanges_cons i j req r h :
  exchanges i ((j, req, r) :: h) = if decide (j = i) then (req, r) :: exchanges i h else exchanges i h.
Proof. exact (exchanges_by_client i j [(req, r)] h). Qed.

Lemma hist_cuts_exchanges i h f : hist_cuts h f -> cuts (exchanges i h) (exchanges i f).
Proof.
  induction 1 as [|j req r l h f Hc _ IH]; [constructor|]. rewrite exchanges_by_client, exchanges_cons.
  case_decide; [by constructor|done].
Qed.

(** A transaction or a single command. *)
Definition not_pipelined (req : CommandRequest) : Prop := batch req <> [] \/ pipeline req = [].

Lemma parts_not_pipelined req : Forall not_pipelined (parts req).
Proof.
  unfold parts, not_pipelined. destruct req as [cmd [|b bs] [|p ps]]; cbn [batch pipeline].
  2: { apply Forall_fmap, Forall_true. intros c. by right. }
  all: constructor; [|done]; cbn; auto.
Qed.

Lemma hist_cuts_not_pipelined h f : hist_cuts h f -> Forall (fun x => not_pipelined x.1.2) f.
Proof.
  induction 1 as [|i req r l h f [Hl _] _ IH]; [done|]. apply Forall_app. split; [|done].
  unfold by_client. apply Forall_fmap. pose proof (parts_not_pipelined req) as Hp. cbn [fst] in Hl.
  rewrite <-Hl in Hp. exact (proj1 (Forall_fmap _ _ _) Hp).
Qed.

Section worker.
Context `{GoEnv} (cfg : Config) (Current : option Layout).

Lemma dispatchWorker_app reqs1 reqs2 w :
  dispatchWorker cfg Current (reqs1 ++ reqs2) w
  = match dispatchWorker cfg Current reqs1 w with
    | Val (rs1, w1) =>
        match dispatchWorker cfg Current reqs2 w1 with Val (rs2, w2) => Val (rs1 ++ rs2, w2) | Panic p => Panic p end
    | Panic p => Panic p
    end.
Proof.
  revert w. induction reqs1 as [|req reqs1 IH]; intros w; cbn [app dispatchWorker].
  - unfold mret, GoM_ret. by destruct (dispatchWorker cfg Current reqs2 w) as [[rs2 w2]|].
  - unfold mbind, GoM_bind, mret, GoM_ret. destruct (serve cfg Current req w) as [[r w1]|]; [|done]. rewrite IH.
    destruct (dispatchWorker cfg Current reqs1 w1) as [[rs1 w2]|]; [|done].
    by destruct (dispatchWorker cfg Current reqs2 w2) as [[rs2 w3]|].
Qed.

Lemma dispatchWorker_alone cmds w : dispatchWorker cfg Current (alone <$> cmds) w = dispatch_each cfg Current cmds w.
Proof.
  revert w. induction cmds as [|cmd cmds IH]; intros w; [done|]. rewrite fmap_cons. cbn [dispatchWorker dispatch_each].
  unfold mbind, GoM_bind. change (serve cfg Current (alone cmd) w) with (Dispatch cfg Current cmd w).
  destruct (Dispatch cfg Current cmd w) as [[r w1]|]; [|done]. by rewrite IH.
Qed.

Lemma dispatch_each_length cmds w rs w' : dispatch_each cfg Current cmds w = Val (rs, w') -> length rs = length cmds.
Proof.
  revert w rs. induction cmds as [|cmd cmds IH]; intros w rs; cbn [dispatch_each]; [by intros [= <- <-]|].
  unfold mbind, GoM_bind. destruct (Dispatch cfg Current cmd w) as [[r w1]|]; [|done].
  destruct (dispatch_each cfg Current cmds w1) as [[rs' w2]|] eqn:E; [|done]. intros [= <- <-]. cbn. f_equal. by eapply IH.
Qed.

(** Serving a request is serving its parts one after the other. *)
Lemma serve_parts req w r w' :
  serve cfg Current req w = Val (r, w') ->
  exists rs, dispatchWorker cfg Current (parts req) w = Val (rs, w') /\ r = concat_all rs /\ length rs = length (parts req).
Proof.
  destruct req as [cmd [|b bs] [|p ps]]; unfold parts; cbn [batch pipeline].
  2: { rewrite dispatchWorker_alone, length_fmap. unfold serve, DispatchPipeline. cbn [batch pipeline].
       unfold mbind at 1, GoM_bind at 1. destruct (dispatch_each cfg Current (p :: ps) w) as [[rs w1]|] eqn:E; [|done].
       intros [= <- <-]. exists rs. split; [done|]. split; [done|]. by eapply dispatch_each_length. }
  all: intros Hs; exists [r]; cbn [dispatchWorker]; unfold mbind, GoM_bind; rewrite Hs;
    split; [done|]; split; [|done]; cbn [concat_all]; by rewrite append_nil_r.
Qed.

(** A run of the worker, cut into commands and transactions. *)
Lemma dispatchWorker_cuts h w w' :
  dispatchWorker cfg Current ((fun x => x.1.2) <$> h) w = Val ((fun x => x.2) <$> h, w') ->
  exists f, hist_cuts h f /\ dispatchWorker cfg Current ((fun x => x.1.2) <$> f) w = Val ((fun x => x.2) <$> f, w').
Proof.
  revert w. induction h as [|[[i req] r] h IH]; intros w.
  - intros Hw. exists []. split; [constructor|exact Hw].
  - rewrite !fmap_cons. cbn [dispatchWorker fst snd]. unfold mbind, GoM_bind.
    destruct (serve cfg Current req w) as [[r' w1]|] eqn:E1; [|done].
    destruct (dispatchWorker cfg Current _ w1) as [[rs w2]|] eqn:E2; [|done]. intros [= -> -> <-].
    destruct (IH w1 E2) as (f & Hf & Ef). apply serve_parts in E1 as (rs & Ep & Hr & Hlen).
    exists (by_client i (zip (parts req) rs) ++ f). split.
    + constructor; [|done]. split; cbn [fst snd]; [by rewrite fst_zip by lia|by rewrite snd_zip by lia].
    + rewrite !fmap_app. unfold by_client. rewrite <-!list_fmap_compose. cbn [fst snd compose].
      change (dispatchWorker cfg Current ((zip (parts req) rs).*1 ++ ((fun x => x.1.2) <$> f)) w
              = Val ((zip (parts req) rs).*2 ++ ((fun x => x.2) <$> f), w2)).
      rewrite fst_zip, snd_zip, dispatchWorker_app, Ep, Ef by lia. done.
Qed.
End worker.

(** ** The session a client has *)

Section session.
Context `{GoEnv} (cfg : Config) (Current : option Layout).

(** What a client that sends [cmds] is answered, if the exchanges its commands have with the
    worker are exactly [l]: a command outside MULTI is one exchange, EXEC is one exchange
    for the queued commands, and the transaction state answers the others itself. *)
Fixpoint session (t : txState) (cmds : list Command) (l : list (CommandRequest * string)) : option (txState * list string) :=
  match cmds with
  | [] => match l with [] => Some (t, []) | _ => None end
  | cmd :: cmds =>
      let '(t, (action, txReply, b)) := handle cfg Current t cmd in
      let answer (r : string) l := '(t', rs) ← session t cmds l; Some (t', r :: rs) in
      let by_worker req :=
        match l with
        | (req', r) :: l => if decide (req' = req) then answer r l else None
        | [] => None
        end in
      match action with
      | actionReply => answer txReply l
      | actionPassthrough => by_worker (alone cmd)
      | actionExec => by_worker (mkRequest noCommand b [])
      end
  end.

(** The connection has written [E] and is in state [t] with [cmds] still to come; the
    exchanges [l] bring it to [p]. They are the session of some of the commands, and of all
    of them if the connection is closed, which has then sent all the replies. *)
Definition said (E : string) (t : txState) (cmds : list Command) (l : list (CommandRequest * string))
    (p : prog (conn * bool)) : Prop :=
  exists n t' rs, session t (take n cmds) l = Some (t', rs) /\
    match p with
    | Ask _ _ => True
    | Crash _ => False
    | Ret (c, closed) =>
        (length cmds <= n)%nat /\ closed = true /\ tx c = t' /\ rest c = EmptyString /\
        out c = mkWriter (E +++ concat_all rs) EmptyString
    end.

Lemma said_asking E t cmds req k : said E t cmds [] (Ask req k).
Proof. by exists 0%nat, t, []. Qed.

(** From the session of the later commands, that of a command and them. *)
Lemma said_answer E t t' r cmd cmds l l' p :
  (forall cmds t'' rs, session t' cmds l = Some (t'', rs) -> session t (cmd :: cmds) l' = Some (t'', r :: rs)) ->
  said (E +++ r) t' cmds l p -> said E t (cmd :: cmds) l' p.
Proof.
  intros Hs (n & t'' & rs & Hl & Hp). exists (S n), t'', (r :: rs). split; [by apply Hs|].
  destruct p as [[c closed]| |]; [|done..]. destruct Hp as (Hn & Hc & Ht & Hr & Ho). split_and!; try done; [cbn; lia|].
  rewrite Ho. cbn [concat_all]. by rewrite append_assoc'.
Qed.

Lemma said_reply E t t' cmd cmds r b l p :
  handle cfg Current t cmd = (t', (actionReply, r, b)) -> said (E +++ r) t' cmds l p -> said E t (cmd :: cmds) l p.
Proof. intros Hh. apply said_answer. intros cmds' t'' rs Hs. cbn [session]. rewrite Hh. cbn. by rewrite Hs. Qed.

Lemma said_exec E t t' cmd cmds x b r l p :
  handle cfg Current t cmd = (t', (actionExec, x, b)) -> said (E +++ r) t' cmds l p ->
  said E t (cmd :: cmds) ((mkRequest noCommand b [], r) :: l) p.
Proof.
  intros Hh. apply said_answer. intros cmds' t'' rs Hs. cbn [session]. rewrite Hh. cbn. rewrite decide_True by done.
  by rewrite Hs.
Qed.

Lemma said_pass E t t' cmd cmds x b r l p :
  handle cfg Current t cmd = (t', (actionPassthrough, x, b)) -> said (E +++ r) t' cmds l p ->
  said E t (cmd :: cmds) ((alone cmd, r) :: l) p.
Proof.
  intros Hh. apply said_answer. intros cmds' t'' rs Hs. cbn [session]. rewrite Hh. cbn. rewrite decide_True by done.
  by rewrite Hs.
Qed.

(** The commands [pipe] go to the worker one by one, and take the state from [t] to [t']. *)
Fixpoint passes (t : txState) (pipe : list Command) (t' : txState) : Prop :=
  match pipe with
  | [] => t = t'
  | cmd :: pipe => exists t1 x b, handle cfg Current t cmd = (t1, (actionPassthrough, x, b)) /\ passes t1 pipe t'
  end.

Lemma passes_snoc t pipe t1 cmd t2 x b :
  passes t pipe t1 -> handle cfg Current t1 cmd = (t2, (actionPassthrough, x, b)) -> passes t (pipe ++ [cmd]) t2.
Proof.
  revert t. induction pipe as [|cmd' pipe IH]; intros t; cbn [passes app].
  - intros -> Hh. by eexists _, _, _.
  - intros (t0 & x0 & b0 & Hh0 & Hp) Hh. eexists _, _, _. split; [exact Hh0|]. by apply IH.
Qed.

Lemma said_passes E t pipe t' cmds l1 l p :
  passes t pipe t' -> l1.*1 = alone <$> pipe -> said (E +++ concat_all l1.*2) t' cmds l p ->
  said E t (pipe ++ cmds) (l1 ++ l) p.
Proof.
  revert E t l1. induction pipe as [|cmd pipe IH]; intros E t [|[req r] l1]; try done; cbn [passes app].
  - intros -> _. cbn. by rewrite append_nil_r.
  - intros (t1 & x & b & Hh & Hp). rewrite !fmap_cons. intros [= -> Hl] Hs. eapply said_pass; [exact Hh|].
    apply IH; [done|done|]. cbn [concat_all snd] in Hs. by rewrite append_assoc'.
Qed.
End session.

(** ** The goroutine of a connection *)

Lemma talk_Ask {A} req (k : string -> prog A) l p :
  talk (Ask req k) l p -> (l = [] /\ p = Ask req k) \/ exists r l', l = (req, r) :: l' /\ talk (k r) l' p.
Proof. inversion 1; subst; [by left|right; by eexists _, _]. Qed.

(** What a goroutine does with its result does not show before. *)
Lemma talk_then {A B} (m : prog A) (f : A -> prog B) l p :
  (forall a, exists b, f a = Ret b) -> talk (m ≫= f) l p -> exists q, talk m l q /\ p = q ≫= f.
Proof.
  intros Hf. revert l. induction m as [a|req k IH|x]; intros l.
  - destruct (Hf a) as [b Hb]. cbn. rewrite Hb. intros Ht. inversion Ht; subst. exists (Ret a). split; [constructor|done].
  - intros [[-> ->]|(r & l' & -> & Ht)]%talk_Ask.
    + exists (Ask req k). split; [constructor|done].
    + apply IH in Ht as (q & Hq & ->). exists q. split; [by constructor|done].
  - intros Ht. inversion Ht; subst. exists (Crash x). split; [constructor|done].
Qed.

Lemma cuts_cons_inv e es f : cuts (e :: es) f -> exists l ls, f = l ++ ls /\ cut e l /\ cuts es ls.
Proof. inversion 1; subst. by eexists _, _. Qed.

Lemma cut_alone req r l : parts req = [req] -> cut (req, r) l -> l = [(req, r)].
Proof.
  intros Hp [Hl Hr]. cbn [fst snd] in *. rewrite Hp in Hl. destruct l as [|[req' r'] [|]]; try done.
  cbn in Hl, Hr. rewrite append_nil_r in Hr. by simplify_eq.
Qed.

Section connection.
Context `{GoEnv} (cfg : Config) (Current : option Layout) (buffered : nat -> string -> bool).
Context (buffered_end : forall n, buffered n EmptyString = false).

Local Notation said := (said cfg Current).
Local Notation passes := (passes cfg Current).
Local Notation conn_loop := (conn_loop (M := prog) cfg Current buffered).
Local Notation pipelineLoop := (pipelineLoop (M := prog) cfg Current buffered).
Local Notation flush_if_idle := (flush_if_idle buffered).

(** The loop of the connection, started where requests [reqs] are still to come. *)
Definition loop_said (reqs : list request) : Prop := forall fuel c l p f,
  (length reqs < fuel)%nat -> rest c = wire reqs -> (reqs = [] -> wbuf (out c) = EmptyString) ->
  talk (conn_loop fuel c) l p -> cuts l f ->
  said (emitted (out c)) (tx c) (command_of <$> reqs) f p.

(** The pipeline loop with [pipe] collected, followed by the rest of the connection. *)
Definition after_pipeline (fuel' : nat) (x : conn * bool) : prog (conn * bool) :=
  let '(c, open) := x in if (open : bool) then conn_loop fuel' (flush_if_idle c) else mret (c, true).

Definition pipeline_said (reqs : list request) : Prop := forall fuel fuel' pipe c t l p f,
  pipe <> [] -> (length reqs < fuel)%nat -> (length reqs < fuel')%nat -> rest c = wire reqs -> passes t pipe (tx c) ->
  talk (pipelineLoop fuel pipe c ≫= after_pipeline fuel') l p -> cuts l f ->
  said (emitted (out c)) t (pipe ++ (command_of <$> reqs)) f p.

(** After a reply was written, the loop goes on. *)
Lemma loop_said_reply reqs fuel c r l p f :
  loop_said reqs -> (length reqs < fuel)%nat -> rest c = wire reqs ->
  talk (conn_loop fuel (flush_if_idle (set_out c (bufio_Write (out c) r)))) l p -> cuts l f ->
  said (emitted (out c) +++ r) (tx c) (command_of <$> reqs) f p.
Proof.
  intros Hok Hf Hr Ht Hc. set (c1 := set_out c (bufio_Write (out c) r)) in *.
  destruct (flush_if_idle_spec buffered buffered_end c1) as (Hr1 & Ht1 & He1 & Hw1).
  assert (emitted (out c) +++ r = emitted (out (flush_if_idle c1))) as ->.
  { rewrite He1. symmetry. apply emitted_Write. }
  replace (tx c) with (tx (flush_if_idle c1)) by (rewrite Ht1; done).
  eapply Hok; [done|by rewrite Hr1| |done|done]. intros ->. by apply Hw1.
Qed.

Lemma loop_said_nil : loop_said [].
Proof.
  intros fuel c l p f Hf Hr Hw. destruct fuel as [|fuel]; [cbn in Hf; lia|]. cbn [Connection.conn_loop]. rewrite Hr.
  change (Decoder_Decode (wire []) (scr c)) with (@DErr value ErrEOF). intros Ht. inversion Ht; subst. intros Hc.
  inversion Hc; subst. exists 0%nat, (tx c), []. split; [done|]. split_and!; try done.
  specialize (Hw eq_refl). unfold emitted. destruct (out c) as [s b]. cbn in *. subst b. by rewrite !append_nil_r.
Qed.

(** [dispatchPipeline] on a nonempty pipeline, then [K]. *)
Lemma said_pipeline t pipe c (K : conn -> prog (conn * bool)) cmds l p f :
  pipe <> [] -> passes t pipe (tx c) -> talk (c ← dispatchPipeline pipe c; K c) l p -> cuts l f ->
  (forall r l' f', talk (K (set_out c (bufio_Write (out c) r))) l' p -> cuts l' f' ->
    said (emitted (out c) +++ r) (tx c) cmds f' p) ->
  said (emitted (out c)) t (pipe ++ cmds) f p.
Proof.
  intros Hne Hp Ht Hc HK.
  assert (exists req, parts req = alone <$> pipe /\
    (c ← dispatchPipeline pipe c; K c) = Ask req (fun r => K (set_out c (bufio_Write (out c) r)))) as (req & Hreq & Heq)
    by (destruct pipe as [|cmd [|c0 pipe]]; [done|exists (alone cmd)|exists (mkRequest noCommand [] (cmd :: c0 :: pipe))]; by split).
  rewrite Heq in Ht. apply talk_Ask in Ht as [[-> ->]|(r & l' & -> & Ht)].
  - inversion Hc; subst. apply said_asking.
  - apply cuts_cons_inv in Hc as (l1 & f' & -> & [Hl1 Hr] & Hc). cbn [fst snd] in *. subst r.
    eapply said_passes; [exact Hp|by rewrite Hl1|]. by eapply HK.
Qed.

(** A request that is answered on its own: by the transaction state, or by EXEC. *)
Lemma said_action t cmd action txReply b c fuel reqs l p f :
  action <> actionPassthrough -> handle cfg Current t cmd = (tx c, (action, txReply, b)) ->
  loop_said reqs -> (length reqs < fuel)%nat -> rest c = wire reqs ->
  talk (c ← handleAction action txReply b c; conn_loop fuel (flush_if_idle c)) l p -> cuts l f ->
  said (emitted (out c)) t (cmd :: (command_of <$> reqs)) f p.
Proof.
  intros Ha Hh Hok Hf Hr Ht Hc. destruct action; [done|..].
  - eapply said_reply; [exact Hh|]. by eapply loop_said_reply.
  - apply talk_Ask in Ht as [[-> ->]|(r & l' & -> & Ht)].
    + inversion Hc; subst. apply said_asking.
    + apply cuts_cons_inv in Hc as (l1 & f' & -> & Hcut & Hc).
      apply cut_alone in Hcut as ->; [|by unfold parts; destruct b]. eapply said_exec; [exact Hh|]. by eapply loop_said_reply.
Qed.

Lemma dispatchPipeline_bind {A B} pipe c (k : conn -> prog A) (g : A -> prog B) :
  ((c ← dispatchPipeline pipe c; k c) ≫= g) = (c ← dispatchPipeline pipe c; (k c ≫= g)).
Proof. by destruct pipe as [|cmd [|]]. Qed.

(** One round of the loop, from the rounds after it. *)
Lemma loop_said_step (r : request) reqs :
  sendable (r.1 :: r.2) -> loop_said reqs -> pipeline_said reqs -> loop_said (r :: reqs).
Proof.
  intros Hs Hl Hp fuel c l p f Hf Hr _. destruct fuel as [|fuel]; [lia|]. cbn [length] in Hf. rewrite fmap_cons.
  destruct (decode_request r (wire reqs) (scr c) Hs) as (rd & Ed & Hin).
  cbn [Connection.conn_loop]. rewrite Hr, wire_cons, Ed, parse_request. cbn [tx set_reader].
  destruct (handle cfg Current (tx c) (command_of r)) as [t [[action txReply] b]] eqn:Eh.
  set (c1 := set_tx (set_reader c rd) t). assert (rest c1 = wire reqs) as Hr1 by done.
  pose proof (wire_length reqs) as Hlen. rewrite <-Hr1 in Hlen. intros Ht Hc. destruct action.
  - apply (Hp (S (String.length (rest c1))) fuel [command_of r] c1 (tx c) l p f); [done|lia|lia|done| |exact Ht|done].
    by eexists _, _, _.
  - eapply (said_action (tx c) _ actionReply txReply b c1 fuel); [done|exact Eh|done|lia|done|exact Ht|done].
  - eapply (said_action (tx c) _ actionExec txReply b c1 fuel); [done|exact Eh|done|lia|done|exact Ht|done].
Qed.

(** The pipeline ends because nothing more has arrived. *)
Lemma pipeline_said_idle reqs fuel fuel' pipe c t l p f :
  loop_said reqs -> pipe <> [] -> (length reqs < fuel')%nat -> rest c = wire reqs -> passes t pipe (tx c) ->
  buffered (asks c) (rest c) = false ->
  talk (pipelineLoop (S fuel) pipe c ≫= after_pipeline fuel') l p -> cuts l f ->
  said (emitted (out c)) t (pipe ++ (command_of <$> reqs)) f p.
Proof.
  intros Hl Hne Hf Hr Hp Hb. cbn [Connection.pipelineLoop]. rewrite Hb, dispatchPipeline_bind. intros Ht Hc.
  eapply (said_pipeline t pipe (asked c)); [done|done|exact Ht|done|]. intros r l' f' Ht' Hc'.
  exact (loop_said_reply reqs fuel' (asked c) r l' p f' Hl Hf Hr Ht' Hc').
Qed.

(** The pipeline ends at a request that is answered on its own. *)
Lemma pipeline_said_broken cmd reqs fuel' pipe c t t1 action txReply b l p f :
  loop_said reqs -> pipe <> [] -> (length reqs < fuel')%nat -> rest c = wire reqs -> passes t pipe t1 ->
  handle cfg Current t1 cmd = (tx c, (action, txReply, b)) -> action <> actionPassthrough ->
  talk (c ← dispatchPipeline pipe c; c ← handleAction action txReply b c; conn_loop fuel' (flush_if_idle c)) l p ->
  cuts l f -> said (emitted (out c)) t (pipe ++ cmd :: (command_of <$> reqs)) f p.
Proof.
  intros Hl Hne Hf Hr Hp Hh Ha Ht Hc.
  pose proof (said_pipeline t pipe (set_tx c t1)
    (fun d => c ← handleAction action txReply b (set_tx d (tx c)); conn_loop fuel' (flush_if_idle c))
    (cmd :: (command_of <$> reqs)) l p f Hne Hp) as Hsp. apply Hsp; clear Hsp; [|done|].
  - by destruct c, pipe as [|cmd1 [|]].
  - intros r l' f' Ht' Hc'. cbn [out set_tx tx]. rewrite <-emitted_Write.
    exact (said_action t1 cmd action txReply b (set_out c (bufio_Write (out c) r)) fuel' reqs l' p f' Ha Hh Hl Hf Hr Ht' Hc').
Qed.

(** One round of the pipeline loop, from the rounds after it. *)
Lemma pipeline_said_step (r : request) reqs :
  sendable (r.1 :: r.2) -> loop_said (r :: reqs) -> loop_said reqs -> pipeline_said reqs -> pipeline_said (r :: reqs).
Proof.
  intros Hs Hl Hl' Hp fuel fuel' pipe c t l p f Hne Hf Hf' Hr Hpass.
  destruct fuel as [|fuel]; [lia|]. destruct (buffered (asks c) (rest c)) eqn:Hb; [|by eapply pipeline_said_idle].
  cbn [length] in Hf, Hf'. rewrite fmap_cons.
  destruct (decode_request r (wire reqs) (scr c) Hs) as (rd & Ed & Hin).
  cbn [Connection.pipelineLoop]. rewrite Hb. cbn [rest asked scr tx]. rewrite Hr, wire_cons, Ed, parse_request.
  cbn [tx set_reader asked].
  destruct (handle cfg Current (tx c) (command_of r)) as [t1 [[action txReply] b]] eqn:Eh.
  set (c1 := set_tx (set_reader (asked c) rd) t1). assert (rest c1 = wire reqs) as Hr1 by done.
  assert (action = actionPassthrough \/ action <> actionPassthrough) as [->|Ha] by (destruct action; [by left|by right..]).
  - intros Ht Hc. rewrite cons_middle, app_assoc.
    eapply (Hp fuel fuel' (pipe ++ [command_of r]) c1); [by destruct pipe|lia|lia|done| |exact Ht|done].
    by eapply passes_snoc.
  - intros Ht Hc. eapply (pipeline_said_broken (command_of r) reqs fuel' pipe c1 t (tx c)); [done|done|lia|done|done|exact Eh|done| |done].
    destruct action; [done|..]; rewrite dispatchPipeline_bind in Ht; exact Ht.
Qed.

Lemma connection_said reqs : Forall (fun r => sendable (r.1 :: r.2)) reqs -> loop_said reqs /\ pipeline_said reqs.
Proof.
  induction 1 as [|r reqs Hs _ [IHl IHp]].
  - split; [exact loop_said_nil|]. intros fuel fuel' pipe c t l p f Hne Hf Hf' Hr Hp. destruct fuel as [|fuel]; [lia|].
    apply pipeline_said_idle; try done; [exact loop_said_nil|]. rewrite Hr. apply buffered_end.
  - pose proof (loop_said_step r reqs Hs IHl IHp). split; [done|]. by apply pipeline_said_step.
Qed.

(** What a connection has exchanged, cut into commands and transactions, is the session of
    the client. *)
Lemma handleConnection_said reqs l p f :
  Forall (fun r => sendable (r.1 :: r.2)) reqs ->
  talk (handleConnection (M := prog) cfg Current buffered (wire reqs)) l p -> cuts l f ->
  said EmptyString newTxState (command_of <$> reqs) f p.
Proof.
  intros Hs Ht Hc. destruct (connection_said reqs Hs) as [Hl _]. pose proof (wire_length reqs) as Hlen.
  exact (Hl (S (String.length (wire reqs))) (mkConn (wire reqs) EmptyString newTxState (mkWriter EmptyString EmptyString) 0)
    l p f ltac:(lia) eq_refl (fun _ => eq_refl) Ht Hc).
Qed.
End connection.

(** ** Claims *)

Section clients.
Context `{!GoEnv} (cfg : Config) (Current : option Layout).

(** What a connection has exchanged, and where that has brought it. *)
Lemma reachable_talk w s i p0 :
  reachable_system cfg Current w s -> i <> 0%nat -> started s !! i = Some p0 ->
  exists p, talk p0 (exchanges i (hist s)) p /\ forall q, clients s !! i = Some (Ready q) -> q = p.
Proof.
  intros [Hc Hp Ht He Hs Hn]%reachable_run_ok Hi Hp0. apply lookup_lt_Some in Hp0 as Hlt.
  rewrite (tr_started s Ht) in Hlt. apply lookup_lt_is_Some_2 in Hlt as [g Hg].
  destruct (tracked_talk s i p0 g Hc Ht Hi Hp0 Hg) as [p Hp'].
  destruct g as [|q|ch req k|ch k|ch q|]; try (exists p; split; [done|intros q' Hq; congruence]).
  exists q. split; [exact (tr_track s Ht i p0 _ Hi Hp0 Hg)|]. intros q' Hq. congruence.
Qed.

(** C2: A client sees its own commands answered, whatever the others do. In every state of
    the concurrent server, the requests served so far, with pipelines cut into their
    commands, are single commands and transactions that the worker runs one after the
    other with the same replies and the same effect. Among them, those of a client that
    sent well-formed requests are, in its order, the ones its commands make when they are
    handled one at a time (queued between MULTI and EXEC, answered by the transaction
    state or passed on), however the network cut its stream and whatever other clients
    were served in between. When the connection ends, the client has been sent exactly the
    replies to all its commands; its handler never panics. *)
Theorem clients_see_their_own_session (w : World) (s : system) :
  reachable_system cfg Current w s ->
  exists f, hist_cuts (hist s) f /\ Forall (fun x => not_pipelined x.1.2) f /\
    dispatchWorker cfg Current ((fun x => x.1.2) <$> f) w = Val ((fun x => x.2) <$> f, world s) /\
    forall i buffered reqs, i <> 0%nat -> started s !! i = Some (connection cfg Current buffered (wire reqs)) ->
      (forall n, buffered n EmptyString = false) -> Forall (fun r => sendable (r.1 :: r.2)) reqs ->
      exists n t rs, session cfg Current newTxState (command_of <$> take n reqs) (exchanges i f) = Some (t, rs) /\
        (forall e, clients s !! i = Some (Ready (Ret e)) ->
          take n reqs = reqs /\ exists c, e = Closed c true /\ rest c = EmptyString /\
            out c = mkWriter (concat_all rs) EmptyString) /\
        (forall x, clients s !! i <> Some (Ready (Crash x))).
Proof.
  intros Hr. destruct (dispatchWorker_cuts cfg Current _ _ _ (ok_served _ _ _ _ (reachable_run_ok _ _ _ _ Hr))) as (f & Hf & Hw).
  exists f. split; [done|]. split; [by eapply hist_cuts_not_pipelined|]. split; [done|].
  intros i buffered reqs Hi Hst Hb Hs. destruct (reachable_talk w s i _ Hr Hi Hst) as (p & Ht & Hp).
  apply talk_then in Ht as (q & Hq & ->); [|intros [c closed]; by eexists].
  pose proof (handleConnection_said cfg Current buffered Hb reqs _ _ _ Hs Hq (hist_cuts_exchanges i _ _ Hf)) as (n & t & rs & Hl & Hend).
  exists n, t, rs. rewrite fmap_take. split; [done|]. split.
  - intros e He%Hp. destruct q as [[c closed]| |]; [|done..]. injection He as ->.
    destruct Hend as (Hn & -> & _ & Hrest & Hout). rewrite length_fmap in Hn. split; [by apply take_ge|]. by exists c.
  - intros x Hx%Hp. by destruct q as [[c closed]| |].
Qed.
End clients.

(** How a goroutine started is never forgotten. *)
Lemma performs_started `{!GoEnv} cfg Current l s1 s :
  performs cfg Current l s1 = Some s -> started s1 `prefix_of` started s.
Proof.
  revert s1. induction l as [|b l IH]; intros s1; cbn [performs]; [by intros [= <-]|].
  destruct (perform cfg Current b s1) as [s2|] eqn:Hb; [|done]. intros Hs. etrans; [|by apply IH].
  apply perform_sound in Hb. destruct Hb; try done. by eexists.
Qed.

Lemma accepted_started `{!GoEnv} cfg Current buffered stream l s0 s :
  performs cfg Current (Accept buffered stream :: l) s0 = Some s ->
  started s !! length (started s0) = Some (connection cfg Current buffered stream).
Proof.
  cbn [performs]. destruct (perform cfg Current (Accept buffered stream) s0) as [s1|] eqn:Ha; [|done].
  unfold perform in Ha. destruct (crashed s0); [done|]. destruct (runPhase s0); try done. injection Ha as <-. intros Hs.
  apply performs_started in Hs. eapply prefix_lookup_Some; [|exact Hs]. by apply list_lookup_middle.
Qed.

(** ** A concrete run *)

Section witnesses.
Local Existing Instance server_env.

(** A client whose whole stream has arrived, so that its first two commands make one
    pipeline, and one that is read a command at a time. *)
Definition eager_client : list request :=
  [("SET", ["k"; "1"]); ("INCR", ["k"]); ("MULTI", []); ("INCR", ["k"]); ("GET", ["k"]); ("EXEC", [])].
Definition slow_client : list request := [("INCR", ["k"]); ("GET", ["k"])].
Definition nothing_arrived (n : nat) (stream : string) : bool := false.

(** The slow client's INCR is served between the eager client's pipeline and its
    transaction; its GET is not yet served when the eager client's connection ends. *)
Definition talking_schedule : list action :=
  [Accept all_arrived (wire eager_client); Accept nothing_arrived (wire slow_client);
   GetNew 1; Send 1; GetNew 2; Send 2; Serve; Reply; Receive 1; Serve; Put 1; GetPooled 1 0; Reply; Send 1;
   Receive 2; Put 2; GetPooled 2 0; Serve; Send 2; Reply; Receive 1; Put 1].

Lemma talking_runs : match performs plain_config None talking_schedule (init aof_server) with Some _ => true | None => false end = true.
Proof. vm_compute. reflexivity. Qed.

Lemma talking_reachable : reachable_system plain_config None aof_server (after_schedule talking_schedule).
Proof. exact (after_schedule_reachable talking_schedule talking_runs). Qed.

Lemma talking_started :
  started (after_schedule talking_schedule) !! 1%nat = Some (connection plain_config None all_arrived (wire eager_client)).
Proof.
  unfold after_schedule. pose proof talking_runs as Hrun.
  destruct (performs plain_config None talking_schedule (init aof_server)) as [s|] eqn:Hs; [|done].
  exact (accepted_started plain_config None all_arrived (wire eager_client) (tail talking_schedule) (init aof_server) s Hs).
Qed.

Lemma eager_sendable : Forall (fun r => sendable (r.1 :: r.2)) eager_client.
Proof. repeat constructor; unfold small; done. Qed.

(** All that the eager client is sent. *)
Definition eager_bytes : string :=
  EncodeSimpleString "OK" +++ EncodeInteger 2 +++ EncodeSimpleString "OK" +++ EncodeSimpleString "QUEUED"
  +++ EncodeSimpleString "QUEUED" +++ "*2" +++ CRLF +++ EncodeInteger 4 +++ EncodeBulkString "4".

Lemma eager_client_done : exists c,
  clients (after_schedule talking_schedule) !! 1%nat = Some (Ready (Ret (Closed c true))) /\ sent (out c) = eager_bytes.
Proof. vm_compute. eexists. split; reflexivity. Qed.

Lemma clients_see_their_own_session_witness :
  exists f rs, hist_cuts (hist (after_schedule talking_schedule)) f /\
    option_map snd (session plain_config None newTxState (command_of <$> eager_client) (exchanges 1 f)) = Some rs /\
    concat_all rs = eager_bytes.
Proof.
  destruct (clients_see_their_own_session plain_config None aof_server _ talking_reachable) as (f & Hf & _ & _ & Hs).
  destruct (Hs 1%nat all_arrived eager_client ltac:(done) talking_started ltac:(done) eager_sendable)
    as (n & t & rs & Hrs & Hend & _).
  destruct eager_client_done as (c & Hc & Hb). destruct (Hend _ Hc) as (Hn & c' & [= <-] & _ & Hout).
  exists f, rs. split; [exact Hf|]. rewrite Hn in Hrs. rewrite Hrs. split; [reflexivity|]. rewrite Hout in Hb. exact Hb.
Defined.
End witnesses.
