(* ===== verification/Linearizable.v ===== *)
(** * Linearizability

    What clients observe of the concurrent server is a history: requests go into the command
    channel and replies come out of the reply channels, those of different goroutines
    interleaved. Every such history is linearizable with respect to the abstract keyspace:
    each request takes effect at once, at some point between the two. *)

From S2P Require Import Prelude GoLib Resp Aof Sds HllSparse HllDense Hll World Lru Store StoreInv Evict Slot Layout Commands CommandClaims Dispatch DispatchClaims Keyspace Transaction Connection Server ServerInv ServerRun ServerClaims.

(** ** Histories *)

Inductive event := Invoke (i : nat) (req : CommandRequest) | Respond (i : nat) (r : string).

(** The requests goroutine [i] has made, and the replies it has received. *)
Definition invocations (i : nat) : list event -> list CommandRequest :=
  omap (fun e => match e with Invoke j req => if decide (j = i) then Some req else None | Respond _ _ => None end).
Definition responses (i : nat) : list event -> list string :=
  omap (fun e => match e with Respond j r => if decide (j = i) then Some r else None | Invoke _ _ => None end).

(** The [n]-th request of [i] was answered before the [m]-th of [j] was made. *)
Definition precedes (h : list event) (i n j m : nat) : Prop :=
  exists h1 h2, h = h1 ++ h2 /\ (n < length (responses i h1))%nat /\ (length (invocations j h1) <= m)%nat.

(** The [n]-th request of [i] is at position [p] of [order]. *)
Definition placed (order : list (nat * CommandRequest * string)) (i n p : nat) : Prop :=
  (exists req r, order !! p = Some (i, req, r)) /\ length (exchanges i (take p order)) = n.

(** A sequential object: how one request changes its state and is answered. *)
Inductive sequential {St} (step : St -> CommandRequest -> string -> St -> Prop) :
    St -> list (nat * CommandRequest * string) -> St -> Prop :=
  | sequential_nil x : sequential step x [] x
  | sequential_cons x i req r y order z :
      step x req r y -> sequential step y order z -> sequential step x ((i, req, r) :: order) z.

(** The history [h] is linearizable: its requests, put in some order, are a sequential run
    of the object from [x] to [y] with the same replies. Of every goroutine, those ordered
    are the first of its requests, in its order, at least all that were answered, and at
    most one request is unanswered; and a request that was answered before another one was
    made comes before it. *)
Definition linearizable {St} (step : St -> CommandRequest -> string -> St -> Prop) (x : St) (h : list event) (y : St) : Prop :=
  exists order, sequential step x order y /\
    (forall i, (exchanges i order).*1 `prefix_of` invocations i h /\ responses i h `prefix_of` (exchanges i order).*2 /\
       (length (invocations i h) <= S (length (responses i h)))%nat) /\
    (forall i n j m p q, precedes h i n j m -> placed order i n p -> placed order j m q -> (p < q)%nat).

Lemma sequential_snoc {St} (step : St -> CommandRequest -> string -> St -> Prop) x order y i req r z :
  sequential step x order y -> step y req r z -> sequential step x (order ++ [(i, req, r)]) z.
Proof. induction 1; intros Hs; cbn; econstructor; eauto. constructor. Qed.

(** ** What is observed of a run *)

Section observed.
Context `{!GoEnv} (cfg : Config) (Current : option Layout).

(** A request is made when it is sent, and answered when the reply is received. *)
Definition events_of (a : action) (s : system) : list event :=
  match a with
  | Send i =>
      match clients s !! i with
      | Some (Holding ch req k) => if chClosed s then [] else [Invoke i req]
      | _ => []
      end
  | Receive i =>
      match clients s !! i with
      | Some (Waiting ch k) => match replych s !! ch with Some (_, r) => [Respond i r] | None => [] end
      | _ => []
      end
  | _ => []
  end.

Inductive observed (w : World) : list event -> system -> Prop :=
  | observed_init : observed w [] (init w)
  | observed_step h s a s' :
      observed w h s -> perform cfg Current a s = Some s' -> observed w (h ++ events_of a s) s'.

Lemma observed_reachable w h s : observed w h s -> reachable_system cfg Current w s.
Proof.
  induction 1 as [|h s a s' _ IH Ha]; [constructor|]. eapply rtc_r; [exact IH|]. by eapply perform_sound.
Qed.

Lemma events_of_short a s : (length (events_of a s) <= 1)%nat.
Proof. destruct a; cbn; try lia; repeat case_match; cbn; lia. Qed.

Lemma invocations_app i h1 h2 : invocations i (h1 ++ h2) = invocations i h1 ++ invocations i h2.
Proof. apply omap_app. Qed.
Lemma responses_app i h1 h2 : responses i (h1 ++ h2) = responses i h1 ++ responses i h2.
Proof. apply omap_app. Qed.

(** ** History and record agree *)

(** The reply channel goroutine [i] waits on. *)
Definition waits (s : system) (i : nat) : option nat :=
  match clients s !! i with Some (Waiting ch _) => Some ch | _ => None end.

(** The requests made by [i] are those served and perhaps one in the channel; the replies
    to those served are those received and perhaps one on its way. *)
Definition in_step (h : list event) (s : system) (i : nat) : Prop :=
  let l := exchanges i (hist s) in
  match waits s i with
  | Some ch =>
      (forall req, (i, req, ch) ∈ commandCh s -> invocations i h = l.*1 ++ [req] /\ responses i h = l.*2) /\
      (forall r, on_its_way s i ch r -> invocations i h = l.*1 /\ l.*2 = responses i h ++ [r])
  | None => invocations i h = l.*1 /\ responses i h = l.*2
  end.

Lemma in_step_mono h h' s s' i :
  invocations i h' = invocations i h -> responses i h' = responses i h -> waits s' i = waits s i ->
  exchanges i (hist s') = exchanges i (hist s) ->
  (forall req ch, (i, req, ch) ∈ commandCh s' -> (i, req, ch) ∈ commandCh s) ->
  (forall ch r, on_its_way s' i ch r -> on_its_way s i ch r) -> in_step h s i -> in_step h' s' i.
Proof.
  intros Hi Hr Hw He Hq Ho. unfold in_step. rewrite Hi, Hr, Hw, He. destruct (waits s i); [|done].
  intros [H1 H2]. split; eauto.
Qed.

(** A goroutine moves and neither waits nor waited. *)
Lemma waits_set s s' i g g0 :
  clients s !! i = Some g0 -> clients s' = <[i := g]> (clients s) ->
  (forall ch k, g0 <> Waiting ch k) -> (forall ch k, g <> Waiting ch k) -> forall j, waits s' j = waits s j.
Proof.
  intros Hi Hs H0 Hg j. unfold waits. rewrite Hs, (clients_lookup_set _ _ _ g g0 Hi). case_decide as Hj; [|done]. subst j.
  rewrite Hi. destruct g, g0; try done; exfalso; first [by eapply Hg|by eapply H0].
Qed.

(** The actions in which requests and replies change hands; in the others nothing that the
    history is about changes. *)
Definition exchanging (a : action) : bool :=
  match a with Send _ | Receive _ | Serve | Reply => true | _ => false end.

Lemma quiet_action a s s' :
  perform cfg Current a s = Some s' -> exchanging a = false ->
  hist s' = hist s /\ commandCh s' = commandCh s /\ (forall j ch r, on_its_way s' j ch r -> on_its_way s j ch r) /\
  (forall j, waits s' j = waits s j).
Proof.
  unfold perform. destruct (crashed s) eqn:Hcr; [done|].
  destruct a; unfold get_pooled, get_new, put, leave, go_panic, expiry_next, expiry_cancel, worker_exit;
    intros Hs Ha; try discriminate Ha; split_guards; injection Hs as <-; (split; [done|split; [done|split]]).
  all: try (intros j ch' r' [Hd|Hd]; [by left|by right]).
  all: try (by intros j).
  all: try (eapply (waits_set s); [eassumption|reflexivity|done|done]).
  - intros j. unfold waits. cbn. destruct (decide (j < length (clients s))%nat); [by rewrite lookup_app_l|].
    rewrite (lookup_ge_None_2 (clients s)) by lia. rewrite lookup_app_r by lia.
    destruct (j - length (clients s))%nat as [|m]; [done|]. by destruct m.
Qed.

Lemma events_other i j : i <> j ->
  (forall h req, invocations i (h ++ [Invoke j req]) = invocations i h /\ responses i (h ++ [Invoke j req]) = responses i h) /\
  (forall h r, invocations i (h ++ [Respond j r]) = invocations i h /\ responses i (h ++ [Respond j r]) = responses i h).
Proof.
  intros Hij. split; intros h x; rewrite invocations_app, responses_app; cbn; rewrite ?decide_False, !app_nil_r by done; done.
Qed.

Lemma in_step_send h s i ch req k :
  chans s -> clients s !! i = Some (Holding ch req k) -> (forall j, in_step h s j) ->
  forall j, in_step (h ++ [Invoke i req]) (set_client i (Waiting ch k) (set_queue (commandCh s ++ [(i, req, ch)]) s)) j.
Proof.
  intros Hc Hi Ha j. specialize (Ha j). destruct (decide (j = i)) as [->|Hj].
  - unfold in_step, waits in *. cbn. rewrite Hi in Ha. destruct Ha as [Hinv Hres].
    rewrite (clients_lookup_set _ _ _ (Waiting ch k) _ Hi), decide_True by done.
    rewrite invocations_app, responses_app, Hinv, Hres. cbn. rewrite decide_True, app_nil_r by done. split.
    + intros req' [Hin|Hin]%elem_of_app; [|by apply list_elem_of_singleton in Hin; simplify_eq].
      pose proof (chans_queued _ _ _ _ Hc Hin) as Hv. by rewrite (view_at s i _ Hi) in Hv.
    + intros r Hr. pose proof (chans_on_its_way s i ch r Hc Hr) as Hv. by rewrite (view_at s i _ Hi) in Hv.
  - destruct (events_other j i Hj) as [Hother _]. destruct (Hother h req) as [Hinv Hres].
    revert Ha. apply in_step_mono; [done|done| |done|set_solver|done].
    unfold waits. cbn. by rewrite (clients_lookup_set _ _ _ (Waiting ch k) _ Hi), decide_False.
Qed.

Lemma in_step_receive h s i ch k who r :
  chans s -> clients s !! i = Some (Waiting ch k) -> replych s !! ch = Some (who, r) -> (forall j, in_step h s j) ->
  forall j, in_step (h ++ [Respond i r]) (set_client i (Putting ch (k r)) (set_replych (delete ch (replych s)) s)) j.
Proof.
  intros Hc Hi Hr Ha j. specialize (Ha j).
  pose proof (chans_on_its_way s who ch r Hc (or_intror Hr)) as Hv.
  assert (who = i) as -> by (eapply (ch_unique _ _ _ _ _ Hc); [exact Hv|exact (view_at s i _ Hi)]).
  destruct (decide (j = i)) as [->|Hj].
  - unfold in_step, waits in *. cbn [clients hist set_client set_replych]. rewrite Hi in Ha. destruct Ha as [_ Ha]. destruct (Ha r (or_intror Hr)) as [Hinv Hres].
    rewrite (clients_lookup_set _ _ _ (Putting ch (k r)) _ Hi), decide_True by done.
    rewrite invocations_app, responses_app, Hinv, Hres. cbn. rewrite decide_True by done. by rewrite app_nil_r.
  - destruct (events_other j i Hj) as [_ Hother]. destruct (Hother h r) as [Hinv Hres].
    revert Ha. apply in_step_mono; [done|done| |done|done|].
    + unfold waits. cbn. by rewrite (clients_lookup_set _ _ _ (Putting ch (k r)) _ Hi), decide_False.
    + intros ch' r' [Hd|Hd]; [by left|]. right. cbn in Hd. by apply lookup_delete_Some in Hd as [_ ?].
Qed.

Lemma in_step_serve h s who req ch q r w' :
  chans s -> dispatcher s = Idle -> commandCh s = (who, req, ch) :: q -> (forall j, in_step h s j) ->
  forall j, in_step h (set_dispatcher (Replying who ch r) (set_queue q (record_served w' (who, req, r) s))) j.
Proof.
  intros Hc Hd Hq Ha j. specialize (Ha j). destruct (chans_head s who req ch q Hd Hq Hc) as ([k Hk] & Hone & Hempty).
  destruct (decide (who = j)) as [<-|Hj].
  - unfold in_step, waits in *. cbn. rewrite Hk in *. rewrite exchanges_snoc, decide_True by done. rewrite !fmap_app.
    destruct Ha as [Ha _]. destruct (Ha req) as [Hinv Hres]; [rewrite Hq; set_solver|]. split; [by intros req' ?%Hone|].
    intros r' [[= <-]|Hr']; [by rewrite Hinv, Hres|]. cbn in Hr'. congruence.
  - revert Ha. apply in_step_mono; [done|done|done|cbn; by rewrite exchanges_snoc, decide_False|..].
    + cbn. intros req' ch'. rewrite Hq. set_solver.
    + intros ch' r' [[= ->]|Hr]; [done|by right].
Qed.

Lemma in_step_reply h s who ch r :
  dispatcher s = Replying who ch r -> (forall j, in_step h s j) ->
  forall j, in_step h (set_dispatcher Idle (set_replych (<[ch := (who, r)]> (replych s)) s)) j.
Proof.
  intros Hd Ha j. generalize (Ha j). apply in_step_mono; try done. intros ch' r' [Hx|Hx]; [done|]. cbn in Hx.
  apply lookup_insert_Some in Hx as [[<- [= <- <-]]|[_ Hx]]; [by left|by right].
Qed.

Lemma in_step_step h s a s' :
  chans s -> perform cfg Current a s = Some s' -> (forall j, in_step h s j) -> forall j, in_step (h ++ events_of a s) s' j.
Proof.
  intros Hc Hs Ha j. destruct (exchanging a) eqn:Hx.
  - unfold perform in Hs. destruct (crashed s) eqn:Hcr; [done|]. destruct a; try done; cbn [events_of].
    + unfold send in Hs. split_guards; injection Hs as <-; [rewrite app_nil_r; exact (Ha j)|by apply in_step_send].
    + unfold receive in Hs. split_guards. injection Hs as <-. by eapply in_step_receive.
    + rewrite app_nil_r. unfold work in Hs. split_guards; injection Hs as <-; [by apply in_step_serve|exact (Ha j)].
    + rewrite app_nil_r. unfold worker_reply in Hs. split_guards. injection Hs as <-. by eapply in_step_reply.
  - destruct (quiet_action a s s' Hs Hx) as (Hh & Hq & Hw & Hwait).
    assert (events_of a s = []) as -> by (by destruct a). rewrite app_nil_r.
    generalize (Ha j). apply in_step_mono; [done|done|done|by rewrite Hh|by rewrite Hq|by eauto].
Qed.

Lemma observed_in_step w h s : observed w h s -> forall i, in_step h s i.
Proof.
  induction 1 as [|h s a s' Ho IH Ha].
  - intros i. unfold in_step, waits. cbn. by destruct i as [|[|i]].
  - apply in_step_step; [|done|done]. exact (ok_chans _ _ _ _ (reachable_run_ok _ _ _ _ (observed_reachable _ _ _ Ho))).
Qed.

(** What that means for the order of the requests of one goroutine. *)
Lemma observed_exchanges w h s i :
  observed w h s ->
  (exchanges i (hist s)).*1 `prefix_of` invocations i h /\ responses i h `prefix_of` (exchanges i (hist s)).*2 /\
  (length (invocations i h) <= S (length (responses i h)))%nat.
Proof.
  intros Ho. pose proof (observed_in_step w h s Ho i) as Ha. unfold in_step in Ha.
  pose proof (ok_chans _ _ _ _ (reachable_run_ok _ _ _ _ (observed_reachable _ _ _ Ho))) as Hc.
  assert (length (exchanges i (hist s)).*1 = length (exchanges i (hist s)).*2) as Hlen by (by rewrite !length_fmap).
  destruct (waits s i) as [ch|] eqn:Hw.
  - unfold waits in Hw. destruct (clients s !! i) as [[]|] eqn:Hi; try done. injection Hw as ->.
    destruct Ha as [Hq Hr]. pose proof (proj1 (ch_waiting _ _ _ _ _ Hc i ch) (view_at s i _ Hi)) as [Hin|Hin].
    + unfold in_flight in Hin. apply elem_of_app in Hin as [Hin|Hin].
      * destruct (dispatcher s) as [|who ch' r|] eqn:Hd; cbn in Hin; try set_solver. apply list_elem_of_singleton in Hin. simplify_eq.
        destruct (Hr r (or_introl Hd)) as [Hinv Hres]. rewrite Hinv, Hlen, Hres, length_app. cbn.
        split; [done|]. split; [by apply prefix_app_r|lia].
      * apply list_elem_of_fmap in Hin as ([[i' req] ch'] & [= -> ->] & Hin). cbn in *.
        destruct (Hq req Hin) as [Hinv Hres]. rewrite Hinv, Hres, length_app, Hlen. cbn. split; [by apply prefix_app_r|]. split; [done|lia].
    + rewrite lookup_fmap in Hin. apply fmap_Some in Hin as ([i' r] & Hin & [= ->]). cbn in *.
      destruct (Hr r (or_intror Hin)) as [Hinv Hres]. rewrite Hinv, Hlen, Hres, length_app. cbn.
      split; [done|]. split; [by apply prefix_app_r|lia].
  - destruct Ha as [-> ->]. rewrite Hlen. split; [done|]. split; [done|lia].
Qed.

(** ** Real time *)

Lemma perform_hist a s s' : perform cfg Current a s = Some s' -> hist s `prefix_of` hist s'.
Proof.
  intros Hs. destruct (exchanging a) eqn:Hx.
  - unfold perform in Hs. destruct (crashed s); [done|]. destruct a; try done;
      unfold send, receive, work, worker_reply in Hs; split_guards; injection Hs as <-; cbn; try done. by apply prefix_app_r.
  - by destruct (quiet_action a s s' Hs Hx) as [-> _].
Qed.

(** Every part of the history was observed at some point of the run. *)
Lemma observed_prefix w h s h1 h2 :
  observed w h s -> h = h1 ++ h2 -> exists s1, observed w h1 s1 /\ hist s1 `prefix_of` hist s.
Proof.
  intros Ho. revert h1 h2. induction Ho as [|h s a s' Ho IH Ha]; intros h1 h2 Hh.
  - apply eq_sym, app_nil in Hh as [-> ->]. exists (init w). split; [constructor|done].
  - destruct h2 as [|e h2 _] using rev_ind.
    { rewrite app_nil_r in Hh. subst h1. exists s'. split; [by econstructor|done]. }
    pose proof (events_of_short a s) as Hlen. rewrite app_assoc in Hh.
    assert (exists h2', h = h1 ++ h2') as [h2' Hh2].
    { destruct (events_of a s) as [|e' [|]]; [|apply app_inj_tail in Hh as [-> _]; by eexists|cbn in Hlen; lia].
      rewrite app_nil_r in Hh. rewrite <-app_assoc in Hh. by eexists. }
    destruct (IH h1 h2' Hh2) as (s1 & Hs1 & Hpre). exists s1. split; [done|]. etrans; [exact Hpre|]. by eapply perform_hist.
Qed.

Lemma exchanges_app i l1 l2 : exchanges i (l1 ++ l2) = exchanges i l1 ++ exchanges i l2.
Proof. unfold exchanges. by rewrite filter_app, fmap_app. Qed.

Lemma exchanges_prefix i l1 l2 : l1 `prefix_of` l2 -> (length (exchanges i l1) <= length (exchanges i l2))%nat.
Proof. intros [l ->]. rewrite exchanges_app, length_app. lia. Qed.

(** A request is answered after it was served, and made before. *)
Lemma placed_before w s i n p h1 s1 :
  observed w h1 s1 -> hist s1 `prefix_of` hist s -> (n < length (responses i h1))%nat -> placed (hist s) i n p ->
  (p < length (hist s1))%nat.
Proof.
  intros Ho [l Hl] Hn [_ Hp]. destruct (observed_exchanges w h1 s1 i Ho) as (_ & Hpre%prefix_length & _).
  rewrite length_fmap in Hpre. destruct (decide (p < length (hist s1))%nat) as [|Hge]; [done|]. exfalso.
  assert (hist s1 `prefix_of` take p (hist s)) as Ht.
  { rewrite Hl, take_app_ge by lia. by apply prefix_app_r. }
  apply (exchanges_prefix i) in Ht. lia.
Qed.

Lemma placed_after w s j m q h1 s1 :
  observed w h1 s1 -> hist s1 `prefix_of` hist s -> (length (invocations j h1) <= m)%nat -> placed (hist s) j m q ->
  (length (hist s1) <= q)%nat.
Proof.
  intros Ho [l Hl] Hm [(req & r & Hq) Hp]. destruct (observed_exchanges w h1 s1 j Ho) as (Hpre%prefix_length & _ & _).
  rewrite length_fmap in Hpre. destruct (decide (length (hist s1) <= q)%nat) as [|Hlt]; [done|]. exfalso.
  assert (take (S q) (hist s) `prefix_of` hist s1) as Ht.
  { rewrite Hl, take_app_le by lia. apply prefix_take. }
  apply (exchanges_prefix j) in Ht. rewrite (take_S_r _ _ _ Hq), exchanges_snoc, decide_True in Ht by done.
  rewrite length_app in Ht. cbn in Ht. lia.
Qed.

(** Whatever sequential object the recorded requests are a run of, the history is
    linearizable with respect to it. *)
Lemma observed_linearizable {St} (obj : St -> CommandRequest -> string -> St -> Prop) w h s x y :
  observed w h s -> sequential obj x (hist s) y -> linearizable obj x h y.
Proof.
  intros Ho Hseq. exists (hist s). split; [done|]. split; [intros i; by eapply observed_exchanges|].
  intros i n j m p q (h1 & h2 & Hh & Hn & Hm) Hp Hq. destruct (observed_prefix w h s h1 h2 Ho Hh) as (s1 & Hs1 & Hpre).
  pose proof (placed_before w s i n p h1 s1 Hs1 Hpre Hn Hp). pose proof (placed_after w s j m q h1 s1 Hs1 Hpre Hm Hq). lia.
Qed.

(** ** The keyspace as an object *)

Context `{!GoEnvLaws}.

(** One command: as specified, on a keyspace that may have lost keys if memory is limited
    and the command may grow the store. *)
Definition k_answers (cmd : Command) (K : keyspace) (r : string) (K' : keyspace) : Prop :=
  exists over, (over = true -> 0 < MaxMemory cfg /\ is_in (cmdName cmd) denyOOMCommands = true) /\
    limited cfg over (spec_dispatch Current cmd) K r K'.

Inductive k_each : keyspace -> list Command -> list string -> keyspace -> Prop :=
  | k_each_nil K : k_each K [] [] K
  | k_each_cons K cmd r K1 cmds rs K2 : k_answers cmd K r K1 -> k_each K1 cmds rs K2 -> k_each K (cmd :: cmds) (r :: rs) K2.

(** One request: a transaction, a pipeline or a single command. *)
Definition k_serve (K : keyspace) (req : CommandRequest) (r : string) (K' : keyspace) : Prop :=
  match batch req with
  | _ :: _ =>
      match checkClusterBatch Current (batch req) with
      | Some err => r = err /\ K' = K
      | None => exists rs, k_each K (batch req) rs K' /\ r = EncodeRawArray rs
      end
  | [] =>
      match pipeline req with
      | _ :: _ => exists rs, k_each K (pipeline req) rs K' /\ r = concat_all rs
      | [] => k_answers (req_cmd req) K r K'
      end
  end.

Definition commands_of (req : CommandRequest) : list Command :=
  match batch req with
  | _ :: _ => batch req
  | [] => match pipeline req with _ :: _ => pipeline req | [] => [req_cmd req] end
  end.

(** A server in order whose keys have no deadlines. *)
Definition undated (w : World) : Prop := server_ok w /\ all_persistent w.

Lemma Dispatch_answers w cmd r w' :
  cluster_ready cfg Current -> undated w -> lasting cmd -> Dispatch cfg Current cmd w = Val (r, w') ->
  undated w' /\ k_answers cmd (contents w) r (contents w').
Proof.
  intros Hready [Hw Hp] Hl E. destruct (Dispatch_refines cfg Current w cmd r w' Hready Hw Hp Hl E) as [Hp' Hlim].
  pose proof (Dispatch_returns cfg Current (aof w) w cmd r w' (conj Hw eq_refl) E) as Hw'%inv_logged_ok.
  split; [by split|]. exists (tight cfg Current w cmd). split; [|done]. unfold tight, over_limit.
  intros [[[Hd Hm%Z.ltb_lt]%andb_true_iff _]%andb_true_iff _]%andb_true_iff. done.
Qed.

Lemma dispatch_each_answers cmds w rs w' :
  cluster_ready cfg Current -> undated w -> Forall lasting cmds -> dispatch_each cfg Current cmds w = Val (rs, w') ->
  undated w' /\ k_each (contents w) cmds rs (contents w').
Proof.
  intros Hready Hw Hl. revert w rs Hw. induction Hl as [|cmd cmds Hc Hcs IH]; intros w rs Hw; cbn [dispatch_each].
  - intros [= <- <-]. split; [done|constructor].
  - unfold mbind, GoM_bind. destruct (Dispatch cfg Current cmd w) as [[r w1]|] eqn:E1; [|done].
    destruct (dispatch_each cfg Current cmds w1) as [[rs1 w2]|] eqn:E2; [|done]. intros [= <- <-].
    destruct (Dispatch_answers w cmd r w1 Hready Hw Hc E1) as [Hw1 H1]. destruct (IH w1 rs1 Hw1 E2) as [Hw2 H2].
    split; [done|]. by econstructor.
Qed.

Lemma serve_answers w req r w' :
  cluster_ready cfg Current -> undated w -> Forall lasting (commands_of req) -> serve cfg Current req w = Val (r, w') ->
  undated w' /\ k_serve (contents w) req r (contents w').
Proof.
  intros Hready Hw. unfold commands_of, serve, k_serve. destruct (batch req) as [|c cs].
  - destruct (pipeline req) as [|c cs].
    + intros [Hl _]%Forall_cons E. by apply Dispatch_answers.
    + intros Hl. unfold DispatchPipeline, mbind, GoM_bind.
      destruct (dispatch_each cfg Current (c :: cs) w) as [[rs w1]|] eqn:E1; [|done]. intros [= <- <-].
      destruct (dispatch_each_answers (c :: cs) w rs w1 Hready Hw Hl E1) as [Hw1 H1]. split; [done|]. by exists rs.
  - intros Hl. unfold DispatchBatch. destruct (checkClusterBatch _ _); [by intros [= <- <-]|]. unfold mbind, GoM_bind.
    destruct (dispatch_each cfg Current (c :: cs) w) as [[rs w1]|] eqn:E1; [|done]. intros [= <- <-].
    destruct (dispatch_each_answers (c :: cs) w rs w1 Hready Hw Hl E1) as [Hw1 H1]. split; [done|]. by exists rs.
Qed.

Lemma dispatchWorker_sequential l w w' :
  cluster_ready cfg Current -> undated w -> Forall (fun x => Forall lasting (commands_of x.1.2)) l ->
  dispatchWorker cfg Current ((fun x => x.1.2) <$> l) w = Val ((fun x => x.2) <$> l, w') ->
  undated w' /\ sequential k_serve (contents w) l (contents w').
Proof.
  intros Hready Hw Hl. revert w Hw. induction Hl as [|[[i req] r] l Hreq Hl IH]; intros w Hw; cbn [fmap list_fmap dispatchWorker].
  - intros [= <-]. split; [done|constructor].
  - cbn in *. unfold mbind, GoM_bind. destruct (serve cfg Current req w) as [[r' w1]|] eqn:E1; [|done].
    destruct (dispatchWorker cfg Current _ w1) as [[rs w2]|] eqn:E2; [|done]. intros [= -> -> <-].
    destruct (serve_answers w req r w1 Hready Hw Hreq E1) as [Hw1 H1]. destruct (IH w1 Hw1 E2) as [Hw2 H2].
    split; [done|]. by econstructor.
Qed.

Lemma served_invoked w h s i req r : observed w h s -> (i, req, r) ∈ hist s -> Invoke i req ∈ h.
Proof.
  intros Ho Hin. destruct (observed_exchanges w h s i Ho) as ([l Hl] & _).
  assert (req ∈ invocations i h) as Hreq.
  { rewrite Hl. apply elem_of_app. left. unfold exchanges. apply list_elem_of_fmap. exists (req, r). split; [done|].
    apply list_elem_of_fmap. exists (i, req, r). split; [done|]. by apply list_elem_of_filter. }
  unfold invocations in Hreq. apply list_elem_of_omap in Hreq as ([j req'|j r'] & He & Hj); [|done].
  case_decide; [|done]. by simplify_eq.
Qed.

(** The server is linearizable. Whatever connections there are and however their
    goroutines, the worker, active expiry, eviction and a shutdown interleave, the history
    of requests sent and replies received is linearizable with respect to the abstract
    keyspace, which is left as the store shows it: every request, be it a command, a
    transaction or a pipeline, takes effect at one moment between being sent and being
    answered. This holds of every run in which no key is given a deadline. *)
Theorem server_is_linearizable (w : World) (h : list event) (s : system) :
  cluster_ready cfg Current -> undated w -> observed w h s ->
  (forall i req, Invoke i req ∈ h -> Forall lasting (commands_of req)) ->
  linearizable k_serve (contents w) h (contents (world s)).
Proof.
  intros Hready Hw Ho Hl. pose proof (ok_served _ _ _ _ (reachable_run_ok _ _ _ _ (observed_reachable _ _ _ Ho))) as Hs.
  apply dispatchWorker_sequential in Hs as [_ Hseq]; [by eapply observed_linearizable|done|done|].
  apply Forall_forall. intros [[i req] r] Hin. eapply Hl. by eapply served_invoked.
Qed.

(** *** The history of a schedule *)

Fixpoint history (l : list action) (s : system) : list event :=
  match l with
  | [] => []
  | a :: l => events_of a s ++ match perform cfg Current a s with Some s' => history l s' | None => [] end
  end.

Lemma performs_observed w l s0 s h0 :
  observed w h0 s0 -> performs cfg Current l s0 = Some s -> observed w (h0 ++ history l s0) s.
Proof.
  revert s0 h0. induction l as [|a l IH]; intros s0 h0 Ho; cbn [performs history].
  - intros [= <-]. by rewrite app_nil_r.
  - destruct (perform cfg Current a s0) as [s1|] eqn:Ha; [|done]. intros Hs. rewrite app_assoc. apply IH; [|done].
    by econstructor.
Qed.

(** Where a schedule ends, if it can be performed. *)
Definition after (l : list action) (w : World) : system :=
  match performs cfg Current l (init w) with Some s => s | None => init w end.

Lemma schedule_observed l w :
  match performs cfg Current l (init w) with Some _ => true | None => false end = true ->
  observed w (history l (init w)) (after l w).
Proof.
  intros Hl. apply (performs_observed w l (init w) _ []); [constructor|]. unfold after.
  by destruct (performs cfg Current l (init w)).
Qed.
End observed.
