(* ===== verification/Shutdown.v ===== *)
(** * The server comes to rest

    The server's own steps, which are all but the arrival of connections, the ticks of the
    expiry timer, the cancellation and the forgetting of pooled channels, cannot go on
    forever, and after the cancellation they are possible until [Run] has returned. *)

From Stdlib Require Import Relation_Operators Lexicographic_Product Inverse_Image.
From S2P Require Import Prelude GoLib Resp Aof Sds Hll World Lru Store StoreInv StoreSpec Evict Slot Layout Commands Dispatch DispatchClaims Transaction Connection Server ServerInv ServerRun ServerClaims.

(** ** Rounds of active expiry *)

Section expiry.
Context `{!GoEnv} `{!GoEnvLaws} (cfg : Config) (Current : option Layout).

Lemma expire_loop_bound keys c d w r w' :
  expire_loop keys c d w = Val (r, w') -> d <= r <= d + Z.max 0 (20 - c).
Proof.
  revert c d w. induction keys as [|k keys IH]; intros c d w; cbn [expire_loop]; [intros [= <- _]; lia|].
  destruct (Z.leb_spec 20 c); [intros [= <- _]; lia|]. unfold mbind, GoM_bind.
  destruct (lookup_key k w) as [[[e|] w1]|]; [|intros E%IH; lia|done].
  destruct (IsZero (expiresAt e)); [intros E%IH; lia|].
  destruct (isExpired e w1) as [[[] w2]|]; [|intros E%IH; lia|done].
  destruct (removeKey k w2) as [[[] w3]|]; [intros E%IH; lia|done].
Qed.

(** A round that asks for another one has removed five keys or more. *)
Lemma expiry_served w r w' :
  server_ok w -> serve cfg Current expiry_request w = Val (r, w') ->
  (size (dataOf w') <= size (dataOf w))%nat /\
  (round_enough r = false -> (size (dataOf w') + 5 <= size (dataOf w))%nat).
Proof.
  intros [Hs _]. unfold serve, expiry_request. cbn [batch pipeline req_cmd].
  unfold Dispatch. cbn [cmdName Args].
  change (assoc "_EXPIRY" (commands cfg Current)) with (Some (handleExpiry : list string -> GoM World string)).
  assert (checkCluster Current (mkCommand "_EXPIRY" []) = None) as -> by (by destruct Current).
  change (check_memory cfg "_EXPIRY") with (mret false : GoM World bool).
  pose proof (expire_loop_wp (env_order (tick w) (map_to_list (dataOf w)).*1) 0 0 (next_tick w)
    (store_ok_advance 1 w Hs)) as Hx.
  apply wp_Val in Hx as (n & w1 & E & m & (_ & Hd & _) & _ & Hn & _).
  unfold handleExpiry, DeleteExpired, range_keys, mbind, GoM_bind, mret, GoM_ret. rewrite E.
  destruct (log_command _ _ w1) as [[[] w2]|] eqn:E2; [|done]. intros [= <- <-].
  apply log_command_data in E2. apply expire_loop_bound in E. rewrite E2, Hd. cbn in Hn.
  unfold round_enough. rewrite integer_reply_roundtrip by (unfold is_int64, MinInt64, MaxInt64; lia).
  split; [lia|]. rewrite Z.ltb_ge. lia.
Qed.
End expiry.

(** ** The order *)

(** How far a connection is: done, or at a program and a stage of its next request. *)
Inductive rank := Done | At (p : prog ending) (stage : nat).

Inductive lower : rank -> rank -> Prop :=
  | lower_done p n : lower Done (At p n)
  | lower_stage p m n : (m < n)%nat -> lower (At p m) (At p n)
  | lower_request req req' k m n : (m < n)%nat -> lower (At (Ask req k) m) (At (Ask req' k) n)
  | lower_reply req k r m n : lower (At (k r) m) (At (Ask req k) n).

Lemma lower_wf : well_founded lower.
Proof.
  assert (Acc lower Done) as Hd by (constructor; inversion 1).
  assert (forall p n, Acc lower (At p n)) as Hat; [|by intros [|p n]].
  intros p. induction p as [a|req k IHk|q]; intros n.
  2: revert req.
  all: induction n as [n IHn] using lt_wf_ind; intros; constructor; inversion 1; subst; auto.
Qed.

(** One of the connections gets lower. *)
Inductive one_lower : list rank -> list rank -> Prop :=
  | lower_head x y l : lower x y -> one_lower (x :: l) (y :: l)
  | lower_tail x l l' : one_lower l l' -> one_lower (x :: l) (x :: l').

Lemma one_lower_wf : well_founded one_lower.
Proof.
  intros l. induction l as [|x l IH]; [constructor; inversion 1|].
  revert l IH. induction (lower_wf x) as [x _ IHx]. induction 1 as [l Hl IHl]. constructor.
  intros l' Hl'. inversion Hl'; subst; [apply IHx; [done|by constructor]|by apply IHl].
Qed.

Lemma one_lower_insert l i x y : l !! i = Some y -> lower x y -> one_lower (<[i := x]> l) l.
Proof.
  revert i. induction l as [|z l IH]; intros [|i] Hi Hxy; cbn in *; simplify_eq; constructor; auto.
Qed.

(** The stage of a request that has been sent: in the channel, in the worker's hands, or
    answered. *)
Definition waiting_stage (s : system) (ch : nat) : nat :=
  if decide (ch ∈ (commandCh s).*2) then 4
  else match dispatcher s with
    | Replying _ ch' _ => if decide (ch' = ch) then 3 else 2
    | _ => 2
    end.

Definition rank_of (s : system) (i : nat) (g : goroutine) : rank :=
  match i, g with
  | S _, Ready p => At p 6
  | S _, Holding _ req k => At (Ask req k) 5
  | S _, Waiting ch k => At (Ask expiry_request k) (waiting_stage s ch)
  | S _, Putting _ p => At p 7
  | _, _ => Done
  end.

Definition ranks (s : system) : list rank := imap (rank_of s) (clients s).

(** What is left to do for active expiry: the stage of its round, with credit for another
    round once the reply asks for one. *)
Definition credit (r : string) : nat := if round_enough r then 0 else 10.

Definition pending (s : system) (ch : nat) : option string :=
  match replych s !! ch with
  | Some (_, r) => Some r
  | None => match dispatcher s with
      | Replying _ ch' r => if decide (ch' = ch) then Some r else None
      | _ => None
      end
  end.

Definition expirer_tasks (s : system) : nat :=
  match clients s !! 0%nat with
  | Some Sleeping => 1
  | Some (Ready (Ret (Replied r))) => 2 + credit r
  | Some (Putting _ (Ret (Replied r))) => 3 + credit r
  | Some (Waiting ch _) => waiting_stage s ch + 2 + match pending s ch with Some r => credit r | None => 0 end
  | Some (Holding _ _ _) => 7
  | Some (Ready _) => 8
  | _ => 0
  end%nat.

Definition phase_tasks (p : phase) : nat :=
  match p with Accepting => 3 | WaitingProducers => 2 | Draining => 1 | Returned => 0 end.

Definition tasks (s : system) : nat :=
  (match crashed s with Some _ => 0 | None => 1 end + phase_tasks (runPhase s)
   + match dispatcher s with Exited => 0 | _ => 1 end + 20 * size (dataOf (world s)) + expirer_tasks s)%nat.

Definition smaller (s' s : system) : Prop :=
  slexprod (list rank) nat one_lower lt (ranks s', tasks s') (ranks s, tasks s).

Lemma smaller_wf : well_founded smaller.
Proof.
  unfold smaller. apply (wf_inverse_image system _ _ (fun s => (ranks s, tasks s))).
  apply wf_slexprod; [exact one_lower_wf|exact lt_wf].
Qed.

(** *** How the steps change it *)

Lemma smaller_tasks s s' : ranks s' = ranks s -> (tasks s' < tasks s)%nat -> smaller s' s.
Proof. intros Hr Ht. unfold smaller. rewrite Hr. by apply right_slex. Qed.

(** Ranks that depend on nothing the step changes. *)
Definition rank_kept (s s' : system) (i : nat) : Prop :=
  forall j g, j <> i -> clients s !! j = Some g -> rank_of s' j g = rank_of s j g.

Lemma ranks_move s s' i g g0 :
  clients s !! i = Some g0 -> clients s' = <[i := g]> (clients s) -> rank_kept s s' i ->
  ranks s' = <[i := rank_of s' i g]> (ranks s).
Proof.
  intros Hi Hc Hkept. apply list_eq. intros j. unfold ranks. rewrite list_lookup_imap, Hc, (clients_lookup_set _ _ _ g g0 Hi).
  destruct (decide (j = i)) as [->|Hj].
  - rewrite list_lookup_insert_eq; [done|]. rewrite length_imap. by eapply lookup_lt_Some.
  - rewrite list_lookup_insert_ne, list_lookup_imap by done. destruct (clients s !! j) as [gj|] eqn:Hgj; [|done].
    cbn. by rewrite (Hkept j gj).
Qed.

Lemma smaller_client s s' i g g0 :
  clients s !! i = Some g0 -> clients s' = <[i := g]> (clients s) -> rank_kept s s' i ->
  lower (rank_of s' i g) (rank_of s i g0) -> smaller s' s.
Proof.
  intros Hi Hc Hkept Hlow. unfold smaller. apply left_slex. rewrite (ranks_move s s' i g g0) by done.
  eapply one_lower_insert; [|exact Hlow]. unfold ranks. by rewrite list_lookup_imap, Hi.
Qed.

Lemma ranks_expirer s s' g g0 :
  clients s !! 0%nat = Some g0 -> clients s' = <[0%nat := g]> (clients s) -> rank_kept s s' 0 -> ranks s' = ranks s.
Proof.
  intros Hi Hc Hkept. rewrite (ranks_move s s' 0 g g0) by done. apply list_insert_id. unfold ranks.
  rewrite list_lookup_imap, Hi. cbn. by destruct g, g0.
Qed.

Lemma rank_kept_same s s' i : commandCh s' = commandCh s -> dispatcher s' = dispatcher s -> rank_kept s s' i.
Proof. intros Hq Hd j g _ _. unfold rank_of, waiting_stage. by rewrite Hq, Hd. Qed.

(** A step that moves only requests and replies over the channel of [who]. *)
Lemma rank_kept_channel s s' who ch b :
  chans s -> view s who = Some (ch, b) ->
  (forall ch', ch' <> ch -> waiting_stage s' ch' = waiting_stage s ch') -> rank_kept s s' who.
Proof.
  intros Hc Hv Hst j g Hj Hg. unfold rank_of. destruct j; [done|]. destruct g as [| | |ch' k| |]; try done.
  rewrite Hst; [done|]. intros ->. apply Hj. eapply (ch_unique _ _ _ _ _ Hc); [exact (view_at s _ _ Hg)|exact Hv].
Qed.

(** ** The server's own steps *)

Section progress.
Context `{!GoEnv} `{!GoEnvLaws} (cfg : Config) (Current : option Layout).

(** All but connections arriving, ticks, the cancellation, and the pool dropping channels. *)
Definition own (a : action) : bool :=
  match a with Accept _ _ | Forget _ | Tick | Cancel => false | _ => true end.

Definition progress (s s' : system) : Prop := exists a, own a = true /\ perform cfg Current a s = Some s'.

(** The steps of connections that send and serve nothing. *)
Lemma smaller_quiet s s' i g g0 :
  clients s !! i = Some g0 -> clients s' = <[i := g]> (clients s) ->
  commandCh s' = commandCh s -> dispatcher s' = dispatcher s ->
  lower (rank_of s' i g) (rank_of s i g0) -> smaller s' s.
Proof. intros Hi Hc Hq Hd. apply (smaller_client s s' i g g0); [done..|by apply rank_kept_same]. Qed.

(** The steps of the expiry loop that send and serve nothing. *)
Lemma smaller_expirer s s' g g0 :
  clients s !! 0%nat = Some g0 -> clients s' = <[0%nat := g]> (clients s) ->
  commandCh s' = commandCh s -> dispatcher s' = dispatcher s -> world s' = world s -> runPhase s' = runPhase s ->
  crashed s' = crashed s -> (expirer_tasks s' < expirer_tasks s)%nat -> smaller s' s.
Proof.
  intros Hi Hc Hq Hd Hw Hm Hcr Ht. apply smaller_tasks; [apply (ranks_expirer s s' g g0); [done..|by apply rank_kept_same]|].
  unfold tasks. rewrite Hd, Hw, Hm, Hcr. lia.
Qed.

Lemma expirer_at s s' i g g0 : clients s !! i = Some g0 -> clients s' = <[i := g]> (clients s) -> clients s' !! i = Some g.
Proof. intros Hi ->. apply list_lookup_insert_eq. by eapply lookup_lt_Some. Qed.

Lemma waiting_stage_bounds s ch : (2 <= waiting_stage s ch <= 4)%nat.
Proof. unfold waiting_stage. destruct (decide _); [lia|]. destruct (dispatcher s); try lia. destruct (decide _); lia. Qed.

(** A channel that is held and not waited on is empty. *)
Lemma pending_held s i ch : chans s -> view s i = Some (ch, false) -> pending s ch = None.
Proof.
  intros Hc Hv.
  assert (forall who r, on_its_way s who ch r -> False) as Hno.
  { intros who r Hr. pose proof (chans_on_its_way s who ch r Hc Hr) as Hw.
    pose proof (ch_unique _ _ _ _ _ Hc _ _ _ _ _ Hw Hv) as ->. congruence. }
  unfold pending. destruct (replych s !! ch) as [[who r]|] eqn:Hr; [exfalso; apply (Hno who r); by right|].
  destruct (dispatcher s) as [|who ch' r|] eqn:Hd; try done. case_decide; [subst ch'|done]. exfalso. apply (Hno who r). by left.
Qed.

Lemma smaller_crash s r : crashed s = None -> smaller (crash_with r s) s.
Proof.
  intros Hcr. apply smaller_tasks; [done|]. unfold tasks. rewrite Hcr.
  change (expirer_tasks (crash_with r s)) with (expirer_tasks s). cbn. lia.
Qed.

Lemma smaller_get_new s s' i : get_new i s = Some s' -> smaller s' s.
Proof.
  unfold get_new. destruct (clients s !! i) as [[|[|req k|]| | | |]|] eqn:Hi; try done. intros [= <-].
  destruct i as [|i].
  - eapply (smaller_expirer s); [exact Hi|done..|]. unfold expirer_tasks.
    rewrite (expirer_at s _ 0 (Holding (next_ch s) req k) _ Hi) by done. rewrite Hi. cbn. lia.
  - eapply (smaller_quiet s); [exact Hi|done..|]. constructor. lia.
Qed.

Lemma smaller_send s s' i : chans s -> phase_ok s -> crashed s = None -> send i s = Some s' -> smaller s' s.
Proof.
  intros Hc Hp Hcr. unfold send. destruct (clients s !! i) as [[| |ch req k| | |]|] eqn:Hi; try done.
  rewrite (closed_finished s i _ Hp Hi) by done. destruct (_ <? _)%nat; [|done]. intros [= <-].
  pose proof (view_at s i _ Hi) as Hv. cbn in Hv.
  assert (rank_kept s (set_client i (Waiting ch k) (set_queue (commandCh s ++ [(i, req, ch)]) s)) i) as Hkept.
  { apply (rank_kept_channel _ _ _ ch false Hc Hv). intros ch' Hne. unfold waiting_stage. cbn [commandCh dispatcher set_client set_queue].
    rewrite fmap_app. cbn. do 2 case_decide; set_solver. }
  destruct i as [|i].
  - apply smaller_tasks; [by eapply ranks_expirer|]. unfold tasks, expirer_tasks.
    rewrite (expirer_at s _ 0 (Waiting ch k) _ Hi) by done. rewrite Hi. cbn [world runPhase crashed dispatcher set_client set_queue].
    replace (pending _ ch) with (pending s ch) by done. rewrite (pending_held s 0 ch Hc Hv).
    match goal with |- context [waiting_stage ?x ch] => pose proof (waiting_stage_bounds x ch) end. lia.
  - eapply (smaller_client s); [exact Hi|done|done|]. cbn [rank_of]. constructor.
    match goal with |- context [waiting_stage ?x ch] => pose proof (waiting_stage_bounds x ch) end. lia.
Qed.

Lemma smaller_receive s s' i : expirer s -> receive i s = Some s' -> smaller s' s.
Proof.
  intros He. unfold receive. destruct (clients s !! i) as [[| | |ch k| |]|] eqn:Hi; try done.
  destruct (replych s !! ch) as [[who r]|] eqn:Hr; [|done]. intros [= <-]. destruct i as [|i].
  - destruct (ex_ok s He) as (g & Hg & Hok). rewrite Hi in Hg. injection Hg as <-. cbn in Hok. subst k.
    eapply (smaller_expirer s); [exact Hi|done..|]. unfold expirer_tasks.
    rewrite (expirer_at s _ 0 (Putting ch (Ret (Replied r))) _ Hi) by done. rewrite Hi. unfold pending at 1. rewrite Hr.
    pose proof (waiting_stage_bounds s ch). lia.
  - eapply (smaller_quiet s); [exact Hi|done..|]. constructor.
Qed.

(** The request taken from the channel is the only one on its reply channel. *)
Lemma taken_once s who req ch q :
  chans s -> dispatcher s = Idle -> commandCh s = (who, req, ch) :: q ->
  ch ∉ q.*2 /\ replych s !! ch = None /\ exists k, clients s !! who = Some (Waiting ch k).
Proof.
  intros Hc Hd Hq. assert (in_flight s = (who, ch) :: ((fun x => (x.1.1, x.2)) <$> q)) as Hf.
  { unfold in_flight. by rewrite Hd, Hq. }
  pose proof (ch_NoDup _ _ _ _ _ Hc) as Hnd. rewrite Hf in Hnd. cbn in Hnd. apply NoDup_cons in Hnd as [Hni _].
  split; [|split].
  - intros Hin. apply Hni. rewrite <-list_fmap_compose. exact Hin.
  - pose proof (ch_one_place _ _ _ _ _ Hc ch) as Hone. rewrite lookup_fmap, fmap_None in Hone. apply Hone.
    rewrite Hf. cbn. set_solver.
  - apply view_waiting, (chans_queued s who req ch Hc). rewrite Hq. set_solver.
Qed.

(** The reply in the worker's hands likewise. *)
Lemma replied_once s who ch r :
  chans s -> dispatcher s = Replying who ch r ->
  ch ∉ (commandCh s).*2 /\ replych s !! ch = None /\ exists k, clients s !! who = Some (Waiting ch k).
Proof.
  intros Hc Hd. pose proof (ch_NoDup _ _ _ _ _ Hc) as Hnd. unfold in_flight in Hnd. rewrite Hd in Hnd. cbn in Hnd.
  apply NoDup_cons in Hnd as [Hni _]. split; [|split].
  - intros Hin. apply Hni. rewrite <-list_fmap_compose. exact Hin.
  - pose proof (ch_one_place _ _ _ _ _ Hc ch) as Hone. rewrite lookup_fmap, fmap_None in Hone. apply Hone.
    unfold in_flight. rewrite Hd. cbn. set_solver.
  - apply view_waiting, (chans_on_its_way s who ch r Hc). by left.
Qed.

(** The worker moves the request of [who] on. *)
Lemma smaller_worker s s' who ch k :
  chans s -> clients s !! who = Some (Waiting ch k) -> clients s' = clients s ->
  (forall ch', ch' <> ch -> waiting_stage s' ch' = waiting_stage s ch') ->
  (waiting_stage s' ch < waiting_stage s ch)%nat ->
  (who = 0%nat -> (tasks s' < tasks s)%nat) -> smaller s' s.
Proof.
  intros Hc Hk Hcl Hother Hst Ht. pose proof (view_at s who _ Hk) as Hv.
  pose proof (rank_kept_channel s s' who ch true Hc Hv Hother) as Hkept.
  assert (clients s' = <[who := Waiting ch k]> (clients s)) as Hid by (by rewrite list_insert_id).
  destruct who as [|who].
  - apply smaller_tasks; [by eapply ranks_expirer|by apply Ht].
  - eapply (smaller_client s); [exact Hk|exact Hid|exact Hkept|]. by constructor.
Qed.

Lemma smaller_reply s s' : chans s -> worker_reply s = Some s' -> smaller s' s.
Proof.
  intros Hc. unfold worker_reply. destruct (dispatcher s) as [|who ch r|] eqn:Hd; try done.
  destruct (replied_once s who ch r Hc Hd) as (Hni & Hr & k & Hk). rewrite Hr. intros [= <-].
  assert (forall ch', ch' <> ch -> waiting_stage (set_dispatcher Idle (set_replych (<[ch := (who, r)]> (replych s)) s)) ch'
    = waiting_stage s ch') as Hother.
  { intros ch' Hne. unfold waiting_stage. cbn. rewrite Hd. by repeat case_decide. }
  assert (waiting_stage s ch = 3%nat) as H3.
  { unfold waiting_stage. by rewrite Hd, decide_False, decide_True. }
  assert (waiting_stage (set_dispatcher Idle (set_replych (<[ch := (who, r)]> (replych s)) s)) ch = 2%nat) as H2.
  { unfold waiting_stage. cbn. by rewrite decide_False. }
  eapply smaller_worker; [done|exact Hk|done|done|lia|]. intros ->. unfold tasks, expirer_tasks. cbn [clients set_dispatcher set_replych].
  rewrite Hk, H2, H3, Hd. unfold pending. cbn. rewrite Hd, Hr, lookup_insert_eq, decide_True by done. lia.
Qed.

Lemma smaller_serve w s s' : run_ok cfg Current w s -> server_ok (world s) -> crashed s = None -> work cfg Current s = Some s' -> smaller s' s.
Proof.
  intros [Hc Hp Ht He _ _] Hok Hcr. unfold work. destruct (dispatcher s) as [| |] eqn:Hd; try done.
  destruct (commandCh s) as [|[[who req] ch] q] eqn:Hq; [done|].
  destruct (serve cfg Current req (world s)) as [[r w']|p] eqn:Es; intros [= <-].
  2: by apply smaller_crash.
  destruct (taken_once s who req ch q Hc Hd Hq) as (Hni & Hr & k & Hk).
  set (s' := set_dispatcher _ _).
  assert (forall ch', ch' <> ch -> waiting_stage s' ch' = waiting_stage s ch') as Hother.
  { intros ch' Hne. unfold waiting_stage. cbn. rewrite Hd, Hq. cbn. repeat case_decide; try done; set_solver. }
  assert (waiting_stage s ch = 4%nat) as H4 by (unfold waiting_stage; rewrite Hq; cbn; by rewrite decide_True by set_solver).
  assert (waiting_stage s' ch = 3%nat) as H3 by (unfold waiting_stage; cbn; by rewrite decide_False, decide_True).
  eapply smaller_worker; [done|exact Hk|done|done|lia|]. intros ->.
  rewrite (ex_queue s He req ch) in Es by (rewrite Hq; set_solver).
  destruct (expiry_served cfg Current (world s) r w' Hok Es) as [Hle Hmore].
  unfold tasks, expirer_tasks. cbn [clients s' set_dispatcher set_queue record_served]. fold s'.
  rewrite Hk, H3, H4, Hd. unfold pending. cbn. rewrite Hd, Hr, decide_True by done. unfold credit.
  destruct (round_enough r); [lia|]. specialize (Hmore eq_refl). lia.
Qed.

(** What the expiry loop does between its requests. *)
Lemma smaller_expirer_step a s s' :
  (a = ExpiryReply \/ a = ExpiryNext \/ a = ExpiryCancel) -> expirer s -> perform cfg Current a s = Some s' -> smaller s' s.
Proof.
  intros Ha [(g & Hg & Hok) _ _]. unfold perform. destruct (crashed s); [done|].
  destruct Ha as [->|[->| ->]]; unfold expiry_next, expiry_cancel; rewrite Hg.
  - destruct g as [| | | |ch p|]; try done. destruct Hok as [r ->]. intros [= <-].
    eapply (smaller_expirer s); [exact Hg|done..|]. unfold expirer_tasks. rewrite (expirer_at s _ 0 _ _ Hg) by done. rewrite Hg. lia.
  - destruct g as [|[[|r]| |]| | | |]; try done. intros [= <-].
    eapply (smaller_expirer s); [exact Hg|done..|]. unfold expirer_tasks. rewrite (expirer_at s _ 0 _ _ Hg) by done. rewrite Hg.
    unfold credit. destruct (round_enough r); cbn; lia.
  - intros E. assert (s' = set_client 0 Finished s) as -> by (destruct g, (ctxDone s); naive_solver).
    eapply (smaller_expirer s); [exact Hg|done..|]. unfold expirer_tasks. rewrite (expirer_at s _ 0 _ _ Hg) by done. rewrite Hg.
    destruct g; try done; lia.
Qed.

Lemma progress_smaller w s s' : run_ok cfg Current w s -> server_ok (world s) -> progress s s' -> smaller s' s.
Proof.
  intros Hr Hok (a & Ha & E). pose proof Hr as [Hc Hp Ht He _ _].
  destruct (crashed s) eqn:Hcr; [unfold perform in E; by rewrite Hcr in E|].
  destruct a; try done; try (eapply smaller_expirer_step; [|exact He|exact E]; by auto);
    unfold perform in E; rewrite Hcr in E.
  - unfold get_pooled in E. destruct (clients s !! i) as [[|[|req k|]| | | |]|] eqn:Hi; try done.
    destruct i as [|i]; [done|]. destruct (replyChPool s !! n); [|done]. injection E as <-.
    eapply (smaller_quiet s); [exact Hi|done..|]. constructor. lia.
  - by eapply smaller_get_new.
  - by eapply smaller_send.
  - by eapply smaller_receive.
  - unfold put in E. destruct (clients s !! i) as [[| | | |ch p|]|] eqn:Hi; try done. destruct i as [|i]; [done|].
    injection E as <-. eapply (smaller_quiet s); [exact Hi|done..|]. constructor. lia.
  - unfold leave in E. destruct (clients s !! i) as [[|p| | | |]|] eqn:Hi; try done. destruct i as [|i]; [by destruct p|].
    destruct p; try done. injection E as <-. eapply (smaller_quiet s); [exact Hi|done..|]. constructor.
  - unfold leave in E. destruct (clients s !! i) as [[|p| | | |]|] eqn:Hi; try done. destruct i as [|i]; [by destruct p|].
    assert (s' = set_client (S i) Finished s) as -> by (destruct p; congruence).
    eapply (smaller_quiet s); [exact Hi|done..|]. constructor.
  - unfold go_panic in E. destruct (clients s !! i) as [[|[]| | | |]|]; try done. injection E as <-. by apply smaller_crash.
  - by eapply smaller_serve.
  - by eapply smaller_reply.
  - unfold worker_exit in E. destruct (dispatcher s) eqn:Hd, (chClosed s), (commandCh s) eqn:Hq; try done. injection E as <-.
    apply smaller_tasks; [|].
    + unfold ranks. cbn. apply imap_ext. intros i g _. unfold rank_of, waiting_stage. cbn. by rewrite Hd.
    + unfold tasks, expirer_tasks, pending, waiting_stage. cbn. rewrite Hd. lia.
  - destruct (runPhase s) eqn:Hm, (ctxDone s); try done. injection E as <-. apply smaller_tasks; [done|].
    unfold tasks. change (expirer_tasks (set_main WaitingProducers s)) with (expirer_tasks s). cbn. rewrite Hm. cbn. lia.
  - destruct (runPhase s) eqn:Hm; try done. destruct (forallb _ _); [|done]. injection E as <-. apply smaller_tasks; [done|].
    unfold tasks. change (expirer_tasks (set_main Draining (close_commandCh s))) with (expirer_tasks s). cbn. rewrite Hm. cbn. lia.
  - destruct (runPhase s) eqn:Hm, (dispatcher s) eqn:Hd; try done. injection E as <-. apply smaller_tasks; [done|].
    unfold tasks. change (expirer_tasks (set_main Returned (sync_aof failed s))) with (expirer_tasks s). cbn. rewrite Hm. cbn. lia.
Qed.

(** ** No deadlock *)

(** An idle worker and an empty channel: a goroutine that has not finished can move. *)
Lemma goroutine_moves w s i g :
  run_ok cfg Current w s -> crashed s = None -> ctxDone s = true -> commandCh s = [] ->
  (forall who ch r, dispatcher s <> Replying who ch r) ->
  clients s !! i = Some g -> g <> Finished -> exists s', progress s s'.
Proof.
  intros [Hc Hp Ht [(g0 & Hg0 & Hok) _ _] _ _] Hcr Hctx Hq Hd Hi Hg.
  assert (forall a s', own a = true -> perform cfg Current a s = Some s' -> exists s', progress s s') as Hdo by (intros a s'; exists s', a; done).
  unfold perform in Hdo. rewrite Hcr in Hdo. destruct g as [|p|ch req k|ch k|ch p|]; [| | | | |done].
  - destruct i as [|i].
    + apply (Hdo ExpiryCancel (set_client 0 Finished s)); [done|]. unfold expiry_cancel. by rewrite Hi, Hctx.
    + exfalso. apply lookup_lt_Some in Hi as Hlt. rewrite <-(tr_started s Ht) in Hlt.
      apply lookup_lt_is_Some_2 in Hlt as [p0 Hp0]. by apply (tr_track s Ht (S i) p0 _ ltac:(done) Hp0 Hi).
  - destruct p as [e|req k|q].
    + destruct i as [|i].
      * rewrite Hi in Hg0. injection Hg0 as <-. destruct Hok as [?|[r [= ->]]]; [done|].
        eapply (Hdo ExpiryNext); [done|]. unfold expiry_next. by rewrite Hi.
      * eapply (Hdo (Return (S i))); [done|]. unfold leave. by rewrite Hi.
    + eapply (Hdo (GetNew i)); [done|]. unfold get_new. by rewrite Hi.
    + eapply (Hdo (GoPanic i)); [done|]. unfold go_panic. by rewrite Hi.
  - eapply (Hdo (Send i)); [done|]. unfold send. by rewrite Hi, (closed_finished s i _ Hp Hi), Hq.
  - assert (view s i = Some (ch, true)) as Hv by exact (view_at s i _ Hi).
    apply (ch_waiting _ _ _ _ _ Hc) in Hv as [Hin|Hr].
    + exfalso. unfold in_flight in Hin. rewrite Hq, app_nil_r in Hin. destruct (dispatcher s) eqn:Ed; cbn in Hin; try set_solver.
    + rewrite lookup_fmap in Hr. apply fmap_Some in Hr as ([j r] & Hr & _).
      eapply (Hdo (Receive i)); [done|]. unfold receive. by rewrite Hi, Hr.
  - destruct i as [|i].
    + eapply (Hdo ExpiryReply); [done|]. by rewrite Hi.
    + eapply (Hdo (Put (S i))); [done|]. unfold put. by rewrite Hi.
Qed.

Lemma progress_possible w s :
  run_ok cfg Current w s -> ctxDone s = true -> crashed s = None -> runPhase s <> Returned -> exists s', progress s s'.
Proof.
  intros Hr Hctx Hcr Hm. pose proof Hr as [Hc Hp Ht He Hs _].
  assert (forall a s', own a = true -> perform cfg Current a s = Some s' -> exists s', progress s s') as Hdo by (intros a s'; exists s', a; done).
  unfold perform in Hdo. rewrite Hcr in Hdo. destruct (dispatcher s) as [|who ch r|] eqn:Hd.
  - destruct (commandCh s) as [|[[who req] ch] q] eqn:Hq.
    + destruct (runPhase s) eqn:Em; [..|done].
      * eapply (Hdo StopAccepting); [done|]. by rewrite Hctx.
      * destruct (forallb is_Finished (clients s)) eqn:Hall; [by eapply (Hdo CloseChannel)|].
        apply not_true_iff_false in Hall. rewrite is_Finished_all in Hall.
        apply not_Forall_Exists, Exists_exists in Hall as (g & [i Hi]%list_elem_of_lookup & Hg); [|intros []; (by left) || by right].
        eapply (goroutine_moves w s i g); try done. by rewrite Hd.
      * eapply (Hdo WorkerExit); [done|]. unfold worker_exit.
        by rewrite Hd, Hq, (proj2 (ph_closed s Hp) (or_introl Em)).
    + destruct (serve cfg Current req (world s)) as [[r w']|p] eqn:Es;
        (eapply (Hdo Serve); [done|]; unfold work; by rewrite Hd, Hq, Es).
  - destruct (replied_once s who ch r Hc Hd) as (_ & Hr0 & _).
    eapply (Hdo Reply); [done|]. unfold worker_reply. by rewrite Hd, Hr0.
  - destruct (ph_exited s Hp Hd) as [Hcl _]. apply (ph_closed s Hp) in Hcl as [Em|Em]; [|done].
    eapply (Hdo (Finish false)); [done|]. by rewrite Em.
Qed.

Lemma progress_step s s' : progress s s' -> step cfg Current s s'.
Proof. intros (a & _ & Ha). by eapply perform_sound. Qed.

Lemma cancelled_stays s s' : step cfg Current s s' -> ctxDone s = true -> ctxDone s' = true.
Proof. by destruct 1. Qed.

Lemma run_progress_wf w s : run_ok cfg Current w s -> server_ok w -> Acc (fun s2 s1 => progress s1 s2) s.
Proof.
  intros Hr Hw. revert Hr. induction (smaller_wf s) as [s _ IH]. intros Hr. constructor. intros s' Hs'.
  apply IH; [|by eapply run_ok_step; [apply progress_step|]]. eapply progress_smaller; [exact Hr| |exact Hs'].
  by eapply run_ok_store.
Qed.

(** C7: The server comes to rest. Its own steps (everything but connections arriving,
    ticks of the expiry timer, the cancellation, and the pool dropping channels) cannot go
    on forever; and once it is cancelled one of them is possible until [Run] has returned
    or a goroutine has panicked: there is no deadlock, whatever the connections do. So
    every run after the cancellation that is not cut off ends with [Run] returning or a
    panic. *)
Theorem server_comes_to_rest (w : World) (s : system) :
  reachable_system cfg Current w s -> server_ok w ->
  Acc (fun s2 s1 => progress s1 s2) s /\
  (ctxDone s = true ->
   (crashed s = None -> runPhase s <> Returned -> exists s', progress s s') /\
   exists s', rtc progress s s' /\ (runPhase s' = Returned \/ crashed s' <> None)).
Proof.
  intros Hr%reachable_run_ok Hw. pose proof (run_progress_wf w s Hr Hw) as Hacc. split; [done|]. intros Hctx.
  split; [by eapply progress_possible|]. revert Hr Hctx. induction Hacc as [s _ IH]. intros Hr Hctx.
  destruct (crashed s) eqn:Hcr; [exists s; split; [constructor|right; congruence]|].
  assert ({runPhase s = Returned} + {runPhase s <> Returned}) as [Hm|Hm] by (destruct (runPhase s); (by left) || by right).
  { exists s. split; [constructor|by left]. }
  destruct (progress_possible w s Hr Hctx Hcr Hm) as [s' Hs'].
  destruct (IH s' Hs') as (s2 & Hrtc & Hend); [by eapply run_ok_step; [apply progress_step|]|
    by eapply cancelled_stays; [apply progress_step|]|].
  exists s2. split; [by econstructor|done].
Qed.
End progress.

(** ** A concrete run *)

Section witnesses.
Local Instance rest_env : GoEnv := env_at (unixToInternal + 10 * Second).
Local Instance rest_laws : GoEnvLaws.
Proof. apply env_at_laws. unfold Second. lia. Defined.

(** Two connections and a round of expiry are underway when the server is cancelled. *)
Lemma server_comes_to_rest_witness :
  exists s', rtc (progress plain_config None) (after_schedule (busy_schedule ++ [Cancel])) s' /\
             (runPhase s' = Returned \/ crashed s' <> None).
Proof.
  apply (server_comes_to_rest plain_config None aof_server).
  - apply after_schedule_reachable. vm_compute. reflexivity.
  - apply server_ok_init.
  - vm_compute. reflexivity.
Defined.
End witnesses.
