(* ===== verification/Main.v ===== *)
(** * The program entry (src/main.go, src/config/config.go, the start of [Run])

    The settings, the command line as the flag package reads it, and the start of the
    program: the cluster layout, the eviction settings and the replay of the append-only
    file, up to the point where the server accepts connections. The operating system
    (which files can be opened and what they hold, whether the port can be bound) is a
    parameter. *)

From S2P Require Import Prelude GoLib Resp Aof Sds Hll World Lru Store StoreInv Evict Slot Layout Commands CommandClaims Dispatch DispatchClaims LayoutFile Keyspace Recovery Transaction Connection Server ServerInv ServerRun ServerClaims Linearizable.

(** ** The settings *)

Module config.
Record vars := mk {
  Host : string;
  Port : Z;
  AppendOnly : bool;
  AppendOnlyFile : string;
  MaxMemory : Z;
  MaxMemoryPolicy : string;
  MaxMemorySamples : Z;
  LFULogFactor : Z;
  LFUDecayTime : Z;
  ClusterEnabled : bool;
  ClusterConfigFile : string;
  pprofAddr : string;
}.

Definition set_Host x c := mk x (Port c) (AppendOnly c) (AppendOnlyFile c) (MaxMemory c) (MaxMemoryPolicy c)
  (MaxMemorySamples c) (LFULogFactor c) (LFUDecayTime c) (ClusterEnabled c) (ClusterConfigFile c) (pprofAddr c).
Definition set_Port x c := mk (Host c) x (AppendOnly c) (AppendOnlyFile c) (MaxMemory c) (MaxMemoryPolicy c)
  (MaxMemorySamples c) (LFULogFactor c) (LFUDecayTime c) (ClusterEnabled c) (ClusterConfigFile c) (pprofAddr c).
Definition set_AppendOnly x c := mk (Host c) (Port c) x (AppendOnlyFile c) (MaxMemory c) (MaxMemoryPolicy c)
  (MaxMemorySamples c) (LFULogFactor c) (LFUDecayTime c) (ClusterEnabled c) (ClusterConfigFile c) (pprofAddr c).
Definition set_AppendOnlyFile x c := mk (Host c) (Port c) (AppendOnly c) x (MaxMemory c) (MaxMemoryPolicy c)
  (MaxMemorySamples c) (LFULogFactor c) (LFUDecayTime c) (ClusterEnabled c) (ClusterConfigFile c) (pprofAddr c).
Definition set_MaxMemory x c := mk (Host c) (Port c) (AppendOnly c) (AppendOnlyFile c) x (MaxMemoryPolicy c)
  (MaxMemorySamples c) (LFULogFactor c) (LFUDecayTime c) (ClusterEnabled c) (ClusterConfigFile c) (pprofAddr c).
Definition set_MaxMemoryPolicy x c := mk (Host c) (Port c) (AppendOnly c) (AppendOnlyFile c) (MaxMemory c) x
  (MaxMemorySamples c) (LFULogFactor c) (LFUDecayTime c) (ClusterEnabled c) (ClusterConfigFile c) (pprofAddr c).
Definition set_MaxMemorySamples x c := mk (Host c) (Port c) (AppendOnly c) (AppendOnlyFile c) (MaxMemory c) (MaxMemoryPolicy c)
  x (LFULogFactor c) (LFUDecayTime c) (ClusterEnabled c) (ClusterConfigFile c) (pprofAddr c).
Definition set_LFULogFactor x c := mk (Host c) (Port c) (AppendOnly c) (AppendOnlyFile c) (MaxMemory c) (MaxMemoryPolicy c)
  (MaxMemorySamples c) x (LFUDecayTime c) (ClusterEnabled c) (ClusterConfigFile c) (pprofAddr c).
Definition set_LFUDecayTime x c := mk (Host c) (Port c) (AppendOnly c) (AppendOnlyFile c) (MaxMemory c) (MaxMemoryPolicy c)
  (MaxMemorySamples c) (LFULogFactor c) x (ClusterEnabled c) (ClusterConfigFile c) (pprofAddr c).
Definition set_ClusterEnabled x c := mk (Host c) (Port c) (AppendOnly c) (AppendOnlyFile c) (MaxMemory c) (MaxMemoryPolicy c)
  (MaxMemorySamples c) (LFULogFactor c) (LFUDecayTime c) x (ClusterConfigFile c) (pprofAddr c).
Definition set_ClusterConfigFile x c := mk (Host c) (Port c) (AppendOnly c) (AppendOnlyFile c) (MaxMemory c) (MaxMemoryPolicy c)
  (MaxMemorySamples c) (LFULogFactor c) (LFUDecayTime c) (ClusterEnabled c) x (pprofAddr c).
Definition set_pprofAddr x c := mk (Host c) (Port c) (AppendOnly c) (AppendOnlyFile c) (MaxMemory c) (MaxMemoryPolicy c)
  (MaxMemorySamples c) (LFULogFactor c) (LFUDecayTime c) (ClusterEnabled c) (ClusterConfigFile c) x.
End config.

(** ** Values of flags *)

Definition lower_byte (c : ascii) : Z := Z.lor (byte_Z c) 32.

(** The value of a digit in [strconv.ParseUint], up to base 36. *)
Definition digit36 (c : ascii) : option Z :=
  if (48 <=? byte_Z c) && (byte_Z c <=? 57) then Some (byte_Z c - 48)
  else if (97 <=? lower_byte c) && (lower_byte c <=? 122) then Some (lower_byte c - 97 + 10)
  else None.

(** The digits in [base], skipping underscores; the second part tells if there was one. *)
Fixpoint parse_base (base acc : Z) (us : bool) (s : string) : option (Z * bool) :=
  match s with
  | EmptyString => Some (acc, us)
  | String c s =>
      if bool_decide (c = "_"%char) then parse_base base acc true s
      else match digit36 c with
        | Some d => if d <? base then parse_base base (base * acc + d) us s else None
        | None => None
        end
  end.

(** The base that the prefix of a number asks for, and what follows the prefix. *)
Definition split_base (s : string) : Z * string :=
  match s with
  | String c r =>
      if bool_decide (c = "0"%char) then
        match r with
        | String x (String _ _ as digits) =>
            if lower_byte x =? byte_Z "b" then (2, digits)
            else if lower_byte x =? byte_Z "o" then (8, digits)
            else if lower_byte x =? byte_Z "x" then (16, digits)
            else (8, r)
        | _ => (8, r)
        end
      else (10, s)
  | EmptyString => (10, s)
  end.

(** [underscoreOK]: what was seen last is the start, a digit, an underscore or another byte. *)
Inductive saw := SawStart | SawDigit | SawUnderscore | SawOther.

Fixpoint underscore_loop (hex : bool) (last : saw) (s : string) : bool :=
  match s with
  | EmptyString => match last with SawUnderscore => false | _ => true end
  | String c s =>
      if ((48 <=? byte_Z c) && (byte_Z c <=? 57)) || (hex && (97 <=? lower_byte c) && (lower_byte c <=? 102))
      then underscore_loop hex SawDigit s
      else if bool_decide (c = "_"%char) then
        match last with SawDigit => underscore_loop hex SawUnderscore s | _ => false end
      else match last with SawUnderscore => false | _ => underscore_loop hex SawOther s end
  end.

Definition underscoreOK (s : string) : bool :=
  match s with
  | String c (String x r) =>
      if bool_decide (c = "0"%char) && ((lower_byte x =? byte_Z "b") || (lower_byte x =? byte_Z "o") || (lower_byte x =? byte_Z "x"))
      then underscore_loop (lower_byte x =? byte_Z "x") SawDigit r
      else underscore_loop false SawStart s
  | _ => underscore_loop false SawStart s
  end.

(** [strconv.ParseUint(s, 0, 64)] without its range check. *)
Definition parse_any_base (s : string) : option Z :=
  match s with
  | EmptyString => None
  | _ =>
      match parse_base (split_base s).1 0 false (split_base s).2 with
      | Some (n, us) => if us && negb (underscoreOK s) then None else Some n
      | None => None
      end
  end.

(** [strconv.ParseInt(s, 0, 64)], which the int flags use. *)
Definition ParseIntAny (s : string) : option Z :=
  let in_range z := if decide (is_int64 z) then Some z else None in
  match s with
  | EmptyString => None
  | String c r =>
      if decide (c = "+"%char) then parse_any_base r ≫= in_range
      else if decide (c = "-"%char) then parse_any_base r ≫= fun n => in_range (- n)
      else parse_any_base s ≫= in_range
  end.

(** [strconv.ParseBool] *)
Definition ParseBool (s : string) : option bool :=
  if is_in s ["1"; "t"; "T"; "TRUE"; "true"; "True"] then Some true
  else if is_in s ["0"; "f"; "F"; "FALSE"; "false"; "False"] then Some false
  else None.

Example ParseIntAny_examples :
  ParseIntAny <$> ["7379"; "-0x1_F"; "0b101"; "017"; "0"; "1_000"; "_1"; "1__0"; "08"; ""; "9223372036854775808"; "0o"]
  = [Some 7379; Some (-31); Some 5; Some 15; Some 0; Some 1000; None; None; None; None; None; None].
Proof. reflexivity. Qed.

(** ** The command line *)

Inductive flagVar :=
  | IntVar (set : Z -> config.vars -> config.vars)
  | StringVar (set : string -> config.vars -> config.vars)
  | BoolVar (set : bool -> config.vars -> config.vars).

(** The flags [setUpFlags] defines, and the settings before [flag.Parse]. *)
Definition flags : list (string * flagVar) :=
  [("port", IntVar config.set_Port); ("host", StringVar config.set_Host);
   ("appendOnly", BoolVar config.set_AppendOnly); ("appendOnlyFile", StringVar config.set_AppendOnlyFile);
   ("maxmemory", IntVar config.set_MaxMemory); ("maxmemory-policy", StringVar config.set_MaxMemoryPolicy);
   ("maxmemory-samples", IntVar config.set_MaxMemorySamples); ("lfu-log-factor", IntVar config.set_LFULogFactor);
   ("lfu-decay-time", IntVar config.set_LFUDecayTime); ("cluster-enabled", BoolVar config.set_ClusterEnabled);
   ("cluster-config-file", StringVar config.set_ClusterConfigFile); ("pprof-addr", StringVar config.set_pprofAddr)].

Definition defaults : config.vars :=
  config.mk "0.0.0.0" 7379 false EmptyString 0 "noeviction" 5 10 1 false EmptyString EmptyString.

(** What an argument of the command line is: no flag (parsing stops), the end of the flags,
    a mistake, or a flag with the value after an equals sign if there is one. *)
Inductive argument := NotFlag | EndOfFlags | BadSyntax | FlagArg (name : string) (value : option string).

(** The equals sign cannot be the first byte of the name. *)
Definition split_value (name : string) : string * option string :=
  match name with
  | String c r => match Cut "=" r with Some (n, v) => (String c n, Some v) | None => (name, None) end
  | EmptyString => (name, None)
  end.

Definition flag_name (s : string) : argument :=
  match s with
  | EmptyString => BadSyntax
  | String c _ =>
      if bool_decide (c = "-"%char) || bool_decide (c = "="%char) then BadSyntax
      else let '(name, value) := split_value s in FlagArg name value
  end.

Definition argument_of (s : string) : argument :=
  match s with
  | String c (String c' r) =>
      if bool_decide (c = "-"%char) then
        if bool_decide (c' = "-"%char) then
          match r with EmptyString => EndOfFlags | _ => flag_name r end
        else flag_name (String c' r)
      else NotFlag
  | _ => NotFlag
  end.

(** [flag.Parse] ends with the settings and the remaining arguments, or the program exits:
    with 0 after printing the usage for -h, with 2 for a mistake. *)
Inductive parsed := Parsed (c : config.vars) (args : list string) | FlagExit (code : Z).

Definition set_flag (v : flagVar) (value : string) (c : config.vars) : option config.vars :=
  match v with
  | IntVar set => (fun n => set n c) <$> ParseIntAny value
  | StringVar set => Some (set value c)
  | BoolVar set => (fun b => set b c) <$> ParseBool value
  end.

Fixpoint parse_flags (args : list string) (c : config.vars) : parsed :=
  match args with
  | [] => Parsed c []
  | s :: rest =>
      match argument_of s with
      | NotFlag => Parsed c args
      | EndOfFlags => Parsed c rest
      | BadSyntax => FlagExit 2
      | FlagArg name value =>
          match assoc name flags with
          | None => if is_in name ["help"; "h"] then FlagExit 0 else FlagExit 2
          | Some v =>
              let set value rest :=
                match set_flag v value c with
                | Some c' => parse_flags rest c'
                | None => FlagExit 2
                end in
              match v, value with
              | BoolVar _, None => set "true" rest
              | _, Some value => set value rest
              | _, None => match rest with value :: rest' => set value rest' | [] => FlagExit 2 end
              end
          end
      end
  end.

Definition setUpFlags (args : list string) : parsed := parse_flags args defaults.

(** A command line that spells out all settings. *)
Definition command_line (c : config.vars) : list string :=
  ["--port"; FormatInt (config.Port c); "--host"; config.Host c;
   "--appendOnly=" +++ (if config.AppendOnly c then "true" else "false");
   "--appendOnlyFile"; config.AppendOnlyFile c; "--maxmemory"; FormatInt (config.MaxMemory c);
   "--maxmemory-policy"; config.MaxMemoryPolicy c; "--maxmemory-samples"; FormatInt (config.MaxMemorySamples c);
   "--lfu-log-factor"; FormatInt (config.LFULogFactor c); "--lfu-decay-time"; FormatInt (config.LFUDecayTime c);
   "--cluster-enabled=" +++ (if config.ClusterEnabled c then "true" else "false");
   "--cluster-config-file"; config.ClusterConfigFile c; "--pprof-addr"; config.pprofAddr c].

Example flags_examples :
  setUpFlags ["-port=0x1CD3"; "--cluster-enabled"; "x"; "--port"; "1"] = Parsed (config.set_ClusterEnabled true (config.set_Port 7379 defaults)) ["x"; "--port"; "1"] /\
  setUpFlags ["--port"] = FlagExit 2 /\ setUpFlags ["-h"] = FlagExit 0 /\ setUpFlags ["--port"; "1e3"] = FlagExit 2 /\
  setUpFlags ["--appendOnly"; "false"] = Parsed (config.set_AppendOnly true defaults) ["false"].
Proof. repeat split. Qed.

(** ** Printed settings are read back *)

Lemma digit36_digit c d : digit_of c = Some d -> digit36 c = Some d /\ d < 10 /\ c <> "_"%char.
Proof.
  unfold digit_of, digit36. destruct (_ && _) eqn:Hc; [|done]. intros [= <-]. z_bools. split; [done|]. split; [lia|].
  intros ->. done.
Qed.

Lemma parse_base_digits s acc n : parse_digits acc s = Some n -> parse_base 10 acc false s = Some (n, false).
Proof.
  revert acc. induction s as [|c s IH]; intros acc; cbn [parse_digits parse_base]; [by intros [= ->]|].
  destruct (digit_of c) as [d|] eqn:Hd; [|done]. apply digit36_digit in Hd as (-> & Hlt & Hne).
  rewrite bool_decide_false by done. rewrite (proj2 (Z.ltb_lt _ _)) by done. apply IH.
Qed.

(** A positive number is printed without a leading zero. *)
Lemma format_digits_lead fuel n acc :
  1 <= n < 2 ^ Z.of_nat fuel -> exists d r, 1 <= d < 10 /\ format_digits fuel n acc = String (digit_char d) r.
Proof.
  revert n acc. induction fuel as [|fuel IH]; intros n acc Hn; [cbn in Hn; lia|].
  cbn [format_digits]. destruct (Z.ltb_spec n 10) as [Hlt|Hge].
  - exists (n mod 10), acc. split; [zdm|done].
  - apply IH. rewrite Nat2Z.inj_succ, Z.pow_succ_r in Hn by lia. zdm.
Qed.

Lemma parse_any_format n : 0 <= n -> parse_any_base (format_udec n) = Some n.
Proof.
  intros Hn. destruct (decide (n = 0)) as [->|Hnz]; [reflexivity|].
  pose proof (Z.log2_spec n ltac:(lia)) as [_ Hlog].
  destruct (format_digits_lead (S (Z.to_nat (Z.log2 n))) n EmptyString) as (d & r & Hd & E).
  { rewrite Nat2Z.inj_succ, Z2Nat.id by apply Z.log2_nonneg. lia. }
  pose proof (parse_format_udec n Hn) as Hp. unfold format_udec in *. rewrite E in *.
  unfold parse_udec in Hp. apply parse_base_digits in Hp. unfold parse_any_base.
  assert (split_base (String (digit_char d) r) = (10, String (digit_char d) r)) as ->.
  { cbn. rewrite bool_decide_false; [done|]. intros H0. pose proof (digit_of_char d ltac:(lia)) as Hdc.
    rewrite H0 in Hdc. change (Some 0 = Some d) in Hdc. injection Hdc. lia. }
  cbn [fst snd]. by rewrite Hp.
Qed.

Lemma ParseIntAny_FormatInt n : is_int64 n -> ParseIntAny (FormatInt n) = Some n.
Proof.
  intros Hn. unfold FormatInt. destruct (Z.ltb_spec n 0) as [Hneg|Hpos].
  - cbn [ParseIntAny]. rewrite decide_False, decide_True by done.
    rewrite parse_any_format by lia. cbn. rewrite Z.opp_involutive. by rewrite decide_True.
  - destruct (format_udec_head n Hpos) as (d & r & Hd & E). unfold ParseIntAny. rewrite E.
    rewrite decide_False by (by apply digit_char_ne). rewrite decide_False by (by apply digit_char_ne).
    rewrite <-E, parse_any_format by lia. cbn. by rewrite decide_True.
Qed.

Lemma parse_int_flag arg name set n rest c :
  argument_of arg = FlagArg name None -> assoc name flags = Some (IntVar set) -> is_int64 n ->
  parse_flags (arg :: FormatInt n :: rest) c = parse_flags rest (set n c).
Proof. intros Ha Hf Hn. cbn [parse_flags]. rewrite Ha, Hf. cbn [set_flag]. by rewrite ParseIntAny_FormatInt. Qed.

Lemma parse_string_flag arg name set value rest c :
  argument_of arg = FlagArg name None -> assoc name flags = Some (StringVar set) ->
  parse_flags (arg :: value :: rest) c = parse_flags rest (set value c).
Proof. intros Ha Hf. cbn [parse_flags]. by rewrite Ha, Hf. Qed.

Lemma parse_bool_flag arg name set (b : bool) rest c :
  argument_of arg = FlagArg name (Some (if b then "true" else "false")) -> assoc name flags = Some (BoolVar set) ->
  parse_flags (arg :: rest) c = parse_flags rest (set b c).
Proof. intros Ha Hf. cbn [parse_flags]. rewrite Ha, Hf. by destruct b. Qed.

(** C40: The command line that spells out any settings (every integer a 64-bit one, every
    string whatever it contains, even one that looks like a flag) is read back as these
    settings, and nothing is left over. *)
Theorem command_line_roundtrip (c : config.vars) :
  is_int64 (config.Port c) -> is_int64 (config.MaxMemory c) -> is_int64 (config.MaxMemorySamples c) ->
  is_int64 (config.LFULogFactor c) -> is_int64 (config.LFUDecayTime c) ->
  setUpFlags (command_line c) = Parsed c [].
Proof.
  intros H1 H2 H3 H4 H5. unfold setUpFlags, command_line.
  rewrite (parse_int_flag "--port" "port" config.set_Port) by done.
  rewrite (parse_string_flag "--host" "host" config.set_Host) by done.
  rewrite (parse_bool_flag _ "appendOnly" config.set_AppendOnly (config.AppendOnly c)) by (by destruct (config.AppendOnly c)).
  rewrite (parse_string_flag "--appendOnlyFile" "appendOnlyFile" config.set_AppendOnlyFile) by done.
  rewrite (parse_int_flag "--maxmemory" "maxmemory" config.set_MaxMemory) by done.
  rewrite (parse_string_flag "--maxmemory-policy" "maxmemory-policy" config.set_MaxMemoryPolicy) by done.
  rewrite (parse_int_flag "--maxmemory-samples" "maxmemory-samples" config.set_MaxMemorySamples) by done.
  rewrite (parse_int_flag "--lfu-log-factor" "lfu-log-factor" config.set_LFULogFactor) by done.
  rewrite (parse_int_flag "--lfu-decay-time" "lfu-decay-time" config.set_LFUDecayTime) by done.
  rewrite (parse_bool_flag _ "cluster-enabled" config.set_ClusterEnabled (config.ClusterEnabled c)) by (by destruct (config.ClusterEnabled c)).
  rewrite (parse_string_flag "--cluster-config-file" "cluster-config-file" config.set_ClusterConfigFile) by done.
  rewrite (parse_string_flag "--pprof-addr" "pprof-addr" config.set_pprofAddr) by done.
  by destruct c.
Qed.

Lemma command_line_roundtrip_witness :
  let c := config.set_Port (-5) (config.set_Host "--port" (config.set_AppendOnly true defaults)) in
  setUpFlags (command_line c) = Parsed c [].
Proof. apply command_line_roundtrip; by vm_compute. Defined.

(** ** The start of the program *)

Inductive loadError := CannotOpen | BadLayout (e : layoutError).
Inductive fatal := NeedsClusterConfigFile | ClusterError (e : loadError) | InitAOF | RecoverAOF | ListenOn (addr : string).

(** How the start ends: the program exits, stops with a message, panics, or serves on an
    address with a layout and a state. *)
Inductive start_result := Exit (code : Z) | Fatal (e : fatal) | Panics (p : panic) | Serving (addr : string) (c : config.vars) (Current : option Layout) (w : World).

(** The settings the commands read. *)
Definition config_of (c : config.vars) : Config :=
  mkConfig (config.MaxMemory c) (config.MaxMemoryPolicy c) (config.MaxMemorySamples c) (config.ClusterEnabled c).

Section start.
Context `{!GoEnv}.

(** The operating system: the contents of the file opened at a path, if it can be opened;
    the same for a file opened to append, which is created if there is none; whether a
    file can be moved to its start; and whether an address can be listened on. *)
Context (os_Open os_OpenFile : string -> option string) (seekable : string -> bool) (net_Listen : string -> bool).

Definition LoadLayout (path : string) (myPort : Z) : Layout + loadError :=
  match os_Open path with
  | None => inr CannotOpen
  | Some text => match ParseLayout text myPort with inl l => inl l | inr e => inr (BadLayout e) end
  end.

(** [None] is the error. *)
Definition NewAOF (path : string) : option string := os_OpenFile path.

(** [NewAOF], the replay and [SetAOF] of [Run], if there is an append-only file. *)
Definition recover_aof (c : config.vars) (Current : option Layout) (w : World) : outcome World + fatal :=
  if config.AppendOnly c then
    match NewAOF (config.AppendOnlyFile c) with
    | None => inr InitAOF
    | Some file =>
        if seekable (config.AppendOnlyFile c) then
          match startup (config_of c) Current file w with
          | Val (_, w') => inl (Val w')
          | Panic p => inl (Panic p)
          end
        else inr RecoverAOF
    end
  else inl (Val w).

(** [Run] up to the loop that accepts connections. *)
Definition Run_start (c : config.vars) (Current : option Layout) (w : World) : start_result :=
  match recover_aof c Current w with
  | inr e => Fatal e
  | inl (Panic p) => Panics p
  | inl (Val w') =>
      let addr := config.Host c +++ ":" +++ Itoa (config.Port c) in
      if net_Listen addr then Serving addr c Current w' else Fatal (ListenOn addr)
  end.

(** The layout, if the program runs as a cluster node. *)
Definition cluster_start (c : config.vars) : option Layout + fatal :=
  if config.ClusterEnabled c then
    if string_eqb (config.ClusterConfigFile c) EmptyString then inr NeedsClusterConfigFile
    else match LoadLayout (config.ClusterConfigFile c) (config.Port c) with
      | inl l => inl (Some l)
      | inr e => inr (ClusterError e)
      end
  else inl None.

(** The state that [main] has set up before it calls [Run]. *)
Definition settings (c : config.vars) : World :=
  SetLFUParams (config.LFULogFactor c) (config.LFUDecayTime c) (SetPolicy (config.MaxMemoryPolicy c) World_init).

Definition main (args : list string) : start_result :=
  match setUpFlags args with
  | FlagExit code => Exit code
  | Parsed c _ =>
      match cluster_start c with
      | inr e => Fatal e
      | inl Current =>
          Run_start c Current (settings c)
      end
  end.

(** ** The program starts in order *)

Context `{!GoEnvLaws}.

Lemma Replay_keeps cfg Current a cmd : keeps (inv a) (Replay cfg Current cmd).
Proof.
  unfold Replay. destruct (assoc _ _) as [h|] eqn:Eh; [|by apply preserves_keeps, preserves_ret].
  apply keeps_bind; [by eapply handlers_keep|]. intros. apply preserves_keeps, preserves_ret.
Qed.

Lemma recover_loop_keeps cfg Current a fuel file : keeps (inv a) (recover_loop (replayAOFCommand cfg Current) fuel file).
Proof.
  revert file. induction fuel as [|fuel IH]; intros file; cbn [recover_loop]; [by apply preserves_keeps, preserves_ret|].
  destruct (Decode file) as [v r| | |]; try (by apply preserves_keeps, preserves_ret); [|by intros w x w' _].
  destruct v; try apply IH. apply keeps_bind; [|done]. unfold replayAOFCommand.
  destruct (args_of vs); [by apply preserves_keeps, preserves_ret|apply Replay_keeps].
Qed.

Lemma startup_keeps cfg Current file w w' :
  inv None w -> startup cfg Current file w = Val (tt, w') -> inv (Some file) w'.
Proof.
  intros Hw. unfold startup, mbind, GoM_bind. destruct (Recover _ file w) as [[[] w1]|] eqn:E; [|done].
  intros [= <-]. apply (recover_loop_keeps cfg Current None _ _ w tt w1 Hw) in E as [[Hs Hp] _].
  split; [|done]. split; [|exact Hp]. by destruct Hs.
Qed.

(** A decay time that stays positive as a uint32, or one that is ignored. *)
Definition decay_ok (c : config.vars) : Prop := config.LFUDecayTime c < 1 \/ u32 (config.LFUDecayTime c) <> 0.

Lemma settings_in_order c : decay_ok c -> inv None (settings c).
Proof.
  intros Hd. split; [|done]. split; [|apply pool_ok_nil]. destruct World_init_ok. split; try done. cbn.
  unfold decay_ok in Hd. destruct (Z.leb_spec 1 (config.LFUDecayTime c)); [|lia].
  pose proof (Z.mod_pos_bound (config.LFUDecayTime c) (2 ^ 32)) as Hb. unfold u32 in *. lia.
Qed.

(** What the start went through when it gets to serving. *)
Lemma main_Serving args addr c Current w :
  main args = Serving addr c Current w -> cluster_start c = inl Current /\ recover_aof c Current (settings c) = inl (Val w).
Proof.
  unfold main. destruct (setUpFlags args) as [c' rest|]; [|done].
  destruct (cluster_start c') as [Current'|] eqn:Ec; [|done]. unfold Run_start.
  destruct (recover_aof c' Current' _) as [[w'|]|] eqn:Er; try done.
  destruct (net_Listen _); [|done]. by intros [= <- <- <- <-].
Qed.

Lemma main_Serving_flags args addr c Current w :
  main args = Serving addr c Current w ->
  (exists rest, setUpFlags args = Parsed c rest) /\ addr = config.Host c +++ ":" +++ Itoa (config.Port c).
Proof.
  unfold main. destruct (setUpFlags args) as [c' rest|]; [|done].
  destruct (cluster_start c') as [Current'|]; [|done]. unfold Run_start.
  destruct (recover_aof c' Current' _) as [[w'|]|]; try done.
  destruct (net_Listen _); [|done]. intros [= <- <- _ _]. split; [by exists rest|done].
Qed.

Lemma recover_aof_runs c Current w :
  recover_aof c Current (settings c) = inl (Val w) ->
  if config.AppendOnly c then exists file, os_OpenFile (config.AppendOnlyFile c) = Some file /\
    startup (config_of c) Current file (settings c) = Val (tt, w)
  else w = settings c.
Proof.
  unfold recover_aof, NewAOF. destruct (config.AppendOnly c); [|by intros [= <-]].
  destruct (os_OpenFile _) as [file|]; [|done]. destruct (seekable _); [|done].
  destruct (startup _ _ _ _) as [[[] w1]|] eqn:Es; [|done]. intros [= <-]. by exists file.
Qed.

Lemma cluster_start_layout c Current l :
  cluster_start c = inl Current -> Current = Some l ->
  exists text, os_Open (config.ClusterConfigFile c) = Some text /\ ParseLayout text (config.Port c) = inl l.
Proof.
  intros Ec ->. unfold cluster_start, LoadLayout in Ec. destruct (config.ClusterEnabled c); [|done].
  destruct (string_eqb _ _); [done|]. destruct (os_Open _) as [text|]; [|done].
  destruct (ParseLayout text _) as [l'|] eqn:Ep; [|done]. injection Ec as <-. by exists text.
Qed.

Lemma cluster_start_ready c Current : cluster_start c = inl Current -> cluster_ready (config_of c) Current.
Proof.
  intros Ec. destruct Current as [l|].
  - destruct (cluster_start_layout c _ l Ec eq_refl) as (text & _ & Ep). by eapply ParseLayout_ready.
  - intros Hce. cbn in Hce. unfold cluster_start in Ec. rewrite Hce in Ec. destruct (string_eqb _ _); [done|].
    by destruct (LoadLayout _ _).
Qed.

Lemma recover_aof_in_order c Current w :
  decay_ok c -> recover_aof c Current (settings c) = inl (Val w) ->
  inv (if config.AppendOnly c then os_OpenFile (config.AppendOnlyFile c) else None) w.
Proof.
  intros Hd Er. unfold recover_aof, NewAOF in Er. destruct (config.AppendOnly c); [|injection Er as <-; by apply settings_in_order].
  destruct (os_OpenFile _) as [file|]; [|done]. destruct (seekable _); [|done].
  destruct (startup _ _ _ _) as [[[] w1]|] eqn:Es; [|done]. injection Er as <-.
  eapply startup_keeps; [by apply settings_in_order|exact Es].
Qed.

(** C12: The program starts in order and stays so. Whatever the command line and the files
    hold, if the program gets to serving, the store is in order with everything replayed,
    the append-only file is the one that was opened, cluster mode comes with a layout read
    from the file for this port that the dispatcher can rely on, and from there every state
    the concurrent server reaches keeps the store in order. The settings are those of the
    command line, the address is the host and port among them, and the state is the one
    that running the commands of the file, if there is one, makes of the fresh store with
    those settings. The only condition is a decay time that is not a multiple of 2^32. *)
Theorem program_runs_in_order (args : list string) (addr : string) (c : config.vars) (Current : option Layout) (w : World) :
  main args = Serving addr c Current w -> decay_ok c ->
  server_ok w /\ aof w = (if config.AppendOnly c then os_OpenFile (config.AppendOnlyFile c) else None) /\
  cluster_ready (config_of c) Current /\
  (forall l, Current = Some l -> exists text,
     os_Open (config.ClusterConfigFile c) = Some text /\ ParseLayout text (config.Port c) = inl l) /\
  (forall s, reachable_system (config_of c) Current w s -> server_ok (world s)) /\
  (exists rest, setUpFlags args = Parsed c rest) /\ addr = config.Host c +++ ":" +++ Itoa (config.Port c) /\
  (if config.AppendOnly c then exists file, os_OpenFile (config.AppendOnlyFile c) = Some file /\
     startup (config_of c) Current file (settings c) = Val (tt, w)
   else w = settings c).
Proof.
  intros Hm Hd. destruct (main_Serving _ _ _ _ _ Hm) as [Ec Er]. destruct (recover_aof_in_order c Current w Hd Er) as [Hok Ha].
  split; [done|]. split; [done|]. split; [by apply cluster_start_ready|]. split; [intros l; by apply cluster_start_layout|].
  split; [intros s Hs; exact (run_ok_store _ _ _ _ (reachable_run_ok _ _ _ _ Hs) Hok)|].
  destruct (main_Serving_flags _ _ _ _ _ Hm) as [Hf Haddr]. split; [done|]. split; [done|]. by apply recover_aof_runs.
Qed.

(** The keyspace a start without expiries comes up with. *)
Lemma recover_aof_shows c Current w log :
  decay_ok c -> cluster_ready (config_of c) Current -> recover_aof c Current (settings c) = inl (Val w) ->
  (if config.AppendOnly c then os_OpenFile (config.AppendOnlyFile c) = Some (written (record <$> log)) else log = []) ->
  Forall (fun cmd => is_in (cmdName cmd) writeCommands = true /\ lasting cmd /\ sendable (record cmd)) log ->
  shows w (replayed log ∅).
Proof.
  intros Hd Hready Er Hlog Hl.
  assert (shows (settings c) ∅) as Hinit.
  { split; [apply (settings_in_order c Hd)|]. split; [apply map_Forall_empty|apply fmap_empty]. }
  unfold recover_aof, NewAOF in Er. destruct (config.AppendOnly c); [|injection Er as <-; by subst log].
  rewrite Hlog in Er. destruct (seekable _); [|done]. unfold startup, mbind, GoM_bind in Er.
  pose proof (Recover_written (replayAOFCommand (config_of c) Current) (record <$> log) EmptyString (settings c)) as Hrec.
  rewrite append_nil_r in Hrec. rewrite Hrec in Er by (apply Forall_fmap; eapply Forall_impl; [exact Hl|]; naive_solver).
  unfold mbind, GoM_bind in Er. destruct (forM (record <$> log) _ (settings c)) as [[[] w2]|] eqn:E; [|done].
  change (Recover (replayAOFCommand (config_of c) Current) EmptyString w2) with (Val (tt, w2)) in Er. injection Er as <-.
  eapply replay_log in E as (Hw2 & Hp & HK); [|exact Hready|exact Hinit|eapply Forall_impl; [exact Hl|]; naive_solver].
  split; [destruct Hw2 as [[] Hpool]; by split; [split|]|]. by split.
Qed.

(** C1: The program implements the keyspace. From the command line to the replies: if the
    program gets to serving, with an append-only file that holds any log of write commands
    or without one, then whatever its clients send and however it runs, the history of
    requests and replies is linearizable with respect to the abstract keyspace that starts
    with what the logged commands leave. No command, logged or sent, gives a key a deadline,
    and the decay time is not a multiple of 2^32. *)
Theorem program_is_linearizable (args : list string) (addr : string) (c : config.vars) (Current : option Layout) (w : World)
    (log : list Command) (h : list event) (s : system) :
  main args = Serving addr c Current w -> decay_ok c ->
  (if config.AppendOnly c then os_OpenFile (config.AppendOnlyFile c) = Some (written (record <$> log)) else log = []) ->
  Forall (fun cmd => is_in (cmdName cmd) writeCommands = true /\ lasting cmd /\ sendable (record cmd)) log ->
  observed (config_of c) Current w h s -> (forall i req, Invoke i req ∈ h -> Forall lasting (commands_of req)) ->
  linearizable (k_serve (config_of c) Current) (replayed log ∅) h (contents (world s)).
Proof.
  intros [Ec Er]%main_Serving Hd Hlog Hl Ho Hh. pose proof (cluster_start_ready c Current Ec) as Hready.
  destruct (recover_aof_shows c Current w log Hd Hready Er Hlog Hl) as (Hok & Hp & <-).
  by apply server_is_linearizable.
Qed.
End start.

(** ** Concrete starts *)

Section witnesses.
Local Instance start_env : GoEnv := env_at (unixToInternal + 10 * Second).
Local Instance start_laws : GoEnvLaws.
Proof. apply env_at_laws. unfold Second. lia. Defined.

(** A disk with an append-only file of one command and a cluster layout. *)
Definition disk (path : string) : option string :=
  if string_eqb path "data.aof" then Some (EncodeArray ["SET"; "k"; "v"])
  else if string_eqb path "cluster.conf" then Some small_file
  else None.

Definition start_on_disk : list string -> start_result := main disk disk (fun _ => true) (fun _ => true).

Definition node_args : list string :=
  ["--cluster-enabled"; "--cluster-config-file=cluster.conf"; "-port"; "7001"; "--appendOnly"; "--appendOnlyFile"; "data.aof"].

(** What a start that gets to serving serves with. *)
Definition serving_of (r : start_result) : string * config.vars * option Layout * World :=
  match r with Serving addr c Current w => (addr, c, Current, w) | _ => (EmptyString, defaults, None, World_init) end.

Definition node_start : string * config.vars * option Layout * World := serving_of (start_on_disk node_args).

Lemma node_starts : start_on_disk node_args = Serving node_start.1.1.1 node_start.1.1.2 node_start.1.2 node_start.2.
Proof. vm_compute. reflexivity. Qed.

Lemma program_runs_in_order_witness :
  server_ok node_start.2 /\ aof node_start.2 = Some (EncodeArray ["SET"; "k"; "v"]) /\ size (dataOf node_start.2) = 1%nat.
Proof.
  destruct (program_runs_in_order disk disk (fun _ => true) (fun _ => true) node_args _ _ _ _ node_starts) as (Hok & Ha & _).
  - right. vm_compute. discriminate.
  - split; [exact Hok|]. split; [rewrite Ha; vm_compute; reflexivity|vm_compute; reflexivity].
Defined.

(** The program started on the file, and two connections: one sets a key while the other
    reads it and the key from the file. *)
Definition file_start : string * config.vars * option Layout * World :=
  serving_of (start_on_disk ["--appendOnly"; "--appendOnlyFile"; "data.aof"]).

Lemma file_starts :
  start_on_disk ["--appendOnly"; "--appendOnlyFile"; "data.aof"]
  = Serving file_start.1.1.1 file_start.1.1.2 file_start.1.2 file_start.2.
Proof. vm_compute. reflexivity. Qed.

Definition two_connections : list action :=
  [Accept all_arrived (wire [("SET", ["j"; "x"])]); Accept all_arrived (wire [("GET", ["j"]); ("GET", ["k"])]);
   GetNew 1; GetNew 2; Send 1; Send 2; Serve; Reply; Serve; Receive 1; Reply; Receive 2].

Definition file_history : list event :=
  history (config_of file_start.1.1.2) file_start.1.2 two_connections (init file_start.2).

Lemma file_history_is :
  file_history =
  [Invoke 1 (mkRequest (mkCommand "SET" ["j"; "x"]) [] []);
   Invoke 2 (mkRequest (mkCommand EmptyString []) [] [mkCommand "GET" ["j"]; mkCommand "GET" ["k"]]);
   Respond 1 (EncodeSimpleString "OK"); Respond 2 (EncodeBulkString "x" +++ EncodeBulkString "v")].
Proof. vm_compute. reflexivity. Qed.

Lemma file_observed :
  observed (config_of file_start.1.1.2) file_start.1.2 file_start.2 file_history
    (after (config_of file_start.1.1.2) file_start.1.2 two_connections file_start.2).
Proof. apply schedule_observed. vm_compute. reflexivity. Qed.

Lemma file_lasting i req : Invoke i req ∈ file_history -> Forall lasting (commands_of req).
Proof.
  rewrite file_history_is. intros Hin%list_elem_of_In.
  repeat (destruct Hin as [Hin|Hin]; [first [discriminate Hin|injection Hin as <- <-; repeat constructor; discriminate]|]).
  destruct Hin.
Qed.

Lemma program_is_linearizable_witness :
  linearizable (k_serve (config_of file_start.1.1.2) file_start.1.2) (replayed [mkCommand "SET" ["k"; "v"]] ∅) file_history
    (contents (world (after (config_of file_start.1.1.2) file_start.1.2 two_connections file_start.2))) /\
  responses 2 file_history = [EncodeBulkString "x" +++ EncodeBulkString "v"].
Proof.
  split; [|rewrite file_history_is; reflexivity].
  apply (program_is_linearizable disk disk (fun _ => true) (fun _ => true) _ _ _ _ _ [mkCommand "SET" ["k"; "v"]] _ _ file_starts).
  - right. vm_compute. discriminate.
  - vm_compute. reflexivity.
  - constructor; [|constructor]. split; [reflexivity|]. split; [discriminate|]. split; [|done]. repeat constructor; unfold small; done.
  - exact file_observed.
  - exact file_lasting.
Defined.

(** A decay time of 2^32 minutes is accepted and becomes 0: the first read of a key
    divides by it, which stops the server. *)
Example zero_decay_time_panics :
  match start_on_disk ["--maxmemory-policy"; "allkeys-lfu"; "--lfu-decay-time"; "4294967296"] with
  | Serving _ c Current w =>
      dispatch_each (config_of c) Current [mkCommand "SET" ["k"; "v"]; mkCommand "GET" ["k"]] w = Panic IntegerDivideByZero
  | _ => False
  end.
Proof. vm_compute. reflexivity. Qed.

(** Mistakes on the command line and missing files stop the program before it serves. *)
Example failed_starts :
  start_on_disk ["--cluster-enabled"] = Fatal NeedsClusterConfigFile /\
  start_on_disk ["--cluster-enabled"; "--cluster-config-file"; "no.conf"] = Fatal (ClusterError CannotOpen) /\
  start_on_disk ["--appendOnly"] = Fatal InitAOF /\ start_on_disk ["--portt"; "1"] = Exit 2.
Proof. repeat split; vm_compute; reflexivity. Qed.
End witnesses.
